(* ===== verification/_CoqProject ===== *)
-Q . S2P
Prelude.v
BTree.v
Async.v
Types.v
AckCoordinator.v
ByteBudget.v
Source.v
Options.v
Metrics.v
ClickHouseMetrics.v
WriteRetry.v
Decode.v
Pipeline.v
PipelineDemo.v
PipelineResources.v
PipelineWorkers.v
PipelineSafety.v
PipelineRestart.v
PipelineProvenance.v
PipelineProgress.v
PipelineStages.v
PipelineMetrics.v
SinkGauge.v
Envelope.v
OtlpLogs.v
RowValue.v
LogsAdapter.v
Serializer.v
Writer.v
ClickHouseSink.v
SinkConcurrency.v
EndToEnd.v
ConcurrentDelivery.v
IngestorConfig.v
Ingestor.v
Process.v
MetricsServer.v
Bench.v
Testing.v
AckCoordinatorTests.v
ByteBudgetTests.v
RuntimeTests.v
OtelTests.v
Sha2.v
LogsAdapterTests.v
AdapterTokenTests.v
SerializerTests.v
SinkTests.v
IngestorTests.v
RuntimeHarness.v
AckCorrectnessTests.v
PipelineTests.v
