(* ===== verification/Prelude.v ===== *)
(** * opendata-contrib: the ingest pipeline, verified

    The repository moves OpenTelemetry logs from an object-store buffer into a
    ClickHouse table.  Producers append data objects to the buffer; the ingestor
    reads them in the order of their sequences, decodes them, inserts the rows
    and acknowledges the sequences, so that a restarted process reads on after
    the last durable acknowledgement.  This library models that path from the
    configuration file to the HTTP requests, and proves that nothing is
    acknowledged that is not in the table.

    ** Parts and their files

    The runtime (runtime/opendata-ingest-runtime/src), generic over a buffer, a
    decoder and a sink:
    - [Types]: error.rs, identity.rs, decoded_batch.rs and the traits of
      decoder.rs and sink.rs, as type classes ([Decoder], [Sink],
      [TypedRecords]) against which the runtime is modelled;
    - [AckCoordinator]: ack_coordinator.rs, over the ordered map of [BTree];
      one definition per method and, beside it, the history of the registered
      ranges as its abstract specification;
    - [ByteBudget]: source_budget.rs, the atomics as a store with one
      transition per method, [reserve] also as a concurrent step machine;
    - [Source]: source.rs, [BufferSource] over the class [Consumer] of the
      buffer crate, whose documented behaviour is [ConsumerLaws];
    - [Options]: the public configuration of runtime.rs and
      [RuntimeBuilder::build];  [Metrics]: the metric families of metrics.rs,
      whose emissions by the tasks of a run are in [PipelineMetrics];
    - [Async]: futures as trees of calls: what a future must satisfy at each
      call ([holds]), running it, dropping it at an await, and a pool of futures
      under any schedule;
    - [WriteRetry]: [write_with_retry], as the loop of the source and as a
      machine that stops at its awaits;  [Decode]: [decode_one];
    - [Pipeline]: [Runtime::run], [per_source_actor], [fetch_worker],
      [decode_worker] and [writer_worker] as a machine.  A state ([Sys]) has the
      program counter of every task with the values it owns, the bounded
      channels, the budget, the tokens, the two outside worlds and a trace of
      the admissions, sink calls, acknowledgements and flushes; an event says
      which task moves and how its await resolves.  [PipelineDemo] is a
      concrete run;
    - [SinkGauge]: the sink byte gauge of [writer_worker], whose load and set
      are two steps of concurrent writers.

    The OpenTelemetry plugin (plugins/opendata-ingest-otel/src): [Envelope]
    (envelope.rs) and [OtlpLogs] (logs.rs), over the class [OtlpProto] of the
    generated protobuf types.

    The ClickHouse plugin (plugins/opendata-ingest-clickhouse/src): [RowValue]
    (adapter/mod.rs), [LogsAdapter] (adapter/logs.rs), [Serializer]
    (serializer/), [ClickHouseMetrics] (metrics.rs), [Writer] (writer.rs, over
    the class [Reqwest]) and [ClickHouseSink] (sink.rs), the instance of [Sink].
    Writer and sink are futures of [Async] whose calls are the requests, the
    sleeps and the metric updates; run alone they are the sink of the pipeline,
    and in [SinkConcurrency] many of them overlap call by call.
    [EndToEnd] puts buffer, decoder and sink together, [ConcurrentDelivery] does
    so with overlapping sink calls.

    The binary (connectors/clickhouse-ingestor/src): [IngestorConfig] (config.rs
    and error.rs, over the class [Figment]), [Ingestor] (bin/, the wiring),
    [Process] (bin/, what main runs after it: the runtime, the metrics server of
    metrics_server.rs and the signal task over one shutdown token, as a machine
    around the pipeline's), [MetricsServer] (metrics_registry.rs and the routes
    of metrics_server.rs), [Bench] (bench.rs).

    The tests.  [Testing] is the vocabulary of a test (assertions, unwrapping,
    panics) as computations of [M].  [AckCoordinatorTests], [ByteBudgetTests],
    [RuntimeTests], [OtelTests], [LogsAdapterTests], [SerializerTests],
    [SinkTests] and [IngestorTests] are the [mod tests] of the sources,
    [AdapterTokenTests] the contract tests of the insert token, with the SHA-256
    of [Sha2].  [RuntimeHarness] has the test doubles of the integration tests
    and an executor that resumes the tasks of the pipeline machine in turn;
    [AckCorrectnessTests] and [PipelineTests] are the integration tests run by
    it, with the crashes, the fences and the second runtime on the same store.

    A method that changes state and can fail is a computation of the monad [M]
    below: the new state and a [result], so what an error leaves behind is part
    of every statement.  Machine integers are [N] (or [Z] for signed ones) with
    the edge behaviour of each Rust operation written out.

    ** What is shown

    - Of the whole binary: whatever it acknowledged, or made durable, was
      fetched and decoded, and the inserts that ClickHouse acknowledged hold one
      row per record (Ingestor.ingestor_delivers, from
      EndToEnd.acknowledged_records_are_delivered); a dry run has no effect;
      the wiring on every branch.  Of its process: an exit with success means a
      complete drain and the delivery of everything admitted, however the
      metrics server ended, and after the shutdown main returns within a bound
      on the steps of all its tasks ([Process]).
    - Of the pipeline, in every state of every run, whatever the scheduling,
      the faults, the retries and the aborts: acknowledgements only after the
      commits they cover, in order ([PipelineSafety]); the durable cursor, also
      across a restart ([PipelineRestart]); each acknowledgement rests on the
      data of its own sequence ([PipelineProvenance]); a clean exit is a
      complete drain; the actor's counters are exact; permits, bytes and gauges
      are conserved, and the sends between stages never block
      ([PipelineResources]).  No reachable state is a deadlock, and once
      admission is closed every schedule ends the run ([PipelineProgress]).
      Each stage counter is the bytes of its own stage ([PipelineStages]), and
      the metrics agree with the run ([PipelineMetrics]).
      [PipelineWorkers] has what a worker step does.
    - Of the coordinator: it refines the history of ranges; the frontier is the
      longest committed prefix and never passes a hole.  Of the budget: its
      accounting, and no lost wake-up.  Of the source: the ack protocol and the
      assignment of metadata to entries.
    - Of the retry loops: the exact protocol of the calls, termination, the
      verdict, and the refinement of the loop by the machine.
    - Of the data path: the envelope check and the decoder against their
      specifications; rows have unique coordinates; a plan covers its commit,
      is deterministic and its tokens identify its chunks; LEB128, RowBinary and
      the calendar are exact, and the bodies of a plan read back to the rows;
      columns, types, DDL and values agree.  Of the writer and the sink: the
      requests of an insert, of a plan, what a write may claim, and what a
      dropped write has sent.
    - Of concurrent sink calls ([SinkConcurrency]), under every schedule and
      with writes dropped at any await: each call's own requests are those of a
      run by itself; the in-flight gauge is between the waiting calls and the
      started ones; the commit counters are exact.  [ConcurrentDelivery] carries
      the end-to-end statement over to such calls.
    - Of the definitions themselves: the repository's own tests, translated line
      by line, pass on the model when it is evaluated; each suite's theorem says
      that the list of its failing tests is empty.

    ** Bounds and fuel

    [write_loop] has [max_attempts + 1] iterations of fuel and [attempt_loop]
    of the writer [max_attempts + 1]; the theorems of termination show that both
    return with it.  [year_loop] has two iterations more than there are days, and
    [month_loop] has 13; both end within them ([date_parts_exact]); [varuint_loop] has ten groups,
    which hold 70 bits; [advance_range] has the number of ranges.  Runs of the
    pipeline are finite lists of events, of any length; [drain] runs a closed
    pipeline with [work] steps of fuel, which are enough
    ([drain_terminates]).  The executor of [RuntimeHarness] has 2000 turns,
    which stand for the time limits of the tests; a test that needs more fails.

    ** What is not modelled

    Wall-clock times: the values of the latency and lag histograms, and the
    length of a sleep beyond what is asked for; whether a wait was long is a
    choice of the environment.  In [PipelineMetrics] a gauge is set in one step with
    the read that feeds it; [SinkGauge] separates the two for the gauge that
    concurrent workers set.  In the machine of [Pipeline] a sink write is one
    step; the interleaving of the requests of overlapping calls is in
    [SinkConcurrency] and [ConcurrentDelivery].  The test hooks of the builder.
    That a call of the sink, of the object store or a sleep returns at all is
    the environment's choice: progress is stated for the tasks, given that
    their awaits on the outside resolve.
    What is on a socket or in a log line, and the argument parser; the encoding
    of the metrics as text; the deployment files.  Of the tests, those that
    exercise the text encoder or the HTTP server, need a hook, a clock, a
    counting store or a ClickHouse server.  The crates the source calls are parameters, with
    what is relied on of them stated as the laws of their class or as
    hypotheses; each such hypothesis holds of a concrete instance in a
    witness. *)

From Stdlib Require Import NArith ZArith Lia.
From Stdlib Require Import Strings.Byte.
From Stdlib Require Export Strings.Ascii.
From stdpp Require Export base gmap sets list strings pretty.

#[global] Unset Printing Records.

(** ** Results: the source's [Result<T, E>] *)

Inductive result (A E : Type) : Type :=
| Ok (a : A)
| Err (e : E).
Arguments Ok {A E} a.
Arguments Err {A E} e.

Declare Scope rust_scope.
Delimit Scope rust_scope with rust.
Open Scope rust_scope.

(** The [?] operator on a pure [Result]. *)
Notation "'let?' x := m 'in' k" :=
  (match m with Ok x => k | Err e => Err e end)
  (at level 10, x pattern, m at level 100, k at level 200) : rust_scope.

(** [Result::map_err]. *)
Definition map_err {A E F} (f : E → F) (r : result A E) : result A F :=
  match r with Ok a => Ok a | Err e => Err (f e) end.

(** [Option::ok_or]. *)
Definition ok_or {A E} (o : option A) (e : E) : result A E :=
  match o with Some a => Ok a | None => Err e end.

(** [Result::is_ok]. *)
Definition is_ok {A E} (r : result A E) : bool :=
  match r with Ok _ => true | Err _ => false end.

(** Collecting an iterator of results: the first error wins. *)
Fixpoint collect_results {A E} (l : list (result A E)) : result (list A) E :=
  match l with
  | [] => Ok []
  | r :: rest =>
      let? a := r in
      let? xs := collect_results rest in
      Ok (a :: xs)
  end.

Lemma collect_results_ok {A E} (l : list (result A E)) (xs : list A) :
  collect_results l = Ok xs ↔ Forall2 (λ r a, r = Ok a) l xs.
Proof.
  revert xs. induction l as [|r l IH]; intros xs; simpl.
  - split; [intros [= <-]; constructor | by inversion 1].
  - destruct r as [a|e].
    + destruct (collect_results l) as [ys|e] eqn:Hl.
      * split.
        -- intros [= <-]. constructor; [done | by apply IH].
        -- inversion 1 as [|? b ? bs ? Hbs]; subst. apply IH in Hbs. congruence.
      * split; [done|].
        inversion 1 as [|? b ? bs ? Hbs]; subst. apply IH in Hbs. congruence.
    + split; [done | by inversion 1].
Qed.

Lemma collect_results_length {A E} (l : list (result A E)) (xs : list A) :
  collect_results l = Ok xs → length xs = length l.
Proof. intros H%collect_results_ok. symmetry. by eapply Forall2_length. Qed.

(** ** A state-and-error monad

    [M S E A] is a computation over an explicit state [S] that returns a
    [Result].  The state survives an error: a Rust [&mut self] method that
    returns [Err] keeps the writes it made before the [return]. *)

Definition M (S E A : Type) : Type := S → S * result A E.

#[export] Instance M_ret {S E} : MRet (M S E) := λ A a s, (s, Ok a).
#[export] Instance M_bind {S E} : MBind (M S E) := λ A B f m s,
  match m s with
  | (s', Ok a) => f a s'
  | (s', Err e) => (s', Err e)
  end.

Definition get {S E} : M S E S := λ s, (s, Ok s).
Definition modify {S E} (f : S → S) : M S E unit := λ s, (f s, Ok tt).
Definition throw {S E A} (e : E) : M S E A := λ s, (s, Err e).
Definition when {S E} (b : bool) (m : M S E unit) : M S E unit :=
  if b then m else mret tt.

(** Run a pure [Result] inside the monad. *)
Definition lift {S E A} (r : result A E) : M S E A := λ s, (s, r).

(** Run an operation on a component of the state. *)
Definition zoom {S T E A} (view : S → T) (upd : T → S → S) (m : M T E A) : M S E A :=
  λ s, let '(t, r) := m (view s) in (upd t s, r).

(** [for x in l { f(x)?; }] *)
Fixpoint for_each {S E A} (l : list A) (f : A → M S E unit) : M S E unit :=
  match l with
  | [] => mret tt
  | x :: rest => f x ;; for_each rest f
  end.

Lemma run_bind {S E A B} (m : M S E A) (f : A → M S E B) (s : S) :
  (m ≫= f) s = match m s with (s', Ok a) => f a s' | (s', Err e) => (s', Err e) end.
Proof. done. Qed.

Lemma run_bind_ok {S E A B} (m : M S E A) (f : A → M S E B) (s s' : S) a :
  m s = (s', Ok a) → (m ≫= f) s = f a s'.
Proof. intros H. by rewrite run_bind, H. Qed.

Lemma run_bind_inv {S E A B} (m : M S E A) (f : A → M S E B) (s s' : S) b :
  (m ≫= f) s = (s', Ok b) → ∃ s1 a, m s = (s1, Ok a) ∧ f a s1 = (s', Ok b).
Proof. rewrite run_bind. destruct (m s) as [s1 [a|e]]; [eauto|done]. Qed.

(** An invariant kept by every iteration is kept by the loop, whatever its
    result. *)
Lemma for_each_inv {S E A} (P : S → Prop) (l : list A) (f : A → M S E unit) :
  (∀ x s, x ∈ l → P s → P (f x s).1) → ∀ s, P s → P (for_each l f s).1.
Proof.
  induction l as [|x l IH]; intros Hf s Hs; simpl; [done|].
  change (P ((f x ≫= λ _, for_each l f) s).1). rewrite run_bind.
  pose proof (Hf x s ltac:(left) Hs) as H1.
  destruct (f x s) as [s1 [[]|e]]; simpl in *; [|done].
  apply IH; [|done]. intros y s2 Hy. apply Hf. by right.
Qed.

(** A view of the state that a computation leaves as it was, whatever its
    result. *)
Section preserves.
Context {S E V : Type} (g : S → V).
Definition preserves {A} (m : M S E A) : Prop := ∀ s, g (m s).1 = g s.

Lemma preserves_bind {A B} (m : M S E A) (f : A → M S E B) :
  preserves m → (∀ a, preserves (f a)) → preserves (m ≫= f).
Proof.
  intros Hm Hf s. rewrite run_bind. specialize (Hm s). destruct (m s) as [s1 [a|e]]; [|done].
  by rewrite (Hf a s1).
Qed.
Lemma preserves_ret {A} (a : A) : preserves (mret a).
Proof. by intros s. Qed.
Lemma preserves_get (f : S → M S E unit) : (∀ s, preserves (f s)) → preserves (get ≫= f).
Proof. intros Hf. by apply preserves_bind. Qed.
Lemma preserves_modify (f : S → S) : (∀ s, g (f s) = g s) → preserves (modify f).
Proof. intros Hf s. apply Hf. Qed.
Lemma preserves_when b (m : M S E unit) : preserves m → preserves (when b m).
Proof. by destruct b. Qed.
Lemma preserves_for_each {A} (l : list A) (f : A → M S E unit) :
  (∀ x, preserves (f x)) → preserves (for_each l f).
Proof.
  intros Hf. induction l as [|x l IH]; [apply preserves_ret|]. apply preserves_bind; [apply Hf|]. by intros _.
Qed.
End preserves.

(** ** Machine integers

    A [u64] is an [N] below [2^64]; the operations write out what Rust does at
    the edge of the type. *)

Definition u64_max : N := 18446744073709551615%N.
Definition u32_max : N := 4294967295%N.
Definition wrap64 (n : N) : N := (n mod 18446744073709551616)%N.
Definition wrap32 (n : N) : N := (n mod 4294967296)%N.
Definition is_u64 (n : N) : Prop := (n ≤ u64_max)%N.
Definition is_u32 (n : N) : Prop := (n ≤ u32_max)%N.

Definition sat_add64 (a b : N) : N := N.min (a + b) u64_max.
Definition sat_mul64 (a b : N) : N := N.min (a * b) u64_max.
Definition sat_add32 (a b : N) : N := N.min (a + b) u32_max.
Definition checked_add64 (a b : N) : option N :=
  if (a + b <=? u64_max)%N then Some (a + b)%N else None.
(** [fetch_add] / [fetch_sub] on an [AtomicU64] wrap around. *)
Definition wrapping_add64 (a b : N) : N := wrap64 (a + b).
Definition wrapping_sub64 (a b : N) : N := wrap64 (a + (18446744073709551616 - wrap64 b)).

Create HintDb u64 discriminated.

Ltac u64_unfold :=
  unfold wrapping_sub64, wrapping_add64, checked_add64, sat_add64, sat_mul64, sat_add32,
    wrap64, wrap32, is_u64, is_u32, u64_max, u32_max in *.
(** Arithmetic on machine integers: unfold, then [lia]. *)
Ltac u64_lia := u64_unfold; lia.

Lemma wrap64_small n : is_u64 n → wrap64 n = n.
Proof. intros. u64_unfold. apply N.mod_small. lia. Qed.

Lemma wrap64_bound n : is_u64 (wrap64 n).
Proof. u64_unfold. pose proof (N.mod_upper_bound n 18446744073709551616). lia. Qed.

Lemma wrapping_add64_spec n a : wrapping_add64 (wrap64 n) a = wrap64 (n + a).
Proof. unfold wrapping_add64, wrap64. by rewrite N.Div0.add_mod_idemp_l. Qed.

Lemma wrap64_add_l a b : wrap64 (wrap64 a + b) = wrap64 (a + b).
Proof. unfold wrap64. by rewrite N.Div0.add_mod_idemp_l. Qed.
Lemma wrap64_add_r a b : wrap64 (a + wrap64 b) = wrap64 (a + b).
Proof. unfold wrap64. by rewrite N.Div0.add_mod_idemp_r. Qed.
Lemma wrap64_add3 a b c : wrap64 (wrap64 a + wrap64 b + wrap64 c) = wrap64 (a + b + c).
Proof.
  rewrite wrap64_add_r, <- (wrap64_add_l (wrap64 a + wrap64 b) c), (wrap64_add_r (wrap64 a) b),
    (wrap64_add_l a b).
  by rewrite wrap64_add_l.
Qed.
Lemma wrap64_add4 a b c d :
  wrap64 (wrap64 a + wrap64 b + wrap64 c + wrap64 d) = wrap64 (a + b + c + d).
Proof.
  rewrite wrap64_add_r, <- (wrap64_add_l (wrap64 a + wrap64 b + wrap64 c) d), wrap64_add3.
  by rewrite wrap64_add_l.
Qed.

Lemma wrapping_sub64_spec n a : (a ≤ n)%N → wrapping_sub64 (wrap64 n) a = wrap64 (n - a).
Proof.
  intros Ha. unfold wrapping_sub64, wrap64.
  pose proof (N.div_mod n 18446744073709551616 ltac:(lia)) as Hn.
  pose proof (N.mod_upper_bound n 18446744073709551616 ltac:(lia)).
  pose proof (N.div_mod a 18446744073709551616 ltac:(lia)) as Ha'.
  pose proof (N.mod_upper_bound a 18446744073709551616 ltac:(lia)).
  set (M := 18446744073709551616%N) in *.
  set (qn := (n / M)%N) in *. set (rn := (n mod M)%N) in *.
  set (qa := (a / M)%N) in *. set (ra := (a mod M)%N) in *.
  destruct (N.le_gt_cases ra rn).
  - replace (rn + (M - ra))%N with ((rn - ra) + 1 * M)%N by lia.
    rewrite N.Div0.mod_add.
    replace (n - a)%N with ((rn - ra) + (qn - qa) * M)%N by nia.
    by rewrite N.Div0.mod_add.
  - assert (qa < qn)%N by nia.
    replace (n - a)%N with ((rn + (M - ra)) + (qn - qa - 1) * M)%N by nia.
    by rewrite N.Div0.mod_add.
Qed.

Lemma sat_add64_bound a b : is_u64 (sat_add64 a b).
Proof. u64_lia. Qed.
Lemma sat_mul64_bound a b : is_u64 (sat_mul64 a b).
Proof. u64_lia. Qed.
Lemma sat_add64_exact a b : (a + b ≤ u64_max)%N → sat_add64 a b = (a + b)%N.
Proof. u64_lia. Qed.

Lemma sat_add64_top a b : is_u64 a → (u64_max ≤ a)%N → sat_add64 a b = a.
Proof. u64_lia. Qed.

#[export] Hint Resolve wrap64_bound sat_add64_bound sat_mul64_bound : u64.

(** ** Bytes *)

Abbreviation byte := Init.Byte.byte.

(** [n as u8]. *)
Definition u8_of_N (n : N) : byte := default Byte.x00 (Byte.of_N (n mod 256)).

Lemma u8_of_N_to_N n : Byte.to_N (u8_of_N n) = (n mod 256)%N.
Proof.
  unfold u8_of_N.
  destruct (Byte.of_N (n mod 256)) as [b|] eqn:Hb; simpl.
  - by apply Byte.to_of_N.
  - apply Byte.of_N_None_iff in Hb. pose proof (N.mod_upper_bound n 256). lia.
Qed.

Lemma u8_of_to_N b : u8_of_N (Byte.to_N b) = b.
Proof.
  unfold u8_of_N. rewrite N.mod_small.
  - by rewrite Byte.of_to_N.
  - pose proof (Byte.to_N_bounded b). lia.
Qed.

Lemma byte_to_N_inj b c : Byte.to_N b = Byte.to_N c → b = c.
Proof. intros H. rewrite <- (u8_of_to_N b), H. apply u8_of_to_N. Qed.

#[export] Instance byte_eq_dec : EqDecision byte := Byte.byte_eq_dec.

(** The UTF-8 bytes of a [String]: a Rust string is its bytes. *)
Definition as_bytes (s : string) : list byte := String.list_byte_of_string s.

Lemma as_bytes_length s : length (as_bytes s) = String.length s.
Proof.
  unfold as_bytes, String.list_byte_of_string. rewrite length_map.
  induction s as [|c s IH]; simpl; [done | by rewrite IH].
Qed.

Lemma as_bytes_inj s t : as_bytes s = as_bytes t → s = t.
Proof.
  unfold as_bytes. intros H.
  rewrite <- (String.string_of_list_byte_of_string s), H.
  apply String.string_of_list_byte_of_string.
Qed.

Lemma as_bytes_app s t : as_bytes (s +:+ t) = as_bytes s ++ as_bytes t.
Proof.
  unfold as_bytes, String.list_byte_of_string.
  induction s as [|c s IH]; simpl; [done | by rewrite IH].
Qed.

(** ** Decimal rendering: [u64::to_string] and the [{}] of a format string *)

Definition show (n : N) : string := pretty n.
Definition show_nat (n : nat) : string := pretty n.
Definition show_Z (z : Z) : string := pretty z.

Lemma show_inj a b : show a = show b → a = b.
Proof. apply pretty_N_inj. Qed.

(** ** Strings split at a delimiter *)

(** [str_free c s]: the character [c] does not occur in [s]. *)
Fixpoint str_free (c : ascii) (s : string) : bool :=
  match s with
  | EmptyString => true
  | String a s' => negb (Ascii.eqb a c) && str_free c s'
  end.

Lemma str_free_app c s t : str_free c (s +:+ t) = str_free c s && str_free c t.
Proof. induction s as [|a s IH]; simpl; [done|]. by rewrite IH, andb_assoc. Qed.

Lemma string_app_assoc (s t u : string) : (s +:+ t) +:+ u = s +:+ (t +:+ u).
Proof. induction s as [|a s IH]; [done | exact (f_equal (String a) IH)]. Qed.

(** Two strings cut at the first occurrence of a delimiter have the same
    parts. *)
Lemma delim_inj c s1 s2 t1 t2 :
  str_free c s1 = true → str_free c s2 = true →
  s1 +:+ String c t1 = s2 +:+ String c t2 → s1 = s2 ∧ t1 = t2.
Proof.
  revert s2. induction s1 as [|a s1 IH]; intros [|b s2]; simpl; intros H1 H2 Heq.
  - by simplify_eq.
  - simplify_eq. by rewrite Ascii.eqb_refl in H2.
  - simplify_eq. by rewrite Ascii.eqb_refl in H1.
  - simplify_eq. apply andb_prop in H1 as [_ H1]. apply andb_prop in H2 as [_ H2].
    match goal with H : _ = _ |- _ => destruct (IH _ H1 H2 H) as [-> ->] end. done.
Qed.

(** The same cut at the last occurrence: the delimiter is absent on the
    right. *)
Lemma delim_inj_r c s1 s2 t1 t2 :
  str_free c t1 = true → str_free c t2 = true →
  s1 +:+ String c t1 = s2 +:+ String c t2 → s1 = s2 ∧ t1 = t2.
Proof.
  revert s2. induction s1 as [|a s1 IH]; intros [|b s2]; simpl; intros H1 H2 Heq.
  - by simplify_eq.
  - simplify_eq. rewrite str_free_app in H1. simpl in H1.
    by rewrite Ascii.eqb_refl, andb_false_r in H1.
  - simplify_eq. rewrite str_free_app in H2. simpl in H2.
    by rewrite Ascii.eqb_refl, andb_false_r in H2.
  - simplify_eq.
    match goal with H : _ = _ |- _ => destruct (IH _ H1 H2 H) as [-> ->] end. done.
Qed.

Lemma string_app_inj_l (s t1 t2 : string) : s +:+ t1 = s +:+ t2 → t1 = t2.
Proof. induction s; simpl; [done|]. intros [= ?]. auto. Qed.

Definition is_digit (c : ascii) : bool :=
  let n := Ascii.N_of_ascii c in (48 <=? n)%N && (n <=? 57)%N.

Fixpoint all_digits (s : string) : bool :=
  match s with EmptyString => true | String a s' => is_digit a && all_digits s' end.

Lemma all_digits_free c s : is_digit c = false → all_digits s = true → str_free c s = true.
Proof.
  intros Hc. induction s as [|a s IH]; simpl; [done|].
  intros [Ha Hs]%andb_prop. rewrite IH by done. rewrite andb_true_r.
  apply negb_true_iff, Ascii.eqb_neq. intros ->. congruence.
Qed.

Lemma pretty_char_digit n : is_digit (pretty_N_char n) = true.
Proof.
  unfold pretty_N_char.
  repeat (match goal with |- context [match ?x with _ => _ end] => destruct x end; try done).
Qed.

Lemma pretty_go_digits n s : all_digits s = true → all_digits (pretty_N_go n s) = true.
Proof.
  revert s. induction (N.lt_wf_0 n) as [n _ IH]; intros s Hs.
  destruct (decide (n = 0%N)) as [->|Hn]; [by rewrite pretty_N_go_0|].
  rewrite pretty_N_go_step by lia. apply IH.
  - apply N.div_lt; lia.
  - simpl. by rewrite pretty_char_digit.
Qed.

Lemma show_digits n : all_digits (show n) = true.
Proof.
  unfold show, pretty, pretty_N. destruct (decide (n = 0%N)); [done|].
  by apply pretty_go_digits.
Qed.

(** A decimal number contains none of the separators of the formats below. *)
Lemma show_free c n : is_digit c = false → str_free c (show n) = true.
Proof. intros. apply all_digits_free; [done | apply show_digits]. Qed.

(** ** Lists *)

Definition sum_N (l : list N) : N := foldr N.add 0%N l.

Lemma sum_N_app l1 l2 : sum_N (l1 ++ l2) = (sum_N l1 + sum_N l2)%N.
Proof. induction l1; simpl; lia. Qed.

Lemma sum_N_permutation l1 l2 : l1 ≡ₚ l2 → sum_N l1 = sum_N l2.
Proof. induction 1; simpl; lia. Qed.

Lemma sum_N_elem x l : x ∈ l → (x ≤ sum_N l)%N.
Proof. induction 1; simpl; lia. Qed.

Lemma sum_N_le_mul k l :
  Forall (λ x, x ≤ k)%N l → (sum_N l ≤ N.of_nat (length l) * k)%N.
Proof. induction 1; simpl; lia. Qed.

#[export] Instance sum_N_proper : Proper ((≡ₚ) ==> (=)) sum_N.
Proof. intros ???. by apply sum_N_permutation. Qed.

(** Remove one element at a known position: what is left is a permutation. *)
Lemma elem_app_permutation {A} (x : A) l1 l2 : l1 ++ x :: l2 ≡ₚ x :: (l1 ++ l2).
Proof. by rewrite Permutation_middle. Qed.

Lemma sum_N_fmap_app {A} (g : A → N) l1 l2 :
  sum_N (g <$> l1 ++ l2) = (sum_N (g <$> l1) + sum_N (g <$> l2))%N.
Proof. by rewrite fmap_app, sum_N_app. Qed.

Lemma sum_N_fmap_cons {A} (g : A → N) x l : sum_N (g <$> x :: l) = (g x + sum_N (g <$> l))%N.
Proof. done. Qed.

Lemma sum_N_cons x l : sum_N (x :: l) = (x + sum_N l)%N.
Proof. done. Qed.
Lemma sum_N_nil : sum_N [] = 0%N.
Proof. done. Qed.

(** Sums of integers. *)
Definition sum_Z (l : list Z) : Z := foldr Z.add 0%Z l.

Lemma sum_Z_zero l : Forall (λ x, x = 0%Z) l → sum_Z l = 0%Z.
Proof. induction 1 as [|x l -> _ IH]; [done|exact IH]. Qed.

Lemma sum_Z_ext {A} (f g : A → Z) l : (∀ x, x ∈ l → f x = g x) → sum_Z (f <$> l) = sum_Z (g <$> l).
Proof.
  induction l as [|x l IH]; intros Hfg; [done|]. cbn [fmap list_fmap sum_Z foldr].
  rewrite (Hfg x) by left. f_equal. apply IH. intros y Hy. apply Hfg. by right.
Qed.

(** Two tables of numbers that differ in one cell. *)
Lemma sum_Z_update (f g : nat → Z) a n j d :
  (a ≤ j < a + n)%nat → f j = (d + g j)%Z → (∀ i, i ≠ j → f i = g i) →
  sum_Z (f <$> seq a n) = (d + sum_Z (g <$> seq a n))%Z.
Proof.
  intros Hj Hf Hfg. revert a Hj. induction n as [|n IH]; intros a Hj; [lia|]. cbn [seq fmap list_fmap].
  change (f a + sum_Z (f <$> seq (S a) n) = d + (g a + sum_Z (g <$> seq (S a) n)))%Z.
  destruct (decide (a = j)) as [->|Hne].
  - rewrite Hf, (sum_Z_ext f g (seq (S j) n)); [lia|]. intros i [Hi _]%elem_of_seq. apply Hfg. lia.
  - rewrite (Hfg a Hne), IH by lia. lia.
Qed.

Lemma sum_Z_bounds l lo hi :
  Forall (λ x, lo ≤ x ≤ hi)%Z l → (Z.of_nat (length l) * lo ≤ sum_Z l ≤ Z.of_nat (length l) * hi)%Z.
Proof. induction 1 as [|x l Hx _ IH]; cbn [length sum_Z foldr]; [lia|]. fold (sum_Z l). lia. Qed.

(** Updating one cell of a pool exchanges the contribution of that cell. *)
Lemma sum_N_concat_insert {A B} (f : A → list B) (g : B → N) l i x y :
  l !! i = Some x →
  (sum_N (g <$> concat (f <$> <[i:=y]> l)) + sum_N (g <$> f x) =
   sum_N (g <$> concat (f <$> l)) + sum_N (g <$> f y))%N.
Proof.
  revert i. induction l as [|z l IH]; intros [|i]; [done..| |].
  - intros [= ->].
    change (sum_N (g <$> f y ++ concat (f <$> l)) + sum_N (g <$> f x) =
            sum_N (g <$> f x ++ concat (f <$> l)) + sum_N (g <$> f y))%N.
    rewrite !sum_N_fmap_app. lia.
  - intros Hi. specialize (IH _ Hi).
    change (sum_N (g <$> f z ++ concat (f <$> <[i:=y]> l)) + sum_N (g <$> f x) =
            sum_N (g <$> f z ++ concat (f <$> l)) + sum_N (g <$> f y))%N.
    rewrite !sum_N_fmap_app. lia.
Qed.

Lemma sum_N_insert {A} (g : A → N) (l : list A) (i : nat) x y :
  l !! i = Some x → (sum_N (g <$> <[i:=y]> l) + g x = sum_N (g <$> l) + g y)%N.
Proof.
  revert i. induction l as [|z l IH]; intros [|i]; [done..| |]; simpl.
  - intros [= ->]. lia.
  - intros Hi. specialize (IH _ Hi). unfold fmap in IH. lia.
Qed.

Lemma sum_N_const {A} (k : N) (l : list A) : sum_N ((λ _, k) <$> l) = (N.of_nat (length l) * k)%N.
Proof. induction l as [|x l IH]; [done|]. rewrite sum_N_fmap_cons, IH. simpl length. lia. Qed.

(** A member of a pool is the written cell or was there before. *)
Lemma elem_insert_inv {A} (x y : A) (l : list A) (i : nat) : x ∈ <[i:=y]> l → x = y ∨ x ∈ l.
Proof.
  revert i. induction l as [|z l IH]; intros [|i]; simpl; rewrite ?elem_of_cons; [by right..|tauto|].
  intros [->|Hx]; [by right; left|]. destruct (IH _ Hx); tauto.
Qed.

Lemma forallb_lookup {A} (p : A → bool) (l : list A) (i : nat) x : forallb p l = true → l !! i = Some x → p x = true.
Proof. rewrite forallb_forall. intros Hall Hi. by apply Hall, list_elem_of_In, list_elem_of_lookup_2 with i. Qed.

(** Lists with the same sum under every weight are permutations. *)
Lemma permutation_of_sums {A} `{EqDecision A} (l1 l2 : list A) :
  (∀ g : A → N, sum_N (g <$> l1) = sum_N (g <$> l2)) → l1 ≡ₚ l2.
Proof.
  revert l2. induction l1 as [|x l1 IH]; intros l2 Hg.
  - destruct l2 as [|y l2]; [done|]. specialize (Hg (λ _, 1%N)). rewrite sum_N_fmap_cons in Hg.
    change (sum_N ((λ _, 1%N) <$> [])) with 0%N in Hg. lia.
  - assert (x ∈ l2) as Hin.
    { destruct (decide (x ∈ l2)) as [|Hno]; [done|]. exfalso.
      specialize (Hg (λ y, if decide (y = x) then 1%N else 0%N)). rewrite sum_N_fmap_cons in Hg.
      rewrite decide_True in Hg by done.
      assert (∀ l, x ∉ l → sum_N ((λ y, if decide (y = x) then 1%N else 0%N) <$> l) = 0%N) as Hz.
      { clear. induction l as [|z l IH]; [done|]. intros [Hz Hl]%not_elem_of_cons. simpl.
        rewrite decide_False by congruence. by apply IH. }
      rewrite (Hz l2 Hno) in Hg. lia. }
    apply elem_of_Permutation in Hin as [k Hk]. rewrite Hk. constructor. apply IH.
    intros g. specialize (Hg g). rewrite Hk, !sum_N_fmap_cons in Hg. lia.
Qed.

(** ** Tactics of the development *)

(** Destruct the first scrutinee of a [match] in a hypothesis or the goal,
    keeping its equation. *)
Ltac split_match_in H :=
  match type of H with
  | context [match ?x with _ => _ end] => let E := fresh "E" in destruct x eqn:E
  end.
Ltac split_goal_match :=
  match goal with
  | |- context [match ?x with _ => _ end] => let E := fresh "E" in destruct x eqn:E
  end.

(** Case on a boolean guard in the goal, keeping the reflected fact. *)
Ltac guard_cases :=
  match goal with
  | |- context [if (?a =? ?b)%N then _ else _] => destruct (N.eqb_spec a b)
  | |- context [if (?a <? ?b)%N then _ else _] => destruct (N.ltb_spec a b)
  | |- context [if (?a <=? ?b)%N then _ else _] => destruct (N.leb_spec a b)
  | |- context [if bool_decide ?P then _ else _] => destruct (bool_decide_reflect P)
  end.
