(* ===== verification/BTree.v ===== *)
(** * [BTreeMap]: an ordered map as a strictly sorted association list

    The source iterates its [BTreeMap]s in key order, pops their first entry
    and queries their neighbours ([range(..=k).next_back()],
    [range(k..).next()]), so the model keeps the order.  [Ord] is the
    interface a key type offers (Rust's [Ord]); [u64] keys and [String] keys
    are its two instances.  [sorted] is the representation invariant and
    every operation preserves it. *)

From Stdlib Require Import NArith Lia Sorting.Sorted.
From S2P Require Import Prelude.

(** ** Keys *)

Class Ord (K : Type) := ocompare : K → K → comparison.

Class OrdLaws (K : Type) `{Ord K} : Prop := {
  ocompare_eq (x y : K) : ocompare x y = Eq ↔ x = y;
  ocompare_antisym (x y : K) : ocompare x y = CompOpp (ocompare y x);
  ocompare_trans (x y z : K) : ocompare x y = Lt → ocompare y z = Lt → ocompare x z = Lt;
}.

#[export] Instance Ord_N : Ord N := N.compare.
#[export] Instance OrdLaws_N : OrdLaws N.
Proof.
  split; unfold ocompare, Ord_N.
  - intros. apply N.compare_eq_iff.
  - intros. apply N.compare_antisym.
  - intros x y z. rewrite !N.compare_lt_iff. lia.
Qed.

#[export] Instance Ord_string : Ord string := String.compare.

Lemma ascii_compare_lt a b :
  Ascii.compare a b = Lt ↔ (Ascii.N_of_ascii a < Ascii.N_of_ascii b)%N.
Proof. unfold Ascii.compare. apply N.compare_lt_iff. Qed.

Lemma ascii_compare_eq a b : Ascii.compare a b = Eq ↔ a = b.
Proof.
  split; [apply Ascii.compare_eq_iff | intros ->].
  unfold Ascii.compare. apply N.compare_refl.
Qed.

Lemma string_compare_trans (s t u : string) :
  String.compare s t = Lt → String.compare t u = Lt → String.compare s u = Lt.
Proof.
  revert t u. induction s as [|a s IH]; intros [|b t] [|c u]; simpl; try done.
  destruct (Ascii.compare a b) eqn:Hab; try done;
  destruct (Ascii.compare b c) eqn:Hbc; try done.
  - apply ascii_compare_eq in Hab as ->. apply ascii_compare_eq in Hbc as ->.
    rewrite (proj2 (ascii_compare_eq c c) eq_refl). apply IH.
  - apply ascii_compare_eq in Hab as ->. by rewrite Hbc.
  - apply ascii_compare_eq in Hbc as ->. by rewrite Hab.
  - apply ascii_compare_lt in Hab. apply ascii_compare_lt in Hbc.
    assert (Ascii.compare a c = Lt) as ->; [|done].
    apply ascii_compare_lt. by eapply N.lt_trans.
Qed.

#[export] Instance OrdLaws_string : OrdLaws string.
Proof.
  split; unfold ocompare, Ord_string.
  - intros x y. split; [apply String.compare_eq_iff | intros ->].
    induction y as [|a y IH]; simpl; [done|].
    by rewrite (proj2 (ascii_compare_eq a a) eq_refl).
  - apply String.compare_antisym.
  - apply string_compare_trans.
Qed.

Lemma ocompare_refl `{OrdLaws K} (x : K) : ocompare x x = Eq.
Proof. by apply ocompare_eq. Qed.
Lemma ocompare_gt `{OrdLaws K} (x y : K) : ocompare x y = Gt ↔ ocompare y x = Lt.
Proof. rewrite ocompare_antisym. destruct (ocompare y x); simpl; intuition congruence. Qed.

(** ** Operations *)

Abbreviation btree K V := (list (K * V)).

Section btree.
Context {K V : Type} `{Ord K}.
Implicit Types m : btree K V.

(** [BTreeMap::insert]. *)
Fixpoint bt_insert (k : K) (v : V) m : btree K V :=
  match m with
  | [] => [(k, v)]
  | (k', v') :: m' =>
      match ocompare k k' with
      | Lt => (k, v) :: m
      | Eq => (k', v) :: m'
      | Gt => (k', v') :: bt_insert k v m'
      end
  end.

(** [BTreeMap::get]. *)
Fixpoint bt_get (k : K) m : option V :=
  match m with
  | [] => None
  | (k', v') :: m' => match ocompare k k' with Eq => Some v' | _ => bt_get k m' end
  end.

(** [BTreeMap::remove], without the returned value. *)
Fixpoint bt_remove (k : K) m : btree K V :=
  match m with
  | [] => []
  | (k', v') :: m' => match ocompare k k' with Eq => m' | _ => (k', v') :: bt_remove k m' end
  end.

(** [range(..=k).next_back()]: the last entry at or below [k]. *)
Fixpoint bt_last_le (k : K) m : option (K * V) :=
  match m with
  | [] => None
  | (k', v') :: m' =>
      match ocompare k' k with
      | Gt => None
      | _ => match bt_last_le k m' with Some e => Some e | None => Some (k', v') end
      end
  end.

(** [range(k..).next()]: the first entry at or above [k]. *)
Fixpoint bt_first_ge (k : K) m : option (K * V) :=
  match m with
  | [] => None
  | (k', v') :: m' => match ocompare k' k with Lt => bt_first_ge k m' | _ => Some (k', v') end
  end.

(** [iter().next()] and [pop_first]. *)
Definition bt_first m : option (K * V) := head m.
Definition bt_pop_first m : btree K V := tail m.

Definition key_lt (e1 e2 : K * V) : Prop := ocompare e1.1 e2.1 = Lt.
Definition sorted m : Prop := StronglySorted key_lt m.

(** ** Laws *)

Context `{!OrdLaws K}.

Lemma bt_insert_forall (P : K * V → Prop) k v m :
  (∀ k', k = k' → P (k', v)) → Forall P m → Forall P (bt_insert k v m).
Proof.
  intros Hk. induction 1 as [|[k' v'] m' Hx Hm IH]; simpl; [auto|].
  destruct (ocompare k k') eqn:Hc; auto.
  apply ocompare_eq in Hc. auto.
Qed.

Lemma bt_insert_sorted k v m : sorted m → sorted (bt_insert k v m).
Proof.
  induction 1 as [|[k' v'] m' Hs IH Hf]; simpl; [repeat constructor|].
  destruct (ocompare k k') eqn:Hc.
  - constructor; [done|]. exact Hf.
  - constructor; [by constructor|]. constructor; [done|].
    eapply Forall_impl; [exact Hf|]. intros [k2 v2]. unfold key_lt; simpl.
    by apply ocompare_trans.
  - constructor; [done|]. apply bt_insert_forall; [|done].
    intros ? <-. unfold key_lt; simpl. by apply ocompare_gt.
Qed.

Lemma bt_get_below k m : Forall (λ e, ocompare k e.1 = Lt) m → bt_get k m = None.
Proof. induction 1 as [|[k' v'] m' Hx _ IH]; simpl in *; [done|]. by rewrite Hx. Qed.

Lemma bt_get_insert_eq k v m : bt_get k (bt_insert k v m) = Some v.
Proof.
  induction m as [|[k' v'] m IH]; simpl.
  - by rewrite ocompare_refl.
  - destruct (ocompare k k') eqn:Hc; simpl; rewrite ?Hc, ?ocompare_refl; auto.
Qed.

Lemma bt_get_insert_ne k k1 v m : k ≠ k1 → bt_get k1 (bt_insert k v m) = bt_get k1 m.
Proof.
  intros Hne.
  assert (ocompare k1 k ≠ Eq) as Hne' by (intros Heq%ocompare_eq; congruence).
  induction m as [|[k' v'] m IH]; simpl.
  - destruct (ocompare k1 k) eqn:?; congruence.
  - destruct (ocompare k k') eqn:Hc; simpl.
    + apply ocompare_eq in Hc as ->. by destruct (ocompare k1 k').
    + by destruct (ocompare k1 k).
    + by destruct (ocompare k1 k').
Qed.

Lemma bt_get_elem k v m : bt_get k m = Some v → (k, v) ∈ m.
Proof.
  induction m as [|[k' v'] m IH]; simpl; [done|].
  destruct (ocompare k k') eqn:Hc; [|right; auto..].
  apply ocompare_eq in Hc as ->. intros [= ->]. left.
Qed.

Lemma bt_elem_get k v m : sorted m → (k, v) ∈ m → bt_get k m = Some v.
Proof.
  induction 1 as [|[k' v'] m' Hs IH Hf]; [by intros ?%elem_of_nil|].
  intros [Heq|Hin]%elem_of_cons; simpl.
  - simplify_eq. by rewrite ocompare_refl.
  - rewrite Forall_forall in Hf. specialize (Hf _ Hin). unfold key_lt in Hf; simpl in Hf.
    apply ocompare_gt in Hf. rewrite Hf. auto.
Qed.

Lemma bt_remove_sorted k m : sorted m → sorted (bt_remove k m).
Proof.
  induction 1 as [|[k' v'] m' Hs IH Hf]; simpl; [constructor|].
  destruct (ocompare k k'); [done| |];
  (constructor; [done|]; clear IH Hs; induction Hf as [|[k2 v2] m2 Hx Hm IH2]; simpl;
     [constructor | destruct (ocompare k k2); auto]).
Qed.

Lemma bt_get_remove_eq k m : sorted m → bt_get k (bt_remove k m) = None.
Proof.
  induction 1 as [|[k' v'] m' Hs IH Hf]; simpl; [done|].
  destruct (ocompare k k') eqn:Hc; simpl; rewrite ?Hc; [|done..].
  apply ocompare_eq in Hc as ->. by apply bt_get_below.
Qed.

Lemma bt_get_remove_ne k k1 m : k ≠ k1 → bt_get k1 (bt_remove k m) = bt_get k1 m.
Proof.
  intros Hne. induction m as [|[k' v'] m IH]; simpl; [done|].
  destruct (ocompare k k') eqn:Hc; simpl.
  - apply ocompare_eq in Hc as ->. destruct (ocompare k1 k') eqn:Hc1; [|done..].
    apply ocompare_eq in Hc1. congruence.
  - by rewrite IH.
  - by rewrite IH.
Qed.

Lemma bt_last_le_elem k e m : bt_last_le k m = Some e → e ∈ m ∧ ocompare e.1 k ≠ Gt.
Proof.
  revert e. induction m as [|[k' v'] m IH]; intros e; simpl; [done|].
  destruct (ocompare k' k) eqn:Hc; [| |done];
  (destruct (bt_last_le k m) as [e'|] eqn:Hl;
    [intros [= <-]; destruct (IH e' eq_refl); split; [by right|done]
    |intros [= <-]; split; [left | simpl; congruence]]).
Qed.

Lemma bt_last_le_none k m :
  sorted m → bt_last_le k m = None → Forall (λ e, ocompare k e.1 = Lt) m.
Proof.
  induction 1 as [|[k' v'] m' Hs IH Hf]; simpl; [done|].
  destruct (ocompare k' k) eqn:Hc; [by destruct (bt_last_le k m')..|].
  intros _. apply ocompare_gt in Hc. constructor; [done|].
  eapply Forall_impl; [exact Hf|]. intros [k2 v2]. unfold key_lt; simpl.
  by apply ocompare_trans.
Qed.

(** When no key is above the bound, the neighbour below it is the last
    entry. *)
Lemma bt_last_le_all k m : Forall (λ e, ocompare e.1 k ≠ Gt) m → bt_last_le k m = last m.
Proof.
  induction 1 as [|[k' v'] m' Hx _ IH]; simpl in *; [done|].
  rewrite IH. destruct (ocompare k' k); [..|done];
    (destruct m' as [|[k2 v2] m2]; [done|]; by destruct (last ((k2, v2) :: m2)) eqn:?;
     [|apply last_None in Heqo]).
Qed.

Lemma bt_first_ge_elem k e m : bt_first_ge k m = Some e → e ∈ m ∧ ocompare e.1 k ≠ Lt.
Proof.
  revert e. induction m as [|[k' v'] m IH]; intros e; simpl; [done|].
  destruct (ocompare k' k) eqn:Hc;
    [intros [= <-]; split; [left | simpl; congruence]
    |intros Hg; destruct (IH e Hg); split; [by right|done]
    |intros [= <-]; split; [left | simpl; congruence]].
Qed.

Lemma bt_first_ge_none k m :
  sorted m → bt_first_ge k m = None → Forall (λ e, ocompare e.1 k = Lt) m.
Proof.
  induction 1 as [|[k' v'] m' Hs IH Hf]; simpl; [done|].
  destruct (ocompare k' k) eqn:Hc; [done| |done]. intros. constructor; auto.
Qed.

(** Appending a key above every other one is [insert]. *)
Lemma bt_insert_last k v m :
  Forall (λ e, ocompare e.1 k = Lt) m → bt_insert k v m = m ++ [(k, v)].
Proof.
  induction 1 as [|[k' v'] m' Hx _ IH]; simpl in *; [done|].
  apply ocompare_gt in Hx. by rewrite Hx, IH.
Qed.

Lemma bt_insert_length k v m :
  bt_get k m = None → length (bt_insert k v m) = S (length m).
Proof.
  induction m as [|[k' v'] m IH]; simpl; [done|].
  destruct (ocompare k k'); simpl; auto.
  by intros.
Qed.
End btree.

Create HintDb btree discriminated.
#[export] Hint Resolve bt_insert_sorted bt_remove_sorted : btree.
