(* ===== verification/Async.v ===== *)
(** * Asynchronous code

    A [Fut] is what an [async fn] still has to do: it is ready with a value, or
    it makes a call on the outside and goes on with the answer.  Between two
    calls nothing else can happen to it.  One future can be run to its end
    ([block_on]) or as one task of a pool ([pool_step]), where the tasks share
    the state, take turns at their calls, and can be dropped at a call that
    suspends.  What a future does is stated once, for all answers ([holds]), and
    applies to both. *)

From Stdlib Require Import NArith ZArith Lia.
From S2P Require Import Prelude.

Section fut.
Context {C : Type} (answer : C → Type).

Inductive Fut (A : Type) :=
| Ready (a : A)
| Call (c : C) (k : answer c → Fut A).

(** A future of a [Result]; the notations of the monad are those of [?]. *)
Definition Async (E A : Type) : Type := Fut (result A E).
End fut.
Arguments Ready {C answer A} a.
Arguments Call {C answer A} c k.

Section monad.
Context {C : Type} {answer : C → Type}.
Abbreviation Fut := (Fut answer).
Abbreviation Async := (Async answer).

Fixpoint and_then {A B} (p : Fut A) (f : A → Fut B) : Fut B :=
  match p with
  | Ready a => f a
  | Call c k => Call c (λ r, and_then (k r) f)
  end.

#[export] Instance Async_ret {E} : MRet (Async E) := λ A a, Ready (Ok a).
#[export] Instance Async_bind {E} : MBind (Async E) := λ A B f p,
  and_then p (λ r, match r with Ok a => f a | Err e => Ready (Err e) end).

Definition call {E} (c : C) : Async E (answer c) := Call c (λ r, Ready (Ok r)).
Definition fails {E A} (e : E) : Async E A := Ready (Err e).
Definition pure {E A} (r : result A E) : Async E A := Ready r.
(** The result of a future as a value. *)
Definition outcome_of {E F A} (p : Async F A) : Async E (result A F) := and_then p (λ r, Ready (Ok r)).

(** [for x in l { f(x).await?; }] *)
Fixpoint each {E A} (l : list A) (f : A → Async E unit) : Async E unit :=
  match l with
  | [] => mret tt
  | x :: rest => f x ;; each rest f
  end.
End monad.

(** ** What a future does, whatever it is answered *)

Section logic.
Context {C : Type} {answer : C → Type} {Ev : Type} (observe : ∀ c, answer c → list Ev).
Abbreviation Fut := (Fut answer).

(** Where a future stands: it has returned, or it makes a call. *)
Inductive point (A : Type) :=
| Returned (a : A)
| Waiting (c : C).
Arguments Returned {A} a.
Arguments Waiting {A} c.

Definition here {A} (p : Fut A) : point A := match p with Ready a => Returned a | Call c _ => Waiting c end.

(** [I] holds of the events so far and the point reached, at every point of
    every run of [p] that follows [evs]. *)
Fixpoint holds {A} (p : Fut A) (evs : list Ev) (I : list Ev → point A → Prop) : Prop :=
  I evs (here p) ∧
  match p with
  | Ready _ => True
  | Call c k => ∀ r, holds (k r) (evs ++ observe c r) I
  end.

Lemma holds_here {A} (p : Fut A) evs I : holds p evs I → I evs (here p).
Proof. by destruct p; intros [? _]. Qed.

Lemma holds_ready {A} (a : A) evs (I : list Ev → point A → Prop) : I evs (Returned a) → holds (Ready a) evs I.
Proof. by split. Qed.

Lemma holds_mono {A} (p : Fut A) : ∀ evs (I J : list Ev → point A → Prop),
  (∀ evs' x, I evs' x → J evs' x) → holds p evs I → holds p evs J.
Proof.
  induction p as [a|c k IH]; intros evs I J HIJ; [intros [HI _]; split; [by apply HIJ|done]|].
  intros [HI Hk]. split; [by apply HIJ|]. intros r. eapply IH; [exact HIJ|]. apply Hk.
Qed.

(** What is stated of a future on its own applies after any events. *)
Lemma holds_after {A} (p : Fut A) before (I : list Ev → point A → Prop) :
  holds p [] (λ evs x, I (before ++ evs) x) → holds p before I.
Proof.
  enough (∀ evs, holds p evs (λ evs x, I (before ++ evs) x) → holds p (before ++ evs) I) as Hgen.
  { intros Hp. rewrite <- (app_nil_r before). by apply Hgen. }
  induction p as [a|c k IH]; intros evs [HI Hk]; (split; [exact HI|]); [done|].
  intros r. rewrite <- app_assoc. apply IH, Hk.
Qed.

Lemma holds_and {A} (p : Fut A) : ∀ evs (I J : list Ev → point A → Prop),
  holds p evs I → holds p evs J → holds p evs (λ evs' x, I evs' x ∧ J evs' x).
Proof.
  induction p as [a|c k IH]; intros evs I J [HI Hk] [HJ Hk']; (split; [done|]); [done|].
  intros r. by apply IH.
Qed.

(** The invariant of a sequence: it holds at the calls of the first part, and
    after its return at all points of the second. *)
Definition bound {A B} (f : A → Fut B) (I : list Ev → point B → Prop) (evs : list Ev) (x : point A) : Prop :=
  match x with Waiting c => I evs (Waiting c) | Returned a => holds (f a) evs I end.

Lemma holds_and_then {A B} (p : Fut A) (f : A → Fut B) : ∀ evs I,
  holds p evs (bound f I) → holds (and_then p f) evs I.
Proof.
  induction p as [a|c k IH]; intros evs I [HI Hk]; [exact HI|].
  split; [exact HI|]. intros r. apply IH, Hk.
Qed.

Definition tried {E A B} (f : A → Fut (result B E)) (I : list Ev → point (result B E) → Prop)
    (evs : list Ev) (x : point (result A E)) : Prop :=
  match x with
  | Waiting c => I evs (Waiting c)
  | Returned (Ok a) => holds (f a) evs I
  | Returned (Err e) => I evs (Returned (Err e))
  end.

Lemma holds_bind {E A B} (p : Async answer E A) (f : A → Async answer E B) evs I :
  holds p evs (tried f I) → holds (p ≫= f) evs I.
Proof.
  intros Hp. apply holds_and_then. eapply holds_mono; [|exact Hp].
  intros evs' [[a|e]|c] HI; [exact HI|by apply holds_ready|exact HI].
Qed.

Lemma holds_call {E B} (c : C) (f : answer c → Async answer E B) evs I :
  I evs (Waiting c) → (∀ r, holds (f r) (evs ++ observe c r) I) → holds (call c ≫= f) evs I.
Proof. intros HI Hf. by split. Qed.

(** ** Transitions of a future *)

Inductive reaches {A} : Fut A → list Ev → Fut A → Prop :=
| reaches_refl p : reaches p [] p
| reaches_call c k r evs p : reaches (k r) evs p → reaches (Call c k) (observe c r ++ evs) p.

Lemma reaches_snoc {A} (p : Fut A) evs c k r :
  reaches p evs (Call c k) → reaches p (evs ++ observe c r) (k r).
Proof.
  intros Hp. remember (Call c k) as q eqn:Hq. revert Hq. induction Hp as [p|c' k' r' evs p Hp IH]; intros ->.
  - rewrite <- (app_nil_r (observe c r)). constructor. constructor.
  - rewrite <- app_assoc. constructor. by apply IH.
Qed.

Lemma holds_reaches {A} (p : Fut A) evs q before I :
  holds p before I → reaches p evs q → holds q (before ++ evs) I.
Proof.
  intros Hp Hq. revert before Hp. induction Hq as [p|c k r evs p Hq IH]; intros before Hp.
  - by rewrite app_nil_r.
  - destruct Hp as [_ Hk]. rewrite app_assoc. by apply IH, Hk.
Qed.

(** ** Running a future alone *)

Context {St : Type} (handle : ∀ c, St → St * answer c).

Fixpoint block_on {A} (p : Fut A) (s : St) : St * A :=
  match p with
  | Ready a => (s, a)
  | Call c k => let '(s, r) := handle c s in block_on (k r) s
  end.

Lemma block_on_and_then {A B} (p : Fut A) (f : A → Fut B) : ∀ s,
  block_on (and_then p f) s = let '(s', a) := block_on p s in block_on (f a) s'.
Proof.
  induction p as [a|c k IH]; intros s; [done|]. cbn [and_then block_on].
  destruct (handle c s) as [s' r]. apply IH.
Qed.

(** What the events say of the state: [tracks s evs s']. *)
Context (tracks : St → list Ev → St → Prop).
Context (tracks_nil : ∀ s, tracks s [] s).
Context (tracks_app : ∀ s1 s2 s3 l1 l2, tracks s1 l1 s2 → tracks s2 l2 s3 → tracks s1 (l1 ++ l2) s3).
Context (tracks_call : ∀ c s, let '(s', r) := handle c s in tracks s (observe c r) s').

Lemma block_on_reaches {A} (p : Fut A) : ∀ s,
  let '(s', a) := block_on p s in ∃ evs, reaches p evs (Ready a) ∧ tracks s evs s'.
Proof using tracks_nil tracks_app tracks_call.
  induction p as [a|c k IH]; intros s; cbn [block_on]; [by exists []; split; [constructor|]|].
  pose proof (tracks_call c s) as Hc. destruct (handle c s) as [s1 r]. specialize (IH r s1).
  destruct (block_on (k r) s1) as [s' a]. destruct IH as (evs & Hr & Ht).
  exists (observe c r ++ evs). split; [by constructor|by eapply tracks_app].
Qed.

(** A run alone ends at a returned point of [p], with the events that lead
    there. *)
Lemma block_on_holds {A} (p : Fut A) I s :
  holds p [] I → let '(s', a) := block_on p s in ∃ evs, I evs (Returned a) ∧ tracks s evs s'.
Proof using tracks_nil tracks_app tracks_call.
  intros Hp. pose proof (block_on_reaches p s) as Hrun. destruct (block_on p s) as [s' a].
  destruct Hrun as (evs & Hr & Ht). exists evs. split; [|done].
  exact (holds_here _ _ _ (holds_reaches p evs _ [] I Hp Hr)).
Qed.

(** ** Several futures on one state

    The slots of a pool are the futures spawned on it, in order.  The history
    is not part of the program: it records which slot did what. *)

Inductive Slot (A : Type) :=
| Running (p : Fut A)
| Dropped (c : C).
Arguments Running {A} p.
Arguments Dropped {A} c.

Record Pool (A : Type) := {
  pool_state : St;
  slots : list (Slot A);
  history : list (nat * Ev);
}.
Arguments pool_state {A} p.
Arguments slots {A} p.
Arguments history {A} p.

Inductive PoolEvent (A : Type) :=
| Spawn (p : Fut A)
| Poll (i : nat)
| Drop (i : nat).
Arguments Spawn {A} p.
Arguments Poll {A} i.
Arguments Drop {A} i.

(** A future can be dropped only where it suspends; what the abandoned call
    still does to the state, and what there is to see of it. *)
Context (suspends : C → bool) (abandon : C → St → St) (abandoned : C → list Ev).
Context (tracks_abandon : ∀ c s, suspends c = true → tracks s (abandoned c) (abandon c s)).

(** A future dropped at its [n]-th call: the state that is left. *)
Fixpoint dropped_at {A} (n : nat) (p : Fut A) (s : St) : option St :=
  match p, n with
  | Ready _, _ => None
  | Call c _, O => if suspends c then Some (abandon c s) else None
  | Call c k, S n => let '(s, r) := handle c s in dropped_at n (k r) s
  end.

Lemma dropped_at_reaches {A} n : ∀ (p : Fut A) s s',
  dropped_at n p s = Some s' →
  ∃ before c k, reaches p before (Call c k) ∧ suspends c = true ∧ tracks s (before ++ abandoned c) s'.
Proof using tracks_nil tracks_app tracks_call tracks_abandon.
  induction n as [|n IH]; intros [a|c k] s s'; try done; cbn [dropped_at].
  - destruct (suspends c) eqn:Hc; [|done]. intros [= <-]. exists [], c, k. split; [constructor|]. split; [done|].
    by apply tracks_abandon.
  - pose proof (tracks_call c s) as Ht. destruct (handle c s) as [s1 r]. intros Hd.
    apply IH in Hd as (before & c' & k' & Hr & Hc' & Ht'). exists (observe c r ++ before), c', k'.
    split; [by constructor|]. split; [done|]. rewrite <- app_assoc. by eapply tracks_app.
Qed.

Lemma dropped_at_holds {A} n (p : Fut A) I s s' :
  holds p [] I → dropped_at n p s = Some s' →
  ∃ before c, I before (Waiting c) ∧ suspends c = true ∧ tracks s (before ++ abandoned c) s'.
Proof using tracks_nil tracks_app tracks_call tracks_abandon.
  intros Hp Hd. apply dropped_at_reaches in Hd as (before & c & k & Hr & Hc & Ht). exists before, c. split; [|done].
  exact (holds_here _ _ _ (holds_reaches p before _ [] I Hp Hr)).
Qed.

Definition pool_step {A} (ev : PoolEvent A) (P : Pool A) : option (Pool A) :=
  match ev with
  | Spawn p => Some {| pool_state := pool_state P; slots := slots P ++ [Running p]; history := history P |}
  | Poll i =>
      match slots P !! i with
      | Some (Running (Call c k)) =>
          let '(s, r) := handle c (pool_state P) in
          Some {| pool_state := s; slots := <[i := Running (k r)]> (slots P);
                  history := history P ++ (pair i <$> observe c r) |}
      | _ => None
      end
  | Drop i =>
      match slots P !! i with
      | Some (Running (Call c _)) =>
          if suspends c
          then Some {| pool_state := abandon c (pool_state P); slots := <[i := Dropped c]> (slots P);
                       history := history P ++ (pair i <$> abandoned c) |}
          else None
      | _ => None
      end
  end.

Fixpoint pool_run {A} (evs : list (PoolEvent A)) (P : Pool A) : option (Pool A) :=
  match evs with
  | [] => Some P
  | ev :: evs => match pool_step ev P with Some P => pool_run evs P | None => None end
  end.

Definition pool_start {A} (s : St) : Pool A := {| pool_state := s; slots := []; history := [] |}.

Definition spawned {A} (evs : list (PoolEvent A)) : list (Fut A) :=
  omap (λ ev, match ev with Spawn p => Some p | _ => None end) evs.

(** The events of one slot. *)
Definition own (i : nat) (h : list (nat * Ev)) : list Ev := omap (λ x, if decide (x.1 = i) then Some x.2 else None) h.

Lemma own_app i h1 h2 : own i (h1 ++ h2) = own i h1 ++ own i h2.
Proof. apply omap_app. Qed.
Lemma own_pair i j (l : list Ev) : own i (pair j <$> l) = if decide (j = i) then l else [].
Proof.
  unfold own. induction l as [|x l IH]; [by destruct (decide _)|]. cbn [fmap list_fmap omap list_omap].
  rewrite IH. simpl. by destruct (decide (j = i)).
Qed.

Lemma own_cons i x h : own i (x :: h) = if decide (x.1 = i) then x.2 :: own i h else own i h.
Proof. unfold own. cbn [omap list_omap]. by destruct (decide (x.1 = i)). Qed.

Lemma sum_own (f : list Ev → Z) (Hnil : f [] = 0%Z) (Happ : ∀ l1 l2, f (l1 ++ l2) = (f l1 + f l2)%Z) n h :
  (∀ i, (n ≤ i)%nat → own i h = []) → f h.*2 = sum_Z ((λ i, f (own i h)) <$> seq 0 n).
Proof.
  induction h as [|[j e] h IH]; intros Hnew.
  - cbn [fmap list_fmap]. rewrite Hnil. symmetry. apply sum_Z_zero. apply Forall_fmap, Forall_true. intros i. exact Hnil.
  - assert (j < n)%nat as Hj.
    { destruct (decide (j < n)%nat) as [|Hge]; [done|]. specialize (Hnew j ltac:(lia)).
      by rewrite own_cons, decide_True in Hnew. }
    change (((j, e) :: h).*2) with ([e] ++ h.*2). rewrite (Happ [e] h.*2), IH; cycle 1.
    { intros i Hi. specialize (Hnew i Hi). rewrite own_cons in Hnew. by destruct (decide _). }
    symmetry. apply (sum_Z_update _ _ _ _ j (f [e])); [lia|..].
    + rewrite own_cons, decide_True by done. apply (Happ [e] (own j h)).
    + intros i Hi. by rewrite own_cons, decide_False by done.
Qed.

(** What a slot has done is a run of its own future. *)
Definition slot_ok {A} (p : Fut A) (evs : list Ev) (slot : Slot A) : Prop :=
  match slot with
  | Running q => reaches p evs q
  | Dropped c => suspends c = true ∧ ∃ before k, reaches p before (Call c k) ∧ evs = before ++ abandoned c
  end.

Definition pool_ok {A} (s0 : St) (ps : list (Fut A)) (P : Pool A) : Prop :=
  tracks s0 (history P).*2 (pool_state P) ∧
  length (slots P) = length ps ∧
  (∀ i p slot, ps !! i = Some p → slots P !! i = Some slot → slot_ok p (own i (history P)) slot) ∧
  ∀ i, (length ps ≤ i)%nat → own i (history P) = [].

(** One slot moves, the others stay. *)
Lemma pool_ok_update {A} s0 ps (P : Pool A) i (slot slot' : Slot A) (s : St) (l : list Ev) :
  pool_ok s0 ps P → slots P !! i = Some slot → tracks (pool_state P) l s →
  (∀ p evs, slot_ok p evs slot → slot_ok p (evs ++ l) slot') →
  pool_ok s0 ps {| pool_state := s; slots := <[i := slot']> (slots P); history := history P ++ (pair i <$> l) |}.
Proof using tracks_app.
  intros (Ht & Hlen & Hslots & Hnew) Hi Hs Hslot. pose proof (lookup_lt_Some _ _ _ Hi) as Hlt.
  split_and!; simpl.
  - rewrite fmap_app, <- list_fmap_compose.
    assert ((snd ∘ pair i) <$> l = l) as -> by (rewrite <- (list_fmap_id l) at 2; by apply list_fmap_ext).
    by eapply tracks_app.
  - by rewrite length_insert.
  - intros j p x Hp Hx. rewrite own_app, own_pair. destruct (decide (i = j)) as [<-|Hne].
    + rewrite list_lookup_insert_eq in Hx by done. injection Hx as <-. by eapply Hslot, Hslots.
    + rewrite list_lookup_insert_ne in Hx by done. rewrite app_nil_r. by eapply Hslots.
  - intros j Hj. rewrite own_app, own_pair, decide_False by lia. rewrite app_nil_r. by apply Hnew.
Qed.

Lemma pool_step_ok {A} s0 ps ev (P P' : Pool A) :
  pool_ok s0 ps P → pool_step ev P = Some P' → pool_ok s0 (ps ++ spawned [ev]) P'.
Proof using tracks_app tracks_abandon tracks_call.
  intros Hok. pose proof Hok as (Ht & Hlen & Hslots & Hnew). destruct ev as [p|i|i]; cbn [pool_step spawned omap list_omap].
  - intros [= <-]. split_and!; simpl.
    + done.
    + rewrite !length_app. simpl. lia.
    + intros i q slot Hq Hslot. apply lookup_app_Some in Hq as [Hq|[Hge Hq]].
      * rewrite lookup_app_l in Hslot by (rewrite Hlen; by eapply lookup_lt_Some). by eapply Hslots.
      * rewrite lookup_app_r in Hslot by lia. rewrite Hlen in Hslot.
        destruct (i - length ps)%nat; [|done]. simpl in Hq, Hslot. injection Hq as <-. injection Hslot as <-.
        simpl. rewrite Hnew by done. constructor.
    + intros i Hi. apply Hnew. rewrite length_app in Hi. lia.
  - rewrite app_nil_r. destruct (slots P !! i) as [[[a|c k]|]|] eqn:Hi; [done| |done..].
    pose proof (tracks_call c (pool_state P)) as Hc. destruct (handle c (pool_state P)) as [s r]. intros [= <-].
    eapply pool_ok_update; [done|done|done|]. intros p evs Hp. by apply reaches_snoc.
  - rewrite app_nil_r. destruct (slots P !! i) as [[[a|c k]|]|] eqn:Hi; [done| |done..].
    destruct (suspends c) eqn:Hsus; [|done]. intros [= <-].
    eapply pool_ok_update; [done|done|by apply tracks_abandon|]. intros p evs Hp. split; [done|]. by exists evs, k.
Qed.

Lemma pool_run_ok {A} s0 evs (P : Pool A) : pool_run evs (pool_start s0) = Some P → pool_ok s0 (spawned evs) P.
Proof using tracks_nil tracks_app tracks_abandon tracks_call.
  assert (pool_ok s0 [] (pool_start (A := A) s0)) as Hstart by (split_and!; simpl; done).
  change (spawned evs) with ([] ++ spawned evs). revert Hstart.
  generalize (pool_start (A := A) s0). generalize ([] : list (Fut A)).
  induction evs as [|ev evs IH]; intros ps P0 HP0; cbn [pool_run]; [by intros [= <-]; rewrite app_nil_r|].
  destruct (pool_step ev P0) as [P1|] eqn:Hstep; [|done]. intros Hrun.
  pose proof (pool_step_ok s0 ps ev P0 P1 HP0 Hstep) as HP1. specialize (IH _ _ HP1 Hrun).
  rewrite <- app_assoc in IH. unfold spawned in *. by rewrite <- omap_app in IH.
Qed.

(** A quantity that adds up over events is the sum of what the slots
    contributed. *)
Lemma pool_sum {A} s0 evs (P : Pool A) (f : list Ev → Z) (w : nat → Slot A → Z) :
  pool_run evs (pool_start s0) = Some P → f [] = 0%Z → (∀ l1 l2, f (l1 ++ l2) = (f l1 + f l2)%Z) →
  (∀ i slot, slots P !! i = Some slot → f (own i (history P)) = w i slot) →
  f (history P).*2 = sum_Z (imap w (slots P)).
Proof using tracks_nil tracks_app tracks_abandon tracks_call.
  intros Hrun Hnil Happ Hw. apply pool_run_ok in Hrun as (_ & Hlen & _ & Hnew). rewrite <- Hlen in Hnew.
  rewrite (sum_own f Hnil Happ (length (slots P)) (history P) Hnew). f_equal. apply list_eq. intros i.
  rewrite list_lookup_fmap, list_lookup_imap. destruct (slots P !! i) as [slot|] eqn:Hi.
  - rewrite lookup_seq_lt by (by eapply lookup_lt_Some). simpl. by rewrite (Hw i slot Hi).
  - rewrite lookup_seq_ge by (by apply lookup_ge_None). done.
Qed.

(** What holds of every future that is spawned holds of its slot, in every pool
    that can be reached. *)
Lemma pool_holds {A} s0 evs (P : Pool A) i p slot (I : list Ev → point A → Prop) :
  pool_run evs (pool_start s0) = Some P → spawned evs !! i = Some p → slots P !! i = Some slot → holds p [] I →
  match slot with
  | Running q => I (own i (history P)) (here q)
  | Dropped c => suspends c = true ∧ ∃ before, own i (history P) = before ++ abandoned c ∧ I before (Waiting c)
  end.
Proof using tracks_nil tracks_app tracks_abandon tracks_call.
  intros Hrun Hp Hslot HI. apply pool_run_ok in Hrun as (_ & _ & Hslots & _). specialize (Hslots i p slot Hp Hslot).
  destruct slot as [q|c]; simpl in Hslots.
  - exact (holds_here _ _ _ (holds_reaches p _ q [] I HI Hslots)).
  - destruct Hslots as (Hsus & before & k & Hr & Hown). split; [done|]. exists before. split; [done|].
    exact (holds_here _ _ _ (holds_reaches p before _ [] I HI Hr)).
Qed.
End logic.
Arguments Returned {C A} a.
Arguments Waiting {C A} c.
Arguments Running {C answer A} p.
Arguments Dropped {C answer A} c.
Arguments pool_state {C answer Ev St A} p.
Arguments slots {C answer Ev St A} p.
Arguments history {C answer Ev St A} p.
Arguments Spawn {C answer A} p.
Arguments Poll {C answer A} i.
Arguments Drop {C answer A} i.
