(* ===== verification/Types.v ===== *)
(** * Data and interfaces of the ingest runtime

    The types of [runtime/opendata-ingest-runtime/src/{error,source,identity,
    decoded_batch,decoder,sink}.rs]: identifiers, source batches, decoded
    batches, commit identities, the outcome types of the sink contract, the
    error type, and the two traits ([Decoder], [Sink]) as type classes.  The
    [Display] implementations are modelled because two of them are contracts:
    the canonical commit-identity string and the error texts. *)

From Stdlib Require Import NArith Lia.
From S2P Require Import Prelude.

(** ** Errors (error.rs) *)

(** [Box<dyn Error>]: the code observes a boxed error through [Display]. *)
Record BoxError := mkBoxError { box_display : string }.

Inductive RuntimeError :=
| ESource (e : BoxError)
| EDecoder (e : BoxError)
| ESink (e : BoxError)
| EIdempotency (e : BoxError)
| EAck (msg : string)
| EConfig (msg : string)
| EUnsupported (what : string)
| EPipeline (msg : string).

Abbreviation RuntimeResult A := (result A RuntimeError).

Definition RuntimeError_display (e : RuntimeError) : string :=
  match e with
  | ESource b => "source: " +:+ box_display b
  | EDecoder b => "decoder: " +:+ box_display b
  | ESink b => "sink: " +:+ box_display b
  | EIdempotency b => "idempotency: " +:+ box_display b
  | EAck m => "ack coordinator: " +:+ m
  | EConfig m => "config: " +:+ m
  | EUnsupported w => "unsupported in this runtime version: " +:+ w
  | EPipeline m => "pipeline error: " +:+ m
  end.

(** ** Identifiers (source.rs, sink.rs) *)

Record SourceId := mkSourceId { source_str : string }.
Record SinkId := mkSinkId { sink_str : string }.

#[export] Instance SourceId_eq_dec : EqDecision SourceId.
Proof. solve_decision. Defined.
#[export] Instance SourceId_countable : Countable SourceId.
Proof. by refine (inj_countable' source_str mkSourceId _); intros []. Defined.
#[export] Instance SinkId_eq_dec : EqDecision SinkId.
Proof. solve_decision. Defined.

(** [impl fmt::Display]. *)
Definition SourceId_display (s : SourceId) : string := source_str s.
Definition SinkId_display (s : SinkId) : string := sink_str s.

(** ** Source batches (source.rs) *)

(** [bytes::Bytes]. *)
Abbreviation Bytes := (list byte).

Record SourceRangeMetadata := {
  srm_raw_metadata : Bytes;
  srm_ingestion_time_ms : Z;
}.

Record SourceBudget := {
  bytes_remaining : N;
  batches_remaining : N;
}.
Definition SourceBudget_default : SourceBudget :=
  {| bytes_remaining := 0; batches_remaining := 0 |}.

(** The buffer crate's per-range metadata, with the fields the code reads. *)
Record BufferMetadata := {
  start_index : N;
  bm_ingestion_time_ms : Z;
  bm_payload : Bytes;
}.

Record SourceBatchDescriptor := {
  sbd_source : SourceId;
  sbd_sequence : N;
  sbd_location : string;
  sbd_per_range_metadata : list SourceRangeMetadata;
  sbd_buffer_metadata : list BufferMetadata;
}.

Record SourceEntry := {
  entry_index : N;
  raw_bytes : Bytes;
  raw_metadata : Bytes;
  ingestion_time_ms : Z;
}.

Record SourceBatch := {
  sb_source : SourceId;
  sb_sequence : N;
  sb_manifest_path : string;
  sb_data_object_path : string;
  sb_entries : list SourceEntry;
}.

(** ** Commit identity (identity.rs) *)

Record SchemaVersion := mkSchemaVersion { schema_version_num : N }.

Record SequenceRange := mkSequenceRange { range_low : N; range_high : N }.
(** [SequenceRange::new]. *)
Definition SequenceRange_new (low high : N) : SequenceRange :=
  {| range_low := low; range_high := high |}.

Record CommitIdentity := {
  ci_source : SourceId;
  ci_sink : SinkId;
  ci_range : SequenceRange;
  ci_schema_version : SchemaVersion;
}.

#[export] Instance SchemaVersion_eq_dec : EqDecision SchemaVersion.
Proof. solve_decision. Defined.
#[export] Instance SequenceRange_eq_dec : EqDecision SequenceRange.
Proof. solve_decision. Defined.
#[export] Instance CommitIdentity_eq_dec : EqDecision CommitIdentity.
Proof. solve_decision. Defined.

Definition SchemaVersion_display (v : SchemaVersion) : string := show (schema_version_num v).
Definition SequenceRange_display (r : SequenceRange) : string :=
  show (range_low r) +:+ "-" +:+ show (range_high r).

(** [{source}:{sink}:{low}-{high}:{schema_version}]. *)
Definition CommitIdentity_display (i : CommitIdentity) : string :=
  SourceId_display (ci_source i) +:+ ":" +:+ SinkId_display (ci_sink i) +:+ ":" +:+
  SequenceRange_display (ci_range i) +:+ ":" +:+ SchemaVersion_display (ci_schema_version i).

(** ** Decoded batches (decoded_batch.rs) *)

Record TypedSchema := {
  ts_name : string;
  ts_version : SchemaVersion;
}.

(** The trait behind [Arc<dyn TypedRecords>].  [as_any] is the downcast a sink
    performs; it is an operation of the sink that needs it. *)
Class TypedRecords (T : Type) := {
  record_count : T → N;
  estimated_bytes : T → N;
  schema : T → TypedSchema;
}.

Inductive DecodedRecords (T : Type) :=
| Typed (records : T).
Arguments Typed {T} records.

Record SourceCoordinateColumns := {
  scc_manifest_path : string;
  scc_data_path : string;
  scc_sequences : list N;
  scc_entry_indices : list N;
  scc_record_indices : list N;
  scc_ingestion_time_ms : list Z;
}.

Record BatchStats := {
  source_byte_count : N;
  decoded_byte_estimate : N;
}.

Record DecodedBatch (T : Type) := {
  db_source : SourceId;
  db_low_sequence : N;
  db_high_sequence : N;
  db_source_entry_count : N;
  db_records : DecodedRecords T;
  db_source_columns : SourceCoordinateColumns;
  db_stats : BatchStats;
  db_schema_version : SchemaVersion;
}.
Arguments db_source {T}. Arguments db_low_sequence {T}. Arguments db_high_sequence {T}.
Arguments db_source_entry_count {T}. Arguments db_records {T}.
Arguments db_source_columns {T}. Arguments db_stats {T}. Arguments db_schema_version {T}.

(** ** Decoder (decoder.rs) *)

Class Decoder (D T : Type) := {
  accepts : D → Bytes → bool;
  decode : D → SourceBatch → RuntimeResult (list (DecodedBatch T));
}.

(** ** Sink contract (sink.rs) *)

Record SinkBudget := {
  max_bytes_inflight : N;
  sb_max_concurrent_commits : N;
}.
Definition SinkBudget_default : SinkBudget :=
  {| max_bytes_inflight := 0; sb_max_concurrent_commits := 0 |}.

Record SinkCommit (T : Type) := {
  sc_identity : CommitIdentity;
  sc_batch : DecodedBatch T;
}.
Arguments sc_identity {T}. Arguments sc_batch {T}. Arguments Build_SinkCommit {T}.

Record SinkCommitResult := {
  scr_bytes_written : N;
  scr_rows_written : N;
}.

Inductive SinkCommitFailure :=
| NotCommitted (e : BoxError)
| MaybeCommitted (e : BoxError)
| Fatal (e : BoxError).

Definition SinkCommitFailure_display (f : SinkCommitFailure) : string :=
  match f with
  | NotCommitted e => "sink not committed: " +:+ box_display e
  | MaybeCommitted e => "sink maybe committed: " +:+ box_display e
  | Fatal e => "sink fatal: " +:+ box_display e
  end.

(** [Error::source]. *)
Definition SinkCommitFailure_source (f : SinkCommitFailure) : option BoxError :=
  match f with NotCommitted e | MaybeCommitted e | Fatal e => Some e end.

Inductive CommitStatus :=
| CSCommitted
| CSNotCommitted
| CSUnknown.

(** The [Sink] trait.  [W] is the outside world the sink writes to (the
    ClickHouse server, the network): an [async fn] of the trait is a state
    transformer over it. *)
Class Sink (K W T : Type) := {
  sink_id : K → SinkId;
  write_budget : K → SinkBudget;
  sink_write : K → SinkCommit T → W → W * result SinkCommitResult SinkCommitFailure;
  check_committed : K → CommitIdentity → W → W * RuntimeResult CommitStatus;
}.

(** ** The canonical commit-identity string *)

Lemma SequenceRange_display_inj r1 r2 :
  SequenceRange_display r1 = SequenceRange_display r2 → r1 = r2.
Proof.
  destruct r1 as [l1 h1], r2 as [l2 h2]. unfold SequenceRange_display; simpl. intros H.
  apply (delim_inj "-"%char) in H as [Hl Hh]; [|by apply show_free..].
  apply show_inj in Hl as ->. change (show h1 = show h2) in Hh.
  by apply show_inj in Hh as ->.
Qed.

Lemma SequenceRange_display_free r : str_free ":" (SequenceRange_display r) = true.
Proof.
  unfold SequenceRange_display. rewrite !str_free_app. apply andb_true_intro; split.
  - by apply show_free.
  - apply andb_true_intro; split; [done | by apply show_free].
Qed.

(** The canonical string of a commit identity determines the identity
    whenever neither the source name nor the sink name holds the separator
    [:].  Two distinct source ranges, sinks, sources or schema versions never
    share a log line or a metric label. *)
Theorem CommitIdentity_display_inj (i j : CommitIdentity)
    (Hi : str_free ":" (source_str (ci_source i)) = true ∧ str_free ":" (sink_str (ci_sink i)) = true)
    (Hj : str_free ":" (source_str (ci_source j)) = true ∧ str_free ":" (sink_str (ci_sink j)) = true) :
  CommitIdentity_display i = CommitIdentity_display j → i = j.
Proof.
  destruct i as [[si] [ki] ri [vi]], j as [[sj] [kj] rj [vj]], Hi as [Hi1 Hi2], Hj as [Hj1 Hj2].
  unfold CommitIdentity_display, SchemaVersion_display; simpl in *. intros H.
  apply (delim_inj ":"%char) in H as [-> H]; [|done..].
  apply (delim_inj ":"%char) in H as [-> H]; [|done..].
  apply (delim_inj ":"%char) in H as [Hr Hv]; [|apply SequenceRange_display_free..].
  apply SequenceRange_display_inj in Hr as ->.
  change (show vi = show vj) in Hv. by apply show_inj in Hv as ->.
Qed.

Definition demo_identity (low high : N) : CommitIdentity := {|
  ci_source := mkSourceId "logs-prod"; ci_sink := mkSinkId "ch-logs";
  ci_range := SequenceRange_new low high; ci_schema_version := mkSchemaVersion 1 |}.

Lemma CommitIdentity_display_inj_witness :
  CommitIdentity_display (demo_identity 1 11) = CommitIdentity_display (demo_identity 1 11) ∧
  demo_identity 1 11 = demo_identity 1 11.
Proof.
  split; [done|].
  apply (CommitIdentity_display_inj (demo_identity 1 11) (demo_identity 1 11)); by vm_compute.
Defined.
