(* ===== verification/AckCoordinator.v ===== *)
(** * Per-source ack coordinator
    (runtime/opendata-ingest-runtime/src/ack_coordinator.rs)

    [Record AckCoordinator] is the struct; [register_pending],
    [mark_committed] and [advance_frontier] are its three state-changing
    methods, the first two as state-and-error computations whose state is
    [&mut self].  [AckCoordinators] is the registry.

    The second half relates a coordinator to its specification: the
    [History] of the ranges ever admitted, each with its commit bit.  A
    coordinator represents a history ([represents]) when its [pending] map is
    the history without an acknowledged, fully committed prefix.  Every
    operation of the coordinator is simulated by the obvious operation on
    histories, and after [advance_frontier] the frontier is the end of the
    longest committed prefix. *)

From Stdlib Require Import NArith Lia Sorting.Sorted.
From S2P Require Import Prelude.
From S2P Require Import BTree.
From S2P Require Import Types.
Local Open Scope N_scope.

(** ** State *)

Record PendingRange := {
  pr_low : N;
  pr_high : N;
  sink_committed : bool;
}.

Record AckCoordinator := {
  ac_source : SourceId;
  initial_frontier_baseline : option N;
  effective_baseline : option N;
  baseline_fixed : bool;
  acked_frontier : option N;
  last_registered_high : option N;
  pending : btree N PendingRange;
}.

(** [AckCoordinator::new]. *)
Definition AckCoordinator_new (source : SourceId) (baseline : option N) : AckCoordinator := {|
  ac_source := source;
  initial_frontier_baseline := baseline;
  effective_baseline := baseline;
  baseline_fixed := bool_decide (is_Some baseline);
  acked_frontier := None;
  last_registered_high := None;
  pending := [];
|}.

(** [frontier] and [pending_count]. *)
Definition frontier (c : AckCoordinator) : option N := acked_frontier c.
Definition pending_count (c : AckCoordinator) : nat := length (pending c).

(** Struct updates used by the methods. *)
Definition set_pending (p : btree N PendingRange) (c : AckCoordinator) : AckCoordinator := {|
  ac_source := ac_source c;
  initial_frontier_baseline := initial_frontier_baseline c;
  effective_baseline := effective_baseline c;
  baseline_fixed := baseline_fixed c;
  acked_frontier := acked_frontier c;
  last_registered_high := last_registered_high c;
  pending := p;
|}.

(** ** [register_pending] *)

Definition first_range_guard (c : AckCoordinator) (low : N) : RuntimeResult unit :=
  match last_registered_high c, initial_frontier_baseline c with
  | None, Some b =>
      if negb (low =? sat_add64 b 1)
      then Err (EAck ("first range low=" +:+ show low +:+ " != baseline+1=" +:+
                      show (sat_add64 b 1)))
      else Ok tt
  | _, _ => Ok tt
  end.

Definition contiguous_guard (c : AckCoordinator) (low : N) : RuntimeResult unit :=
  match last_registered_high c with
  | Some prev_high =>
      let expected := sat_add64 prev_high 1 in
      if negb (low =? expected)
      then Err (EAck ("non-contiguous admission on source " +:+ SourceId_display (ac_source c) +:+
                      ": last_high=" +:+ show prev_high +:+ ", expected low=" +:+ show expected +:+
                      ", got low=" +:+ show low))
      else Ok tt
  | None => Ok tt
  end.

Definition acked_guard (c : AckCoordinator) (low : N) : RuntimeResult unit :=
  match acked_frontier c with
  | Some f =>
      if low <=? f
      then Err (EAck ("range low=" +:+ show low +:+ " already covered by frontier=" +:+ show f +:+
                      " on source " +:+ SourceId_display (ac_source c)))
      else Ok tt
  | None => Ok tt
  end.

Definition overlap_guard (c : AckCoordinator) (low high : N) : RuntimeResult unit :=
  let range_str := show low +:+ "..=" +:+ show high in
  let? _ :=
    match bt_last_le high (pending c) with
    | Some (_, neighbor) =>
        if low <=? pr_high neighbor
        then Err (EAck ("range " +:+ range_str +:+ " overlaps pending " +:+
                        show (pr_low neighbor) +:+ "..=" +:+ show (pr_high neighbor)))
        else Ok tt
    | None => Ok tt
    end in
  match bt_first_ge low (pending c) with
  | Some (next_low, _) =>
      if next_low <=? high
      then Err (EAck ("range " +:+ range_str +:+ " overlaps pending starting at " +:+
                      show next_low))
      else Ok tt
  | None => Ok tt
  end.

(** The writes after the last guard: absorb the baseline, insert, remember
    the high end. *)
Definition admit_range (low high : N) (c : AckCoordinator) : AckCoordinator := {|
  ac_source := ac_source c;
  initial_frontier_baseline := initial_frontier_baseline c;
  effective_baseline :=
    if negb (baseline_fixed c)
    then (if low =? 0 then None else Some (low - 1))
    else effective_baseline c;
  baseline_fixed := true;
  acked_frontier := acked_frontier c;
  last_registered_high := Some high;
  pending :=
    bt_insert low {| pr_low := low; pr_high := high; sink_committed := false |} (pending c);
|}.

Definition register_pending (low high : N) : M AckCoordinator RuntimeError unit :=
  (if high <? low
   then throw (EAck ("invalid range: low=" +:+ show low +:+ " > high=" +:+ show high))
   else mret tt) ;;
  c ← get;
  lift (first_range_guard c low) ;;
  lift (contiguous_guard c low) ;;
  lift (acked_guard c low) ;;
  lift (overlap_guard c low high) ;;
  modify (admit_range low high).

(** ** [mark_committed] *)

Definition set_committed (r : PendingRange) : PendingRange :=
  {| pr_low := pr_low r; pr_high := pr_high r; sink_committed := true |}.

Definition mark_committed (low high : N) : M AckCoordinator RuntimeError unit :=
  c ← get;
  match bt_get low (pending c) with
  | None =>
      throw (EAck ("no pending range with low=" +:+ show low +:+ " on source " +:+
                   SourceId_display (ac_source c)))
  | Some entry =>
      if negb (pr_high entry =? high)
      then throw (EAck ("range " +:+ show low +:+ "..=" +:+ show high +:+
                        " disagrees with pending " +:+ show low +:+ "..=" +:+
                        show (pr_high entry) +:+ " on source " +:+
                        SourceId_display (ac_source c)))
      else modify (set_pending (bt_insert low (set_committed entry) (pending c)))
  end.

(** ** [advance_frontier] *)

Definition expected_low (acked baseline : option N) : N :=
  match acked with
  | Some f => sat_add64 f 1
  | None => match baseline with Some b => sat_add64 b 1 | None => 0 end
  end.

(** The loop: each iteration reads the first entry and either returns or pops
    it, so it recurses on the map itself. *)
Fixpoint advance_loop (baseline acked : option N) (p : btree N PendingRange)
    : option N * btree N PendingRange :=
  match p with
  | [] => (acked, p)
  | (_, range) :: rest =>
      if sink_committed range
      then
        if negb (pr_low range =? expected_low acked baseline)
        then (acked, p)
        else advance_loop baseline (Some (pr_high range)) rest
      else (acked, p)
  end.

Definition advance_frontier (c : AckCoordinator) : AckCoordinator :=
  if negb (baseline_fixed c) then c
  else
    let '(acked, p) := advance_loop (effective_baseline c) (acked_frontier c) (pending c) in
    {| ac_source := ac_source c;
       initial_frontier_baseline := initial_frontier_baseline c;
       effective_baseline := effective_baseline c;
       baseline_fixed := baseline_fixed c;
       acked_frontier := acked;
       last_registered_high := last_registered_high c;
       pending := p |}.

(** ** The registry [AckCoordinators] *)

Definition AckCoordinators : Type := gmap SourceId AckCoordinator.

Definition AckCoordinators_new : AckCoordinators := ∅.

Definition register_source (source : SourceId) (baseline : option N)
    : M AckCoordinators RuntimeError unit :=
  reg ← get;
  if bool_decide (is_Some (reg !! source))
  then throw (EAck ("coordinator already registered for source " +:+ SourceId_display source))
  else modify (insert source (AckCoordinator_new source baseline)).

(** [take]: remove a coordinator and return it. *)
Definition take_coordinator (source : SourceId) (reg : AckCoordinators)
    : option AckCoordinator * AckCoordinators :=
  (reg !! source, delete source reg).

(** [frontiers] and [pending_total]. *)
Definition frontiers (reg : AckCoordinators) : gmap SourceId (option N) := frontier <$> reg.
Definition pending_total (reg : AckCoordinators) : nat :=
  map_fold (λ _ c n, (pending_count c + n)%nat) 0%nat reg.

(** ** Specification: admission histories *)

(** One admitted range: low end, high end, committed. *)
Record HRange := { h_low : N; h_high : N; h_committed : bool }.
Abbreviation History := (list HRange).

(** [chained e h]: the ranges of [h] are well formed, start at [e] and each
    starts right after the one before it. *)
Fixpoint chained (e : N) (h : History) : Prop :=
  match h with
  | [] => True
  | r :: rest =>
      h_low r = e ∧ h_low r ≤ h_high r ∧ is_u64 (h_high r) ∧
      (rest ≠ [] → h_high r < u64_max) ∧ chained (h_high r + 1) rest
  end.

(** The end of the longest committed prefix: the abstract frontier. *)
Fixpoint committed_prefix_end (acc : option N) (h : History) : option N :=
  match h with
  | [] => acc
  | r :: rest =>
      if h_committed r then committed_prefix_end (Some (h_high r)) rest else acc
  end.

Definition hist_register (low high : N) (h : History) : History :=
  h ++ [{| h_low := low; h_high := high; h_committed := false |}].

Definition hist_mark (low : N) (h : History) : History :=
  (λ r, if h_low r =? low
        then {| h_low := h_low r; h_high := h_high r; h_committed := true |} else r) <$> h.

(** The next sequence a history expects after the baseline [b]. *)
Definition hist_last_high (h : History) : option N := h_high <$> last h.

Definition to_pending (h : History) : btree N PendingRange :=
  (λ r, (h_low r, {| pr_low := h_low r; pr_high := h_high r; sink_committed := h_committed r |}))
    <$> h.

(** [represents c b h]: coordinator [c], started with baseline [b], stands for
    history [h]; [done] is the acknowledged prefix that [advance_frontier] has
    popped. *)
Record represents_with (c : AckCoordinator) (b : option N) (done rest : History) : Prop := {
  rep_initial : initial_frontier_baseline c = b;
  rep_pending : pending c = to_pending rest;
  rep_acked : acked_frontier c = hist_last_high done;
  rep_last : last_registered_high c = hist_last_high (done ++ rest);
  rep_fixed : baseline_fixed c = bool_decide (is_Some b ∨ done ++ rest ≠ []);
  rep_baseline_known : ∀ x, b = Some x → effective_baseline c = Some x ∧ is_u64 x;
  rep_baseline_absorbed :
    baseline_fixed c = true → chained (expected_low None (effective_baseline c)) (done ++ rest);
  rep_unfixed : baseline_fixed c = false → effective_baseline c = None;
  rep_done : Forall (λ r, h_committed r = true) done;
}.
Definition represents (c : AckCoordinator) (b : option N) (h : History) : Prop :=
  ∃ done rest, h = done ++ rest ∧ represents_with c b done rest.

(** What the specification does with each operation. *)
Definition admissible (b : option N) (h : History) (low high : N) : bool :=
  (low <=? high) &&
  match hist_last_high h with
  | None => match b with Some x => low =? sat_add64 x 1 | None => true end
  | Some ph => (ph <? u64_max) && (low =? ph + 1)
  end.

Definition hist_mem (low high : N) (h : History) : bool :=
  existsb (λ r, (h_low r =? low) && (h_high r =? high)) h.

Inductive CoordOp :=
| OpRegister (low high : N)
| OpMark (low high : N)
| OpAdvance.

Definition coord_exec (c : AckCoordinator) (op : CoordOp) : AckCoordinator :=
  match op with
  | OpRegister low high => (register_pending low high c).1
  | OpMark low high => (mark_committed low high c).1
  | OpAdvance => advance_frontier c
  end.

Definition spec_exec (b : option N) (h : History) (op : CoordOp) : History :=
  match op with
  | OpRegister low high => if admissible b h low high then hist_register low high h else h
  | OpMark low high => if hist_mem low high h then hist_mark low h else h
  | OpAdvance => h
  end.

(** The arguments of an operation are [u64]s. *)
Definition op_u64 (op : CoordOp) : Prop :=
  match op with
  | OpRegister low high | OpMark low high => is_u64 low ∧ is_u64 high
  | OpAdvance => True
  end.

(** ** Lemmas on chained histories *)

Lemma hist_last_high_cons r h :
  hist_last_high (r :: h) = Some (default (h_high r) (hist_last_high h)).
Proof.
  unfold hist_last_high. rewrite last_cons. by destruct (last h).
Qed.

Lemma hist_last_high_app h1 h2 :
  hist_last_high (h1 ++ h2) =
  match hist_last_high h2 with Some x => Some x | None => hist_last_high h1 end.
Proof. unfold hist_last_high. rewrite last_app. by destruct (last h2). Qed.

Lemma hist_last_high_none h : hist_last_high h = None ↔ h = [].
Proof. unfold hist_last_high. rewrite fmap_None. apply last_None. Qed.

Lemma hist_last_high_some h l : hist_last_high h = Some l → ∃ r, r ∈ h ∧ h_high r = l.
Proof.
  unfold hist_last_high. rewrite fmap_Some. intros (r & Hr & ->).
  exists r. split; [by apply last_Some_elem_of|done].
Qed.

Arguments hist_last_high : simpl never.

Lemma chained_app e h1 h2 :
  chained e (h1 ++ h2) ↔
  chained e h1 ∧
  match hist_last_high h1 with
  | None => chained e h2
  | Some l => (h2 ≠ [] → l < u64_max) ∧ chained (l + 1) h2
  end.
Proof.
  revert e. induction h1 as [|r h1 IH]; intros e; simpl; [by intuition|].
  rewrite IH, hist_last_high_cons.
  destruct (hist_last_high h1) as [l|] eqn:Hl; simpl.
  - assert (h1 ≠ []) as Hne by (intros ->; done).
    assert (h1 ++ h2 ≠ []) by (by destruct h1). intuition.
  - apply hist_last_high_none in Hl as ->. simpl. intuition.
Qed.

Lemma chained_bounds e h r :
  chained e h → r ∈ h → e ≤ h_low r ∧ h_low r ≤ h_high r ∧ is_u64 (h_high r).
Proof.
  revert e. induction h as [|r' h IH]; intros e; simpl; [by intros _ ?%elem_of_nil|].
  intros (Hlow & Hle & Hu & Hmax & Hc) [->|Hin]%elem_of_cons; [by subst|].
  destruct (IH _ Hc Hin) as (? & ? & ?). split_and!; [lia|done..].
Qed.

Lemma chained_last_bound e h l r :
  chained e h → hist_last_high h = Some l → r ∈ h → h_high r ≤ l.
Proof.
  revert e l. induction h as [|r' h IH]; intros e l; [by intros _ _ ?%elem_of_nil|].
  rewrite hist_last_high_cons. intros (Hlow & Hle & Hu & Hmax & Hc) [= <-] Hin.
  apply elem_of_cons in Hin as [->|Hin].
  - destruct (hist_last_high h) as [l|] eqn:Hl; simpl; [|done].
    apply hist_last_high_some in Hl as (r & Hr & <-).
    destruct (chained_bounds _ _ _ Hc Hr). lia.
  - destruct (hist_last_high h) as [l|] eqn:Hl; simpl.
    + by eapply IH.
    + apply hist_last_high_none in Hl as ->. by apply elem_of_nil in Hin.
Qed.

Lemma to_pending_sorted e h : chained e h → BTree.sorted (to_pending h).
Proof.
  revert e. induction h as [|r h IH]; intros e; [constructor|].
  intros (Hlow & Hle & Hu & Hmax & Hc). simpl. constructor; [by eapply IH|].
  apply Forall_fmap, Forall_forall. intros r' Hr'. unfold key_lt; simpl.
  destruct (chained_bounds _ _ _ Hc Hr') as [Hl _].
  apply N.compare_lt_iff. lia.
Qed.

Lemma chained_low_inj e h r1 r2 :
  chained e h → r1 ∈ h → r2 ∈ h → h_low r1 = h_low r2 → r1 = r2.
Proof.
  revert e. induction h as [|r h IH]; intros e; [by intros _ ?%elem_of_nil|].
  intros (Hlow & Hle & Hu & Hmax & Hc) [->|H1]%elem_of_cons [->|H2]%elem_of_cons Heq; [done|..].
  - destruct (chained_bounds _ _ _ Hc H2) as [? _]. lia.
  - destruct (chained_bounds _ _ _ Hc H1) as [? _]. lia.
  - by eapply IH.
Qed.

(** Marking changes commit bits only. *)
Lemma hist_mark_last low h : hist_last_high (hist_mark low h) = hist_last_high h.
Proof.
  induction h as [|r h IH]; simpl; [done|].
  rewrite !hist_last_high_cons. change (_ <$> h) with (hist_mark low h). rewrite IH.
  by destruct (h_low r =? low).
Qed.

Lemma chained_mark e low h : chained e h → chained e (hist_mark low h).
Proof.
  revert e. induction h as [|r h IH]; intros e; [done|].
  intros (Hlow & Hle & Hu & Hmax & Hc). simpl. fold (hist_mark low h).
  destruct (h_low r =? low); simpl;
    (split_and!; [done..| |by apply IH]); intros Hne; apply Hmax; intros ->; done.
Qed.

Lemma hist_mark_app low h1 h2 : hist_mark low (h1 ++ h2) = hist_mark low h1 ++ hist_mark low h2.
Proof. apply fmap_app. Qed.

Lemma hist_mark_committed low h :
  Forall (λ r, h_committed r = true) h → hist_mark low h = h.
Proof.
  induction 1 as [|r h Hr _ IH]; [done|]. simpl. fold (hist_mark low h). rewrite IH.
  destruct r as [l hi cm]; simpl in *; subst. by destruct (l =? low).
Qed.

Lemma hist_mark_absent low h :
  (∀ r, r ∈ h → h_low r ≠ low) → hist_mark low h = h.
Proof.
  induction h as [|r h IH]; intros Hr; [done|]. simpl. fold (hist_mark low h).
  rewrite IH by (intros; apply Hr; by right).
  destruct (N.eqb_spec (h_low r) low); [|done]. by destruct (Hr r); [left|].
Qed.

Lemma hist_mem_elem low high h :
  hist_mem low high h = true ↔ ∃ r, r ∈ h ∧ h_low r = low ∧ h_high r = high.
Proof.
  unfold hist_mem. rewrite existsb_exists. split.
  - intros (r & Hr & [H1 H2]%andb_prop). exists r.
    rewrite list_elem_of_In. split; [done|]. by apply N.eqb_eq in H1, H2.
  - intros (r & Hr & <- & <-). exists r. rewrite <- list_elem_of_In. by rewrite !N.eqb_refl.
Qed.

(** Looking up and updating the map image of a history. *)
Lemma to_pending_get e low h :
  chained e h →
  bt_get low (to_pending h) =
  (λ r, {| pr_low := h_low r; pr_high := h_high r; sink_committed := h_committed r |})
    <$> List.find (λ r, h_low r =? low) h.
Proof.
  revert e. induction h as [|r h IH]; intros e; [done|].
  intros (Hlow & Hle & Hu & Hmax & Hc). simpl. unfold ocompare, Ord_N.
  rewrite N.eqb_compare, (N.compare_antisym (h_low r)).
  destruct (h_low r ?= low); simpl; [done | by eapply IH..].
Qed.

Lemma to_pending_mark e low h r :
  chained e h → List.find (λ r, h_low r =? low) h = Some r →
  bt_insert low (set_committed {| pr_low := h_low r; pr_high := h_high r;
                                  sink_committed := h_committed r |}) (to_pending h) =
  to_pending (hist_mark low h).
Proof.
  revert e. induction h as [|r' h IH]; intros e; [done|].
  intros (Hlow & Hle & Hu & Hmax & Hc). simpl. fold (hist_mark low h).
  unfold ocompare, Ord_N.
  destruct (N.eqb_spec (h_low r') low) as [<-|Hne]; simpl.
  - intros [= <-]. rewrite N.compare_refl. unfold set_committed; simpl. f_equal.
    rewrite hist_mark_absent; [done|]. intros r2 Hr2.
    destruct (chained_bounds _ _ _ Hc Hr2). lia.
  - intros Hf. rewrite (proj2 (N.compare_gt_iff _ _)).
    + f_equal. eapply IH; done.
    + apply List.find_some in Hf as [Hin Heq%N.eqb_eq].
      apply list_elem_of_In in Hin. destruct (chained_bounds _ _ _ Hc Hin). lia.
Qed.

(** ** Registration *)

(** The guards of [register_pending], in order. *)
Definition register_check (c : AckCoordinator) (low high : N) : RuntimeResult unit :=
  let? _ := (if high <? low
             then Err (EAck ("invalid range: low=" +:+ show low +:+ " > high=" +:+ show high))
             else Ok tt) in
  let? _ := first_range_guard c low in
  let? _ := contiguous_guard c low in
  let? _ := acked_guard c low in
  overlap_guard c low high.

Lemma register_pending_run low high c :
  register_pending low high c =
  match register_check c low high with
  | Ok _ => (admit_range low high c, Ok tt)
  | Err e => (c, Err e)
  end.
Proof.
  unfold register_pending, register_check. rewrite run_bind.
  destruct (high <? low); [done|].
  change ((mret tt : M AckCoordinator RuntimeError unit) c) with (c, @Ok unit RuntimeError tt).
  cbv iota. rewrite run_bind. unfold get at 1. cbv iota.
  rewrite run_bind. unfold lift at 1. destruct (first_range_guard c low) as [[]|]; [|done].
  rewrite run_bind. unfold lift at 1. destruct (contiguous_guard c low) as [[]|]; [|done].
  rewrite run_bind. unfold lift at 1. destruct (acked_guard c low) as [[]|]; [|done].
  rewrite run_bind. unfold lift at 1. by destruct (overlap_guard c low high) as [[]|].
Qed.

Lemma first_range_guard_ok c low :
  is_ok (first_range_guard c low) =
  match last_registered_high c, initial_frontier_baseline c with
  | None, Some b => low =? sat_add64 b 1
  | _, _ => true
  end.
Proof.
  unfold first_range_guard. destruct (last_registered_high c); [done|].
  destruct (initial_frontier_baseline c) as [b|]; [|done]. by destruct (low =? sat_add64 b 1).
Qed.

Lemma contiguous_guard_ok c low :
  is_ok (contiguous_guard c low) =
  match last_registered_high c with Some p => low =? sat_add64 p 1 | None => true end.
Proof.
  unfold contiguous_guard. destruct (last_registered_high c) as [p|]; [|done]. simpl.
  by destruct (low =? sat_add64 p 1).
Qed.

Lemma acked_guard_ok c low :
  is_ok (acked_guard c low) =
  match acked_frontier c with Some f => negb (low <=? f) | None => true end.
Proof.
  unfold acked_guard. destruct (acked_frontier c) as [f|]; [|done]. by destruct (low <=? f).
Qed.

Lemma overlap_guard_ok c low high :
  is_ok (overlap_guard c low high) =
  match bt_last_le high (pending c) with Some (_, n) => negb (low <=? pr_high n) | None => true end &&
  match bt_first_ge low (pending c) with Some (l, _) => negb (l <=? high) | None => true end.
Proof.
  unfold overlap_guard.
  destruct (bt_last_le high (pending c)) as [[k n]|]; [destruct (low <=? pr_high n)|];
    simpl; [done|..];
    (destruct (bt_first_ge low (pending c)) as [[l ?]|]; [by destruct (l <=? high)|done]).
Qed.

Lemma register_check_ok c low high :
  is_ok (register_check c low high) =
  (low <=? high) && is_ok (first_range_guard c low) && is_ok (contiguous_guard c low) &&
  is_ok (acked_guard c low) && is_ok (overlap_guard c low high).
Proof.
  unfold register_check. rewrite N.leb_antisym. destruct (high <? low); [done|].
  destruct (first_range_guard c low) as [[]|]; [|done].
  destruct (contiguous_guard c low) as [[]|]; [|done].
  by destruct (acked_guard c low) as [[]|].
Qed.

(** The entries of the map image of a history. *)
Lemma to_pending_elem k r h :
  (k, r) ∈ to_pending h ↔
  ∃ x, x ∈ h ∧ k = h_low x ∧
       r = {| pr_low := h_low x; pr_high := h_high x; sink_committed := h_committed x |}.
Proof.
  unfold to_pending. rewrite list_elem_of_fmap. split.
  - intros (x & [= -> ->] & Hx). eauto.
  - intros (x & Hx & -> & ->). eauto.
Qed.

(** A range past every pending one overlaps none of them. *)
Lemma overlap_guard_past e c rest low high :
  pending c = to_pending rest → chained e rest →
  (∀ r, r ∈ rest → h_high r < low) → is_ok (overlap_guard c low high) = true.
Proof.
  intros Hp Hc Hlt. rewrite overlap_guard_ok, Hp. apply andb_true_intro; split.
  - destruct (bt_last_le high (to_pending rest)) as [[k n]|] eqn:Hl; [|done].
    apply bt_last_le_elem in Hl as [(x & Hx & -> & ->)%to_pending_elem _]. simpl.
    apply negb_true_iff, N.leb_gt. auto.
  - destruct (bt_first_ge low (to_pending rest)) as [[k n]|] eqn:Hl; [|done].
    apply bt_first_ge_elem in Hl as [(x & Hx & -> & ->)%to_pending_elem Hge]. simpl in Hge.
    apply (N.compare_ge_iff (h_low x) low) in Hge.
    pose proof (chained_bounds _ _ _ Hc Hx). pose proof (Hlt _ Hx). lia.
Qed.

(** A range ending at the last pending sequence overlaps the last pending
    range. *)
Lemma overlap_guard_last e c rest l high :
  pending c = to_pending rest → chained e rest → hist_last_high rest = Some l → l ≤ high →
  is_ok (overlap_guard c l high) = false.
Proof.
  intros Hp Hc Hl Hle. rewrite overlap_guard_ok, Hp, bt_last_le_all.
  - unfold to_pending. rewrite fmap_last. unfold hist_last_high in Hl.
    destruct (last rest) as [r|]; [|done]. injection Hl as <-. simpl. by rewrite N.leb_refl.
  - apply Forall_forall. intros [k r] (x & Hx & -> & ->)%to_pending_elem; simpl.
    pose proof (chained_bounds _ _ _ Hc Hx). pose proof (chained_last_bound _ _ _ _ Hc Hl Hx).
    change ((h_low x ?= high) ≠ Gt). apply N.compare_le_iff. lia.
Qed.

Lemma rep_chained c b done rest :
  represents_with c b done rest →
  done ++ rest ≠ [] → chained (expected_low None (effective_baseline c)) (done ++ rest).
Proof.
  intros [] Hne. apply rep_baseline_absorbed0. rewrite rep_fixed0. apply bool_decide_eq_true. by right.
Qed.

(** The guards accept exactly the ranges the specification admits. *)
Lemma register_check_admissible c b done rest low high :
  represents_with c b done rest → is_u64 high →
  is_ok (register_check c low high) = admissible b (done ++ rest) low high.
Proof.
  intros Hrep Hu. rewrite register_check_ok, first_range_guard_ok, contiguous_guard_ok,
    acked_guard_ok. pose proof (rep_chained _ _ _ _ Hrep) as Hch. destruct Hrep.
  rewrite rep_last0, rep_initial0, rep_acked0. unfold admissible.
  destruct (N.leb_spec low high) as [Hlh|]; [|done]. simpl.
  destruct (hist_last_high (done ++ rest)) as [ph|] eqn:Hph.
  - assert (done ++ rest ≠ []) as Hne by (intros Hnil; by rewrite Hnil in Hph).
    specialize (Hch Hne).
    assert (∀ r, r ∈ done ++ rest → h_high r ≤ ph) as Hbound
      by (intros; by eapply chained_last_bound).
    pose proof (proj1 (chained_app _ _ _) Hch) as [_ Hrest].
    assert (∃ e, chained e rest) as [e He]
      by (destruct (hist_last_high done); [destruct Hrest|]; eauto).
    destruct (N.ltb_spec ph u64_max) as [Hmax|Hmax]; simpl.
    + rewrite sat_add64_exact by lia.
      destruct (N.eqb_spec low (ph + 1)) as [->|]; [|done]. simpl.
      rewrite (overlap_guard_past e c rest); [|done..|]; cycle 1.
      { intros r Hr. assert (h_high r ≤ ph) by (apply Hbound, elem_of_app; by right). lia. }
      rewrite andb_true_r. destruct (hist_last_high done) as [f|] eqn:Hf; [|done].
      apply hist_last_high_some in Hf as (r & Hr & <-).
      apply negb_true_iff, N.leb_gt.
      assert (h_high r ≤ ph) by (apply Hbound, elem_of_app; by left). lia.
    + destruct (N.eqb_spec low (sat_add64 ph 1)) as [->|]; [|done].
      assert (is_u64 ph) by (apply hist_last_high_some in Hph as (r & Hr & <-);
        by destruct (chained_bounds _ _ _ Hch Hr) as (_ & _ & ?)).
      assert (sat_add64 ph 1 = ph) as Hsat by (by apply sat_add64_top). rewrite Hsat in *. simpl.
      rewrite hist_last_high_app in Hph.
      destruct (hist_last_high rest) as [l|] eqn:Hl.
      * injection Hph as ->. by rewrite (overlap_guard_last e c rest), andb_false_r.
      * rewrite Hph. by rewrite N.leb_refl.
  - assert (hist_last_high done = None) as ->
      by (rewrite hist_last_high_app in Hph; by destruct (hist_last_high rest)).
    apply hist_last_high_none, app_eq_nil in Hph as [-> ->].
    assert (is_ok (overlap_guard c low high) = true) as Hov
      by (rewrite overlap_guard_ok, rep_pending0; done).
    rewrite Hov. destruct b; by rewrite ?andb_true_r.
Qed.

(** ** Simulation of the three operations *)

Lemma represents_new src b :
  (∀ x, b = Some x → is_u64 x) → represents_with (AckCoordinator_new src b) b [] [].
Proof.
  intros Hb. constructor; simpl; try done.
  - apply bool_decide_ext. split; [intros H; by left | by intros [?|?]].
  - intros x ->. auto.
  - intros Hf. apply bool_decide_eq_false in Hf. by apply eq_None_not_Some.
Qed.

Lemma rep_all_below c b done rest l r :
  represents_with c b done rest → hist_last_high (done ++ rest) = Some l →
  r ∈ done ++ rest → h_high r ≤ l.
Proof.
  intros Hrep Hl Hr. eapply chained_last_bound; [|done..]. eapply rep_chained; [done|].
  intros Hn. rewrite Hn in Hr. by apply elem_of_nil in Hr.
Qed.

Lemma represents_admit c b done rest low high :
  represents_with c b done rest → is_u64 low → is_u64 high →
  admissible b (done ++ rest) low high = true →
  represents_with (admit_range low high c) b done (hist_register low high rest).
Proof.
  intros Hrep Hlow Hhigh [Hlh%N.leb_le Hadm]%andb_prop.
  pose proof (rep_chained _ _ _ _ Hrep) as Hch. assert (∀ l r, _ → _ → _) as Hbelow
    by (intros l r; exact (rep_all_below c b done rest l r Hrep)).
  destruct Hrep as [Hi Hp Ha Hl Hfix Hbk Hba Hunf Hdone].
  unfold hist_register. set (new := {| h_low := low; h_high := high; h_committed := false |}).
  assert (expected_low None (effective_baseline (admit_range low high c)) =
          match hist_last_high (done ++ rest) with
          | None => low | Some _ => expected_low None (effective_baseline c) end) as Hexp.
  { unfold admit_range; cbn [effective_baseline]. rewrite Hfix.
    destruct (hist_last_high (done ++ rest)) as [ph|] eqn:Hph.
    - rewrite bool_decide_eq_true_2; [done|]. right. intros Hn. by rewrite Hn in Hph.
    - apply hist_last_high_none in Hph. rewrite Hph. destruct b as [x|].
      + rewrite bool_decide_eq_true_2 by (left; eauto).
        destruct (Hbk x eq_refl) as [-> _]. simpl. by apply N.eqb_eq in Hadm.
      + rewrite bool_decide_eq_false_2 by (intros [[? ?]|?]; done). simpl.
        destruct (N.eqb_spec low 0); [done|]. simpl. rewrite sat_add64_exact; [lia|].
        unfold is_u64 in Hlow. lia. }
  constructor; try done.
  - cbn [pending admit_range]. rewrite Hp, bt_insert_last; [unfold to_pending; by rewrite fmap_app|].
    apply Forall_forall. intros [k r] (x & Hx & -> & ->)%to_pending_elem; simpl.
    destruct (hist_last_high (done ++ rest)) as [ph|] eqn:Hph.
    + apply andb_prop in Hadm as [_ ->%N.eqb_eq].
      assert (x ∈ done ++ rest) as Hin by (apply elem_of_app; by right).
      specialize (Hbelow _ _ eq_refl Hin).
      assert (done ++ rest ≠ []) as Hne by (intros Hn; by rewrite Hn in Hph).
      pose proof (chained_bounds _ _ _ (Hch Hne) Hin). apply N.compare_lt_iff. lia.
    + apply hist_last_high_none, app_eq_nil in Hph as [_ ->]. by apply elem_of_nil in Hx.
  - cbn [last_registered_high admit_range]. by rewrite app_assoc, hist_last_high_app.
  - cbn [baseline_fixed admit_range]. symmetry. apply bool_decide_eq_true. right.
    by destruct done, rest.
  - intros x ->. destruct (Hbk x eq_refl) as [He Hx]. split; [|done].
    cbn [effective_baseline admit_range]. rewrite Hfix, bool_decide_eq_true_2 by (left; eauto). done.
  - intros _. rewrite Hexp, app_assoc, chained_app.
    destruct (hist_last_high (done ++ rest)) as [ph|] eqn:Hph.
    + apply andb_prop in Hadm as [Hmax%N.ltb_lt ->%N.eqb_eq].
      assert (done ++ rest ≠ []) as Hne by (intros Hn; by rewrite Hn in Hph).
      split; [auto|]. split; [done|]. by simpl.
    + apply hist_last_high_none in Hph as ->. by simpl.
Qed.

Lemma find_hist_mem e low high h :
  chained e h →
  match List.find (λ r, h_low r =? low) h with
  | Some r => r ∈ h ∧ h_low r = low ∧ hist_mem low high h = (h_high r =? high)
  | None => hist_mem low high h = false
  end.
Proof.
  intros Hc. destruct (List.find _ h) as [r|] eqn:Hf.
  - apply List.find_some in Hf as [Hin Hlow%N.eqb_eq]. apply list_elem_of_In in Hin.
    split; [done|]. split; [done|]. apply eq_bool_prop_intro.
    rewrite !Is_true_true, hist_mem_elem, N.eqb_eq. split; [|naive_solver].
    intros (r' & Hr' & Hl & Hh). by rewrite (chained_low_inj _ _ _ _ Hc Hin Hr') by congruence.
  - apply not_true_iff_false. rewrite hist_mem_elem. intros (r & Hr & Hl & _).
    apply list_elem_of_In in Hr. apply (List.find_none _ _ Hf) in Hr.
    apply N.eqb_neq in Hr. congruence.
Qed.

Lemma rep_rest_chained c b done rest :
  represents_with c b done rest → ∃ e, chained e rest.
Proof.
  intros Hrep. destruct (decide (done ++ rest = [])) as [Hn|Hne].
  - apply app_eq_nil in Hn as [_ ->]. by exists 0.
  - pose proof (rep_chained _ _ _ _ Hrep Hne) as Hc. apply chained_app in Hc as [_ Hc].
    destruct (hist_last_high done); [destruct Hc|]; eauto.
Qed.

(** [mark_committed] succeeds exactly on the pending ranges, and sets the
    commit bit of that range. *)
Lemma mark_committed_run c b done rest low high :
  represents_with c b done rest →
  if hist_mem low high rest
  then mark_committed low high c = (set_pending (to_pending (hist_mark low rest)) c, Ok tt)
  else (mark_committed low high c).1 = c ∧ is_ok (mark_committed low high c).2 = false.
Proof.
  intros Hrep. destruct (rep_rest_chained _ _ _ _ Hrep) as [e Hc].
  pose proof (find_hist_mem e low high rest Hc) as Hfind.
  unfold mark_committed. rewrite run_bind. unfold get. cbv iota.
  rewrite (rep_pending _ _ _ _ Hrep), (to_pending_get e) by done.
  destruct (List.find (λ r, h_low r =? low) rest) as [r|] eqn:Hf; cbn [fmap option_fmap option_map].
  - destruct Hfind as (Hin & Hlow & ->). simpl. destruct (h_high r =? high); simpl.
    + unfold modify. by erewrite to_pending_mark.
    + done.
  - rewrite Hfind. done.
Qed.

Lemma represents_mark c b done rest low high :
  represents_with c b done rest → hist_mem low high rest = true →
  represents_with (set_pending (to_pending (hist_mark low rest)) c) b done (hist_mark low rest).
Proof.
  intros [Hi Hp Ha Hl Hfix Hbk Hba Hunf Hdone] Hmem.
  assert (rest ≠ []) by (intros ->; done).
  assert (hist_mark low rest ≠ []) by (by destruct rest).
  constructor; simpl; try done.
  - rewrite Hl, !hist_last_high_app. by rewrite hist_mark_last.
  - rewrite Hfix. apply bool_decide_ext. 
    split; (intros [?|?]; [by left | right; by intros [_ ?]%app_eq_nil]).
  - intros Hf. specialize (Hba Hf). rewrite <- (hist_mark_committed low done) by done.
    rewrite <- hist_mark_app. by apply chained_mark.
Qed.

(** A range that was popped already is committed in the history. *)
Lemma hist_mark_done c b done rest low high :
  represents_with c b done rest → hist_mem low high (done ++ rest) = true →
  hist_mem low high rest = false → hist_mark low (done ++ rest) = done ++ rest.
Proof.
  intros Hrep Hall Hrest. rewrite hist_mark_app.
  rewrite hist_mark_committed by (by eapply rep_done). f_equal.
  apply hist_mark_absent. intros r Hr Hlow.
  apply hist_mem_elem in Hall as (r' & Hr' & Hlow' & Hhigh').
  assert (done ++ rest ≠ []) as Hne by (intros Hn; rewrite Hn in Hr'; by apply elem_of_nil in Hr').
  pose proof (rep_chained _ _ _ _ Hrep Hne) as Hc.
  assert (r = r') as ->.
  { eapply chained_low_inj; [done| |done|congruence]. apply elem_of_app; by right. }
  assert (hist_mem low high rest = true); [|congruence]. apply hist_mem_elem; eauto.
Qed.

(** ** The frontier *)

Lemma advance_loop_spec bl rest : ∀ acked e,
  chained e rest → (rest ≠ [] → expected_low acked bl = e) →
  ∃ mid rest', rest = mid ++ rest' ∧ Forall (λ r, h_committed r = true) mid ∧
    advance_loop bl acked (to_pending rest) =
      (committed_prefix_end acked rest, to_pending rest') ∧
    committed_prefix_end acked rest =
      match hist_last_high mid with Some x => Some x | None => acked end.
Proof.
  induction rest as [|r rest IH]; intros acked e.
  - intros _ _. by exists [], [].
  - intros (Hlow & Hle & Hu & Hmax & Hc) Hexp. simpl. destruct (h_committed r) eqn:Hcm; cycle 1.
    { exists [], (r :: rest). split_and!; [done | constructor | simpl; by rewrite ?Hcm | done]. }
    rewrite Hexp, Hlow, N.eqb_refl by done. simpl.
    destruct (IH (Some (h_high r)) _ Hc) as (mid & rest' & -> & Hmid & Hrun & Hend).
    { intros Hne. specialize (Hmax Hne). simpl. apply sat_add64_exact. lia. }
    exists (r :: mid), rest'. split; [done|]. split; [by constructor|].
    split; [done|]. rewrite Hend, hist_last_high_cons. by destruct (hist_last_high mid).
Qed.

Lemma committed_prefix_end_app acc done rest :
  Forall (λ r, h_committed r = true) done →
  committed_prefix_end acc (done ++ rest) =
  committed_prefix_end (match hist_last_high done with Some x => Some x | None => acc end) rest.
Proof.
  intros Hd. revert acc. induction Hd as [|r done Hr _ IH]; intros acc; simpl; [done|].
  rewrite Hr, IH, hist_last_high_cons. by destruct (hist_last_high done).
Qed.

Lemma represents_advance c b done rest :
  represents_with c b done rest →
  ∃ mid rest', rest = mid ++ rest' ∧
    represents_with (advance_frontier c) b (done ++ mid) rest' ∧
    acked_frontier (advance_frontier c) = committed_prefix_end None (done ++ rest).
Proof.
  intros Hrep. pose proof (rep_chained _ _ _ _ Hrep) as Hch.
  destruct Hrep as [Hi Hp Ha Hl Hfix Hbk Hba Hunf Hdone].
  unfold advance_frontier. destruct (baseline_fixed c) eqn:Hf; cycle 1.
  { symmetry in Hfix. apply bool_decide_eq_false in Hfix.
    assert (done ++ rest = []) as Hn by (destruct (done ++ rest) eqn:?; [done | destruct Hfix; by right]).
    apply app_eq_nil in Hn as [-> ->]. exists [], []. split; [done|].
    split; [|done]. cbn [negb]. constructor; rewrite ?Hf; try done.
    by rewrite bool_decide_eq_false_2. }
  specialize (Hba eq_refl). pose proof (proj1 (chained_app _ _ _) Hba) as [_ Hrest].
  destruct (advance_loop_spec (effective_baseline c) rest (acked_frontier c)
              match hist_last_high done with
              | Some l => l + 1 | None => expected_low None (effective_baseline c) end)
    as (mid & rest' & -> & Hmid & Hrun & Hend).
  { by destruct (hist_last_high done); [destruct Hrest|]. }
  { intros Hne. rewrite Ha. destruct (hist_last_high done); [|done].
    destruct Hrest as [Hmax _]. specialize (Hmax Hne). simpl. apply sat_add64_exact. lia. }
  exists mid, rest'. split; [done|]. simpl. rewrite Hp, Hrun. simpl. split.
  - constructor; simpl; try done.
    + rewrite Hend, hist_last_high_app, Ha. done.
    + by rewrite <- app_assoc.
    + rewrite Hfix. by rewrite <- app_assoc.
    + intros _. by rewrite <- app_assoc.
    + by apply Forall_app.
  - rewrite Ha, (committed_prefix_end_app None done (mid ++ rest')) by done.
    by destruct (hist_last_high done).
Qed.

(** ** The coordinator refines its specification *)

Lemma coord_exec_refines c b done rest op :
  represents_with c b done rest → op_u64 op →
  represents (coord_exec c op) b (spec_exec b (done ++ rest) op).
Proof.
  intros Hrep Hop. destruct op as [low high|low high|]; cbn [coord_exec spec_exec].
  - destruct Hop as [Hlow Hhigh]. rewrite register_pending_run.
    pose proof (register_check_admissible c b done rest low high Hrep Hhigh) as Hok.
    destruct (register_check c low high) as [[]|err]; simpl in *; rewrite <- Hok.
    + exists done, (hist_register low high rest). split; [unfold hist_register; by rewrite <- app_assoc|].
      by apply represents_admit.
    + by exists done, rest.
  - pose proof (mark_committed_run c b done rest low high Hrep) as Hrun.
    destruct (hist_mem low high rest) eqn:Hmem.
    + rewrite Hrun. assert (hist_mem low high (done ++ rest) = true) as ->.
      { apply hist_mem_elem. apply hist_mem_elem in Hmem as (r & Hr & ?).
        exists r. split; [apply elem_of_app; by right | done]. }
      exists done, (hist_mark low rest). split.
      * rewrite hist_mark_app. by rewrite hist_mark_committed by (by eapply rep_done).
      * by eapply represents_mark.
    + destruct Hrun as [-> _]. exists done, rest. split; [|done].
      destruct (hist_mem low high (done ++ rest)) eqn:Hall; [|done].
      by rewrite (hist_mark_done _ _ _ _ _ _ Hrep Hall Hmem).
  - destruct (represents_advance _ _ _ _ Hrep) as (mid & rest' & -> & Hrep' & _).
    exists (done ++ mid), rest'. by rewrite app_assoc.
Qed.

Section runs.
Context (src : SourceId) (b : option N) (Hb : ∀ x, b = Some x → is_u64 x).

(** The coordinator and the history after a sequence of operations. *)
Definition coord_run (ops : list CoordOp) : AckCoordinator :=
  foldl coord_exec (AckCoordinator_new src b) ops.
Definition spec_run (ops : list CoordOp) : History := foldl (spec_exec b) [] ops.

Lemma run_represents ops : Forall op_u64 ops → represents (coord_run ops) b (spec_run ops).
Proof using Hb.
  induction ops as [|op ops IH] using rev_ind.
  - intros _. exists [], []. split; [done|]. by apply represents_new.
  - intros [Hops Hop]%Forall_app. inversion_clear Hop. unfold coord_run, spec_run.
    rewrite !foldl_app. destruct (IH Hops) as (done & rest & Heq & Hrep).
    fold (coord_run ops) (spec_run ops). simpl. rewrite Heq. by apply coord_exec_refines.
Qed.
End runs.

Lemma represents_frontier c b h f :
  represents c b h → frontier c = Some f →
  ∀ r, r ∈ h → h_low r ≤ f → h_committed r = true ∧ h_high r ≤ f.
Proof.
  intros (done & rest & -> & Hrep) Hf r Hr Hlow.
  assert (hist_last_high done = Some f) as Hl by (by rewrite <- (rep_acked _ _ _ _ Hrep)).
  assert (done ++ rest ≠ []) as Hne by (intros Hn; rewrite Hn in Hr; by apply elem_of_nil in Hr).
  pose proof (rep_chained _ _ _ _ Hrep Hne) as Hch.
  apply chained_app in Hch as [Hcd Hcr]. rewrite Hl in Hcr. destruct Hcr as [_ Hcr].
  apply elem_of_app in Hr as [Hr|Hr].
  - pose proof (rep_done _ _ _ _ Hrep) as Hd. rewrite Forall_forall in Hd.
    split; [by apply Hd | exact (chained_last_bound _ _ _ _ Hcd Hl Hr)].
  - pose proof (chained_bounds _ _ _ Hcr Hr). lia.
Qed.

(** *** What a client of the coordinator relies on *)

Lemma represents_register c b h low high :
  represents c b h → is_u64 low → is_u64 high →
  if admissible b h low high
  then ∃ c', register_pending low high c = (c', Ok tt) ∧ represents c' b (hist_register low high h) ∧
             frontier c' = frontier c
  else ∃ e, register_pending low high c = (c, Err e).
Proof.
  intros (done & rest & -> & Hrep) Hlow Hhigh. rewrite register_pending_run.
  pose proof (register_check_admissible c b done rest low high Hrep Hhigh) as Hok.
  destruct (register_check c low high) as [[]|err]; simpl in Hok; rewrite <- Hok; [|by eexists].
  eexists. split; [reflexivity|]. split; [|by unfold frontier].
  exists done, (hist_register low high rest). split; [unfold hist_register; by rewrite <- app_assoc|].
  by apply represents_admit.
Qed.

Lemma represents_complete c b h low high r :
  represents c b h → r ∈ h → h_committed r = false → h_low r = low → h_high r = high →
  ∃ c', mark_committed low high c = (c', Ok tt) ∧
    represents (advance_frontier c') b (hist_mark low h) ∧
    frontier (advance_frontier c') = committed_prefix_end None (hist_mark low h).
Proof.
  intros (done & rest & -> & Hrep) Hr Hopen Hlow Hhigh.
  pose proof (rep_done _ _ _ _ Hrep) as Hdone.
  assert (hist_mem low high rest = true) as Hmem.
  { apply hist_mem_elem. exists r. split; [|done]. apply elem_of_app in Hr as [Hr|]; [|done].
    rewrite Forall_forall in Hdone. specialize (Hdone _ Hr). congruence. }
  pose proof (mark_committed_run c b done rest low high Hrep) as Hrun. rewrite Hmem in Hrun.
  pose proof (represents_mark c b done rest low high Hrep Hmem) as Hrep1.
  eexists. split; [exact Hrun|].
  destruct (represents_advance _ _ _ _ Hrep1) as (mid & rest' & Heq & Hrep2 & Hf).
  rewrite hist_mark_app, (hist_mark_committed low done Hdone). split; [|exact Hf].
  exists (done ++ mid), rest'. split; [rewrite Heq; apply app_assoc | exact Hrep2].
Qed.

Lemma represents_new' src b :
  (∀ x, b = Some x → is_u64 x) → represents (AckCoordinator_new src b) b [].
Proof. intros Hb. exists [], []. split; [done|]. by apply represents_new. Qed.

(** The bounds of a represented history. *)
Lemma represents_chained c b h :
  represents c b h → ∃ e, chained e h ∧ ∀ x, b = Some x → e = sat_add64 x 1.
Proof.
  intros (done & rest & -> & Hrep). destruct (done ++ rest) as [|r0 l] eqn:Heq.
  - destruct b as [x|]; [exists (sat_add64 x 1) | exists 0]; (split; [done|]); [|done].
    by intros ? [= ->].
  - assert (done ++ rest ≠ []) as Hne by (by rewrite Heq).
    pose proof (rep_chained _ _ _ _ Hrep Hne) as Hc. rewrite Heq in Hc.
    eexists. split; [exact Hc|]. intros x ->. destruct (rep_baseline_known _ _ _ _ Hrep x eq_refl) as [-> _]. done.
Qed.

(** The frontier only moves up: an operation keeps it or replaces it by a
    larger sequence. *)
Definition frontier_le (f g : option N) : bool :=
  match f, g with
  | None, _ => true
  | Some x, Some y => x <=? y
  | Some _, None => false
  end.

Lemma frontier_le_refl f : frontier_le f f = true.
Proof. destruct f; [apply N.leb_refl | done]. Qed.

Lemma frontier_le_done e done mid :
  chained e (done ++ mid) →
  frontier_le (hist_last_high done) (hist_last_high (done ++ mid)) = true.
Proof.
  intros Hc. destruct (hist_last_high done) as [f|] eqn:Hf; [|done].
  destruct (hist_last_high (done ++ mid)) as [g|] eqn:Hg; simpl.
  - apply hist_last_high_some in Hf as (r & Hr & <-). apply N.leb_le.
    eapply chained_last_bound; [done..|]. apply elem_of_app; by left.
  - rewrite hist_last_high_app, Hf in Hg. by destruct (hist_last_high mid).
Qed.

Lemma coord_exec_frontier c b done rest op :
  represents_with c b done rest → frontier_le (frontier c) (frontier (coord_exec c op)) = true.
Proof.
  intros Hrep. destruct op as [low high|low high|]; cbn [coord_exec].
  - rewrite register_pending_run. destruct (register_check c low high); apply frontier_le_refl.
  - pose proof (mark_committed_run c b done rest low high Hrep) as Hrun.
    destruct (hist_mem low high rest).
    + rewrite Hrun. apply frontier_le_refl.
    + destruct Hrun as [-> _]. apply frontier_le_refl.
  - destruct (represents_advance _ _ _ _ Hrep) as (mid & rest' & -> & Hrep' & _).
    unfold frontier. rewrite (rep_acked _ _ _ _ Hrep), (rep_acked _ _ _ _ Hrep').
    destruct (hist_last_high done) as [f|] eqn:Hf; [rewrite <- Hf|done].
    assert ((done ++ mid) ++ rest' ≠ []) as Hne' by (by destruct done).
    pose proof (rep_chained _ _ _ _ Hrep' Hne') as Hch.
    apply chained_app in Hch as [Hch _]. by eapply frontier_le_done.
Qed.

(** ** Properties *)

(** C14: refinement.  Whatever sequence of registrations, commits and frontier
    advances is applied to a fresh coordinator, accepted or rejected, the
    coordinator stands for the history that the specification computes: the
    admitted ranges, in order, gap-free from the baseline, each with its
    commit bit. *)
Theorem coordinator_refines_history (src : SourceId) (b : option N) (ops : list CoordOp)
    (Hb : ∀ x, b = Some x → is_u64 x) (Hops : Forall op_u64 ops) :
  represents (coord_run src b ops) b (spec_run b ops).
Proof. by apply run_represents. Qed.

(** C13: after [advance_frontier] the frontier is exactly the end of the
    longest committed prefix of the admitted ranges: no committed prefix is
    left unacknowledged and nothing past the first hole is acknowledged. *)
Theorem advance_frontier_exact (src : SourceId) (b : option N) (ops : list CoordOp)
    (Hb : ∀ x, b = Some x → is_u64 x) (Hops : Forall op_u64 ops) :
  frontier (advance_frontier (coord_run src b ops)) =
  committed_prefix_end None (spec_run b ops).
Proof.
  destruct (run_represents src b Hb ops Hops) as (done & rest & -> & Hrep).
  destruct (represents_advance _ _ _ _ Hrep) as (mid & rest' & _ & _ & Hf). exact Hf.
Qed.

(** The frontier never covers a hole.  At every point of every run, an
    admitted range that starts at or below the frontier is committed and ends
    at or below the frontier. *)
Theorem frontier_never_over_hole (src : SourceId) (b : option N) (ops : list CoordOp) (f : N)
    (r : HRange)
    (Hb : ∀ x, b = Some x → is_u64 x) (Hops : Forall op_u64 ops)
    (Hf : frontier (coord_run src b ops) = Some f) (Hr : r ∈ spec_run b ops)
    (Hlow : h_low r ≤ f) :
  h_committed r = true ∧ h_high r ≤ f.
Proof. by eapply represents_frontier; [apply run_represents|..]. Qed.

(** The frontier is monotone: no operation, in any state a run reaches,
    moves it back. *)
Theorem frontier_monotone (src : SourceId) (b : option N) (ops : list CoordOp) (op : CoordOp)
    (Hb : ∀ x, b = Some x → is_u64 x) (Hops : Forall op_u64 ops) :
  frontier_le (frontier (coord_run src b ops)) (frontier (coord_run src b (ops ++ [op]))) = true.
Proof.
  destruct (run_represents src b Hb ops Hops) as (done & rest & _ & Hrep).
  unfold coord_run. rewrite foldl_app. by eapply coord_exec_frontier.
Qed.

(**  [register_pending] accepts a range exactly when it is well formed and
    starts right after the last admitted range (or right after the baseline;
    any start is accepted with no baseline), and a rejected range leaves the
    coordinator as it was. *)
Theorem register_pending_verdict (src : SourceId) (b : option N) (ops : list CoordOp) (low high : N)
    (Hb : ∀ x, b = Some x → is_u64 x) (Hops : Forall op_u64 ops) (Hhigh : is_u64 high) :
  let c := coord_run src b ops in
  is_ok (register_pending low high c).2 = admissible b (spec_run b ops) low high ∧
  (is_ok (register_pending low high c).2 = false → (register_pending low high c).1 = c).
Proof.
  intros c. destruct (run_represents src b Hb ops Hops) as (done & rest & Heq & Hrep).
  fold c in Hrep. rewrite register_pending_run, Heq.
  pose proof (register_check_admissible c b done rest low high Hrep Hhigh) as <-.
  by destruct (register_check c low high).
Qed.

(**  [mark_committed] accepts exactly a pending range: one of the admitted
    ranges, with both ends equal, that the frontier has not passed.  A
    rejected call leaves the coordinator as it was. *)
Theorem mark_committed_verdict (src : SourceId) (b : option N) (ops : list CoordOp) (low high : N)
    (Hb : ∀ x, b = Some x → is_u64 x) (Hops : Forall op_u64 ops) :
  let c := coord_run src b ops in
  (is_ok (mark_committed low high c).2 = true ↔
   ∃ r, r ∈ spec_run b ops ∧ h_low r = low ∧ h_high r = high ∧
        match frontier c with Some f => f < low | None => True end) ∧
  (is_ok (mark_committed low high c).2 = false → (mark_committed low high c).1 = c).
Proof.
  intros c. destruct (run_represents src b Hb ops Hops) as (done & rest & Heq & Hrep).
  fold c in Hrep. pose proof (mark_committed_run c b done rest low high Hrep) as Hrun.
  pose proof (rep_chained _ _ _ _ Hrep) as Hch.
  rewrite Heq. unfold frontier. rewrite (rep_acked _ _ _ _ Hrep). split; cycle 1.
  { destruct (hist_mem low high rest); [by rewrite Hrun | by destruct Hrun]. }
  transitivity (hist_mem low high rest = true).
  { destruct (hist_mem low high rest); [by rewrite Hrun | destruct Hrun as [_ ->]; done]. }
  rewrite hist_mem_elem. split; intros (r & Hr & Hlow & Hhigh).
  - exists r. assert (r ∈ done ++ rest) as Hin by (apply elem_of_app; by right).
    assert (done ++ rest ≠ []) as Hne by (intros Hn; rewrite Hn in Hin; by apply elem_of_nil in Hin).
    specialize (Hch Hne). apply chained_app in Hch as [_ Hcr].
    split_and!; [done..|]. destruct (hist_last_high done) as [f|]; [|done].
    destruct Hcr as [_ Hcr]. pose proof (chained_bounds _ _ _ Hcr Hr). lia.
  - destruct Hhigh as [Hhigh Hf]. exists r. split; [|done].
    assert (done ++ rest ≠ []) as Hne by (intros Hn; rewrite Hn in Hr; by apply elem_of_nil in Hr).
    specialize (Hch Hne). apply chained_app in Hch as [Hcd _].
    apply elem_of_app in Hr as [Hr|Hr]; [|done].
    destruct (hist_last_high done) as [f|] eqn:Hl.
    + pose proof (chained_last_bound _ _ _ _ Hcd Hl Hr).
      pose proof (chained_bounds _ _ _ Hcd Hr). lia.
    + apply hist_last_high_none in Hl as ->. by apply elem_of_nil in Hr.
Qed.

(** Sources are isolated: registering or taking one source's coordinator
    leaves every other coordinator alone, a second registration of a source
    is an error that changes nothing, and [take] removes exactly what it
    returns. *)
Theorem registry_isolation (reg : AckCoordinators) (s : SourceId) (baseline : option N) :
  (∀ s', s' ≠ s → (register_source s baseline reg).1 !! s' = reg !! s' ∧
                  (take_coordinator s reg).2 !! s' = reg !! s') ∧
  (register_source s baseline reg).2 =
    (if bool_decide (is_Some (reg !! s))
     then Err (EAck ("coordinator already registered for source " +:+ SourceId_display s))
     else Ok tt) ∧
  (register_source s baseline reg).1 =
    (if bool_decide (is_Some (reg !! s)) then reg else <[s := AckCoordinator_new s baseline]> reg) ∧
  take_coordinator s (take_coordinator s reg).2 = (None, (take_coordinator s reg).2) ∧
  (reg !! s = None → take_coordinator s (register_source s baseline reg).1 =
                     (Some (AckCoordinator_new s baseline), reg)).
Proof.
  unfold register_source, take_coordinator, AckCoordinators in *. rewrite !run_bind. unfold get. cbv iota. simpl.
  split_and!.
  - intros s' Hne. rewrite lookup_delete_ne by done. split; [|done].
    case_bool_decide; [done|]. simpl. by rewrite lookup_insert_ne.
  - by case_bool_decide.
  - by case_bool_decide.
  - by rewrite lookup_delete_eq, delete_delete_eq.
  - intros Hs. rewrite Hs. simpl. rewrite lookup_insert_eq, delete_insert_eq, delete_id; done.
Qed.

(** ** The properties at work

    A run that admits three ranges after baseline 4, commits them out of order
    and is offered an overlapping and a gapped range. *)

Definition demo_src : SourceId := mkSourceId "logs-prod".
Definition demo_ops : list CoordOp :=
  [OpRegister 5 7; OpRegister 8 8; OpRegister 9 12; OpMark 8 8; OpAdvance; OpRegister 12 13;
   OpMark 5 7; OpAdvance; OpRegister 20 21; OpMark 8 9].

Lemma demo_baseline_u64 : ∀ x, Some 4 = Some x → is_u64 x.
Proof. intros x [= <-]. unfold is_u64, u64_max. lia. Qed.
Lemma demo_ops_u64 : Forall op_u64 demo_ops.
Proof. repeat constructor; vm_compute; discriminate. Qed.

Lemma coordinator_refines_history_witness :
  spec_run (Some 4) demo_ops =
    [{| h_low := 5; h_high := 7; h_committed := true |};
     {| h_low := 8; h_high := 8; h_committed := true |};
     {| h_low := 9; h_high := 12; h_committed := false |}] ∧
  represents (coord_run demo_src (Some 4) demo_ops) (Some 4) (spec_run (Some 4) demo_ops).
Proof.
  split; [by vm_compute|].
  apply (coordinator_refines_history demo_src (Some 4) demo_ops demo_baseline_u64 demo_ops_u64).
Defined.

Lemma advance_frontier_exact_witness :
  frontier (advance_frontier (coord_run demo_src (Some 4) demo_ops)) = Some 8.
Proof.
  rewrite (advance_frontier_exact demo_src (Some 4) demo_ops demo_baseline_u64 demo_ops_u64).
  by vm_compute.
Defined.

Lemma frontier_never_over_hole_witness :
  h_committed {| h_low := 5; h_high := 7; h_committed := true |} = true ∧ 7 ≤ 8.
Proof.
  apply (frontier_never_over_hole demo_src (Some 4) demo_ops 8
           {| h_low := 5; h_high := 7; h_committed := true |} demo_baseline_u64 demo_ops_u64).
  - by vm_compute.
  - vm_compute. left.
  - simpl. lia.
Defined.

Lemma frontier_monotone_witness :
  frontier_le (frontier (coord_run demo_src (Some 4) demo_ops))
    (frontier (coord_run demo_src (Some 4) (demo_ops ++ [OpAdvance]))) = true.
Proof.
  apply (frontier_monotone demo_src (Some 4) demo_ops OpAdvance demo_baseline_u64 demo_ops_u64).
Defined.

Lemma register_pending_verdict_witness :
  is_ok (register_pending 13 20 (coord_run demo_src (Some 4) demo_ops)).2 = true ∧
  is_ok (register_pending 14 20 (coord_run demo_src (Some 4) demo_ops)).2 = false.
Proof.
  assert (is_u64 20) as H20 by (vm_compute; discriminate).
  split.
  - rewrite (proj1 (register_pending_verdict demo_src (Some 4) demo_ops 13 20
                      demo_baseline_u64 demo_ops_u64 H20)). by vm_compute.
  - rewrite (proj1 (register_pending_verdict demo_src (Some 4) demo_ops 14 20
                      demo_baseline_u64 demo_ops_u64 H20)). by vm_compute.
Defined.

Lemma mark_committed_verdict_witness :
  is_ok (mark_committed 9 12 (coord_run demo_src (Some 4) demo_ops)).2 = true.
Proof.
  apply (mark_committed_verdict demo_src (Some 4) demo_ops 9 12 demo_baseline_u64 demo_ops_u64).
  exists {| h_low := 9; h_high := 12; h_committed := false |}.
  split_and!; [vm_compute; right; right; left | done | done | by vm_compute].
Defined.
