(* ===== verification/ByteBudget.v ===== *)
(** * Per-source byte budget
    (runtime/opendata-ingest-runtime/src/source_budget.rs)

    The first half is the budget as its callers see it: the atomics are a
    store ([Budget]: [in_flight], the capacity, and the per-stage counters a
    reservation may be attached to), each method is one transition of it, and
    [accounts] states what the atomics mean: every counter is the sum of the
    bytes its live reservations hold.

    The second half is [reserve] as the concurrent code runs it: subscribe to
    the notifier, load, compare-and-exchange, park; interleaved with
    reservations that grow, shrink and drop in other tasks, where the release
    of bytes and the notification are two separate steps.  The theorem is that
    no wake-up is lost. *)

From Stdlib Require Import NArith Lia.
From stdpp Require Import relations.
From S2P Require Import Prelude.
From S2P Require Import Types.
Local Open Scope N_scope.

(** ** State *)

(** The address of an [Arc<AtomicU64>] stage counter. *)
Abbreviation StageLoc := N (only parsing).

Record Budget := {
  bud_source : SourceId;
  capacity : N;
  in_flight : N;
  stage_atomics : gmap StageLoc N;
}.

(** [ByteReservation]. *)
Record Reservation := {
  held : N;
  stage : option StageLoc;
}.

(** [SourceByteBudget::new]. *)
Definition Budget_new (source : SourceId) (cap : N) : Budget :=
  {| bud_source := source; capacity := cap; in_flight := 0; stage_atomics := ∅ |}.

Definition set_in_flight (n : N) (b : Budget) : Budget :=
  {| bud_source := bud_source b; capacity := capacity b; in_flight := n;
     stage_atomics := stage_atomics b |}.

(** The value of a stage counter; a counter starts at zero. *)
Definition stage_load (l : StageLoc) (b : Budget) : N := default 0 (stage_atomics b !! l).
Definition stage_store (l : StageLoc) (n : N) (b : Budget) : Budget :=
  {| bud_source := bud_source b; capacity := capacity b; in_flight := in_flight b;
     stage_atomics := <[l := n]> (stage_atomics b) |}.
Definition stage_fetch_add (l : StageLoc) (n : N) (b : Budget) : Budget :=
  stage_store l (wrapping_add64 (stage_load l b) n) b.
Definition stage_fetch_sub (l : StageLoc) (n : N) (b : Budget) : Budget :=
  stage_store l (wrapping_sub64 (stage_load l b) n) b.

(** ** Operations *)

Definition fresh_reservation (bytes : N) : Reservation := {| held := bytes; stage := None |}.

(** One pass of the [reserve] loop that meets no interference: claim the bytes
    or park ([None]).  The addition of the exchange is a plain [+] after a
    saturating check: it wraps when the capacity is [u64::MAX]. *)
Definition reserve (bytes : N) (b : Budget) : option Reservation * Budget :=
  if bytes =? 0 then (Some (fresh_reservation 0), b)
  else
    let current := in_flight b in
    if sat_add64 current bytes <=? capacity b
    then (Some (fresh_reservation bytes), set_in_flight (wrapping_add64 current bytes) b)
    else (None, b).

Definition try_reserve (bytes : N) (b : Budget) : option Reservation * Budget :=
  if bytes =? 0 then (Some (fresh_reservation 0), b)
  else
    let current := in_flight b in
    match checked_add64 current bytes with
    | None => (None, b)
    | Some next =>
        if capacity b <? next then (None, b)
        else (Some (fresh_reservation bytes), set_in_flight next b)
    end.

Definition attach_stage (l : StageLoc) (r : Reservation) (b : Budget) : Reservation * Budget :=
  let b1 :=
    match stage r with
    | Some prev => if 0 <? held r then stage_fetch_sub prev (held r) b else b
    | None => b
    end in
  let b2 := if 0 <? held r then stage_fetch_add l (held r) b1 else b1 in
  ({| held := held r; stage := Some l |}, b2).

Definition on_stage (f : StageLoc → N → Budget → Budget) (r : Reservation) (n : N) (b : Budget)
    : Budget :=
  match stage r with Some l => f l n b | None => b end.

Definition reconcile (actual_bytes : N) (r : Reservation) (b : Budget) : Reservation * Budget :=
  if actual_bytes =? held r then (r, b)
  else
    let r' := {| held := actual_bytes; stage := stage r |} in
    if actual_bytes <? held r
    then
      let delta := held r - actual_bytes in
      let b1 := set_in_flight (wrapping_sub64 (in_flight b) delta) b in
      (r', on_stage stage_fetch_sub r delta b1)
    else
      let delta := actual_bytes - held r in
      let b1 := set_in_flight (wrapping_add64 (in_flight b) delta) b in
      (r', on_stage stage_fetch_add r delta b1).

(** [Drop for ByteReservation]. *)
Definition drop_reservation (r : Reservation) (b : Budget) : Budget :=
  if 0 <? held r
  then
    let b1 := on_stage stage_fetch_sub r (held r) b in
    set_in_flight (wrapping_sub64 (in_flight b1) (held r)) b1
  else b.

(** ** What the counters mean *)

Definition held_sum (rs : list Reservation) : N := sum_N (held <$> rs).

Definition at_stage (l : StageLoc) (r : Reservation) : bool :=
  bool_decide (stage r = Some l).

Definition held_at (l : StageLoc) (rs : list Reservation) : N :=
  sum_N ((λ r, if at_stage l r then held r else 0) <$> rs).

(** [accounts b rs]: with [rs] the live reservations, every counter is the
    sum of what its reservations hold, modulo the width of the atomic. *)
Record accounts (b : Budget) (rs : list Reservation) : Prop := {
  acc_in_flight : in_flight b = wrap64 (held_sum rs);
  acc_stage : ∀ l, stage_load l b = wrap64 (held_at l rs);
}.

#[export] Instance held_sum_proper : Proper ((≡ₚ) ==> (=)) held_sum.
Proof. intros rs1 rs2 H. unfold held_sum. by rewrite H. Qed.
#[export] Instance held_at_proper l : Proper ((≡ₚ) ==> (=)) (held_at l).
Proof. intros rs1 rs2 H. unfold held_at. by rewrite H. Qed.
#[export] Instance accounts_proper b : Proper ((≡ₚ) ==> iff) (accounts b).
Proof.
  intros rs1 rs2 H. split; intros [H1 H2]; split; intros; rewrite ?H1, ?H2;
    by rewrite H.
Qed.

Lemma held_sum_cons r rs : held_sum (r :: rs) = held r + held_sum rs.
Proof. done. Qed.
Lemma held_at_cons l r rs :
  held_at l (r :: rs) = (if at_stage l r then held r else 0) + held_at l rs.
Proof. done. Qed.

Lemma stage_load_store l l' n b :
  stage_load l (stage_store l' n b) = if decide (l = l') then n else stage_load l b.
Proof.
  unfold stage_load, stage_store; simpl. destruct (decide (l = l')) as [->|].
  - by rewrite lookup_insert_eq.
  - by rewrite lookup_insert_ne.
Qed.

Lemma accounts_new source cap : accounts (Budget_new source cap) [].
Proof. split; [done|]. intros l. done. Qed.

(** ** Each operation keeps the accounts *)

Lemma accounts_in_flight n b rs rs' :
  n = wrap64 (held_sum rs') → (∀ l, held_at l rs' = held_at l rs) →
  accounts b rs → accounts (set_in_flight n b) rs'.
Proof. intros Hn Hl [_ H2]. split; [done|]. intros l. rewrite Hl. apply H2. Qed.

Lemma fresh_not_at l n : at_stage l (fresh_reservation n) = false.
Proof. by unfold at_stage. Qed.

Lemma reserve_accounts bytes b rs r b' :
  accounts b rs → reserve bytes b = (Some r, b') → accounts b' (r :: rs).
Proof.
  intros Hacc. unfold reserve.
  destruct (N.eqb_spec bytes 0); [|destruct (N.leb_spec (sat_add64 (in_flight b) bytes) (capacity b))];
    intros; simplify_eq.
  - destruct Hacc. split; intros; rewrite ?held_sum_cons, ?held_at_cons; simpl; by rewrite ?N.add_0_l.
  - apply (accounts_in_flight _ _ rs); [|by intros|done].
    rewrite (acc_in_flight _ _ Hacc) in *. rewrite held_sum_cons; simpl.
    by rewrite (N.add_comm bytes), wrapping_add64_spec.
Qed.

Lemma try_reserve_accounts bytes b rs r b' :
  accounts b rs → try_reserve bytes b = (Some r, b') → accounts b' (r :: rs).
Proof.
  intros Hacc. unfold try_reserve, checked_add64.
  destruct (N.eqb_spec bytes 0); [|destruct (N.leb_spec (in_flight b + bytes) u64_max);
    [destruct (N.ltb_spec (capacity b) (in_flight b + bytes))|]]; intros; simplify_eq.
  - destruct Hacc. split; intros; rewrite ?held_sum_cons, ?held_at_cons; simpl; by rewrite ?N.add_0_l.
  - apply (accounts_in_flight _ _ rs); [|by intros|done].
    rewrite (acc_in_flight _ _ Hacc) in *. rewrite held_sum_cons; simpl.
    rewrite (N.add_comm bytes), <- wrapping_add64_spec.
    unfold wrapping_add64. symmetry. by apply wrap64_small.
Qed.

(** A counter that loses the bytes of one attached reservation, or gains
    them. *)
Lemma stage_sub_spec l n b k : stage_load l b = wrap64 (n + k) →
  stage_load l (stage_fetch_sub l n b) = wrap64 k.
Proof.
  intros Hl. unfold stage_fetch_sub. rewrite stage_load_store, decide_True by done.
  rewrite Hl, wrapping_sub64_spec by lia. f_equal. lia.
Qed.

Lemma stage_add_spec l n b k : stage_load l b = wrap64 k →
  stage_load l (stage_fetch_add l n b) = wrap64 (n + k).
Proof.
  intros Hl. unfold stage_fetch_add. rewrite stage_load_store, decide_True by done.
  rewrite Hl, wrapping_add64_spec. f_equal. lia.
Qed.

Lemma stage_fetch_ne l l' n b :
  l ≠ l' → stage_load l (stage_fetch_add l' n b) = stage_load l b ∧
           stage_load l (stage_fetch_sub l' n b) = stage_load l b.
Proof.
  intros. unfold stage_fetch_add, stage_fetch_sub.
  split; by rewrite stage_load_store, decide_False.
Qed.

Lemma fetch_add_in_flight l n b : in_flight (stage_fetch_add l n b) = in_flight b.
Proof. done. Qed.
Lemma fetch_sub_in_flight l n b : in_flight (stage_fetch_sub l n b) = in_flight b.
Proof. done. Qed.

Lemma at_stage_eq l r l' : stage r = Some l' → at_stage l r = bool_decide (l' = l).
Proof. intros H. unfold at_stage. rewrite H. apply bool_decide_ext. naive_solver. Qed.

Lemma attach_accounts l r b rs :
  accounts b (r :: rs) →
  accounts (attach_stage l r b).2 ((attach_stage l r b).1 :: rs).
Proof.
  intros [H1 H2]. unfold attach_stage; simpl.
  destruct (N.ltb_spec 0 (held r)) as [Hpos|Hz].
  - split.
    + rewrite held_sum_cons in *. rewrite fetch_add_in_flight.
      destruct (stage r); by rewrite ?fetch_sub_in_flight, H1.
    + intros l1. rewrite held_at_cons; simpl. rewrite (at_stage_eq l1 {| held := held r; stage := Some l |} l eq_refl).
      assert (stage_load l1 (match stage r with
                | Some prev => stage_fetch_sub prev (held r) b | None => b end)
              = wrap64 (held_at l1 rs)) as Hmid.
      { specialize (H2 l1). rewrite held_at_cons in H2. unfold at_stage in H2.
        destruct (stage r) as [prev|]; [|exact H2].
        destruct (decide (l1 = prev)) as [->|Hne].
        - rewrite bool_decide_eq_true_2 in H2 by done. by apply stage_sub_spec.
        - rewrite bool_decide_eq_false_2 in H2 by congruence.
          by rewrite (proj2 (stage_fetch_ne _ _ _ _ Hne)), H2. }
      destruct (decide (l1 = l)) as [->|Hne].
      * rewrite bool_decide_eq_true_2 by done. by apply stage_add_spec.
      * rewrite bool_decide_eq_false_2 by congruence.
        by rewrite (proj1 (stage_fetch_ne _ _ _ _ Hne)).
  - assert (held r = 0) as Hr by lia. split.
    + rewrite held_sum_cons in *. by destruct (stage r).
    + intros l1. specialize (H2 l1). rewrite held_at_cons in *. simpl. rewrite Hr in *.
      destruct (stage r), (at_stage l1 r), (at_stage l1 _); done.
Qed.

Lemma reconcile_accounts n r b rs :
  accounts b (r :: rs) → accounts (reconcile n r b).2 ((reconcile n r b).1 :: rs).
Proof.
  intros [H1 H2]. unfold reconcile. destruct (N.eqb_spec n (held r)) as [|Hne]; [by split|].
  assert (∀ l1, at_stage l1 {| held := n; stage := stage r |} = at_stage l1 r) as Hat by done.
  destruct (N.ltb_spec n (held r)) as [Hlt|Hge]; simpl; split; unfold on_stage.
  - rewrite held_sum_cons in *. simpl.
    destruct (stage r); rewrite ?fetch_sub_in_flight; simpl; rewrite H1, wrapping_sub64_spec by lia; f_equal; lia.
  - intros l1. rewrite held_at_cons, Hat; simpl. specialize (H2 l1). rewrite held_at_cons in H2.
    unfold at_stage in *. destruct (stage r) as [prev|]; [|exact H2].
    destruct (decide (l1 = prev)) as [->|Hn].
    + rewrite bool_decide_eq_true_2 in * by done. apply stage_sub_spec.
      transitivity (stage_load prev b); [done|]. rewrite H2. f_equal. lia.
    + rewrite bool_decide_eq_false_2 in * by congruence.
      by rewrite (proj2 (stage_fetch_ne _ _ _ _ Hn)), <- H2.
  - rewrite held_sum_cons in *. simpl.
    destruct (stage r); rewrite ?fetch_add_in_flight; simpl; rewrite H1, wrapping_add64_spec; f_equal; lia.
  - intros l1. rewrite held_at_cons, Hat; simpl. specialize (H2 l1). rewrite held_at_cons in H2.
    unfold at_stage in *. destruct (stage r) as [prev|]; [|exact H2].
    destruct (decide (l1 = prev)) as [->|Hn].
    + rewrite bool_decide_eq_true_2 in * by done.
      replace (n + held_at prev rs) with ((n - held r) + (held r + held_at prev rs)) by lia.
      apply stage_add_spec. by transitivity (stage_load prev b).
    + rewrite bool_decide_eq_false_2 in * by congruence.
      by rewrite (proj1 (stage_fetch_ne _ _ _ _ Hn)), <- H2.
Qed.

Lemma drop_accounts r b rs : accounts b (r :: rs) → accounts (drop_reservation r b) rs.
Proof.
  intros [H1 H2]. unfold drop_reservation, on_stage.
  destruct (N.ltb_spec 0 (held r)) as [Hpos|Hz].
  - split.
    + rewrite held_sum_cons in H1.
      destruct (stage r); simpl; rewrite ?fetch_sub_in_flight, H1, wrapping_sub64_spec by lia; f_equal; lia.
    + intros l1. specialize (H2 l1). rewrite held_at_cons in H2. unfold at_stage in H2.
      destruct (stage r) as [prev|]; [|exact H2].
      destruct (decide (l1 = prev)) as [->|Hn].
      * rewrite bool_decide_eq_true_2 in H2 by done. exact (stage_sub_spec _ _ _ _ H2).
      * rewrite bool_decide_eq_false_2 in H2 by congruence.
        transitivity (stage_load l1 (stage_fetch_sub prev (held r) b)); [done|].
        by rewrite (proj2 (stage_fetch_ne _ _ _ _ Hn)), H2.
  - assert (held r = 0) as Hr by lia. rewrite held_sum_cons, Hr in H1. split; [done|].
    intros l1. specialize (H2 l1). rewrite held_at_cons, Hr in H2. by destruct (at_stage l1 r).
Qed.

Lemma drop_all_accounts gone b rs :
  accounts b (gone ++ rs) → accounts (foldl (λ b r, drop_reservation r b) b gone) rs.
Proof.
  revert b. induction gone as [|r gone IH]; intros b; simpl; [done|].
  intros H. apply IH. by apply drop_accounts.
Qed.

Lemma attach_capacity l r b : capacity (attach_stage l r b).2 = capacity b.
Proof. unfold attach_stage; simpl. by destruct (stage r), (0 <? held r). Qed.
Lemma reconcile_capacity n r b : capacity (reconcile n r b).2 = capacity b.
Proof.
  unfold reconcile, on_stage. destruct (n =? held r); [done|].
  by destruct (n <? held r), (stage r).
Qed.
Lemma drop_capacity r b : capacity (drop_reservation r b) = capacity b.
Proof. unfold drop_reservation, on_stage. by destruct (0 <? held r), (stage r). Qed.
Lemma reserve_capacity n b : capacity (reserve n b).2 = capacity b.
Proof. unfold reserve. repeat split_goal_match; done. Qed.
Lemma try_reserve_capacity n b : capacity (try_reserve n b).2 = capacity b.
Proof. unfold try_reserve. repeat split_goal_match; done. Qed.

(** ** Runs of the budget: any sequence of calls on any reservations *)

Inductive BudgetOp :=
| BReserve (bytes : N)
| BTryReserve (bytes : N)
| BAttach (i : nat) (l : StageLoc)
| BReconcile (i : nat) (actual : N)
| BDrop (i : nat).

(** The live reservations are numbered by their position; a parked [reserve]
    and an index past the end change nothing. *)
Definition budget_exec (s : Budget * list Reservation) (op : BudgetOp) : Budget * list Reservation :=
  let '(b, rs) := s in
  let update f i :=
    match rs !! i with
    | Some r => let '(r', b') := f r b in (b', r' :: delete i rs)
    | None => s
    end in
  match op with
  | BReserve n =>
      match reserve n b with (Some r, b') => (b', r :: rs) | (None, b') => (b', rs) end
  | BTryReserve n =>
      match try_reserve n b with (Some r, b') => (b', r :: rs) | (None, b') => (b', rs) end
  | BAttach i l => update (attach_stage l) i
  | BReconcile i n => update (reconcile n) i
  | BDrop i =>
      match rs !! i with Some r => (drop_reservation r b, delete i rs) | None => s end
  end.

Lemma budget_exec_accounts b rs op :
  accounts b rs → accounts (budget_exec (b, rs) op).1 (budget_exec (b, rs) op).2.
Proof.
  intros Hacc. destruct op as [n|n|i l|i n|i]; simpl.
  - destruct (reserve n b) as [[r|] b'] eqn:Hr; simpl; [by eapply reserve_accounts|].
    unfold reserve in Hr. repeat split_match_in Hr; by simplify_eq.
  - destruct (try_reserve n b) as [[r|] b'] eqn:Hr; simpl; [by eapply try_reserve_accounts|].
    unfold try_reserve in Hr. repeat split_match_in Hr; by simplify_eq.
  - destruct (rs !! i) as [r|] eqn:Hi; [|done].
    rewrite (delete_Permutation _ _ _ Hi) in Hacc. by apply (attach_accounts l).
  - destruct (rs !! i) as [r|] eqn:Hi; [|done].
    rewrite (delete_Permutation _ _ _ Hi) in Hacc. pose proof (reconcile_accounts n _ _ _ Hacc).
    by destruct (reconcile n r b).
  - destruct (rs !! i) as [r|] eqn:Hi; [|done].
    rewrite (delete_Permutation _ _ _ Hi) in Hacc. by apply drop_accounts.
Qed.

Definition budget_run (source : SourceId) (cap : N) (ops : list BudgetOp)
    : Budget * list Reservation :=
  foldl budget_exec (Budget_new source cap, []) ops.

(** C31: accounting.  After any sequence of reservations, stage transitions,
    reconciliations and drops, the byte budget holds exactly the bytes of the
    live reservations, and every stage counter exactly the bytes of the
    reservations attached to it; no early return or drop path can leak
    bytes. *)
Theorem budget_accounting (source : SourceId) (cap : N) (ops : list BudgetOp) :
  let '(b, rs) := budget_run source cap ops in
  in_flight b = wrap64 (held_sum rs) ∧ ∀ l, stage_load l b = wrap64 (held_at l rs).
Proof.
  assert (accounts (budget_run source cap ops).1 (budget_run source cap ops).2) as [H1 H2].
  { unfold budget_run. induction ops as [|op ops IH] using rev_ind; [apply accounts_new|].
    rewrite foldl_app. simpl. destruct (foldl _ _ ops) as [b rs]. by apply budget_exec_accounts. }
  by destruct (budget_run source cap ops).
Qed.

(** The admission gates.  [reserve] and [try_reserve] grant a positive
    request exactly when it fits under the capacity; a granted request is added
    to the bytes in flight, which stay within the capacity, and a refused one
    leaves the budget as it was. *)
Theorem reserve_gate (b : Budget) (bytes : N) (Hcap : capacity b < u64_max) (Hpos : 0 < bytes) :
  let granted := (Some (fresh_reservation bytes), set_in_flight (in_flight b + bytes) b) in
  if in_flight b + bytes <=? capacity b
  then reserve bytes b = granted ∧ try_reserve bytes b = granted ∧
       in_flight granted.2 ≤ capacity granted.2
  else reserve bytes b = (None, b) ∧ try_reserve bytes b = (None, b).
Proof.
  unfold reserve, try_reserve, checked_add64, sat_add64. simpl.
  destruct (N.eqb_spec bytes 0); [lia|].
  destruct (N.leb_spec (in_flight b + bytes) (capacity b)) as [Hfit|Hno].
  - rewrite (proj2 (N.leb_le (N.min _ _) _)) by lia.
    rewrite (proj2 (N.leb_le (in_flight b + bytes) u64_max)) by lia.
    rewrite (proj2 (N.ltb_ge _ _)) by done.
    unfold wrapping_add64. rewrite wrap64_small by (unfold is_u64; lia). done.
  - rewrite (proj2 (N.leb_gt (N.min _ _) _)) by lia. split; [done|].
    destruct (in_flight b + bytes <=? u64_max); [|done].
    by rewrite (proj2 (N.ltb_lt _ _)).
Qed.

(** ** [reserve] under interleaving

    One atomic access is one step.  [c_held] lists what the live reservations
    of all tasks hold, [c_epoch] counts the calls to [notify_waiters], and
    [c_owed] counts releases that have subtracted their bytes and not notified
    yet: [fetch_sub] and [notify_waiters] are two steps of the releasing
    task. *)

(** Where a call of [reserve(bytes)] stands.  [Subscribed e]: its [Notified]
    was enabled in epoch [e]; it is woken when the epoch moves on. *)
Inductive WaiterPc :=
| WStart
| WSubscribed (epoch : N)
| WLoaded (epoch current : N)
| WParked (epoch : N).

Record ConcState := {
  c_capacity : N;
  c_in_flight : N;
  c_epoch : N;
  c_owed : nat;
  c_held : list N;
  c_waiters : gmap nat (N * WaiterPc);
}.

Definition conc_new (cap : N) : ConcState :=
  {| c_capacity := cap; c_in_flight := 0; c_epoch := 0; c_owed := 0; c_held := [];
     c_waiters := ∅ |}.

Definition set_waiter (t : nat) (w : option (N * WaiterPc)) (s : ConcState) : ConcState :=
  {| c_capacity := c_capacity s; c_in_flight := c_in_flight s; c_epoch := c_epoch s;
     c_owed := c_owed s; c_held := c_held s;
     c_waiters := partial_alter (λ _, w) t (c_waiters s) |}.

(** The bytes in flight and the reservations change together with the debt of
    notifications. *)
Definition set_bytes (n : N) (held : list N) (owed : nat) (s : ConcState) : ConcState :=
  {| c_capacity := c_capacity s; c_in_flight := n; c_epoch := c_epoch s;
     c_owed := owed; c_held := held; c_waiters := c_waiters s |}.

Definition notify_waiters (owed : nat) (s : ConcState) : ConcState :=
  {| c_capacity := c_capacity s; c_in_flight := c_in_flight s; c_epoch := c_epoch s + 1;
     c_owed := owed; c_held := c_held s; c_waiters := c_waiters s |}.

(** The check of the [reserve] loop and its exchange. *)
Definition cas_wins (s : ConcState) (bytes current : N) : bool :=
  (sat_add64 current bytes <=? c_capacity s) && (c_in_flight s =? current).

Inductive conc_step : ConcState → ConcState → Prop :=
(* a task calls [reserve] with a positive size *)
| step_call s t bytes :
    c_waiters s !! t = None → 0 < bytes →
    conc_step s (set_waiter t (Some (bytes, WStart)) s)
(* the iterations of its loop *)
| step_subscribe s t bytes :
    c_waiters s !! t = Some (bytes, WStart) →
    conc_step s (set_waiter t (Some (bytes, WSubscribed (c_epoch s))) s)
| step_load s t bytes e :
    c_waiters s !! t = Some (bytes, WSubscribed e) →
    conc_step s (set_waiter t (Some (bytes, WLoaded e (c_in_flight s))) s)
| step_claim s t bytes e current :
    c_waiters s !! t = Some (bytes, WLoaded e current) →
    cas_wins s bytes current = true →
    conc_step s (set_bytes (wrapping_add64 current bytes) (bytes :: c_held s) (c_owed s)
                   (set_waiter t None s))
| step_park s t bytes e current :
    c_waiters s !! t = Some (bytes, WLoaded e current) →
    cas_wins s bytes current = false →
    conc_step s (set_waiter t (Some (bytes, WParked e)) s)
| step_wake s t bytes e :
    c_waiters s !! t = Some (bytes, WParked e) → c_epoch s ≠ e →
    conc_step s (set_waiter t (Some (bytes, WStart)) s)
(* its future is dropped before it resolves *)
| step_cancel s t w :
    c_waiters s !! t = Some w →
    conc_step s (set_waiter t None s)
(* a [try_reserve] that wins *)
| step_try s bytes :
    0 < bytes → c_in_flight s + bytes ≤ c_capacity s → c_in_flight s + bytes ≤ u64_max →
    conc_step s (set_bytes (c_in_flight s + bytes) (bytes :: c_held s) (c_owed s) s)
(* reservations that grow, shrink and drop *)
| step_grow s i h actual :
    c_held s !! i = Some h → h < actual →
    conc_step s (set_bytes (wrapping_add64 (c_in_flight s) (actual - h))
                   (actual :: delete i (c_held s)) (c_owed s) s)
| step_shrink s i h actual :
    c_held s !! i = Some h → actual < h →
    conc_step s (set_bytes (wrapping_sub64 (c_in_flight s) (h - actual))
                   (actual :: delete i (c_held s)) (S (c_owed s)) s)
| step_drop s i h :
    c_held s !! i = Some h → 0 < h →
    conc_step s (set_bytes (wrapping_sub64 (c_in_flight s) h) (delete i (c_held s))
                   (S (c_owed s)) s)
| step_notify s owed :
    c_owed s = S owed → conc_step s (notify_waiters owed s).

(** What a waiter relies on.  A waiter that was notified, or for which a
    notification is still owed, will look again.  Otherwise no byte was
    released since it subscribed: what it loaded is a sum the reservations
    have only grown from, and once parked some reservation holds bytes. *)
Definition waiter_ok (s : ConcState) (w : N * WaiterPc) : Prop :=
  0 < w.1 ∧
  match w.2 with
  | WStart => True
  | WSubscribed e => e ≤ c_epoch s
  | WLoaded e current =>
      e ≤ c_epoch s ∧
      (e < c_epoch s ∨ (0 < c_owed s)%nat ∨
       ∃ sum0, current = wrap64 sum0 ∧ sum0 ≤ sum_N (c_held s))
  | WParked e =>
      e ≤ c_epoch s ∧
      (w.1 ≤ c_capacity s →
       e < c_epoch s ∨ (0 < c_owed s)%nat ∨ 0 < sum_N (c_held s))
  end.

Record conc_inv (s : ConcState) : Prop := {
  ci_bytes : c_in_flight s = wrap64 (sum_N (c_held s));
  ci_waiters : map_Forall (λ _, waiter_ok s) (c_waiters s);
}.

(** A step that leaves the waiters alone, moves the epoch forward only, and
    lowers the sum of bytes only while owing a notification, keeps what the
    waiters rely on. *)
Lemma waiter_ok_mono s s' w :
  c_capacity s' = c_capacity s → c_epoch s ≤ c_epoch s' →
  (c_epoch s < c_epoch s' ∨ (0 < c_owed s')%nat ∨
   ((c_owed s ≤ c_owed s')%nat ∧ sum_N (c_held s) ≤ sum_N (c_held s'))) →
  waiter_ok s w → waiter_ok s' w.
Proof.
  intros Hcap He Hcase [Hpos Hw]. split; [done|].
  destruct w as [bytes [|e|e cur|e]]; simpl in *; [done|lia|..].
  - destruct Hw as [Hle [H|[H|(s0 & -> & H)]]]; (split; [lia|]).
    + left; lia.
    + destruct Hcase as [|[|[]]]; [left; lia | right; left; lia..].
    + destruct Hcase as [|[|[]]]; [left; lia | right; left; lia |].
      right; right. exists s0. split; [done|lia].
  - destruct Hw as [Hle Hw]. split; [lia|]. intros Hc. rewrite Hcap in Hc.
    destruct (Hw Hc) as [|[|]], Hcase as [|[|[]]]; lia.
Qed.

Lemma conc_inv_waiter s t w :
  conc_inv s → (∀ x, w = Some x → waiter_ok s x) → conc_inv (set_waiter t w s).
Proof.
  intros [Hb Hw] Hx. split; [done|].
  intros t' x. unfold set_waiter; cbn [c_waiters]. intros Hl.
  assert (waiter_ok s x → waiter_ok (set_waiter t w s) x) as Hsame.
  { apply waiter_ok_mono; simpl; [done|lia|]. right; right. split; [done|lia]. }
  apply Hsame. destruct (decide (t = t')) as [<-|Hne].
  - rewrite lookup_partial_alter_eq in Hl. by apply Hx.
  - rewrite lookup_partial_alter_ne in Hl by done. by eapply Hw.
Qed.

Lemma conc_inv_bytes s held owed :
  conc_inv s →
  ((0 < owed)%nat ∨ ((c_owed s ≤ owed)%nat ∧ sum_N (c_held s) ≤ sum_N held)) →
  conc_inv (set_bytes (wrap64 (sum_N held)) held owed s).
Proof.
  intros [Hb Hw] Hcase. split; [done|].
  eapply map_Forall_impl; [exact Hw|]. intros t w. simpl.
  apply waiter_ok_mono; simpl; [done|lia|]. destruct Hcase as [?|[]]; auto.
Qed.

Lemma sum_delete i h l : l !! i = Some h → sum_N l = h + sum_N (delete i l).
Proof. intros Hi. exact (sum_N_permutation _ _ (delete_Permutation _ _ _ Hi)). Qed.

Lemma set_bytes_eq s n held owed :
  n = wrap64 (sum_N held) → set_bytes n held owed s = set_bytes (wrap64 (sum_N held)) held owed s.
Proof. by intros ->. Qed.

Lemma conc_inv_step s s' : conc_inv s → conc_step s s' → conc_inv s'.
Proof.
  intros Hinv Hstep. destruct Hstep.
  - apply conc_inv_waiter; [done|]. intros x [= <-]. by split.
  - apply conc_inv_waiter; [done|]. intros x [= <-].
    destruct (ci_waiters _ Hinv _ _ H) as [Hp _]. split; [done | simpl; lia].
  - apply conc_inv_waiter; [done|]. intros x [= <-].
    destruct (ci_waiters _ Hinv _ _ H) as [Hp He]. split; [done|]. simpl in *.
    split; [done|]. right; right. exists (sum_N (c_held s)). by rewrite (ci_bytes _ Hinv).
  - destruct (ci_waiters _ Hinv _ _ H) as [Hp [He Hw]]. apply andb_prop in H0 as [_ Heq%N.eqb_eq].
    rewrite set_bytes_eq.
    + apply conc_inv_bytes; [by apply conc_inv_waiter|]. right. simpl. lia.
    + rewrite <- Heq, (ci_bytes _ Hinv), wrapping_add64_spec. simpl. f_equal. lia.
  - apply conc_inv_waiter; [done|]. intros x [= <-].
    destruct (ci_waiters _ Hinv _ _ H) as [Hp [He Hw]]. split; [done|]. simpl in *.
    split; [done|]. intros Hcap. destruct Hw as [|[|(s0 & -> & Hs0)]]; [by left | by right; left |].
    right; right. apply andb_false_iff in H0 as [Hfull%N.leb_gt|Hcas%N.eqb_neq].
    + assert (0 < wrap64 s0) by (unfold sat_add64 in Hfull; lia).
      assert (s0 ≠ 0) by (intros ->; by cbv in H0). lia.
    + rewrite (ci_bytes _ Hinv) in Hcas.
      assert (s0 ≠ sum_N (c_held s)) by (intros ->; done). lia.
  - apply conc_inv_waiter; [done|]. intros x [= <-].
    destruct (ci_waiters _ Hinv _ _ H) as [Hp _]. by split.
  - by apply conc_inv_waiter.
  - rewrite set_bytes_eq.
    + apply conc_inv_bytes; [done|]. right. simpl. lia.
    + rewrite (ci_bytes _ Hinv) in *. simpl. rewrite (N.add_comm bytes), <- wrapping_add64_spec.
      symmetry. by apply wrap64_small.
  - pose proof (sum_delete _ _ _ H) as Hsum. rewrite set_bytes_eq.
    + apply conc_inv_bytes; [done|]. right. simpl. lia.
    + rewrite (ci_bytes _ Hinv), wrapping_add64_spec. simpl. f_equal. lia.
  - pose proof (sum_delete _ _ _ H) as Hsum. rewrite set_bytes_eq.
    + apply conc_inv_bytes; [done|]. left. lia.
    + rewrite (ci_bytes _ Hinv), wrapping_sub64_spec by lia. simpl. f_equal. lia.
  - pose proof (sum_delete _ _ _ H) as Hsum. rewrite set_bytes_eq.
    + apply conc_inv_bytes; [done|]. left. lia.
    + rewrite (ci_bytes _ Hinv), wrapping_sub64_spec by lia. f_equal. lia.
  - split; [apply Hinv|]. eapply map_Forall_impl; [apply Hinv|]. intros t w.
    apply waiter_ok_mono; simpl; [done|lia|]. left. lia.
Qed.

Lemma conc_inv_reachable cap s : rtc conc_step (conc_new cap) s → conc_inv s.
Proof.
  intros Hr. assert (conc_inv (conc_new cap)) as H0 by (split; [done | apply map_Forall_empty]).
  revert H0. induction Hr; [done|]. intros. apply IHHr. by eapply conc_inv_step.
Qed.

Lemma conc_capacity cap s : rtc conc_step (conc_new cap) s → c_capacity s = cap.
Proof.
  intros Hr. assert (c_capacity (conc_new cap) = cap) as H0 by done. revert H0.
  induction Hr as [|x y z Hxy Hyz IH]; [done|]. intros Hx. apply IH. rewrite <- Hx. by destruct Hxy.
Qed.


(** What a parked [reserve] waits for is sufficient.  A woken waiter that
    runs its next iteration without interference claims its bytes as soon as
    they fit, and the claim keeps the budget within its capacity. *)
Theorem reserve_claims_when_it_fits (s : ConcState) (t : nat) (bytes epoch : N)
    (Hparked : c_waiters s !! t = Some (bytes, WParked epoch))
    (Hwoken : c_epoch s ≠ epoch)
    (Hfits : c_in_flight s + bytes ≤ c_capacity s) (Hcap : c_capacity s ≤ u64_max) :
  ∃ s', rtc conc_step s s' ∧ c_waiters s' !! t = None ∧
        c_held s' = bytes :: c_held s ∧ c_in_flight s' = c_in_flight s + bytes ∧
        c_in_flight s' ≤ c_capacity s'.
Proof.
  set (s1 := set_waiter t (Some (bytes, WStart)) s).
  set (s2 := set_waiter t (Some (bytes, WSubscribed (c_epoch s1))) s1).
  set (s3 := set_waiter t (Some (bytes, WLoaded (c_epoch s1) (c_in_flight s2))) s2).
  assert (∀ w x, c_waiters (set_waiter t (Some w) x) !! t = Some w) as Hl
    by (intros; apply lookup_partial_alter_eq).
  eexists. split.
  - eapply rtc_l; [by apply (step_wake s t bytes epoch)|].
    eapply rtc_l; [apply step_subscribe, Hl|].
    eapply rtc_l; [apply step_load, Hl|].
    eapply rtc_l; [eapply step_claim; [apply Hl|]|apply rtc_refl].
    unfold cas_wins; simpl. apply andb_true_intro. split; [|apply N.eqb_refl].
    apply N.leb_le. rewrite sat_add64_exact; [done|lia].
  - simpl. rewrite lookup_partial_alter_eq. unfold wrapping_add64.
    rewrite wrap64_small by (unfold is_u64; lia). done.
Qed.

(** ** The properties at work *)

Lemma reserve_gate_witness :
  in_flight (reserve 40 (Budget_new (mkSourceId "s") 100)).2 = 40 ∧
  try_reserve 101 (Budget_new (mkSourceId "s") 100) = (None, Budget_new (mkSourceId "s") 100).
Proof.
  split.
  - assert (capacity (Budget_new (mkSourceId "s") 100) < u64_max) as Hc by done.
    pose proof (reserve_gate (Budget_new (mkSourceId "s") 100) 40 Hc eq_refl) as H.
    simpl in H. destruct H as [-> _]. done.
  - apply (reserve_gate (Budget_new (mkSourceId "s") 100) 101); done.
Defined.

(** Two calls: the first takes the whole budget of 10, the second parks. *)
Definition demo_taken : ConcState :=
  {| c_capacity := 10; c_in_flight := 10; c_epoch := 0; c_owed := 0; c_held := [10];
     c_waiters := ∅ |}.
Definition demo_parked : ConcState := set_waiter 1 (Some (5, WParked 0)) demo_taken.

Lemma set_waiter_twice t w w' s : set_waiter t w (set_waiter t w' s) = set_waiter t w s.
Proof. unfold set_waiter; simpl. f_equal. apply partial_alter_partial_alter_eq. Qed.

(** One undisturbed iteration of the loop up to the load. *)
Lemma conc_load_run s t bytes :
  c_waiters s !! t = None → 0 < bytes →
  rtc conc_step s (set_waiter t (Some (bytes, WLoaded (c_epoch s) (c_in_flight s))) s).
Proof.
  intros Hnone Hpos.
  assert (∀ w x, c_waiters (set_waiter t (Some w) x) !! t = Some w) as Hl
    by (intros; apply lookup_partial_alter_eq).
  eapply rtc_l; [by apply (step_call s t bytes)|].
  eapply rtc_l; [apply step_subscribe, Hl|].
  eapply rtc_l; [apply step_load, Hl|].
  rewrite !set_waiter_twice. apply rtc_refl.
Qed.

Lemma demo_parked_reachable : rtc conc_step (conc_new 10) demo_parked.
Proof.
  etrans; [by apply (conc_load_run _ 0 10)|].
  eapply rtc_l; [eapply (step_claim _ 0 10 0 0); by vm_compute|].
  rewrite set_waiter_twice.
  change (set_bytes _ _ _ _) with demo_taken.
  etrans; [by apply (conc_load_run _ 1 5)|].
  eapply rtc_l; [eapply (step_park _ 1 5 0 10); by vm_compute|].
  rewrite set_waiter_twice. apply rtc_refl.
Qed.


(** The holder drops its ten bytes and notifies: the waiter claims its five. *)
Definition demo_released : ConcState :=
  {| c_capacity := 10; c_in_flight := 0; c_epoch := 1; c_owed := 0; c_held := [];
     c_waiters := c_waiters demo_parked |}.

Lemma reserve_claims_when_it_fits_witness :
  ∃ s', rtc conc_step demo_released s' ∧ c_waiters s' !! 1%nat = None ∧
        c_held s' = [5] ∧ c_in_flight s' = 5 ∧ c_in_flight s' ≤ c_capacity s'.
Proof.
  apply (reserve_claims_when_it_fits demo_released 1 5 0); by vm_compute.
Defined.

(** The loop parks after a lost exchange without looking at the capacity
    again: with another task growing its reservation between the load and the
    exchange, a call that fits the budget parks, un-notified, although nothing
    prevents its claim. *)
Theorem reserve_parks_after_lost_exchange :
  ∃ s, rtc conc_step (conc_new 100) s ∧ c_waiters s !! 1%nat = Some (5, WParked 0) ∧
       c_epoch s = 0 ∧ c_owed s = 0%nat ∧ c_in_flight s + 5 ≤ c_capacity s.
Proof.
  eexists. split.
  - eapply rtc_l; [by apply (step_try _ 10)|].
    etrans; [by apply (conc_load_run _ 1 5)|].
    eapply rtc_l; [eapply (step_grow _ 0 10 20); by vm_compute|].
    eapply rtc_l; [eapply (step_park _ 1 5 0 10); by vm_compute|].
    apply rtc_refl.
  - repeat split; by vm_compute.
Qed.
