(* ===== verification/Source.v ===== *)
(** * The buffer source
    (runtime/opendata-ingest-runtime/src/source.rs)

    [split_into_raw_entries] assigns each record of a consumed batch the
    metadata range that covers it, by a scan in lockstep; [BufferSource] wraps
    the buffer crate's consumer, whose code is not part of the repository: it
    is the class [Consumer] here, with its documented behaviour in
    [ConsumerLaws].  Every method is a computation over the source and the
    world [W] (object store, manifest) that the consumer acts on. *)

From Stdlib Require Import NArith Lia Sorting.Sorted.
From S2P Require Import Prelude.
From S2P Require Import Types.
Local Open Scope N_scope.

(** ** The buffer crate *)

(** [buffer::BatchDescriptor] and [buffer::ConsumedBatch], with the fields the
    source reads. *)
Record BatchDescriptor := {
  bd_sequence : N;
  bd_location : string;
  bd_metadata : list BufferMetadata;
}.

Record ConsumedBatch := {
  cb_entries : list Bytes;
  cb_sequence : N;
  cb_location : string;
  cb_metadata : list BufferMetadata;
}.

(** [buffer::Consumer] and [buffer::ConsumerFetchHandle]. *)
Class Consumer (C F W : Type) := {
  consumer_next_descriptors : nat → M (C * W) BoxError (list BatchDescriptor);
  consumer_ack_through : N → M (C * W) BoxError unit;
  consumer_len : C → nat;
  consumer_fetch_handle : C → F;
  handle_fetch : F → BatchDescriptor → M W BoxError ConsumedBatch;
}.

(** What the runtime relies on: [ack_through] is durable when it returns [Ok]
    and changes nothing when it fails; [next_descriptors] returns at most as
    many descriptors as asked for, continuing the sequence it handed out, and
    does not touch the durable cursor. *)
Class ConsumerLaws (C F W : Type) `{Consumer C F W} := {
  durable_acked : C * W → option N;
  read_cursor : C * W → option N;
  ack_ok s s' n : consumer_ack_through n s = (s', Ok tt) → durable_acked s' = Some n;
  ack_err s s' n e : consumer_ack_through n s = (s', Err e) → durable_acked s' = durable_acked s;
  ack_cursor s n : read_cursor (consumer_ack_through n s).1 = read_cursor s;
  next_durable s k : durable_acked (consumer_next_descriptors k s).1 = durable_acked s;
  next_at_most s s' k ds :
    consumer_next_descriptors k s = (s', Ok ds) → (length ds ≤ k)%nat;
  next_contiguous s s' k ds :
    consumer_next_descriptors k s = (s', Ok ds) →
    ∀ i d, ds !! i = Some d →
      (∀ c, read_cursor s = Some c → bd_sequence d = c + N.of_nat i) ∧
      read_cursor s' = Some (bd_sequence d + N.of_nat (length ds - i));
  next_empty s s' k :
    consumer_next_descriptors k s = (s', Ok []) → read_cursor s' = read_cursor s;
  cursor_u64 s c : read_cursor s = Some c → is_u64 c;
  fetch_reads c w h d :
    durable_acked (c, (handle_fetch h d w).1) = durable_acked (c, w) ∧
    read_cursor (c, (handle_fetch h d w).1) = read_cursor (c, w);
}.

(** ** [split_into_raw_entries] *)

(** The inner [while]: it stops at the last range, so the number of ranges is
    enough fuel ([advance_range_stops]). *)
Fixpoint advance_range (fuel : nat) (metadata : list BufferMetadata) (entry_index : N)
    (range_idx : nat) : nat :=
  match fuel with
  | O => range_idx
  | S fuel =>
      match metadata !! (range_idx + 1)%nat with
      | Some m =>
          if start_index m <=? entry_index
          then advance_range fuel metadata entry_index (range_idx + 1)
          else range_idx
      | None => range_idx
      end
  end.

Definition range_fields (m : option BufferMetadata) : Bytes * Z :=
  match m with
  | Some m => (bm_payload m, bm_ingestion_time_ms m)
  | None => ([], 0%Z)
  end.

Fixpoint split_loop (metadata : list BufferMetadata) (i : nat) (range_idx : nat)
    (entries : list Bytes) : list SourceEntry :=
  match entries with
  | [] => []
  | payload :: rest =>
      let ix := wrap32 (N.of_nat i) in
      let range_idx := advance_range (length metadata) metadata ix range_idx in
      let '(meta, ts) := range_fields (metadata !! range_idx) in
      {| entry_index := ix; raw_bytes := payload; raw_metadata := meta;
         ingestion_time_ms := ts |} :: split_loop metadata (S i) range_idx rest
  end.

Definition split_into_raw_entries (batch : ConsumedBatch) (source : SourceId)
    (manifest_path : string) : SourceBatch := {|
  sb_source := source;
  sb_sequence := cb_sequence batch;
  sb_manifest_path := manifest_path;
  sb_data_object_path := cb_location batch;
  sb_entries := split_loop (cb_metadata batch) 0 0 (cb_entries batch);
|}.

(** ** [BufferSource] *)

Section source.
Context {C F W : Type} `{Consumer C F W}.

Record BufferSourceFetchHandle := {
  fh_inner : F;
  fh_source : SourceId;
  fh_manifest_path : string;
}.

Definition to_buffer_descriptor (d : SourceBatchDescriptor) : BatchDescriptor :=
  {| bd_sequence := sbd_sequence d; bd_location := sbd_location d;
     bd_metadata := sbd_buffer_metadata d |}.

(** [BufferSourceFetchHandle::fetch]. *)
Definition fetch (h : BufferSourceFetchHandle) (d : SourceBatchDescriptor)
    : M W RuntimeError SourceBatch := λ w,
  match handle_fetch (fh_inner h) (to_buffer_descriptor d) w with
  | (w', Ok consumed) => (w', Ok (split_into_raw_entries consumed (fh_source h) (fh_manifest_path h)))
  | (w', Err e) => (w', Err (ESource e))
  end.

Record BufferSource := {
  bs_id : SourceId;
  consumer : C;
  bs_manifest_path : string;
  fetch_handle_inner : F;
  last_acked : option N;
  pending_durable_ack : option N;
}.

Definition BufferSource_new (consumer : C) (id : SourceId) (manifest_path : string)
    (last_acked_sequence : option N) : BufferSource := {|
  bs_id := id;
  consumer := consumer;
  bs_manifest_path := manifest_path;
  fetch_handle_inner := consumer_fetch_handle consumer;
  last_acked := last_acked_sequence;
  pending_durable_ack := None;
|}.

Definition last_acked_sequence (s : BufferSource) : option N := last_acked s.

(** [BufferSource::pending_count]. *)
Definition source_pending_count (s : BufferSource) : nat := consumer_len (consumer s).

Definition set_consumer (c : C) (s : BufferSource) : BufferSource := {|
  bs_id := bs_id s; consumer := c; bs_manifest_path := bs_manifest_path s;
  fetch_handle_inner := fetch_handle_inner s; last_acked := last_acked s;
  pending_durable_ack := pending_durable_ack s |}.
Definition set_pending_ack (p : option N) (s : BufferSource) : BufferSource := {|
  bs_id := bs_id s; consumer := consumer s; bs_manifest_path := bs_manifest_path s;
  fetch_handle_inner := fetch_handle_inner s; last_acked := last_acked s;
  pending_durable_ack := p |}.
Definition set_last_acked (p : option N) (s : BufferSource) : BufferSource := {|
  bs_id := bs_id s; consumer := consumer s; bs_manifest_path := bs_manifest_path s;
  fetch_handle_inner := fetch_handle_inner s; last_acked := p;
  pending_durable_ack := pending_durable_ack s |}.

Definition fetch_handle (s : BufferSource) : BufferSourceFetchHandle := {|
  fh_inner := fetch_handle_inner s; fh_source := bs_id s; fh_manifest_path := bs_manifest_path s |}.

(** A call on the consumer inside the source. *)
Definition on_consumer {A} (m : M (C * W) BoxError A) : M (BufferSource * W) BoxError A :=
  zoom (λ s, (consumer s.1, s.2)) (λ cw s, (set_consumer cw.1 s.1, cw.2)) m.

Definition to_source_descriptor (id : SourceId) (d : BatchDescriptor) : SourceBatchDescriptor := {|
  sbd_source := id;
  sbd_sequence := bd_sequence d;
  sbd_location := bd_location d;
  sbd_per_range_metadata :=
    (λ m, {| srm_raw_metadata := bm_payload m; srm_ingestion_time_ms := bm_ingestion_time_ms m |})
      <$> bd_metadata d;
  sbd_buffer_metadata := bd_metadata d;
|}.

Definition next_descriptors (max : nat) (_budget : SourceBudget)
    : M (BufferSource * W) RuntimeError (list SourceBatchDescriptor) := λ s,
  match on_consumer (consumer_next_descriptors max) s with
  | (s', Ok raw) => (s', Ok (to_source_descriptor (bs_id s.1) <$> raw))
  | (s', Err e) => (s', Err (ESource e))
  end.

Definition ack_through (sequence : N) : M (BufferSource * W) RuntimeError unit :=
  modify (λ s, (set_last_acked (Some sequence) (set_pending_ack (Some sequence) s.1), s.2)).

Definition flush_acks : M (BufferSource * W) RuntimeError unit := λ s,
  match pending_durable_ack s.1 with
  | Some seq =>
      (* [take]: the pointer is cleared before the call *)
      match on_consumer (consumer_ack_through seq) (set_pending_ack None s.1, s.2) with
      | (s', Ok _) => (s', Ok tt)
      | (s', Err e) => ((set_pending_ack (Some seq) s'.1, s'.2), Err (ESource e))
      end
  | None => (s, Ok tt)
  end.
End source.

Arguments BufferSource : clear implicits.
Arguments BufferSourceFetchHandle : clear implicits.

(** ** The lockstep scan finds the covering range *)

(** The documented meaning: the entry at [i] belongs to the range with the
    largest [start_index <= i], that is the last such range of a list in
    order.  An entry before every range gets the first one. *)
Definition covers (i : N) (m : BufferMetadata) : bool := start_index m <=? i.
Definition covering_range (metadata : list BufferMetadata) (i : N) : option BufferMetadata :=
  match last (List.filter (covers i) metadata) with
  | Some m => Some m
  | None => head metadata
  end.

Definition in_order (metadata : list BufferMetadata) : Prop :=
  StronglySorted (λ a b, start_index a ≤ start_index b) metadata.

(** The number of ranges that start at or below [i]. *)
Definition covered_count (metadata : list BufferMetadata) (i : N) : nat :=
  length (List.filter (covers i) metadata).

Lemma filter_none i md :
  Forall (λ m, covers i m = false) md → List.filter (covers i) md = [].
Proof. induction 1 as [|m md Hm _ IH]; simpl; [done|]. by rewrite Hm. Qed.

(** In an ordered list the covering ranges are a prefix. *)
Lemma filter_prefix md i :
  in_order md → List.filter (covers i) md = take (covered_count md i) md.
Proof.
  unfold covered_count. induction 1 as [|m md Hs IH Hf]; simpl; [done|].
  destruct (covers i m) eqn:Hm; simpl; [by rewrite <- IH|].
  rewrite filter_none; [done|]. eapply Forall_impl; [exact Hf|]. intros m2 Hle. simpl in Hle.
  unfold covers in *. apply N.leb_gt in Hm. apply N.leb_gt. lia.
Qed.

Lemma covered_count_spec md i j m :
  in_order md → md !! j = Some m → covers i m = true ↔ (j < covered_count md i)%nat.
Proof.
  unfold covered_count. intros Hs. revert j. induction Hs as [|m0 md Hs IH Hf]; intros j; [done|].
  simpl. destruct (covers i m0) eqn:Hm0; simpl.
  - destruct j as [|j]; simpl; [intros [= ->]; split; [lia|done]|].
    intros Hj. rewrite (IH _ Hj). lia.
  - assert (Forall (λ m, covers i m = false) (m0 :: md)) as Hall.
    { constructor; [done|]. eapply Forall_impl; [exact Hf|]. intros m2 Hle. simpl in Hle.
      unfold covers in *. apply N.leb_gt in Hm0. apply N.leb_gt. lia. }
    rewrite filter_none by (by inversion Hall). simpl. intros Hj.
    rewrite (proj1 (Forall_lookup _ _) Hall _ _ Hj). split; [done|lia].
Qed.

Lemma covered_count_le md i : (covered_count md i ≤ length md)%nat.
Proof. unfold covered_count. induction md as [|m md IH]; simpl; [done|]. destruct (covers i m); simpl; lia. Qed.

Lemma covered_count_mono md i i' :
  i ≤ i' → (covered_count md i ≤ covered_count md i')%nat.
Proof.
  intros Hi. unfold covered_count. induction md as [|m md IH]; simpl; [done|].
  assert (covers i m = true → covers i' m = true) as Hc.
  { unfold covers. rewrite !N.leb_le. lia. }
  destruct (covers i m); [rewrite Hc by done; simpl; lia|]. destruct (covers i' m); simpl; lia.
Qed.

(** The inner loop stops at the last covering range, whatever fuel is left
    over. *)
Lemma advance_range_stops fuel md i r :
  in_order md → (covered_count md i ≤ r + fuel + 1)%nat →
  advance_range fuel md i r = Nat.max r (covered_count md i - 1)%nat.
Proof.
  intros Hs. revert r. induction fuel as [|fuel IH]; intros r Hfuel; simpl; [lia|].
  pose proof (covered_count_le md i).
  destruct (md !! (r + 1)%nat) as [m|] eqn:Hm.
  - pose proof (covered_count_spec md i _ _ Hs Hm) as Hc. unfold covers in Hc.
    destruct (start_index m <=? i).
    + rewrite IH by lia. assert (r + 1 < covered_count md i)%nat by (by apply Hc). lia.
    + assert (¬ (r + 1 < covered_count md i)%nat) by (rewrite <- Hc; done). lia.
  - apply lookup_ge_None in Hm. lia.
Qed.

Lemma covering_range_lookup md i :
  in_order md → covering_range md i = md !! (covered_count md i - 1)%nat.
Proof.
  intros Hs. unfold covering_range. rewrite filter_prefix by done.
  pose proof (covered_count_le md i) as Hle. rewrite last_lookup, length_take_le by done.
  destruct (covered_count md i) as [|n]; [by destruct md|].
  replace (S n - 1)%nat with n by lia. simpl Nat.pred.
  rewrite lookup_take_lt by lia.
  destruct (md !! n) eqn:Hn; [done|]. apply lookup_ge_None in Hn. lia.
Qed.

Definition entry_of (md : list BufferMetadata) (i : nat) (payload : Bytes) : SourceEntry :=
  let '(meta, ts) := range_fields (covering_range md (N.of_nat i)) in
  {| entry_index := N.of_nat i; raw_bytes := payload; raw_metadata := meta;
     ingestion_time_ms := ts |}.

Lemma split_loop_spec md entries : in_order md → ∀ i r,
  N.of_nat (i + length entries) ≤ u32_max + 1 →
  (r ≤ covered_count md (N.of_nat i) - 1)%nat →
  split_loop md i r entries = imap (λ k payload, entry_of md (i + k) payload) entries.
Proof.
  intros Hs. induction entries as [|payload entries IH]; intros i r Hlen Hr; simpl; [done|].
  simpl in Hlen.
  assert (wrap32 (N.of_nat i) = N.of_nat i) as ->
    by (unfold wrap32, u32_max in *; apply N.mod_small; lia).
  rewrite advance_range_stops; [|done|pose proof (covered_count_le md (N.of_nat i)); lia].
  rewrite Nat.max_r by lia. rewrite <- covering_range_lookup by done.
  unfold entry_of at 1. rewrite Nat.add_0_r.
  destruct (range_fields (covering_range md (N.of_nat i))) as [meta ts].
  f_equal. rewrite (IH (S i)); [|lia|].
  - apply imap_ext. intros k x _. simpl. by rewrite Nat.add_succ_r.
  - pose proof (covered_count_mono md (N.of_nat i) (N.of_nat (S i))). lia.
Qed.

(** ** The ack protocol *)

Inductive AckOp := AckThrough (sequence : N) | FlushAcks.

Section acks.
Context {C F W : Type} `{ConsumerLaws C F W}.

Definition ack_exec (s : BufferSource C F * W) (op : AckOp) : BufferSource C F * W :=
  match op with
  | AckThrough n => (ack_through n s).1
  | FlushAcks => (flush_acks s).1
  end.

Definition ack_run (s : BufferSource C F * W) (ops : list AckOp) : BufferSource C F * W :=
  foldl ack_exec s ops.

Definition durable (s : BufferSource C F * W) : option N := durable_acked (consumer s.1, s.2).

(** The sequences passed to [ack_through]. *)
Definition acked_sequences (ops : list AckOp) : list N :=
  omap (λ op, match op with AckThrough n => Some n | FlushAcks => None end) ops.

(** The effect of a flush on every branch. *)
Lemma flush_acks_cases (s : BufferSource C F * W) :
  match pending_durable_ack s.1 with
  | None => flush_acks s = (s, Ok tt)
  | Some n =>
      (∃ s', flush_acks s = (s', Ok tt) ∧ durable s' = Some n ∧
             pending_durable_ack s'.1 = None ∧ last_acked s'.1 = last_acked s.1) ∨
      (∃ s' e, flush_acks s = (s', Err (ESource e)) ∧ durable s' = durable s ∧
               pending_durable_ack s'.1 = Some n ∧ last_acked s'.1 = last_acked s.1)
  end.
Proof.
  unfold flush_acks, on_consumer, zoom, durable. destruct (pending_durable_ack s.1) as [n|]; [|done].
  simpl. destruct (consumer_ack_through n (consumer s.1, s.2)) as [[c' w'] [[]|e]] eqn:Hack.
  - left. eexists. split; [done|]. simpl. by rewrite (ack_ok _ _ _ Hack).
  - right. eexists _, e. split; [done|]. simpl. by rewrite (ack_err _ _ _ _ Hack).
Qed.

(** What the pointers mean at any point of a run from [s0]. *)
Record ack_inv (s0 s : BufferSource C F * W) (ops : list AckOp) : Prop := {
  ai_pending : ∀ n, pending_durable_ack s.1 = Some n → last (acked_sequences ops) = Some n;
  ai_flushed : pending_durable_ack s.1 = None → acked_sequences ops ≠ [] → durable s = last_acked s.1;
  ai_last : last_acked s.1 =
    match last (acked_sequences ops) with Some n => Some n | None => last_acked s0.1 end;
  ai_durable : durable s = durable s0 ∨ ∃ n, n ∈ acked_sequences ops ∧ durable s = Some n;
}.

Lemma acked_snoc_ack ops n : acked_sequences (ops ++ [AckThrough n]) = acked_sequences ops ++ [n].
Proof. unfold acked_sequences. by rewrite omap_app. Qed.
Lemma acked_snoc_flush ops : acked_sequences (ops ++ [FlushAcks]) = acked_sequences ops.
Proof. unfold acked_sequences. rewrite omap_app. apply app_nil_r. Qed.

Lemma ack_inv_ack s0 s ops n : ack_inv s0 s ops → ack_inv s0 (ack_through n s).1 (ops ++ [AckThrough n]).
Proof.
  intros [_ _ _ Hdur]. split; rewrite acked_snoc_ack; simpl.
  - intros m [= <-]. by rewrite last_snoc.
  - done.
  - by rewrite last_snoc.
  - destruct Hdur as [Hd|(m & Hm & Hd)]; [by left|]. right. exists m.
    split; [apply elem_of_app; by left | done].
Qed.

Lemma ack_inv_flush s0 s ops : ack_inv s0 s ops → ack_inv s0 (flush_acks s).1 (ops ++ [FlushAcks]).
Proof.
  intros [Hpend Hfl Hlast Hdur]. pose proof (flush_acks_cases s) as Hf.
  destruct (pending_durable_ack s.1) as [n|] eqn:Hn.
  - specialize (Hpend n eq_refl). destruct Hf as [(s' & -> & Hd & Hp & Hl)|(s' & e & -> & Hd & Hp & Hl)];
      simpl; split; rewrite acked_snoc_flush, ?Hd, ?Hp, ?Hl; try done.
    + intros _ _. by rewrite Hlast, Hpend.
    + right. exists n. split; [by apply last_Some_elem_of | done].
    + by intros m [= <-].
  - rewrite Hf. simpl. split; rewrite acked_snoc_flush, ?Hn; done.
Qed.

Lemma ack_run_inv s0 ops : pending_durable_ack s0.1 = None → ack_inv s0 (ack_run s0 ops) ops.
Proof.
  intros Hp. induction ops as [|op ops IH] using rev_ind.
  { split; unfold ack_run; simpl; rewrite ?Hp; [done..|by left]. }
  unfold ack_run. rewrite foldl_app. simpl. fold (ack_run s0 ops).
  destruct op; [by apply ack_inv_ack | by apply ack_inv_flush].
Qed.

(** C33: the ack protocol of [BufferSource].  After any interleaving of
    [ack_through] and [flush_acks], failed flushes included: the in-memory
    frontier is the last sequence acknowledged; the durable cursor is where it
    started or a sequence that was acknowledged, so it never runs ahead; and
    either it equals the in-memory frontier or that frontier is still armed
    for the next flush, so no acknowledgement is lost. *)
Theorem ack_flush_protocol (s0 : BufferSource C F * W) (ops : list AckOp)
    (Hfresh : pending_durable_ack s0.1 = None) :
  let s := ack_run s0 ops in
  let acked := acked_sequences ops in
  last_acked s.1 = (match last acked with Some n => Some n | None => last_acked s0.1 end) ∧
  (durable s = durable s0 ∨ ∃ n, n ∈ acked ∧ durable s = Some n) ∧
  (acked ≠ [] → durable s = last_acked s.1 ∨ pending_durable_ack s.1 = last_acked s.1) ∧
  (is_ok (flush_acks s).2 = true → acked ≠ [] → durable (flush_acks s).1 = last_acked s.1).
Proof.
  intros s acked. pose proof (ack_run_inv s0 ops Hfresh) as [Hpend Hfl Hlast Hdur].
  fold s in Hpend, Hfl, Hlast, Hdur. fold acked in Hpend, Hfl, Hlast, Hdur.
  pose proof (flush_acks_cases s) as Hf.
  destruct (pending_durable_ack s.1) as [n|] eqn:Hn; split_and!; try done.
  - intros _. right. by rewrite Hlast, (Hpend n).
  - intros Hok _. rewrite Hlast, (Hpend n eq_refl).
    destruct Hf as [(s' & -> & Hd & _)|(s' & e & Heq & _)]; [done | by rewrite Heq in Hok].
  - intros Hne. left. by apply Hfl.
  - intros _ Hne. rewrite Hf. by apply Hfl.
Qed.

(** ** Descriptors *)

(** Fetching is stateless.  A descriptor handed out by [next_descriptors]
    carries all a fetch worker needs: fetching it from any handle asks the
    buffer for exactly the descriptor the consumer returned, and the batch
    that comes back carries its sequence, location and every record. *)
Theorem fetch_round_trip (h : BufferSourceFetchHandle F) (id : SourceId) (d : BatchDescriptor) (w : W) :
  fetch h (to_source_descriptor id d) w =
  match handle_fetch (fh_inner h) d w with
  | (w', Ok consumed) =>
      (w', Ok (split_into_raw_entries consumed (fh_source h) (fh_manifest_path h)))
  | (w', Err e) => (w', Err (ESource e))
  end.
Proof. unfold fetch, to_buffer_descriptor, to_source_descriptor; simpl. by destruct d. Qed.

(** What [next_descriptors] keeps of the consumer's answer. *)
Lemma next_descriptors_run (s : BufferSource C F * W) max budget :
  match next_descriptors max budget s with
  | (s', Ok ds) =>
      ∃ cw raw, consumer_next_descriptors max (consumer s.1, s.2) = (cw, Ok raw) ∧
        s' = (set_consumer cw.1 s.1, cw.2) ∧ ds = to_source_descriptor (bs_id s.1) <$> raw
  | (s', Err e) =>
      ∃ cw b, consumer_next_descriptors max (consumer s.1, s.2) = (cw, Err b) ∧
        s' = (set_consumer cw.1 s.1, cw.2) ∧ e = ESource b
  end.
Proof.
  unfold next_descriptors, on_consumer, zoom.
  destruct (consumer_next_descriptors max (consumer s.1, s.2)) as [cw [raw|b]]; simpl; eauto.
Qed.

(** The cursor of the source's consumer. *)
Definition source_cursor (s : BufferSource C F * W) : option N := read_cursor (consumer s.1, s.2).

(**  [next_descriptors] hands out at most [max] descriptors of this source,
    with consecutive sequences that continue the ones handed out before, and
    leaves the ack pointers and the durable cursor alone. *)
Theorem next_descriptors_contiguous (s s' : BufferSource C F * W) (max : nat) (budget : SourceBudget)
    (ds : list SourceBatchDescriptor)
    (Hrun : next_descriptors max budget s = (s', Ok ds)) :
  (length ds ≤ max)%nat ∧ durable s' = durable s ∧
  pending_durable_ack s'.1 = pending_durable_ack s.1 ∧ last_acked s'.1 = last_acked s.1 ∧
  (∀ i d, ds !! i = Some d →
     sbd_source d = bs_id s.1 ∧
     (∀ c, source_cursor s = Some c → sbd_sequence d = c + N.of_nat i) ∧
     source_cursor s' = Some (sbd_sequence d + N.of_nat (length ds - i))).
Proof.
  pose proof (next_descriptors_run s max budget) as Hspec. rewrite Hrun in Hspec.
  destruct Hspec as (cw & raw & Hraw & -> & ->).
  unfold durable, source_cursor; simpl. destruct cw as [c' w'] eqn:Hcw; simpl.
  split_and!; try done.
  - rewrite length_fmap. by eapply next_at_most.
  - pose proof (next_durable (consumer s.1, s.2) max) as Hd. by rewrite Hraw in Hd.
  - intros i d. rewrite list_lookup_fmap, length_fmap.
    destruct (raw !! i) as [d0|] eqn:Hi; [|done]. intros [= <-]. split; [done|]. simpl.
    exact (next_contiguous _ _ _ _ Hraw _ _ Hi).
Qed.
End acks.


(** ** A consumer over an in-memory log

    The instance the properties are run on: a list of data objects, a read
    cursor, a durable cursor and a number of acknowledgements that will
    fail. *)

Record LogWorld := {
  lw_batches : list (list Bytes * list BufferMetadata);
  lw_durable : option N;
  lw_failing_acks : nat;
}.
Record LogConsumer := { lc_next : N }.

#[export] Instance LogConsumer_consumer : Consumer LogConsumer unit LogWorld := {
  consumer_next_descriptors max s :=
    let n := lc_next s.1 in
    let avail := drop (N.to_nat n) (lw_batches s.2) in
    let room := N.to_nat (N.min (N.of_nat max) (u64_max - n)) in
    let ds := imap (λ i (b : list Bytes * list BufferMetadata),
                {| bd_sequence := n + N.of_nat i; bd_location := "object-" +:+ show (n + N.of_nat i);
                   bd_metadata := b.2 |}) (take room avail) in
    (({| lc_next := n + N.of_nat (length ds) |}, s.2), Ok ds);
  consumer_ack_through n s :=
    match lw_failing_acks s.2 with
    | O => ((s.1, {| lw_batches := lw_batches s.2; lw_durable := Some n; lw_failing_acks := 0 |}), Ok tt)
    | S k => ((s.1, {| lw_batches := lw_batches s.2; lw_durable := lw_durable s.2;
                       lw_failing_acks := k |}), Err (mkBoxError "fenced"))
    end;
  consumer_len _ := 0%nat;
  consumer_fetch_handle _ := tt;
  handle_fetch _ d w :=
    match lw_batches w !! N.to_nat (bd_sequence d) with
    | Some (entries, metadata) =>
        (w, Ok {| cb_entries := entries; cb_sequence := bd_sequence d;
                  cb_location := bd_location d; cb_metadata := bd_metadata d |})
    | None => (w, Err (mkBoxError "no such object"))
    end;
}.

#[export, refine] Instance LogConsumer_laws : ConsumerLaws LogConsumer unit LogWorld := {
  durable_acked s := lw_durable s.2;
  read_cursor s := if lc_next s.1 <=? u64_max then Some (lc_next s.1) else None;
}.
Proof.
  - intros s s' n. simpl. destruct (lw_failing_acks s.2); intros [= <-]; done.
  - intros s s' n e. simpl. destruct (lw_failing_acks s.2); intros [= <-]; done.
  - intros s n. simpl. by destruct (lw_failing_acks s.2).
  - done.
  - intros s s' k ds. simpl. intros [= _ <-]. rewrite length_imap, length_take. lia.
  - intros s s' k ds. cbn [consumer_next_descriptors LogConsumer_consumer].
    set (room := N.to_nat _). intros [= <- <-] i d. rewrite list_lookup_imap, length_imap.
    destruct (take room _ !! i) as [b|] eqn:Hi; [|done]. intros [= <-]. simpl.
    apply lookup_lt_Some in Hi. rewrite length_take in *.
    destruct (N.leb_spec (lc_next s.1) u64_max); [|lia].
    split; [by intros c [= <-]|]. rewrite (proj2 (N.leb_le _ _)) by lia. f_equal. lia.
  - intros s s' k. cbn [consumer_next_descriptors LogConsumer_consumer]. set (room := N.to_nat _).
    intros [= <- Hds]. simpl. rewrite Hds. simpl. by rewrite N.add_0_r.
  - intros s c. simpl. destruct (N.leb_spec (lc_next s.1) u64_max); [|done]. intros [= <-]. done.
  - intros c w h d. simpl. by destruct (lw_batches w !! _) as [[]|].
Defined.

Definition log_meta (start : N) (ts : Z) : BufferMetadata :=
  {| start_index := start; bm_ingestion_time_ms := ts; bm_payload := [u8_of_N start] |}.
Definition log_world : LogWorld :=
  {| lw_batches := [([[u8_of_N 7]; [u8_of_N 8]; [u8_of_N 9]], [log_meta 0 100; log_meta 2 200]);
                    ([[u8_of_N 1]], [log_meta 0 300])];
     lw_durable := None; lw_failing_acks := 1 |}.
Definition log_source : BufferSource LogConsumer unit :=
  BufferSource_new {| lc_next := 0 |} (mkSourceId "logs") "manifest" None.

Lemma ack_flush_protocol_witness :
  durable (ack_run (log_source, log_world) [AckThrough 0; FlushAcks; AckThrough 1; FlushAcks]) = Some 1 ∧
  last_acked (ack_run (log_source, log_world) [AckThrough 0; FlushAcks]).1 = Some 0.
Proof.
  split; [by vm_compute|].
  apply (ack_flush_protocol (log_source, log_world) [AckThrough 0; FlushAcks] eq_refl).
Defined.

Lemma next_descriptors_contiguous_witness :
  (length (default [] (match (next_descriptors 8 SourceBudget_default (log_source, log_world)).2 with
                       | Ok ds => Some ds | Err _ => None end)) = 2)%nat ∧ (2 ≤ 8)%nat.
Proof.
  split; [by vm_compute|].
  destruct (next_descriptors 8 SourceBudget_default (log_source, log_world)) as [s' [ds|e]] eqn:Hrun;
    [|by vm_compute in Hrun].
  assert (length ds = 2%nat) as Hlen by (by vm_compute in Hrun; simplify_eq).
  rewrite <- Hlen at 1. apply (next_descriptors_contiguous _ _ _ _ _ Hrun).
Defined.

