(* ===== verification/Options.v ===== *)
(** * Runtime options and the builder
    (runtime/opendata-ingest-runtime/src/runtime.rs, public configuration)

    The option records with their defaults, the lookups that resolve them, and
    [RuntimeBuilder::build], which validates the configuration and assembles a
    [Runtime].  The test hooks the builder can attach (recorders, an artificial
    fetch delay, a fetch kill switch) and the metric registry observe a run and
    take no part in it; they have no field here. *)

From Stdlib Require Import NArith Lia.
From S2P Require Import Prelude.
From S2P Require Import Types.
From S2P Require Import AckCoordinator.
From S2P Require Import ByteBudget.
From S2P Require Import Source.
Local Open Scope N_scope.

(** [std::time::Duration], in nanoseconds. *)
Record Duration := mkDuration { nanos : N }.
Definition from_millis (ms : N) : Duration := mkDuration (ms * 1000000).

(** ** Options *)

Inductive AckFlushPolicy :=
| EveryCommitGroup
| EveryN (n : N).
Definition AckFlushPolicy_default : AckFlushPolicy := EveryCommitGroup.

Record SourceBackpressureOptions := {
  max_inflight_batches : N;
  max_inflight_bytes : N;
  estimated_max_batch_bytes : N;
  fetch_concurrency : N;
  decode_concurrency : N;
  oversize_fault_multiplier : N;
}.

Definition SourceBackpressureOptions_default : SourceBackpressureOptions := {|
  max_inflight_batches := 64;
  max_inflight_bytes := 256 * 1024 * 1024;
  estimated_max_batch_bytes := 4 * 1024 * 1024;
  fetch_concurrency := 8;
  decode_concurrency := 4;
  oversize_fault_multiplier := 4;
|}.

(** [SourceBackpressureOptions::serial]. *)
Definition serial : SourceBackpressureOptions := {|
  max_inflight_batches := 1;
  max_inflight_bytes := 256 * 1024 * 1024;
  estimated_max_batch_bytes := 4 * 1024 * 1024;
  fetch_concurrency := 1;
  decode_concurrency := 1;
  oversize_fault_multiplier := 4;
|}.

Record SinkPoolOptions := {
  max_concurrent_commits : N;
  retry_max_attempts : N;
  retry_initial_backoff_ms : N;
}.

Definition SinkPoolOptions_default : SinkPoolOptions := {|
  max_concurrent_commits := 4;
  retry_max_attempts := 6;
  retry_initial_backoff_ms := 100;
|}.

Record RuntimeOptions := {
  ack_flush_policy : AckFlushPolicy;
  dry_run : bool;
  poll_interval : Duration;
  max_descriptors_per_poll : N;
  max_retry_attempts : N;
  retry_backoff : Duration;
  source_defaults : SourceBackpressureOptions;
  source_overrides : gmap SourceId SourceBackpressureOptions;
  sink_options : SinkPoolOptions;
}.

Definition RuntimeOptions_default : RuntimeOptions := {|
  ack_flush_policy := AckFlushPolicy_default;
  dry_run := true;
  poll_interval := from_millis 250;
  max_descriptors_per_poll := 8;
  max_retry_attempts := 3;
  retry_backoff := from_millis 100;
  source_defaults := SourceBackpressureOptions_default;
  source_overrides := ∅;
  sink_options := SinkPoolOptions_default;
|}.

Definition backpressure_for (o : RuntimeOptions) (source : SourceId) : SourceBackpressureOptions :=
  default (source_defaults o) (source_overrides o !! source).

Definition effective_retry_max_attempts (o : RuntimeOptions) : N :=
  let default_sink_attempts := retry_max_attempts SinkPoolOptions_default in
  if negb (retry_max_attempts (sink_options o) =? default_sink_attempts)
  then retry_max_attempts (sink_options o)
  else max_retry_attempts o.

Definition effective_retry_backoff (o : RuntimeOptions) : Duration :=
  let default_sink_backoff_ms := retry_initial_backoff_ms SinkPoolOptions_default in
  if negb (retry_initial_backoff_ms (sink_options o) =? default_sink_backoff_ms)
  then from_millis (retry_initial_backoff_ms (sink_options o))
  else retry_backoff o.

(** ** Progress *)

Record RuntimeProgress := {
  batches_read : N;
  source_ranges_committed : N;
  records_written : N;
  last_decoded_sequence : option N;
  progress_last_acked : option N;
  pending_ranges_total : nat;
}.
Definition RuntimeProgress_default : RuntimeProgress := {|
  batches_read := 0; source_ranges_committed := 0; records_written := 0;
  last_decoded_sequence := None; progress_last_acked := None; pending_ranges_total := 0 |}.

(** ** Validation *)

Definition validate_backpressure (source : SourceId) (bp : SourceBackpressureOptions)
    : RuntimeResult unit :=
  let src := SourceId_display source in
  if max_inflight_bytes bp <? estimated_max_batch_bytes bp
  then Err (EConfig ("source " +:+ src +:+ ": estimated_max_batch_bytes (" +:+
              show (estimated_max_batch_bytes bp) +:+ ") > max_inflight_bytes (" +:+
              show (max_inflight_bytes bp) +:+
              "); admission would deadlock on SourceByteBudget::reserve. Raise max_inflight_bytes or lower estimated_max_batch_bytes so the pessimistic reservation fits."))
  else if max_inflight_batches bp =? 0
  then Err (EConfig ("source " +:+ src +:+ ": max_inflight_batches must be >= 1"))
  else if fetch_concurrency bp =? 0
  then Err (EConfig ("source " +:+ src +:+ ": fetch_concurrency must be >= 1"))
  else if decode_concurrency bp =? 0
  then Err (EConfig ("source " +:+ src +:+ ": decode_concurrency must be >= 1"))
  else Ok tt.

(** The loop over the overrides.  A [HashMap] is iterated in an unspecified
    order; the model takes the order of [map_to_list].  Whether a
    configuration is accepted does not depend on it. *)
Fixpoint validate_overrides (l : list (SourceId * SourceBackpressureOptions)) : RuntimeResult unit :=
  match l with
  | [] => Ok tt
  | (s, bp) :: rest => let? _ := validate_backpressure s bp in validate_overrides rest
  end.

(** ** Builder *)

Section builder.
Context {C F W D K : Type} `{Consumer C F W}.

Record RuntimeBuilder := {
  rb_source : option (BufferSource C F);
  rb_decoder : option D;
  rb_sink : option K;
  rb_options : RuntimeOptions;
}.

Record Runtime := {
  rt_source : BufferSource C F;
  rt_decoder : D;
  rt_sink : K;
  rt_coordinators : AckCoordinators;
  rt_options : RuntimeOptions;
  rt_progress : RuntimeProgress;
  rt_source_byte_budget : Budget;
}.

(** [Runtime::builder]. *)
Definition builder : RuntimeBuilder := {|
  rb_source := None; rb_decoder := None; rb_sink := None; rb_options := RuntimeOptions_default |}.

Definition add_source (source : BufferSource C F) (b : RuntimeBuilder) : RuntimeBuilder := {|
  rb_source := Some source; rb_decoder := rb_decoder b; rb_sink := rb_sink b;
  rb_options := rb_options b |}.
Definition add_decoder (decoder : D) (b : RuntimeBuilder) : RuntimeBuilder := {|
  rb_source := rb_source b; rb_decoder := Some decoder; rb_sink := rb_sink b;
  rb_options := rb_options b |}.
Definition set_sink (sink : K) (b : RuntimeBuilder) : RuntimeBuilder := {|
  rb_source := rb_source b; rb_decoder := rb_decoder b; rb_sink := Some sink;
  rb_options := rb_options b |}.
Definition with_options (options : RuntimeOptions) (b : RuntimeBuilder) : RuntimeBuilder := {|
  rb_source := rb_source b; rb_decoder := rb_decoder b; rb_sink := rb_sink b;
  rb_options := options |}.

Definition build (b : RuntimeBuilder) : RuntimeResult Runtime :=
  let? source := ok_or (rb_source b) (EConfig "no source configured") in
  let? decoder := ok_or (rb_decoder b) (EConfig "no decoder configured") in
  let? sink := ok_or (rb_sink b) (EConfig "no sink configured") in
  let options := rb_options b in
  let primary_bp := backpressure_for options (bs_id source) in
  let? _ := validate_backpressure (bs_id source) primary_bp in
  let? _ := validate_overrides (map_to_list (source_overrides options)) in
  let '(coordinators, registered) :=
    register_source (bs_id source) (last_acked_sequence source) AckCoordinators_new in
  let? _ := registered in
  Ok {| rt_source := source;
        rt_decoder := decoder;
        rt_sink := sink;
        rt_coordinators := coordinators;
        rt_options := options;
        rt_progress := RuntimeProgress_default;
        rt_source_byte_budget := Budget_new (bs_id source) (max_inflight_bytes primary_bp) |}.
End builder.

Arguments RuntimeBuilder : clear implicits.
Arguments Runtime : clear implicits.

(** ** What [build] accepts *)

Definition valid_backpressure (bp : SourceBackpressureOptions) : bool :=
  (estimated_max_batch_bytes bp <=? max_inflight_bytes bp) && (1 <=? max_inflight_batches bp) &&
  (1 <=? fetch_concurrency bp) && (1 <=? decode_concurrency bp).

Lemma validate_backpressure_ok s bp :
  is_ok (validate_backpressure s bp) = valid_backpressure bp.
Proof.
  unfold validate_backpressure, valid_backpressure. rewrite N.leb_antisym.
  destruct (max_inflight_bytes bp <? estimated_max_batch_bytes bp); [done|].
  assert (∀ n, (1 <=? n) = negb (n =? 0)) as Hpos.
  { intros n. destruct (N.eqb_spec n 0), (N.leb_spec 1 n); simpl; lia. }
  rewrite !Hpos. destruct (max_inflight_batches bp =? 0); [done|].
  destruct (fetch_concurrency bp =? 0); [done|]. by destruct (decode_concurrency bp =? 0).
Qed.

Lemma validate_overrides_ok l :
  is_ok (validate_overrides l) = forallb (λ e, valid_backpressure e.2) l.
Proof.
  induction l as [|[s bp] l IH]; simpl; [done|].
  rewrite <- (validate_backpressure_ok s bp), <- IH. by destruct (validate_backpressure s bp).
Qed.

Definition valid_options (o : RuntimeOptions) (source : SourceId) : Prop :=
  valid_backpressure (backpressure_for o source) = true ∧
  map_Forall (λ _ bp, valid_backpressure bp = true) (source_overrides o).

Lemma valid_options_spec o source :
  valid_options o source ↔
  is_ok (validate_backpressure source (backpressure_for o source)) = true ∧
  is_ok (validate_overrides (map_to_list (source_overrides o))) = true.
Proof.
  unfold valid_options. rewrite validate_backpressure_ok, validate_overrides_ok, forallb_forall.
  rewrite map_Forall_to_list, Forall_forall. f_equiv. split; intros Hall.
  - intros [s bp] Hin%list_elem_of_In. exact (Hall _ Hin).
  - intros [s bp] Hin%list_elem_of_In. exact (Hall _ Hin).
Qed.

(**  [build] succeeds exactly when a source, a decoder and a sink were
    supplied and every backpressure profile is valid; the runtime it returns
    has one fresh coordinator, for the source, whose baseline is the source's
    resume cursor, an empty byte budget of the configured size, and room in
    that budget for the first pessimistic reservation, so admission cannot
    park before the first descriptor. *)
Theorem build_accepts_valid_configurations {C F W D K : Type} `{Consumer C F W}
    (b : RuntimeBuilder C F D K) :
  match build b with
  | Ok rt =>
      ∃ source, rb_source b = Some source ∧ rb_decoder b = Some (rt_decoder rt) ∧
        rb_sink b = Some (rt_sink rt) ∧ rt_source rt = source ∧ rt_options rt = rb_options b ∧
        valid_options (rb_options b) (bs_id source) ∧
        rt_coordinators rt =
          {[ bs_id source := AckCoordinator_new (bs_id source) (last_acked source) ]} ∧
        let bp := backpressure_for (rb_options b) (bs_id source) in
        capacity (rt_source_byte_budget rt) = max_inflight_bytes bp ∧
        in_flight (rt_source_byte_budget rt) = 0 ∧
        (is_u64 (estimated_max_batch_bytes bp) →
         is_Some (reserve (estimated_max_batch_bytes bp) (rt_source_byte_budget rt)).1)
  | Err e =>
      (∃ msg, e = EConfig msg) ∧
      (rb_source b = None ∨ rb_decoder b = None ∨ rb_sink b = None ∨
       ∃ source, rb_source b = Some source ∧ ¬ valid_options (rb_options b) (bs_id source))
  end.
Proof.
  unfold build. destruct (rb_source b) as [source|]; simpl; [|split; [by eexists | tauto]].
  destruct (rb_decoder b) as [decoder|]; simpl; [|split; [by eexists | tauto]].
  destruct (rb_sink b) as [sink|]; simpl; [|split; [by eexists | tauto]].
  pose proof (valid_options_spec (rb_options b) (bs_id source)) as Hvalid.
  destruct (validate_backpressure _ _) as [[]|e] eqn:Hv; cycle 1.
  { split; [|right; right; right; exists source; split; [done|]; rewrite Hvalid; by intros [? ?]].
    unfold validate_backpressure in Hv. repeat split_match_in Hv; simplify_eq; eauto. }
  destruct (validate_overrides _) as [[]|e] eqn:Ho; cycle 1.
  { split; [|right; right; right; exists source; split; [done|]; rewrite Hvalid; by intros [? ?]].
    clear -Ho. induction (map_to_list _) as [|[s bp] l IH]; simpl in Ho; [done|].
    destruct (validate_backpressure s bp) as [[]|e'] eqn:Hv; [by apply IH|].
    unfold validate_backpressure in Hv. repeat split_match_in Hv; simplify_eq; eauto. }
  unfold register_source. rewrite run_bind. unfold get. cbv iota. simpl.
  unfold AckCoordinators_new, AckCoordinators. rewrite lookup_empty, bool_decide_eq_false_2 by (by intros [? ?]).
  simpl. exists source. split_and!; try done.
  - by apply Hvalid.
  - intros Hu. unfold reserve. destruct (N.eqb_spec (estimated_max_batch_bytes
      (backpressure_for (rb_options b) (bs_id source))) 0) as [|Hne]; simpl; [by eauto|].
    pose proof (validate_backpressure_ok (bs_id source)
      (backpressure_for (rb_options b) (bs_id source))) as Hok.
    rewrite Hv in Hok. symmetry in Hok. unfold valid_backpressure in Hok.
    repeat (apply andb_prop in Hok as [Hok _]). apply N.leb_le in Hok.
    rewrite sat_add64_exact by exact Hu. rewrite N.add_0_l, (proj2 (N.leb_le _ _) Hok). by eauto.
Qed.

(** The shadowing rule compares with the default value: a sink budget that an
    operator sets to the default is taken for an unset one. *)
Theorem sink_retry_default_is_unset (o : RuntimeOptions) :
  retry_max_attempts (sink_options o) = 6 →
  effective_retry_max_attempts o = max_retry_attempts o.
Proof. unfold effective_retry_max_attempts. intros ->. done. Qed.
