(* ===== verification/Metrics.v ===== *)
(** * Runtime metric surface
    (runtime/opendata-ingest-runtime/src/metrics.rs)

    The label enums and label sets, the metric families the runtime owns, and
    the names they are registered under.  A [Family] of counters or gauges is
    a finite map from label sets; a counter is an [AtomicU64] and wraps.
    Histograms are modelled by their number of observations: the observed
    values are wall-clock times, which the model does not have. *)

From Stdlib Require Import NArith ZArith QArith_base Lia.
From S2P Require Import Prelude.
From S2P Require Import Types.
Local Open Scope N_scope.

(** ** Labels *)

Inductive BackpressureReason :=
| SourceBudgetReason
| DecodeBudgetReason
| SinkBudgetReason
| Retrying
| FatalError.

Definition BackpressureReason_as_label (r : BackpressureReason) : string :=
  match r with
  | SourceBudgetReason => "source_budget"
  | DecodeBudgetReason => "decode_budget"
  | SinkBudgetReason => "sink_budget"
  | Retrying => "retrying"
  | FatalError => "fatal_error"
  end.

Inductive SinkCommitOutcome :=
| OutcomeCommitted
| OutcomeVerifiedAlreadyCommitted
| OutcomeFailedRetryable
| OutcomeFailedFatal.

Definition SinkCommitOutcome_as_label (o : SinkCommitOutcome) : string :=
  match o with
  | OutcomeCommitted => "committed"
  | OutcomeVerifiedAlreadyCommitted => "verified_already_committed"
  | OutcomeFailedRetryable => "failed_retryable"
  | OutcomeFailedFatal => "failed_fatal"
  end.

#[export] Instance SinkCommitOutcome_eq_dec : EqDecision SinkCommitOutcome.
Proof. solve_decision. Defined.

(** Label sets, as tuples in the order of the struct's fields. *)
Abbreviation SourceLabels := string (only parsing).
Abbreviation SourceReasonLabels := (string * string)%type (only parsing).
Abbreviation StageLabels := (string * string)%type (only parsing).
Abbreviation SinkLabels := string (only parsing).
Abbreviation SourceSinkResultLabels := (string * string * string)%type (only parsing).

(** Histogram bounds, each above the one before it. *)
Definition SECONDS_HISTOGRAM_BUCKETS : list Q :=
  [0.001; 0.0025; 0.005; 0.01; 0.025; 0.05; 0.1; 0.25; 0.5; 1.0; 2.5; 5.0; 10.0; 30.0]%Q.
Definition ADMISSION_BATCH_BUCKETS : list Q := [0.0; 1.0; 2.0; 4.0; 8.0; 16.0; 32.0; 64.0]%Q.

Fixpoint ascending (l : list Q) : bool :=
  match l with
  | x :: (y :: _) as rest => negb (Qle_bool y x) && ascending rest
  | _ => true
  end.
Example buckets_ascending : ascending SECONDS_HISTOGRAM_BUCKETS && ascending ADMISSION_BATCH_BUCKETS = true.
Proof. by vm_compute. Qed.

(** ** Families *)

Abbreviation Family L V := (gmap L V).

Section family.
Context {L : Type} `{Countable L}.

(** [get_or_create(l).inc_by(n)] on a counter. *)
Definition inc_by (n : N) (l : L) (f : Family L N) : Family L N :=
  <[l := wrapping_add64 (default 0 (f !! l)) n]> f.
Definition inc : L → Family L N → Family L N := inc_by 1.
(** [get_or_create(l).set(v)] on a gauge. *)
Definition set_gauge (v : Z) (l : L) (f : Family L Z) : Family L Z := <[l := v]> f.
(** [get_or_create(l).observe(_)] on a histogram. *)
Definition observe (l : L) (f : Family L N) : Family L N := inc l f.
End family.

(** A [u64] shown on an [i64] gauge ([x as i64]). *)
Definition as_i64 (n : N) : Z :=
  let m := Z.of_N (wrap64 n) in
  if (m <? 9223372036854775808)%Z then m else (m - 18446744073709551616)%Z.

Record RuntimeMetrics := {
  backpressure_reason : Family SourceReasonLabels N;
  descriptors_handed_out : Family SourceLabels N;
  bytes_fetched : Family SourceLabels N;
  records_decoded : Family SourceLabels N;
  sink_commits : Family SourceSinkResultLabels N;
  admission_next_descriptors_calls : Family SourceLabels N;
  admission_extension_releases : Family SourceLabels N;
  ack_frontier_gauge : Family SourceLabels Z;
  pending_ranges : Family SourceLabels Z;
  buffer_consumer_seq_lag : Family SourceLabels Z;
  stage_queue_depth : Family StageLabels Z;
  stage_inflight_bytes : Family StageLabels Z;
  sink_queue_depth : Family SinkLabels Z;
  sink_inflight_bytes : Family SinkLabels Z;
  ack_lag_seconds : Family SourceLabels N;
  stage_latency_seconds : Family StageLabels N;
  admission_descriptors_per_call : Family SourceLabels N;
}.

Definition RuntimeMetrics_new : RuntimeMetrics := {|
  backpressure_reason := ∅; descriptors_handed_out := ∅; bytes_fetched := ∅;
  records_decoded := ∅; sink_commits := ∅; admission_next_descriptors_calls := ∅;
  admission_extension_releases := ∅; ack_frontier_gauge := ∅; pending_ranges := ∅;
  buffer_consumer_seq_lag := ∅; stage_queue_depth := ∅; stage_inflight_bytes := ∅;
  sink_queue_depth := ∅; sink_inflight_bytes := ∅; ack_lag_seconds := ∅;
  stage_latency_seconds := ∅; admission_descriptors_per_call := ∅ |}.

(** An update of one family of the struct. *)
Definition on_backpressure_reason (f : Family SourceReasonLabels N → Family SourceReasonLabels N)
    (m : RuntimeMetrics) : RuntimeMetrics := {|
  backpressure_reason := f (backpressure_reason m); descriptors_handed_out := descriptors_handed_out m;
  bytes_fetched := bytes_fetched m; records_decoded := records_decoded m;
  sink_commits := sink_commits m;
  admission_next_descriptors_calls := admission_next_descriptors_calls m;
  admission_extension_releases := admission_extension_releases m;
  ack_frontier_gauge := ack_frontier_gauge m; pending_ranges := pending_ranges m;
  buffer_consumer_seq_lag := buffer_consumer_seq_lag m; stage_queue_depth := stage_queue_depth m;
  stage_inflight_bytes := stage_inflight_bytes m; sink_queue_depth := sink_queue_depth m;
  sink_inflight_bytes := sink_inflight_bytes m; ack_lag_seconds := ack_lag_seconds m;
  stage_latency_seconds := stage_latency_seconds m;
  admission_descriptors_per_call := admission_descriptors_per_call m |}.
Definition on_descriptors_handed_out (f : Family SourceLabels N → Family SourceLabels N)
    (m : RuntimeMetrics) : RuntimeMetrics := {|
  backpressure_reason := backpressure_reason m; descriptors_handed_out := f (descriptors_handed_out m);
  bytes_fetched := bytes_fetched m; records_decoded := records_decoded m;
  sink_commits := sink_commits m;
  admission_next_descriptors_calls := admission_next_descriptors_calls m;
  admission_extension_releases := admission_extension_releases m;
  ack_frontier_gauge := ack_frontier_gauge m; pending_ranges := pending_ranges m;
  buffer_consumer_seq_lag := buffer_consumer_seq_lag m; stage_queue_depth := stage_queue_depth m;
  stage_inflight_bytes := stage_inflight_bytes m; sink_queue_depth := sink_queue_depth m;
  sink_inflight_bytes := sink_inflight_bytes m; ack_lag_seconds := ack_lag_seconds m;
  stage_latency_seconds := stage_latency_seconds m;
  admission_descriptors_per_call := admission_descriptors_per_call m |}.
Definition on_bytes_fetched (f : Family SourceLabels N → Family SourceLabels N)
    (m : RuntimeMetrics) : RuntimeMetrics := {|
  backpressure_reason := backpressure_reason m; descriptors_handed_out := descriptors_handed_out m;
  bytes_fetched := f (bytes_fetched m); records_decoded := records_decoded m;
  sink_commits := sink_commits m;
  admission_next_descriptors_calls := admission_next_descriptors_calls m;
  admission_extension_releases := admission_extension_releases m;
  ack_frontier_gauge := ack_frontier_gauge m; pending_ranges := pending_ranges m;
  buffer_consumer_seq_lag := buffer_consumer_seq_lag m; stage_queue_depth := stage_queue_depth m;
  stage_inflight_bytes := stage_inflight_bytes m; sink_queue_depth := sink_queue_depth m;
  sink_inflight_bytes := sink_inflight_bytes m; ack_lag_seconds := ack_lag_seconds m;
  stage_latency_seconds := stage_latency_seconds m;
  admission_descriptors_per_call := admission_descriptors_per_call m |}.
Definition on_records_decoded (f : Family SourceLabels N → Family SourceLabels N)
    (m : RuntimeMetrics) : RuntimeMetrics := {|
  backpressure_reason := backpressure_reason m; descriptors_handed_out := descriptors_handed_out m;
  bytes_fetched := bytes_fetched m; records_decoded := f (records_decoded m);
  sink_commits := sink_commits m;
  admission_next_descriptors_calls := admission_next_descriptors_calls m;
  admission_extension_releases := admission_extension_releases m;
  ack_frontier_gauge := ack_frontier_gauge m; pending_ranges := pending_ranges m;
  buffer_consumer_seq_lag := buffer_consumer_seq_lag m; stage_queue_depth := stage_queue_depth m;
  stage_inflight_bytes := stage_inflight_bytes m; sink_queue_depth := sink_queue_depth m;
  sink_inflight_bytes := sink_inflight_bytes m; ack_lag_seconds := ack_lag_seconds m;
  stage_latency_seconds := stage_latency_seconds m;
  admission_descriptors_per_call := admission_descriptors_per_call m |}.
Definition on_sink_commits (f : Family SourceSinkResultLabels N → Family SourceSinkResultLabels N)
    (m : RuntimeMetrics) : RuntimeMetrics := {|
  backpressure_reason := backpressure_reason m; descriptors_handed_out := descriptors_handed_out m;
  bytes_fetched := bytes_fetched m; records_decoded := records_decoded m;
  sink_commits := f (sink_commits m);
  admission_next_descriptors_calls := admission_next_descriptors_calls m;
  admission_extension_releases := admission_extension_releases m;
  ack_frontier_gauge := ack_frontier_gauge m; pending_ranges := pending_ranges m;
  buffer_consumer_seq_lag := buffer_consumer_seq_lag m; stage_queue_depth := stage_queue_depth m;
  stage_inflight_bytes := stage_inflight_bytes m; sink_queue_depth := sink_queue_depth m;
  sink_inflight_bytes := sink_inflight_bytes m; ack_lag_seconds := ack_lag_seconds m;
  stage_latency_seconds := stage_latency_seconds m;
  admission_descriptors_per_call := admission_descriptors_per_call m |}.
Definition on_admission_next_descriptors_calls (f : Family SourceLabels N → Family SourceLabels N)
    (m : RuntimeMetrics) : RuntimeMetrics := {|
  backpressure_reason := backpressure_reason m; descriptors_handed_out := descriptors_handed_out m;
  bytes_fetched := bytes_fetched m; records_decoded := records_decoded m;
  sink_commits := sink_commits m;
  admission_next_descriptors_calls := f (admission_next_descriptors_calls m);
  admission_extension_releases := admission_extension_releases m;
  ack_frontier_gauge := ack_frontier_gauge m; pending_ranges := pending_ranges m;
  buffer_consumer_seq_lag := buffer_consumer_seq_lag m; stage_queue_depth := stage_queue_depth m;
  stage_inflight_bytes := stage_inflight_bytes m; sink_queue_depth := sink_queue_depth m;
  sink_inflight_bytes := sink_inflight_bytes m; ack_lag_seconds := ack_lag_seconds m;
  stage_latency_seconds := stage_latency_seconds m;
  admission_descriptors_per_call := admission_descriptors_per_call m |}.
Definition on_admission_extension_releases (f : Family SourceLabels N → Family SourceLabels N)
    (m : RuntimeMetrics) : RuntimeMetrics := {|
  backpressure_reason := backpressure_reason m; descriptors_handed_out := descriptors_handed_out m;
  bytes_fetched := bytes_fetched m; records_decoded := records_decoded m;
  sink_commits := sink_commits m;
  admission_next_descriptors_calls := admission_next_descriptors_calls m;
  admission_extension_releases := f (admission_extension_releases m);
  ack_frontier_gauge := ack_frontier_gauge m; pending_ranges := pending_ranges m;
  buffer_consumer_seq_lag := buffer_consumer_seq_lag m; stage_queue_depth := stage_queue_depth m;
  stage_inflight_bytes := stage_inflight_bytes m; sink_queue_depth := sink_queue_depth m;
  sink_inflight_bytes := sink_inflight_bytes m; ack_lag_seconds := ack_lag_seconds m;
  stage_latency_seconds := stage_latency_seconds m;
  admission_descriptors_per_call := admission_descriptors_per_call m |}.
Definition on_ack_frontier_gauge (f : Family SourceLabels Z → Family SourceLabels Z)
    (m : RuntimeMetrics) : RuntimeMetrics := {|
  backpressure_reason := backpressure_reason m; descriptors_handed_out := descriptors_handed_out m;
  bytes_fetched := bytes_fetched m; records_decoded := records_decoded m;
  sink_commits := sink_commits m;
  admission_next_descriptors_calls := admission_next_descriptors_calls m;
  admission_extension_releases := admission_extension_releases m;
  ack_frontier_gauge := f (ack_frontier_gauge m); pending_ranges := pending_ranges m;
  buffer_consumer_seq_lag := buffer_consumer_seq_lag m; stage_queue_depth := stage_queue_depth m;
  stage_inflight_bytes := stage_inflight_bytes m; sink_queue_depth := sink_queue_depth m;
  sink_inflight_bytes := sink_inflight_bytes m; ack_lag_seconds := ack_lag_seconds m;
  stage_latency_seconds := stage_latency_seconds m;
  admission_descriptors_per_call := admission_descriptors_per_call m |}.
Definition on_pending_ranges (f : Family SourceLabels Z → Family SourceLabels Z)
    (m : RuntimeMetrics) : RuntimeMetrics := {|
  backpressure_reason := backpressure_reason m; descriptors_handed_out := descriptors_handed_out m;
  bytes_fetched := bytes_fetched m; records_decoded := records_decoded m;
  sink_commits := sink_commits m;
  admission_next_descriptors_calls := admission_next_descriptors_calls m;
  admission_extension_releases := admission_extension_releases m;
  ack_frontier_gauge := ack_frontier_gauge m; pending_ranges := f (pending_ranges m);
  buffer_consumer_seq_lag := buffer_consumer_seq_lag m; stage_queue_depth := stage_queue_depth m;
  stage_inflight_bytes := stage_inflight_bytes m; sink_queue_depth := sink_queue_depth m;
  sink_inflight_bytes := sink_inflight_bytes m; ack_lag_seconds := ack_lag_seconds m;
  stage_latency_seconds := stage_latency_seconds m;
  admission_descriptors_per_call := admission_descriptors_per_call m |}.
Definition on_buffer_consumer_seq_lag (f : Family SourceLabels Z → Family SourceLabels Z)
    (m : RuntimeMetrics) : RuntimeMetrics := {|
  backpressure_reason := backpressure_reason m; descriptors_handed_out := descriptors_handed_out m;
  bytes_fetched := bytes_fetched m; records_decoded := records_decoded m;
  sink_commits := sink_commits m;
  admission_next_descriptors_calls := admission_next_descriptors_calls m;
  admission_extension_releases := admission_extension_releases m;
  ack_frontier_gauge := ack_frontier_gauge m; pending_ranges := pending_ranges m;
  buffer_consumer_seq_lag := f (buffer_consumer_seq_lag m); stage_queue_depth := stage_queue_depth m;
  stage_inflight_bytes := stage_inflight_bytes m; sink_queue_depth := sink_queue_depth m;
  sink_inflight_bytes := sink_inflight_bytes m; ack_lag_seconds := ack_lag_seconds m;
  stage_latency_seconds := stage_latency_seconds m;
  admission_descriptors_per_call := admission_descriptors_per_call m |}.
Definition on_stage_queue_depth (f : Family StageLabels Z → Family StageLabels Z)
    (m : RuntimeMetrics) : RuntimeMetrics := {|
  backpressure_reason := backpressure_reason m; descriptors_handed_out := descriptors_handed_out m;
  bytes_fetched := bytes_fetched m; records_decoded := records_decoded m;
  sink_commits := sink_commits m;
  admission_next_descriptors_calls := admission_next_descriptors_calls m;
  admission_extension_releases := admission_extension_releases m;
  ack_frontier_gauge := ack_frontier_gauge m; pending_ranges := pending_ranges m;
  buffer_consumer_seq_lag := buffer_consumer_seq_lag m; stage_queue_depth := f (stage_queue_depth m);
  stage_inflight_bytes := stage_inflight_bytes m; sink_queue_depth := sink_queue_depth m;
  sink_inflight_bytes := sink_inflight_bytes m; ack_lag_seconds := ack_lag_seconds m;
  stage_latency_seconds := stage_latency_seconds m;
  admission_descriptors_per_call := admission_descriptors_per_call m |}.
Definition on_stage_inflight_bytes (f : Family StageLabels Z → Family StageLabels Z)
    (m : RuntimeMetrics) : RuntimeMetrics := {|
  backpressure_reason := backpressure_reason m; descriptors_handed_out := descriptors_handed_out m;
  bytes_fetched := bytes_fetched m; records_decoded := records_decoded m;
  sink_commits := sink_commits m;
  admission_next_descriptors_calls := admission_next_descriptors_calls m;
  admission_extension_releases := admission_extension_releases m;
  ack_frontier_gauge := ack_frontier_gauge m; pending_ranges := pending_ranges m;
  buffer_consumer_seq_lag := buffer_consumer_seq_lag m; stage_queue_depth := stage_queue_depth m;
  stage_inflight_bytes := f (stage_inflight_bytes m); sink_queue_depth := sink_queue_depth m;
  sink_inflight_bytes := sink_inflight_bytes m; ack_lag_seconds := ack_lag_seconds m;
  stage_latency_seconds := stage_latency_seconds m;
  admission_descriptors_per_call := admission_descriptors_per_call m |}.
Definition on_sink_queue_depth (f : Family SinkLabels Z → Family SinkLabels Z)
    (m : RuntimeMetrics) : RuntimeMetrics := {|
  backpressure_reason := backpressure_reason m; descriptors_handed_out := descriptors_handed_out m;
  bytes_fetched := bytes_fetched m; records_decoded := records_decoded m;
  sink_commits := sink_commits m;
  admission_next_descriptors_calls := admission_next_descriptors_calls m;
  admission_extension_releases := admission_extension_releases m;
  ack_frontier_gauge := ack_frontier_gauge m; pending_ranges := pending_ranges m;
  buffer_consumer_seq_lag := buffer_consumer_seq_lag m; stage_queue_depth := stage_queue_depth m;
  stage_inflight_bytes := stage_inflight_bytes m; sink_queue_depth := f (sink_queue_depth m);
  sink_inflight_bytes := sink_inflight_bytes m; ack_lag_seconds := ack_lag_seconds m;
  stage_latency_seconds := stage_latency_seconds m;
  admission_descriptors_per_call := admission_descriptors_per_call m |}.
Definition on_sink_inflight_bytes (f : Family SinkLabels Z → Family SinkLabels Z)
    (m : RuntimeMetrics) : RuntimeMetrics := {|
  backpressure_reason := backpressure_reason m; descriptors_handed_out := descriptors_handed_out m;
  bytes_fetched := bytes_fetched m; records_decoded := records_decoded m;
  sink_commits := sink_commits m;
  admission_next_descriptors_calls := admission_next_descriptors_calls m;
  admission_extension_releases := admission_extension_releases m;
  ack_frontier_gauge := ack_frontier_gauge m; pending_ranges := pending_ranges m;
  buffer_consumer_seq_lag := buffer_consumer_seq_lag m; stage_queue_depth := stage_queue_depth m;
  stage_inflight_bytes := stage_inflight_bytes m; sink_queue_depth := sink_queue_depth m;
  sink_inflight_bytes := f (sink_inflight_bytes m); ack_lag_seconds := ack_lag_seconds m;
  stage_latency_seconds := stage_latency_seconds m;
  admission_descriptors_per_call := admission_descriptors_per_call m |}.
Definition on_ack_lag_seconds (f : Family SourceLabels N → Family SourceLabels N)
    (m : RuntimeMetrics) : RuntimeMetrics := {|
  backpressure_reason := backpressure_reason m; descriptors_handed_out := descriptors_handed_out m;
  bytes_fetched := bytes_fetched m; records_decoded := records_decoded m;
  sink_commits := sink_commits m;
  admission_next_descriptors_calls := admission_next_descriptors_calls m;
  admission_extension_releases := admission_extension_releases m;
  ack_frontier_gauge := ack_frontier_gauge m; pending_ranges := pending_ranges m;
  buffer_consumer_seq_lag := buffer_consumer_seq_lag m; stage_queue_depth := stage_queue_depth m;
  stage_inflight_bytes := stage_inflight_bytes m; sink_queue_depth := sink_queue_depth m;
  sink_inflight_bytes := sink_inflight_bytes m; ack_lag_seconds := f (ack_lag_seconds m);
  stage_latency_seconds := stage_latency_seconds m;
  admission_descriptors_per_call := admission_descriptors_per_call m |}.
Definition on_stage_latency_seconds (f : Family StageLabels N → Family StageLabels N)
    (m : RuntimeMetrics) : RuntimeMetrics := {|
  backpressure_reason := backpressure_reason m; descriptors_handed_out := descriptors_handed_out m;
  bytes_fetched := bytes_fetched m; records_decoded := records_decoded m;
  sink_commits := sink_commits m;
  admission_next_descriptors_calls := admission_next_descriptors_calls m;
  admission_extension_releases := admission_extension_releases m;
  ack_frontier_gauge := ack_frontier_gauge m; pending_ranges := pending_ranges m;
  buffer_consumer_seq_lag := buffer_consumer_seq_lag m; stage_queue_depth := stage_queue_depth m;
  stage_inflight_bytes := stage_inflight_bytes m; sink_queue_depth := sink_queue_depth m;
  sink_inflight_bytes := sink_inflight_bytes m; ack_lag_seconds := ack_lag_seconds m;
  stage_latency_seconds := f (stage_latency_seconds m);
  admission_descriptors_per_call := admission_descriptors_per_call m |}.
Definition on_admission_descriptors_per_call (f : Family SourceLabels N → Family SourceLabels N)
    (m : RuntimeMetrics) : RuntimeMetrics := {|
  backpressure_reason := backpressure_reason m; descriptors_handed_out := descriptors_handed_out m;
  bytes_fetched := bytes_fetched m; records_decoded := records_decoded m;
  sink_commits := sink_commits m;
  admission_next_descriptors_calls := admission_next_descriptors_calls m;
  admission_extension_releases := admission_extension_releases m;
  ack_frontier_gauge := ack_frontier_gauge m; pending_ranges := pending_ranges m;
  buffer_consumer_seq_lag := buffer_consumer_seq_lag m; stage_queue_depth := stage_queue_depth m;
  stage_inflight_bytes := stage_inflight_bytes m; sink_queue_depth := sink_queue_depth m;
  sink_inflight_bytes := sink_inflight_bytes m; ack_lag_seconds := ack_lag_seconds m;
  stage_latency_seconds := stage_latency_seconds m;
  admission_descriptors_per_call := f (admission_descriptors_per_call m) |}.

(** [RuntimeMetrics::register]: the names and help texts, in order. *)
Definition registered_metrics : list (string * string) := [
  ("runtime_backpressure_reason",
   "Backpressure events emitted by the runtime, labeled by source and reason.");
  ("runtime_descriptors_handed_out", "Source descriptors admitted into the runtime pipeline.");
  ("ingestor_bytes_fetched", "Bytes pulled from the buffer source per fetched batch.");
  ("ingestor_records_decoded", "Records produced by the decoder stage.");
  ("runtime_sink_commits", "Sink commit attempts labeled by source, sink, and result.");
  ("runtime_admission_next_descriptors_calls",
   "Admission-arm invocations of next_descriptors per source.");
  ("runtime_admission_extension_releases",
   "Excess gates released when next_descriptors returned fewer descriptors than gates acquired.");
  ("runtime_ack_frontier", "Highest ack-through sequence the runtime has surfaced for a source.");
  ("runtime_pending_ranges", "Number of pending commit ranges tracked by the coordinator.");
  ("buffer_consumer_sequence_lag",
   "head_sequence − last_acked_sequence as observed at last manifest read/write.");
  ("runtime_stage_queue_depth", "Pending items in each per-stage channel, labeled by stage and source.");
  ("runtime_stage_inflight_bytes", "In-flight bytes per stage, labeled by stage and source.");
  ("runtime_sink_queue_depth", "Pending sink commits in the dispatch queue, labeled by sink.");
  ("runtime_sink_inflight_bytes",
   "In-flight bytes pinned by concurrent sink commits, labeled by sink.");
  ("runtime_ack_lag_seconds", "Time spent waiting on ack-through coordination.");
  ("runtime_stage_latency_seconds", "Per-batch latency at each stage, labeled by stage and source.");
  ("runtime_admission_descriptors_per_call",
   "Descriptors returned by each next_descriptors invocation in the admission arm.")
].

(** Two updates of a family commute on different label sets, and an update is
    seen by the label set it names only. *)
Lemma inc_by_lookup {L} `{Countable L} n (l l' : L) f :
  inc_by n l f !! l' = if decide (l = l') then Some (wrapping_add64 (default 0 (f !! l)) n) else f !! l'.
Proof.
  unfold inc_by. destruct (decide (l = l')) as [->|Hne];
    [by rewrite lookup_insert_eq | by rewrite lookup_insert_ne].
Qed.

Lemma outcome_label_inj o1 o2 :
  SinkCommitOutcome_as_label o1 = SinkCommitOutcome_as_label o2 → o1 = o2.
Proof. by destruct o1, o2. Qed.
