(* ===== verification/ClickHouseMetrics.v ===== *)
(** * The metrics of the ClickHouse plugin
    (plugins/opendata-ingest-clickhouse/src/metrics.rs)

    The metric families, and every update that the writer and the sink make to
    them as a value of [MetricOp], so that a run of the code can be read as the
    list of its updates. *)

From Stdlib Require Import ZArith NArith QArith_base Lia.
From S2P Require Import Prelude.
From S2P Require Import Types.
From S2P Require Import Metrics.
Local Open Scope N_scope.

Inductive InsertResult :=
| ResultOk
| ResultRetryable
| ResultNonRetryable
| ResultRetryBudgetExhausted.

Definition InsertResult_as_label (r : InsertResult) : string :=
  match r with
  | ResultOk => "ok"
  | ResultRetryable => "retryable"
  | ResultNonRetryable => "non_retryable"
  | ResultRetryBudgetExhausted => "retry_budget_exhausted"
  end.

(** Histogram bounds: durations, serialized bytes, rows of a chunk. *)
Definition SECONDS_HISTOGRAM_BUCKETS : list Q :=
  [0.001; 0.0025; 0.005; 0.01; 0.025; 0.05; 0.1; 0.25; 0.5; 1.0; 2.5; 5.0; 10.0; 30.0]%Q.
Definition BYTES_HISTOGRAM_BUCKETS : list Q :=
  [1024.0; 4096.0; 16384.0; 65536.0; 262144.0; 1048576.0; 4194304.0; 16777216.0; 67108864.0]%Q.
Definition ROWS_HISTOGRAM_BUCKETS : list Q :=
  [100.0; 500.0; 1000.0; 5000.0; 10000.0; 50000.0; 100000.0; 500000.0; 1000000.0]%Q.
Example clickhouse_buckets_ascending :
  SECONDS_HISTOGRAM_BUCKETS = Metrics.SECONDS_HISTOGRAM_BUCKETS ∧
  ascending BYTES_HISTOGRAM_BUCKETS && ascending ROWS_HISTOGRAM_BUCKETS = true.
Proof. split; [reflexivity|by vm_compute]. Qed.

(** Labels are tuples in the order of the struct's fields.  The histograms of
    durations count their observations; the other two keep the observed
    values. *)
Record ClickHouseMetrics := {
  rows_committed : Family string N;
  commit_bytes : N;
  retry_count : Family string N;
  insert_errors : Family string N;
  http_concurrent_inflight : Family string Z;
  serialization_duration_seconds : Family string N;
  serialized_bytes : Family string (list N);
  chunk_rows : Family string (list N);
  insert_duration_seconds : Family (string * string * string) N;
}.

Definition ClickHouseMetrics_new : ClickHouseMetrics := {|
  rows_committed := ∅; commit_bytes := 0; retry_count := ∅; insert_errors := ∅; http_concurrent_inflight := ∅;
  serialization_duration_seconds := ∅; serialized_bytes := ∅; chunk_rows := ∅; insert_duration_seconds := ∅ |}.

(** The names of [register], in order. *)
Definition ClickHouseMetrics_registered : list string := [
  "clickhouse_ingestor_rows_committed"; "ingestor_commit_bytes"; "ingestor_retry_count"; "clickhouse_insert_errors";
  "clickhouse_http_concurrent_inflight"; "clickhouse_serialization_duration_seconds"; "clickhouse_serialized_bytes";
  "clickhouse_chunk_rows"; "clickhouse_insert_duration_seconds"].

(** [observe] of a histogram whose values are kept. *)
Definition observe_value (l : string) (v : N) (f : Family string (list N)) : Family string (list N) :=
  <[l := default [] (f !! l) ++ [v]]> f.
(** [inc] and [dec] of a gauge. *)
Definition gauge_add (l : string) (d : Z) (f : Family string Z) : Family string Z := <[l := (default 0 (f !! l) + d)%Z]> f.

(** One update of one family. *)
Inductive MetricOp :=
| RowsCommitted (run_id : string) (count : N)
| CommitBytes (bytes : N)
| RetryCounted (reason : string)
| ErrorCounted (status_code : string)
| InflightInc (http_mode : string)
| InflightDec (http_mode : string)
| SerializationObserved (format : string)
| SerializedBytes (format : string) (bytes : N)
| ChunkRows (format : string) (nrows : N)
| InsertObserved (labels : string * string * string).

Definition apply_metric (op : MetricOp) (m : ClickHouseMetrics) : ClickHouseMetrics :=
  let 'Build_ClickHouseMetrics rc cb rt ie hi sd sb cr id := m in
  match op with
  | RowsCommitted run_id count => Build_ClickHouseMetrics (inc_by count run_id rc) cb rt ie hi sd sb cr id
  | CommitBytes bytes => Build_ClickHouseMetrics rc (wrapping_add64 cb bytes) rt ie hi sd sb cr id
  | RetryCounted reason => Build_ClickHouseMetrics rc cb (inc reason rt) ie hi sd sb cr id
  | ErrorCounted code => Build_ClickHouseMetrics rc cb rt (inc code ie) hi sd sb cr id
  | InflightInc mode => Build_ClickHouseMetrics rc cb rt ie (gauge_add mode 1 hi) sd sb cr id
  | InflightDec mode => Build_ClickHouseMetrics rc cb rt ie (gauge_add mode (-1) hi) sd sb cr id
  | SerializationObserved f => Build_ClickHouseMetrics rc cb rt ie hi (observe f sd) sb cr id
  | SerializedBytes f bytes => Build_ClickHouseMetrics rc cb rt ie hi sd (observe_value f bytes sb) cr id
  | ChunkRows f nrows => Build_ClickHouseMetrics rc cb rt ie hi sd sb (observe_value f nrows cr) id
  | InsertObserved labels => Build_ClickHouseMetrics rc cb rt ie hi sd sb cr (observe labels id)
  end.

Definition apply_metrics (ops : list MetricOp) (m : ClickHouseMetrics) : ClickHouseMetrics :=
  foldl (λ m op, apply_metric op m) m ops.

(** ** What a list of updates amounts to *)

(** Its effect on the in-flight gauge of a mode. *)
Definition inflight_of (mode : string) (op : MetricOp) : Z :=
  match op with
  | InflightInc l => if decide (l = mode) then 1 else 0
  | InflightDec l => if decide (l = mode) then -1 else 0
  | _ => 0
  end.
Fixpoint inflight (mode : string) (ops : list MetricOp) : Z :=
  match ops with [] => 0 | op :: ops => inflight_of mode op + inflight mode ops end.

Definition retries (ops : list MetricOp) : list string :=
  omap (λ op, match op with RetryCounted reason => Some reason | _ => None end) ops.

(** The rows and the bytes it counts as committed. *)
Definition committed_rows (run_id : string) (ops : list MetricOp) : N :=
  sum_N ((λ op, match op with RowsCommitted l n => if decide (l = run_id) then n else 0 | _ => 0 end) <$> ops).
Definition committed_bytes (ops : list MetricOp) : N :=
  sum_N ((λ op, match op with CommitBytes n => n | _ => 0 end) <$> ops).

(** Updates that count nothing as committed. *)
Definition uncommitted (op : MetricOp) : bool :=
  match op with RowsCommitted _ _ | CommitBytes _ => false | _ => true end.

Lemma inflight_app mode l1 l2 : inflight mode (l1 ++ l2) = (inflight mode l1 + inflight mode l2)%Z.
Proof. induction l1 as [|op l1 IH]; simpl; [done|]. rewrite IH. lia. Qed.
Lemma retries_app l1 l2 : retries (l1 ++ l2) = retries l1 ++ retries l2.
Proof. apply omap_app. Qed.
Lemma apply_metrics_app l1 l2 m : apply_metrics (l1 ++ l2) m = apply_metrics l2 (apply_metrics l1 m).
Proof. apply foldl_app. Qed.

Lemma gauge_add_lookup l d f l' :
  default 0%Z (gauge_add l d f !! l') = (default 0 (f !! l') + if decide (l = l') then d else 0)%Z.
Proof.
  unfold gauge_add. destruct (decide (l = l')) as [->|Hne]; [by rewrite lookup_insert_eq|].
  rewrite lookup_insert_ne by done. lia.
Qed.

(** The gauge, the retry counter and the byte counter after a list of
    updates. *)
Lemma apply_metrics_inflight mode ops : ∀ m,
  default 0%Z (http_concurrent_inflight (apply_metrics ops m) !! mode) =
  (default 0 (http_concurrent_inflight m !! mode) + inflight mode ops)%Z.
Proof.
  induction ops as [|op ops IH]; intros m; simpl; [lia|]. rewrite IH.
  assert (default 0%Z (http_concurrent_inflight (apply_metric op m) !! mode) =
          (default 0 (http_concurrent_inflight m !! mode) + inflight_of mode op)%Z) as ->; [|lia].
  destruct m, op; simpl; try lia; apply gauge_add_lookup.
Qed.

Lemma apply_metrics_retries ops : ∀ m,
  retry_count (apply_metrics ops m) = foldl (λ f r, inc r f) (retry_count m) (retries ops).
Proof. induction ops as [|op ops IH]; intros m; simpl; [done|]. rewrite IH. by destruct m, op. Qed.

Lemma apply_metrics_bytes ops : ∀ m,
  wrap64 (commit_bytes (apply_metrics ops m)) = wrap64 (commit_bytes m + committed_bytes ops).
Proof.
  induction ops as [|op ops IH]; intros m; simpl; [unfold committed_bytes; simpl; by rewrite N.add_0_r|].
  rewrite IH. change (committed_bytes (op :: ops)) with
    ((match op with CommitBytes n => n | _ => 0 end) + committed_bytes ops).
  destruct m, op; cbn [apply_metric commit_bytes]; try by rewrite N.add_0_l.
  unfold wrapping_add64. by rewrite wrap64_add_l, N.add_assoc.
Qed.

Lemma apply_metrics_uncommitted ops m :
  Forall (λ op, uncommitted op = true) ops →
  rows_committed (apply_metrics ops m) = rows_committed m ∧ commit_bytes (apply_metrics ops m) = commit_bytes m.
Proof.
  intros Hops. revert m. induction Hops as [|op ops Hop _ IH]; intros m; [done|]. simpl.
  destruct (IH (apply_metric op m)) as [-> ->]. by destruct m, op.
Qed.

Lemma apply_metrics_rows l ops : ∀ m,
  wrap64 (default 0 (rows_committed (apply_metrics ops m) !! l)) =
  wrap64 (default 0 (rows_committed m !! l) + committed_rows l ops).
Proof.
  induction ops as [|op ops IH]; intros m; simpl; [unfold committed_rows; simpl; by rewrite N.add_0_r|].
  rewrite IH. change (committed_rows l (op :: ops)) with
    ((match op with RowsCommitted l' n => if decide (l' = l) then n else 0 | _ => 0 end) + committed_rows l ops).
  destruct m, op; cbn [apply_metric rows_committed]; try by rewrite N.add_0_l.
  rewrite inc_by_lookup. destruct (decide (run_id = l)) as [->|]; [|by rewrite N.add_0_l]. simpl.
  unfold wrapping_add64. by rewrite wrap64_add_l, N.add_assoc.
Qed.

Lemma committed_rows_app l l1 l2 : committed_rows l (l1 ++ l2) = committed_rows l l1 + committed_rows l l2.
Proof. unfold committed_rows. by rewrite fmap_app, sum_N_app. Qed.
Lemma committed_bytes_app l1 l2 : committed_bytes (l1 ++ l2) = committed_bytes l1 + committed_bytes l2.
Proof. unfold committed_bytes. by rewrite fmap_app, sum_N_app. Qed.

Lemma uncommitted_counts l ops :
  Forall (λ op, uncommitted op = true) ops → committed_rows l ops = 0 ∧ committed_bytes ops = 0.
Proof.
  induction 1 as [|op ops Hop _ [IH1 IH2]]; [done|].
  change (op :: ops) with ([op] ++ ops). rewrite committed_rows_app, committed_bytes_app, IH1, IH2. by destruct op.
Qed.

(** A table of counts, emitted key by key. *)
Lemma committed_rows_table l (counts : gmap string N) :
  committed_rows l ((λ kv, RowsCommitted kv.1 kv.2) <$> map_to_list counts) = default 0 (counts !! l).
Proof.
  induction counts as [|k n counts Hk IH] using map_ind; [by rewrite map_to_list_empty|].
  set (emitted := fmap (M := list) (λ kv : string * N, RowsCommitted kv.1 kv.2)) in *.
  transitivity (committed_rows l (emitted ((k, n) :: map_to_list counts))).
  { apply sum_N_permutation. unfold emitted. by rewrite (map_to_list_insert counts k n Hk). }
  change (committed_rows l (emitted ((k, n) :: map_to_list counts))) with
    ((if decide (k = l) then n else 0) + committed_rows l (emitted (map_to_list counts))).
  rewrite IH. destruct (decide (k = l)) as [->|Hne].
  - rewrite lookup_insert_eq, Hk. simpl. lia.
  - by rewrite lookup_insert_ne, N.add_0_l.
Qed.
