(* ===== verification/WriteRetry.v ===== *)
(** * The sink retry loop
    (runtime/opendata-ingest-runtime/src/runtime.rs, [write_with_retry])

    One attempt of the loop is a write, possibly a status check, possibly a
    sleep; each of the three awaits runs in a [select!] against the abort
    token.  The environment of a run says, for each of these awaits in order,
    whether it resolves or the abort arm wins; an aborted call may have acted
    on the world before its future was dropped.  The state keeps the log of
    the calls made on the sink, with their answers. *)

From Stdlib Require Import NArith Lia.
From S2P Require Import Prelude.
From S2P Require Import Types.
From S2P Require Import AckCoordinator.
From S2P Require Import ByteBudget.
From S2P Require Import Source.
From S2P Require Import Options.
From S2P Require Import Metrics.
Local Open Scope N_scope.

(** ** Environment and state *)

(** The outcome of one [select!].  [slow]: the await takes 10 ms or more, the
    threshold of the backpressure timer. *)
Inductive Select (W : Type) :=
| Proceed (slow : bool)
| Abort (slow : bool) (partial : W → W).
Arguments Proceed {W} slow.
Arguments Abort {W} slow partial.

Inductive SinkCall (T : Type) :=
| CallWrite (commit : SinkCommit T) (answer : result SinkCommitResult SinkCommitFailure)
| CallCheck (identity : CommitIdentity) (answer : RuntimeResult CommitStatus).
Arguments CallWrite {T} commit answer.
Arguments CallCheck {T} identity answer.

Inductive WriteSuccess :=
| WSCommitted (result : SinkCommitResult)
| WSVerifiedAlreadyCommitted.

Record WriteAttempt := {
  wa_inner : RuntimeResult WriteSuccess;
  wa_outcome : SinkCommitOutcome;
}.

(** [with_backpressure_timer]: one increment when the wrapped await is slow. *)
Definition with_backpressure_timer (source_id : SourceId) (reason : BackpressureReason) (slow : bool)
    (m : RuntimeMetrics) : RuntimeMetrics :=
  if slow
  then on_backpressure_reason (inc (source_str source_id, BackpressureReason_as_label reason)) m
  else m.

Section retry.
Context {K W T : Type} `{Sink K W T}.
Implicit Types sink : K.

Record RetryState := {
  rs_world : W;
  rs_metrics : RuntimeMetrics;
  rs_calls : list (SinkCall T);
  rs_polls : nat;
}.

Definition retry_start (w : W) (m : RuntimeMetrics) : RetryState :=
  {| rs_world := w; rs_metrics := m; rs_calls := []; rs_polls := 0 |}.

Definition after_call (w : W) (c : SinkCall T) (s : RetryState) : RetryState :=
  {| rs_world := w; rs_metrics := rs_metrics s; rs_calls := rs_calls s ++ [c];
     rs_polls := S (rs_polls s) |}.
Definition after_abort (partial : W → W) (s : RetryState) : RetryState :=
  {| rs_world := partial (rs_world s); rs_metrics := rs_metrics s; rs_calls := rs_calls s;
     rs_polls := S (rs_polls s) |}.
Definition after_sleep (m : RuntimeMetrics) (s : RetryState) : RetryState :=
  {| rs_world := rs_world s; rs_metrics := m; rs_calls := rs_calls s; rs_polls := S (rs_polls s) |}.

Context (env : nat → Select W).

(** [sleep_with_abort] under the backpressure timer; true when the sleep ran
    to its end.  The length of the sleep, [effective_retry_backoff], is spent
    by the environment. *)
Definition sleep_with_abort (source_id : SourceId) (s : RetryState) : bool * RetryState :=
  match env (rs_polls s) with
  | Proceed slow => (true, after_sleep (with_backpressure_timer source_id Retrying slow (rs_metrics s)) s)
  | Abort slow _ => (false, after_sleep (with_backpressure_timer source_id Retrying slow (rs_metrics s)) s)
  end.

Definition hard_abort (during : string) : WriteAttempt :=
  {| wa_inner := Err (EPipeline ("hard abort during " +:+ during));
     wa_outcome := OutcomeFailedFatal |}.

Definition failed_retryable (e : BoxError) : WriteAttempt :=
  {| wa_inner := Err (ESink e); wa_outcome := OutcomeFailedRetryable |}.

(** The tail of an attempt that may be retried: give up, or sleep and go on.
    [None] means go on. *)
Definition retry_or_fail (source_id : SourceId) (attempt max_attempts : N) (e : BoxError)
    (s : RetryState) : option WriteAttempt * RetryState :=
  if max_attempts <=? attempt then (Some (failed_retryable e), s)
  else
    let '(slept, s) := sleep_with_abort source_id s in
    if slept then (None, s) else (Some (hard_abort "retry sleep"), s).

(** One iteration of the loop. *)
Definition attempt_once (sink : K) (commit : SinkCommit T) (source_id : SourceId)
    (attempt max_attempts : N) (s : RetryState) : option WriteAttempt * RetryState :=
  match env (rs_polls s) with
  | Abort _ partial => (Some (hard_abort "Sink::write"), after_abort partial s)
  | Proceed _ =>
      let '(w, write_result) := sink_write sink commit (rs_world s) in
      let s := after_call w (CallWrite commit write_result) s in
      match write_result with
      | Ok result =>
          (Some {| wa_inner := Ok (WSCommitted result); wa_outcome := OutcomeCommitted |}, s)
      | Err (Fatal e) =>
          (Some {| wa_inner := Err (ESink e); wa_outcome := OutcomeFailedFatal |}, s)
      | Err (NotCommitted e) => retry_or_fail source_id attempt max_attempts e s
      | Err (MaybeCommitted e) =>
          match env (rs_polls s) with
          | Abort _ partial => (Some (hard_abort "check_committed"), after_abort partial s)
          | Proceed _ =>
              let '(w, check) := check_committed sink (sc_identity commit) (rs_world s) in
              let s := after_call w (CallCheck (sc_identity commit) check) s in
              match check with
              | Ok CSCommitted =>
                  (Some {| wa_inner := Ok WSVerifiedAlreadyCommitted;
                           wa_outcome := OutcomeVerifiedAlreadyCommitted |}, s)
              | Ok CSNotCommitted | Ok CSUnknown =>
                  retry_or_fail source_id attempt max_attempts e s
              | Err check_err =>
                  (Some {| wa_inner := Err check_err; wa_outcome := OutcomeFailedFatal |}, s)
              end
          end
      end
  end.

(** The loop.  Out of fuel is [None]; [max_attempts + 1] iterations are always
    enough ([write_with_retry_total]). *)
Fixpoint write_loop (fuel : nat) (sink : K) (commit : SinkCommit T) (source_id : SourceId)
    (attempt max_attempts : N) (s : RetryState) : option WriteAttempt * RetryState :=
  match fuel with
  | O => (None, s)
  | S fuel =>
      match attempt_once sink commit source_id attempt max_attempts s with
      | (Some a, s) => (Some a, s)
      | (None, s) => write_loop fuel sink commit source_id (sat_add32 attempt 1) max_attempts s
      end
  end.

Definition write_with_retry (sink : K) (commit : SinkCommit T) (options : RuntimeOptions)
    (source_id : SourceId) (s : RetryState) : option WriteAttempt * RetryState :=
  let max_attempts := effective_retry_max_attempts options in
  write_loop (S (N.to_nat max_attempts)) sink commit source_id 0 max_attempts s.

(** ** The same loop, one await at a time

    The writer workers of the pipeline interleave at every await, so the
    pipeline runs the loop as a machine: [RetryPc] is the await the loop is
    parked on, [retry_step] resolves it. *)

Inductive RetryPc :=
| PWrite (attempt : N)
| PCheck (attempt : N) (e : BoxError)
| PSleep (attempt : N)
| PDone (a : WriteAttempt).

Definition sleep_or_fail (attempt max_attempts : N) (e : BoxError) : RetryPc :=
  if max_attempts <=? attempt then PDone (failed_retryable e) else PSleep attempt.

Definition after_write (attempt max_attempts : N) (r : result SinkCommitResult SinkCommitFailure)
    : RetryPc :=
  match r with
  | Ok result => PDone {| wa_inner := Ok (WSCommitted result); wa_outcome := OutcomeCommitted |}
  | Err (Fatal e) => PDone {| wa_inner := Err (ESink e); wa_outcome := OutcomeFailedFatal |}
  | Err (NotCommitted e) => sleep_or_fail attempt max_attempts e
  | Err (MaybeCommitted e) => PCheck attempt e
  end.

Definition after_check (attempt max_attempts : N) (e : BoxError) (r : RuntimeResult CommitStatus)
    : RetryPc :=
  match r with
  | Ok CSCommitted =>
      PDone {| wa_inner := Ok WSVerifiedAlreadyCommitted;
               wa_outcome := OutcomeVerifiedAlreadyCommitted |}
  | Ok CSNotCommitted | Ok CSUnknown => sleep_or_fail attempt max_attempts e
  | Err check_err => PDone {| wa_inner := Err check_err; wa_outcome := OutcomeFailedFatal |}
  end.

(** The await resolves with [sel]: the next await, the world, and the call
    that was made on the sink. *)
Definition retry_step (sink : K) (commit : SinkCommit T) (max_attempts : N) (sel : Select W)
    (pc : RetryPc) (w : W) : RetryPc * W * option (SinkCall T) :=
  match pc, sel with
  | PWrite _, Abort _ partial => (PDone (hard_abort "Sink::write"), partial w, None)
  | PWrite attempt, Proceed _ =>
      let '(w, r) := sink_write sink commit w in
      (after_write attempt max_attempts r, w, Some (CallWrite commit r))
  | PCheck _ _, Abort _ partial => (PDone (hard_abort "check_committed"), partial w, None)
  | PCheck attempt e, Proceed _ =>
      let '(w, r) := check_committed sink (sc_identity commit) w in
      (after_check attempt max_attempts e r, w, Some (CallCheck (sc_identity commit) r))
  | PSleep _, Abort _ _ => (PDone (hard_abort "retry sleep"), w, None)
  | PSleep attempt, Proceed _ => (PWrite (sat_add32 attempt 1), w, None)
  | PDone a, _ => (PDone a, w, None)
  end.

(** The machine alone on the world, under the environment of the loop. *)
Definition machine_step (sink : K) (commit : SinkCommit T) (max_attempts : N)
    (x : RetryPc * W * list (SinkCall T) * nat) : RetryPc * W * list (SinkCall T) * nat :=
  let '(pc, w, calls, polls) := x in
  match pc with
  | PDone _ => x
  | _ =>
      let '(pc', w', call) := retry_step sink commit max_attempts (env polls) pc w in
      (pc', w', calls ++ option_list call, S polls)
  end.

(** ** The protocol of the calls *)

(** The calls of one attempt that left the outcome open: a write that was not
    committed, or one whose outcome was unknown followed by a check that could
    not confirm it.  [e] is the write's error. *)
Inductive open_attempt (commit : SinkCommit T) (e : BoxError) : list (SinkCall T) → Prop :=
| open_not_committed : open_attempt commit e [CallWrite commit (Err (NotCommitted e))]
| open_unconfirmed st :
    st = CSNotCommitted ∨ st = CSUnknown →
    open_attempt commit e [CallWrite commit (Err (MaybeCommitted e));
                           CallCheck (sc_identity commit) (Ok st)].

Definition aborted : Prop := ∃ i slow partial, env i = Abort slow partial.

(** The calls of the attempt that ended the loop, and what the loop made of
    them. *)
Inductive last_attempt (commit : SinkCommit T) : bool → list (SinkCall T) → WriteAttempt → Prop :=
| last_committed r b :
    last_attempt commit b [CallWrite commit (Ok r)]
      {| wa_inner := Ok (WSCommitted r); wa_outcome := OutcomeCommitted |}
| last_verified e b :
    last_attempt commit b
      [CallWrite commit (Err (MaybeCommitted e)); CallCheck (sc_identity commit) (Ok CSCommitted)]
      {| wa_inner := Ok WSVerifiedAlreadyCommitted; wa_outcome := OutcomeVerifiedAlreadyCommitted |}
| last_fatal e b :
    last_attempt commit b [CallWrite commit (Err (Fatal e))]
      {| wa_inner := Err (ESink e); wa_outcome := OutcomeFailedFatal |}
| last_check_error e err b :
    last_attempt commit b
      [CallWrite commit (Err (MaybeCommitted e)); CallCheck (sc_identity commit) (Err err)]
      {| wa_inner := Err err; wa_outcome := OutcomeFailedFatal |}
| last_exhausted e calls :
    open_attempt commit e calls → last_attempt commit true calls (failed_retryable e)
| last_abort_write b : aborted → last_attempt commit b [] (hard_abort "Sink::write")
| last_abort_check e b :
    aborted →
    last_attempt commit b [CallWrite commit (Err (MaybeCommitted e))] (hard_abort "check_committed")
| last_abort_sleep e calls :
    aborted → open_attempt commit e calls → last_attempt commit false calls (hard_abort "retry sleep").

Lemma retry_or_fail_spec source_id attempt max_attempts e s commit calls :
  open_attempt commit e calls →
  match retry_or_fail source_id attempt max_attempts e s with
  | (Some a, s') =>
      rs_calls s' = rs_calls s ∧ last_attempt commit (max_attempts <=? attempt) calls a
  | (None, s') => rs_calls s' = rs_calls s ∧ attempt < max_attempts
  end.
Proof.
  intros Hopen. unfold retry_or_fail. destruct (N.leb_spec max_attempts attempt) as [|Hlt].
  - split; [done|]. by constructor.
  - unfold sleep_with_abort. destruct (env (rs_polls s)) as [slow|slow partial] eqn:Henv; simpl.
    + done.
    + split; [done|]. econstructor; [|done]. by exists (rs_polls s), slow, partial.
Qed.

Lemma attempt_once_spec sink commit source_id attempt max_attempts s :
  ∃ calls,
    rs_calls (attempt_once sink commit source_id attempt max_attempts s).2 = rs_calls s ++ calls ∧
    match (attempt_once sink commit source_id attempt max_attempts s).1 with
    | Some a => last_attempt commit (max_attempts <=? attempt) calls a
    | None => attempt < max_attempts ∧ ∃ e, open_attempt commit e calls
    end.
Proof.
  unfold attempt_once.
  destruct (env (rs_polls s)) as [slow|slow partial] eqn:Henv; cycle 1.
  { exists []. rewrite app_nil_r. split; [done|]. constructor. by exists (rs_polls s), slow, partial. }
  destruct (sink_write sink commit (rs_world s)) as [w [r|[e|e|e]]].
  - exists [CallWrite commit (Ok r)]. split; [done|constructor].
  - set (s1 := after_call w _ s).
    pose proof (retry_or_fail_spec source_id attempt max_attempts e s1 commit _
                  (open_not_committed commit e)) as Hspec.
    eexists. destruct (retry_or_fail _ _ _ _ s1) as [[a|] s']; destruct Hspec as [Hcalls Hlast];
      simpl; rewrite Hcalls; (split; [done|]); [done|]. split; [done|]. eexists. constructor.
  - set (s1 := after_call w _ s).
    destruct (env (rs_polls s1)) as [slow1|slow1 partial1] eqn:Henv1; cycle 1.
    { exists [CallWrite commit (Err (MaybeCommitted e))]. split; [done|].
      constructor. by exists (rs_polls s1), slow1, partial1. }
    destruct (check_committed sink (sc_identity commit) (rs_world s1)) as [w2 check].
    set (s2 := after_call w2 _ s1).
    assert (rs_calls s2 = rs_calls s ++ [CallWrite commit (Err (MaybeCommitted e));
              CallCheck (sc_identity commit) check]) as Hs2.
    { simpl. by rewrite <- app_assoc. }
    eexists. assert (∀ st, check = Ok st → st = CSNotCommitted ∨ st = CSUnknown →
      ∃ calls, rs_calls (retry_or_fail source_id attempt max_attempts e s2).2 = rs_calls s ++ calls ∧
        calls = [CallWrite commit (Err (MaybeCommitted e)); CallCheck (sc_identity commit) check] ∧
        match (retry_or_fail source_id attempt max_attempts e s2).1 with
        | Some a => last_attempt commit (max_attempts <=? attempt) calls a
        | None => attempt < max_attempts ∧ ∃ e, open_attempt commit e calls
        end) as Hopen.
    { intros st -> Hst. pose proof (open_unconfirmed commit e st Hst) as Ho.
      pose proof (retry_or_fail_spec source_id attempt max_attempts e s2 commit _ Ho) as Hspec.
      eexists. split; [|split; [done|]];
        destruct (retry_or_fail _ _ _ _ s2) as [[a|] s']; destruct Hspec as [Hcalls Hlast]; simpl;
        rewrite ?Hcalls; eauto. }
    destruct check as [[]|err].
    + split; [exact Hs2|constructor].
    + destruct (Hopen _ eq_refl ltac:(by left)) as (calls & Hc & -> & Hm). done.
    + destruct (Hopen _ eq_refl ltac:(by right)) as (calls & Hc & -> & Hm). done.
    + split; [exact Hs2|constructor].
  - exists [CallWrite commit (Err (Fatal e))]. split; [done|constructor].
Qed.
End retry.

Section protocol.
Context {K W T : Type} `{Sink K W T} (env : nat → Select W).

Definition machine_of (pc : RetryPc) (s : RetryState (T := T)) : RetryPc * W * list (SinkCall T) * nat :=
  (pc, rs_world s, rs_calls s, rs_polls s).

Lemma machine_sleep sink commit source_id attempt max_attempts e (s : RetryState) :
  ∃ n, Nat.iter n (machine_step env sink commit max_attempts)
         (machine_of (sleep_or_fail attempt max_attempts e) s) =
       let '(a, s') := retry_or_fail env source_id attempt max_attempts e s in
       machine_of (match a with Some a => PDone a | None => PWrite (sat_add32 attempt 1) end) s'.
Proof.
  unfold retry_or_fail, sleep_or_fail. destruct (max_attempts <=? attempt); [by exists 0%nat|].
  exists 1%nat. simpl. unfold sleep_with_abort. by destruct (env (rs_polls s)); simpl; rewrite app_nil_r.
Qed.

Lemma machine_attempt sink commit source_id attempt max_attempts (s : RetryState) :
  ∃ n, Nat.iter n (machine_step env sink commit max_attempts) (machine_of (PWrite attempt) s) =
       let '(a, s') := attempt_once env sink commit source_id attempt max_attempts s in
       machine_of (match a with Some a => PDone a | None => PWrite (sat_add32 attempt 1) end) s'.
Proof.
  unfold attempt_once.
  assert (∀ x, machine_step env sink commit max_attempts x =
               Nat.iter 1 (machine_step env sink commit max_attempts) x) as Hone by done.
  assert (∀ n x y, machine_step env sink commit max_attempts x = y →
    Nat.iter (n + 1) (machine_step env sink commit max_attempts) x =
    Nat.iter n (machine_step env sink commit max_attempts) y) as Hthen
    by (intros n x y <-; by rewrite Nat.iter_add).
  destruct (env (rs_polls s)) as [slow|slow partial] eqn:Henv; cycle 1.
  { exists 1%nat. simpl. rewrite Henv. simpl. by rewrite app_nil_r. }
  assert (∀ r w, sink_write sink commit (rs_world s) = (w, r) →
    machine_step env sink commit max_attempts (machine_of (PWrite attempt) s) =
    machine_of (after_write attempt max_attempts r) (after_call w (CallWrite commit r) s)) as Hw.
  { intros r w Hr. simpl. rewrite Henv. simpl. by rewrite Hr. }
  destruct (sink_write sink commit (rs_world s)) as [w [r|[e|e|e]]]; specialize (Hw _ _ eq_refl).
  - by exists 1%nat.
  - destruct (machine_sleep sink commit source_id attempt max_attempts e
                (after_call w (CallWrite commit (Err (NotCommitted e))) s)) as [n Hn].
    exists (n + 1)%nat. by rewrite (Hthen _ _ _ Hw).
  - set (s1 := after_call w _ s) in *.
    destruct (env (rs_polls s1)) as [slow1|slow1 partial1] eqn:Henv1; cycle 1.
    { exists (1 + 1)%nat. rewrite (Hthen _ _ _ Hw). simpl. simpl in Henv1. rewrite Henv1. simpl.
      by rewrite app_nil_r. }
    destruct (check_committed sink (sc_identity commit) (rs_world s1)) as [w2 check] eqn:Hcheck.
    assert (machine_step env sink commit max_attempts (machine_of (PCheck attempt e) s1) =
            machine_of (after_check attempt max_attempts e check)
              (after_call w2 (CallCheck (sc_identity commit) check) s1)) as Hc.
    { unfold machine_of, machine_step. rewrite Henv1. simpl. simpl in Hcheck. by rewrite Hcheck. }
    set (s2 := after_call w2 _ s1) in *.
    destruct (machine_sleep sink commit source_id attempt max_attempts e s2) as [n Hn].
    destruct check as [[]|err]; [exists (1 + 1)%nat | exists (n + 1 + 1)%nat .. | exists (1 + 1)%nat];
      rewrite (Hthen _ _ _ Hw); simpl after_write; first [exact Hc | by rewrite (Hthen _ _ _ Hc)].
  - by exists 1%nat.
Qed.

Lemma machine_loop sink commit source_id max_attempts fuel : ∀ attempt (s : RetryState) a s',
  write_loop env fuel sink commit source_id attempt max_attempts s = (Some a, s') →
  ∃ n, Nat.iter n (machine_step env sink commit max_attempts) (machine_of (PWrite attempt) s) =
       machine_of (PDone a) s'.
Proof.
  induction fuel as [|fuel IH]; intros attempt s a s'; [done|]. cbn [write_loop].
  destruct (machine_attempt sink commit source_id attempt max_attempts s) as [n Hn].
  destruct (attempt_once env sink commit source_id attempt max_attempts s) as [[a1|] s1].
  - intros [= <- <-]. by exists n.
  - intros Hrun. destruct (IH _ _ _ _ Hrun) as [n' Hn']. exists (n' + n)%nat.
    by rewrite Nat.iter_add, Hn.
Qed.

(** C30: the pipeline's step machine runs the source's loop.  Resolved one
    await at a time, from the first write to the end, the machine reaches the
    result, the world and the calls of [write_with_retry]. *)
Theorem retry_machine_refines_loop (sink : K) (commit : SinkCommit T) (options : RuntimeOptions)
    (source_id : SourceId) (w : W) (m : RuntimeMetrics) (a : WriteAttempt) (s : RetryState)
    (Hrun : write_with_retry env sink commit options source_id (retry_start w m) = (Some a, s)) :
  ∃ n, Nat.iter n (machine_step env sink commit (effective_retry_max_attempts options))
         (PWrite 0, w, [], 0%nat) =
       (PDone a, rs_world s, rs_calls s, rs_polls s).
Proof. exact (machine_loop _ _ _ _ _ _ _ _ _ Hrun). Qed.

Lemma write_loop_spec sink commit source_id max_attempts fuel : ∀ attempt (s : RetryState (T := T)),
  is_u32 max_attempts → attempt ≤ max_attempts →
  (N.to_nat max_attempts - N.to_nat attempt < fuel)%nat →
  ∃ a s' opens calls,
    write_loop env fuel sink commit source_id attempt max_attempts s = (Some a, s') ∧
    rs_calls s' = rs_calls s ++ concat opens ++ calls ∧
    Forall (λ l, ∃ e, open_attempt commit e l) opens ∧
    attempt + N.of_nat (length opens) ≤ max_attempts ∧
    last_attempt env commit (max_attempts <=? attempt + N.of_nat (length opens)) calls a.
Proof.
  induction fuel as [|fuel IH]; intros attempt s Hu Hle Hfuel; [lia|]. cbn [write_loop].
  pose proof (attempt_once_spec env sink commit source_id attempt max_attempts s) as Hone.
  destruct (attempt_once env sink commit source_id attempt max_attempts s) as [[a|] s1];
    destruct Hone as (calls & Hcalls & Hlast); simpl in *.
  - exists a, s1, [], calls. simpl. rewrite N.add_0_r. split_and!; [done..|constructor|done|done].
  - destruct Hlast as (Hlt & e & Hopen).
    assert (sat_add32 attempt 1 = attempt + 1) as -> by (unfold sat_add32, is_u32 in *; lia).
    destruct (IH (attempt + 1) s1) as (a & s' & opens & calls' & Hrun & Hcs & Hall & Hn & Hla);
      [done|lia|lia|].
    exists a, s', (calls :: opens), calls'. split; [done|]. split.
    { simpl. rewrite Hcs, Hcalls. by rewrite <- !app_assoc. }
    split; [constructor; eauto|]. simpl length.
    replace (attempt + N.of_nat (S (length opens))) with (attempt + 1 + N.of_nat (length opens)) by lia.
    done.
Qed.

(** C15: the retry protocol.  [write_with_retry] always returns.  Its calls on
    the sink are a sequence of at most [max_attempts] attempts that left the
    outcome open, each a write of the very same commit that was not committed
    or was ambiguous and then checked by its identity without confirmation,
    followed by one deciding attempt that fixes the result and the metric
    label.  So every ambiguous write is resolved by a check before the next
    write, a retry re-issues the same identity, and success is reported only
    when the sink acknowledged the write or confirmed the commit. *)
Theorem write_with_retry_protocol (sink : K) (commit : SinkCommit T) (options : RuntimeOptions)
    (source_id : SourceId) (w : W) (m : RuntimeMetrics)
    (Hu : is_u32 (effective_retry_max_attempts options)) :
  let max_attempts := effective_retry_max_attempts options in
  ∃ a s opens calls,
    write_with_retry env sink commit options source_id (retry_start w m) = (Some a, s) ∧
    rs_calls s = concat opens ++ calls ∧
    Forall (λ l, ∃ e, open_attempt commit e l) opens ∧
    N.of_nat (length opens) ≤ max_attempts ∧
    last_attempt env commit (max_attempts <=? N.of_nat (length opens)) calls a.
Proof.
  intros max_attempts. destruct (write_loop_spec sink commit source_id max_attempts
    (S (N.to_nat max_attempts)) 0 (retry_start w m)) as (a & s & opens & calls & Hrun & Hcs & Hrest);
    [done|lia|lia|].
  exists a, s, opens, calls. by rewrite N.add_0_l in Hrest.
Qed.

Definition is_write (c : SinkCall T) : bool :=
  match c with CallWrite _ _ => true | CallCheck _ _ => false end.
Definition count_writes (calls : list (SinkCall T)) : nat := length (List.filter is_write calls).

Lemma open_attempt_writes commit e calls : open_attempt commit e calls → count_writes calls = 1%nat.
Proof. by destruct 1. Qed.

Lemma count_writes_app l1 l2 : count_writes (l1 ++ l2) = (count_writes l1 + count_writes l2)%nat.
Proof. unfold count_writes. by rewrite List.filter_app, length_app. Qed.

Lemma open_attempts_writes commit opens :
  Forall (λ l, ∃ e, open_attempt commit e l) opens → count_writes (concat opens) = length opens.
Proof.
  induction 1 as [|l opens [e Hl] _ IH]; simpl; [done|].
  by rewrite count_writes_app, IH, (open_attempt_writes _ _ _ Hl).
Qed.

(** The answers that make a range durable. *)
Definition confirms (c : SinkCall T) : bool :=
  match c with
  | CallWrite _ (Ok _) | CallCheck _ (Ok CSCommitted) => true
  | _ => false
  end.

Lemma open_attempts_unconfirmed commit opens :
  Forall (λ l, ∃ e, open_attempt commit e l) opens → existsb confirms (concat opens) = false.
Proof.
  induction 1 as [|l opens [e Hl] _ IH]; simpl; [done|].
  rewrite existsb_app, IH. by destruct Hl as [|st [-> | ->]].
Qed.

Lemma last_attempt_confirms commit b calls a :
  last_attempt env commit b calls a → existsb confirms calls = is_ok (wa_inner a).
Proof.
  destruct 1 as [r b|e b|e b|e err b|e calls Ho|b|e b|e calls _ Ho]; try done;
    by destruct Ho as [|st [-> | ->]].
Qed.

Definition success_outcome (o : SinkCommitOutcome) : bool :=
  match o with
  | OutcomeCommitted | OutcomeVerifiedAlreadyCommitted => true
  | OutcomeFailedRetryable | OutcomeFailedFatal => false
  end.

(** The verdict is honest and the budget exact.  In every run, aborted or
    not, the result is a success exactly when the sink confirmed the commit,
    by acknowledging a write or answering a check; the metric label agrees
    with the result; at most [max_attempts + 1] writes are issued; and the
    loop gives up on a retryable failure only after issuing all of them. *)
Theorem write_with_retry_verdict (sink : K) (commit : SinkCommit T) (options : RuntimeOptions)
    (source_id : SourceId) (w : W) (m : RuntimeMetrics)
    (Hu : is_u32 (effective_retry_max_attempts options)) :
  ∃ a s,
    write_with_retry env sink commit options source_id (retry_start w m) = (Some a, s) ∧
    is_ok (wa_inner a) = existsb confirms (rs_calls s) ∧
    success_outcome (wa_outcome a) = is_ok (wa_inner a) ∧
    N.of_nat (count_writes (rs_calls s)) ≤ effective_retry_max_attempts options + 1 ∧
    (wa_outcome a = OutcomeFailedRetryable →
     N.of_nat (count_writes (rs_calls s)) = effective_retry_max_attempts options + 1).
Proof.
  destruct (write_loop_spec sink commit source_id (effective_retry_max_attempts options)
    (S (N.to_nat (effective_retry_max_attempts options))) 0 (retry_start w m))
    as (a & s & opens & calls & Hrun & Hcs & Hall & Hn & Hlast); [done|lia|lia|].
  exists a, s. split; [done|]. simpl in Hcs. rewrite N.add_0_l in Hn, Hlast.
  rewrite Hcs, existsb_app, (open_attempts_unconfirmed commit), count_writes_app,
    (open_attempts_writes commit) by done.
  rewrite (last_attempt_confirms _ _ _ _ Hlast). split; [done|].
  split; [by destruct Hlast|].
  assert (count_writes calls ≤ 1)%nat as Hle.
  { destruct Hlast; try (cbn; lia); erewrite open_attempt_writes by done; lia. }
  split; [lia|]. intros Hout.
  destruct (N.leb_spec (effective_retry_max_attempts options) (N.of_nat (length opens))).
  - destruct Hlast; try done; erewrite open_attempt_writes by done; lia.
  - inversion Hlast; subst; done.
Qed.
End protocol.

(** ** The properties at work

    A sink whose world is the list of its next answers. *)

Record ScriptWorld := {
  sw_writes : list (result SinkCommitResult SinkCommitFailure);
  sw_checks : list CommitStatus;
}.
Definition written (rows : N) : SinkCommitResult := {| scr_bytes_written := 0; scr_rows_written := rows |}.

#[export] Instance ScriptSink : Sink unit ScriptWorld N := {
  sink_id _ := mkSinkId "script";
  write_budget _ := SinkBudget_default;
  sink_write _ _ w :=
    match sw_writes w with
    | a :: rest => ({| sw_writes := rest; sw_checks := sw_checks w |}, a)
    | [] => (w, Ok (written 0))
    end;
  check_committed _ _ w :=
    match sw_checks w with
    | st :: rest => ({| sw_writes := sw_writes w; sw_checks := rest |}, Ok st)
    | [] => (w, Ok CSUnknown)
    end;
}.

Definition demo_batch : DecodedBatch N := {|
  db_source := mkSourceId "logs-prod"; db_low_sequence := 4; db_high_sequence := 4;
  db_source_entry_count := 1; db_records := Typed 2;
  db_source_columns := {| scc_manifest_path := ""; scc_data_path := ""; scc_sequences := [4];
                          scc_entry_indices := [0]; scc_record_indices := [0];
                          scc_ingestion_time_ms := [0%Z] |};
  db_stats := {| source_byte_count := 0; decoded_byte_estimate := 0 |};
  db_schema_version := mkSchemaVersion 1 |}.
Definition demo_commit : SinkCommit N :=
  {| sc_identity := demo_identity 4 4; sc_batch := demo_batch |}.
Definition demo_script : ScriptWorld := {|
  sw_writes := [Err (NotCommitted (mkBoxError "refused")); Err (MaybeCommitted (mkBoxError "timeout"))];
  sw_checks := [CSCommitted] |}.

Lemma write_with_retry_protocol_witness :
  ∃ a s opens calls,
    write_with_retry (λ _, Proceed false) tt demo_commit RuntimeOptions_default (mkSourceId "logs-prod")
      (retry_start demo_script RuntimeMetrics_new) = (Some a, s) ∧
    rs_calls s = concat opens ++ calls ∧
    Forall (λ l, ∃ e, open_attempt demo_commit e l) opens ∧
    N.of_nat (length opens) ≤ 3 ∧
    last_attempt (λ _, @Proceed ScriptWorld false) demo_commit (3 <=? N.of_nat (length opens)) calls a.
Proof.
  apply (write_with_retry_protocol (λ _, Proceed false) tt demo_commit RuntimeOptions_default
           (mkSourceId "logs-prod") demo_script RuntimeMetrics_new).
  by vm_compute.
Defined.

Lemma write_with_retry_verdict_witness :
  ∃ a s,
    write_with_retry (λ _, Proceed false) tt demo_commit RuntimeOptions_default (mkSourceId "logs-prod")
      (retry_start demo_script RuntimeMetrics_new) = (Some a, s) ∧
    wa_outcome a = OutcomeVerifiedAlreadyCommitted ∧ is_ok (wa_inner a) = true ∧
    count_writes (rs_calls s) = 2%nat.
Proof.
  destruct (write_with_retry_verdict (λ _, Proceed false) tt demo_commit RuntimeOptions_default
    (mkSourceId "logs-prod") demo_script RuntimeMetrics_new) as (a & s & Hrun & _);
    [by vm_compute|].
  exists a, s. split; [exact Hrun|]. vm_compute in Hrun. by simplify_eq.
Defined.

Lemma retry_machine_refines_loop_witness :
  ∃ n a s, write_with_retry (λ _, Proceed false) tt demo_commit RuntimeOptions_default
             (mkSourceId "logs-prod") (retry_start demo_script RuntimeMetrics_new) = (Some a, s) ∧
    Nat.iter n (machine_step (λ _, Proceed false) tt demo_commit 3) (PWrite 0, demo_script, [], 0%nat) =
    (PDone a, rs_world s, rs_calls s, rs_polls s).
Proof.
  destruct (write_with_retry (λ _, Proceed false) tt demo_commit RuntimeOptions_default
    (mkSourceId "logs-prod") (retry_start demo_script RuntimeMetrics_new)) as [[a|] s] eqn:Hrun;
    [|by vm_compute in Hrun].
  destruct (retry_machine_refines_loop (λ _, Proceed false) tt demo_commit RuntimeOptions_default
    (mkSourceId "logs-prod") demo_script RuntimeMetrics_new a s Hrun) as [n Hn].
  exists n, a, s. split; [done|exact Hn].
Defined.
