(* ===== verification/Decode.v ===== *)
(** * The decode stage
    (runtime/opendata-ingest-runtime/src/runtime.rs, [decode_one] and
    [build_commit])

    [decode_one] turns a fetched batch into a commit, or into a dry-run report,
    and reconciles the unit's byte reservation to what the decoded batch really
    holds.  It is a computation over the reservation and the budget, so that
    what an error leaves behind is visible. *)

From Stdlib Require Import NArith Lia.
From S2P Require Import Prelude.
From S2P Require Import Types.
From S2P Require Import AckCoordinator.
From S2P Require Import ByteBudget.
From S2P Require Import Source.
From S2P Require Import Options.
Local Open Scope N_scope.

Section decode.
Context {D T : Type} `{TypedRecords T} `{Decoder D T}.

(** Post-decode bytes of the coordinate columns: the two paths, and
    [8 + 4 + 4 + 8] bytes a row. *)
Definition source_coords_bytes (coords : SourceCoordinateColumns) : N :=
  let strings := N.of_nat (String.length (scc_manifest_path coords)) +
                 N.of_nat (String.length (scc_data_path coords)) in
  let n := N.of_nat (length (scc_sequences coords)) in
  let per_row := 8 + 4 + 4 + 8 in
  wrap64 (strings + n * per_row).

Definition build_commit (sink_id : SinkId) (low high : N) (batch : DecodedBatch T) : SinkCommit T :=
  {| sc_identity := {| ci_source := db_source batch; ci_sink := sink_id;
                       ci_range := SequenceRange_new low high;
                       ci_schema_version := db_schema_version batch |};
     sc_batch := batch |}.

Inductive DecodeOutcome :=
| Live (commit : SinkCommit T) (range : N * N)
| DryRun (range : N * N) (rows_written : N).

Definition records_of (b : DecodedBatch T) : T := match db_records b with Typed t => t end.

(** [records.estimated_bytes() + source_coords_bytes(columns)]. *)
Definition actual_bytes (b : DecodedBatch T) : N :=
  wrapping_add64 (wrap64 (estimated_bytes (records_of b))) (source_coords_bytes (db_source_columns b)).

Definition fault_limit (bp : SourceBackpressureOptions) : N :=
  sat_mul64 (estimated_max_batch_bytes bp) (oversize_fault_multiplier bp).

(** The checks on the configured decoder's output, in order. *)
Definition decode_checked (decoder : D) (source_batch : SourceBatch) (admitted_sequence : N)
    : RuntimeResult (DecodedBatch T) :=
  let? _ :=
    match head (sb_entries source_batch) with
    | Some first =>
        if negb (accepts decoder (raw_metadata first))
        then Err (EDecoder (mkBoxError
                    "configured decoder rejected the source's per-entry metadata"))
        else Ok tt
    | None => Ok tt
    end in
  let? decoded_batches := decode decoder source_batch in
  match decoded_batches with
  | [] =>
      Err (EDecoder (mkBoxError "decoder returned empty Vec<DecodedBatch>; every source batch must produce at least one DecodedBatch (zero-record allowed) to keep admission contiguous (INV-ADMISSION-CONTIGUOUS)"))
  | _ :: _ :: _ =>
      Err (EDecoder (mkBoxError ("runtime expects one DecodedBatch per source batch; got " +:+
                                 show_nat (length decoded_batches))))
  | [decoded] =>
      let low := db_low_sequence decoded in
      let high := db_high_sequence decoded in
      if negb (low =? admitted_sequence) || negb (high =? admitted_sequence)
      then Err (EPipeline ("decoded range " +:+ show low +:+ "..=" +:+ show high +:+
             " does not match admitted sequence " +:+ show admitted_sequence +:+
             " (runtime contract: one DecodedBatch per source batch with low == high == descriptor.sequence)"))
      else Ok decoded
  end.

(** The oversize gate. *)
Definition oversize_gate (bp : SourceBackpressureOptions) (decoded : DecodedBatch T)
    : RuntimeResult unit :=
  let actual := actual_bytes decoded in
  let limit := fault_limit bp in
  if limit <? actual
  then Err (EPipeline ("oversize decoded batch: source range " +:+ show (db_low_sequence decoded) +:+
         "..=" +:+ show (db_high_sequence decoded) +:+ " actual_bytes=" +:+ show actual +:+
         " fault_limit=" +:+ show limit +:+ " (estimated_max_batch_bytes=" +:+
         show (estimated_max_batch_bytes bp) +:+ " × oversize_fault_multiplier=" +:+
         show (oversize_fault_multiplier bp) +:+ ")"))
  else Ok tt.

Definition decode_one (decoder : D) (options : RuntimeOptions) (sink_id : SinkId)
    (source_batch : SourceBatch) (admitted_sequence : N) (bp : SourceBackpressureOptions)
    : M (Reservation * Budget) RuntimeError DecodeOutcome :=
  decoded ← lift (decode_checked decoder source_batch admitted_sequence);
  lift (oversize_gate bp decoded) ;;
  modify (λ rb, reconcile (actual_bytes decoded) rb.1 rb.2) ;;
  let low := db_low_sequence decoded in
  let high := db_high_sequence decoded in
  let row_count := record_count (records_of decoded) in
  if dry_run options
  then mret (DryRun (low, high) row_count)
  else mret (Live (build_commit sink_id low high decoded) (low, high)).

(** ** Properties *)

Lemma decode_one_run decoder options sink_id batch seq bp rb :
  decode_one decoder options sink_id batch seq bp rb =
  match decode_checked decoder batch seq with
  | Err e => (rb, Err e)
  | Ok decoded =>
      match oversize_gate bp decoded with
      | Err e => (rb, Err e)
      | Ok _ =>
          (reconcile (actual_bytes decoded) rb.1 rb.2,
           Ok (if dry_run options
               then DryRun (db_low_sequence decoded, db_high_sequence decoded)
                      (record_count (records_of decoded))
               else Live (build_commit sink_id (db_low_sequence decoded) (db_high_sequence decoded) decoded)
                      (db_low_sequence decoded, db_high_sequence decoded)))
      end
  end.
Proof.
  unfold decode_one. rewrite run_bind. unfold lift at 1.
  destruct (decode_checked decoder batch seq) as [decoded|e]; [|done].
  rewrite run_bind. unfold lift at 1. destruct (oversize_gate bp decoded) as [[]|e]; [|done].
  rewrite run_bind. unfold modify. by destruct (dry_run options).
Qed.

(** The decoder's answer passes the checks exactly when it is one batch for
    exactly the admitted sequence. *)
Lemma decode_checked_ok decoder batch seq decoded :
  decode_checked decoder batch seq = Ok decoded ↔
  (∀ first, head (sb_entries batch) = Some first → accepts decoder (raw_metadata first) = true) ∧
  decode decoder batch = Ok [decoded] ∧ db_low_sequence decoded = seq ∧ db_high_sequence decoded = seq.
Proof.
  unfold decode_checked.
  set (gate := match head (sb_entries batch) with Some _ => _ | None => _ end).
  assert (gate = Ok tt ↔ ∀ first, head (sb_entries batch) = Some first →
            accepts decoder (raw_metadata first) = true) as Hgate.
  { unfold gate. destruct (head (sb_entries batch)) as [first|]; [|done].
    destruct (accepts decoder (raw_metadata first)) eqn:Ha; simpl; [naive_solver|].
    split; [done|]. intros Hall. specialize (Hall first eq_refl). congruence. }
  rewrite <- Hgate. clear Hgate. clearbody gate.
  destruct gate as [[]|e]; cycle 1.
  { split; [by intros | by intros ([=] & _)]. }
  destruct (decode decoder batch) as [[|d [|d2 ds]]|e];
    try (split; [by intros | by intros (_ & [=] & _)]).
  destruct (N.eqb_spec (db_low_sequence d) seq) as [Hl|Hl],
    (N.eqb_spec (db_high_sequence d) seq) as [Hh|Hh]; simpl;
    (split; [intros ?; by simplify_eq | intros (_ & [= ->] & Hl' & Hh'); congruence]).
Qed.

Lemma oversize_gate_ok bp decoded :
  oversize_gate bp decoded = Ok tt ↔ actual_bytes decoded ≤ fault_limit bp.
Proof.
  unfold oversize_gate. destruct (N.ltb_spec (fault_limit bp) (actual_bytes decoded)); [|done].
  split; [done|lia].
Qed.

(** C35: the decode stage is total and its verdict exact.  It accepts a batch
    exactly when the decoder accepts its metadata and returns one batch for
    exactly the admitted sequence, within the oversize limit.  Then the unit's
    reservation holds the batch's actual bytes, at most the limit, and the
    commit carries the decoded batch under the identity made of its source,
    the sink, the admitted sequence and the schema version; a dry run reports
    the decoded row count.  On an error the reservation and the budget are
    untouched. *)
Theorem decode_one_verdict (decoder : D) (options : RuntimeOptions) (sink_id : SinkId)
    (batch : SourceBatch) (seq : N) (bp : SourceBackpressureOptions) (r : Reservation) (b : Budget) :
  match decode_one decoder options sink_id batch seq bp (r, b) with
  | ((r', b'), Ok outcome) =>
      ∃ decoded,
        (∀ first, head (sb_entries batch) = Some first → accepts decoder (raw_metadata first) = true) ∧
        decode decoder batch = Ok [decoded] ∧
        db_low_sequence decoded = seq ∧ db_high_sequence decoded = seq ∧
        held r' = actual_bytes decoded ∧ held r' ≤ fault_limit bp ∧ stage r' = stage r ∧
        outcome =
          if dry_run options then DryRun (seq, seq) (record_count (records_of decoded))
          else Live {| sc_identity := {| ci_source := db_source decoded; ci_sink := sink_id;
                                         ci_range := SequenceRange_new seq seq;
                                         ci_schema_version := db_schema_version decoded |};
                       sc_batch := decoded |} (seq, seq)
  | (rb', Err _) =>
      rb' = (r, b) ∧
      ∀ decoded, decode decoder batch = Ok [decoded] →
        db_low_sequence decoded = seq → db_high_sequence decoded = seq →
        (∀ first, head (sb_entries batch) = Some first → accepts decoder (raw_metadata first) = true) →
        fault_limit bp < actual_bytes decoded
  end.
Proof.
  rewrite decode_one_run.
  pose proof (decode_checked_ok decoder batch seq) as Hok.
  destruct (decode_checked decoder batch seq) as [decoded|e].
  - pose proof (proj1 (Hok decoded) eq_refl) as (Hacc & Hdec & Hlow & Hhigh).
    destruct (oversize_gate bp decoded) as [[]|e] eqn:Hgate.
    + apply oversize_gate_ok in Hgate.
      assert (held (reconcile (actual_bytes decoded) r b).1 = actual_bytes decoded ∧
              stage (reconcile (actual_bytes decoded) r b).1 = stage r) as [Hheld Hstage].
      { unfold reconcile. destruct (N.eqb_spec (actual_bytes decoded) (held r)); [done|].
        by destruct (actual_bytes decoded <? held r). }
      simpl. destruct (reconcile (actual_bytes decoded) r b) as [r' b']; simpl in *.
      exists decoded. rewrite Hheld. split_and!; try done. rewrite Hlow, Hhigh.
      unfold build_commit. done.
    + split; [done|]. intros d Hd _ _ _. rewrite Hdec in Hd. simplify_eq.
      apply N.lt_nge. intros Hle. apply oversize_gate_ok in Hle. congruence.
  - split; [done|]. intros d Hd Hl Hh Hacc. exfalso.
    assert (Err e = Ok d) by (apply Hok; done). done.
Qed.
End decode.

Arguments DecodeOutcome : clear implicits.
