(* ===== verification/Pipeline.v ===== *)
(** * The pipelined runtime
    (runtime/opendata-ingest-runtime/src/runtime.rs: [Runtime::run],
    [per_source_actor], [fetch_worker], [decode_worker], [writer_worker])

    The running system as a machine.  Every task is a program counter with the
    values it owns; a task moves from one await to the next in one step
    ([exec]), and the scheduler, which picks the task, and the environment,
    which says how an await resolves, are the events.  Channels are bounded
    queues whose ends close when the tasks that hold them are gone.

    The awaits inside the actor's completion arm ([ack_through], [flush_acks])
    act on the buffer's manifest, which no other task writes; the arm is one
    step.  The admission arm is split at its awaits: the gate, the manifest
    read, each send, the poll sleep.  Metric emission is in
    [PipelineMetrics]; the test hooks are left out. *)

From Stdlib Require Import NArith Lia.
From S2P Require Import Prelude.
From S2P Require Import BTree.
From S2P Require Import Types.
From S2P Require Import AckCoordinator.
From S2P Require Import ByteBudget.
From S2P Require Import Source.
From S2P Require Import Options.
From S2P Require Import Metrics.
From S2P Require Import WriteRetry.
From S2P Require Import Decode.
Local Open Scope N_scope.

(** ** Units and channel envelopes *)

(** One slot of the batch semaphore. *)
Inductive Permit := batch_slot.

Record AdmissionGate := {
  ag_permit : Permit;
  ag_reservation : Reservation;
}.

Record AdmittedDescriptor := {
  ad_descriptor : SourceBatchDescriptor;
  ad_reservation : Reservation;
  ad_permit : Permit;
}.

Record FetchedBatch := {
  fb_batch : SourceBatch;
  fb_reservation : Reservation;
  fb_permit : Permit;
  fb_sequence : N;
}.

Record CommittedReport := {
  rep_range : N * N;
  rep_rows_written : N;
}.

Inductive WriteCompletion :=
| WCCommitted (report : CommittedReport)
| WCFatal (e : RuntimeError).

Record SinkCommitEnvelope (T : Type) := {
  sce_commit : SinkCommit T;
  sce_range : N * N;
  sce_reservation : Reservation;
  sce_permit : Permit;
}.
Arguments sce_commit {T}. Arguments sce_range {T}. Arguments sce_reservation {T}.
Arguments sce_permit {T}. Arguments Build_SinkCommitEnvelope {T}.

(** The stage counters of [StageInflightBytes]. *)
Definition stage_source : StageLoc := 0.
Definition stage_fetch : StageLoc := 1.
Definition stage_decode : StageLoc := 2.
Definition stage_sink_dispatch : StageLoc := 3.

(** ** Tasks *)

Inductive ActorPc :=
| ALoop
| APolling (gates : list AdmissionGate)
| ASleeping
| ASending (units : list (SourceBatchDescriptor * AdmissionGate))
| ADone (r : RuntimeResult unit).

(** A worker that reports holds its unit until the message is sent; one that
    finishes holds it until the next step drops it. *)
Inductive FetchPc :=
| FIdle
| FFetching (a : AdmittedDescriptor)
| FSending (b : FetchedBatch)
| FReporting (e : RuntimeError) (r : Reservation) (p : Permit)
| FExited.

Inductive DecodePc (T : Type) :=
| DIdle
| DDecoding (b : FetchedBatch)
| DSending (e : SinkCommitEnvelope T) (seq : N)
| DReporting (msg : WriteCompletion) (r : Reservation) (p : Permit)
| DFinishing (r : Reservation) (p : Permit)
| DExited.
Arguments DIdle {T}. Arguments DDecoding {T} b. Arguments DSending {T} e seq.
Arguments DReporting {T} msg r p. Arguments DFinishing {T} r p. Arguments DExited {T}.

Inductive WritePc (T : Type) :=
| WIdle
| WWriting (e : SinkCommitEnvelope T) (pc : RetryPc)
| WReporting (msg : WriteCompletion) (r : Reservation) (p : Permit)
| WFinishing (r : Reservation) (p : Permit)
| WExited.
Arguments WIdle {T}. Arguments WWriting {T} e pc. Arguments WReporting {T} msg r p.
Arguments WFinishing {T} r p. Arguments WExited {T}.

(** ** The observable events of a run *)

Inductive TraceEvent (T : Type) :=
| TrAdmit (sequence : N)
| TrCall (c : SinkCall T)
| TrAck (sequence : N)
| TrFlush (durable : bool).
Arguments TrAdmit {T} sequence. Arguments TrCall {T} c. Arguments TrAck {T} sequence.
Arguments TrFlush {T} durable.

Section pipeline.
Context {C F W1 D K W2 T : Type}.
Context `{Consumer C F W1} `{TypedRecords T} `{Decoder D T} `{Sink K W2 T}.

(** What a run is configured with. *)
Record Config := {
  cf_options : RuntimeOptions;
  cf_decoder : D;
  cf_sink : K;
  cf_handle : BufferSourceFetchHandle F;
  cf_source_id : SourceId;
}.

(** The actor's locals. *)
Record Actor := {
  a_source : BufferSource C F;
  a_coordinator : AckCoordinator;
  a_progress : RuntimeProgress;
  a_last_ack_sent : option N;
  a_groups_since_flush : N;
  a_in_flight : N;
  a_admission_open : bool;
  a_pc : ActorPc;
}.

(** What the tasks share. *)
Record Shared := {
  s_w1 : W1;
  s_w2 : W2;
  s_budget : Budget;
  s_permits : N;
  s_shutdown : bool;
  s_abort : bool;
  s_descriptors : list AdmittedDescriptor;
  s_descriptors_closed : bool;
  s_fetched : list FetchedBatch;
  s_commits : list (SinkCommitEnvelope T);
  s_completions : list WriteCompletion;
  s_trace : list (TraceEvent T);
}.

Record Sys := {
  sy_actor : Actor;
  sy_shared : Shared;
  sy_fetchers : list FetchPc;
  sy_decoders : list (DecodePc T);
  sy_writers : list (WritePc T);
}.

(** *** Record updates *)

Definition with_source (x : BufferSource C F) (a : Actor) : Actor := {|
  a_source := x; a_coordinator := a_coordinator a; a_progress := a_progress a;
  a_last_ack_sent := a_last_ack_sent a; a_groups_since_flush := a_groups_since_flush a;
  a_in_flight := a_in_flight a; a_admission_open := a_admission_open a; a_pc := a_pc a |}.
Definition with_coordinator (x : AckCoordinator) (a : Actor) : Actor := {|
  a_source := a_source a; a_coordinator := x; a_progress := a_progress a;
  a_last_ack_sent := a_last_ack_sent a; a_groups_since_flush := a_groups_since_flush a;
  a_in_flight := a_in_flight a; a_admission_open := a_admission_open a; a_pc := a_pc a |}.
Definition with_progress (x : RuntimeProgress) (a : Actor) : Actor := {|
  a_source := a_source a; a_coordinator := a_coordinator a; a_progress := x;
  a_last_ack_sent := a_last_ack_sent a; a_groups_since_flush := a_groups_since_flush a;
  a_in_flight := a_in_flight a; a_admission_open := a_admission_open a; a_pc := a_pc a |}.
Definition with_last_ack (x : option N) (a : Actor) : Actor := {|
  a_source := a_source a; a_coordinator := a_coordinator a; a_progress := a_progress a;
  a_last_ack_sent := x; a_groups_since_flush := a_groups_since_flush a;
  a_in_flight := a_in_flight a; a_admission_open := a_admission_open a; a_pc := a_pc a |}.
Definition with_groups (x : N) (a : Actor) : Actor := {|
  a_source := a_source a; a_coordinator := a_coordinator a; a_progress := a_progress a;
  a_last_ack_sent := a_last_ack_sent a; a_groups_since_flush := x;
  a_in_flight := a_in_flight a; a_admission_open := a_admission_open a; a_pc := a_pc a |}.
Definition with_in_flight (x : N) (a : Actor) : Actor := {|
  a_source := a_source a; a_coordinator := a_coordinator a; a_progress := a_progress a;
  a_last_ack_sent := a_last_ack_sent a; a_groups_since_flush := a_groups_since_flush a;
  a_in_flight := x; a_admission_open := a_admission_open a; a_pc := a_pc a |}.
Definition with_open (x : bool) (a : Actor) : Actor := {|
  a_source := a_source a; a_coordinator := a_coordinator a; a_progress := a_progress a;
  a_last_ack_sent := a_last_ack_sent a; a_groups_since_flush := a_groups_since_flush a;
  a_in_flight := a_in_flight a; a_admission_open := x; a_pc := a_pc a |}.
Definition with_pc (x : ActorPc) (a : Actor) : Actor := {|
  a_source := a_source a; a_coordinator := a_coordinator a; a_progress := a_progress a;
  a_last_ack_sent := a_last_ack_sent a; a_groups_since_flush := a_groups_since_flush a;
  a_in_flight := a_in_flight a; a_admission_open := a_admission_open a; a_pc := x |}.

Definition with_w1 (x : W1) (s : Shared) : Shared := {|
  s_w1 := x; s_w2 := s_w2 s; s_budget := s_budget s; s_permits := s_permits s;
  s_shutdown := s_shutdown s; s_abort := s_abort s; s_descriptors := s_descriptors s;
  s_descriptors_closed := s_descriptors_closed s; s_fetched := s_fetched s;
  s_commits := s_commits s; s_completions := s_completions s; s_trace := s_trace s |}.
Definition with_w2 (x : W2) (s : Shared) : Shared := {|
  s_w1 := s_w1 s; s_w2 := x; s_budget := s_budget s; s_permits := s_permits s;
  s_shutdown := s_shutdown s; s_abort := s_abort s; s_descriptors := s_descriptors s;
  s_descriptors_closed := s_descriptors_closed s; s_fetched := s_fetched s;
  s_commits := s_commits s; s_completions := s_completions s; s_trace := s_trace s |}.
Definition with_capacity (b : Budget) (permits : N) (s : Shared) : Shared := {|
  s_w1 := s_w1 s; s_w2 := s_w2 s; s_budget := b; s_permits := permits;
  s_shutdown := s_shutdown s; s_abort := s_abort s; s_descriptors := s_descriptors s;
  s_descriptors_closed := s_descriptors_closed s; s_fetched := s_fetched s;
  s_commits := s_commits s; s_completions := s_completions s; s_trace := s_trace s |}.
Definition with_tokens (shutdown abort : bool) (s : Shared) : Shared := {|
  s_w1 := s_w1 s; s_w2 := s_w2 s; s_budget := s_budget s; s_permits := s_permits s;
  s_shutdown := shutdown; s_abort := abort; s_descriptors := s_descriptors s;
  s_descriptors_closed := s_descriptors_closed s; s_fetched := s_fetched s;
  s_commits := s_commits s; s_completions := s_completions s; s_trace := s_trace s |}.
Definition with_descriptors (q : list AdmittedDescriptor) (closed : bool) (s : Shared) : Shared := {|
  s_w1 := s_w1 s; s_w2 := s_w2 s; s_budget := s_budget s; s_permits := s_permits s;
  s_shutdown := s_shutdown s; s_abort := s_abort s; s_descriptors := q;
  s_descriptors_closed := closed; s_fetched := s_fetched s;
  s_commits := s_commits s; s_completions := s_completions s; s_trace := s_trace s |}.
Definition with_fetched (q : list FetchedBatch) (s : Shared) : Shared := {|
  s_w1 := s_w1 s; s_w2 := s_w2 s; s_budget := s_budget s; s_permits := s_permits s;
  s_shutdown := s_shutdown s; s_abort := s_abort s; s_descriptors := s_descriptors s;
  s_descriptors_closed := s_descriptors_closed s; s_fetched := q;
  s_commits := s_commits s; s_completions := s_completions s; s_trace := s_trace s |}.
Definition with_commits (q : list (SinkCommitEnvelope T)) (s : Shared) : Shared := {|
  s_w1 := s_w1 s; s_w2 := s_w2 s; s_budget := s_budget s; s_permits := s_permits s;
  s_shutdown := s_shutdown s; s_abort := s_abort s; s_descriptors := s_descriptors s;
  s_descriptors_closed := s_descriptors_closed s; s_fetched := s_fetched s;
  s_commits := q; s_completions := s_completions s; s_trace := s_trace s |}.
Definition with_completions (q : list WriteCompletion) (s : Shared) : Shared := {|
  s_w1 := s_w1 s; s_w2 := s_w2 s; s_budget := s_budget s; s_permits := s_permits s;
  s_shutdown := s_shutdown s; s_abort := s_abort s; s_descriptors := s_descriptors s;
  s_descriptors_closed := s_descriptors_closed s; s_fetched := s_fetched s;
  s_commits := s_commits s; s_completions := q; s_trace := s_trace s |}.
Definition log (tr : list (TraceEvent T)) (s : Shared) : Shared := {|
  s_w1 := s_w1 s; s_w2 := s_w2 s; s_budget := s_budget s; s_permits := s_permits s;
  s_shutdown := s_shutdown s; s_abort := s_abort s; s_descriptors := s_descriptors s;
  s_descriptors_closed := s_descriptors_closed s; s_fetched := s_fetched s;
  s_commits := s_commits s; s_completions := s_completions s; s_trace := s_trace s ++ tr |}.

Definition on_shared (f : Shared → Shared) (s : Sys) : Sys := {|
  sy_actor := sy_actor s; sy_shared := f (sy_shared s); sy_fetchers := sy_fetchers s;
  sy_decoders := sy_decoders s; sy_writers := sy_writers s |}.
Definition on_actor (f : Actor → Actor) (s : Sys) : Sys := {|
  sy_actor := f (sy_actor s); sy_shared := sy_shared s; sy_fetchers := sy_fetchers s;
  sy_decoders := sy_decoders s; sy_writers := sy_writers s |}.
Definition set_fetcher (i : nat) (pc : FetchPc) (s : Sys) : Sys := {|
  sy_actor := sy_actor s; sy_shared := sy_shared s; sy_fetchers := <[i := pc]> (sy_fetchers s);
  sy_decoders := sy_decoders s; sy_writers := sy_writers s |}.
Definition set_decoder (i : nat) (pc : DecodePc T) (s : Sys) : Sys := {|
  sy_actor := sy_actor s; sy_shared := sy_shared s; sy_fetchers := sy_fetchers s;
  sy_decoders := <[i := pc]> (sy_decoders s); sy_writers := sy_writers s |}.
Definition set_writer (i : nat) (pc : WritePc T) (s : Sys) : Sys := {|
  sy_actor := sy_actor s; sy_shared := sy_shared s; sy_fetchers := sy_fetchers s;
  sy_decoders := sy_decoders s; sy_writers := <[i := pc]> (sy_writers s) |}.

(** ** Configuration of a run *)

Context (cf : Config).

Definition bp : SourceBackpressureOptions := backpressure_for (cf_options cf) (cf_source_id cf).
(** The channel depth and the number of batch permits:
    [max_inflight_batches.max(1)]. *)
Definition channel_depth : N := N.max (max_inflight_batches bp) 1.
Definition has_room {A} (q : list A) : bool := N.of_nat (length q) <? channel_depth.

(** A unit is dropped: its reservation and its permit are released. *)
Definition release (r : Reservation) (s : Shared) : Shared :=
  with_capacity (drop_reservation r (s_budget s)) (s_permits s + 1) s.
Definition release_all (rs : list Reservation) (s : Shared) : Shared :=
  foldl (λ s r, release r s) s rs.

(** A reservation moves to a stage. *)
Definition enter_stage (l : StageLoc) (r : Reservation) (s : Shared) : Reservation * Shared :=
  let '(r', b) := attach_stage l r (s_budget s) in (r', with_capacity b (s_permits s) s).

(** *** Ends of the channels *)

Definition actor_done (s : Sys) : bool := match a_pc (sy_actor s) with ADone _ => true | _ => false end.
Definition fetch_exited (pc : FetchPc) : bool := match pc with FExited => true | _ => false end.
Definition decode_exited (pc : DecodePc T) : bool := match pc with DExited => true | _ => false end.
Definition write_exited (pc : WritePc T) : bool := match pc with WExited => true | _ => false end.
Definition fetchers_gone (s : Sys) : bool := forallb fetch_exited (sy_fetchers s).
Definition decoders_gone (s : Sys) : bool := forallb decode_exited (sy_decoders s).
Definition writers_gone (s : Sys) : bool := forallb write_exited (sy_writers s).

(** A channel is closed when it was closed by hand or when one of its ends has
    no holder left. *)
Definition descriptors_closed (s : Sys) : bool :=
  s_descriptors_closed (sy_shared s) || actor_done s || fetchers_gone s.
Definition fetched_closed (s : Sys) : bool := fetchers_gone s || decoders_gone s.
Definition commits_closed (s : Sys) : bool := decoders_gone s || writers_gone s.
Definition completion_senders_gone (s : Sys) : bool :=
  fetchers_gone s && decoders_gone s && writers_gone s.

(** ** The actor *)

Definition source_err (msg : string) : RuntimeError := EPipeline msg.
Definition finish (r : RuntimeResult unit) (s : Sys) : Sys := on_actor (with_pc (ADone r)) s.

(** *** Admission *)

(** [admission_attempt], when it resolves: one permit, then the pessimistic
    reservation. *)
Definition admission_attempt (s : Shared) : option (AdmissionGate * Shared) :=
  if 0 <? s_permits s
  then
    match reserve (estimated_max_batch_bytes bp) (s_budget s) with
    | (Some r, b) =>
        Some ({| ag_permit := batch_slot; ag_reservation := r |}, with_capacity b (s_permits s - 1) s)
    | (None, _) => None
    end
  else None.

(** The advisory target of the cycle, computed after the first gate. *)
Definition k_target (s : Shared) : N :=
  let estimated := N.max (estimated_max_batch_bytes bp) 1 in
  let room_bytes := capacity (s_budget s) - in_flight (s_budget s) in
  let room_units := room_bytes / estimated in
  N.min (N.min (N.max (max_descriptors_per_poll (cf_options cf)) 1)
               (sat_add64 1 (s_permits s)))
        (sat_add64 1 room_units).

(** The opportunistic extension of the gates. *)
Fixpoint extend_gates (n : nat) (gates : list AdmissionGate) (s : Shared)
    : list AdmissionGate * Shared :=
  match n with
  | O => (gates, s)
  | S n =>
      if 0 <? s_permits s
      then
        match try_reserve (estimated_max_batch_bytes bp) (s_budget s) with
        | (None, _) => (gates, s)
        | (Some extra, b) =>
            let '(extra, s) := enter_stage stage_source extra (with_capacity b (s_permits s - 1) s) in
            extend_gates n (gates ++ [{| ag_permit := batch_slot; ag_reservation := extra |}]) s
        end
      else (gates, s)
  end.

(** The synchronous part of the arm before the manifest read. *)
Definition open_gates (g : AdmissionGate) (s : Shared) : list AdmissionGate * Shared :=
  let '(r, s) := enter_stage stage_source (ag_reservation g) s in
  extend_gates (N.to_nat (k_target s - 1)) [{| ag_permit := ag_permit g; ag_reservation := r |}] s.

(** The register-all pass. *)
Definition register_one (d : SourceBatchDescriptor) : M Sys RuntimeError unit :=
  let seq := sbd_sequence d in
  zoom (λ s, a_coordinator (sy_actor s)) (λ c, on_actor (with_coordinator c)) (register_pending seq seq) ;;
  modify (on_shared (log [TrAdmit seq])) ;;
  modify (λ s, on_actor (with_in_flight (sat_add64 (a_in_flight (sy_actor s)) 1)) s).

(** The manifest read resolves: poll, truncate, register. *)
Definition poll_descriptors (gates : list AdmissionGate) (s : Sys) : Sys :=
  let a := sy_actor s in
  let '((src, w1), polled) :=
    next_descriptors (length gates) SourceBudget_default (a_source a, s_w1 (sy_shared s)) in
  let s := on_shared (with_w1 w1) (on_actor (with_source src) s) in
  let drop_gates gs s := on_shared (release_all (ag_reservation <$> gs)) s in
  match polled with
  | Err e => drop_gates gates (finish (Err e) s)
  | Ok [] => drop_gates gates (on_actor (with_pc ASleeping) s)
  | Ok descriptors =>
      let admitted := length descriptors in
      let s := drop_gates (drop admitted gates) s in
      let gates := take admitted gates in
      match for_each descriptors register_one s with
      | (s, Ok _) => on_actor (with_pc (ASending (zip descriptors gates))) s
      | (s, Err e) => drop_gates gates (finish (Err e) s)
      end
  end.

(** One iteration of the send-all pass; [None] while the channel is full. *)
Definition send_descriptor (u : SourceBatchDescriptor * AdmissionGate)
    (rest : list (SourceBatchDescriptor * AdmissionGate)) (s : Sys) : option Sys :=
  let '(d, g) := u in
  if descriptors_closed s
  then Some (on_shared (release_all ((λ x, ag_reservation x.2) <$> (u :: rest)))
               (finish (Err (EPipeline ("descriptor lost: source=" +:+
                  SourceId_display (cf_source_id cf) +:+ " seq=" +:+ show (sbd_sequence d) +:+
                  " cause=worker-stage-closed"))) s))
  else if has_room (s_descriptors (sy_shared s))
  then
    let unit := {| ad_descriptor := d; ad_reservation := ag_reservation g; ad_permit := ag_permit g |} in
    Some (on_actor (with_pc (ASending rest))
           (on_shared (λ sh, with_descriptors (s_descriptors sh ++ [unit]) (s_descriptors_closed sh) sh) s))
  else None.

(** *** Completion *)

Definition should_flush (policy : AckFlushPolicy) (groups_since_flush : N) : bool :=
  match policy with
  | EveryCommitGroup => true
  | EveryN n => N.max n 1 <=? groups_since_flush
  end.

(** A method of the source, on the actor's source and its world. *)
Definition on_source {A} (m : M (BufferSource C F * W1) RuntimeError A) : M Sys RuntimeError A :=
  zoom (λ s, (a_source (sy_actor s), s_w1 (sy_shared s)))
       (λ x s, on_shared (with_w1 x.2) (on_actor (with_source x.1) s)) m.

Definition flush_logged : M Sys RuntimeError unit := λ s,
  match on_source flush_acks s with
  | (s, Ok _) => (on_shared (log [TrFlush true]) s, Ok tt)
  | (s, Err e) => (on_shared (log [TrFlush false]) s, Err e)
  end.

(** The ack block of the completion arm, for a frontier [f] that must be
    acknowledged. *)
Definition ack_frontier (f : N) : M Sys RuntimeError unit :=
  modify (on_shared (log [TrAck f])) ;;
  on_source (ack_through f) ;;
  modify (λ s, on_actor (with_last_ack (Some f)) s) ;;
  modify (λ s, on_actor (with_groups (sat_add32 (a_groups_since_flush (sy_actor s)) 1)) s) ;;
  s ← get;
  when (should_flush (ack_flush_policy (cf_options cf)) (a_groups_since_flush (sy_actor s)))
    (flush_logged ;; modify (on_actor (with_groups 0))) ;;
  modify (λ s, on_actor (λ a, with_progress
    {| batches_read := batches_read (a_progress a);
       source_ranges_committed := source_ranges_committed (a_progress a);
       records_written := records_written (a_progress a);
       last_decoded_sequence := last_decoded_sequence (a_progress a);
       progress_last_acked := Some f;
       pending_ranges_total := pending_ranges_total (a_progress a) |} a) s).

Definition should_ack (last_ack_sent : option N) (f : N) : bool :=
  match last_ack_sent with Some prev => prev <? f | None => true end.

Definition count_commit (report : CommittedReport) (p : RuntimeProgress) : RuntimeProgress := {|
  batches_read := sat_add64 (batches_read p) 1;
  source_ranges_committed := sat_add64 (source_ranges_committed p) 1;
  records_written := sat_add64 (records_written p) (rep_rows_written report);
  last_decoded_sequence := Some (rep_range report).2;
  progress_last_acked := progress_last_acked p;
  pending_ranges_total := pending_ranges_total p |}.

Definition sample_pending (a : Actor) : Actor :=
  with_progress
    {| batches_read := batches_read (a_progress a);
       source_ranges_committed := source_ranges_committed (a_progress a);
       records_written := records_written (a_progress a);
       last_decoded_sequence := last_decoded_sequence (a_progress a);
       progress_last_acked := progress_last_acked (a_progress a);
       pending_ranges_total := pending_count (a_coordinator a) |} a.

Definition on_committed (report : CommittedReport) : M Sys RuntimeError unit :=
  let '(low, high) := rep_range report in
  zoom (λ s, a_coordinator (sy_actor s)) (λ c, on_actor (with_coordinator c)) (mark_committed low high) ;;
  modify (λ s, on_actor (with_coordinator (advance_frontier (a_coordinator (sy_actor s)))) s) ;;
  modify (λ s, on_actor (with_in_flight (wrapping_sub64 (a_in_flight (sy_actor s)) 1)) s) ;;
  modify (λ s, on_actor (with_progress (count_commit report (a_progress (sy_actor s)))) s) ;;
  s ← get;
  match frontier (a_coordinator (sy_actor s)) with
  | Some f =>
      when (negb (dry_run (cf_options cf)) && should_ack (a_last_ack_sent (sy_actor s)) f)
        (ack_frontier f)
  | None => mret tt
  end ;;
  modify (on_actor sample_pending).

Definition completion_arm (s : Sys) : option Sys :=
  match s_completions (sy_shared s) with
  | WCCommitted report :: rest =>
      let s := on_shared (with_completions rest) s in
      match on_committed report s with
      | (s, Ok _) => Some s
      | (s, Err e) => Some (finish (Err e) s)
      end
  | WCFatal e :: rest => Some (finish (Err e) (on_shared (with_completions rest) s))
  | [] =>
      if completion_senders_gone s
      then Some (finish (Err (EPipeline ("internal worker exited with " +:+
                   show (a_in_flight (sy_actor s)) +:+ " in-flight unit(s) on source " +:+
                   SourceId_display (cf_source_id cf)))) s)
      else None
  end.

(** *** The loop *)

(** What one poll of the [select!] sees of each arm.  The arms are polled in
    order while other tasks run, so an arm may become ready right after it was
    seen pending, and never the other way round. *)
Record Polls := {
  saw_abort : bool;
  saw_shutdown : bool;
  saw_completion : bool;
  saw_gate : bool;
}.

Inductive Arm := ArmAbort | ArmShutdown | ArmCompletion | ArmAdmission.

(** The biased [select!] with its guards. *)
Definition select_arm (a : Actor) (p : Polls) : option Arm :=
  if saw_abort p then Some ArmAbort
  else if saw_shutdown p && a_admission_open a then Some ArmShutdown
  else if saw_completion p && (0 <? a_in_flight a) then Some ArmCompletion
  else if saw_gate p && a_admission_open a then Some ArmAdmission
  else None.

Definition actor_select (p : Polls) (s : Sys) : option Sys :=
  match select_arm (sy_actor s) p with
  | Some ArmAbort =>
      if s_abort (sy_shared s)
      then Some (finish (Err (EPipeline ("hard abort on source " +:+
                   SourceId_display (cf_source_id cf)))) s)
      else None
  | Some ArmShutdown =>
      if s_shutdown (sy_shared s)
      then Some (on_shared (λ sh, with_descriptors (s_descriptors sh) true sh) (on_actor (with_open false) s))
      else None
  | Some ArmCompletion => completion_arm s
  | Some ArmAdmission =>
      match admission_attempt (sy_shared s) with
      | Some (g, sh) =>
          let '(gates, sh) := open_gates g sh in
          Some (on_shared (λ _, sh) (on_actor (with_pc (APolling gates)) s))
      | None => None
      end
  | None => None
  end.

(** After the loop: the last flush and the last progress sample. *)
Definition drain_finish (s : Sys) : Sys :=
  match (if negb (dry_run (cf_options cf)) then flush_logged s else (s, Ok tt)) with
  | (s, Ok _) => finish (Ok tt) (on_actor sample_pending s)
  | (s, Err e) => finish (Err e) s
  end.

Definition actor_step (p : Polls) (s : Sys) : option Sys :=
  match a_pc (sy_actor s) with
  | ALoop =>
      if negb (a_admission_open (sy_actor s)) && (a_in_flight (sy_actor s) =? 0)
      then Some (drain_finish s)
      else actor_select p s
  | APolling gates => Some (poll_descriptors gates s)
  | ASleeping => Some (on_actor (with_pc ALoop) s)
  | ASending [] => Some (on_actor (with_pc ALoop) s)
  | ASending (u :: rest) => send_descriptor u rest s
  | ADone _ => None
  end.

(** ** Workers *)

(** The send of a completion: [None] while the channel is full, [Some false]
    when the actor is gone. *)
Definition send_completion (msg : WriteCompletion) (s : Sys) : option (bool * Sys) :=
  if actor_done s then Some (false, s)
  else if has_room (s_completions (sy_shared s))
  then Some (true, on_shared (λ sh, with_completions (s_completions sh ++ [msg]) sh) s)
  else None.

Definition fatal_report (what : string) (seq : N) (cause : string) : RuntimeError :=
  EPipeline (what +:+ " lost: source=" +:+ SourceId_display (cf_source_id cf) +:+ " seq=" +:+
             show seq +:+ " cause=" +:+ cause).

(** *** Fetch workers *)

(** How the worker's [select!] resolves: its own arm, or the abort arm, which
    needs the token. *)
Inductive WorkerArm := ArmWork | ArmAborted.

(** An aborted worker returns and drops what it holds. *)
Definition abort_if (b : bool) (s : Sys) (x : Sys) : option Sys :=
  if s_abort (sy_shared s) && b then Some x else None.

Definition fetch_recv (i : nat) (s : Sys) : option Sys :=
  match s_descriptors (sy_shared s) with
  | a :: rest =>
      let '(r, sh) := enter_stage stage_fetch (ad_reservation a)
                        (with_descriptors rest (s_descriptors_closed (sy_shared s)) (sy_shared s)) in
      Some (set_fetcher i (FFetching {| ad_descriptor := ad_descriptor a; ad_reservation := r;
                                        ad_permit := ad_permit a |}) (on_shared (λ _, sh) s))
  | [] => if descriptors_closed s then Some (set_fetcher i FExited s) else None
  end.

Definition fetch_run (i : nat) (a : AdmittedDescriptor) (s : Sys) : option Sys :=
  match Source.fetch (cf_handle cf) (ad_descriptor a) (s_w1 (sy_shared s)) with
  | (w1, Ok source_batch) =>
      Some (set_fetcher i (FSending {| fb_batch := source_batch; fb_reservation := ad_reservation a;
                                       fb_permit := ad_permit a;
                                       fb_sequence := sbd_sequence (ad_descriptor a) |})
              (on_shared (with_w1 w1) s))
  | (w1, Err e) =>
      Some (set_fetcher i (FReporting e (ad_reservation a) (ad_permit a)) (on_shared (with_w1 w1) s))
  end.

Definition fetch_send (i : nat) (b : FetchedBatch) (s : Sys) : option Sys :=
  if fetched_closed s
  then Some (set_fetcher i (FReporting (fatal_report "fetched-batch" (fb_sequence b) "decode-stage-closed")
                              (fb_reservation b) (fb_permit b)) s)
  else if has_room (s_fetched (sy_shared s))
  then Some (set_fetcher i FIdle (on_shared (λ sh, with_fetched (s_fetched sh ++ [b]) sh) s))
  else None.

Definition fetch_step (i : nat) (arm : WorkerArm) (s : Sys) : option Sys :=
  pc ← sy_fetchers s !! i;
  match pc, arm with
  | FIdle, ArmAborted => abort_if true s (set_fetcher i FExited s)
  | FIdle, ArmWork => fetch_recv i s
  | FFetching a, ArmAborted =>
      abort_if true s (set_fetcher i FExited (on_shared (release (ad_reservation a)) s))
  | FFetching a, ArmWork => fetch_run i a s
  | FSending b, _ => fetch_send i b s
  | FReporting e r _, _ =>
      '(_, s) ← send_completion (WCFatal e) s;
      Some (set_fetcher i FExited (on_shared (release r) s))
  | FExited, _ => None
  end.

(** *** Decode workers *)

Definition decode_recv (i : nat) (s : Sys) : option Sys :=
  match s_fetched (sy_shared s) with
  | b :: rest =>
      let '(r, sh) := enter_stage stage_decode (fb_reservation b) (with_fetched rest (sy_shared s)) in
      Some (set_decoder i (DDecoding {| fb_batch := fb_batch b; fb_reservation := r;
                                        fb_permit := fb_permit b; fb_sequence := fb_sequence b |})
              (on_shared (λ _, sh) s))
  | [] => if fetched_closed s then Some (set_decoder i DExited s) else None
  end.

Definition decode_run (i : nat) (b : FetchedBatch) (s : Sys) : option Sys :=
  let sh := sy_shared s in
  let '((r, bud), outcome) :=
    decode_one (T := T) (cf_decoder cf) (cf_options cf) (sink_id (cf_sink cf)) (fb_batch b)
      (fb_sequence b) bp (fb_reservation b, s_budget sh) in
  let s := on_shared (with_capacity bud (s_permits sh)) s in
  match outcome with
  | Ok (Live commit range) =>
      Some (set_decoder i (DSending {| sce_commit := commit; sce_range := range; sce_reservation := r;
                                       sce_permit := fb_permit b |} (fb_sequence b)) s)
  | Ok (DryRun range rows) =>
      Some (set_decoder i (DReporting (WCCommitted {| rep_range := range; rep_rows_written := rows |})
                             r (fb_permit b)) s)
  | Err e => Some (set_decoder i (DReporting (WCFatal e) r (fb_permit b)) s)
  end.

Definition decode_send (i : nat) (e : SinkCommitEnvelope T) (seq : N) (s : Sys) : option Sys :=
  if commits_closed s
  then Some (set_decoder i (DReporting (WCFatal (fatal_report "sink-commit" seq "sink-stage-closed"))
                              (sce_reservation e) (sce_permit e)) s)
  else if has_room (s_commits (sy_shared s))
  then Some (set_decoder i DIdle (on_shared (λ sh, with_commits (s_commits sh ++ [e]) sh) s))
  else None.

(** After a report: a fatal one ends the worker, and so does a report that
    found the actor gone; a committed one is followed by the drop. *)
Definition report_continues (msg : WriteCompletion) (delivered : bool) : bool :=
  match msg with WCCommitted _ => delivered | WCFatal _ => false end.

Definition decode_step (i : nat) (arm : WorkerArm) (s : Sys) : option Sys :=
  pc ← sy_decoders s !! i;
  match pc, arm with
  | DIdle, ArmAborted => abort_if true s (set_decoder i DExited s)
  | DIdle, ArmWork => decode_recv i s
  | DDecoding b, ArmAborted =>
      abort_if true s (set_decoder i DExited (on_shared (release (fb_reservation b)) s))
  | DDecoding b, ArmWork => decode_run i b s
  | DSending e seq, _ => decode_send i e seq s
  | DReporting msg r p, _ =>
      '(delivered, s) ← send_completion msg s;
      Some (if report_continues msg delivered
            then set_decoder i (DFinishing r p) s
            else set_decoder i DExited (on_shared (release r) s))
  | DFinishing r _, _ => Some (set_decoder i DIdle (on_shared (release r) s))
  | DExited, _ => None
  end.

(** *** Writer workers *)

Definition write_recv (i : nat) (s : Sys) : option Sys :=
  match s_commits (sy_shared s) with
  | e :: rest =>
      let '(r, sh) := enter_stage stage_sink_dispatch (sce_reservation e)
                        (with_commits rest (sy_shared s)) in
      Some (set_writer i (WWriting {| sce_commit := sce_commit e; sce_range := sce_range e;
                                      sce_reservation := r; sce_permit := sce_permit e |} (PWrite 0))
              (on_shared (λ _, sh) s))
  | [] => if commits_closed s then Some (set_writer i WExited s) else None
  end.

(** The worker's message for a finished [write_with_retry]. *)
Definition completion_of (range : N * N) (a : WriteAttempt) : WriteCompletion :=
  match wa_inner a with
  | Ok (WSCommitted result) =>
      WCCommitted {| rep_range := range; rep_rows_written := scr_rows_written result |}
  | Ok WSVerifiedAlreadyCommitted => WCCommitted {| rep_range := range; rep_rows_written := 0 |}
  | Err e => WCFatal e
  end.

Definition is_abort (sel : Select W2) : bool := match sel with Abort _ _ => true | Proceed _ => false end.

(** One await of the retry loop.  Its abort arm needs the token. *)
Definition write_run (i : nat) (e : SinkCommitEnvelope T) (pc : RetryPc) (sel : Select W2) (s : Sys)
    : option Sys :=
  match pc with
  | PDone a =>
      Some (set_writer i (WReporting (completion_of (sce_range e) a) (sce_reservation e) (sce_permit e)) s)
  | _ =>
      if is_abort sel && negb (s_abort (sy_shared s)) then None
      else
        let '(pc, w2, call) :=
          retry_step (cf_sink cf) (sce_commit e) (effective_retry_max_attempts (cf_options cf)) sel pc
            (s_w2 (sy_shared s)) in
        Some (set_writer i (WWriting e pc) (on_shared (λ sh, log (TrCall <$> option_list call) (with_w2 w2 sh)) s))
  end.

Definition write_step (i : nat) (arm : WorkerArm) (sel : Select W2) (s : Sys) : option Sys :=
  pc ← sy_writers s !! i;
  match pc, arm with
  | WIdle, ArmAborted => abort_if true s (set_writer i WExited s)
  | WIdle, ArmWork => write_recv i s
  | WWriting e pc, _ => write_run i e pc sel s
  | WReporting msg r p, _ =>
      '(delivered, s) ← send_completion msg s;
      Some (if report_continues msg delivered
            then set_writer i (WFinishing r p) s
            else set_writer i WExited (on_shared (release r) s))
  | WFinishing r _, _ => Some (set_writer i WIdle (on_shared (release r) s))
  | WExited, _ => None
  end.

(** ** The run *)

(** The scheduler's and the environment's choices.  The outside world (the
    producers of the buffer, other clients of the sink) may change the two
    worlds between steps. *)
Inductive SysEvent :=
| EvShutdown
| EvSupervisorAbort
| EvActor (p : Polls)
| EvFetch (i : nat) (arm : WorkerArm)
| EvDecode (i : nat) (arm : WorkerArm)
| EvWrite (i : nat) (arm : WorkerArm) (sel : Select W2)
| EvSourceWorld (f : W1 → W1)
| EvSinkWorld (f : W2 → W2).

(** The supervisor cancels the abort token when the actor returned an
    error. *)
Definition supervisor_abort (s : Sys) : option Sys :=
  match a_pc (sy_actor s) with
  | ADone (Err _) => Some (on_shared (λ sh, with_tokens (s_shutdown sh) true sh) s)
  | _ => None
  end.

Definition exec (ev : SysEvent) (s : Sys) : option Sys :=
  match ev with
  | EvShutdown => Some (on_shared (λ sh, with_tokens true (s_abort sh) sh) s)
  | EvSupervisorAbort => supervisor_abort s
  | EvActor p => actor_step p s
  | EvFetch i arm => fetch_step i arm s
  | EvDecode i arm => decode_step i arm s
  | EvWrite i arm sel => write_step i arm sel s
  | EvSourceWorld f => Some (on_shared (λ sh, with_w1 (f (s_w1 sh)) sh) s)
  | EvSinkWorld f => Some (on_shared (λ sh, with_w2 (f (s_w2 sh)) sh) s)
  end.

Fixpoint exec_all (evs : list SysEvent) (s : Sys) : option Sys :=
  match evs with
  | [] => Some s
  | ev :: rest => s ← exec ev s; exec_all rest s
  end.

End pipeline.

Arguments Config : clear implicits.
Arguments Actor : clear implicits.
Arguments Shared : clear implicits.
Arguments Sys : clear implicits.

Section run.
Context {C F W1 D K W2 T : Type}.
Context `{Consumer C F W1} `{TypedRecords T} `{Decoder D T} `{Sink K W2 T}.

(** [Runtime::run] up to the spawn of the tasks. *)
Definition run_config (rt : Runtime C F D K) : Config F D K := {|
  cf_options := rt_options rt; cf_decoder := rt_decoder rt; cf_sink := rt_sink rt;
  cf_handle := fetch_handle (rt_source rt); cf_source_id := bs_id (rt_source rt) |}.

Definition run_start (rt : Runtime C F D K) (w1 : W1) (w2 : W2)
    : RuntimeResult (Sys C F W1 W2 T) :=
  let source_id := bs_id (rt_source rt) in
  let bp := backpressure_for (rt_options rt) source_id in
  let fetch_workers := N.to_nat (N.max (fetch_concurrency bp) 1) in
  let decode_workers := N.to_nat (N.max (decode_concurrency bp) 1) in
  let writer_pool_size := N.to_nat (N.max (max_concurrent_commits (sink_options (rt_options rt))) 1) in
  match (take_coordinator source_id (rt_coordinators rt)).1 with
  | None => Err (EAck ("no coordinator registered for source " +:+ SourceId_display source_id))
  | Some coordinator =>
      Ok {| sy_actor :=
              {| a_source := rt_source rt; a_coordinator := coordinator;
                 a_progress := RuntimeProgress_default;
                 a_last_ack_sent := last_acked_sequence (rt_source rt);
                 a_groups_since_flush := 0; a_in_flight := 0; a_admission_open := true;
                 a_pc := ALoop |};
            sy_shared :=
              {| s_w1 := w1; s_w2 := w2; s_budget := rt_source_byte_budget rt;
                 s_permits := N.max (max_inflight_batches bp) 1;
                 s_shutdown := false; s_abort := false;
                 s_descriptors := []; s_descriptors_closed := false; s_fetched := [];
                 s_commits := []; s_completions := []; s_trace := [] |};
            sy_fetchers := replicate fetch_workers FIdle;
            sy_decoders := replicate decode_workers DIdle;
            sy_writers := replicate writer_pool_size WIdle |}
  end.

(** The joins.  A worker task ends with its result or with a panic. *)
Inductive JoinOutcome :=
| Joined (r : RuntimeResult unit)
| Panicked (join_err : string).

Fixpoint join_all (what : string) (acc : RuntimeResult unit) (handles : list JoinOutcome)
    : RuntimeResult unit :=
  match handles with
  | [] => acc
  | h :: rest =>
      let e := match h with
               | Joined r => r
               | Panicked join_err => Err (EPipeline (what +:+ " worker panicked: " +:+ join_err))
               end in
      join_all what (match acc with Ok _ => e | Err _ => acc end) rest
  end.

Definition final_result (actor_result : RuntimeResult unit)
    (fetchers decoders writers : list JoinOutcome) : RuntimeResult unit :=
  let fetch_result := join_all "fetch" (Ok tt) fetchers in
  let decode_result := join_all "decode" (Ok tt) decoders in
  let sink_result := join_all "writer" (Ok tt) writers in
  match actor_result, fetch_result, decode_result, sink_result with
  | Err e, _, _, _ => Err e
  | Ok _, Err e, _, _ => Err e
  | Ok _, Ok _, Err e, _ => Err e
  | Ok _, Ok _, Ok _, Err e => Err e
  | Ok _, Ok _, Ok _, Ok _ => Ok tt
  end.
End run.
