(* ===== verification/PipelineDemo.v ===== *)
(** * A concrete pipeline

    The in-memory log, a decoder that gives one batch per data object and the
    scripted sink, run through the machine: two units, the second of which
    commits first, an ambiguous write that a status check resolves, and a
    shutdown.  The properties of the pipeline are applied to its states. *)

From Stdlib Require Import NArith.
From S2P Require Import Prelude.
From S2P Require Import BTree.
From S2P Require Import Types.
From S2P Require Import AckCoordinator.
From S2P Require Import ByteBudget.
From S2P Require Import Source.
From S2P Require Import Options.
From S2P Require Import Metrics.
From S2P Require Import WriteRetry.
From S2P Require Import Decode.
From S2P Require Import Pipeline.
Local Open Scope N_scope.

#[export] Instance Row_records : TypedRecords N := {
  record_count n := n;
  estimated_bytes n := 100 * n;
  schema _ := {| ts_name := "rows"; ts_version := mkSchemaVersion 1 |};
}.

#[export] Instance RowDecoder : Decoder unit N := {
  accepts _ _ := true;
  decode _ batch :=
    Ok [{| db_source := sb_source batch; db_low_sequence := sb_sequence batch;
           db_high_sequence := sb_sequence batch;
           db_source_entry_count := N.of_nat (length (sb_entries batch));
           db_records := Typed (N.of_nat (length (sb_entries batch)));
           db_source_columns := {| scc_manifest_path := ""; scc_data_path := ""; scc_sequences := [];
             scc_entry_indices := []; scc_record_indices := []; scc_ingestion_time_ms := [] |};
           db_stats := {| source_byte_count := 0; decoded_byte_estimate := 0 |};
           db_schema_version := mkSchemaVersion 1 |}];
}.

Definition demo_options (dry : bool) : RuntimeOptions := {|
  ack_flush_policy := EveryCommitGroup; dry_run := dry; poll_interval := poll_interval RuntimeOptions_default;
  max_descriptors_per_poll := 8; max_retry_attempts := 3; retry_backoff := retry_backoff RuntimeOptions_default;
  source_defaults := SourceBackpressureOptions_default; source_overrides := ∅;
  sink_options := SinkPoolOptions_default |}.

Definition demo_builder (dry : bool) : RuntimeBuilder LogConsumer unit unit unit :=
  with_options (demo_options dry) (set_sink tt (add_decoder tt (add_source log_source builder))).

Definition demo_world : LogWorld :=
  {| lw_batches := lw_batches log_world; lw_durable := None; lw_failing_acks := 0 |}.
Definition demo_sink_world : ScriptWorld :=
  {| sw_writes := [Ok (written 1); Err (MaybeCommitted (mkBoxError "timeout"))]; sw_checks := [CSCommitted] |}.

Abbreviation DemoEvent := (SysEvent (W1 := LogWorld) (W2 := ScriptWorld)).
Abbreviation DemoSys := (Sys LogConsumer unit LogWorld ScriptWorld N).

Definition polls (shutdown completion gate : bool) : Polls :=
  {| saw_abort := false; saw_shutdown := shutdown; saw_completion := completion; saw_gate := gate |}.
Definition step_actor : DemoEvent := EvActor (polls false false true).
Definition fetch_work (i : nat) : DemoEvent := EvFetch i ArmWork.
Definition decode_work (i : nat) : DemoEvent := EvDecode i ArmWork.
Definition write_work (i : nat) : DemoEvent := EvWrite i ArmWork (Proceed false).
Definition thrice (f : nat → DemoEvent) (i : nat) : list DemoEvent := [f i; f i; f i].

(** Admission of the two units, and their fetch and decode. *)
Definition demo_admit : list DemoEvent := replicate 5 step_actor.
Definition demo_decode : list DemoEvent :=
  thrice fetch_work 0 ++ thrice fetch_work 1 ++ thrice decode_work 0 ++ thrice decode_work 1.
(** Writer 1 commits the second unit, then writer 0 the first, whose outcome
    its first answer leaves open. *)
Definition demo_write : list DemoEvent :=
  [write_work 0; write_work 1; write_work 1; write_work 1; write_work 1; write_work 1;
   EvActor (polls false true false);
   write_work 0; write_work 0; write_work 0; write_work 0].
Definition demo_finish : list DemoEvent :=
  [EvActor (polls false true true); EvShutdown; EvActor (polls true true true); step_actor].

Definition demo_events : list DemoEvent := demo_admit ++ demo_decode ++ demo_write ++ demo_finish.

Definition demo_config (dry : bool) : Config unit unit unit := {|
  cf_options := demo_options dry; cf_decoder := tt; cf_sink := tt;
  cf_handle := fetch_handle log_source; cf_source_id := bs_id log_source |}.
Definition demo_run (dry : bool) (evs : list DemoEvent) : option DemoSys :=
  match build (demo_builder dry) with
  | Ok rt =>
      match run_start rt demo_world demo_sink_world with
      | Ok s0 => exec_all (run_config rt) evs s0
      | Err _ => None
      end
  | Err _ => None
  end.

Lemma demo_run_start dry evs s :
  demo_run dry evs = Some s →
  ∃ rt s0, build (demo_builder dry) = Ok rt ∧ run_start rt demo_world demo_sink_world = Ok s0 ∧
           demo_config dry = run_config rt ∧ exec_all (demo_config dry) evs s0 = Some s.
Proof.
  unfold demo_run. assert (∃ rt, build (demo_builder dry) = Ok rt ∧ demo_config dry = run_config rt)
    as (rt & -> & Hcf) by (eexists; split; [by destruct dry|done]).
  destruct (run_start rt demo_world demo_sink_world) as [s0|e] eqn:Hs0; [|done].
  rewrite <- Hcf. intros Hrun. by exists rt, s0.
Qed.
