(* ===== verification/PipelineResources.v ===== *)
(** * The resources of a run

    Which reservations and permits the tasks and the queues of the pipeline
    hold, and that every step of every task moves them by the transitions of
    the byte budget and the batch semaphore only ([exec_resources]): nothing
    is leaked or released twice on any path.  The invariant
    ([resources_ok]) follows from that alone. *)

From Stdlib Require Import NArith Lia.
From stdpp Require Import relations.
From S2P Require Import Prelude.
From S2P Require Import BTree.
From S2P Require Import Types.
From S2P Require Import AckCoordinator.
From S2P Require Import ByteBudget.
From S2P Require Import Source.
From S2P Require Import Options.
From S2P Require Import Metrics.
From S2P Require Import WriteRetry.
From S2P Require Import Decode.
From S2P Require Import Pipeline.
From S2P Require Import PipelineDemo.
Local Open Scope N_scope.

#[export] Instance Reservation_eq_dec : EqDecision Reservation.
Proof. solve_decision. Defined.

(** ** What is held where *)

Definition actor_held (pc : ActorPc) : list Reservation :=
  match pc with
  | APolling gates => ag_reservation <$> gates
  | ASending units => (λ x, ag_reservation x.2) <$> units
  | ALoop | ASleeping | ADone _ => []
  end.
Definition fetch_held (pc : FetchPc) : list Reservation :=
  match pc with
  | FFetching a => [ad_reservation a]
  | FSending b => [fb_reservation b]
  | FReporting _ r _ => [r]
  | FIdle | FExited => []
  end.

Section held.
Context {C F W1 W2 T : Type}.
Implicit Types s : Sys C F W1 W2 T.

Definition decode_held (pc : DecodePc T) : list Reservation :=
  match pc with
  | DDecoding b => [fb_reservation b]
  | DSending e _ => [sce_reservation e]
  | DReporting _ r _ | DFinishing r _ => [r]
  | DIdle | DExited => []
  end.
Definition write_held (pc : WritePc T) : list Reservation :=
  match pc with
  | WWriting e _ => [sce_reservation e]
  | WReporting _ r _ | WFinishing r _ => [r]
  | WIdle | WExited => []
  end.

Definition held_res s : list Reservation :=
  actor_held (a_pc (sy_actor s)) ++
  (ad_reservation <$> s_descriptors (sy_shared s)) ++ concat (fetch_held <$> sy_fetchers s) ++
  (fb_reservation <$> s_fetched (sy_shared s)) ++ concat (decode_held <$> sy_decoders s) ++
  (sce_reservation <$> s_commits (sy_shared s)) ++ concat (write_held <$> sy_writers s).

(** The sum of a weight over everything held. *)
Lemma held_res_sum (g : Reservation → N) s :
  sum_N (g <$> held_res s) =
  sum_N (g <$> actor_held (a_pc (sy_actor s))) +
  sum_N (g <$> (ad_reservation <$> s_descriptors (sy_shared s))) +
  sum_N (g <$> concat (fetch_held <$> sy_fetchers s)) +
  sum_N (g <$> (fb_reservation <$> s_fetched (sy_shared s))) +
  sum_N (g <$> concat (decode_held <$> sy_decoders s)) +
  sum_N (g <$> (sce_reservation <$> s_commits (sy_shared s))) +
  sum_N (g <$> concat (write_held <$> sy_writers s)).
Proof. unfold held_res. rewrite !sum_N_fmap_app. lia. Qed.
End held.

(** ** The transitions of the budget and the semaphore *)

(** The free permits, the budget and what is held. *)
Record Resources := { res_budget : Budget; res_permits : N; res_held : list Reservation }.

Section transitions.
(** The most a unit may hold: the pessimistic estimate, or the oversize
    limit. *)
Context (estimate limit : N).

Inductive rstep : Resources → Resources → Prop :=
| rs_move b p l l' :
    l ≡ₚ l' → rstep {| res_budget := b; res_permits := p; res_held := l |}
                    {| res_budget := b; res_permits := p; res_held := l' |}
| rs_claim b b' p l l' r :
    0 < p → reserve estimate b = (Some r, b') ∨ try_reserve estimate b = (Some r, b') →
    l' ≡ₚ r :: l →
    rstep {| res_budget := b; res_permits := p; res_held := l |}
          {| res_budget := b'; res_permits := p - 1; res_held := l' |}
| rs_attach b p l l' r loc :
    r ∈ l → (attach_stage loc r b).1 :: l ≡ₚ r :: l' →
    rstep {| res_budget := b; res_permits := p; res_held := l |}
          {| res_budget := (attach_stage loc r b).2; res_permits := p; res_held := l' |}
| rs_reconcile b p l l' r n :
    n ≤ limit → r ∈ l → (reconcile n r b).1 :: l ≡ₚ r :: l' →
    rstep {| res_budget := b; res_permits := p; res_held := l |}
          {| res_budget := (reconcile n r b).2; res_permits := p; res_held := l' |}
| rs_release b p l l' r :
    l ≡ₚ r :: l' →
    rstep {| res_budget := b; res_permits := p; res_held := l |}
          {| res_budget := drop_reservation r b; res_permits := p + 1; res_held := l' |}.

(** The invariant: every permit is free or held, the counters are the sums of
    what is held, and no unit holds more than its cap. *)
Record resources_inv (depth cap : N) (x : Resources) : Prop := {
  ri_permits : res_permits x + N.of_nat (length (res_held x)) = depth;
  ri_accounts : accounts (res_budget x) (res_held x);
  ri_capacity : capacity (res_budget x) = cap;
  ri_bound : Forall (λ r, held r ≤ N.max estimate limit) (res_held x);
}.

Lemma swap_permutation (r r' : Reservation) l l' :
  r ∈ l → r' :: l ≡ₚ r :: l' → ∃ rest, l ≡ₚ r :: rest ∧ l' ≡ₚ r' :: rest.
Proof.
  intros [rest Hl]%elem_of_Permutation Hp. exists rest. split; [done|].
  rewrite Hl in Hp. apply (Permutation_cons_inv (a := r)). rewrite <- Hp. by constructor.
Qed.

Lemma claim_fresh b b' r :
  reserve estimate b = (Some r, b') ∨ try_reserve estimate b = (Some r, b') →
  held r ≤ estimate ∧ capacity b' = capacity b.
Proof.
  intros [Hr|Hr]; [pose proof (reserve_capacity estimate b) as Hc
                  |pose proof (try_reserve_capacity estimate b) as Hc]; rewrite Hr in Hc;
    (split; [|exact Hc]); unfold reserve, try_reserve in Hr; repeat split_match_in Hr;
    simplify_eq; simpl; lia.
Qed.

Lemma rstep_inv depth cap x y : rstep x y → resources_inv depth cap x → resources_inv depth cap y.
Proof.
  intros Hstep [Hp Ha Hc Hb]. destruct Hstep as
    [b p l l' Hl|b b' p l l' r Hpos Hcl Hl|b p l l' r loc Hin Hl|b p l l' r n Hn Hin Hl|b p l l' r Hl];
    cbn [res_budget res_permits res_held] in *.
  - split; cbn [res_budget res_permits res_held]; by rewrite <- ?Hl.
  - destruct (claim_fresh _ _ _ Hcl) as [Hh Hcap]. split; cbn [res_budget res_permits res_held].
    + rewrite Hl. simpl. lia.
    + rewrite Hl. destruct Hcl; [by eapply reserve_accounts | by eapply try_reserve_accounts].
    + congruence.
    + rewrite Hl. constructor; [lia|done].
  - destruct (swap_permutation _ _ _ _ Hin Hl) as (rest & Hl1 & Hl2). split; cbn [res_budget res_permits res_held].
    + rewrite Hl2. rewrite Hl1 in Hp. done.
    + rewrite Hl2. apply attach_accounts. by rewrite <- Hl1.
    + by rewrite attach_capacity.
    + rewrite Hl2. rewrite Hl1 in Hb. inversion Hb; subst. by constructor.
  - destruct (swap_permutation _ _ _ _ Hin Hl) as (rest & Hl1 & Hl2). split; cbn [res_budget res_permits res_held].
    + rewrite Hl2. rewrite Hl1 in Hp. done.
    + rewrite Hl2. apply reconcile_accounts. by rewrite <- Hl1.
    + by rewrite reconcile_capacity.
    + rewrite Hl2. rewrite Hl1 in Hb. inversion Hb; subst. constructor; [|done].
      unfold reconcile. destruct (N.eqb_spec n (held r)); [done|].
      destruct (n <? held r); simpl; lia.
  - split; cbn [res_budget res_permits res_held].
    + rewrite Hl in Hp. simpl in Hp. lia.
    + apply drop_accounts. by rewrite <- Hl.
    + by rewrite drop_capacity.
    + rewrite Hl in Hb. by inversion Hb.
Qed.

Lemma rsteps_inv depth cap x y :
  rtc rstep x y → resources_inv depth cap x → resources_inv depth cap y.
Proof. induction 1; [done|]. intros. by eapply IHrtc, rstep_inv. Qed.

(** Chains of transitions in the form the steps produce them. *)
Lemma rsteps_move b p l l' :
  l ≡ₚ l' → rtc rstep {| res_budget := b; res_permits := p; res_held := l |}
                      {| res_budget := b; res_permits := p; res_held := l' |}.
Proof. intros. by apply rtc_once, rs_move. Qed.
End transitions.

(** ** Every step of the pipeline is made of these transitions *)

Section steps.
Context {C F W1 D K W2 T : Type}.
Context `{Consumer C F W1} `{TypedRecords T} `{Decoder D T} `{Sink K W2 T}.
Context (cf : Config F D K).
Implicit Types s : Sys C F W1 W2 T.

Abbreviation estimate := (estimated_max_batch_bytes (bp cf)).
Abbreviation limit := (fault_limit (bp cf)).
Abbreviation rsteps := (rtc (rstep estimate limit)).

Definition res_of s : Resources := {|
  res_budget := s_budget (sy_shared s); res_permits := s_permits (sy_shared s);
  res_held := held_res s |}.

Lemma elem_concat {A B} (f : A → list B) l i x y : l !! i = Some x → y ∈ f x → y ∈ concat (f <$> l).
Proof.
  revert i. induction l as [|z l IH]; intros [|i]; simpl; try done.
  - intros [= ->] Hy. apply elem_of_app. by left.
  - intros Hi Hy. apply elem_of_app. right. by eapply IH.
Qed.

Lemma held_descriptor s a : a ∈ s_descriptors (sy_shared s) → ad_reservation a ∈ held_res s.
Proof.
  intros Ha. unfold held_res. rewrite !elem_of_app. right; left. by apply list_elem_of_fmap_2.
Qed.
Lemma held_fetched s b : b ∈ s_fetched (sy_shared s) → fb_reservation b ∈ held_res s.
Proof.
  intros Ha. unfold held_res. rewrite !elem_of_app. do 3 right; left. by apply list_elem_of_fmap_2.
Qed.
Lemma held_commit s e : e ∈ s_commits (sy_shared s) → sce_reservation e ∈ held_res s.
Proof.
  intros Ha. unfold held_res. rewrite !elem_of_app. do 5 right; left. by apply list_elem_of_fmap_2.
Qed.
Lemma held_decoder s i pc r : sy_decoders s !! i = Some pc → r ∈ decode_held pc → r ∈ held_res s.
Proof.
  intros Hi Hr. unfold held_res. rewrite !elem_of_app. do 4 right; left. by eapply elem_concat.
Qed.

(** Weigh both sides of a permutation of holdings and finish by arithmetic:
    an update of a pool exchanges the weight of one cell. *)
Ltac weigh_cells :=
  cbn [fetch_held decode_held write_held actor_held ad_reservation fb_reservation sce_reservation
       ag_reservation fst snd];
  rewrite ?fmap_app, ?fmap_cons, ?fmap_nil, ?sum_N_app, ?sum_N_cons, ?sum_N_nil;
  cbn [ad_reservation fb_reservation sce_reservation ag_reservation fst snd].
Ltac pool_facts g :=
  repeat match goal with
  | Hi : sy_fetchers ?s !! ?i = Some ?x |- context [<[?i := ?y]> (sy_fetchers ?s)] =>
      let E := fresh "E" in
      pose proof (sum_N_concat_insert fetch_held g _ i x y Hi) as E; revert E;
      generalize (sum_N (g <$> concat (fetch_held <$> <[i:=y]> (sy_fetchers s))));
      let n := fresh "n" in intros n; weigh_cells; intros E
  | Hi : sy_decoders ?s !! ?i = Some ?x |- context [<[?i := ?y]> (sy_decoders ?s)] =>
      let E := fresh "E" in
      pose proof (sum_N_concat_insert decode_held g _ i x y Hi) as E; revert E;
      generalize (sum_N (g <$> concat (decode_held <$> <[i:=y]> (sy_decoders s))));
      let n := fresh "n" in intros n; weigh_cells; intros E
  | Hi : sy_writers ?s !! ?i = Some ?x |- context [<[?i := ?y]> (sy_writers ?s)] =>
      let E := fresh "E" in
      pose proof (sum_N_concat_insert write_held g _ i x y Hi) as E; revert E;
      generalize (sum_N (g <$> concat (write_held <$> <[i:=y]> (sy_writers s))));
      let n := fresh "n" in intros n; weigh_cells; intros E
  end.
Ltac weigh_by tac :=
  apply permutation_of_sums; let g := fresh "g" in intros g;
  rewrite ?sum_N_fmap_cons, ?sum_N_fmap_app, ?held_res_sum;
  cbn [sy_actor sy_shared sy_fetchers sy_decoders sy_writers set_fetcher set_decoder set_writer
       on_shared on_actor s_descriptors s_fetched s_commits with_descriptors with_fetched with_commits
       with_completions with_w1 with_w2 with_capacity with_tokens log release a_pc with_pc];
  repeat match goal with
  | Hq : s_descriptors _ = _ |- _ => rewrite Hq
  | Hq : s_fetched _ = _ |- _ => rewrite Hq
  | Hq : s_commits _ = _ |- _ => rewrite Hq
  | Hq : a_pc _ = _ |- _ => rewrite Hq
  end;
  pool_facts g; weigh_cells; tac; lia.
Ltac weigh := weigh_by idtac.
(** The same for a program counter known by what it holds. *)
Ltac weigh_pc Hpc :=
  weigh_by ltac:(rewrite ?Hpc in *; rewrite ?fmap_cons, ?fmap_nil, ?sum_N_cons, ?sum_N_nil in *).

(** A step that moves nothing, or moves a holding to another place. *)
Lemma res_move s s' :
  s_budget (sy_shared s') = s_budget (sy_shared s) → s_permits (sy_shared s') = s_permits (sy_shared s) →
  held_res s ≡ₚ held_res s' → rsteps (res_of s) (res_of s').
Proof. intros Hb Hp Hl. unfold res_of. rewrite Hb, Hp. by apply rsteps_move. Qed.

Lemma res_release r s s' :
  s_budget (sy_shared s') = drop_reservation r (s_budget (sy_shared s)) →
  s_permits (sy_shared s') = s_permits (sy_shared s) + 1 →
  held_res s ≡ₚ r :: held_res s' → rsteps (res_of s) (res_of s').
Proof. intros Hb Hp Hl. unfold res_of. rewrite Hb, Hp. by apply rtc_once, rs_release. Qed.

Lemma res_attach r loc s s' :
  s_budget (sy_shared s') = (attach_stage loc r (s_budget (sy_shared s))).2 →
  s_permits (sy_shared s') = s_permits (sy_shared s) →
  r ∈ held_res s →
  (attach_stage loc r (s_budget (sy_shared s))).1 :: held_res s ≡ₚ r :: held_res s' →
  rsteps (res_of s) (res_of s').
Proof. intros Hb Hp Hr Hl. unfold res_of. rewrite Hb, Hp. by apply rtc_once, rs_attach. Qed.

Ltac room_cases :=
  match goal with |- context [has_room cf ?q] => destruct (has_room cf q) end.

(** *** Fetch workers *)

Lemma fetch_recv_resources i s s' :
  sy_fetchers s !! i = Some FIdle → fetch_recv i s = Some s' → rsteps (res_of s) (res_of s').
Proof.
  intros Hi. unfold fetch_recv. destruct (s_descriptors (sy_shared s)) as [|a rest] eqn:Hq.
  - destruct (descriptors_closed s); [|done]. intros [= <-]. apply res_move; [done..|]. weigh.
  - unfold enter_stage. cbn [with_descriptors s_budget s_permits].
    destruct (attach_stage stage_fetch (ad_reservation a) (s_budget (sy_shared s))) as [r' b'] eqn:Hat.
    intros [= <-]. eapply (res_attach (ad_reservation a) stage_fetch); rewrite ?Hat; [done..| |].
    + apply held_descriptor. rewrite Hq. left.
    + cbn [fst]. weigh.
Qed.

Lemma fetch_step_resources i arm s s' :
  fetch_step cf i arm s = Some s' → rsteps (res_of s) (res_of s').
Proof.
  unfold fetch_step. destruct (sy_fetchers s !! i) as [pc|] eqn:Hi; [|done]. simpl.
  unfold abort_if. destruct pc as [|a|b|e r p|]; [destruct arm..|]; try done.
  - by apply fetch_recv_resources.
  - destruct (_ && _); [|done]. intros [= <-]. apply res_move; [done..|]. weigh.
  - unfold fetch_run. destruct (Source.fetch _ _ _) as [w1 [batch|e]]; intros [= <-];
      (apply res_move; [done..|]; weigh).
  - destruct (_ && _); [|done]. intros [= <-]. eapply (res_release (ad_reservation a)); [done..|]. weigh.
  - unfold fetch_send. destruct (fetched_closed s); [|room_cases; [|done]]; intros [= <-];
      (apply res_move; [done..|]; weigh).
  - unfold fetch_send. destruct (fetched_closed s); [|room_cases; [|done]]; intros [= <-];
      (apply res_move; [done..|]; weigh).
  - unfold send_completion. destruct (actor_done s); [|room_cases; [|done]]; intros [= <-];
      (eapply (res_release r); [done..|]; weigh).
  - unfold send_completion. destruct (actor_done s); [|room_cases; [|done]]; intros [= <-];
      (eapply (res_release r); [done..|]; weigh).
Qed.

(** *** Decode workers *)

Lemma decode_recv_resources i s s' :
  sy_decoders s !! i = Some DIdle → decode_recv i s = Some s' → rsteps (res_of s) (res_of s').
Proof.
  intros Hi. unfold decode_recv. destruct (s_fetched (sy_shared s)) as [|b rest] eqn:Hq.
  - destruct (fetched_closed s); [|done]. intros [= <-]. apply res_move; [done..|]. weigh.
  - unfold enter_stage. cbn [with_fetched s_budget s_permits].
    destruct (attach_stage stage_decode (fb_reservation b) (s_budget (sy_shared s))) as [r' b'] eqn:Hat.
    intros [= <-]. eapply (res_attach (fb_reservation b) stage_decode); rewrite ?Hat; [done..| |].
    + apply held_fetched. rewrite Hq. left.
    + cbn [fst]. weigh.
Qed.

(** [decode_one] leaves the reservation alone or reconciles it within the
    limit. *)
Lemma decode_one_reservation decoder options sink batch seq b r bud :
  let x := decode_one (T := T) decoder options sink batch seq b (r, bud) in
  x.1 = (r, bud) ∨ ∃ n, n ≤ fault_limit b ∧ x.1 = reconcile n r bud.
Proof.
  rewrite decode_one_run. destruct (decode_checked decoder batch seq) as [d|e]; [|by left].
  destruct (oversize_gate b d) as [[]|e] eqn:Hg; [|by left].
  right. exists (actual_bytes d). split; [|done]. by apply oversize_gate_ok.
Qed.

Lemma decode_run_resources i b s s' :
  sy_decoders s !! i = Some (DDecoding b) → decode_run cf i b s = Some s' →
  rsteps (res_of s) (res_of s').
Proof.
  intros Hi. unfold decode_run.
  pose proof (decode_one_reservation (cf_decoder cf) (cf_options cf) (sink_id (cf_sink cf))
    (fb_batch b) (fb_sequence b) (bp cf) (fb_reservation b) (s_budget (sy_shared s))) as Hres.
  destruct (decode_one _ _ _ _ _ _ _) as [[r' bud'] outcome]. simpl in Hres.
  assert (∀ pc, decode_held pc = [r'] →
    rsteps (res_of s) (res_of (set_decoder i pc
      (on_shared (with_capacity bud' (s_permits (sy_shared s))) s)))) as Hgo.
  { intros pc Hpc. destruct Hres as [[= -> ->]|(n & Hn & Heq)].
    - apply res_move; [done..|]. weigh_pc Hpc.
    - unfold res_of. cbn. replace bud' with (reconcile n (fb_reservation b) (s_budget (sy_shared s))).2
        by (by rewrite <- Heq).
      apply rtc_once, rs_reconcile with (r := fb_reservation b); [done|exact (held_decoder _ _ _ _ Hi ltac:(left))|].
      rewrite <- Heq. cbn [fst]. weigh_pc Hpc. }
  destruct outcome as [[commit range|range rows]|e]; intros [= <-]; by apply Hgo.
Qed.

Lemma decode_step_resources i arm s s' :
  decode_step cf i arm s = Some s' → rsteps (res_of s) (res_of s').
Proof.
  unfold decode_step. destruct (sy_decoders s !! i) as [pc|] eqn:Hi; [|done]. simpl.
  unfold abort_if. destruct pc as [|b|e sq|msg r p|r p|]; [destruct arm..|]; try done;
    try by (apply decode_recv_resources || apply decode_run_resources).
  all: try (intros [= <-]; eapply (res_release r); [done..|]; weigh).
  - destruct (_ && _); [|done]. intros [= <-]. apply res_move; [done..|]. weigh.
  - destruct (_ && _); [|done]. intros [= <-]. eapply (res_release (fb_reservation b)); [done..|]. weigh.
  - unfold decode_send; destruct (commits_closed s); [|room_cases; [|done]];
      intros [= <-]; (apply res_move; [done..|]; weigh).
  - unfold decode_send; destruct (commits_closed s); [|room_cases; [|done]];
      intros [= <-]; (apply res_move; [done..|]; weigh).
  - unfold send_completion. destruct (actor_done s); [|room_cases; [|done]];
      simpl; (destruct (report_continues msg _); intros [= <-];
      [apply res_move; [done..|]; weigh | eapply (res_release r); [done..|]; weigh]).
  - unfold send_completion. destruct (actor_done s); [|room_cases; [|done]];
      simpl; (destruct (report_continues msg _); intros [= <-];
      [apply res_move; [done..|]; weigh | eapply (res_release r); [done..|]; weigh]).
Qed.

(** *** Writer workers *)

Lemma write_recv_resources i s s' :
  sy_writers s !! i = Some WIdle → write_recv i s = Some s' → rsteps (res_of s) (res_of s').
Proof.
  intros Hi. unfold write_recv. destruct (s_commits (sy_shared s)) as [|e rest] eqn:Hq.
  - destruct (commits_closed s); [|done]. intros [= <-]. apply res_move; [done..|]. weigh.
  - unfold enter_stage. cbn [with_commits s_budget s_permits].
    destruct (attach_stage stage_sink_dispatch (sce_reservation e) (s_budget (sy_shared s)))
      as [r' b'] eqn:Hat.
    intros [= <-]. eapply (res_attach (sce_reservation e) stage_sink_dispatch);
      rewrite ?Hat; [done..| |].
    + apply held_commit. rewrite Hq. left.
    + cbn [fst]. weigh.
Qed.

Lemma write_run_resources i e pc sel s s' :
  sy_writers s !! i = Some (WWriting e pc) → write_run cf i e pc sel s = Some s' →
  rsteps (res_of s) (res_of s').
Proof.
  intros Hi. unfold write_run.
  assert (∀ pc' sh, sh = sy_shared s ∨ (∃ w2 tr, sh = log tr (with_w2 w2 (sy_shared s))) →
    write_held pc' = [sce_reservation e] →
    rsteps (res_of s) (res_of (set_writer i pc' (on_shared (λ _, sh) s)))) as Hgo.
  { intros pc' sh Hsh Hpc. apply res_move.
    - destruct Hsh as [->|(? & ? & ->)]; done.
    - destruct Hsh as [->|(? & ? & ->)]; done.
    - destruct Hsh as [->|(? & ? & ->)]; weigh_pc Hpc. }
  destruct pc as [n|n be|n|a];
    [destruct (_ && _); [done|]; destruct (retry_step _ _ _ _ _ _) as [[pc' w2] call]; intros [= <-];
     eapply (Hgo _ (log _ (with_w2 _ _))); [right; eauto|done]..|].
  intros [= <-]. by apply (Hgo _ (sy_shared s)); [left|].
Qed.

Lemma write_step_resources i arm sel s s' :
  write_step cf i arm sel s = Some s' → rsteps (res_of s) (res_of s').
Proof.
  unfold write_step. destruct (sy_writers s !! i) as [pc|] eqn:Hi; [|done]. simpl.
  unfold abort_if. destruct pc as [|e rp|msg r p|r p|]; [destruct arm..|]; try done;
    try by (apply write_recv_resources || apply write_run_resources).
  all: try (intros [= <-]; eapply (res_release r); [done..|]; weigh).
  - destruct (_ && _); [|done]. intros [= <-]. apply res_move; [done..|]. weigh.
  - unfold send_completion. destruct (actor_done s); [|room_cases; [|done]];
      simpl; (destruct (report_continues msg _); intros [= <-];
      [apply res_move; [done..|]; weigh | eapply (res_release r); [done..|]; weigh]).
  - unfold send_completion. destruct (actor_done s); [|room_cases; [|done]];
      simpl; (destruct (report_continues msg _); intros [= <-];
      [apply res_move; [done..|]; weigh | eapply (res_release r); [done..|]; weigh]).
Qed.

(** *** The actor *)

Ltac enter_cases r1 sh1 He :=
  match goal with |- context [enter_stage ?a ?b ?c] => destruct (enter_stage a b c) as [r1 sh1] eqn:He end.

Definition shared_res (sh : Shared W1 W2 T) (l : list Reservation) : Resources :=
  {| res_budget := s_budget sh; res_permits := s_permits sh; res_held := l |}.

Lemma release_rsteps r sh l : rsteps (shared_res sh (r :: l)) (shared_res (release r sh) l).
Proof. by apply rtc_once, rs_release. Qed.

Lemma release_all_rsteps rs : ∀ sh l, rsteps (shared_res sh (rs ++ l)) (shared_res (release_all rs sh) l).
Proof.
  induction rs as [|r rs IH]; intros sh l; [apply rtc_refl|].
  etrans; [apply (release_rsteps r sh (rs ++ l))|]. apply IH.
Qed.

Lemma admission_attempt_rsteps sh g sh' l :
  admission_attempt cf sh = Some (g, sh') →
  rsteps (shared_res sh l) (shared_res sh' (ag_reservation g :: l)).
Proof.
  unfold admission_attempt. destruct (N.ltb_spec 0 (s_permits sh)); [|done].
  destruct (reserve _ _) as [[r|] b] eqn:Hr; [|done]. intros [= <- <-].
  apply rtc_once. eapply rs_claim; [done|by left|done].
Qed.

Lemma enter_stage_rsteps loc r sh r' sh' l :
  enter_stage loc r sh = (r', sh') → rsteps (shared_res sh (r :: l)) (shared_res sh' (r' :: l)).
Proof.
  unfold enter_stage. destruct (attach_stage loc r (s_budget sh)) as [r1 b1] eqn:Hat.
  intros [= <- <-]. unfold shared_res. cbn.
  replace b1 with (attach_stage loc r (s_budget sh)).2 by (by rewrite Hat).
  apply rtc_once, rs_attach with (r := r); [left|]. rewrite Hat. simpl. apply Permutation_swap.
Qed.

Lemma extend_gates_rsteps n : ∀ gates sh gates' sh' l,
  extend_gates cf n gates sh = (gates', sh') →
  rsteps (shared_res sh ((ag_reservation <$> gates) ++ l))
         (shared_res sh' ((ag_reservation <$> gates') ++ l)).
Proof.
  induction n as [|n IH]; intros gates sh gates' sh' l; cbn [extend_gates]; [intros [= <- <-]; apply rtc_refl|].
  destruct (N.ltb_spec 0 (s_permits sh)) as [Hpos|]; [|intros [= <- <-]; apply rtc_refl].
  destruct (try_reserve _ _) as [[r|] b] eqn:Hr; [|intros [= <- <-]; apply rtc_refl].
  enter_cases r1 sh1 He. intros Hrun.
  etrans; [|eapply IH, Hrun]. etrans; [apply rtc_once|].
  - eapply rs_claim; [done|by right|done].
  - etrans; [eapply (enter_stage_rsteps _ _ _ _ _ _ He)|]. apply rsteps_move.
    rewrite fmap_app, <- app_assoc. simpl. apply Permutation_middle.
Qed.

Lemma extend_gates_frame n : ∀ gates (sh : Shared W1 W2 T) gates' sh',
  extend_gates cf n gates sh = (gates', sh') → sh' = with_capacity (s_budget sh') (s_permits sh') sh.
Proof.
  induction n as [|n IH]; intros gates sh gates' sh'; cbn [extend_gates]; [intros [= _ <-]; by destruct sh|].
  destruct (0 <? s_permits sh); [|intros [= _ <-]; by destruct sh].
  destruct (try_reserve _ _) as [[r|] b]; [|intros [= _ <-]; by destruct sh].
  unfold enter_stage. destruct (attach_stage _ _ _) as [r1 b1]. intros Hrun.
  rewrite (IH _ _ _ _ Hrun) at 1. done.
Qed.

Lemma open_gates_rsteps g sh gates sh' l :
  open_gates cf g sh = (gates, sh') →
  rsteps (shared_res sh (ag_reservation g :: l)) (shared_res sh' ((ag_reservation <$> gates) ++ l)) ∧
  sh' = with_capacity (s_budget sh') (s_permits sh') sh.
Proof.
  unfold open_gates. enter_cases r1 sh1 He. intros Hrun. split.
  - etrans; [eapply (enter_stage_rsteps _ _ _ _ _ _ He)|].
    exact (extend_gates_rsteps _ _ _ _ _ l Hrun).
  - rewrite (extend_gates_frame _ _ _ _ _ Hrun) at 1. unfold enter_stage in He.
    destruct (attach_stage _ _ _); by simplify_eq.
Qed.

(** What the methods of the coordinator and the source leave alone. *)
Record frame s s' : Prop := {
  fr_fetchers : sy_fetchers s' = sy_fetchers s;
  fr_decoders : sy_decoders s' = sy_decoders s;
  fr_writers : sy_writers s' = sy_writers s;
  fr_pc : a_pc (sy_actor s') = a_pc (sy_actor s);
  fr_open : a_admission_open (sy_actor s') = a_admission_open (sy_actor s);
  fr_shared : ∃ w1 tr, sy_shared s' = with_w1 w1 (log tr (sy_shared s));
}.

#[export] Instance frame_preorder : PreOrder frame.
Proof.
  split.
  - intros s. split; try done. exists (s_w1 (sy_shared s)), []. destruct s as [? [] ? ? ?].
    unfold log, with_w1; simpl. by rewrite app_nil_r.
  - intros s1 s2 s3 [? ? ? ? ? (w & tr & E1)] [? ? ? ? ? (w' & tr' & E2)]. split; try congruence.
    exists w', (tr ++ tr'). rewrite E2, E1. unfold log, with_w1; simpl. by rewrite app_assoc.
Qed.

Definition framed {A} (m : M (Sys C F W1 W2 T) RuntimeError A) : Prop := ∀ s, frame s (m s).1.

Lemma framed_bind {A B} (m : M (Sys C F W1 W2 T) RuntimeError A) (f : A → M _ _ B) :
  framed m → (∀ a, framed (f a)) → framed (m ≫= f).
Proof.
  intros Hm Hf s. rewrite run_bind. specialize (Hm s). destruct (m s) as [s1 [a|e]]; [|done].
  etrans; [exact Hm|]. apply Hf.
Qed.
Lemma framed_ret {A} (a : A) : framed (mret a).
Proof. intros s. reflexivity. Qed.
Lemma framed_get : framed get.
Proof. intros s. reflexivity. Qed.
Lemma framed_actor (f : Actor C F → Actor C F) :
  (∀ a, a_pc (f a) = a_pc a ∧ a_admission_open (f a) = a_admission_open a) →
  ∀ s, frame s (on_actor f s).
Proof.
  intros Hf s. destruct (Hf (sy_actor s)). split; try done.
  exists (s_w1 (sy_shared s)), []. destruct s as [? [] ? ? ?]. unfold log, with_w1; simpl.
  by rewrite app_nil_r.
Qed.
Lemma frame_log tr s : frame s (on_shared (log tr) s).
Proof. split; try done. exists (s_w1 (sy_shared s)), tr. by destruct s as [? [] ? ? ?]. Qed.
Lemma framed_source {A} (m : M (BufferSource C F * W1) RuntimeError A) : framed (on_source m).
Proof.
  intros s. unfold on_source, zoom. destruct (m _) as [[src w1] r]. split; try done.
  exists w1, []. destruct s as [? [] ? ? ?]. unfold log, with_w1, on_shared; simpl. by rewrite app_nil_r.
Qed.
Lemma framed_coordinator {A} (m : M AckCoordinator RuntimeError A) :
  framed (zoom (λ s, a_coordinator (sy_actor s)) (λ c, on_actor (with_coordinator c)) m).
Proof. intros s. unfold zoom. destruct (m _) as [c r]. by apply framed_actor. Qed.

Lemma framed_register_one d : framed (register_one (C := C) (F := F) (W1 := W1) (W2 := W2) (T := T) d).
Proof.
  unfold register_one. apply framed_bind; [apply framed_coordinator|]. intros _.
  apply framed_bind; [intros s; apply frame_log|]. intros _ s. by apply framed_actor.
Qed.

Lemma framed_for_each {A} (l : list A) f :
  (∀ x, framed (f x)) → framed (for_each l f).
Proof.
  intros Hf. induction l as [|x l IH]; [apply framed_ret|]. apply framed_bind; [apply Hf|]. by intros _.
Qed.

Lemma framed_flush : framed (flush_logged (C := C) (F := F) (W1 := W1) (W2 := W2) (T := T)).
Proof.
  intros s. unfold flush_logged. pose proof (framed_source flush_acks s) as Hf.
  destruct (on_source flush_acks s) as [s1 [[]|e]]; simpl in *; (etrans; [exact Hf|]; apply frame_log).
Qed.

Lemma framed_ack_frontier f : framed (ack_frontier (C := C) (W1 := W1) (W2 := W2) (T := T) cf f).
Proof.
  unfold ack_frontier. apply framed_bind; [intros s; apply frame_log|]. intros _.
  apply framed_bind; [apply framed_source|]. intros _.
  apply framed_bind; [intros s; by apply framed_actor|]. intros _.
  apply framed_bind; [intros s; by apply framed_actor|]. intros _.
  apply framed_bind; [apply framed_get|]. intros s0.
  apply framed_bind; [|intros _ s; by apply framed_actor].
  unfold when. destruct (should_flush _ _); [|apply framed_ret].
  apply framed_bind; [apply framed_flush|]. intros _ s. by apply framed_actor.
Qed.

Lemma framed_on_committed rep : framed (on_committed (C := C) (W1 := W1) (W2 := W2) (T := T) cf rep).
Proof.
  unfold on_committed. destruct (rep_range rep) as [low high].
  apply framed_bind; [apply framed_coordinator|]. intros _.
  apply framed_bind; [intros s; by apply framed_actor|]. intros _.
  apply framed_bind; [intros s; by apply framed_actor|]. intros _.
  apply framed_bind; [intros s; by apply framed_actor|]. intros _.
  apply framed_bind; [apply framed_get|]. intros s0.
  apply framed_bind; [|intros _ s; by apply framed_actor].
  destruct (frontier _); [|apply framed_ret]. unfold when.
  destruct (_ && _); [apply framed_ack_frontier | apply framed_ret].
Qed.

Lemma frame_shared s s' :
  frame s s' → s_budget (sy_shared s') = s_budget (sy_shared s) ∧
  s_permits (sy_shared s') = s_permits (sy_shared s) ∧ held_res s' = held_res s.
Proof.
  intros [Hf Hd Hw Hpc _ (w1 & tr & Hs)]. unfold held_res. rewrite Hf, Hd, Hw, Hpc, Hs. done.
Qed.

Lemma frame_res_of s s' : frame s s' → res_of s' = res_of s.
Proof. intros Hf. destruct (frame_shared _ _ Hf) as (Hb & Hp & Hh). unfold res_of. by rewrite Hb, Hp, Hh. Qed.

(** Everything held outside the actor. *)
Definition held_rest s : list Reservation :=
  (ad_reservation <$> s_descriptors (sy_shared s)) ++ concat (fetch_held <$> sy_fetchers s) ++
  (fb_reservation <$> s_fetched (sy_shared s)) ++ concat (decode_held <$> sy_decoders s) ++
  (sce_reservation <$> s_commits (sy_shared s)) ++ concat (write_held <$> sy_writers s).

Lemma held_res_split s : held_res s = actor_held (a_pc (sy_actor s)) ++ held_rest s.
Proof. done. Qed.

Lemma frame_rest s s' : frame s s' → held_rest s' = held_rest s.
Proof. intros [Hf Hd Hw _ _ (w1 & tr & Hs)]. unfold held_rest. by rewrite Hf, Hd, Hw, Hs. Qed.

Lemma frame_shared_res s s' l : frame s s' → shared_res (sy_shared s') l = shared_res (sy_shared s) l.
Proof. intros Hf. destruct (frame_shared _ _ Hf) as (Hb & Hp & _). unfold shared_res. by rewrite Hb, Hp. Qed.

Lemma release_all_capacity rs : ∀ (sh : Shared W1 W2 T),
  release_all rs sh = with_capacity (s_budget (release_all rs sh)) (s_permits (release_all rs sh)) sh.
Proof.
  induction rs as [|r rs IH]; intros sh; [by destruct sh|].
  change (release_all (r :: rs) sh) with (release_all rs (release r sh)). by rewrite IH at 1.
Qed.

Lemma held_rest_release rs s : held_rest (on_shared (release_all rs) s) = held_rest s.
Proof. unfold held_rest. simpl. by rewrite release_all_capacity. Qed.

(** The actor drops some gates and moves on with the rest. *)
Lemma drop_gates_resources gs pc s :
  rsteps (shared_res (sy_shared s) (gs ++ actor_held pc ++ held_rest s))
         (res_of (on_shared (release_all gs) (on_actor (with_pc pc) s))).
Proof.
  etrans; [apply (release_all_rsteps gs)|]. unfold res_of. rewrite held_res_split, held_rest_release.
  apply rtc_refl.
Qed.

Lemma zip_held (ds : list SourceBatchDescriptor) (gates : list AdmissionGate) :
  (length gates ≤ length ds)%nat →
  (λ x, ag_reservation x.2) <$> zip ds gates = ag_reservation <$> gates.
Proof.
  revert gates. induction ds as [|d ds IH]; intros [|g gates]; simpl; try done; [lia|].
  intros Hl. f_equal. apply IH. lia.
Qed.

Lemma poll_resources gates s :
  a_pc (sy_actor s) = APolling gates → rsteps (res_of s) (res_of (poll_descriptors gates s)).
Proof.
  intros Hpc. unfold poll_descriptors.
  destruct (next_descriptors _ _ _) as [[src w1] polled].
  set (s0 := on_shared (with_w1 w1) (on_actor (with_source src) s)).
  assert (frame s s0) as Hf0.
  { split; try done. exists w1, []. unfold s0, log, with_w1; simpl. by rewrite app_nil_r. }
  assert (rsteps (res_of s) (shared_res (sy_shared s0) ((ag_reservation <$> gates) ++ held_rest s0))) as Hst0.
  { rewrite (frame_shared_res _ _ _ Hf0), (frame_rest _ _ Hf0). unfold res_of.
    rewrite held_res_split, Hpc. apply rtc_refl. }
  destruct polled as [[|d ds]|e].
  - etrans; [exact Hst0|]. exact (drop_gates_resources (ag_reservation <$> gates) ASleeping s0).
  - set (n := length (d :: ds)).
    set (s1 := on_shared (release_all (ag_reservation <$> drop n gates)) s0).
    assert (rsteps (res_of s) (shared_res (sy_shared s1) ((ag_reservation <$> take n gates) ++ held_rest s0)))
      as Hst1.
    { etrans; [exact Hst0|]. etrans; [apply rsteps_move|apply (release_all_rsteps (ag_reservation <$> drop n gates))].
      rewrite app_assoc, <- fmap_app. f_equiv. apply fmap_Permutation.
      rewrite <- (take_drop n gates) at 1. apply Permutation_app_comm. }
    assert (held_rest s1 = held_rest s0) as Hr1 by apply held_rest_release.
    pose proof (framed_for_each (d :: ds) register_one framed_register_one s1) as Hf.
    change (for_each (d :: ds) _ s1) with (for_each (d :: ds) register_one s1).
    destruct (for_each (d :: ds) register_one s1) as [s2 [u|e]]; cbn [fst] in Hf.
    + etrans; [exact Hst1|]. rewrite <- Hr1, <- (frame_rest _ _ Hf), <- (frame_shared_res _ _ _ Hf).
      unfold res_of. rewrite held_res_split. cbn [sy_actor on_actor with_pc a_pc actor_held].
      rewrite zip_held; [apply rtc_refl|]. rewrite length_take. lia.
    + etrans; [exact Hst1|]. rewrite <- Hr1, <- (frame_rest _ _ Hf), <- (frame_shared_res _ _ _ Hf).
      exact (drop_gates_resources (ag_reservation <$> take n gates) (ADone (Err e)) s2).
  - etrans; [exact Hst0|]. exact (drop_gates_resources (ag_reservation <$> gates) (ADone (Err e)) s0).
Qed.

Lemma send_resources u rest s s' :
  a_pc (sy_actor s) = ASending (u :: rest) → send_descriptor cf u rest s = Some s' →
  rsteps (res_of s) (res_of s').
Proof.
  intros Hpc. unfold send_descriptor. destruct u as [d g].
  destruct (descriptors_closed s); [|room_cases; [|done]]; intros [= <-].
  - etrans; [|exact (drop_gates_resources _ (ADone _) s)].
    unfold res_of. rewrite held_res_split, Hpc. apply rtc_refl.
  - apply res_move; [done..|]. weigh.
Qed.

(** A step whose new state differs by the actor's counters and the trace. *)
Lemma finish_resources s s' r :
  a_pc (sy_actor s) = ALoop → frame s s' → rsteps (res_of s) (res_of (finish r s')).
Proof.
  intros Hpc Hf. unfold res_of. rewrite !held_res_split. cbn [sy_actor finish on_actor with_pc a_pc actor_held].
  destruct (frame_shared _ _ Hf) as (Hb & Hp & _). cbn [sy_shared on_actor finish]. rewrite Hb, Hp.
  change (held_rest (finish r s')) with (held_rest s'). rewrite (frame_rest _ _ Hf), Hpc. apply rtc_refl.
Qed.

Lemma completion_resources s s' :
  a_pc (sy_actor s) = ALoop → completion_arm cf s = Some s' → rsteps (res_of s) (res_of s').
Proof.
  intros Hpc. unfold completion_arm. destruct (s_completions (sy_shared s)) as [|[rep|e] rest].
  - destruct (completion_senders_gone s); [|done]. intros [= <-]. by apply finish_resources.
  - set (s0 := on_shared (with_completions rest) s).
    pose proof (framed_on_committed rep s0) as Hf.
    destruct (on_committed cf rep s0) as [s1 [u|e]]; intros [= <-]; simpl in Hf.
    + rewrite (frame_res_of _ _ Hf). by apply res_move.
    + change (res_of s) with (res_of s0). by apply finish_resources.
  - intros [= <-]. change (res_of s) with (res_of (on_shared (with_completions rest) s)).
    by apply finish_resources.
Qed.

Lemma actor_step_resources p s s' :
  actor_step cf p s = Some s' → rsteps (res_of s) (res_of s').
Proof.
  unfold actor_step. destruct (a_pc (sy_actor s)) as [|gates| |[|u us]|r] eqn:Hpc.
  - destruct (_ && _).
    + intros [= <-]. unfold drain_finish. destruct (negb _); cycle 1.
      { apply finish_resources; [done|]. by apply framed_actor. }
      pose proof (framed_flush s) as Hf. destruct (flush_logged s) as [s1 [u|e]]; cbn [fst] in Hf.
      * apply finish_resources; [done|]. etrans; [exact Hf|]. by apply framed_actor.
      * by apply finish_resources.
    + unfold actor_select. destruct (select_arm _ _) as [[]|]; [| | | |done].
      * destruct (s_abort _); [|done]. intros [= <-]. by apply finish_resources.
      * destruct (s_shutdown _); [|done]. intros [= <-]. apply res_move; [done..|].
        unfold held_res. simpl. by rewrite Hpc.
      * by apply completion_resources.
      * destruct (admission_attempt _ _) as [[g sh]|] eqn:Hadm; [|done].
        destruct (open_gates cf g sh) as [gates sh'] eqn:Hopen. intros [= <-].
        pose proof (admission_attempt_rsteps _ _ _ (held_rest s) Hadm) as Ha.
        destruct (open_gates_rsteps _ _ _ _ (held_rest s) Hopen) as [Ho Hsh'].
        assert (∃ b p', sh = with_capacity b p' (sy_shared s)) as (b & p' & Hsh).
        { unfold admission_attempt in Hadm. destruct (0 <? _); [|done].
          destruct (reserve _ _) as [[r|] b]; [|done]. simplify_eq. eauto. }
        etrans; [|etrans; [exact Ha|etrans; [exact Ho|]]].
        -- unfold res_of. rewrite held_res_split, Hpc. apply rtc_refl.
        -- unfold res_of. rewrite held_res_split. cbn [sy_actor sy_shared on_actor on_shared with_pc a_pc actor_held].
           match goal with |- rtc _ (shared_res ?x ?l1) {| res_held := ?l2 |} =>
             assert (l1 = l2) as Hl end; [|rewrite Hl; apply rtc_refl].
           f_equal. unfold held_rest. cbn [sy_shared on_shared on_actor sy_fetchers sy_decoders sy_writers].
           by rewrite Hsh', Hsh.
  - intros [= <-]. by apply poll_resources.
  - intros [= <-]. apply res_move; [done..|]. unfold held_res. simpl. by rewrite Hpc.
  - intros [= <-]. apply res_move; [done..|]. unfold held_res. simpl. by rewrite Hpc.
  - by apply send_resources.
  - done.
Qed.

(** Every step, of every task, on every path. *)
Lemma exec_resources ev s s' : exec cf ev s = Some s' → rsteps (res_of s) (res_of s').
Proof.
  destruct ev as [| |p|i arm|i arm|i arm sel|f|f]; simpl.
  - intros [= <-]. by apply res_move.
  - unfold supervisor_abort. destruct (a_pc (sy_actor s)) as [| | | |[|]]; try done.
    intros [= <-]. by apply res_move.
  - apply actor_step_resources.
  - apply fetch_step_resources.
  - apply decode_step_resources.
  - apply write_step_resources.
  - intros [= <-]. by apply res_move.
  - intros [= <-]. by apply res_move.
Qed.
End steps.

(** ** Properties *)

Section properties.
Context {C F W1 D K W2 T : Type}.
Context `{Consumer C F W1} `{TypedRecords T} `{Decoder D T} `{Sink K W2 T}.

(** [s] is a state of a run of the runtime that [b] builds. *)
Definition run_reaches (b : RuntimeBuilder C F D K) (w1 : W1) (w2 : W2) (cf : Config F D K)
    (s : Sys C F W1 W2 T) : Prop :=
  ∃ rt s0 evs, build b = Ok rt ∧ run_start rt w1 w2 = Ok s0 ∧ cf = run_config rt ∧
               exec_all cf evs s0 = Some s.

Lemma concat_replicate_nil {A B} (f : A → list B) x n : f x = [] → concat (f <$> replicate n x) = [].
Proof. intros Hx. induction n; simpl; [done|]. by rewrite Hx. Qed.

Lemma run_start_resources (rt : Runtime C F D K) (w1 : W1) (w2 : W2) (s0 : Sys C F W1 W2 T) :
  rt_source_byte_budget rt = Budget_new (bs_id (rt_source rt)) (max_inflight_bytes (bp (run_config rt))) →
  run_start rt w1 w2 = Ok s0 →
  resources_inv (estimated_max_batch_bytes (bp (run_config rt))) (fault_limit (bp (run_config rt)))
    (channel_depth (run_config rt)) (max_inflight_bytes (bp (run_config rt))) (res_of s0).
Proof.
  intros Hbud. unfold run_start. destruct (take_coordinator _ _) as [[coord|] reg]; [|done]. simpl.
  intros [= <-].
  split; cbn [res_of res_budget res_permits res_held].
  - unfold held_res. simpl. rewrite !concat_replicate_nil by done. simpl. rewrite N.add_0_r. done.
  - unfold held_res. simpl. rewrite !concat_replicate_nil by done. simpl. rewrite Hbud. apply accounts_new.
  - simpl. by rewrite Hbud.
  - unfold held_res. simpl. rewrite !concat_replicate_nil by done. constructor.
Qed.

Lemma exec_all_resources cf evs : ∀ (s s' : Sys C F W1 W2 T) depth cap,
  exec_all cf evs s = Some s' →
  resources_inv (estimated_max_batch_bytes (bp cf)) (fault_limit (bp cf)) depth cap (res_of s) →
  resources_inv (estimated_max_batch_bytes (bp cf)) (fault_limit (bp cf)) depth cap (res_of s').
Proof.
  induction evs as [|ev evs IH]; intros s s' depth cap; simpl; [by intros [= ->]|].
  destruct (exec cf ev s) as [s1|] eqn:Hev; [|done]. simpl. intros Hrun Hinv.
  eapply IH; [done|]. eapply rsteps_inv; [by eapply exec_resources|done].
Qed.

Lemma build_run (b : RuntimeBuilder C F D K) rt :
  build b = Ok rt →
  rt_source_byte_budget rt = Budget_new (bs_id (rt_source rt)) (max_inflight_bytes (bp (run_config rt))) ∧
  rt_coordinators rt =
    {[ bs_id (rt_source rt) := AckCoordinator_new (bs_id (rt_source rt)) (last_acked (rt_source rt)) ]}.
Proof.
  unfold build. destruct (rb_source b) as [source|]; [|done]. simpl.
  destruct (rb_decoder b) as [decoder|]; [|done]. simpl.
  destruct (rb_sink b) as [sink|]; [|done]. simpl.
  destruct (validate_backpressure _ _); [|done]. destruct (validate_overrides _); [|done].
  intros [= <-]. done.
Qed.

Lemma run_resources b w1 w2 cf (s : Sys C F W1 W2 T) :
  run_reaches b w1 w2 cf s →
  resources_inv (estimated_max_batch_bytes (bp cf)) (fault_limit (bp cf))
    (channel_depth cf) (max_inflight_bytes (bp cf)) (res_of s).
Proof.
  intros (rt & s0 & evs & Hb & Hs0 & -> & Hrun). destruct (build_run _ _ Hb) as [Hbud _].
  eapply exec_all_resources; [done|]. by eapply run_start_resources.
Qed.

Lemma held_sum_bound n rs : Forall (λ r, held r ≤ n) rs → held_sum rs ≤ N.of_nat (length rs) * n.
Proof. induction 1 as [|r rs Hr _ IH]; [done|]. rewrite held_sum_cons. simpl length. lia. Qed.

Lemma wrap64_le n : wrap64 n ≤ n.
Proof. unfold wrap64. by apply N.Div0.mod_le. Qed.

(** C12: conservation of resources.  In every state of every run, whatever the
    scheduling, the faults and the aborts: the free batch permits and the held
    ones add up to the configured depth; the byte budget and each stage gauge
    count exactly the bytes of the units held there; and although
    reconciliation may over-subscribe the budget, the bytes in flight never
    exceed the depth times the larger of the estimate and the oversize
    limit. *)
Theorem pipeline_resources_conserved (b : RuntimeBuilder C F D K) (w1 : W1) (w2 : W2)
    (cf : Config F D K) (s : Sys C F W1 W2 T) (Hrun : run_reaches b w1 w2 cf s) :
  let budget := s_budget (sy_shared s) in
  s_permits (sy_shared s) + N.of_nat (length (held_res s)) = channel_depth cf ∧
  in_flight budget = wrap64 (held_sum (held_res s)) ∧
  (∀ l, stage_load l budget = wrap64 (held_at l (held_res s))) ∧
  capacity budget = max_inflight_bytes (bp cf) ∧
  in_flight budget ≤ channel_depth cf * N.max (estimated_max_batch_bytes (bp cf)) (fault_limit (bp cf)).
Proof.
  destruct (run_resources _ _ _ _ _ Hrun) as [Hp [Hf Hl] Hc Hb]. simpl in *.
  split_and!; try done. rewrite Hf. etrans; [apply wrap64_le|].
  etrans; [by apply held_sum_bound|]. apply N.mul_le_mono_r. lia.
Qed.

Lemma length_concat_ge {A B} (f : A → list B) l i x :
  l !! i = Some x → (length (f x) ≤ length (concat (f <$> l)))%nat.
Proof.
  revert i. induction l as [|y l IH]; intros [|i]; [done..| |].
  - intros [= ->]. change (length (f x) ≤ length (f x ++ concat (f <$> l)))%nat. rewrite length_app. lia.
  - intros Hi. specialize (IH _ Hi).
    change (length (f x) ≤ length (f y ++ concat (f <$> l)))%nat. rewrite length_app. lia.
Qed.

Lemma sends_have_room (b : RuntimeBuilder C F D K) (w1 : W1) (w2 : W2)
    (cf : Config F D K) (s : Sys C F W1 W2 T) (Hrun : run_reaches b w1 w2 cf s) :
  (∀ u rest, a_pc (sy_actor s) = ASending (u :: rest) → has_room cf (s_descriptors (sy_shared s)) = true) ∧
  (∀ i x, sy_fetchers s !! i = Some (FSending x) → has_room cf (s_fetched (sy_shared s)) = true) ∧
  (∀ i e seq, sy_decoders s !! i = Some (DSending e seq) → has_room cf (s_commits (sy_shared s)) = true).
Proof.
  destruct (run_resources _ _ _ _ _ Hrun) as [Hp _ _ _]. cbn [res_permits res_of res_held] in Hp.
  unfold held_res in Hp. rewrite !length_app, !length_fmap in Hp. unfold has_room.
  split_and!.
  - intros u rest Hpc. rewrite Hpc in Hp. cbn [actor_held] in Hp. rewrite length_fmap in Hp.
    simpl length in Hp. apply N.ltb_lt. lia.
  - intros i x Hi. pose proof (length_concat_ge fetch_held _ _ _ Hi) as Hl. simpl in Hl.
    apply N.ltb_lt. lia.
  - intros i e seq Hi. pose proof (length_concat_ge decode_held _ _ _ Hi) as Hl. simpl in Hl.
    apply N.ltb_lt. lia.
Qed.

(** C28: the channels between the stages never fill up under a sender.  A task
    that is about to send a unit finds room in its channel: every unit holds
    one of the permits and the channels are as deep as there are permits.  The
    actor therefore never blocks on its send-all pass, which it runs with its
    completion arm unpolled. *)
Theorem stage_sends_never_block (b : RuntimeBuilder C F D K) (w1 : W1) (w2 : W2)
    (cf : Config F D K) (s : Sys C F W1 W2 T) (Hrun : run_reaches b w1 w2 cf s) :
  (∀ u rest, a_pc (sy_actor s) = ASending (u :: rest) → has_room cf (s_descriptors (sy_shared s)) = true) ∧
  (∀ i x, sy_fetchers s !! i = Some (FSending x) → has_room cf (s_fetched (sy_shared s)) = true) ∧
  (∀ i e seq, sy_decoders s !! i = Some (DSending e seq) → has_room cf (s_commits (sy_shared s)) = true).
Proof. by apply (sends_have_room b w1 w2). Qed.
End properties.

(** ** The properties at work *)

Lemma demo_reaches dry evs s :
  demo_run dry evs = Some s → run_reaches (demo_builder dry) demo_world demo_sink_world (demo_config dry) s.
Proof. intros (rt & s0 & Hb & Hs0 & Hcf & Hrun)%demo_run_start. by exists rt, s0, evs. Qed.

Lemma pipeline_resources_conserved_witness :
  ∃ s, demo_run false (demo_admit ++ demo_decode) = Some s ∧
    s_permits (sy_shared s) = 62 ∧ in_flight (s_budget (sy_shared s)) = 400 ∧
    s_permits (sy_shared s) + N.of_nat (length (held_res s)) = 64 ∧
    in_flight (s_budget (sy_shared s)) ≤ 64 * N.max (4 * 1024 * 1024) (16 * 1024 * 1024).
Proof.
  destruct (demo_run false (demo_admit ++ demo_decode)) as [s|] eqn:Hrun; [|by vm_compute in Hrun].
  exists s. split; [done|].
  destruct (pipeline_resources_conserved _ _ _ _ _ (demo_reaches _ _ _ Hrun)) as (Hp & _ & _ & _ & Hb).
  split; [vm_compute in Hrun; by simplify_eq|]. split; [vm_compute in Hrun; by simplify_eq|].
  split; [exact Hp|exact Hb].
Defined.

Lemma stage_sends_never_block_witness :
  ∃ s u rest, demo_run false (replicate 2 step_actor) = Some s ∧ a_pc (sy_actor s) = ASending (u :: rest) ∧
    has_room (demo_config false) (s_descriptors (sy_shared s)) = true.
Proof.
  destruct (demo_run false (replicate 2 step_actor)) as [s|] eqn:Hrun; [|by vm_compute in Hrun].
  assert (∃ u rest, a_pc (sy_actor s) = ASending (u :: rest)) as (u & rest & Hpc)
    by (vm_compute in Hrun; simplify_eq; simpl; eauto).
  exists s, u, rest. split; [done|]. split; [done|].
  by apply (stage_sends_never_block _ _ _ _ _ (demo_reaches _ _ _ Hrun)) with (u := u) (rest := rest).
Defined.
