(* ===== verification/PipelineWorkers.v ===== *)
(** * What a worker step does

    The trace of a run and what the values the workers carry promise about it:
    a completion reaches the actor only after the sink confirmed its commit
    ([workers_ok]).  Each worker step keeps the promises and hands the
    sequences it holds on, or loses them and says so ([worker_effect]). *)

From Stdlib Require Import NArith Lia.
From stdpp Require Import relations.
From S2P Require Import Prelude.
From S2P Require Import BTree.
From S2P Require Import Types.
From S2P Require Import AckCoordinator.
From S2P Require Import ByteBudget.
From S2P Require Import Source.
From S2P Require Import Options.
From S2P Require Import Metrics.
From S2P Require Import WriteRetry.
From S2P Require Import Decode.
From S2P Require Import Pipeline.
From S2P Require Import PipelineResources.
Local Open Scope N_scope.

(** ** Reading a trace *)

Section trace.
Context {T : Type}.
Implicit Types tr : list (TraceEvent T).

Definition admits tr : list N := omap (λ e, match e with TrAdmit q => Some q | _ => None end) tr.
Definition acks tr : list N := omap (λ e, match e with TrAck f => Some f | _ => None end) tr.

Definition call_range (c : SinkCall T) : SequenceRange :=
  match c with
  | CallWrite commit _ => ci_range (sc_identity commit)
  | CallCheck identity _ => ci_range identity
  end.

(** The sink confirmed the commit of sequence [q]. *)
Definition confirmed (q : N) tr : Prop :=
  ∃ c, TrCall c ∈ tr ∧ confirms c = true ∧ call_range c = SequenceRange_new q q.

(** Every acknowledgement comes after the confirmation of every admitted
    sequence it covers. *)
Definition ack_justified tr : Prop :=
  ∀ tr1 f tr2, tr = tr1 ++ TrAck f :: tr2 → ∀ q, q ∈ admits tr → q ≤ f → confirmed q tr1.

Lemma admits_app tr1 tr2 : admits (tr1 ++ tr2) = admits tr1 ++ admits tr2.
Proof. apply omap_app. Qed.
Lemma acks_app tr1 tr2 : acks (tr1 ++ tr2) = acks tr1 ++ acks tr2.
Proof. apply omap_app. Qed.
Lemma admits_calls (cs : list (SinkCall T)) : admits (TrCall <$> cs) = [].
Proof. by induction cs. Qed.
Lemma acks_calls (cs : list (SinkCall T)) : acks (TrCall <$> cs) = [].
Proof. by induction cs. Qed.

Lemma confirmed_app q tr tr' : confirmed q tr → confirmed q (tr ++ tr').
Proof. intros (c & Hc & ?). exists c. split; [|done]. apply elem_of_app. by left. Qed.

Lemma elem_acks f tr : f ∈ acks tr ↔ TrAck f ∈ tr.
Proof.
  unfold acks. rewrite list_elem_of_omap. split.
  - intros (e & He & Heq). destruct e; by simplify_eq.
  - intros Hf. by exists (TrAck f).
Qed.

(** The last position of a split is in the old trace or is the new event. *)
Lemma split_snoc {A} (l : list A) x l1 y l2 :
  l ++ [x] = l1 ++ y :: l2 → (l = l1 ∧ x = y) ∨ (∃ l2', l = l1 ++ y :: l2').
Proof.
  destruct l2 as [|z l2 _] using rev_ind.
  - intros [-> ->]%app_inj_tail. by left.
  - rewrite app_comm_cons, app_assoc. intros [-> _]%app_inj_tail. right. by eexists.
Qed.

Lemma ack_justified_nil : ack_justified [].
Proof. intros [|? ?] f tr2 [=]. Qed.

Lemma ack_justified_snoc tr e :
  ack_justified tr →
  match e with
  | TrAdmit q => ∀ f, f ∈ acks tr → f < q
  | TrAck f => ∀ q, q ∈ admits tr → q ≤ f → confirmed q tr
  | TrCall _ | TrFlush _ => True
  end → ack_justified (tr ++ [e]).
Proof.
  intros Hok He tr1 f tr2 Hsplit q Hq Hle. rewrite admits_app in Hq.
  destruct (split_snoc _ _ _ _ _ Hsplit) as [[-> ->]|[tr2' Htr]].
  - simpl in Hq. rewrite app_nil_r in Hq. by apply He.
  - apply elem_of_app in Hq as [Hq|Hq]; [by eapply Hok|].
    destruct e as [q'| | |]; simpl in Hq; try (by apply elem_of_nil in Hq).
    apply list_elem_of_singleton in Hq as ->.
    assert (f ∈ acks tr) as Hf by (apply elem_acks; rewrite Htr; apply elem_of_app; right; left).
    specialize (He f Hf). lia.
Qed.

Lemma ack_justified_calls tr (cs : list (SinkCall T)) :
  ack_justified tr → ack_justified (tr ++ (TrCall <$> cs)).
Proof.
  revert tr. induction cs as [|c cs IH]; intros tr Hok; [by rewrite app_nil_r|].
  rewrite fmap_cons, cons_middle, app_assoc. apply IH. by apply ack_justified_snoc.
Qed.
End trace.

(** ** What the workers carry *)

Definition actor_live (pc : ActorPc) : list N :=
  match pc with
  | ASending units => (λ x, sbd_sequence x.1) <$> units
  | _ => []
  end.
Definition fetch_live (pc : FetchPc) : list N :=
  match pc with
  | FFetching a => [sbd_sequence (ad_descriptor a)]
  | FSending b => [fb_sequence b]
  | _ => []
  end.
Definition message_live (m : WriteCompletion) : list N :=
  match m with WCCommitted rep => [(rep_range rep).1] | WCFatal _ => [] end.

Section live.
Context {C F W1 D K W2 T : Type}.
Implicit Types s : Sys C F W1 W2 T.

Definition decode_live (pc : DecodePc T) : list N :=
  match pc with
  | DDecoding b => [fb_sequence b]
  | DSending e _ => [(sce_range e).1]
  | DReporting m _ _ => message_live m
  | _ => []
  end.
Definition write_live (pc : WritePc T) : list N :=
  match pc with
  | WWriting e _ => [(sce_range e).1]
  | WReporting m _ _ => message_live m
  | _ => []
  end.

(** The sequences in flight outside the actor, and all of them. *)
Definition live_rest s : list N :=
  ((λ a, sbd_sequence (ad_descriptor a)) <$> s_descriptors (sy_shared s)) ++
  concat (fetch_live <$> sy_fetchers s) ++ (fb_sequence <$> s_fetched (sy_shared s)) ++
  concat (decode_live <$> sy_decoders s) ++ ((λ e, (sce_range e).1) <$> s_commits (sy_shared s)) ++
  concat (write_live <$> sy_writers s) ++ concat (message_live <$> s_completions (sy_shared s)).
Definition live s : list N := actor_live (a_pc (sy_actor s)) ++ live_rest s.

Lemma live_rest_sum (g : N → N) s :
  sum_N (g <$> live_rest s) =
  sum_N (g <$> ((λ a, sbd_sequence (ad_descriptor a)) <$> s_descriptors (sy_shared s))) +
  sum_N (g <$> concat (fetch_live <$> sy_fetchers s)) +
  sum_N (g <$> (fb_sequence <$> s_fetched (sy_shared s))) +
  sum_N (g <$> concat (decode_live <$> sy_decoders s)) +
  sum_N (g <$> ((λ e, (sce_range e).1) <$> s_commits (sy_shared s))) +
  sum_N (g <$> concat (write_live <$> sy_writers s)) +
  sum_N (g <$> concat (message_live <$> s_completions (sy_shared s))).
Proof. unfold live_rest. rewrite !sum_N_fmap_app. lia. Qed.

(** *** What the carried values promise *)

Context (cf : Config F D K).
Abbreviation dry := (dry_run (cf_options cf)).

Definition good_message (tr : list (TraceEvent T)) (m : WriteCompletion) : Prop :=
  match m with
  | WCCommitted rep => ∃ q, rep_range rep = (q, q) ∧ (dry = false → confirmed q tr)
  | WCFatal _ => True
  end.
Definition good_envelope (e : SinkCommitEnvelope T) : Prop :=
  dry = false ∧
  ∃ q, sce_range e = (q, q) ∧ ci_range (sc_identity (sce_commit e)) = SequenceRange_new q q.
Definition good_retry (tr : list (TraceEvent T)) (q : N) (pc : RetryPc) : Prop :=
  match pc with PDone a => is_ok (wa_inner a) = true → confirmed q tr | _ => True end.
Definition good_decode (tr : list (TraceEvent T)) (pc : DecodePc T) : Prop :=
  match pc with
  | DSending e _ => good_envelope e
  | DReporting m _ _ => good_message tr m
  | _ => True
  end.
Definition good_write (tr : list (TraceEvent T)) (pc : WritePc T) : Prop :=
  match pc with
  | WWriting e rp => good_envelope e ∧ good_retry tr (sce_range e).1 rp
  | WReporting m _ _ => good_message tr m
  | _ => True
  end.

Record workers_ok s : Prop := {
  wo_commits : Forall good_envelope (s_commits (sy_shared s));
  wo_completions : Forall (good_message (s_trace (sy_shared s))) (s_completions (sy_shared s));
  wo_decoders : Forall (good_decode (s_trace (sy_shared s))) (sy_decoders s);
  wo_writers : Forall (good_write (s_trace (sy_shared s))) (sy_writers s);
}.

Lemma good_message_app tr tr' m : good_message tr m → good_message (tr ++ tr') m.
Proof.
  destruct m as [rep|e]; [|done]. intros (q & Hq & Hc). exists q. split; [done|].
  intros Hd. by apply confirmed_app, Hc.
Qed.
Lemma good_decode_app tr tr' pc : good_decode tr pc → good_decode (tr ++ tr') pc.
Proof. destruct pc; simpl; try done. apply good_message_app. Qed.
Lemma good_write_app tr tr' pc : good_write tr pc → good_write (tr ++ tr') pc.
Proof.
  destruct pc as [|e rp|m r p| |]; simpl; try done; [|apply good_message_app].
  intros [He Hr]. split; [done|]. destruct rp; simpl in *; try done.
  intros Hok. by apply confirmed_app, Hr.
Qed.

(** *** What a worker step does *)

Record worker_effect s s' : Prop := {
  we_actor : sy_actor s' = sy_actor s;
  we_trace : ∃ cs, s_trace (sy_shared s') = s_trace (sy_shared s) ++ (TrCall <$> cs) ∧
                   (workers_ok s → dry = true → cs = []);
  we_workers : workers_ok s → workers_ok s';
  we_live : ∃ lost, live_rest s ≡ₚ lost ++ live_rest s';
}.
End live.

(** ** Worker steps *)

Section worker_steps.
Context {C F W1 D K W2 T : Type}.
Context `{Consumer C F W1} `{TypedRecords T} `{Decoder D T} `{Sink K W2 T}.
Context (cf : Config F D K).
Implicit Types s : Sys C F W1 W2 T.
Abbreviation effect := (worker_effect (C := C) (W1 := W1) (W2 := W2) (T := T) cf).

Ltac live_round :=
  cbn [fetch_live decode_live write_live message_live actor_live ad_descriptor fb_sequence sce_range
       rep_range concat fst snd];
  rewrite ?fmap_app, ?concat_app, ?fmap_cons, ?concat_cons, ?fmap_nil, ?app_nil_l, ?app_nil_r,
    ?sum_N_app, ?sum_N_cons, ?sum_N_nil.
Ltac live_cells := live_round; live_round; live_round.
Ltac live_facts g :=
  repeat match goal with
  | Hi : sy_fetchers ?s !! ?i = Some ?x |- context [<[?i := ?y]> (sy_fetchers ?s)] =>
      let E := fresh "E" in
      pose proof (sum_N_concat_insert fetch_live g _ i x y Hi) as E; revert E;
      generalize (sum_N (g <$> concat (fetch_live <$> <[i:=y]> (sy_fetchers s))));
      let n := fresh "n" in intros n; live_cells; intros E
  | Hi : sy_decoders ?s !! ?i = Some ?x |- context [<[?i := ?y]> (sy_decoders ?s)] =>
      let E := fresh "E" in
      pose proof (sum_N_concat_insert decode_live g _ i x y Hi) as E; revert E;
      generalize (sum_N (g <$> concat (decode_live <$> <[i:=y]> (sy_decoders s))));
      let n := fresh "n" in intros n; live_cells; intros E
  | Hi : sy_writers ?s !! ?i = Some ?x |- context [<[?i := ?y]> (sy_writers ?s)] =>
      let E := fresh "E" in
      pose proof (sum_N_concat_insert write_live g _ i x y Hi) as E; revert E;
      generalize (sum_N (g <$> concat (write_live <$> <[i:=y]> (sy_writers s))));
      let n := fresh "n" in intros n; live_cells; intros E
  end.
(** Weigh the live sequences; [l] is what the step loses. *)
Ltac weigh_live l :=
  exists l; apply permutation_of_sums; let g := fresh "g" in intros g;
  rewrite ?sum_N_fmap_app, ?live_rest_sum;
  cbn [sy_actor sy_shared sy_fetchers sy_decoders sy_writers set_fetcher set_decoder set_writer
       on_shared on_actor s_descriptors s_fetched s_commits s_completions with_descriptors with_fetched
       with_commits with_completions with_w1 with_w2 with_capacity with_tokens log release];
  repeat match goal with
  | Hq : s_descriptors _ = _ |- _ => rewrite Hq
  | Hq : s_fetched _ = _ |- _ => rewrite Hq
  | Hq : s_commits _ = _ |- _ => rewrite Hq
  | Hq : s_completions _ = _ |- _ => rewrite Hq
  end;
  live_facts g; live_cells; lia.

(** A step that leaves what the completions, the commits and the two later
    pools promise. *)
Lemma effect_quiet s s' :
  sy_actor s' = sy_actor s → s_trace (sy_shared s') = s_trace (sy_shared s) →
  (workers_ok cf s → workers_ok cf s') → (∃ lost, live_rest s ≡ₚ lost ++ live_rest s') → effect s s'.
Proof.
  intros Ha Ht Hw Hl. split; try done. exists []. by rewrite app_nil_r.
Qed.

Lemma workers_ok_ext s s' :
  s_commits (sy_shared s') = s_commits (sy_shared s) →
  s_completions (sy_shared s') = s_completions (sy_shared s) →
  sy_decoders s' = sy_decoders s → sy_writers s' = sy_writers s →
  s_trace (sy_shared s') = s_trace (sy_shared s) →
  workers_ok cf s → workers_ok cf s'.
Proof. intros Hc Hm Hd Hw Ht []. split; by rewrite ?Hc, ?Hm, ?Hd, ?Hw, ?Ht. Qed.

(** The one message a worker sends. *)
Lemma workers_ok_send s m :
  workers_ok cf s → good_message cf (s_trace (sy_shared s)) m →
  workers_ok cf (on_shared (λ sh, with_completions (s_completions sh ++ [m]) sh) s).
Proof.
  intros [] Hm. split; simpl; try done. apply Forall_app. split; [done|]. by constructor.
Qed.

Lemma workers_ok_decoder s i pc :
  workers_ok cf s → good_decode cf (s_trace (sy_shared s)) pc → workers_ok cf (set_decoder i pc s).
Proof. intros [] Hpc. split; simpl; try done. by apply Forall_insert. Qed.
Lemma workers_ok_writer s i pc :
  workers_ok cf s → good_write cf (s_trace (sy_shared s)) pc → workers_ok cf (set_writer i pc s).
Proof. intros [] Hpc. split; simpl; try done. by apply Forall_insert. Qed.

Ltac room_cases :=
  match goal with |- context [has_room cf ?q] => destruct (has_room cf q) end.

Lemma fetch_step_effect i arm s s' : fetch_step cf i arm s = Some s' → effect s s'.
Proof.
  unfold fetch_step. destruct (sy_fetchers s !! i) as [pc|] eqn:Hi; [|done]. simpl.
  unfold abort_if. destruct pc as [|a|b|e r p|]; [destruct arm|destruct arm| | |]; try done.
  - unfold fetch_recv. destruct (s_descriptors (sy_shared s)) as [|a rest] eqn:Hq.
    + destruct (descriptors_closed s); [|done]. intros [= <-].
      apply effect_quiet; [done..|by apply workers_ok_ext|]. weigh_live (@nil N).
    + unfold enter_stage. destruct (attach_stage _ _ _) as [r b]. intros [= <-].
      apply effect_quiet; [done..|by apply workers_ok_ext|]. weigh_live (@nil N).
  - destruct (_ && _); [|done]. intros [= <-].
    apply effect_quiet; [done..|by apply workers_ok_ext|]. weigh_live (@nil N).
  - unfold fetch_run. destruct (Source.fetch _ _ _) as [w1 [batch|e]]; intros [= <-];
      (apply effect_quiet; [done..|by apply workers_ok_ext|]).
    + weigh_live (@nil N).
    + weigh_live [sbd_sequence (ad_descriptor a)].
  - destruct (_ && _); [|done]. intros [= <-].
    apply effect_quiet; [done..|by apply workers_ok_ext|]. weigh_live [sbd_sequence (ad_descriptor a)].
  - unfold fetch_send. destruct (fetched_closed s); [|room_cases; [|done]]; intros [= <-];
      (apply effect_quiet; [done..|by apply workers_ok_ext|]).
    + weigh_live [fb_sequence b].
    + weigh_live (@nil N).
  - unfold send_completion. destruct (actor_done s); [|room_cases; [|done]]; intros [= <-];
      (apply effect_quiet; [done..| |weigh_live (@nil N)]); intros Hok.
    + by apply (workers_ok_ext s).
    + eapply workers_ok_ext, (workers_ok_send _ (WCFatal e) Hok); done.
Qed.
Lemma decode_one_outcome decoder options sink batch seq b x x' outcome :
  decode_one (T := T) decoder options sink batch seq b x = (x', Ok outcome) →
  (dry_run options = true ∧ ∃ rows, outcome = DryRun (seq, seq) rows) ∨
  (dry_run options = false ∧ ∃ commit, outcome = Live commit (seq, seq) ∧
     ci_range (sc_identity commit) = SequenceRange_new seq seq).
Proof.
  rewrite decode_one_run. destruct (decode_checked decoder batch seq) as [d|e] eqn:Hd; [|done].
  destruct (oversize_gate b d) as [[]|e]; [|done]. apply decode_checked_ok in Hd as (_ & _ & -> & ->).
  intros [= _ <-]. destruct (dry_run options); [left; eauto|right].
  split; [done|]. eexists. split; [done|]. done.
Qed.

Lemma send_completion_effect m s :
  ∀ delivered s1, send_completion cf m s = Some (delivered, s1) →
  sy_actor s1 = sy_actor s ∧ s_trace (sy_shared s1) = s_trace (sy_shared s) ∧
  s_descriptors (sy_shared s1) = s_descriptors (sy_shared s) ∧
  s_fetched (sy_shared s1) = s_fetched (sy_shared s) ∧ s_commits (sy_shared s1) = s_commits (sy_shared s) ∧
  sy_fetchers s1 = sy_fetchers s ∧ sy_decoders s1 = sy_decoders s ∧ sy_writers s1 = sy_writers s ∧
  s_completions (sy_shared s1) = (if delivered then s_completions (sy_shared s) ++ [m]
                                  else s_completions (sy_shared s)) ∧
  (workers_ok cf s → good_message cf (s_trace (sy_shared s)) m → workers_ok cf s1).
Proof.
  intros delivered s1. unfold send_completion. destruct (actor_done s); [intros [= <- <-]; done|].
  room_cases; [|done]. intros [= <- <-]. split_and!; try done. apply workers_ok_send.
Qed.

Lemma decode_step_effect i arm s s' : decode_step cf i arm s = Some s' → effect s s'.
Proof.
  unfold decode_step. destruct (sy_decoders s !! i) as [pc|] eqn:Hi; [|done]. simpl.
  assert (workers_ok cf s → good_decode cf (s_trace (sy_shared s)) pc) as Hpc.
  { intros [_ _ Hd _]. by eapply Forall_lookup_1. }
  unfold abort_if. destruct pc as [|b|e sq|m r p|r p|]; [destruct arm|destruct arm| | | |]; try done.
  - unfold decode_recv. destruct (s_fetched (sy_shared s)) as [|b rest] eqn:Hq.
    + destruct (fetched_closed s); [|done]. intros [= <-].
      apply effect_quiet; [done..| |weigh_live (@nil N)]. intros Hok. by apply workers_ok_decoder.
    + unfold enter_stage. destruct (attach_stage _ _ _) as [r bud]. intros [= <-].
      apply effect_quiet; [done..| |weigh_live (@nil N)]. intros Hok.
      apply workers_ok_decoder; [|done]. by apply (workers_ok_ext s).
  - destruct (_ && _); [|done]. intros [= <-].
    apply effect_quiet; [done..| |weigh_live (@nil N)]. intros Hok. by apply workers_ok_decoder.
  - unfold decode_run. destruct (decode_one _ _ _ _ _ _ _) as [[r bud] outcome] eqn:Hrun.
    destruct outcome as [o|e].
    + apply decode_one_outcome in Hrun as [(Hdry & rows & ->)|(Hdry & commit & -> & Hid)]; intros [= <-].
      * apply effect_quiet; [done..| |weigh_live (@nil N)]. intros Hok.
        apply workers_ok_decoder; [by apply (workers_ok_ext s)|]. simpl.
        exists (fb_sequence b). split; [done|congruence].
      * apply effect_quiet; [done..| |weigh_live (@nil N)]. intros Hok.
        apply workers_ok_decoder; [by apply (workers_ok_ext s)|]. simpl. split; [done|]. eauto.
    + intros [= <-]. apply effect_quiet; [done..| |weigh_live [fb_sequence b]]. intros Hok.
      apply workers_ok_decoder; [by apply (workers_ok_ext s)|done].
  - destruct (_ && _); [|done]. intros [= <-].
    apply effect_quiet; [done..| |weigh_live [fb_sequence b]]. intros Hok.
    apply workers_ok_decoder; [|done]. by apply (workers_ok_ext s).
  - unfold decode_send. destruct (commits_closed s); [|room_cases; [|done]]; intros [= <-].
    + apply effect_quiet; [done..| |weigh_live [(sce_range e).1]]. intros Hok. by apply workers_ok_decoder.
    + apply effect_quiet; [done..| |weigh_live (@nil N)]. intros Hok.
      apply workers_ok_decoder; [|done]. specialize (Hpc Hok). destruct Hok.
      split; simpl; try done. apply Forall_app. split; [done|]. by constructor.
  - destruct (send_completion cf m s) as [[delivered s1]|] eqn:Hsend; [|done]. simpl.
    destruct (send_completion_effect _ _ _ _ Hsend) as (Ha & Ht & Hds & Hf & Hc & Hfs & Hde & Hws & Hm & Hok1).
    assert (sy_decoders s1 !! i = Some (DReporting m r p)) as Hi1 by (by rewrite Hde).
    intros [= <-]. destruct (report_continues m delivered) eqn:Hcont.
    + destruct m as [rep|?]; [|done]. destruct delivered; [|done].
      apply effect_quiet; [done..| |].
      * intros Hok. apply workers_ok_decoder; [|done]. apply Hok1; [done|]. by apply Hpc.
      * exists []. apply permutation_of_sums. intros g. rewrite ?sum_N_fmap_app, ?live_rest_sum.
        cbn [sy_shared sy_fetchers sy_decoders sy_writers set_decoder]. rewrite Hds, Hf, Hc, Hfs, Hws, Hm.
        live_facts g. rewrite Hde in *. live_cells. lia.
    + apply effect_quiet; [done..| |].
      * intros Hok. apply workers_ok_decoder; [|done]. apply (workers_ok_ext s1); [done..|].
        apply Hok1; [done|]. by apply Hpc.
      * exists (if delivered then [] else message_live m).
        apply permutation_of_sums. intros g. rewrite ?sum_N_fmap_app, ?live_rest_sum.
        cbn [sy_shared sy_fetchers sy_decoders sy_writers set_decoder on_shared release with_capacity
             s_descriptors s_fetched s_commits s_completions].
        rewrite Hds, Hf, Hc, Hfs, Hws, Hm.
        destruct m as [rep|?], delivered; try done; live_facts g; rewrite Hde in *; live_cells; lia.
  - intros [= <-]. apply effect_quiet; [done..| |weigh_live (@nil N)]. intros Hok.
    apply workers_ok_decoder; [|done]. by apply (workers_ok_ext s).
Qed.

(** One await of the retry loop: its call, and what a successful end means. *)
Lemma retry_step_good tr sink commit n sel pc w pc' w' call q :
  retry_step sink commit n sel pc w = (pc', w', call) →
  ci_range (sc_identity commit) = SequenceRange_new q q → good_retry tr q pc →
  good_retry (tr ++ (TrCall <$> option_list call)) q pc'.
Proof.
  intros Hstep Hid Hgood.
  assert (∀ c, confirms c = true → call_range c = SequenceRange_new q q →
    confirmed q (tr ++ (TrCall <$> option_list (Some c)))) as Hconf.
  { intros c Hc Hr. exists c. split_and!; try done. simpl. apply elem_of_app. right. left. }
  destruct pc as [n0|n0 e|n0|a], sel as [slow|slow partial]; simpl in Hstep.
  all: try (injection Hstep as <- <- <-; simpl; rewrite ?app_nil_r; try done).
  - destruct (sink_write sink commit w) as [w1 r]. injection Hstep as <- <- <-.
    destruct r as [r|[e|e|e]]; simpl; try done.
    + intros _. by apply Hconf.
    + unfold sleep_or_fail. by destruct (_ <=? _).
  - destruct (check_committed sink (sc_identity commit) w) as [w1 r]. injection Hstep as <- <- <-.
    destruct r as [[]|err]; simpl; try done.
    + intros _. by apply Hconf.
    + unfold sleep_or_fail. by destruct (_ <=? _).
    + unfold sleep_or_fail. by destruct (_ <=? _).
Qed.

Lemma workers_ok_log cs s :
  workers_ok cf s → workers_ok cf (on_shared (log (TrCall <$> cs)) s).
Proof.
  intros []. split; simpl; try done.
  - eapply Forall_impl; [done|]. intros m. apply good_message_app.
  - eapply Forall_impl; [done|]. intros m. apply good_decode_app.
  - eapply Forall_impl; [done|]. intros m. apply good_write_app.
Qed.

Lemma write_run_effect i e pc sel s s' :
  sy_writers s !! i = Some (WWriting e pc) → write_run cf i e pc sel s = Some s' → effect s s'.
Proof.
  intros Hi.
  assert (workers_ok cf s → good_write cf (s_trace (sy_shared s)) (WWriting e pc)) as Hpc.
  { intros [_ _ _ Hw]. by eapply Forall_lookup_1. }
  assert ((∃ a, pc = PDone a) ∨ ∀ a, pc ≠ PDone a) as [[a ->]|Hnd].
  { destruct pc; [by right..|left; eauto]. }
  - intros [= <-]. apply effect_quiet; [done..| |].
    + intros Hok. apply workers_ok_writer; [done|]. destruct (Hpc Hok) as [[Hdry (q & Hr & _)] Hg].
      simpl in Hg |- *. unfold completion_of. rewrite Hr in Hg |- *.
      destruct (wa_inner a) as [[r|]|err]; simpl in *; [exists q..|done]; (split; [done|]); auto.
    + destruct (completion_of (sce_range e) a) as [rep|err] eqn:Hc; [|weigh_live [(sce_range e).1]].
      assert (rep_range rep = sce_range e) as Hrr.
      { unfold completion_of in Hc. destruct (wa_inner a) as [[]|]; by simplify_eq. }
      exists []. apply permutation_of_sums; intros g. rewrite ?sum_N_fmap_app, ?live_rest_sum.
      cbn [sy_shared sy_fetchers sy_decoders sy_writers set_writer]. live_facts g. rewrite Hrr in E.
      live_cells. lia.
  - intros Hrun.
    assert (is_abort sel && negb (s_abort (sy_shared s)) = false ∧ 
      let '(pc', w2, call) := retry_step (cf_sink cf) (sce_commit e) (effective_retry_max_attempts (cf_options cf))
                                sel pc (s_w2 (sy_shared s)) in
      s' = set_writer i (WWriting e pc')
             (on_shared (λ sh, log (TrCall <$> option_list call) (with_w2 w2 sh)) s)) as [_ Hs'].
    { unfold write_run in Hrun. destruct pc; try (by edestruct Hnd);
        (destruct (_ && _); [done|]); (split; [done|]); destruct (retry_step _ _ _ _ _ _) as [[? ?] ?];
        by injection Hrun. }
    destruct (retry_step _ _ _ _ _ _) as [[pc' w2] call] eqn:Hstep. subst s'. split; [done| | |].
    + exists (option_list call). split; [done|]. intros Hok Hdry. destruct (Hpc Hok) as [[Hnd' _] _]. congruence.
    + intros Hok. destruct (Hpc Hok) as [[Hdry (q & Hr & Hid)] Hg]. apply workers_ok_writer.
      * apply (workers_ok_ext (on_shared (log (TrCall <$> option_list call)) s)); [done..|].
        by apply workers_ok_log.
      * simpl. split; [by split; eauto|]. rewrite Hr in Hg |- *. by eapply retry_step_good.
    + weigh_live (@nil N).
Qed.

Lemma write_step_effect i arm sel s s' : write_step cf i arm sel s = Some s' → effect s s'.
Proof.
  unfold write_step. destruct (sy_writers s !! i) as [pc|] eqn:Hi; [|done]. simpl.
  assert (workers_ok cf s → good_write cf (s_trace (sy_shared s)) pc) as Hpc.
  { intros [_ _ _ Hw]. by eapply Forall_lookup_1. }
  unfold abort_if. destruct pc as [|e pc|m r p|r p|]; [destruct arm| | | |]; try done.
  - unfold write_recv. destruct (s_commits (sy_shared s)) as [|e rest] eqn:Hq.
    + destruct (commits_closed s); [|done]. intros [= <-].
      apply effect_quiet; [done..| |weigh_live (@nil N)]. intros Hok. by apply workers_ok_writer.
    + unfold enter_stage. destruct (attach_stage _ _ _) as [r bud]. intros [= <-].
      apply effect_quiet; [done..| |weigh_live (@nil N)]. intros [Hc Hm Hd Hw]. rewrite Hq in Hc.
      inversion Hc as [|? ? He Hrest]; subst. apply workers_ok_writer; [by split|]. by split.
  - destruct (_ && _); [|done]. intros [= <-].
    apply effect_quiet; [done..| |weigh_live (@nil N)]. intros Hok. by apply workers_ok_writer.
  - by apply write_run_effect.
  - destruct (send_completion cf m s) as [[delivered s1]|] eqn:Hsend; [|done]. simpl.
    destruct (send_completion_effect _ _ _ _ Hsend) as (Ha & Ht & Hds & Hf & Hc & Hfs & Hde & Hws & Hm & Hok1).
    intros [= <-]. destruct (report_continues m delivered) eqn:Hcont.
    + destruct m as [rep|?]; [|done]. destruct delivered; [|done].
      apply effect_quiet; [done..| |].
      * intros Hok. apply workers_ok_writer; [|done]. apply Hok1; [done|]. by apply Hpc.
      * exists []. apply permutation_of_sums. intros g. rewrite ?sum_N_fmap_app, ?live_rest_sum.
        cbn [sy_shared sy_fetchers sy_decoders sy_writers set_writer]. rewrite Hds, Hf, Hc, Hfs, Hde, Hws, Hm.
        live_facts g. live_cells. lia.
    + apply effect_quiet; [done..| |].
      * intros Hok. apply workers_ok_writer; [|done]. apply (workers_ok_ext s1); [done..|].
        apply Hok1; [done|]. by apply Hpc.
      * exists (if delivered then [] else message_live m).
        apply permutation_of_sums. intros g. rewrite ?sum_N_fmap_app, ?live_rest_sum.
        cbn [sy_shared sy_fetchers sy_decoders sy_writers set_writer on_shared release with_capacity
             s_descriptors s_fetched s_commits s_completions].
        rewrite Hds, Hf, Hc, Hfs, Hde, Hws, Hm.
        destruct m as [rep|?], delivered; try done; live_facts g; live_cells; lia.
  - intros [= <-]. apply effect_quiet; [done..| |weigh_live (@nil N)]. intros Hok.
    apply workers_ok_writer; [|done]. by apply (workers_ok_ext s).
Qed.
End worker_steps.
