(* ===== verification/PipelineSafety.v ===== *)
(** * Safety of the pipeline

    The invariant [safe] of every reachable state ties the actor's coordinator
    to the history of the admitted units, to the units in flight and to the
    trace; the theorems about acknowledgement, durability, shutdown and dry
    runs follow from it. *)

From Stdlib Require Import NArith Lia Sorted.
From stdpp Require Import relations sorting.
From S2P Require Import Prelude.
From S2P Require Import BTree.
From S2P Require Import Types.
From S2P Require Import AckCoordinator.
From S2P Require Import ByteBudget.
From S2P Require Import Source.
From S2P Require Import Options.
From S2P Require Import Metrics.
From S2P Require Import WriteRetry.
From S2P Require Import Decode.
From S2P Require Import Pipeline.
From S2P Require Import PipelineDemo.
From S2P Require Import PipelineResources.
From S2P Require Import PipelineWorkers.
Local Open Scope N_scope.

(** ** Histories of units

    Every range the runtime registers is one sequence. *)

Definition unit_range (r : HRange) : Prop := h_low r = h_high r ∧ h_high r < u64_max.
Definition open_lows (h : list HRange) : list N :=
  h_low <$> filter (λ r, h_committed r = false) h.

Section histories.
Implicit Types h : list HRange.

Lemma open_lows_app h1 h2 : open_lows (h1 ++ h2) = open_lows h1 ++ open_lows h2.
Proof. unfold open_lows. by rewrite filter_app, fmap_app. Qed.

Lemma open_lows_register q h : open_lows (hist_register q q h) = open_lows h ++ [q].
Proof. unfold hist_register. by rewrite open_lows_app. Qed.

Lemma elem_open_lows q h : q ∈ open_lows h ↔ ∃ r, r ∈ h ∧ h_committed r = false ∧ h_low r = q.
Proof.
  unfold open_lows. rewrite list_elem_of_fmap. split.
  - intros (r & -> & Hr). apply list_elem_of_filter in Hr as [? ?]. by exists r.
  - intros (r & Hr & Ho & <-). exists r. split; [done|]. by apply list_elem_of_filter.
Qed.

Lemma chained_units_nodup e h : chained e h → NoDup (h_low <$> h) ∧ Forall (λ x, e ≤ x) (h_low <$> h).
Proof.
  revert e. induction h as [|r h IH]; intros e; [by split; constructor|].
  intros (Hlow & Hle & _ & _ & Hch). destruct (IH _ Hch) as [Hnd Hall]. rewrite fmap_cons. split.
  - constructor; [|done]. intros Hin. rewrite Forall_forall in Hall. specialize (Hall _ Hin). lia.
  - constructor; [lia|]. eapply Forall_impl; [exact Hall|]. simpl. lia.
Qed.

Lemma open_lows_cons r h :
  open_lows (r :: h) = (if h_committed r then [] else [h_low r]) ++ open_lows h.
Proof.
  unfold open_lows. rewrite filter_cons. by destruct (h_committed r); simpl.
Qed.

(** Committing a unit removes exactly it. *)
Lemma open_lows_mark e q h :
  chained e h → q ∈ open_lows h → open_lows h ≡ₚ q :: open_lows (hist_mark q h).
Proof.
  intros Hch. destruct (chained_units_nodup _ _ Hch) as [Hnd _]. clear Hch.
  induction h as [|r h IH]; [by intros ?%elem_of_nil|].
  rewrite fmap_cons in Hnd. apply NoDup_cons in Hnd as [Hni Hnd].
  change (hist_mark q (r :: h)) with (hist_mark q [r] ++ hist_mark q h).
  rewrite open_lows_app, open_lows_cons. unfold hist_mark at 1. rewrite list_fmap_singleton.
  rewrite open_lows_cons. destruct (N.eqb_spec (h_low r) q) as [Heq|Hne].
  - subst q. assert (hist_mark (h_low r) h = h) as Hm.
    { apply hist_mark_absent. intros r' Hr' Hl. apply Hni. rewrite <- Hl. by apply list_elem_of_fmap_2. }
    rewrite Hm. simpl. destruct (h_committed r); simpl; [|done].
    intros (r' & Hr' & _ & Hl)%elem_open_lows. exfalso. apply Hni. rewrite <- Hl.
    by apply list_elem_of_fmap_2.
  - simpl. rewrite app_nil_r. destruct (h_committed r); simpl; [by apply IH|]. intros Hq.
    apply elem_of_cons in Hq as [Hq|Hq]; [congruence|]. rewrite (IH Hnd Hq). constructor.
Qed.

Lemma chained_units_length e h :
  chained e h → Forall unit_range h → h ≠ [] → e + N.of_nat (length h) ≤ u64_max.
Proof.
  revert e. induction h as [|r h IH]; intros e; [done|].
  intros (Hlow & _ & _ & _ & Hch) [[Heq Hlt] Hu]%Forall_cons _. simpl length.
  destruct h as [|r' h]; [simpl; lia|]. specialize (IH _ Hch Hu ltac:(done)). simpl length in *. lia.
Qed.

Lemma open_lows_length h : (length (open_lows h) ≤ length h)%nat.
Proof. unfold open_lows. rewrite length_fmap. apply length_filter. Qed.

Lemma prefix_end_mem h acc f :
  committed_prefix_end acc h = Some f → acc = Some f ∨ ∃ r, r ∈ h ∧ h_committed r = true ∧ h_high r = f.
Proof.
  revert acc. induction h as [|r h IH]; intros acc; simpl; [by left|].
  destruct (h_committed r) eqn:Hc; [|by left]. intros Hf. right.
  destruct (IH _ Hf) as [[= <-]|(r' & Hr' & Hp)].
  - exists r. split; [left|done].
  - exists r'. split; [by right|done].
Qed.

Lemma hist_mark_lows q h : h_low <$> hist_mark q h = h_low <$> h.
Proof.
  unfold hist_mark. rewrite <- list_fmap_compose. apply list_fmap_ext. intros i r _. simpl. by destruct (_ =? _).
Qed.

Lemma hist_mark_units q h : Forall unit_range h → Forall unit_range (hist_mark q h).
Proof.
  intros Hu. apply Forall_fmap. eapply Forall_impl; [exact Hu|]. intros r Hr. simpl. by destruct (_ =? _).
Qed.

Lemma elem_hist_mark q h r :
  r ∈ hist_mark q h → h_committed r = true →
  h_low r = q ∨ (r ∈ h ∧ h_committed r = true).
Proof.
  unfold hist_mark. intros (r0 & -> & Hr0)%list_elem_of_fmap.
  destruct (N.eqb_spec (h_low r0) q); [by left|by right].
Qed.

(** With nothing open, the committed prefix is everything. *)
Lemma prefix_end_all h acc :
  open_lows h = [] → committed_prefix_end acc h = match last h with Some r => Some (h_high r) | None => acc end.
Proof.
  revert acc. induction h as [|r h IH]; intros acc; [done|]. rewrite open_lows_cons. simpl committed_prefix_end.
  destruct (h_committed r); [|done]. simpl. intros Ho. rewrite (IH _ Ho), last_cons. by destruct (last h).
Qed.

Lemma open_lows_none h r : open_lows h = [] → r ∈ h → h_committed r = true.
Proof.
  intros Ho Hr. destruct (h_committed r) eqn:Hc; [done|].
  assert (h_low r ∈ open_lows h) as Hin by (apply elem_open_lows; by exists r).
  rewrite Ho in Hin. by apply elem_of_nil in Hin.
Qed.

Lemma chained_units_lookup e h i r :
  chained e h → Forall unit_range h → h !! i = Some r → h_low r = e + N.of_nat i.
Proof.
  revert e i. induction h as [|r' h IH]; intros e [|i]; [done..| |]; simpl.
  - intros (Hlow & _) _ [= <-]. lia.
  - intros (Hlow & _ & _ & _ & Hch) [[Heq _] Hu]%Forall_cons Hi. rewrite (IH _ _ Hch Hu Hi). lia.
Qed.

(** The committed prefix only grows. *)
Lemma prefix_end_mark q h : ∀ e acc x,
  chained e h → (∀ y, acc = Some y → y < e) → committed_prefix_end acc h = Some x →
  ∃ y, committed_prefix_end acc (hist_mark q h) = Some y ∧ x ≤ y.
Proof.
  induction h as [|r h IH]; intros e acc x; [simpl; eauto using N.le_refl|].
  intros (Hlow & Hle & _ & _ & Hch) Hacc Hx. change (hist_mark q (r :: h)) with (hist_mark q [r] ++ hist_mark q h).
  unfold hist_mark at 1. rewrite list_fmap_singleton. simpl in Hx |- *.
  assert (∀ z, committed_prefix_end (Some (h_high r)) (hist_mark q h) = Some z → h_high r ≤ z) as Hge.
  { intros z Hz. apply prefix_end_mem in Hz as [[= <-]|(r' & Hr' & _ & <-)]; [done|].
    pose proof (chained_bounds _ _ _ (chained_mark _ _ _ Hch) Hr'). lia. }
  destruct (h_committed r) eqn:Hc.
  - assert (∃ y, committed_prefix_end (Some (h_high r)) (hist_mark q h) = Some y ∧ x ≤ y) as (y & Hy & Hxy).
    { eapply IH; [exact Hch| |exact Hx]. intros y [= <-]. lia. }
    exists y. split; [|done]. by destruct (_ =? _); simpl; rewrite ?Hc.
  - destruct (_ =? _); simpl; [|rewrite Hc; eauto using N.le_refl].
    assert (∀ l a, ∃ z, committed_prefix_end (Some a) l = Some z) as Hsome.
    { induction l as [|r' l IHl]; intros a; simpl; [by eexists|]. destruct (h_committed r'); [apply IHl|by eexists]. }
    destruct (Hsome (hist_mark q h) (h_high r)) as [z Hz]. exists z. split; [done|].
    specialize (Hge _ Hz). specialize (Hacc x Hx). lia.
Qed.
End histories.

(** ** The invariant *)

Section safety.
Context {C F W1 D K W2 T : Type}.
Context `{ConsumerLaws C F W1} `{TypedRecords T} `{Decoder D T} `{Sink K W2 T}.
Context (cf : Config F D K).
Implicit Types s : Sys C F W1 W2 T.
Abbreviation dry := (dry_run (cf_options cf)).

(** The events that neither admit nor acknowledge. *)
Definition quiet (e : TraceEvent T) : bool :=
  match e with TrCall _ | TrFlush _ => true | TrAdmit _ | TrAck _ => false end.
Definition is_admit (e : TraceEvent T) : bool := match e with TrAdmit _ => true | _ => false end.

(** [h] is the history of the units admitted so far, [fl] the ones in flight,
    [b] the baseline of the run. *)
Record safe (b : option N) s (h : list HRange) (fl : list N) : Prop := {
  sf_represents : represents (a_coordinator (sy_actor s)) b h;
  sf_units : Forall unit_range h;
  sf_frontier : frontier (a_coordinator (sy_actor s)) = committed_prefix_end None h;
  sf_admits : admits (s_trace (sy_shared s)) = h_low <$> h;
  sf_flight : open_lows h ≡ₚ fl;
  sf_in_flight : a_in_flight (sy_actor s) = N.of_nat (length fl);
  sf_confirmed : dry = false →
    ∀ r, r ∈ h → h_committed r = true → confirmed (h_low r) (s_trace (sy_shared s));
  sf_workers : workers_ok cf s;
  sf_justified : ack_justified (s_trace (sy_shared s));
  sf_increasing : StronglySorted N.lt (acks (s_trace (sy_shared s)));
  sf_ack_admitted : ∀ f, f ∈ acks (s_trace (sy_shared s)) → f ∈ h_low <$> h;
  sf_acked : dry = false → last (acks (s_trace (sy_shared s))) = frontier (a_coordinator (sy_actor s));
  sf_last_ack : a_last_ack_sent (sy_actor s) =
    match last (acks (s_trace (sy_shared s))) with Some f => Some f | None => b end;
  sf_dry : dry = true → Forall (λ e, is_admit e = true) (s_trace (sy_shared s));
}.

Definition safe_state (b : option N) s : Prop := ∃ h lost, safe b s h (lost ++ live s).

Lemma quiet_admits tr : Forall (λ e, quiet e = true) tr → admits tr = [].
Proof. induction 1 as [|[] tr He _ IH]; done. Qed.
Lemma quiet_acks tr : Forall (λ e, quiet e = true) tr → acks tr = [].
Proof. induction 1 as [|[] tr He _ IH]; done. Qed.
Lemma quiet_calls (cs : list (SinkCall T)) : Forall (λ e, quiet e = true) (TrCall <$> cs).
Proof. induction cs; by constructor. Qed.
Lemma quiet_flushes fls : Forall (λ e, quiet e = true) (TrFlush <$> fls).
Proof. induction fls; by constructor. Qed.
Lemma justified_quiet tr tr' :
  ack_justified tr → Forall (λ e, quiet e = true) tr' → ack_justified (tr ++ tr').
Proof.
  intros Hok Hq. revert tr Hok. induction Hq as [|e tr' He Hq IH]; intros tr Hok; [by rewrite app_nil_r|].
  rewrite cons_middle, app_assoc. apply IH. apply ack_justified_snoc; [done|]. by destruct e.
Qed.

(** A step that keeps the actor's accounts and logs nothing but calls and
    flushes. *)
Record keeps s s' : Prop := {
  kp_coordinator : a_coordinator (sy_actor s') = a_coordinator (sy_actor s);
  kp_in_flight : a_in_flight (sy_actor s') = a_in_flight (sy_actor s);
  kp_last_ack : a_last_ack_sent (sy_actor s') = a_last_ack_sent (sy_actor s);
  kp_trace : ∃ tr, s_trace (sy_shared s') = s_trace (sy_shared s) ++ tr ∧
    Forall (λ e, quiet e = true) tr ∧ (workers_ok cf s → dry = true → tr = []);
  kp_workers : workers_ok cf s → workers_ok cf s';
}.

Lemma safe_keeps b s s' h fl fl' : keeps s s' → fl ≡ₚ fl' → safe b s h fl → safe b s' h fl'.
Proof.
  intros [Hc Hi Hl (tr & Ht & Hq & Hd) Hw] Hfl [].
  assert (acks (s_trace (sy_shared s')) = acks (s_trace (sy_shared s))) as Hacks.
  { by rewrite Ht, acks_app, (quiet_acks _ Hq), app_nil_r. }
  split; rewrite ?Hc, ?Hi, ?Hl, ?Hacks; try done.
  - by rewrite Ht, admits_app, (quiet_admits _ Hq), app_nil_r.
  - by rewrite <- Hfl.
  - by rewrite sf_in_flight0, Hfl.
  - intros Hdry r Hr Hco. rewrite Ht. apply confirmed_app. by apply sf_confirmed0.
  - by apply Hw.
  - rewrite Ht. by apply justified_quiet.
  - intros Hdry. rewrite Ht, (Hd sf_workers0 Hdry), app_nil_r. by apply sf_dry0.
Qed.

Lemma keeps_live b s s' :
  keeps s s' → (∃ lost, live s ≡ₚ lost ++ live s') → safe_state b s → safe_state b s'.
Proof.
  intros Hk (lost & Hl) (h & lost' & Hs). exists h, (lost' ++ lost).
  eapply safe_keeps; [exact Hk| |exact Hs]. by rewrite Hl, app_assoc.
Qed.

(** *** Steps of the workers *)

Lemma effect_safe b s s' : worker_effect cf s s' → safe_state b s → safe_state b s'.
Proof.
  intros [Ha (cs & Ht & Hd) Hw (lost & Hl)]. apply keeps_live.
  - split; rewrite ?Ha; try done. exists (TrCall <$> cs). split_and!; [done|apply quiet_calls|].
    intros Hok Hdry. by rewrite (Hd Hok Hdry).
  - exists lost. unfold live. rewrite Ha, Hl, !app_assoc. f_equiv. apply Permutation_app_comm.
Qed.

(** *** Steps of the actor *)

Lemma frame_live_rest s s' : frame s s' → live_rest s' = live_rest s.
Proof. intros [Hf Hd Hw _ _ (w1 & tr & Hs)]. unfold live_rest. by rewrite Hf, Hd, Hw, Hs. Qed.

Lemma frame_workers s s' : frame s s' → workers_ok cf s → workers_ok cf s'.
Proof.
  intros [Hf Hd Hw _ _ (w1 & tr & Hs)] []. split; rewrite ?Hd, ?Hw, Hs; simpl; try done.
  - eapply Forall_impl; [done|]. intros m. apply good_message_app.
  - eapply Forall_impl; [done|]. intros m. apply good_decode_app.
  - eapply Forall_impl; [done|]. intros m. apply good_write_app.
Qed.

Lemma keeps_pc pc s : keeps s (on_actor (with_pc pc) s).
Proof. split; try done. { exists []. by rewrite app_nil_r. } intros []. by split. Qed.

#[export] Instance keeps_preorder : PreOrder keeps.
Proof.
  split.
  - intros s. split; try done. exists []. by rewrite app_nil_r.
  - intros s1 s2 s3 [? ? ? (t1 & E1 & Q1 & D1) W1'] [? ? ? (t2 & E2 & Q2 & D2) W2']. split; try congruence.
    + exists (t1 ++ t2). split_and!; [by rewrite E2, E1, app_assoc|by apply Forall_app|].
      intros Hok Hd. by rewrite D1, D2 by auto.
    + auto.
Qed.

Lemma keeps_ext s s' :
  a_coordinator (sy_actor s') = a_coordinator (sy_actor s) →
  a_in_flight (sy_actor s') = a_in_flight (sy_actor s) →
  a_last_ack_sent (sy_actor s') = a_last_ack_sent (sy_actor s) →
  s_trace (sy_shared s') = s_trace (sy_shared s) →
  s_commits (sy_shared s') = s_commits (sy_shared s) →
  s_completions (sy_shared s') = s_completions (sy_shared s) →
  sy_decoders s' = sy_decoders s → sy_writers s' = sy_writers s → keeps s s'.
Proof.
  intros Hc Hi Hl Ht Hco Hm Hd Hw. split; try done.
  - exists []. by rewrite app_nil_r.
  - by apply workers_ok_ext.
Qed.

Lemma keeps_release rs s : keeps s (on_shared (release_all rs) s).
Proof. apply keeps_ext; try done; simpl; by rewrite release_all_capacity. Qed.

Lemma live_rest_release rs s : live_rest (on_shared (release_all rs) s) = live_rest s.
Proof. unfold live_rest. simpl. by rewrite release_all_capacity. Qed.

Lemma keeps_flush s : dry = false → keeps s (flush_logged s).1 ∧ frame s (flush_logged s).1.
Proof.
  intros Hdry. split; [|apply framed_flush]. pose proof (framed_flush s) as Hf. unfold flush_logged in *.
  unfold on_source, zoom in *. destruct (flush_acks _) as [[src w1] [u|e]]; simpl in *.
  - split; try done; [|by apply frame_workers]. exists [TrFlush true]. split_and!; [done|by constructor|congruence].
  - split; try done; [|by apply frame_workers]. exists [TrFlush false]. split_and!; [done|by constructor|congruence].
Qed.

(** The actor ends, with whatever it held. *)
Lemma keeps_finish b s s' r :
  keeps s s' → (∃ lost, live_rest s ≡ₚ lost ++ live_rest s') → safe_state b s → safe_state b (finish r s').
Proof.
  intros Hk (lost & Hl). apply keeps_live.
  - etrans; [exact Hk|]. apply keeps_pc.
  - exists (actor_live (a_pc (sy_actor s)) ++ lost). unfold live. simpl. fold (live_rest s').
    change (live_rest (finish r s')) with (live_rest s'). by rewrite Hl, app_assoc.
Qed.

Lemma keeps_rest_refl s s' : live_rest s' = live_rest s → ∃ lost, live_rest s ≡ₚ lost ++ live_rest s'.
Proof. intros ->. by exists []. Qed.

Lemma drop_finish b rs r s :
  safe_state b s → safe_state b (on_shared (release_all rs) (finish r s)).
Proof.
  intros Hs. apply (keeps_live b (finish r s)).
  - apply keeps_release.
  - exists []. unfold live. rewrite live_rest_release. done.
  - apply (keeps_finish b s); [reflexivity|by apply keeps_rest_refl|done].
Qed.

Lemma send_descriptor_safe b u rest s s' :
  a_pc (sy_actor s) = ASending (u :: rest) → send_descriptor cf u rest s = Some s' →
  safe_state b s → safe_state b s'.
Proof.
  intros Hpc. unfold send_descriptor. destruct u as [d g].
  destruct (descriptors_closed s); [|destruct (has_room cf _); [|done]]; intros [= <-].
  - intros Hs. exact (drop_finish b (ag_reservation g :: ((λ x, ag_reservation x.2) <$> rest)) _ s Hs).
  - apply keeps_live; [by apply keeps_ext|]. exists []. apply permutation_of_sums. intros g'.
    unfold live. rewrite Hpc. unfold actor_live. rewrite !fmap_cons, !sum_N_fmap_app, !live_rest_sum.
    cbn [sy_actor sy_shared sy_fetchers sy_decoders sy_writers on_actor on_shared with_pc a_pc
         with_descriptors s_descriptors s_fetched s_commits s_completions].
    rewrite ?fmap_app, ?fmap_cons, ?sum_N_app, ?fmap_nil, ?sum_N_cons, ?sum_N_nil. simpl fst. simpl ad_descriptor. lia.
Qed.

Lemma admission_live b s sh gates pc :
  (∃ bud p, sh = with_capacity bud p (sy_shared s)) → actor_live (a_pc (sy_actor s)) = [] →
  pc = APolling gates →
  safe_state b s → safe_state b (on_shared (λ _, sh) (on_actor (with_pc pc) s)).
Proof.
  intros (bud & p & ->) Hlive ->. apply keeps_live; [by apply keeps_ext|]. exists [].
  unfold live. by rewrite Hlive.
Qed.

(** *** Registration *)

Lemma register_one_safe b s h fl d :
  safe b s h fl → sbd_sequence d < u64_max →
  match register_one d s with
  | (s', Ok _) => ∃ h', safe b s' h' (fl ++ [sbd_sequence d])
  | (s', Err _) => s' = s
  end.
Proof.
  intros Hsafe Hmax. pose proof Hsafe as []. set (q := sbd_sequence d) in *.
  pose proof (represents_register _ _ _ q q sf_represents0 ltac:(u64_lia) ltac:(u64_lia)) as Hreg.
  unfold register_one. fold q. rewrite run_bind. unfold zoom at 1.
  destruct (admissible b h q q) eqn:Hadm; cycle 1.
  { destruct Hreg as (e & ->). by destruct s as [[] ? ? ? ?]. }
  destruct Hreg as (c' & -> & Hrep & Hf). rewrite !run_bind. unfold modify. cbn.
  exists (hist_register q q h).
  assert (unit_range {| h_low := q; h_high := q; h_committed := false |}) as Hunit by done.
  assert (Forall unit_range (hist_register q q h)) as Hunits.
  { unfold hist_register. apply Forall_app. split; [done|]. by constructor. }
  assert (open_lows (hist_register q q h) ≡ₚ fl ++ [q]) as Hopen.
  { rewrite open_lows_register. by rewrite sf_flight0. }
  destruct (represents_chained _ _ _ Hrep) as (e & Hch & _).
  assert (∀ x, x ∈ h_low <$> h → x < q) as Hnew.
  { intros x Hx. apply list_elem_of_fmap in Hx as (r & -> & Hr). unfold hist_register in Hch.
    apply chained_app in Hch as [Hch1 Hch2]. destruct (hist_last_high h) as [l|] eqn:Hl.
    - destruct Hch2 as (_ & Hlow & _). simpl in Hlow. pose proof (chained_last_bound _ _ _ _ Hch1 Hl Hr).
      pose proof (chained_bounds _ _ _ Hch1 Hr). lia.
    - apply hist_last_high_none in Hl as ->. by apply elem_of_nil in Hr. }
  split; simpl; rewrite ?acks_app, ?app_nil_r; try done.
  - rewrite Hf, sf_frontier0. unfold hist_register. clear. generalize (@None N).
    induction h as [|r h IH]; intros acc; [done|]. simpl. destruct (h_committed r); [apply IH|done].
  - rewrite admits_app, sf_admits0. unfold hist_register. by rewrite fmap_app.
  - rewrite sf_in_flight0. rewrite sat_add64_exact, length_app; [simpl; lia|].
    pose proof (chained_units_length _ _ Hch Hunits ltac:(by destruct h)) as Hlen.
    pose proof (open_lows_length (hist_register q q h)) as Hol. rewrite Hopen, length_app in Hol.
    simpl in Hol. lia.
  - intros Hdry r Hr Hc. apply confirmed_app. apply elem_of_app in Hr as [Hr|Hr]; [by apply sf_confirmed0|].
    apply list_elem_of_singleton in Hr as ->. done.
  - destruct sf_workers0. split; simpl; try done.
    + eapply Forall_impl; [done|]. intros m. apply good_message_app.
    + eapply Forall_impl; [done|]. intros m. apply good_decode_app.
    + eapply Forall_impl; [done|]. intros m. apply good_write_app.
  - apply ack_justified_snoc; [done|]. intros f Hfa. apply Hnew. by apply sf_ack_admitted0.
  - intros f Hfa. unfold hist_register. rewrite fmap_app. apply elem_of_app. left. by apply sf_ack_admitted0.
  - intros Hdry. rewrite sf_acked0 by done. done.
  - intros Hdry. apply Forall_app. split; [by apply sf_dry0|]. by constructor.
Qed.

Lemma register_all_safe b ds : ∀ s h fl,
  safe b s h fl → Forall (λ d, sbd_sequence d < u64_max) ds →
  match for_each ds register_one s with
  | (s', Ok _) => ∃ h', safe b s' h' (fl ++ (sbd_sequence <$> ds))
  | (s', Err _) => ∃ h' fl', safe b s' h' (fl ++ fl')
  end.
Proof.
  induction ds as [|d ds IH]; intros s h fl Hsafe Hds.
  { simpl. exists h. by rewrite app_nil_r. }
  apply Forall_cons in Hds as [Hd Hds]. cbn [for_each]. rewrite run_bind.
  pose proof (register_one_safe _ _ _ _ _ Hsafe Hd) as Hone.
  destruct (register_one d s) as [s1 [u|e]]; cycle 1.
  { subst s1. exists h, []. by rewrite app_nil_r. }
  destruct Hone as (h1 & Hs1). specialize (IH _ _ _ Hs1 Hds).
  destruct (for_each ds register_one s1) as [s2 [u2|e]].
  - destruct IH as (h2 & Hs2). exists h2. by rewrite fmap_cons, cons_middle, app_assoc.
  - destruct IH as (h2 & fl' & Hs2). exists h2, ([sbd_sequence d] ++ fl'). by rewrite app_assoc.
Qed.

(** The sequences the buffer hands out leave room for a successor. *)
Lemma next_below_max n budget x x' ds :
  next_descriptors n budget x = (x', Ok ds) → Forall (λ d, sbd_sequence d < u64_max) ds.
Proof.
  intros Hrun. pose proof (next_descriptors_run x n budget) as Hnext. rewrite Hrun in Hnext.
  destruct Hnext as (cw & raw & Hraw & _ & ->). apply Forall_fmap, Forall_lookup. intros i d Hi. simpl.
  destruct (next_contiguous _ _ _ _ Hraw i d Hi) as [_ Hcur]. apply cursor_u64 in Hcur.
  apply lookup_lt_Some in Hi. unfold is_u64 in Hcur. lia.
Qed.

Lemma zip_fst {A B} (l : list A) (k : list B) : ∃ rest, l = (fst <$> zip l k) ++ rest.
Proof.
  revert k. induction l as [|x l IH]; intros [|y k]; simpl; [by exists []..| |].
  - by eexists.
  - destruct (IH k) as [rest Hrest]. exists rest. by f_equal.
Qed.

Lemma poll_safe b gates s :
  a_pc (sy_actor s) = APolling gates → safe_state b s → safe_state b (poll_descriptors gates s).
Proof.
  intros Hpc Hs. unfold poll_descriptors.
  destruct (next_descriptors _ _ _) as [[src w1] polled] eqn:Hnext.
  set (s0 := on_shared (with_w1 w1) (on_actor (with_source src) s)).
  assert (safe_state b s0) as Hs0.
  { apply (keeps_live b s); [by apply keeps_ext| |done]. exists []. reflexivity. }
  assert (live s0 = live_rest s0) as Hl0 by (unfold live; simpl; by rewrite Hpc).
  destruct polled as [[|d ds]|e].
  - assert (safe_state b (on_actor (with_pc ASleeping) s0)) as Hs1.
    { apply (keeps_live b s0); [apply keeps_pc| |exact Hs0]. exists []. by rewrite Hl0. }
    eapply (keeps_live b); [apply keeps_release| |exact Hs1]. exists []. unfold live. by rewrite live_rest_release.
  - set (n := length (d :: ds)). set (s1 := on_shared (release_all (ag_reservation <$> drop n gates)) s0).
    assert (live s1 = live_rest s1) as Hl1 by (unfold live; simpl; by rewrite Hpc).
    assert (live_rest s1 = live_rest s0) as Hr1 by apply live_rest_release.
    destruct Hs0 as (h & lost & Hsafe). rewrite Hl0, <- Hr1 in Hsafe.
    assert (safe b s1 h (lost ++ live_rest s1)) as Hsafe1.
    { eapply safe_keeps; [apply keeps_release|reflexivity|exact Hsafe]. }
    pose proof (register_all_safe b _ _ _ _ Hsafe1 (next_below_max _ _ _ _ _ Hnext)) as Hreg.
    pose proof (framed_for_each (d :: ds) register_one framed_register_one s1) as Hf.
    destruct (for_each (d :: ds) register_one s1) as [s2 [u|e]]; cbn [fst] in Hf.
    + destruct Hreg as (h' & Hs2). exists h'.
      destruct (zip_fst (d :: ds) (take n gates)) as [rest Hrest].
      exists (lost ++ (sbd_sequence <$> rest)).
      eapply safe_keeps; [apply keeps_pc| |exact Hs2]. unfold live. cbn [sy_actor on_actor with_pc a_pc actor_live].
      change (live_rest (on_actor ?f s2)) with (live_rest s2).
      rewrite (frame_live_rest _ _ Hf).
      assert (sbd_sequence <$> d :: ds =
        ((λ x, sbd_sequence x.1) <$> zip (d :: ds) (take n gates)) ++ (sbd_sequence <$> rest)) as ->.
      { rewrite Hrest at 1. rewrite fmap_app. f_equal. by rewrite <- list_fmap_compose. }
      apply permutation_of_sums. intros g. rewrite !sum_N_fmap_app. lia.
    + destruct Hreg as (h' & fl' & Hs2).
      assert (safe_state b s2) as Hs2'.
      { exists h', (lost ++ fl'). unfold live. rewrite (fr_pc _ _ Hf). replace (a_pc (sy_actor s1)) with (APolling gates).
        simpl. rewrite (frame_live_rest _ _ Hf). eapply safe_keeps; [reflexivity| |exact Hs2].
        apply permutation_of_sums. intros g. rewrite !sum_N_fmap_app. lia. }
      exact (drop_finish b _ _ _ Hs2').
  - exact (drop_finish b _ _ _ Hs0).
Qed.

(** *** Completion *)

Definition source_of s : BufferSource C F * W1 := (a_source (sy_actor s), s_w1 (sy_shared s)).

(** What the ack block does, whether or not its flush succeeds. *)
Record acked_step (f : N) s s' : Prop := {
  as_frame : frame s s';
  as_coordinator : a_coordinator (sy_actor s') = a_coordinator (sy_actor s);
  as_in_flight : a_in_flight (sy_actor s') = a_in_flight (sy_actor s);
  as_last_ack : a_last_ack_sent (sy_actor s') = Some f;
  as_trace : ∃ fls, s_trace (sy_shared s') = s_trace (sy_shared s) ++ TrAck f :: (TrFlush <$> fls);
  as_source : ∃ ops, acked_sequences ops = [f] ∧ source_of s' = ack_run (source_of s) ops;
}.

Lemma flush_logged_source s :
  source_of (flush_logged s).1 = (flush_acks (source_of s)).1 ∧
  ∃ d, s_trace (sy_shared (flush_logged s).1) = s_trace (sy_shared s) ++ [TrFlush d].
Proof.
  unfold flush_logged, on_source, zoom, source_of.
  destruct (flush_acks _) as [[src w1] [u|e]]; simpl; eauto.
Qed.

Lemma flush_logged_accounts s :
  a_coordinator (sy_actor (flush_logged s).1) = a_coordinator (sy_actor s) ∧
  a_in_flight (sy_actor (flush_logged s).1) = a_in_flight (sy_actor s) ∧
  a_last_ack_sent (sy_actor (flush_logged s).1) = a_last_ack_sent (sy_actor s).
Proof.
  unfold flush_logged, on_source, zoom. by destruct (flush_acks _) as [[src w1] [u|e]].
Qed.

Lemma ack_frontier_step f s : acked_step f s (ack_frontier cf f s).1.
Proof.
  pose proof (framed_ack_frontier cf f s) as Hf. remember (ack_frontier cf f s) as r eqn:Hr.
  unfold ack_frontier in Hr. repeat (rewrite run_bind in Hr; cbn in Hr).
  match type of Hr with context [when ?c _ ?st] => set (s1 := st) in Hr; destruct c; unfold when in Hr end.
  - rewrite run_bind in Hr. destruct (flush_logged_source s1) as [Hsrc [d Ht]].
    destruct (flush_logged_accounts s1) as (Hc & Hi & Hl).
    destruct (flush_logged s1) as [s2 [u|e]]; cbn in Hr, Hsrc, Ht, Hc, Hi, Hl; subst r; cbn in *.
    all: split; cbn; try done.
    all: try (by rewrite ?Hc, ?Hi, ?Hl).
    all: try (exists [d]; rewrite Ht; cbn; by rewrite <- app_assoc).
    all: exists [AckThrough f; FlushAcks]; split; [done|]; unfold ack_run; simpl; done || exact Hsrc.
  - cbn in Hr. subst r. split; cbn; try done; [by exists []|]. by exists [AckThrough f].
Qed.

Lemma sorted_snoc (l : list N) x :
  StronglySorted N.lt l → (∀ y, last l = Some y → y < x) → StronglySorted N.lt (l ++ [x]).
Proof.
  intros Hs. induction Hs as [|y l Hs IH Hall]; intros Hlast; [repeat constructor|].
  simpl. constructor.
  - apply IH. intros z Hz. apply Hlast. rewrite last_cons, Hz. done.
  - apply Forall_app. split; [done|]. constructor; [|constructor].
    destruct (last l) as [z|] eqn:Hz.
    + rewrite Forall_forall in Hall. assert (z ∈ l) as Hin by by apply last_Some_elem_of.
      specialize (Hall _ Hin). specialize (Hlast z). rewrite last_cons, Hz in Hlast.
      specialize (Hlast eq_refl). lia.
    + apply Hlast. by rewrite last_cons, Hz.
Qed.

(** How the actor moves its acknowledgement when the frontier is [fr]. *)
Definition ack_moves s s' (fr : option N) : Prop :=
  (∃ f fls, dry = false ∧ fr = Some f ∧ should_ack (a_last_ack_sent (sy_actor s)) f = true ∧
     s_trace (sy_shared s') = s_trace (sy_shared s) ++ TrAck f :: (TrFlush <$> fls) ∧
     a_last_ack_sent (sy_actor s') = Some f) ∨
  (s_trace (sy_shared s') = s_trace (sy_shared s) ∧
     a_last_ack_sent (sy_actor s') = a_last_ack_sent (sy_actor s) ∧
     (dry = true ∨ match fr with Some f => should_ack (a_last_ack_sent (sy_actor s)) f = false | None => True end)).

(** A frontier that needs no acknowledgement is acknowledged already. *)
Lemma acked_already b s h fl q e fr :
  safe b s h fl → dry = false → chained e h → (∀ x, b = Some x → e = sat_add64 x 1) →
  fr = committed_prefix_end None (hist_mark q h) →
  match fr with Some f => should_ack (a_last_ack_sent (sy_actor s)) f = false | None => True end →
  last (acks (s_trace (sy_shared s))) = fr.
Proof.
  intros [] Hdry Hch Hb Hfr Hno. rewrite sf_last_ack0 in Hno. specialize (sf_acked0 Hdry).
  rewrite sf_acked0 in Hno |- *. rewrite sf_frontier0 in Hno |- *.
  destruct (committed_prefix_end None h) as [x|] eqn:Hx.
  - destruct (prefix_end_mark q h e None x Hch ltac:(done) Hx) as (y & Hy & Hxy).
    rewrite Hy in Hfr. subst fr. simpl in Hno. apply N.ltb_ge in Hno. f_equal. lia.
  - destruct fr as [f|]; [|done]. exfalso. destruct b as [x|]; [|done]. simpl in Hno. apply N.ltb_ge in Hno.
    symmetry in Hfr. apply prefix_end_mem in Hfr as [|(r & Hr & _ & <-)]; [done|].
    pose proof (chained_bounds _ _ _ (chained_mark _ q _ Hch) Hr) as Hbd.
    pose proof (hist_mark_units q _ sf_units0) as Hu. rewrite Forall_forall in Hu.
    destruct (Hu _ Hr) as [_ Hlt]. specialize (Hb x eq_refl). subst e.
    clear - Hbd Hlt Hno. unfold sat_add64 in *. lia.
Qed.

Lemma safe_in_flight_bound b s h fl : safe b s h fl → is_u64 (N.of_nat (length fl)).
Proof.
  intros []. destruct (represents_chained _ _ _ sf_represents0) as (e & Hch & _).
  rewrite <- sf_flight0. destruct h as [|r h]; [done|].
  pose proof (chained_units_length _ _ Hch sf_units0 ltac:(done)).
  pose proof (open_lows_length (r :: h)). unfold is_u64. lia.
Qed.

Lemma moves_admits s s' fr :
  ack_moves s s' fr →
  ∃ tr, s_trace (sy_shared s') = s_trace (sy_shared s) ++ tr ∧ admits tr = [].
Proof.
  intros [(f & fls & _ & _ & _ & Ht & _)|(Ht & _)].
  - eexists. split; [exact Ht|]. simpl. apply quiet_admits, quiet_flushes.
  - exists []. by rewrite app_nil_r.
Qed.

(** The part of the invariant about acknowledgements, after the commit of [q]
    made [fr] the frontier. *)
Lemma commit_acks b s s' h fl q c e fr :
  safe b s h fl → chained e h → (∀ x, b = Some x → e = sat_add64 x 1) →
  represents c b (hist_mark q h) → frontier c = fr → fr = committed_prefix_end None (hist_mark q h) →
  (dry = false → ∀ r, r ∈ hist_mark q h → h_committed r = true →
     confirmed (h_low r) (s_trace (sy_shared s))) →
  ack_moves s s' fr →
  StronglySorted N.lt (acks (s_trace (sy_shared s'))) ∧
  (∀ f, f ∈ acks (s_trace (sy_shared s')) → f ∈ h_low <$> h) ∧
  (dry = false → last (acks (s_trace (sy_shared s'))) = fr) ∧
  a_last_ack_sent (sy_actor s') =
    (match last (acks (s_trace (sy_shared s'))) with Some f => Some f | None => b end) ∧
  ack_justified (s_trace (sy_shared s')) ∧
  (dry = true → Forall (λ e, is_admit e = true) (s_trace (sy_shared s'))).
Proof.
  intros Hsafe Hch Hbase Hrep Hfrontier Hf Hcommitted Hack. pose proof Hsafe as [].
  destruct Hack as [(f & fls & Hdry & Hfr & Hshould & Htr & Hla)|(Htr & Hla & Hcase)].
  - rewrite Htr, acks_app. simpl. rewrite (quiet_acks _ (quiet_flushes fls)), last_snoc.
    split_and!; try done; [| | |congruence].
    + apply sorted_snoc; [done|]. intros y Hy. rewrite sf_last_ack0, Hy in Hshould. by apply N.ltb_lt.
    + intros f' [Hin|Hin]%elem_of_app; [by apply sf_ack_admitted0|].
      apply list_elem_of_singleton in Hin as ->. rewrite Hf in Hfr.
      apply prefix_end_mem in Hfr as [|(r' & Hr' & _ & Hh)]; [done|].
      pose proof (hist_mark_units q _ sf_units0) as Hu. rewrite Forall_forall in Hu. destruct (Hu _ Hr') as [Heq _].
      rewrite <- (hist_mark_lows q), <- Hh, <- Heq. by apply list_elem_of_fmap_2.
    + rewrite cons_middle, app_assoc. apply justified_quiet; [|apply quiet_flushes].
      apply ack_justified_snoc; [done|]. intros q' Hq' Hle. rewrite sf_admits0, <- (hist_mark_lows q) in Hq'.
      apply list_elem_of_fmap in Hq' as (r' & -> & Hr'). rewrite Hfr in Hfrontier.
      destruct (represents_frontier _ _ _ _ Hrep Hfrontier _ Hr' Hle) as [Hco _]. by apply Hcommitted.
  - rewrite Htr. split_and!; try done; [|by rewrite Hla]. intros Hdry.
    destruct Hcase as [Hd|Hcase]; [congruence|].
    eapply acked_already; [exact Hsafe|done|exact Hch|exact Hbase|exact Hf|exact Hcase].
Qed.

(** The one completion of unit [q]: the actor's accounts, and its
    acknowledgement. *)
Lemma commit_safe b s h fl q :
  safe b s h (q :: fl) → (dry = false → confirmed q (s_trace (sy_shared s))) →
  ∃ c', mark_committed q q (a_coordinator (sy_actor s)) = (c', Ok tt) ∧
    ∀ s', a_coordinator (sy_actor s') = advance_frontier c' →
      a_in_flight (sy_actor s') = wrapping_sub64 (a_in_flight (sy_actor s)) 1 →
      workers_ok cf s' → ack_moves s s' (frontier (advance_frontier c')) →
      safe b s' (hist_mark q h) fl.
Proof.
  intros Hsafe Hconf. pose proof (safe_in_flight_bound _ _ _ _ Hsafe) as Hbound. pose proof Hsafe as [].
  assert (q ∈ open_lows h) as Hq by (rewrite sf_flight0; left).
  pose proof Hq as (r & Hr & Ho & Hlow)%elem_open_lows.
  assert (h_high r = q) as Hhigh.
  { rewrite Forall_forall in sf_units0. destruct (sf_units0 _ Hr) as [Heq _]. congruence. }
  destruct (represents_complete _ _ _ _ _ _ sf_represents0 Hr Ho Hlow Hhigh) as (c' & Hmark & Hrep & Hf).
  destruct (represents_chained _ _ _ sf_represents0) as (e & Hch & Hbase).
  exists c'. split; [done|]. intros s' Hc Hi Hw Hack.
  assert (open_lows (hist_mark q h) ≡ₚ fl) as Hfl.
  { apply (Permutation.Permutation_cons_inv (a := q)). rewrite <- sf_flight0. symmetry. by eapply open_lows_mark. }
  destruct (moves_admits _ _ _ Hack) as (tr & Ht & Hadm).
  assert (dry = false → ∀ r0, r0 ∈ hist_mark q h → h_committed r0 = true →
    confirmed (h_low r0) (s_trace (sy_shared s))) as Hcommitted.
  { intros Hdry r0 Hr0 Hco. destruct (elem_hist_mark _ _ _ Hr0 Hco) as [->|[Hin _]]; auto. }
  destruct (commit_acks _ _ _ _ _ _ _ _ _ Hsafe Hch Hbase Hrep eq_refl Hf Hcommitted Hack)
    as (Hinc & Hadmitted & Hacked & Hlast & Hjust & Hdryrun).
  split; rewrite ?Hc; try done.
  - by apply hist_mark_units.
  - by rewrite Ht, admits_app, Hadm, app_nil_r, hist_mark_lows.
  - rewrite Hi, sf_in_flight0. rewrite <- (wrap64_small _ Hbound), wrapping_sub64_spec by (simpl; lia).
    rewrite wrap64_small; simpl length in *; unfold is_u64 in *; lia.
  - intros Hdry r0 Hr0 Hco. rewrite Ht. apply confirmed_app. by apply Hcommitted.
  - by rewrite hist_mark_lows.
Qed.

Lemma on_committed_run rep q s c' :
  rep_range rep = (q, q) → mark_committed q q (a_coordinator (sy_actor s)) = (c', Ok tt) →
  let s1 := on_actor (λ a, with_progress (count_commit rep (a_progress a))
              (with_in_flight (wrapping_sub64 (a_in_flight a) 1)
                 (with_coordinator (advance_frontier c') a))) s in
  on_committed cf rep s =
  match frontier (advance_frontier c') with
  | Some f =>
      if negb dry && should_ack (a_last_ack_sent (sy_actor s)) f
      then match ack_frontier cf f s1 with
           | (s2, Ok _) => (on_actor sample_pending s2, Ok tt)
           | (s2, Err e) => (s2, Err e)
           end
      else (on_actor sample_pending s1, Ok tt)
  | None => (on_actor sample_pending s1, Ok tt)
  end.
Proof.
  intros Hr Hmark s1. unfold on_committed. rewrite Hr. rewrite run_bind. unfold zoom at 1. rewrite Hmark.
  repeat (rewrite run_bind; cbn). destruct (frontier (advance_frontier c')) as [f|]; [|done].
  unfold when. destruct (_ && _); [|done]. done.
Qed.

Lemma keeps_sample s : keeps s (on_actor sample_pending s).
Proof. by apply keeps_ext. Qed.

Lemma on_committed_safe b s h fl q rep :
  safe b s h (q :: fl) → rep_range rep = (q, q) →
  (dry = false → confirmed q (s_trace (sy_shared s))) →
  safe b (on_committed cf rep s).1 (hist_mark q h) fl.
Proof.
  intros Hsafe Hr Hconf. destruct (commit_safe _ _ _ _ _ Hsafe Hconf) as (c' & Hmark & Hnext).
  pose proof (framed_on_committed cf rep s) as Hframe.
  pose proof (frame_workers _ _ Hframe (sf_workers _ _ _ _ Hsafe)) as Hw.
  rewrite (on_committed_run _ _ _ _ Hr Hmark) in *.
  set (s1 := on_actor _ s) in *.
  assert (workers_ok cf s1) as Hw1 by (apply (workers_ok_ext cf s); try done; apply (sf_workers _ _ _ _ Hsafe)).
  assert (ack_moves s s1 (frontier (advance_frontier c')) → safe b (on_actor sample_pending s1) (hist_mark q h) fl)
    as Hstay.
  { intros Hm. eapply safe_keeps; [apply keeps_sample|reflexivity|]. by apply Hnext. }
  destruct (frontier (advance_frontier c')) as [f|] eqn:Hf.
  2: { apply Hstay. right. split_and!; try done. by right. }
  destruct dry eqn:Hdry; simpl in *; [apply Hstay; right; split_and!; try done; by left|].
  destruct (should_ack (a_last_ack_sent (sy_actor s)) f) eqn:Hshould.
  2: { apply Hstay. right. split_and!; try done. by right. }
  pose proof (ack_frontier_step f s1) as [Hfr Hc Hi Hl (fls & Ht) _].
  assert (safe b (ack_frontier cf f s1).1 (hist_mark q h) fl) as Hacked.
  { apply Hnext; [done|done|by apply (frame_workers s1)|]. left. exists f, fls. by split_and!. }
  destruct (ack_frontier cf f s1) as [s2 [u|e]]; simpl in *; [|done].
  eapply safe_keeps; [apply keeps_sample|reflexivity|done].
Qed.

Lemma live_pop s m rest :
  s_completions (sy_shared s) = m :: rest →
  live s ≡ₚ message_live m ++ live (on_shared (with_completions rest) s).
Proof.
  intros Hm. apply permutation_of_sums. intros g. unfold live. rewrite !sum_N_fmap_app, !live_rest_sum, Hm.
  rewrite fmap_cons. simpl concat. rewrite sum_N_fmap_app. simpl. lia.
Qed.

Lemma keeps_pop s m rest :
  s_completions (sy_shared s) = m :: rest → keeps s (on_shared (with_completions rest) s).
Proof.
  intros Hm. split; try done; [exists []; by rewrite app_nil_r|].
  intros [Hc Hmm Hd Hw]. rewrite Hm in Hmm. inversion Hmm; subst. by split.
Qed.

(** The completion of a committed unit: the actor settles exactly that unit,
    whether or not the acknowledgement that may follow succeeds. *)
Lemma commit_popped b s rep rest :
  s_completions (sy_shared s) = WCCommitted rep :: rest → safe_state b s →
  let s1 := (on_committed cf rep (on_shared (with_completions rest) s)).1 in
  safe_state b s1 ∧ a_in_flight (sy_actor s) = a_in_flight (sy_actor s1) + 1.
Proof.
  intros Hm (h & lost & Hsafe) s1. set (s0 := on_shared (with_completions rest) s) in *.
  pose proof (live_pop _ _ _ Hm) as Hlive. pose proof (keeps_pop _ _ _ Hm) as Hk. fold s0 in Hlive, Hk.
  pose proof (wo_completions _ _ (sf_workers _ _ _ _ Hsafe)) as Hgood. rewrite Hm in Hgood.
  apply Forall_cons in Hgood as [Hgood _]. simpl in Hgood, Hlive. destruct Hgood as (q & Hr & Hconf).
  rewrite Hr in Hlive.
  assert (safe b s0 h (q :: (lost ++ live s0))) as Hs0.
  { eapply safe_keeps; [exact Hk| |exact Hsafe]. by rewrite Hlive, Permutation_middle. }
  pose proof (on_committed_safe _ _ _ _ _ _ Hs0 Hr Hconf) as Hs1. fold s1 in Hs1.
  pose proof (framed_on_committed cf rep s0) as Hframe. fold s1 in Hframe. split.
  - exists (hist_mark q h), lost. replace (live s1) with (live s0); [done|].
    unfold live. by rewrite (fr_pc _ _ Hframe), (frame_live_rest _ _ Hframe).
  - change (a_in_flight (sy_actor s)) with (a_in_flight (sy_actor s0)).
    rewrite (sf_in_flight _ _ _ _ Hs0), (sf_in_flight _ _ _ _ Hs1). simpl length. lia.
Qed.

Lemma completion_safe b s s' :
  a_pc (sy_actor s) = ALoop → completion_arm cf s = Some s' → safe_state b s → safe_state b s'.
Proof.
  intros Hpc Harm Hs. unfold completion_arm in Harm.
  destruct (s_completions (sy_shared s)) as [|m rest] eqn:Hm; simpl in Harm.
  { destruct (completion_senders_gone s); [|done]. injection Harm as <-.
    apply (keeps_finish b s); [reflexivity|by apply keeps_rest_refl|done]. }
  set (s0 := on_shared (with_completions rest) s) in *. destruct m as [rep|e].
  - destruct (commit_popped b s rep rest Hm Hs) as [Hst _]. fold s0 in Hst.
    destruct (on_committed cf rep s0) as [s1 [u|e]]; injection Harm as <-; [done|].
    apply (keeps_finish b s1); [reflexivity|by apply keeps_rest_refl|done].
  - injection Harm as <-. apply (keeps_finish b s0); [reflexivity|by apply keeps_rest_refl|].
    apply (keeps_live b s); [by apply (keeps_pop _ (WCFatal e))| |done]. exists [].
    by rewrite (live_pop _ _ _ Hm).
Qed.

Lemma actor_step_safe b p s s' : actor_step cf p s = Some s' → safe_state b s → safe_state b s'.
Proof.
  unfold actor_step. destruct (a_pc (sy_actor s)) as [|gates| |[|u us]|r] eqn:Hpc.
  - destruct (_ && _).
    + intros [= <-] Hs. unfold drain_finish. destruct (dry_run (cf_options cf)) eqn:Hdry; simpl.
      { apply (keeps_finish b s); [apply keeps_sample|by apply keeps_rest_refl|done]. }
      destruct (keeps_flush s Hdry) as [Hk Hf]. apply frame_live_rest in Hf.
      destruct (flush_logged s) as [s1 [u|e]]; simpl in *.
      * apply (keeps_finish b s); [etrans; [exact Hk|apply keeps_sample]|by apply keeps_rest_refl|done].
      * apply (keeps_finish b s); [exact Hk|by apply keeps_rest_refl|done].
    + unfold actor_select. destruct (select_arm _ _) as [[]|]; [| | | |done].
      * destruct (s_abort _); [|done]. intros [= <-].
        apply (keeps_finish b s); [reflexivity|by apply keeps_rest_refl].
      * destruct (s_shutdown _); [|done]. intros [= <-] Hs.
        apply (keeps_live b s); [by apply keeps_ext| |done]. exists []. reflexivity.
      * by apply completion_safe.
      * destruct (admission_attempt _ _) as [[g sh]|] eqn:Hadm; [|done].
        destruct (open_gates cf g sh) as [gates sh'] eqn:Hopen. intros [= <-].
        apply admission_live with (gates := gates); [|by rewrite Hpc|done].
        destruct (open_gates_rsteps _ _ _ _ _ [] Hopen) as [_ Hsh'].
        unfold admission_attempt in Hadm. destruct (0 <? _); [|done].
        destruct (reserve _ _) as [[r|] bud]; [|done]. simplify_eq. eauto.
  - intros [= <-]. by apply poll_safe.
  - intros [= <-] Hs. apply (keeps_live b s); [apply keeps_pc| |done]. exists []. unfold live. by rewrite Hpc.
  - intros [= <-] Hs. apply (keeps_live b s); [apply keeps_pc| |done]. exists []. unfold live. by rewrite Hpc.
  - by apply send_descriptor_safe.
  - done.
Qed.

Lemma exec_safe b ev s s' : exec cf ev s = Some s' → safe_state b s → safe_state b s'.
Proof.
  destruct ev as [| |p|i arm|i arm|i arm sel|f|f]; simpl.
  - intros [= <-] Hs. apply (keeps_live b s); [by apply keeps_ext|by exists []|done].
  - unfold supervisor_abort. destruct (a_pc (sy_actor s)) as [| | | |[|]]; try done.
    intros [= <-] Hs. apply (keeps_live b s); [by apply keeps_ext|by exists []|done].
  - apply actor_step_safe.
  - intros Hs. by apply effect_safe, (fetch_step_effect cf i arm).
  - intros Hs. by apply effect_safe, (decode_step_effect cf i arm).
  - intros Hs. by apply effect_safe, (write_step_effect cf i arm sel).
  - intros [= <-] Hs. apply (keeps_live b s); [by apply keeps_ext|by exists []|done].
  - intros [= <-] Hs. apply (keeps_live b s); [by apply keeps_ext|by exists []|done].
Qed.

Lemma exec_all_safe b evs : ∀ s s', exec_all cf evs s = Some s' → safe_state b s → safe_state b s'.
Proof.
  induction evs as [|ev evs IH]; intros s s'; simpl; [by intros [= ->]|].
  destruct (exec cf ev s) as [s1|] eqn:Hev; [|done]. simpl. intros Hrun Hs.
  eapply IH; [done|]. by eapply exec_safe.
Qed.

(** *** The pointers of the source *)

(** The outside world does not move this consumer's cursors. *)
Definition ev_ok (ev : SysEvent (W1 := W1) (W2 := W2)) : Prop :=
  match ev with
  | EvSourceWorld f => ∀ c w, durable_acked (c, f w) = durable_acked (c, w) ∧
                              read_cursor (c, f w) = read_cursor (c, w)
  | _ => True
  end.

Definition same_pointers (x y : BufferSource C F * W1) : Prop :=
  durable y = durable x ∧ pending_durable_ack y.1 = pending_durable_ack x.1 ∧
  last_acked y.1 = last_acked x.1.

(** A step makes the ack calls [ops] on the source, the ones it logs. *)
Definition source_step s s' : Prop :=
  ∃ ops, acks (s_trace (sy_shared s')) = acks (s_trace (sy_shared s)) ++ acked_sequences ops ∧
         same_pointers (ack_run (source_of s) ops) (source_of s').

Definition source_inv (x0 : BufferSource C F * W1) s : Prop :=
  ∃ ops, acked_sequences ops = acks (s_trace (sy_shared s)) ∧ ack_inv x0 (source_of s) ops.

Lemma ack_inv_run x0 x ops ops' : ack_inv x0 x ops → ack_inv x0 (ack_run x ops') (ops ++ ops').
Proof.
  revert x ops. induction ops' as [|op ops' IH]; intros x ops Hinv; [by rewrite app_nil_r|].
  rewrite cons_middle, app_assoc. apply IH. destruct op; [by apply ack_inv_ack|by apply ack_inv_flush].
Qed.

Lemma acked_sequences_app ops ops' :
  acked_sequences (ops ++ ops') = acked_sequences ops ++ acked_sequences ops'.
Proof. apply omap_app. Qed.

Lemma source_step_inv x0 s s' : source_step s s' → source_inv x0 s → source_inv x0 s'.
Proof.
  intros (ops' & Hacks & Hd & Hp & Hl) (ops & Hops & Hinv). exists (ops ++ ops').
  split; [by rewrite acked_sequences_app, Hops|].
  destruct (ack_inv_run _ _ _ ops' Hinv). split; by rewrite ?Hd, ?Hp, ?Hl.
Qed.

Lemma source_quiet s s' :
  acks (s_trace (sy_shared s')) = acks (s_trace (sy_shared s)) →
  same_pointers (source_of s) (source_of s') → source_step s s'.
Proof. intros Ha Hs. exists []. by rewrite app_nil_r. Qed.

Lemma same_pointers_refl x : same_pointers x x.
Proof. done. Qed.

Lemma worker_source s s' :
  worker_effect cf s s' →
  (∀ c, durable_acked (c, s_w1 (sy_shared s')) = durable_acked (c, s_w1 (sy_shared s))) → source_step s s'.
Proof.
  intros [Ha (cs & Ht & _) _ _] Hw. apply source_quiet.
  - by rewrite Ht, acks_app, (quiet_acks _ (quiet_calls cs)), app_nil_r.
  - unfold same_pointers, source_of, durable. simpl. rewrite Ha. by rewrite Hw.
Qed.

Lemma send_completion_w1 m s d s1 : send_completion cf m s = Some (d, s1) → s_w1 (sy_shared s1) = s_w1 (sy_shared s).
Proof. unfold send_completion. destruct (actor_done s); [by intros [= _ <-]|]. destruct (has_room _ _); [by intros [= _ <-]|done]. Qed.

Ltac world_cases :=
  repeat match goal with
  | H : Some _ = Some _ |- _ => injection H as <-
  | H : None = Some _ |- _ => discriminate H
  | H : context [send_completion ?c ?m ?x] |- _ =>
      let E := fresh "E" in destruct (send_completion c m x) as [[? ?]|] eqn:E; simpl in H;
      [apply send_completion_w1 in E|]
  | H : context [attach_stage ?a ?b ?c] |- _ => destruct (attach_stage a b c)
  | H : (if ?c then _ else _) = Some _ |- _ => destruct c
  | H : (let '(_, _) := ?x in _) = Some _ |- _ => destruct x
  | H : match ?x with _ => _ end = Some _ |- _ => destruct x
  end.

Lemma fetch_step_w1 i arm s s' c :
  fetch_step cf i arm s = Some s' →
  durable_acked (c, s_w1 (sy_shared s')) = durable_acked (c, s_w1 (sy_shared s)).
Proof.
  unfold fetch_step. destruct (sy_fetchers s !! i) as [pc|]; [|done]. simpl.
  intros Hrun. destruct pc as [|a|b|e r p|]; [destruct arm|destruct arm| | |];
    unfold abort_if, fetch_recv, fetch_send, enter_stage in Hrun; try (world_cases; done).
  - unfold fetch_run in Hrun. unfold Source.fetch in Hrun.
    destruct (fetch_reads c (s_w1 (sy_shared s)) (fh_inner (cf_handle cf))
                (to_buffer_descriptor (ad_descriptor a))) as [Hd _].
    destruct (handle_fetch _ _ _) as [w1 [batch|e]]; world_cases; done.
  - world_cases; simpl; by rewrite ?E.
Qed.
Lemma decode_step_w1 i arm s s' : decode_step cf i arm s = Some s' → s_w1 (sy_shared s') = s_w1 (sy_shared s).
Proof.
  unfold decode_step. destruct (sy_decoders s !! i) as [pc|]; [|done]. simpl.
  intros Hrun. destruct pc; try destruct arm;
    unfold abort_if, decode_recv, decode_run, decode_send, enter_stage in Hrun; world_cases;
    repeat case_match; simplify_eq; simpl; by rewrite ?E.
Qed.
Lemma write_step_w1 i arm sel s s' : write_step cf i arm sel s = Some s' → s_w1 (sy_shared s') = s_w1 (sy_shared s).
Proof.
  unfold write_step. destruct (sy_writers s !! i) as [pc|]; [|done]. simpl.
  intros Hrun. destruct pc; try destruct arm;
    unfold abort_if, write_recv, write_run, enter_stage in Hrun; world_cases;
    repeat case_match; simplify_eq; simpl; by rewrite ?E.
Qed.

Lemma register_source ds s :
  source_of (for_each ds register_one s).1 = source_of s ∧
  acks (s_trace (sy_shared (for_each ds register_one s).1)) = acks (s_trace (sy_shared s)).
Proof.
  apply (for_each_inv (λ s', source_of s' = source_of s ∧
    acks (s_trace (sy_shared s')) = acks (s_trace (sy_shared s)))); [|done].
  intros d s' _ [Hs Ha]. unfold register_one. rewrite run_bind. unfold zoom.
  destruct (register_pending _ _ _) as [c [u|e]]; repeat (rewrite run_bind; cbn); cbn; [|done].
  split; [done|]. rewrite omap_app. fold (acks (s_trace (sy_shared s'))). by rewrite Ha, app_nil_r.
Qed.

Lemma release_source rs s s1 :
  source_of s1 = source_of s → acks (s_trace (sy_shared s1)) = acks (s_trace (sy_shared s)) →
  source_step s (on_shared (release_all rs) s1).
Proof.
  intros Hs1 Ha. apply source_quiet.
  - simpl. by rewrite release_all_capacity.
  - unfold source_of. simpl. rewrite release_all_capacity. simpl. fold (source_of s1). by rewrite Hs1.
Qed.

Lemma poll_source gates s : source_step s (poll_descriptors gates s).
Proof.
  unfold poll_descriptors.
  pose proof (next_descriptors_run (source_of s) (length gates) SourceBudget_default) as Hnext.
  unfold source_of in Hnext. destruct (next_descriptors _ _ _) as [[src w1] polled].
  assert (same_pointers (source_of s) (src, w1)) as Hp.
  { assert (∃ cw r, consumer_next_descriptors (length gates) (consumer (a_source (sy_actor s)), s_w1 (sy_shared s)) = (cw, r) ∧
      src = set_consumer cw.1 (a_source (sy_actor s)) ∧ w1 = cw.2) as ([c' w'] & r & Hrun & -> & ->).
    { destruct polled as [ds|e]; destruct Hnext as (cw & r & Hrun & [= -> ->] & _); simpl in *; eauto. }
    split_and!; try done. unfold durable. simpl.
    pose proof (next_durable (consumer (a_source (sy_actor s)), s_w1 (sy_shared s)) (length gates)) as Hd.
    by rewrite Hrun in Hd. }
  set (s0 := on_shared (with_w1 w1) (on_actor (with_source src) s)).
  assert (∀ rs s1, source_of s1 = source_of s0 → acks (s_trace (sy_shared s1)) = acks (s_trace (sy_shared s)) →
    source_step s (on_shared (release_all rs) s1)) as Hdrop.
  { intros rs s1 Hs1 Ha. apply source_quiet.
    - simpl. by rewrite release_all_capacity.
    - unfold source_of. simpl. rewrite release_all_capacity. simpl. fold (source_of s1). by rewrite Hs1. }
  destruct polled as [[|d ds]|e]; [by apply Hdrop| |by apply Hdrop].
  set (s1 := on_shared (release_all _) s0).
  assert (source_of s1 = source_of s0 ∧ s_trace (sy_shared s1) = s_trace (sy_shared s)) as [Hs1 Ht1].
  { unfold s1, source_of. simpl. by rewrite release_all_capacity. }
  destruct (register_source (d :: ds) s1) as [Hs2 Ha2]. rewrite Hs1 in Hs2. rewrite Ht1 in Ha2.
  destruct (for_each (d :: ds) register_one s1) as [s2 [u|e]]; cbn [fst] in Hs2, Ha2.
  - apply source_quiet; [done|]. change (source_of (on_actor ?f s2)) with (source_of s2). by rewrite Hs2.
  - by apply Hdrop.
Qed.

Lemma flush_source s : source_step s (flush_logged s).1.
Proof.
  destruct (flush_logged_source s) as [Hs [d Ht]]. exists [FlushAcks].
  by rewrite Ht, acks_app, Hs.
Qed.

Lemma on_committed_source b s h fl q rep :
  safe b s h (q :: fl) → rep_range rep = (q, q) →
  (dry = false → confirmed q (s_trace (sy_shared s))) → source_step s (on_committed cf rep s).1.
Proof.
  intros Hsafe Hr Hconf. destruct (commit_safe _ _ _ _ _ Hsafe Hconf) as (c' & Hmark & _).
  rewrite (on_committed_run _ _ _ _ Hr Hmark). set (s1 := on_actor _ s).
  destruct (frontier (advance_frontier c')) as [f|]; [|by apply source_quiet].
  destruct (_ && _); [|by apply source_quiet].
  destruct (ack_frontier_step f s1) as [_ _ _ _ (fls & Ht) (ops & Hops & Hsrc)].
  assert (source_step s (ack_frontier cf f s1).1) as (ops' & Ha & Hs).
  { exists ops. rewrite Ht, acks_app, Hops, Hsrc. simpl. by rewrite (quiet_acks _ (quiet_flushes fls)). }
  destruct (ack_frontier cf f s1) as [s2 [u|e]]; simpl in *; by exists ops'.
Qed.

Lemma actor_source b p s s' : safe_state b s → actor_step cf p s = Some s' → source_step s s'.
Proof.
  intros Hs. unfold actor_step. destruct (a_pc (sy_actor s)) as [|gates| |[|u us]|r] eqn:Hpc.
  - destruct (_ && _).
    + intros [= <-]. unfold drain_finish. destruct (negb _); [|by apply source_quiet].
      destruct (flush_source s) as (ops & Ha & Hsrc).
      destruct (flush_logged s) as [s1 [u|e]]; simpl in *; by exists ops.
    + unfold actor_select. destruct (select_arm _ _) as [[]|]; [| | | |done].
      * destruct (s_abort _); [|done]. intros [= <-]. by apply source_quiet.
      * destruct (s_shutdown _); [|done]. intros [= <-]. by apply source_quiet.
      * unfold completion_arm. destruct (s_completions (sy_shared s)) as [|m rest] eqn:Hm; simpl.
        { destruct (completion_senders_gone s); [|done]. intros [= <-]. by apply source_quiet. }
        destruct m as [rep|e]; [|intros [= <-]; by apply source_quiet]. intros Harm.
        destruct Hs as (h & lost & Hsafe).
        pose proof (wo_completions _ _ (sf_workers _ _ _ _ Hsafe)) as Hgood. rewrite Hm in Hgood.
        apply Forall_cons in Hgood as [Hgood _]. simpl in Hgood. destruct Hgood as (q & Hr & Hconf).
        pose proof (live_pop _ _ _ Hm) as Hlive. simpl in Hlive. rewrite Hr in Hlive.
        set (s0 := on_shared (with_completions rest) s) in *.
        assert (safe b s0 h (q :: (lost ++ live s0))) as Hs0.
        { eapply safe_keeps; [exact (keeps_pop _ _ _ Hm)| |exact Hsafe]. by rewrite Hlive, Permutation_middle. }
        destruct (on_committed_source _ _ _ _ _ _ Hs0 Hr Hconf) as (ops & Ha & Hsrc).
        destruct (on_committed cf rep s0) as [s1 [u|e]]; injection Harm as <-; by exists ops.
      * destruct (admission_attempt _ _) as [[g sh]|] eqn:Hadm; [|done].
        destruct (open_gates cf g sh) as [gates sh'] eqn:Hopen. intros [= <-].
        destruct (open_gates_rsteps _ _ _ _ _ [] Hopen) as [_ Hsh'].
        unfold admission_attempt in Hadm. destruct (0 <? _); [|done].
        destruct (reserve _ _) as [[r|] bud]; [|done]. simplify_eq. apply source_quiet; simpl; by rewrite Hsh'.
  - intros [= <-]. apply poll_source.
  - intros [= <-]. by apply source_quiet.
  - intros [= <-]. by apply source_quiet.
  - unfold send_descriptor. destruct u as [d g].
    destruct (descriptors_closed s); [|destruct (has_room cf _); [|done]]; intros [= <-].
    + exact (release_source (ag_reservation g :: ((λ x, ag_reservation x.2) <$> us)) s (finish _ s)
               eq_refl eq_refl).
    + by apply source_quiet.
  - done.
Qed.

Lemma exec_source b ev s s' : ev_ok ev → safe_state b s → exec cf ev s = Some s' → source_step s s'.
Proof.
  intros Hok Hs. destruct ev as [| |p|i arm|i arm|i arm sel|f|f]; simpl in *.
  - intros [= <-]. by apply source_quiet.
  - unfold supervisor_abort. destruct (a_pc (sy_actor s)) as [| | | |[|]]; try done.
    intros [= <-]. by apply source_quiet.
  - by eapply actor_source.
  - intros Hrun. apply worker_source; [by eapply fetch_step_effect|]. intros c. by eapply fetch_step_w1.
  - intros Hrun. apply worker_source; [by eapply decode_step_effect|].
    intros c. by rewrite (decode_step_w1 _ _ _ _ Hrun).
  - intros Hrun. apply worker_source; [by eapply write_step_effect|].
    intros c. by rewrite (write_step_w1 _ _ _ _ _ Hrun).
  - intros [= <-]. apply source_quiet; [done|]. split_and!; try done. unfold durable, source_of. simpl. apply Hok.
  - intros [= <-]. by apply source_quiet.
Qed.

Lemma exec_all_source b x0 evs : ∀ s s',
  Forall ev_ok evs → exec_all cf evs s = Some s' → safe_state b s → source_inv x0 s → source_inv x0 s'.
Proof.
  induction evs as [|ev evs IH]; intros s s' Hok; simpl; [by intros [= ->]|].
  apply Forall_cons in Hok as [Hev Hevs].
  destruct (exec cf ev s) as [s1|] eqn:Hrun; [|done]. simpl. intros Hrest Hs Hinv.
  eapply IH; [done|done|by eapply exec_safe|]. eapply source_step_inv; [|done]. by eapply exec_source.
Qed.

(** *** The clean exit *)

(** Admission closes on a shutdown only; the actor returns [Ok] only with
    admission closed, nothing in flight and the last flush made. *)
Record exit_inv s : Prop := {
  ei_shutdown : a_admission_open (sy_actor s) = false → s_shutdown (sy_shared s) = true;
  ei_done : a_pc (sy_actor s) = ADone (Ok tt) →
    a_admission_open (sy_actor s) = false ∧ a_in_flight (sy_actor s) = 0 ∧
    (dry = false → pending_durable_ack (a_source (sy_actor s)) = None);
}.

Lemma exit_same s s' :
  a_admission_open (sy_actor s') = a_admission_open (sy_actor s) →
  s_shutdown (sy_shared s') = s_shutdown (sy_shared s) →
  (∀ r, a_pc (sy_actor s') ≠ ADone (Ok r)) → exit_inv s → exit_inv s'.
Proof. intros Ho Hsh Hpc [Hs _]. split; [by rewrite Ho, Hsh|]. intros Hd. by destruct (Hpc tt). Qed.

Lemma exit_worker s s' :
  sy_actor s' = sy_actor s → s_shutdown (sy_shared s') = s_shutdown (sy_shared s) → exit_inv s → exit_inv s'.
Proof. intros Ha Hsh [Hs Hd]. split; by rewrite ?Ha, ?Hsh. Qed.

Lemma send_completion_shutdown m s d s1 :
  send_completion cf m s = Some (d, s1) → s_shutdown (sy_shared s1) = s_shutdown (sy_shared s).
Proof. unfold send_completion. destruct (actor_done s); [by intros [= _ <-]|]. destruct (has_room _ _); [by intros [= _ <-]|done]. Qed.

Ltac shutdown_cases :=
  repeat match goal with
  | H : Some _ = Some _ |- _ => injection H as <-
  | H : None = Some _ |- _ => discriminate H
  | H : context [send_completion ?c ?m ?x] |- _ =>
      let E := fresh "E" in destruct (send_completion c m x) as [[? ?]|] eqn:E; simpl in H;
      [apply send_completion_shutdown in E|]
  | H : context [attach_stage ?a ?b ?c] |- _ => destruct (attach_stage a b c)
  | H : (if ?c then _ else _) = Some _ |- _ => destruct c
  | H : (let '(_, _) := ?x in _) = Some _ |- _ => destruct x
  | H : match ?x with _ => _ end = Some _ |- _ => destruct x
  end; repeat case_match; simplify_eq; simpl;
  try match goal with E : s_shutdown _ = _ |- _ => by rewrite E end.

Lemma fetch_step_shutdown i arm s s' :
  fetch_step cf i arm s = Some s' → s_shutdown (sy_shared s') = s_shutdown (sy_shared s).
Proof.
  unfold fetch_step. destruct (sy_fetchers s !! i) as [pc|]; [|done]. simpl. intros Hrun.
  destruct pc; try destruct arm;
    unfold abort_if, fetch_recv, fetch_run, fetch_send, enter_stage in Hrun; by shutdown_cases.
Qed.
Lemma decode_step_shutdown i arm s s' :
  decode_step cf i arm s = Some s' → s_shutdown (sy_shared s') = s_shutdown (sy_shared s).
Proof.
  unfold decode_step. destruct (sy_decoders s !! i) as [pc|]; [|done]. simpl. intros Hrun.
  destruct pc; try destruct arm;
    unfold abort_if, decode_recv, decode_run, decode_send, enter_stage in Hrun; by shutdown_cases.
Qed.
Lemma write_step_shutdown i arm sel s s' :
  write_step cf i arm sel s = Some s' → s_shutdown (sy_shared s') = s_shutdown (sy_shared s).
Proof.
  unfold write_step. destruct (sy_writers s !! i) as [pc|]; [|done]. simpl. intros Hrun.
  destruct pc; try destruct arm;
    unfold abort_if, write_recv, write_run, enter_stage in Hrun; by shutdown_cases.
Qed.

Lemma frame_shutdown s s' : frame s s' → s_shutdown (sy_shared s') = s_shutdown (sy_shared s).
Proof. intros [_ _ _ _ _ (w1 & tr & Hs)]. by rewrite Hs. Qed.

(** A step of the actor that ends anywhere but in success. *)
Lemma exit_frame s s1 pc :
  frame s s1 → (∀ r, pc ≠ ADone (Ok r)) → exit_inv s → exit_inv (on_actor (with_pc pc) s1).
Proof. intros Hf Hpc. apply exit_same; [apply Hf|exact (frame_shutdown _ _ Hf)|done]. Qed.

Lemma flush_ok_clears (x : BufferSource C F * W1) :
  is_ok (flush_acks x).2 = true → pending_durable_ack (flush_acks x).1.1 = None.
Proof.
  pose proof (flush_acks_cases x) as Hcases. destruct (pending_durable_ack x.1) eqn:Hp.
  - by destruct Hcases as [(y & -> & _ & Hn & _)|(y & err & -> & _)].
  - by rewrite Hcases.
Qed.

Lemma drain_finish_exit s :
  a_admission_open (sy_actor s) = false → a_in_flight (sy_actor s) = 0 → exit_inv s → exit_inv (drain_finish cf s).
Proof.
  intros Ho Hi Hinv. unfold drain_finish. destruct dry eqn:Hdry; simpl.
  { split; simpl; [by apply Hinv|]. rewrite Hdry. done. }
  destruct (keeps_flush s Hdry) as [Hk Hf]. destruct (flush_logged_source s) as [Hsrc _].
  unfold flush_logged in *.
  destruct (on_source flush_acks s) as [s1 [u|e]] eqn:Hrun; simpl in *.
  - assert (is_ok (flush_acks (source_of s)).2 = true) as Hok.
    { unfold on_source, zoom, source_of in *. destruct (flush_acks _) as [[? ?] [|]]; by simplify_eq. }
    pose proof (frame_shutdown _ _ Hf) as Hsh. simpl in Hsh.
    split; simpl; [intros _; rewrite Hsh; by apply Hinv|]. intros _.
    pose proof (fr_open _ _ Hf) as Ho1. pose proof (kp_in_flight _ _ Hk) as Hi1. simpl in Ho1, Hi1.
    split_and!; [congruence|congruence|]. intros _.
    assert (a_source (sy_actor s1) = (flush_acks (source_of s)).1.1) as -> by (by rewrite <- Hsrc).
    by apply flush_ok_clears.
  - apply (exit_same s); [apply Hf|by apply (frame_shutdown _ _ Hf)|done|done].
Qed.

Lemma actor_exit p s s' : exit_inv s → actor_step cf p s = Some s' → exit_inv s'.
Proof.
  intros Hinv. unfold actor_step. destruct (a_pc (sy_actor s)) as [|gates| |[|u us]|r] eqn:Hpc.
  - destruct (_ && _) eqn:Hexit.
    + intros [= <-]. apply andb_true_iff in Hexit as [Ho Hi]. apply negb_true_iff in Ho. apply N.eqb_eq in Hi.
      by apply drain_finish_exit.
    + unfold actor_select. destruct (select_arm _ _) as [[]|]; [| | | |done].
      * destruct (s_abort _); [|done]. intros [= <-]. by apply (exit_frame s).
      * destruct (s_shutdown _) eqn:Hsh; [|done]. intros [= <-]. split; simpl; [done|]. by rewrite Hpc.
      * unfold completion_arm. destruct (s_completions (sy_shared s)) as [|[rep|e] rest]; simpl.
        { destruct (completion_senders_gone s); [|done]. intros [= <-]. by apply (exit_frame s). }
        2: { intros [= <-]. by apply (exit_same s). }
        pose proof (framed_on_committed cf rep (on_shared (with_completions rest) s)) as Hf.
        destruct (on_committed cf rep _) as [s1 [u|e]]; intros [= <-]; simpl in Hf.
        -- apply (exit_same s); [apply (fr_open _ _ Hf)|by apply (frame_shutdown _ _ Hf)| |done].
           intros r. rewrite (fr_pc _ _ Hf). simpl. by rewrite Hpc.
        -- apply (exit_same s); [apply (fr_open _ _ Hf)|by apply (frame_shutdown _ _ Hf)|done|done].
      * destruct (admission_attempt _ _) as [[g sh]|] eqn:Hadm; [|done].
        destruct (open_gates cf g sh) as [gates sh'] eqn:Hopen. intros [= <-].
        destruct (open_gates_rsteps _ _ _ _ _ [] Hopen) as [_ Hsh'].
        unfold admission_attempt in Hadm. destruct (0 <? _); [|done].
        destruct (reserve _ _) as [[r|] bud]; [|done]. simplify_eq.
        apply (exit_same s); simpl; [done|by rewrite Hsh'|done|done].
  - intros [= <-]. unfold poll_descriptors. destruct (next_descriptors _ _ _) as [[src w1] polled].
    destruct polled as [[|d ds]|e].
    + apply (exit_same s); [done|simpl; by rewrite release_all_capacity|done|done].
    + set (s1 := on_shared _ _). pose proof (framed_for_each (d :: ds) register_one framed_register_one s1) as Hf.
      assert (s_shutdown (sy_shared s1) = s_shutdown (sy_shared s)) as Hs1 by (simpl; by rewrite release_all_capacity).
      pose proof (fr_open _ _ Hf) as Ho. apply frame_shutdown in Hf. rewrite Hs1 in Hf.
      destruct (for_each (d :: ds) register_one s1) as [s2 [u|e]]; cbn [fst] in Hf, Ho.
      * by apply (exit_same s).
      * apply (exit_same s); [exact Ho|simpl; by rewrite release_all_capacity|done|done].
    + apply (exit_same s); [done|simpl; by rewrite release_all_capacity|done|done].
  - intros [= <-]. by apply (exit_same s).
  - intros [= <-]. by apply (exit_same s).
  - unfold send_descriptor. destruct u as [d g].
    destruct (descriptors_closed s); [|destruct (has_room cf _); [|done]]; intros [= <-].
    + apply (exit_same s); [done| |done|done]. cbn [sy_shared on_shared]. by rewrite release_all_capacity.
    + by apply (exit_same s).
  - done.
Qed.

(** The token is cancelled from outside only. *)
Lemma actor_step_shutdown p s s' : actor_step cf p s = Some s' → s_shutdown (sy_shared s') = s_shutdown (sy_shared s).
Proof.
  unfold actor_step. destruct (a_pc (sy_actor s)) as [|gates| |[|[d g] us]|r]; [| |by intros [= <-]|by intros [= <-]| |done].
  - destruct (_ && _).
    { intros [= <-]. unfold drain_finish. destruct dry eqn:Hdry; [done|].
      destruct (keeps_flush s Hdry) as [_ Hf]. unfold flush_logged in *.
      destruct (on_source flush_acks s) as [s1 [u|e]]; simpl in *; exact (frame_shutdown _ _ Hf). }
    unfold actor_select. destruct (select_arm _ _) as [[]|]; [| | | |done].
    + destruct (s_abort _); [|done]. by intros [= <-].
    + destruct (s_shutdown (sy_shared s)) eqn:Hsh; [|done]. intros [= <-]. exact Hsh.
    + unfold completion_arm. destruct (s_completions (sy_shared s)) as [|[rep|e] rest]; simpl;
        [destruct (completion_senders_gone s); [|done]; by intros [= <-]| |by intros [= <-]].
      pose proof (framed_on_committed cf rep (on_shared (with_completions rest) s)) as Hf%frame_shutdown.
      destruct (on_committed cf rep _) as [s1 [u|e]]; intros [= <-]; exact Hf.
    + destruct (admission_attempt _ _) as [[g sh]|] eqn:Hadm; [|done].
      destruct (open_gates cf g sh) as [gates sh'] eqn:Hopen. intros [= <-].
      destruct (open_gates_rsteps _ _ _ _ _ [] Hopen) as [_ Hsh'].
      unfold admission_attempt in Hadm. destruct (0 <? _); [|done].
      destruct (reserve _ _) as [[r|] bud]; [|done]. simplify_eq. simpl. by rewrite Hsh'.
  - intros [= <-]. unfold poll_descriptors. destruct (next_descriptors _ _ _) as [[src w1] [[|d ds]|e]];
      try (simpl; by rewrite release_all_capacity).
    set (s1 := on_shared _ _). pose proof (framed_for_each (d :: ds) register_one framed_register_one s1) as Hf%frame_shutdown.
    assert (s_shutdown (sy_shared s1) = s_shutdown (sy_shared s)) as Hs1 by (simpl; by rewrite release_all_capacity).
    rewrite Hs1 in Hf. destruct (for_each (d :: ds) register_one s1) as [s2 [u|e]]; [exact Hf|].
    simpl. by rewrite release_all_capacity.
  - unfold send_descriptor. destruct (descriptors_closed s); [|destruct (has_room cf _); [by intros [= <-]|done]].
    intros [= <-]. cbn [sy_shared on_shared finish on_actor]. by rewrite release_all_capacity.
Qed.

Lemma exec_shutdown ev s s' :
  match ev with EvShutdown => False | _ => True end → exec cf ev s = Some s' →
  s_shutdown (sy_shared s') = s_shutdown (sy_shared s).
Proof.
  destruct ev as [| |p|i arm|i arm|i arm sel|f|f]; simpl; intros Hev; [done| | | | | |by intros [= <-]..].
  - unfold supervisor_abort. destruct (a_pc (sy_actor s)) as [| | | |[|]]; try done. by intros [= <-].
  - apply actor_step_shutdown.
  - apply fetch_step_shutdown.
  - apply decode_step_shutdown.
  - apply write_step_shutdown.
Qed.

Lemma exec_exit ev s s' : exit_inv s → exec cf ev s = Some s' → exit_inv s'.
Proof.
  intros Hinv. destruct ev as [| |p|i arm|i arm|i arm sel|f|f]; simpl in *.
  - intros [= <-]. destruct Hinv as [_ Hd]. by split.
  - unfold supervisor_abort. destruct (a_pc (sy_actor s)) as [| | | |[|]]; try done.
    intros [= <-]. by apply (exit_worker s).
  - by apply actor_exit.
  - intros Hrun. apply (exit_worker s); [|by eapply fetch_step_shutdown|done]. apply (fetch_step_effect cf _ _ _ _ Hrun).
  - intros Hrun. apply (exit_worker s); [|by eapply decode_step_shutdown|done]. apply (decode_step_effect cf _ _ _ _ Hrun).
  - intros Hrun. apply (exit_worker s); [|by eapply write_step_shutdown|done]. apply (write_step_effect cf _ _ _ _ _ Hrun).
  - intros [= <-]. by apply (exit_worker s).
  - intros [= <-]. by apply (exit_worker s).
Qed.

Lemma exec_all_exit evs : ∀ s s', exec_all cf evs s = Some s' → exit_inv s → exit_inv s'.
Proof.
  induction evs as [|ev evs IH]; intros s s'; simpl; [by intros [= ->]|].
  destruct (exec cf ev s) as [s1|] eqn:Hev; [|done]. simpl. intros Hrun Hs.
  eapply IH; [done|]. by eapply exec_exit.
Qed.
End safety.

(** ** Runs *)

Section runs.
Context {C F W1 D K W2 T : Type}.
Context `{ConsumerLaws C F W1} `{TypedRecords T} `{Decoder D T} `{Sink K W2 T}.
Implicit Types s : Sys C F W1 W2 T.

(** The baseline of a run: what the source had acknowledged when the runtime
    was built. *)
Definition baseline (b : RuntimeBuilder C F D K) : option N := src ← rb_source b; last_acked src.
Definition baseline_u64 (b : RuntimeBuilder C F D K) : Prop := ∀ x, baseline b = Some x → is_u64 x.
(** How a source is opened: nothing is armed for the next flush, and the durable
    cursor, if any, is the baseline or lies before what the consumer will read
    next. *)
Definition well_opened (b : RuntimeBuilder C F D K) (w1 : W1) : Prop :=
  ∀ src, rb_source b = Some src →
    pending_durable_ack src = None ∧
    ∀ f, durable (src, w1) = Some f →
      last_acked src = Some f ∨ ∃ c, source_cursor (src, w1) = Some c ∧ f < c.

(** [run_reaches], naming the events. *)
Definition run_by (evs : list SysEvent) (b : RuntimeBuilder C F D K) (w1 : W1) (w2 : W2)
    (cf : Config F D K) s : Prop :=
  ∃ rt s0, build b = Ok rt ∧ run_start rt w1 w2 = Ok s0 ∧ cf = run_config rt ∧
           exec_all cf evs s0 = Some s.

Lemma build_source (b : RuntimeBuilder C F D K) rt : build b = Ok rt → rb_source b = Some (rt_source rt).
Proof.
  unfold build. destruct (rb_source b) as [source|]; [|done]. simpl.
  destruct (rb_decoder b) as [decoder|]; [|done]. simpl.
  destruct (rb_sink b) as [sink|]; [|done]. simpl.
  destruct (validate_backpressure _ _); [|done]. destruct (validate_overrides _); [|done].
  by intros [= <-].
Qed.

Lemma run_start_safe b rt w1 w2 s0 :
  build b = Ok rt → baseline_u64 b → run_start rt w1 w2 = Ok s0 →
  safe_state (run_config rt) (baseline b) s0 ∧ exit_inv (run_config rt) s0 ∧ source_of s0 = (rt_source rt, w1).
Proof.
  intros Hb Hu. destruct (build_run _ _ Hb) as [_ Hco]. pose proof (build_source _ _ Hb) as Hsrc.
  assert (baseline b = last_acked (rt_source rt)) as Hbase by (unfold baseline; by rewrite Hsrc).
  unfold run_start. rewrite Hco. unfold take_coordinator, AckCoordinators. rewrite lookup_singleton_eq. simpl. intros [= <-].
  split; [|split; [split; done|done]]. exists [], [].
  pose proof (represents_new' (bs_id (rt_source rt)) (baseline b) Hu) as Hrep. rewrite Hbase in *.
  split; simpl; try done.
  - unfold live, live_rest. simpl. by rewrite !concat_replicate_nil.
  - unfold live, live_rest. simpl. by rewrite !concat_replicate_nil.
  - by intros _ r ?%elem_of_nil.
  - split; simpl; try constructor; by apply Forall_replicate.
  - apply ack_justified_nil.
  - constructor.
Qed.

Lemma run_safe b w1 w2 cf s :
  run_reaches b w1 w2 cf s → baseline_u64 b → ∃ h lost, safe cf (baseline b) s h (lost ++ live s).
Proof.
  intros (rt & s0 & evs & Hb & Hs0 & -> & Hrun) Hu. eapply exec_all_safe; [done|].
  by apply (run_start_safe b rt w1 w2).
Qed.

Lemma run_by_reaches evs b w1 w2 cf s : run_by evs b w1 w2 cf s → run_reaches b w1 w2 cf s.
Proof. intros (rt & s0 & Hb & Hs0 & Hcf & Hrun). by exists rt, s0, evs. Qed.

Lemma run_exit b w1 w2 cf s : run_reaches b w1 w2 cf s → baseline_u64 b → exit_inv cf s.
Proof.
  intros (rt & s0 & evs & Hb & Hs0 & -> & Hrun) Hu. eapply exec_all_exit; [done|].
  by destruct (run_start_safe _ _ _ _ _ Hb Hu Hs0) as (_ & Hexit & _).
Qed.

Lemma run_source evs b w1 w2 cf s :
  run_by evs b w1 w2 cf s → baseline_u64 b → well_opened b w1 → Forall ev_ok evs →
  ∃ src, rb_source b = Some src ∧ baseline b = last_acked src ∧ source_inv (src, w1) s.
Proof.
  intros (rt & s0 & Hb & Hs0 & -> & Hrun) Hu Hfresh Hevs. pose proof (build_source _ _ Hb) as Hsrc.
  destruct (run_start_safe _ _ _ _ _ Hb Hu Hs0) as (Hsafe & _ & Hs0src).
  exists (rt_source rt). split; [done|]. split; [unfold baseline; by rewrite Hsrc|].
  eapply exec_all_source; [done|done|exact Hsafe|]. exists []. rewrite Hs0src.
  destruct (Hfresh _ Hsrc) as [Hp _]. split; [|by apply (ack_run_inv (rt_source rt, w1) [])].
  unfold run_start in Hs0. destruct (take_coordinator _ _) as [[c|] ?]; [|done]. simpl in Hs0. by simplify_eq.
Qed.

Lemma elem_confirmed q f tr : ack_justified tr → f ∈ acks tr → q ∈ admits tr → q ≤ f → confirmed (T := T) q tr.
Proof.
  intros Hj Hf%elem_acks Hq Hle. apply list_elem_of_split in Hf as (tr1 & tr2 & Htr).
  specialize (Hj _ _ _ Htr _ Hq Hle). rewrite Htr. by apply confirmed_app.
Qed.

(** C2: no acknowledgement before the commit.  In every run, whatever the
    scheduling, the faults, the retries and the aborts: the sequences passed to
    [ack_through] strictly increase, each was admitted by the run, and by the
    time one is acknowledged the sink has confirmed the commit of every
    admitted sequence up to it, out of order completions included. *)
Theorem ack_only_after_commit (b : RuntimeBuilder C F D K) (w1 : W1) (w2 : W2) (cf : Config F D K)
    (s : Sys C F W1 W2 T) (Hrun : run_reaches b w1 w2 cf s) (Hbase : baseline_u64 b) :
  let tr := s_trace (sy_shared s) in
  StronglySorted N.lt (acks tr) ∧
  (∀ f, f ∈ acks tr → f ∈ admits tr) ∧
  (∀ tr1 f tr2, tr = tr1 ++ TrAck f :: tr2 →
     ∀ q, q ∈ admits tr → q ≤ f → confirmed q tr1).
Proof.
  destruct (run_safe _ _ _ _ _ Hrun Hbase) as (h & lost & []). split_and!; try done.
  intros f Hf. rewrite sf_admits0. by apply sf_ack_admitted0.
Qed.

(** A clean exit drains the run.  When the actor returns [Ok], shutdown was
    requested, no unit is in flight, and, outside of dry runs, every admitted
    sequence was confirmed by the sink and the durable cursor is the last one
    of them. *)
Theorem clean_exit_drains (evs : list SysEvent) (b : RuntimeBuilder C F D K) (w1 : W1)
    (w2 : W2) (cf : Config F D K) (s : Sys C F W1 W2 T)
    (Hrun : run_by evs b w1 w2 cf s) (Hbase : baseline_u64 b) (Hfresh : well_opened b w1)
    (Hevs : Forall ev_ok evs) (Hdone : a_pc (sy_actor s) = ADone (Ok tt)) :
  s_shutdown (sy_shared s) = true ∧ a_in_flight (sy_actor s) = 0 ∧ live s = [] ∧
  (dry_run (cf_options cf) = false →
     (∀ q, q ∈ admits (s_trace (sy_shared s)) → confirmed q (s_trace (sy_shared s))) ∧
     (∀ f, last (admits (s_trace (sy_shared s))) = Some f → durable (source_of s) = Some f)).
Proof.
  destruct (run_safe _ _ _ _ _ (run_by_reaches _ _ _ _ _ _ Hrun) Hbase) as (h & lost & []).
  destruct (run_exit _ _ _ _ _ (run_by_reaches _ _ _ _ _ _ Hrun) Hbase) as [Hsh Hd].
  destruct (run_source _ _ _ _ _ _ Hrun Hbase Hfresh Hevs) as (src & Hsrc & Hb & ops & Hops & [_ Hfl Hlast _]).
  destruct (Hd Hdone) as (Hopen & Hzero & Hpend). rewrite Hzero, length_app in sf_in_flight0.
  assert (lost = [] ∧ live s = []) as [-> Hlive] by (destruct lost, (live s); simpl in *; done || lia).
  rewrite Hlive in sf_flight0. apply Permutation_nil_r in sf_flight0.
  split_and!; [by apply Hsh|done|done|]. intros Hdry. split.
  - intros q Hq. rewrite sf_admits0 in Hq. apply list_elem_of_fmap in Hq as (r & -> & Hr).
    apply sf_confirmed0; [done..|]. by eapply open_lows_none.
  - intros f Hf. rewrite sf_admits0, fmap_last in Hf. destruct (last h) as [r|] eqn:Hl; [|done]. simpl in Hf.
    specialize (sf_acked0 Hdry). rewrite sf_frontier0, (prefix_end_all _ _ sf_flight0), Hl in sf_acked0.
    specialize (Hpend Hdry).
    assert (acked_sequences ops ≠ []) as Hne by (rewrite Hops; intros Hnil; by rewrite Hnil in sf_acked0).
    rewrite (Hfl Hpend Hne), Hlast, Hops, sf_acked0.
    rewrite Forall_forall in sf_units0. destruct (sf_units0 r) as [Heq _]; [by apply last_Some_elem_of|congruence].
Qed.

(** The uncommitted ranges the coordinator still tracks. *)
Definition uncommitted (c : AckCoordinator) : nat :=
  length (List.filter (λ kv, negb (sink_committed kv.2)) (pending c)).

Lemma uncommitted_to_pending h :
  length (List.filter (λ kv, negb (sink_committed kv.2)) (to_pending h)) = length (open_lows h).
Proof.
  induction h as [|r h IH]; [done|]. rewrite open_lows_cons, length_app, <- IH. unfold to_pending. simpl.
  by destruct (h_committed r).
Qed.

Lemma represents_uncommitted c b h : represents c b h → uncommitted c = length (open_lows h).
Proof.
  intros (done & rest & -> & Hrep). unfold uncommitted. rewrite (rep_pending _ _ _ _ Hrep), uncommitted_to_pending.
  rewrite open_lows_app, length_app. enough (open_lows done = []) as ->; [done|].
  pose proof (rep_done _ _ _ _ Hrep) as Hd. clear Hrep. induction Hd as [|r done Hr _ IH]; [done|].
  by rewrite open_lows_cons, Hr.
Qed.

Lemma safe_mark (cf : Config F D K) b s h lost rep :
  safe cf b s h (lost ++ live s) → WCCommitted rep ∈ s_completions (sy_shared s) →
  0 < a_in_flight (sy_actor s) ∧
  is_ok (mark_committed (rep_range rep).1 (rep_range rep).2 (a_coordinator (sy_actor s))).2 = true.
Proof.
  intros Hsafe Hin. pose proof Hsafe as [].
  pose proof (wo_completions _ _ sf_workers0) as Hgood. rewrite Forall_forall in Hgood.
  destruct (Hgood _ Hin) as (q & Hr & _). rewrite Hr. simpl.
  assert (q ∈ lost ++ live s) as Hq.
  { apply elem_of_app. right. unfold live, live_rest. rewrite !elem_of_app. do 7 right.
    apply list_elem_of_In, in_concat. exists [q]. split; [|by left]. apply list_elem_of_In, list_elem_of_fmap.
    exists (WCCommitted rep). simpl. by rewrite Hr. }
  split; [rewrite sf_in_flight0; destruct (lost ++ live s); [by apply elem_of_nil in Hq|simpl; lia]|].
  rewrite <- sf_flight0 in Hq. apply elem_open_lows in Hq as (r & Hr' & Ho & Hlow).
  assert (h_high r = q) as Hhigh by (rewrite Forall_forall in sf_units0; destruct (sf_units0 _ Hr'); congruence).
  by destruct (represents_complete _ _ _ _ _ _ sf_represents0 Hr' Ho Hlow Hhigh) as (c' & -> & _).
Qed.

(** C21: the actor's accounts.  The run admits consecutive sequences, from the
    one after the baseline; the in-flight counter that gates the completion arm
    and the drain is exactly the number of ranges the coordinator has not seen
    committed; so it never wraps, and every completion that waits for the actor
    finds its range registered and uncommitted. *)
Theorem actor_accounts_exact (b : RuntimeBuilder C F D K) (w1 : W1) (w2 : W2) (cf : Config F D K)
    (s : Sys C F W1 W2 T) (Hrun : run_reaches b w1 w2 cf s) (Hbase : baseline_u64 b) :
  let a := sy_actor s in
  (∃ e, (∀ x, baseline b = Some x → e = sat_add64 x 1) ∧
        ∀ i q, admits (s_trace (sy_shared s)) !! i = Some q → q = e + N.of_nat i ∧ q < u64_max) ∧
  a_in_flight a = N.of_nat (uncommitted (a_coordinator a)) ∧
  ∀ rep, WCCommitted rep ∈ s_completions (sy_shared s) →
    0 < a_in_flight a ∧
    is_ok (mark_committed (rep_range rep).1 (rep_range rep).2 (a_coordinator a)).2 = true.
Proof.
  destruct (run_safe _ _ _ _ _ Hrun Hbase) as (h & lost & Hsafe). pose proof Hsafe as [].
  split_and!; [| |intros rep Hrep; by eapply safe_mark].
  - destruct (represents_chained _ _ _ sf_represents0) as (e & Hch & He). exists e. split; [done|].
    intros i q Hi. rewrite sf_admits0, list_lookup_fmap in Hi. destruct (h !! i) as [r|] eqn:Hr; [|done].
    injection Hi as <-. split; [by eapply chained_units_lookup|].
    rewrite Forall_forall in sf_units0. destruct (sf_units0 r) as [-> ?]; [by eapply list_elem_of_lookup_2|done].
  - rewrite (represents_uncommitted _ _ _ sf_represents0), sf_flight0. done.
Qed.

Lemma dry_run_pure (evs : list SysEvent) (b : RuntimeBuilder C F D K) (w1 : W1) (w2 : W2)
    (cf : Config F D K) (s : Sys C F W1 W2 T)
    (Hrun : run_by evs b w1 w2 cf s) (Hbase : baseline_u64 b) (Hfresh : well_opened b w1)
    (Hevs : Forall ev_ok evs) (Hdry : dry_run (cf_options cf) = true) :
  s_trace (sy_shared s) = TrAdmit <$> admits (s_trace (sy_shared s)) ∧
  (∀ src, rb_source b = Some src → durable (source_of s) = durable (src, w1)).
Proof.
  destruct (run_safe _ _ _ _ _ (run_by_reaches _ _ _ _ _ _ Hrun) Hbase) as (h & lost & []).
  destruct (run_source _ _ _ _ _ _ Hrun Hbase Hfresh Hevs) as (src & Hsrc & Hb & ops & Hops & [_ _ _ Hdur]).
  specialize (sf_dry0 Hdry).
  assert (∀ tr : list (TraceEvent T), Forall (λ e, is_admit e = true) tr → tr = TrAdmit <$> admits tr ∧ acks tr = [])
    as Hadm.
  { induction 1 as [|[] tr He _ [IH1 IH2]]; try done. split; [|exact IH2]. simpl. unfold admits in *. simpl. by f_equal. }
  destruct (Hadm _ sf_dry0) as [Htr Hnone]. split; [done|].
  intros src' Hsrc'. assert (src' = src) as -> by congruence.
  rewrite Hops, Hnone in Hdur. by destruct Hdur as [->|(n & Hn%elem_of_nil & _)].
Qed.

(** A dry run touches nothing.  It calls the sink never, neither
    acknowledges nor flushes, and leaves the durable cursor where it was. *)
Theorem dry_run_is_pure (evs : list SysEvent) (b : RuntimeBuilder C F D K) (w1 : W1) (w2 : W2)
    (cf : Config F D K) (s : Sys C F W1 W2 T)
    (Hrun : run_by evs b w1 w2 cf s) (Hbase : baseline_u64 b) (Hfresh : well_opened b w1)
    (Hevs : Forall ev_ok evs) (Hdry : dry_run (cf_options cf) = true) :
  s_trace (sy_shared s) = TrAdmit <$> admits (s_trace (sy_shared s)) ∧
  (∀ src, rb_source b = Some src → durable (source_of s) = durable (src, w1)).
Proof. by apply (dry_run_pure evs b w1 w2 cf). Qed.
End runs.

(** ** The properties at work *)

Lemma demo_run_by dry evs s :
  demo_run dry evs = Some s → run_by evs (demo_builder dry) demo_world demo_sink_world (demo_config dry) s.
Proof. intros (rt & s0 & Hb & Hs0 & Hcf & Hrun)%demo_run_start. by exists rt, s0. Qed.
Lemma demo_baseline_fine dry : baseline_u64 (demo_builder dry).
Proof. by intros x [=]. Qed.
Lemma demo_fresh dry : well_opened (demo_builder dry) demo_world.
Proof. intros src [= <-]. split; [done|]. by intros f. Qed.
Lemma demo_events_ok evs : forallb (λ ev, match ev with EvSourceWorld _ => false | _ => true end) evs = true →
  Forall (ev_ok (C := LogConsumer) (F := unit) (W1 := LogWorld) (W2 := ScriptWorld)) evs.
Proof.
  induction evs as [|ev evs IH]; [constructor|]. simpl. intros [Hev Hevs]%andb_true_iff.
  constructor; [by destruct ev|by apply IH].
Qed.

Lemma ack_only_after_commit_witness :
  ∃ s, demo_run false demo_events = Some s ∧ acks (s_trace (sy_shared s)) = [1] ∧
    ∀ tr1 f tr2, s_trace (sy_shared s) = tr1 ++ TrAck f :: tr2 →
      ∀ q, q ∈ admits (s_trace (sy_shared s)) → q ≤ f → confirmed q tr1.
Proof.
  destruct (demo_run false demo_events) as [s|] eqn:Hrun; [|by vm_compute in Hrun].
  exists s. split; [done|]. split; [vm_compute in Hrun; by simplify_eq|].
  apply (ack_only_after_commit _ _ _ _ _ (demo_reaches _ _ _ Hrun) (demo_baseline_fine _)).
Defined.

Lemma clean_exit_drains_witness :
  ∃ s, demo_run false demo_events = Some s ∧ a_pc (sy_actor s) = ADone (Ok tt) ∧
    s_shutdown (sy_shared s) = true ∧ live s = [] ∧ durable (source_of s) = Some 1.
Proof.
  destruct (demo_run false demo_events) as [s|] eqn:Hrun; [|by vm_compute in Hrun].
  assert (a_pc (sy_actor s) = ADone (Ok tt)) as Hd by (vm_compute in Hrun; by simplify_eq).
  assert (last (admits (s_trace (sy_shared s))) = Some 1) as Hl by (vm_compute in Hrun; by simplify_eq).
  destruct (clean_exit_drains _ _ _ _ _ _ (demo_run_by _ _ _ Hrun) (demo_baseline_fine _) (demo_fresh _)
              (demo_events_ok demo_events eq_refl) Hd) as (Hsh & _ & Hlive & Hc).
  exists s. split; [reflexivity|]. split; [exact Hd|]. split; [exact Hsh|]. split; [exact Hlive|].
  exact (proj2 (Hc eq_refl) _ Hl).
Defined.

Lemma actor_accounts_exact_witness :
  ∃ s, demo_run false (demo_admit ++ demo_decode ++ demo_write) = Some s ∧
    a_in_flight (sy_actor s) = 1 ∧ uncommitted (a_coordinator (sy_actor s)) = 1%nat ∧
    N.of_nat (uncommitted (a_coordinator (sy_actor s))) = a_in_flight (sy_actor s).
Proof.
  destruct (demo_run false (demo_admit ++ demo_decode ++ demo_write)) as [s|] eqn:Hrun; [|by vm_compute in Hrun].
  exists s. split; [done|]. split; [vm_compute in Hrun; by simplify_eq|].
  split; [vm_compute in Hrun; by simplify_eq|]. symmetry.
  apply (actor_accounts_exact _ _ _ _ _ (demo_reaches _ _ _ Hrun) (demo_baseline_fine _)).
Defined.

Definition demo_dry_events : list DemoEvent := demo_admit ++ demo_decode ++ [EvActor (polls false true false)].

Lemma dry_run_is_pure_witness :
  ∃ s, demo_run true demo_dry_events = Some s ∧ source_ranges_committed (a_progress (sy_actor s)) = 1 ∧
    s_trace (sy_shared s) = [TrAdmit 0; TrAdmit 1] ∧ durable (source_of s) = None.
Proof.
  destruct (demo_run true demo_dry_events) as [s|] eqn:Hrun; [|by vm_compute in Hrun].
  destruct (dry_run_is_pure _ _ _ _ _ _ (demo_run_by _ _ _ Hrun) (demo_baseline_fine _) (demo_fresh _)
              (demo_events_ok demo_dry_events eq_refl) eq_refl) as [Ht Hd].
  exists s. split; [done|]. split; [vm_compute in Hrun; by simplify_eq|]. split; [|exact (Hd _ eq_refl)].
  rewrite Ht. vm_compute in Hrun. by simplify_eq.
Defined.
