(* ===== verification/PipelineRestart.v ===== *)
(** * What the durable cursor covers

    A process that restarts reads on after the durable cursor.  A run admits
    only sequences at or after the point where its consumer started to read
    ([reads_from]), so whatever an earlier process made durable is not mistaken
    for this run's work, and whatever this run made durable was committed. *)

From Stdlib Require Import NArith Lia.
From stdpp Require Import relations.
From S2P Require Import Prelude.
From S2P Require Import BTree.
From S2P Require Import Types.
From S2P Require Import AckCoordinator.
From S2P Require Import ByteBudget.
From S2P Require Import Source.
From S2P Require Import Options.
From S2P Require Import Metrics.
From S2P Require Import WriteRetry.
From S2P Require Import Decode.
From S2P Require Import Pipeline.
From S2P Require Import PipelineDemo.
From S2P Require Import PipelineResources.
From S2P Require Import PipelineWorkers.
From S2P Require Import PipelineSafety.
Local Open Scope N_scope.

(** ** What the actor's computations preserve *)

Section actor_views.
Context {C F W1 D K W2 T V : Type}.
Context `{Consumer C F W1}.
Context (cf : Config F D K) (g : Sys C F W1 W2 T → V).
Implicit Types s : Sys C F W1 W2 T.
(** A view that neither the actor's own counters nor an acknowledgement
    change. *)
Context (Hactor : ∀ f s, (∀ a, a_source (f a) = a_source a) → g (on_actor f s) = g s).
Context (Hack : ∀ f s, g (on_shared (log [TrAck f]) s) = g s).
Context (Hflush : ∀ b s, g (on_shared (log [TrFlush b]) s) = g s).
Context (Hack_through : ∀ f, preserves g (on_source (ack_through f))).
Context (Hflush_acks : preserves g (on_source flush_acks)).

Lemma preserves_coordinator {A} (m : M AckCoordinator RuntimeError A) :
  preserves g (zoom (λ s, a_coordinator (sy_actor s)) (λ c, on_actor (with_coordinator c)) m).
Proof using Hactor. intros s. unfold zoom. destruct (m _) as [c r]. by apply Hactor. Qed.

Lemma preserves_flush : preserves g flush_logged.
Proof using Hflush Hflush_acks.
  intros s. unfold flush_logged. pose proof (Hflush_acks s) as Hf.
  destruct (on_source flush_acks s) as [s1 [[]|e]]; cbn [fst] in *; by rewrite Hflush.
Qed.

Lemma preserves_ack_frontier f : preserves g (ack_frontier cf f).
Proof using Hactor Hack Hflush Hack_through Hflush_acks.
  unfold ack_frontier. apply preserves_bind; [apply preserves_modify, Hack|]. intros _.
  apply preserves_bind; [apply Hack_through|]. intros _.
  do 2 (apply preserves_bind; [by apply preserves_modify; intros s; apply Hactor|]; intros _).
  apply preserves_get. intros s1.
  apply preserves_bind; [|by intros _; apply preserves_modify; intros s; apply Hactor].
  apply preserves_when, preserves_bind; [apply preserves_flush|].
  by intros _; apply preserves_modify; intros s; apply Hactor.
Qed.

Lemma preserves_on_committed rep : preserves g (on_committed cf rep).
Proof using Hactor Hack Hflush Hack_through Hflush_acks.
  unfold on_committed. destruct (rep_range rep) as [low high].
  apply preserves_bind; [apply preserves_coordinator|]. intros _.
  do 3 (apply preserves_bind; [by apply preserves_modify; intros s; apply Hactor|]; intros _).
  apply preserves_get. intros s0.
  apply preserves_bind; [|by intros _; apply preserves_modify; intros s; apply Hactor].
  destruct (frontier _); [|apply preserves_ret]. apply preserves_when, preserves_ack_frontier.
Qed.
End actor_views.

(** ** Where a run reads from *)

Section reads.
Context {C F W1 D K W2 T : Type}.
Context `{ConsumerLaws C F W1} `{TypedRecords T} `{Decoder D T} `{Sink K W2 T}.
Context (cf : Config F D K).
Implicit Types s : Sys C F W1 W2 T.

(** Everything admitted, and everything the consumer will still list, is at or
    after [c0]. *)
Definition reads_from (c0 : N) s : Prop :=
  (∀ q, q ∈ admits (s_trace (sy_shared s)) → c0 ≤ q) ∧
  (actor_done s = false → ∃ c, source_cursor (source_of s) = Some c ∧ c0 ≤ c).

Definition reading s : option N * list N := (source_cursor (source_of s), admits (s_trace (sy_shared s))).

Lemma reads_same c0 s s' :
  reading s' = reading s → (actor_done s = true → actor_done s' = true) → reads_from c0 s → reads_from c0 s'.
Proof.
  intros [= Hc Ha] Hd [Hadm Hcur]. split; rewrite ?Ha, ?Hc; [done|]. intros Hn. apply Hcur.
  destruct (actor_done s); [|done]. rewrite Hd in Hn; done.
Qed.

Lemma flush_cursor (x : BufferSource C F * W1) : source_cursor (flush_acks x).1 = source_cursor x.
Proof.
  unfold flush_acks, source_cursor. destruct (pending_durable_ack x.1) as [n|]; [|done].
  unfold on_consumer, zoom. simpl. pose proof (ack_cursor (consumer x.1, x.2) n) as Hc.
  destruct (consumer_ack_through n _) as [[c w] [[]|e]]; simpl in *; exact Hc.
Qed.

Lemma reading_on_committed rep : preserves reading (on_committed (W2 := W2) (T := T) cf rep).
Proof.
  assert (∀ e s, is_admit e = false → reading (on_shared (log [e]) s) = reading s) as Hlog.
  { intros e s He. unfold reading. simpl. rewrite admits_app. destruct e; [done|..]; by rewrite app_nil_r. }
  apply preserves_on_committed.
  - intros f s Hf. unfold reading, source_cursor, source_of. simpl. by rewrite Hf.
  - intros f s. by apply Hlog.
  - intros b s. by apply Hlog.
  - intros f s. done.
  - intros s. unfold on_source, zoom. pose proof (flush_cursor (source_of s)) as Hc. unfold source_of in Hc.
    destruct (flush_acks _) as [[src w1] r]. unfold reading. f_equal. exact Hc.
Qed.

Lemma reading_flush : preserves reading (flush_logged (W2 := W2) (T := T)).
Proof.
  assert (∀ b s, reading (on_shared (log [TrFlush b]) s) = reading s) as Hlog.
  { intros b s. unfold reading. simpl. by rewrite admits_app, app_nil_r. }
  apply preserves_flush; [exact Hlog|].
  intros s. unfold on_source, zoom. pose proof (flush_cursor (source_of s)) as Hc. unfold source_of in Hc.
  destruct (flush_acks _) as [[src w1] r]. unfold reading. f_equal. exact Hc.
Qed.

Lemma reading_release rs s : reading (on_shared (release_all rs) s) = reading s.
Proof. unfold reading, source_of. simpl. by rewrite release_all_capacity. Qed.

(** *** Polls *)

Lemma next_reads (x x' : BufferSource C F * W1) max budget ds c0 c :
  next_descriptors max budget x = (x', Ok ds) → source_cursor x = Some c → c0 ≤ c →
  (∀ d, d ∈ ds → c0 ≤ sbd_sequence d) ∧ ∃ c', source_cursor x' = Some c' ∧ c0 ≤ c'.
Proof.
  intros Hrun Hc Hle. pose proof (next_descriptors_contiguous _ _ _ _ _ Hrun) as (_ & _ & _ & _ & Hds). split.
  - intros d (i & Hi)%list_elem_of_lookup_1. destruct (Hds _ _ Hi) as (_ & Hseq & _).
    rewrite (Hseq _ Hc). lia.
  - destruct ds as [|d ds].
    + pose proof (next_descriptors_run x max budget) as Hspec. rewrite Hrun in Hspec.
      destruct Hspec as (cw & raw & Hraw & -> & Hnil). symmetry in Hnil. apply fmap_nil_inv in Hnil as ->.
      exists c. split; [|done]. unfold source_cursor in *. simpl. destruct cw as [c1 w1]. by rewrite (next_empty _ _ _ Hraw).
    + destruct (Hds 0%nat d eq_refl) as (_ & Hseq & Hcur). eexists. split; [exact Hcur|].
      rewrite (Hseq _ Hc). lia.
Qed.

Lemma register_reads c0 ds s :
  (∀ d, d ∈ ds → c0 ≤ sbd_sequence d) → (∀ q, q ∈ admits (s_trace (sy_shared s)) → c0 ≤ q) →
  ∀ q, q ∈ admits (s_trace (sy_shared (for_each ds register_one s).1)) → c0 ≤ q.
Proof.
  intros Hds. apply (for_each_inv (λ s, ∀ q, q ∈ admits (s_trace (sy_shared s)) → c0 ≤ q)).
  intros d s1 Hd Hs1 q. unfold register_one. rewrite run_bind. unfold zoom.
  destruct (register_pending _ _ _) as [c [u|e]]; repeat (rewrite run_bind; cbn); cbn; [|apply Hs1].
  unfold admits. rewrite omap_app. intros [Hq|Hq]%elem_of_app; [by apply Hs1|].
  apply list_elem_of_singleton in Hq as ->. by apply Hds.
Qed.

Lemma poll_reads c0 gates s :
  a_pc (sy_actor s) = APolling gates → reads_from c0 s → reads_from c0 (poll_descriptors gates s).
Proof.
  intros Hpc [Hadm Hcur]. destruct Hcur as (c & Hc & Hle); [unfold actor_done; by rewrite Hpc|].
  unfold poll_descriptors. destruct (next_descriptors _ _ _) as [[src w1] polled] eqn:Hnext.
  set (s0 := on_shared (with_w1 w1) (on_actor (with_source src) s)).
  destruct polled as [ds|e].
  - destruct (next_reads _ _ _ _ _ _ _ Hnext Hc Hle) as [Hds Hcur'].
    assert (reads_from c0 (on_actor (with_pc ASleeping) s0)) as Hsleep by (by split).
    destruct ds as [|d ds].
    { eapply reads_same; [apply reading_release| |exact Hsleep]. done. }
    set (s1 := on_shared (release_all (ag_reservation <$> drop (length (d :: ds)) gates)) s0).
    assert (source_of s1 = (src, w1) ∧ admits (s_trace (sy_shared s1)) = admits (s_trace (sy_shared s))) as [Hs1 Ha1].
    { unfold s1, source_of. simpl. by rewrite release_all_capacity. }
    pose proof (register_reads c0 (d :: ds) s1 Hds ltac:(rewrite Ha1; exact Hadm)) as Hreg.
    pose proof (proj1 (register_source (d :: ds) s1)) as Hsrc. rewrite Hs1 in Hsrc.
    change (for_each (d :: ds) _ s1) with (for_each (d :: ds) register_one s1).
    destruct (for_each (d :: ds) register_one s1) as [s2 [u|e]]; cbn [fst] in *.
    + split; [exact Hreg|]. intros _. change (source_of _) with (source_of s2). by rewrite Hsrc.
    + eapply reads_same; [apply reading_release| |].
      2: { split; [exact Hreg|]. done. }
      done.
  - eapply reads_same; [apply reading_release| |].
    2: { split; [exact Hadm|]. done. }
    done.
Qed.

(** *** Every step *)

Lemma worker_reads c0 s s' :
  worker_effect cf s s' →
  (∀ c, read_cursor (c, s_w1 (sy_shared s')) = read_cursor (c, s_w1 (sy_shared s))) →
  reads_from c0 s → reads_from c0 s'.
Proof.
  intros [Ha (cs & Ht & _) _ _] Hw. apply reads_same.
  - unfold reading, source_cursor, source_of. simpl. by rewrite Ha, Hw, Ht, admits_app, admits_calls, app_nil_r.
  - unfold actor_done. by rewrite Ha.
Qed.

Lemma fetch_step_cursor i arm s s' c :
  fetch_step cf i arm s = Some s' →
  read_cursor (c, s_w1 (sy_shared s')) = read_cursor (c, s_w1 (sy_shared s)).
Proof.
  unfold fetch_step. destruct (sy_fetchers s !! i) as [pc|]; [|done]. simpl.
  unfold abort_if. destruct pc as [|a|b|e r p|]; [destruct arm|destruct arm| | |]; try done.
  - unfold fetch_recv, enter_stage. destruct (s_descriptors _) as [|a rest].
    + destruct (descriptors_closed s); [|done]. by intros [= <-].
    + destruct (attach_stage _ _ _) as [r b]. by intros [= <-].
  - destruct (_ && _); [|done]. by intros [= <-].
  - unfold fetch_run, Source.fetch.
    destruct (fetch_reads c (s_w1 (sy_shared s)) (fh_inner (cf_handle cf))
                (to_buffer_descriptor (ad_descriptor a))) as [_ Hc].
    destruct (handle_fetch _ _ _) as [w1 [batch|e]]; by intros [= <-].
  - destruct (_ && _); [|done]. by intros [= <-].
  - unfold fetch_send. destruct (fetched_closed s); [|destruct (has_room _ _); [|done]]; by intros [= <-].
  - destruct (send_completion cf _ s) as [[d s1]|] eqn:Hs; [|done]. simpl. intros [= <-]. simpl.
    by rewrite (send_completion_w1 _ _ _ _ _ Hs).
Qed.

Lemma actor_step_reads c0 p s s' : actor_step cf p s = Some s' → reads_from c0 s → reads_from c0 s'.
Proof.
  unfold actor_step. destruct (a_pc (sy_actor s)) as [|gates| |[|[d g] us]|r] eqn:Hpc.
  - assert (actor_done s = false) as Hd by (unfold actor_done; by rewrite Hpc).
    assert (∀ s', reading s' = reading s → reads_from c0 s → reads_from c0 s') as Hsame.
    { intros s1 Hr. apply reads_same; [exact Hr|]. by rewrite Hd. }
    destruct (_ && _).
    + intros [= <-]. apply Hsame. unfold drain_finish. destruct (negb _); [|done].
      pose proof (reading_flush s) as Hf. by destruct (flush_logged s) as [s1 [u|e]].
    + unfold actor_select. destruct (select_arm _ _) as [[]|]; [| | | |done].
      * destruct (s_abort _); [|done]. intros [= <-]. by apply Hsame.
      * destruct (s_shutdown _); [|done]. intros [= <-]. by apply Hsame.
      * unfold completion_arm. destruct (s_completions (sy_shared s)) as [|[rep|e] rest].
        -- destruct (completion_senders_gone s); [|done]. intros [= <-]. by apply Hsame.
        -- pose proof (reading_on_committed rep (on_shared (with_completions rest) s)) as Hf.
           destruct (on_committed _ _ _) as [s1 [u|e]]; intros [= <-]; by apply Hsame.
        -- intros [= <-]. by apply Hsame.
      * destruct (admission_attempt _ _) as [[g sh]|] eqn:Hadm; [|done].
        destruct (open_gates cf g sh) as [gates sh'] eqn:Hopen. intros [= <-]. apply Hsame.
        destruct (open_gates_rsteps cf g sh gates sh' [] Hopen) as [_ ->].
        unfold admission_attempt in Hadm. destruct (0 <? _); [|done].
        destruct (reserve _ _) as [[r|] b]; [|done]. by injection Hadm as _ <-.
  - intros [= <-]. by apply poll_reads.
  - intros [= <-]. apply reads_same; [done|]. unfold actor_done. by rewrite Hpc.
  - intros [= <-]. apply reads_same; [done|]. unfold actor_done. by rewrite Hpc.
  - unfold send_descriptor. destruct (descriptors_closed s); [|destruct (has_room _ _); [|done]]; intros [= <-].
    + apply reads_same; [etrans; [apply reading_release|done]|done].
    + apply reads_same; [done|]. unfold actor_done. by rewrite Hpc.
  - done.
Qed.

Lemma exec_reads c0 ev s s' :
  ev_ok (C := C) ev → exec cf ev s = Some s' → reads_from c0 s → reads_from c0 s'.
Proof.
  intros Hev. destruct ev as [| |p|i arm|i arm|i arm sel|f|f]; simpl.
  - intros [= <-]. by apply reads_same.
  - unfold supervisor_abort. destruct (a_pc (sy_actor s)) as [| | | |[|]]; try done. intros [= <-]. by apply reads_same.
  - apply actor_step_reads.
  - intros Hs. eapply worker_reads; [by eapply fetch_step_effect|]. intros c. by eapply fetch_step_cursor.
  - intros Hs. eapply worker_reads; [by eapply decode_step_effect|]. intros c. by rewrite (decode_step_w1 _ _ _ _ _ Hs).
  - intros Hs. eapply worker_reads; [by eapply write_step_effect|]. intros c. by rewrite (write_step_w1 _ _ _ _ _ _ Hs).
  - intros [= <-]. apply reads_same; [|done]. unfold reading, source_cursor, source_of. simpl. f_equal. apply Hev.
  - intros [= <-]. by apply reads_same.
Qed.

Lemma exec_all_reads c0 evs : ∀ s s',
  Forall (ev_ok (C := C)) evs → exec_all cf evs s = Some s' → reads_from c0 s → reads_from c0 s'.
Proof.
  induction evs as [|ev evs IH]; intros s s' Hevs; simpl; [by intros [= ->]|].
  apply Forall_cons in Hevs as [Hev Hevs].
  destruct (exec cf ev s) as [s1|] eqn:Hs1; [|done]. simpl. intros Hrun Hs.
  eapply IH; [done|exact Hrun|]. by eapply exec_reads.
Qed.
End reads.

(** ** Durability *)

Section durability.
Context {C F W1 D K W2 T : Type}.
Context `{ConsumerLaws C F W1} `{TypedRecords T} `{Decoder D T} `{Sink K W2 T}.
Implicit Types s : Sys C F W1 W2 T.

(** The admitted sequences are at or after the consumer's position at the
    start. *)
Lemma run_reads evs b w1 w2 cf s src c :
  run_by evs b w1 w2 cf s → Forall ev_ok evs → rb_source b = Some src → source_cursor (src, w1) = Some c →
  ∀ q, q ∈ admits (s_trace (sy_shared s)) → c ≤ q.
Proof.
  intros (rt & s0 & Hb & Hs0 & -> & Hrun) Hevs Hsrc Hc. pose proof (build_source _ _ Hb) as Hrt.
  assert (rt_source rt = src) as Hrs by congruence.
  eapply (exec_all_reads (run_config rt)); [exact Hevs|exact Hrun|]. unfold run_start in Hs0.
  destruct (take_coordinator _ _) as [[co|] ?]; [|done]. simpl in Hs0. injection Hs0 as <-. split.
  - by intros q ?%elem_of_nil.
  - intros _. exists c. split; [|done]. unfold source_of. simpl. by rewrite Hrs.
Qed.

Lemma durable_confirmed (evs : list SysEvent) (b : RuntimeBuilder C F D K) (w1 : W1)
    (w2 : W2) (cf : Config F D K) (s : Sys C F W1 W2 T)
    (Hrun : run_by evs b w1 w2 cf s) (Hbase : baseline_u64 b) (Hopened : well_opened b w1)
    (Hevs : Forall ev_ok evs) :
  ∀ f q, durable (source_of s) = Some f → q ∈ admits (s_trace (sy_shared s)) → q ≤ f →
    confirmed q (s_trace (sy_shared s)).
Proof.
  destruct (run_safe _ _ _ _ _ (run_by_reaches _ _ _ _ _ _ Hrun) Hbase)
    as (h & lost & [Hrep Hunits _ Hadm _ _ _ _ Hj _ _ _ _ _]).
  destruct (run_source _ _ _ _ _ _ Hrun Hbase Hopened Hevs) as (src & Hsrc & Hb & ops & Hops & [_ _ _ Hdur]).
  intros f q Hf Hq Hle. rewrite Hf, Hops in Hdur. destruct Hdur as [Hd|(n & Hn & [= <-])].
  - exfalso. symmetry in Hd. destruct (Hopened _ Hsrc) as [_ Hd0]. destruct (Hd0 _ Hd) as [Hl|(c & Hc & Hlt)].
    + rewrite <- Hb in Hl. destruct (represents_chained _ _ _ Hrep) as (e & Hch & He). specialize (He _ Hl).
      rewrite Hadm in Hq. apply list_elem_of_fmap in Hq as (r & -> & Hr).
      pose proof (chained_bounds _ _ _ Hch Hr) as Hbd. rewrite Forall_forall in Hunits.
      destruct (Hunits _ Hr) as [Heq Hl']. clear - He Hbd Heq Hl' Hle. unfold sat_add64 in He. lia.
    + pose proof (run_reads _ _ _ _ _ _ _ _ Hrun Hevs Hsrc Hc q Hq). lia.
  - by eapply elem_confirmed.
Qed.

(** Covered by an acknowledgement, or by the durable cursor. *)
Lemma covered_confirmed (evs : list SysEvent) (b : RuntimeBuilder C F D K) (w1 : W1)
    (w2 : W2) (cf : Config F D K) (s : Sys C F W1 W2 T) f q :
  run_by evs b w1 w2 cf s → baseline_u64 b → well_opened b w1 → Forall ev_ok evs →
  f ∈ acks (s_trace (sy_shared s)) ∨ durable (source_of s) = Some f →
  q ∈ admits (s_trace (sy_shared s)) → q ≤ f → confirmed q (s_trace (sy_shared s)).
Proof.
  intros Hrun Hbase Hopened Hevs [Hf|Hf] Hq Hle; [|by eapply durable_confirmed].
  destruct (run_safe _ _ _ _ _ (run_by_reaches _ _ _ _ _ _ Hrun) Hbase) as (h & lost & Hsafe).
  eapply elem_confirmed; [by destruct Hsafe|done..].
Qed.

(** C3: a crash loses nothing.  At every point of every run of a source that
    was opened past its durable cursor, for the first time or after a restart,
    each sequence this run admitted that the durable cursor covers, which a
    restarted process will skip, has been confirmed by the sink. *)
Theorem durable_cursor_is_committed (evs : list SysEvent) (b : RuntimeBuilder C F D K) (w1 : W1)
    (w2 : W2) (cf : Config F D K) (s : Sys C F W1 W2 T)
    (Hrun : run_by evs b w1 w2 cf s) (Hbase : baseline_u64 b) (Hopened : well_opened b w1)
    (Hevs : Forall ev_ok evs) :
  ∀ f q, durable (source_of s) = Some f → q ∈ admits (s_trace (sy_shared s)) → q ≤ f →
    confirmed q (s_trace (sy_shared s)).
Proof. by apply (durable_confirmed evs b w1 w2 cf). Qed.
End durability.

(** ** A restarted process

    A first process made sequence 0 durable; this one reads on from 1, with no
    baseline, as the ingestor does. *)

Definition restart_source : BufferSource LogConsumer unit :=
  BufferSource_new {| lc_next := 1 |} (mkSourceId "logs") "manifest" None.
Definition restart_builder : RuntimeBuilder LogConsumer unit unit unit :=
  with_options (demo_options false) (set_sink tt (add_decoder tt (add_source restart_source builder))).
Definition restart_world : LogWorld :=
  {| lw_batches := lw_batches log_world; lw_durable := Some 0; lw_failing_acks := 0 |}.
Definition restart_events : list DemoEvent :=
  replicate 4 step_actor ++ thrice fetch_work 0 ++ thrice decode_work 0 ++ replicate 4 (write_work 0) ++
  [EvActor (polls false true false)].

Definition restart_run : option DemoSys :=
  match build restart_builder with
  | Ok rt =>
      match run_start rt restart_world {| sw_writes := [Ok (written 1)]; sw_checks := [] |} with
      | Ok s0 => exec_all (run_config rt) restart_events s0
      | Err _ => None
      end
  | Err _ => None
  end.

Lemma durable_cursor_is_committed_witness :
  ∃ s, restart_run = Some s ∧ admits (s_trace (sy_shared s)) = [1] ∧ durable (source_of s) = Some 1 ∧
    confirmed 1 (s_trace (sy_shared s)).
Proof.
  destruct restart_run as [s|] eqn:Hrun; [|by vm_compute in Hrun].
  assert (admits (s_trace (sy_shared s)) = [1] ∧ durable (source_of s) = Some 1) as [Ha Hd]
    by (vm_compute in Hrun; by simplify_eq).
  exists s. split; [reflexivity|]. split; [exact Ha|]. split; [exact Hd|].
  assert (∃ cf, run_by restart_events restart_builder restart_world
            {| sw_writes := [Ok (written 1)]; sw_checks := [] |} cf s) as [cf Hby].
  { unfold restart_run in Hrun. destruct (build restart_builder) as [rt|] eqn:Hb; [|discriminate Hrun].
    destruct (run_start rt restart_world _) as [s0|] eqn:Hs0; [|discriminate Hrun]. exists (run_config rt), rt, s0.
    split; [exact Hb|]. split; [exact Hs0|]. split; [reflexivity|exact Hrun]. }
  assert (baseline_u64 restart_builder) as Hbase by (intros x Hx; discriminate Hx).
  assert (well_opened restart_builder restart_world) as Hopened.
  { intros src [= <-]. split; [done|]. intros f [= <-]. right. exists 1. by split; vm_compute. }
  apply (durable_cursor_is_committed _ _ _ _ _ _ Hby Hbase Hopened (demo_events_ok restart_events eq_refl) 1 1 Hd);
    [|reflexivity].
  rewrite Ha. left.
Defined.
