(* ===== verification/PipelineProvenance.v ===== *)
(** * Where the values of a run come from

    What a unit carries through the pipeline, followed back to the calls of the
    run that produced it.  In every reachable state ([traced]): a descriptor on
    its way was polled from the source in a step of this run; a fetched batch
    was answered by a fetch of such a descriptor; a commit was decoded from
    such a batch; and every call on the sink that the trace records is a call
    that a step of this run made on such a commit, with that answer. *)

From Stdlib Require Import NArith Lia.
From stdpp Require Import relations.
From S2P Require Import Prelude.
From S2P Require Import BTree.
From S2P Require Import Types.
From S2P Require Import AckCoordinator.
From S2P Require Import ByteBudget.
From S2P Require Import Source.
From S2P Require Import Options.
From S2P Require Import Metrics.
From S2P Require Import WriteRetry.
From S2P Require Import Decode.
From S2P Require Import Pipeline.
From S2P Require Import PipelineDemo.
From S2P Require Import PipelineResources.
From S2P Require Import PipelineWorkers.
From S2P Require Import PipelineSafety.
From S2P Require Import PipelineRestart.
Local Open Scope N_scope.

(** The sink calls of a trace. *)
Definition calls {T} (tr : list (TraceEvent T)) : list (SinkCall T) :=
  omap (λ e, match e with TrCall c => Some c | _ => None end) tr.

Lemma calls_app {T} (tr1 tr2 : list (TraceEvent T)) : calls (tr1 ++ tr2) = calls tr1 ++ calls tr2.
Proof. apply omap_app. Qed.
Lemma calls_calls {T} (cs : list (SinkCall T)) : calls (TrCall <$> cs) = cs.
Proof.
  induction cs as [|c cs IH]; [done|]. rewrite fmap_cons. unfold calls in *. cbn [omap list_omap]. by f_equal.
Qed.
Lemma elem_calls {T} c (tr : list (TraceEvent T)) : c ∈ calls tr ↔ TrCall c ∈ tr.
Proof.
  unfold calls. rewrite list_elem_of_omap. split.
  - intros (e & He & Heq). destruct e; by simplify_eq.
  - intros Hc. by exists (TrCall c).
Qed.

Section provenance.
Context {C F W1 D K W2 T : Type}.
Context `{Consumer C F W1} `{TypedRecords T} `{Decoder D T} `{Sink K W2 T}.
Context (cf : Config F D K).
Implicit Types s : Sys C F W1 W2 T.
Abbreviation Event := (SysEvent (W1 := W1) (W2 := W2)).

Lemma exec_all_app evs1 evs2 s :
  exec_all cf (evs1 ++ evs2) s = (s1 ← exec_all cf evs1 s; exec_all cf evs2 s1).
Proof.
  revert s. induction evs1 as [|ev evs1 IH]; intros s; [done|]. simpl.
  destruct (exec cf ev s) as [s1|]; [apply IH|done].
Qed.

(** ** Steps of a run *)

(** A step of the run [evs] from [s0] took a state to the next as [P] says. *)
Definition during (s0 : Sys C F W1 W2 T) (evs : list Event) (P : relation (Sys C F W1 W2 T)) : Prop :=
  ∃ before ev after s s', evs = before ++ ev :: after ∧
    exec_all cf before s0 = Some s ∧ exec cf ev s = Some s' ∧ P s s'.

Lemma during_snoc s0 evs ev P : during s0 evs P → during s0 (evs ++ [ev]) P.
Proof.
  intros (before & ev' & after & s & s' & -> & Hb & He & Hp).
  exists before, ev', (after ++ [ev]), s, s'. split_and!; try done. by rewrite <- app_assoc.
Qed.

Lemma during_last s0 evs ev s s' (P : relation (Sys C F W1 W2 T)) :
  exec_all cf evs s0 = Some s → exec cf ev s = Some s' → P s s' → during s0 (evs ++ [ev]) P.
Proof. intros Hs Hs' Hp. by exists evs, ev, [], s, s'. Qed.

Lemma during_mono s0 evs (P Q : relation (Sys C F W1 W2 T)) :
  (∀ s s', P s s' → Q s s') → during s0 evs P → during s0 evs Q.
Proof. intros HPQ (before & ev & after & s & s' & ? & ? & ? & ?). exists before, ev, after, s, s'. auto. Qed.

Section origins.
Context (happened : relation (Sys C F W1 W2 T) → Prop).

(** The source listed [d]. *)
Definition polled (d : SourceBatchDescriptor) : Prop :=
  happened (λ s s', ∃ gates ds, a_pc (sy_actor s) = APolling gates ∧ d ∈ ds ∧
    next_descriptors (length gates) SourceBudget_default (source_of s) = (source_of s', Ok ds)).

(** The source answered [b] for the descriptor of sequence [q]. *)
Definition fetched_as (b : SourceBatch) (q : N) : Prop :=
  ∃ d, polled d ∧ sbd_sequence d = q ∧
    happened (λ s s', Source.fetch (cf_handle cf) d (s_w1 (sy_shared s)) = (s_w1 (sy_shared s'), Ok b)).

(** The decode stage made [commit] of the batch of sequence [q]. *)
Definition decoded_as (commit : SinkCommit T) (q : N) : Prop :=
  ∃ b decoded, fetched_as b q ∧ decode_checked (cf_decoder cf) b q = Ok decoded ∧
    oversize_gate (bp cf) decoded = Ok tt ∧ commit = build_commit (sink_id (cf_sink cf)) q q decoded.

(** The sink was called and answered as [c] says. *)
Definition called (c : SinkCall T) : Prop :=
  match c with
  | CallWrite commit r => (∃ q, decoded_as commit q) ∧
      happened (λ s s', sink_write (cf_sink cf) commit (s_w2 (sy_shared s)) = (s_w2 (sy_shared s'), r))
  | CallCheck identity r => (∃ commit q, decoded_as commit q ∧ identity = sc_identity commit) ∧
      happened (λ s s', check_committed (cf_sink cf) identity (s_w2 (sy_shared s)) = (s_w2 (sy_shared s'), r))
  end.

Definition fetcher_traced (pc : FetchPc) : Prop :=
  match pc with
  | FFetching a => polled (ad_descriptor a)
  | FSending b => fetched_as (fb_batch b) (fb_sequence b)
  | FIdle | FReporting _ _ _ | FExited => True
  end.
Definition envelope_traced (e : SinkCommitEnvelope T) : Prop :=
  ∃ q, sce_range e = (q, q) ∧ decoded_as (sce_commit e) q.
Definition decoder_traced (pc : DecodePc T) : Prop :=
  match pc with
  | DDecoding b => fetched_as (fb_batch b) (fb_sequence b)
  | DSending e _ => envelope_traced e
  | _ => True
  end.
Definition writer_traced (pc : WritePc T) : Prop :=
  match pc with WWriting e _ => envelope_traced e | _ => True end.
Definition actor_traced (pc : ActorPc) : Prop :=
  match pc with ASending units => Forall (λ u, polled u.1) units | _ => True end.

Record traced s : Prop := {
  td_actor : actor_traced (a_pc (sy_actor s));
  td_descriptors : Forall (λ a, polled (ad_descriptor a)) (s_descriptors (sy_shared s));
  td_fetchers : Forall fetcher_traced (sy_fetchers s);
  td_fetched : Forall (λ b, fetched_as (fb_batch b) (fb_sequence b)) (s_fetched (sy_shared s));
  td_decoders : Forall decoder_traced (sy_decoders s);
  td_commits : Forall envelope_traced (s_commits (sy_shared s));
  td_writers : Forall writer_traced (sy_writers s);
  td_calls : Forall called (calls (s_trace (sy_shared s)));
}.

(** *** Steps of the workers *)

Lemma traced_capacity b n s : traced s → traced (on_shared (with_capacity b n) s).
Proof. by intros []. Qed.
Lemma traced_fetcher i pc s : traced s → fetcher_traced pc → traced (set_fetcher i pc s).
Proof. intros [] Hpc. split; simpl; try done. by apply Forall_insert. Qed.
Lemma traced_decoder i pc s : traced s → decoder_traced pc → traced (set_decoder i pc s).
Proof. intros [] Hpc. split; simpl; try done. by apply Forall_insert. Qed.
Lemma traced_writer i pc s : traced s → writer_traced pc → traced (set_writer i pc s).
Proof. intros [] Hpc. split; simpl; try done. by apply Forall_insert. Qed.
Lemma traced_release r s : traced s → traced (on_shared (release r) s).
Proof. apply traced_capacity. Qed.

Lemma traced_send m s d s1 : send_completion cf m s = Some (d, s1) → traced s → traced s1.
Proof.
  unfold send_completion. destruct (actor_done s); [by intros [= _ <-]|].
  destruct (has_room _ _); [|done]. intros [= _ <-] []. by split.
Qed.

Lemma fetch_step_traced i arm s s' :
  (∀ P : relation _, P s s' → happened P) → fetch_step cf i arm s = Some s' → traced s → traced s'.
Proof.
  intros Hnow. unfold fetch_step. destruct (sy_fetchers s !! i) as [pc|] eqn:Hi; [|done]. simpl.
  intros Hstep Htr. pose proof (Forall_lookup_1 _ _ _ _ (td_fetchers s Htr) Hi) as Hpc. revert Hstep.
  unfold abort_if. destruct pc as [|a|b|e r p|]; [destruct arm|destruct arm| | |]; try done.
  - unfold fetch_recv. destruct (s_descriptors (sy_shared s)) as [|a rest] eqn:Hq.
    + destruct (descriptors_closed s); [|done]. intros [= <-]. by apply traced_fetcher.
    + unfold enter_stage. destruct (attach_stage _ _ _) as [r b]. intros [= <-].
      destruct Htr. rewrite Hq in td_descriptors0. apply Forall_cons in td_descriptors0 as [Ha Hrest].
      apply traced_fetcher; [by split|done].
  - destruct (_ && _); [|done]. intros [= <-]. by apply traced_fetcher.
  - unfold fetch_run. destruct (Source.fetch _ _ _) as [w1 [batch|e]] eqn:Hf; intros [= <-].
    + apply traced_fetcher; [by destruct Htr|]. simpl. exists (ad_descriptor a). split_and!; [done..|].
      by apply Hnow.
    + apply traced_fetcher; [by destruct Htr|done].
  - destruct (_ && _); [|done]. intros [= <-]. apply traced_fetcher; [by apply traced_release|done].
  - unfold fetch_send. destruct (fetched_closed s); [|destruct (has_room _ _); [|done]]; intros [= <-].
    + by apply traced_fetcher.
    + apply traced_fetcher; [|done]. destruct Htr. split; simpl; try done.
      apply Forall_app. split; [done|]. by constructor.
  - destruct (send_completion cf _ s) as [[d s1]|] eqn:Hs; [|done]. simpl. intros [= <-].
    apply traced_fetcher; [|done]. apply traced_release. by eapply traced_send.
Qed.

Lemma decode_run_traced i b s s' :
  fetched_as (fb_batch b) (fb_sequence b) → decode_run cf i b s = Some s' → traced s → traced s'.
Proof.
  intros Hb. unfold decode_run. rewrite decode_one_run.
  destruct (decode_checked _ _ _) as [decoded|e] eqn:Hd; cycle 1.
  { intros [= <-] ?. by apply traced_decoder; [apply traced_capacity|]. }
  destruct (oversize_gate _ decoded) as [[]|e] eqn:Hg; cycle 1.
  { intros [= <-] ?. by apply traced_decoder; [apply traced_capacity|]. }
  destruct (reconcile _ _ _) as [r bud]. pose proof Hd as Hc. apply decode_checked_ok in Hc as (_ & _ & Hlow & Hhigh).
  destruct (dry_run _); intros [= <-] ?; (apply traced_decoder; [by apply traced_capacity|]); [done|].
  exists (fb_sequence b). simpl. rewrite Hlow, Hhigh. split; [done|]. by exists (fb_batch b), decoded.
Qed.

Lemma decode_step_traced i arm s s' : decode_step cf i arm s = Some s' → traced s → traced s'.
Proof.
  unfold decode_step. destruct (sy_decoders s !! i) as [pc|] eqn:Hi; [|done]. simpl.
  intros Hstep Htr. pose proof (Forall_lookup_1 _ _ _ _ (td_decoders s Htr) Hi) as Hpc. revert Hstep.
  unfold abort_if. destruct pc as [|b|e sq|m r p|r p|]; [destruct arm|destruct arm| | | |]; try done.
  - unfold decode_recv. destruct (s_fetched (sy_shared s)) as [|b rest] eqn:Hq.
    + destruct (fetched_closed s); [|done]. intros [= <-]. by apply traced_decoder.
    + unfold enter_stage. destruct (attach_stage _ _ _) as [r bud]. intros [= <-].
      destruct Htr. rewrite Hq in td_fetched0. apply Forall_cons in td_fetched0 as [Hb Hrest].
      apply traced_decoder; [by split|done].
  - destruct (_ && _); [|done]. intros [= <-]. by apply traced_decoder.
  - intros Hrun. by eapply decode_run_traced.
  - destruct (_ && _); [|done]. intros [= <-]. apply traced_decoder; [by apply traced_release|done].
  - unfold decode_send. destruct (commits_closed s); [|destruct (has_room _ _); [|done]]; intros [= <-].
    + by apply traced_decoder.
    + apply traced_decoder; [|done]. destruct Htr. split; simpl; try done.
      apply Forall_app. split; [done|]. by constructor.
  - destruct (send_completion cf m s) as [[d s1]|] eqn:Hs; [|done]. simpl.
    assert (traced s1) as Htr1 by (by eapply traced_send).
    intros [= <-]. destruct (report_continues m d); [by apply traced_decoder|].
    apply traced_decoder; [by apply traced_release|done].
  - intros [= <-]. apply traced_decoder; [by apply traced_release|done].
Qed.

Lemma retry_step_called commit n sel pc w pc' w' call q :
  retry_step (cf_sink cf) commit n sel pc w = (pc', w', call) → decoded_as commit q →
  (∀ P : relation _, (∀ s s', s_w2 (sy_shared s) = w → s_w2 (sy_shared s') = w' → P s s') → happened P) →
  Forall called (option_list call).
Proof.
  intros Hstep Hc Hnow. destruct pc as [n0|n0 e|n0|a], sel as [slow|slow partial]; simpl in Hstep;
    try (injection Hstep as <- <- <-; constructor).
  - destruct (sink_write _ _ _) as [w1 r] eqn:Hw. injection Hstep as <- <- <-. repeat constructor; [by exists q|].
    apply Hnow. by intros s s' -> ->.
  - destruct (check_committed _ _ _) as [w1 r] eqn:Hw. injection Hstep as <- <- <-.
    repeat constructor; [by exists commit, q|]. apply Hnow. by intros s s' -> ->.
Qed.

Lemma write_run_traced i e pc sel s s' :
  (∀ P : relation _, P s s' → happened P) → envelope_traced e →
  write_run cf i e pc sel s = Some s' → traced s → traced s'.
Proof.
  intros Hnow He Hrun Htr.
  assert ((∃ a, pc = PDone a) ∨ ∀ a, pc ≠ PDone a) as [[a ->]|Hnd].
  { destruct pc; [by right..|left; eauto]. }
  { injection Hrun as <-. by apply traced_writer. }
  assert (let '(pc', w2, call) := retry_step (cf_sink cf) (sce_commit e)
            (effective_retry_max_attempts (cf_options cf)) sel pc (s_w2 (sy_shared s)) in
          s' = set_writer i (WWriting e pc')
             (on_shared (λ sh, log (TrCall <$> option_list call) (with_w2 w2 sh)) s)) as Hs'.
  { unfold write_run in Hrun. destruct pc; try (by edestruct Hnd);
      (destruct (_ && _); [done|]); destruct (retry_step _ _ _ _ _ _) as [[? ?] ?]; by injection Hrun. }
  destruct (retry_step _ _ _ _ _ _) as [[pc' w2] call] eqn:Hstep. pose proof He as (q & _ & Hq).
  apply retry_step_called with (q := q) in Hstep; [|done|intros P HP; apply Hnow, HP; [done|by rewrite Hs']].
  subst s'. apply traced_writer; [|done]. destruct Htr. split; simpl; try done.
  rewrite calls_app, calls_calls. by apply Forall_app.
Qed.

Lemma write_step_traced i arm sel s s' :
  (∀ P : relation _, P s s' → happened P) → write_step cf i arm sel s = Some s' → traced s → traced s'.
Proof.
  intros Hnow. unfold write_step. destruct (sy_writers s !! i) as [pc|] eqn:Hi; [|done]. simpl.
  intros Hstep Htr. pose proof (Forall_lookup_1 _ _ _ _ (td_writers s Htr) Hi) as Hpc. revert Hstep.
  unfold abort_if. destruct pc as [|e pc|m r p|r p|]; [destruct arm| | | |]; try done.
  - unfold write_recv. destruct (s_commits (sy_shared s)) as [|e rest] eqn:Hq.
    + destruct (commits_closed s); [|done]. intros [= <-]. by apply traced_writer.
    + unfold enter_stage. destruct (attach_stage _ _ _) as [r bud]. intros [= <-].
      destruct Htr. rewrite Hq in td_commits0. apply Forall_cons in td_commits0 as [He Hrest].
      apply traced_writer; [by split|done].
  - destruct (_ && _); [|done]. intros [= <-]. by apply traced_writer.
  - intros Hrun. by eapply write_run_traced.
  - destruct (send_completion cf m s) as [[d s1]|] eqn:Hs; [|done]. simpl.
    assert (traced s1) as Htr1 by (by eapply traced_send).
    intros [= <-]. destruct (report_continues m d); [by apply traced_writer|].
    apply traced_writer; [by apply traced_release|done].
  - intros [= <-]. apply traced_writer; [by apply traced_release|done].
Qed.

(** *** Steps of the actor *)

(** [s'] has what the workers of [s] hold, and no new call. *)
Record leaves_workers s s' : Prop := {
  lw_fetchers : sy_fetchers s' = sy_fetchers s;
  lw_decoders : sy_decoders s' = sy_decoders s;
  lw_writers : sy_writers s' = sy_writers s;
  lw_fetched : s_fetched (sy_shared s') = s_fetched (sy_shared s);
  lw_commits : s_commits (sy_shared s') = s_commits (sy_shared s);
  lw_w2 : s_w2 (sy_shared s') = s_w2 (sy_shared s);
  lw_calls : calls (s_trace (sy_shared s')) = calls (s_trace (sy_shared s));
}.

#[export] Instance leaves_workers_preorder : PreOrder leaves_workers.
Proof. split; [by intros s|]. intros s1 s2 s3 [] []. split; congruence. Qed.

Lemma traced_leaves s s' :
  leaves_workers s s' → actor_traced (a_pc (sy_actor s')) →
  Forall (λ a, polled (ad_descriptor a)) (s_descriptors (sy_shared s')) → traced s → traced s'.
Proof. intros [] Hpc Hd []. split; congruence || done. Qed.

(** The calls are a view that the actor's computations preserve. *)
Definition logged_calls s : list (SinkCall T) := calls (s_trace (sy_shared s)).

Lemma calls_log tr s : calls tr = [] → logged_calls (on_shared (log tr) s) = logged_calls s.
Proof. intros Htr. unfold logged_calls. simpl. by rewrite calls_app, Htr, app_nil_r. Qed.
Lemma calls_source {A} (m : M (BufferSource C F * W1) RuntimeError A) : preserves logged_calls (on_source m).
Proof. intros s. unfold on_source, zoom. by destruct (m _) as [[src w1] r]. Qed.
Lemma calls_flush : preserves logged_calls flush_logged.
Proof. apply preserves_flush; [|apply calls_source]. intros b s. by apply calls_log. Qed.
Lemma calls_on_committed rep : preserves logged_calls (on_committed cf rep).
Proof.
  apply preserves_on_committed; [done| | | |].
  - intros f s. by apply calls_log.
  - intros b s. by apply calls_log.
  - intros f. apply calls_source.
  - apply calls_source.
Qed.
Lemma calls_register ds : preserves logged_calls (for_each ds register_one).
Proof.
  apply preserves_for_each. intros d. unfold register_one.
  apply preserves_bind; [by apply preserves_coordinator|]. intros _.
  apply preserves_bind; [apply preserves_modify; intros s; by apply calls_log|]. intros _.
  by apply preserves_modify.
Qed.

Lemma framed_leaves s s' :
  frame s s' → calls (s_trace (sy_shared s')) = calls (s_trace (sy_shared s)) →
  leaves_workers s s' ∧ a_pc (sy_actor s') = a_pc (sy_actor s) ∧
  s_descriptors (sy_shared s') = s_descriptors (sy_shared s).
Proof. intros [Hf Hd Hw Hp Ho (w1 & tr & Hs)] Hc. split_and!; [|done|by rewrite Hs]. split; [done..|by rewrite Hs|by rewrite Hs|by rewrite Hs|done]. Qed.

Lemma traced_frame s s' :
  frame s s' → calls (s_trace (sy_shared s')) = calls (s_trace (sy_shared s)) → traced s → traced s'.
Proof.
  intros Hf Hc Htr. destruct (framed_leaves _ _ Hf Hc) as (Hl & Hp & Hd). destruct (Htr) as [].
  eapply traced_leaves; [exact Hl|by rewrite Hp|by rewrite Hd|done].
Qed.

Lemma traced_pc pc s : traced s → actor_traced pc → traced (on_actor (with_pc pc) s).
Proof. intros [] Hpc. by split. Qed.
Lemma traced_finish r s : traced s → traced (finish r s).
Proof. intros Htr. by apply traced_pc. Qed.
Lemma traced_shared_release rs s : traced s → traced (on_shared (release_all rs) s).
Proof.
  replace (on_shared (release_all rs) s) with (on_shared (with_capacity (s_budget (release_all rs (sy_shared s)))
    (s_permits (release_all rs (sy_shared s)))) s); [apply traced_capacity|].
  unfold on_shared. by rewrite <- release_all_capacity.
Qed.

Lemma zip_fst_sub {A B} (l : list A) (k : list B) x : x ∈ zip l k → x.1 ∈ l.
Proof.
  revert k. induction l as [|a l IH]; intros [|b k]; simpl; try (by intros ?%elem_of_nil).
  intros [->|Hx]%elem_of_cons; [left|right]. by eapply IH.
Qed.

Lemma poll_traced gates s :
  (∀ P : relation _, P s (poll_descriptors gates s) → happened P) → a_pc (sy_actor s) = APolling gates →
  traced s → traced (poll_descriptors gates s).
Proof.
  intros Hnow Hpc Htr. unfold poll_descriptors in *.
  destruct (next_descriptors _ _ _) as [[src w1] polls] eqn:Hnext.
  set (s0 := on_shared (with_w1 w1) (on_actor (with_source src) s)) in *.
  assert (traced s0) as Htr0 by (by destruct Htr).
  destruct polls as [[|d ds]|e].
  - apply traced_shared_release. by apply traced_pc.
  - set (s1 := on_shared (release_all (ag_reservation <$> drop (length (d :: ds)) gates)) s0) in *.
    assert (traced s1) as Htr1 by (by apply traced_shared_release).
    assert (source_of s1 = (src, w1)) as Hsrc1.
    { unfold source_of, s1. simpl. by rewrite release_all_capacity. }
    pose proof (framed_for_each (d :: ds) register_one framed_register_one s1) as Hf.
    pose proof (calls_register (d :: ds) s1) as Hc.
    pose proof (proj1 (register_source (d :: ds) s1)) as Hs2.
    change (for_each (d :: ds) _ s1) with (for_each (d :: ds) register_one s1) in *.
    destruct (for_each (d :: ds) register_one s1) as [s2 [u|e]]; cbn [fst] in *.
    + apply traced_pc; [by eapply traced_frame|]. cbn [actor_traced]. apply Forall_forall. intros x Hx%zip_fst_sub.
      apply Hnow. exists gates, (d :: ds). split_and!; [done|done|]. rewrite <- Hsrc1, <- Hs2 in Hnext. exact Hnext.
    + apply traced_shared_release. apply traced_finish. by eapply traced_frame.
  - apply traced_shared_release. by apply traced_finish.
Qed.

Lemma send_traced u rest s s' :
  a_pc (sy_actor s) = ASending (u :: rest) → send_descriptor cf u rest s = Some s' → traced s → traced s'.
Proof.
  intros Hpc Hsend Htr. pose proof (td_actor s Htr) as Hu. rewrite Hpc in Hu. apply Forall_cons in Hu as [Hd Hrest].
  revert Hsend. unfold send_descriptor. destruct u as [d g].
  destruct (descriptors_closed s); [|destruct (has_room _ _); [|done]]; intros [= <-].
  - apply traced_shared_release. by apply traced_finish.
  - apply traced_pc; [|done]. destruct Htr. split; simpl; try done. apply Forall_app. split; [done|]. by constructor.
Qed.

Lemma completion_traced s s' : completion_arm cf s = Some s' → traced s → traced s'.
Proof.
  unfold completion_arm. destruct (s_completions (sy_shared s)) as [|[rep|e] rest].
  - destruct (completion_senders_gone s); [|done]. intros [= <-] Htr. by apply traced_finish.
  - set (s0 := on_shared (with_completions rest) s). intros Hrun Htr.
    assert (traced s0) as Htr0 by (by destruct Htr). revert Hrun.
    pose proof (framed_on_committed cf rep s0) as Hf. pose proof (calls_on_committed rep s0) as Hc.
    destruct (on_committed cf rep s0) as [s1 [u|e]]; intros [= <-]; simpl in *.
    + by eapply traced_frame.
    + apply traced_finish. by eapply traced_frame.
  - intros [= <-] Htr. apply traced_finish. by destruct Htr.
Qed.

Lemma drain_traced s : traced s → traced (drain_finish cf s).
Proof.
  intros Htr. unfold drain_finish. destruct (negb _).
  - pose proof (framed_flush s) as Hf. pose proof (calls_flush s) as Hc.
    destruct (flush_logged s) as [s1 [u|e]]; simpl in *; apply traced_finish.
    + eapply (traced_frame s1); [by apply framed_actor|done|by eapply traced_frame].
    + by eapply traced_frame.
  - apply traced_finish. eapply (traced_frame s); [by apply framed_actor|done|done].
Qed.

Lemma admission_traced g sh s gates sh' :
  admission_attempt cf (sy_shared s) = Some (g, sh) → open_gates cf g sh = (gates, sh') → traced s →
  traced (on_shared (λ _, sh') (on_actor (with_pc (APolling gates)) s)).
Proof.
  intros Hadm Hopen Htr. destruct (open_gates_rsteps cf g sh gates sh' [] Hopen) as [_ Hsh'].
  assert (∃ b n, sh = with_capacity b n (sy_shared s)) as (b & n & ->).
  { unfold admission_attempt in Hadm. destruct (0 <? _); [|done].
    destruct (reserve _ _) as [[r|] b]; [|done]. injection Hadm as _ <-. by do 2 eexists. }
  rewrite Hsh'. destruct Htr. by split.
Qed.

Lemma actor_step_traced p s s' :
  (∀ P : relation _, P s s' → happened P) → actor_step cf p s = Some s' → traced s → traced s'.
Proof.
  intros Hnow Hstep Htr. unfold actor_step in Hstep.
  destruct (a_pc (sy_actor s)) as [|gates| |[|u us]|r] eqn:Hpc.
  - destruct (_ && _); [injection Hstep as <-; by apply drain_traced|]. revert Hstep. unfold actor_select.
    destruct (select_arm _ _) as [[]|]; [| | | |done].
    + destruct (s_abort _); [|done]. intros [= <-]. by apply traced_finish.
    + destruct (s_shutdown _); [|done]. intros [= <-]. by destruct Htr.
    + intros Hc. by eapply completion_traced.
    + destruct (admission_attempt _ _) as [[g sh]|] eqn:Hadm; [|done].
      destruct (open_gates cf g sh) as [gates sh'] eqn:Hopen. intros [= <-]. by eapply admission_traced.
  - injection Hstep as <-. by apply poll_traced.
  - injection Hstep as <-. by apply traced_pc.
  - injection Hstep as <-. by apply traced_pc.
  - by eapply send_traced.
  - done.
Qed.

Lemma exec_traced ev s s' :
  (∀ P : relation _, P s s' → happened P) → exec cf ev s = Some s' → traced s → traced s'.
Proof.
  intros Hnow. destruct ev as [| |p|i arm|i arm|i arm sel|f|f]; simpl.
  - intros [= <-] []. by split.
  - unfold supervisor_abort. destruct (a_pc (sy_actor s)) as [| | | |[|]]; try done. intros [= <-] []. by split.
  - by apply actor_step_traced.
  - by apply fetch_step_traced.
  - apply decode_step_traced.
  - by apply write_step_traced.
  - intros [= <-] []. by split.
  - intros [= <-] []. by split.
Qed.
End origins.
End provenance.

(** ** Runs *)

Section runs.
Context {C F W1 D K W2 T : Type}.
Context `{ConsumerLaws C F W1} `{TypedRecords T} `{Decoder D T} `{Sink K W2 T}.
Implicit Types s : Sys C F W1 W2 T.

Lemma traced_mono (cf : Config F D K) (h1 h2 : relation (Sys C F W1 W2 T) → Prop) s :
  (∀ P, h1 P → h2 P) → traced cf h1 s → traced cf h2 s.
Proof.
  intros Hh [].
  assert (∀ d, polled h1 d → polled h2 d) as Hp by (intros d; apply Hh).
  assert (∀ b q, fetched_as cf h1 b q → fetched_as cf h2 b q) as Hf.
  { intros b q (d & Hd & Hq & Hb). exists d. auto. }
  assert (∀ commit q, decoded_as cf h1 commit q → decoded_as cf h2 commit q) as Hd.
  { intros commit q (b & decoded & Hb & ?). exists b, decoded. auto. }
  assert (∀ e, envelope_traced cf h1 e → envelope_traced cf h2 e) as He.
  { intros e (q & ? & ?). exists q. auto. }
  split.
  - destruct (a_pc _); simpl in *; try done. eapply Forall_impl; [exact td_actor0|]. intros u. apply Hp.
  - eapply Forall_impl; [exact td_descriptors0|]. intros a. apply Hp.
  - eapply Forall_impl; [exact td_fetchers0|]. intros []; simpl; auto.
  - eapply Forall_impl; [exact td_fetched0|]. intros a. apply Hf.
  - eapply Forall_impl; [exact td_decoders0|]. intros []; simpl; auto.
  - eapply Forall_impl; [exact td_commits0|]. auto.
  - eapply Forall_impl; [exact td_writers0|]. intros []; simpl; auto.
  - eapply Forall_impl; [exact td_calls0|]. intros [commit r|id r]; simpl.
    + intros [[q Hq] Hc]. split; [exists q|]; auto.
    + intros [(commit & q & Hq & Hid) Hc]. split; [exists commit, q|]; auto.
Qed.

Lemma exec_all_traced (cf : Config F D K) s0 evs : ∀ s,
  traced cf (during cf s0 []) s0 → exec_all cf evs s0 = Some s → traced cf (during cf s0 evs) s.
Proof.
  induction evs as [|ev evs IH] using rev_ind; intros s Hs0; [by intros [= ->]|].
  rewrite exec_all_app. destruct (exec_all cf evs s0) as [s1|] eqn:Hs1; [|done]. simpl.
  destruct (exec cf ev s1) as [s2|] eqn:Hev; [|done]. simpl. intros [= <-].
  eapply exec_traced; [|exact Hev|].
  - intros P. by eapply during_last.
  - eapply traced_mono; [intros P; apply during_snoc|]. by apply IH.
Qed.

Lemma run_traced evs (b : RuntimeBuilder C F D K) w1 w2 cf s :
  run_by evs b w1 w2 cf s →
  ∃ rt s0, build b = Ok rt ∧ run_start rt w1 w2 = Ok s0 ∧ exec_all cf evs s0 = Some s ∧
    traced cf (during cf s0 evs) s.
Proof.
  intros (rt & s0 & Hb & Hs0 & -> & Hrun). exists rt, s0. split_and!; [done..|].
  apply exec_all_traced; [|done]. unfold run_start in Hs0.
  destruct (take_coordinator _ _) as [[c|] reg]; [|done]. simpl in Hs0. injection Hs0 as <-.
  split; simpl; try constructor; by apply Forall_replicate.
Qed.

(** *** The sink's world along a run *)

(** What the environment may do to the sink's world. *)
Definition sink_event_within (R : relation W2) (ev : SysEvent (W1 := W1) (W2 := W2)) : Prop :=
  match ev with
  | EvSinkWorld f => ∀ w, R w (f w)
  | EvWrite _ _ (Abort _ partial) => ∀ w, R w (partial w)
  | _ => True
  end.

Section world.
Context (cf : Config F D K) (R : relation W2) `{!PreOrder R}.
Context (Hwrite : ∀ commit w, R w (sink_write (cf_sink cf) commit w).1).
Context (Hcheck : ∀ id w, R w (check_committed (cf_sink cf) id w).1).

Lemma retry_step_world commit n sel pc w :
  (∀ slow partial, sel = Abort slow partial → ∀ w, R w (partial w)) →
  R w (retry_step (cf_sink cf) commit n sel pc w).1.2.
Proof using All.
  intros Hsel. destruct pc, sel as [slow|slow partial]; simpl; try done; try (by eapply Hsel).
  - specialize (Hwrite commit w). by destruct (sink_write _ _ _).
  - specialize (Hcheck (sc_identity commit) w). by destruct (check_committed _ _ _).
Qed.

Lemma write_step_world i arm sel s s' :
  (∀ slow partial, sel = Abort slow partial → ∀ w, R w (partial w)) →
  write_step cf i arm sel s = Some s' → R (s_w2 (sy_shared s)) (s_w2 (sy_shared s')).
Proof using All.
  intros Hsel. unfold write_step. destruct (sy_writers s !! i) as [pc|]; [|done]. simpl.
  assert (∀ m d s1, send_completion cf m s = Some (d, s1) → s_w2 (sy_shared s1) = s_w2 (sy_shared s)) as Hsend.
  { intros m d s1. unfold send_completion. destruct (actor_done s); [by intros [= _ <-]|].
    destruct (has_room _ _); [|done]. by intros [= _ <-]. }
  unfold abort_if. destruct pc as [|e pc|m r p|r p|]; [destruct arm| | | |]; try done.
  - unfold write_recv, enter_stage. destruct (s_commits _) as [|e rest].
    + destruct (commits_closed s); [|done]. by intros [= <-].
    + destruct (attach_stage _ _ _) as [r bud]. by intros [= <-].
  - destruct (_ && _); [|done]. by intros [= <-].
  - intros Hrun. pose proof (retry_step_world (sce_commit e) (effective_retry_max_attempts (cf_options cf)) sel pc
      (s_w2 (sy_shared s)) Hsel) as Hr.
    unfold write_run in Hrun. destruct pc; [| | |by injection Hrun as <-];
      (destruct (_ && _); [done|]; destruct (retry_step _ _ _ _ _ _) as [[? ?] ?]; by injection Hrun as <-).
  - destruct (send_completion cf m s) as [[d s1]|] eqn:Hs; [|done]. simpl. intros [= <-].
    assert (R (s_w2 (sy_shared s)) (s_w2 (sy_shared s1))) as Hs1 by (by rewrite (Hsend _ _ _ Hs)).
    by destruct (report_continues m d).
  - by intros [= <-].
Qed.

Lemma send_completion_w2 m s d s1 :
  send_completion cf m s = Some (d, s1) → s_w2 (sy_shared s1) = s_w2 (sy_shared s).
Proof.
  unfold send_completion. destruct (actor_done s); [by intros [= _ <-]|].
  destruct (has_room _ _); [|done]. by intros [= _ <-].
Qed.

Lemma frame_w2 s s' : frame s s' → s_w2 (sy_shared s') = s_w2 (sy_shared s).
Proof. intros [_ _ _ _ _ (w1 & tr & ->)]. done. Qed.

Lemma release_w2 rs s : s_w2 (sy_shared (on_shared (release_all rs) s)) = s_w2 (sy_shared s).
Proof. simpl. by rewrite release_all_capacity. Qed.

Lemma poll_w2 gates s : s_w2 (sy_shared (poll_descriptors gates s)) = s_w2 (sy_shared s).
Proof.
  unfold poll_descriptors. destruct (next_descriptors _ _ _) as [[src w1] [[|d ds]|e]].
  - etrans; [apply release_w2|done].
  - set (s1 := on_shared (release_all (ag_reservation <$> drop (length (d :: ds)) gates)) _).
    assert (s_w2 (sy_shared s1) = s_w2 (sy_shared s)) as <- by (etrans; [apply release_w2|done]).
    pose proof (frame_w2 _ _ (framed_for_each (d :: ds) register_one framed_register_one s1)) as Hf.
    change (for_each (d :: ds) _ s1) with (for_each (d :: ds) register_one s1).
    destruct (for_each (d :: ds) register_one s1) as [s2 [u|e]]; cbn [fst] in Hf; [exact Hf|].
    etrans; [apply release_w2|]. exact Hf.
  - etrans; [apply release_w2|done].
Qed.

Lemma completion_w2 s s' : completion_arm cf s = Some s' → s_w2 (sy_shared s') = s_w2 (sy_shared s).
Proof.
  unfold completion_arm. destruct (s_completions (sy_shared s)) as [|[rep|e] rest].
  - destruct (completion_senders_gone s); [|done]. by intros [= <-].
  - pose proof (frame_w2 _ _ (framed_on_committed cf rep (on_shared (with_completions rest) s))) as Hf.
    destruct (on_committed _ _ _) as [s1 [u|e]]; by intros [= <-].
  - by intros [= <-].
Qed.

Lemma actor_step_w2 p s s' : actor_step cf p s = Some s' → s_w2 (sy_shared s') = s_w2 (sy_shared s).
Proof.
  unfold actor_step. destruct (a_pc (sy_actor s)) as [|gates| |[|[d g] us]|r].
  - destruct (_ && _).
    + intros [= <-]. unfold drain_finish. destruct (negb _); [|done].
      pose proof (frame_w2 _ _ (framed_flush s)) as Hf. by destruct (flush_logged s) as [s1 [u|e]].
    + unfold actor_select. destruct (select_arm _ _) as [[]|]; [| | | |done].
      * destruct (s_abort _); [|done]. by intros [= <-].
      * destruct (s_shutdown _); [|done]. by intros [= <-].
      * apply completion_w2.
      * destruct (admission_attempt _ _) as [[g sh]|] eqn:Hadm; [|done].
        destruct (open_gates cf g sh) as [gates sh'] eqn:Hopen. intros [= <-]. simpl.
        destruct (open_gates_rsteps cf g sh gates sh' [] Hopen) as [_ ->]. simpl.
        unfold admission_attempt in Hadm. destruct (0 <? _); [|done].
        destruct (reserve _ _) as [[r|] b]; [|done]. by injection Hadm as _ <-.
  - intros [= <-]. apply poll_w2.
  - by intros [= <-].
  - by intros [= <-].
  - unfold send_descriptor. destruct (descriptors_closed s); [|destruct (has_room _ _); [|done]]; intros [= <-]; [|done].
    etrans; [apply release_w2|done].
  - done.
Qed.

Ltac world_cases :=
  repeat match goal with
  | H : Some _ = Some _ |- _ => injection H as <-
  | H : None = Some _ |- _ => discriminate H
  | H : context [send_completion ?c ?m ?x] |- _ =>
      let E := fresh "E" in destruct (send_completion c m x) as [[? ?]|] eqn:E; simpl in H;
      [apply send_completion_w2 in E|]
  | H : context [attach_stage ?a ?b ?c] |- _ => destruct (attach_stage a b c)
  | H : context [decode_one ?a ?b ?c ?d ?e ?f ?g] |- _ => destruct (decode_one a b c d e f g) as [[? ?] [[]|]]
  | H : (if ?c then _ else _) = Some _ |- _ => destruct c
  | H : (let '(_, _) := ?x in _) = Some _ |- _ => destruct x
  | H : match ?x with _ => _ end = Some _ |- _ => destruct x
  end.

Lemma fetch_step_w2 i arm s s' : fetch_step cf i arm s = Some s' → s_w2 (sy_shared s') = s_w2 (sy_shared s).
Proof.
  unfold fetch_step. destruct (sy_fetchers s !! i) as [pc|]; [|done]. simpl.
  unfold abort_if, fetch_recv, fetch_run, fetch_send, enter_stage. intros Hrun.
  destruct pc; try destruct arm; world_cases; try done.
  all: repeat case_match; simplify_eq; simpl; by rewrite ?E.
Qed.

Lemma decode_step_w2 i arm s s' : decode_step cf i arm s = Some s' → s_w2 (sy_shared s') = s_w2 (sy_shared s).
Proof.
  unfold decode_step. destruct (sy_decoders s !! i) as [pc|]; [|done]. simpl.
  unfold abort_if, decode_recv, decode_run, decode_send, enter_stage. intros Hrun.
  destruct pc; try destruct arm; world_cases; try done.
  all: repeat case_match; simplify_eq; simpl; by rewrite ?E.
Qed.

Lemma exec_world ev s s' :
  sink_event_within R ev → exec cf ev s = Some s' → R (s_w2 (sy_shared s)) (s_w2 (sy_shared s')).
Proof using All.
  intros Hev. destruct ev as [| |p|i arm|i arm|i arm sel|f|f]; simpl.
  - by intros [= <-].
  - unfold supervisor_abort. destruct (a_pc (sy_actor s)) as [| | | |[|]]; try done. by intros [= <-].
  - by intros ->%actor_step_w2.
  - by intros ->%fetch_step_w2.
  - by intros ->%decode_step_w2.
  - apply write_step_world. intros slow partial ->. exact Hev.
  - by intros [= <-].
  - intros [= <-]. apply Hev.
Qed.

Lemma exec_all_world evs : ∀ s s',
  Forall (sink_event_within R) evs → exec_all cf evs s = Some s' → R (s_w2 (sy_shared s)) (s_w2 (sy_shared s')).
Proof using All.
  induction evs as [|ev evs IH]; intros s s' Hall; simpl; [by intros [= ->]|].
  apply Forall_cons in Hall as [Hev Hall].
  destruct (exec cf ev s) as [s1|] eqn:Hs1; [|done]. simpl. intros Hrun.
  etrans; [by eapply exec_world|by apply IH].
Qed.

(** A step of the run, and the world at its end. *)
Lemma during_world evs s0 s (P : relation (Sys C F W1 W2 T)) :
  Forall (sink_event_within R) evs → exec_all cf evs s0 = Some s → during cf s0 evs P →
  ∃ s1 s2, P s1 s2 ∧ R (s_w2 (sy_shared s0)) (s_w2 (sy_shared s1)) ∧ R (s_w2 (sy_shared s2)) (s_w2 (sy_shared s)).
Proof using All.
  intros Hall Hrun (before & ev & after & s1 & s2 & -> & Hs1 & Hs2 & HP). exists s1, s2. split; [done|].
  apply Forall_app in Hall as [Hb [_ Ha]%Forall_cons].
  rewrite exec_all_app, Hs1 in Hrun. simpl in Hrun. rewrite Hs2 in Hrun. simpl in Hrun.
  split; [apply (exec_all_world before)|apply (exec_all_world after)]; done.
Qed.
End world.
End runs.

(** ** What an acknowledgement rests on *)

Section acknowledged.
Context {C F W1 D K W2 T : Type}.
Context `{ConsumerLaws C F W1} `{TypedRecords T} `{Decoder D T} `{Sink K W2 T}.
Implicit Types s : Sys C F W1 W2 T.

(** A confirmed sequence was confirmed for the commit of its own data. *)
Lemma confirmed_origin (cf : Config F D K) h s q :
  traced cf h s → confirmed q (s_trace (sy_shared s)) →
  ∃ commit, decoded_as cf h commit q ∧
    ((∃ res, CallWrite commit (Ok res) ∈ calls (s_trace (sy_shared s)) ∧
        h (λ s1 s2, sink_write (cf_sink cf) commit (s_w2 (sy_shared s1)) = (s_w2 (sy_shared s2), Ok res))) ∨
     h (λ s1 s2, check_committed (cf_sink cf) (sc_identity commit) (s_w2 (sy_shared s1)) =
                 (s_w2 (sy_shared s2), Ok CSCommitted))).
Proof.
  intros [] (c & Hc%elem_calls & Hconf & Hrange). rewrite Forall_forall in td_calls0.
  specialize (td_calls0 _ Hc).
  assert (∀ commit q', decoded_as cf h commit q' → ci_range (sc_identity commit) = SequenceRange_new q q → q' = q) as Hsame.
  { intros commit q' (batch & decoded & _ & _ & _ & ->). by intros [= ->]. }
  destruct c as [commit [res|e]|id [[]|e]]; try done; simpl in td_calls0, Hrange.
  - destruct td_calls0 as [[q' Hq'] Hcall]. exists commit. rewrite <- (Hsame _ _ Hq' Hrange) at 1.
    split; [done|]. left. by exists res.
  - destruct td_calls0 as [(commit & q' & Hq' & ->) Hcall]. exists commit.
    rewrite <- (Hsame _ _ Hq' Hrange) at 1. split; [done|]. by right.
Qed.

Lemma acknowledged_origin (evs : list SysEvent) (b : RuntimeBuilder C F D K) (w1 : W1) (w2 : W2)
    (cf : Config F D K) s :
  run_by evs b w1 w2 cf s → baseline_u64 b →
  ∃ rt s0, build b = Ok rt ∧ run_start rt w1 w2 = Ok s0 ∧ exec_all cf evs s0 = Some s ∧
    ∀ f q, f ∈ acks (s_trace (sy_shared s)) → q ∈ admits (s_trace (sy_shared s)) → q ≤ f →
    ∃ commit, decoded_as cf (during cf s0 evs) commit q ∧
      ((∃ res, during cf s0 evs (λ s1 s2, sink_write (cf_sink cf) commit (s_w2 (sy_shared s1)) = (s_w2 (sy_shared s2), Ok res))) ∨
       during cf s0 evs (λ s1 s2, check_committed (cf_sink cf) (sc_identity commit) (s_w2 (sy_shared s1)) =
                 (s_w2 (sy_shared s2), Ok CSCommitted))).
Proof.
  intros Hrun Hbase. destruct (run_traced _ _ _ _ _ _ Hrun) as (rt & s0 & Hb & Hs0 & Hexec & Htr).
  destruct (run_safe _ _ _ _ _ (run_by_reaches _ _ _ _ _ _ Hrun) Hbase) as (hist & lost & []).
  exists rt, s0. split_and!; try done. intros f q Hf Hq Hle.
  destruct (confirmed_origin cf _ s q Htr) as (commit & Hdec & [(res & _ & Hcall)|Hcall]); [by eapply elem_confirmed|..];
    exists commit; (split; [done|]); [left; by exists res|by right].
Qed.

(** C5: an acknowledgement rests on that sequence's own data.  For every
    admitted sequence an acknowledgement covers there are, among the steps of
    this very run: a poll that listed its descriptor, a fetch of that descriptor
    that answered a batch, of which the configured decoder made exactly one
    decoded batch, whose range is that one sequence; and a call of the sink, on
    the commit built from that decoded batch, that confirmed it. *)
Theorem acknowledged_data_provenance (evs : list SysEvent) (b : RuntimeBuilder C F D K) (w1 : W1) (w2 : W2)
    (cf : Config F D K) (s : Sys C F W1 W2 T) (Hrun : run_by evs b w1 w2 cf s) (Hbase : baseline_u64 b) :
  ∃ rt s0, build b = Ok rt ∧ run_start rt w1 w2 = Ok s0 ∧ exec_all cf evs s0 = Some s ∧
    ∀ f q, f ∈ acks (s_trace (sy_shared s)) → q ∈ admits (s_trace (sy_shared s)) → q ≤ f →
    ∃ d batch decoded,
      during cf s0 evs (λ s1 s2, ∃ gates ds, a_pc (sy_actor s1) = APolling gates ∧ d ∈ ds ∧
        next_descriptors (length gates) SourceBudget_default (source_of s1) = (source_of s2, Ok ds)) ∧
      sbd_sequence d = q ∧
      during cf s0 evs (λ s1 s2, Source.fetch (cf_handle cf) d (s_w1 (sy_shared s1)) =
                                 (s_w1 (sy_shared s2), Ok batch)) ∧
      decode (cf_decoder cf) batch = Ok [decoded] ∧ db_low_sequence decoded = q ∧ db_high_sequence decoded = q ∧
      let commit := build_commit (sink_id (cf_sink cf)) q q decoded in
      (∃ res, during cf s0 evs (λ s1 s2,
         sink_write (cf_sink cf) commit (s_w2 (sy_shared s1)) = (s_w2 (sy_shared s2), Ok res))) ∨
      during cf s0 evs (λ s1 s2,
         check_committed (cf_sink cf) (sc_identity commit) (s_w2 (sy_shared s1)) =
           (s_w2 (sy_shared s2), Ok CSCommitted)).
Proof.
  destruct (acknowledged_origin _ _ _ _ _ _ Hrun Hbase) as (rt & s0 & Hb & Hs0 & Hexec & Hall).
  exists rt, s0. split_and!; [done..|]. intros f q Hf Hq Hle.
  destruct (Hall f q Hf Hq Hle) as (commit & (batch & decoded & (d & Hd & Hseq & Hfetch) & Hdec & _ & ->) & Hcall).
  apply decode_checked_ok in Hdec as (_ & Hdec & Hlow & Hhigh). by exists d, batch, decoded.
Qed.
End acknowledged.

(** The demo run, whose first unit a status check confirms after an ambiguous
    write. *)
Lemma acknowledged_data_provenance_witness :
  ∃ s d batch decoded, demo_run false demo_events = Some s ∧ acks (s_trace (sy_shared s)) = [1] ∧
    sbd_sequence d = 0 ∧ decode tt batch = Ok [decoded] ∧ db_low_sequence decoded = 0 ∧
    ∃ w w', Source.fetch (fetch_handle log_source) d w = (w', Ok batch).
Proof.
  destruct (demo_run false demo_events) as [s|] eqn:Hrun; [|by vm_compute in Hrun].
  assert (acks (s_trace (sy_shared s)) = [1]) as Hacks by (vm_compute in Hrun; by simplify_eq).
  assert (admits (s_trace (sy_shared s)) = [0; 1]) as Hadmits by (vm_compute in Hrun; by simplify_eq).
  destruct (acknowledged_data_provenance _ _ _ _ _ _ (demo_run_by _ _ _ Hrun) (demo_baseline_fine _))
    as (rt & s0 & _ & _ & _ & Hall).
  destruct (Hall 1 0) as (d & batch & decoded & _ & Hd & Hf & Hdec & Hlow & _ & _).
  - rewrite Hacks. left.
  - rewrite Hadmits. left.
  - lia.
  - exists s, d, batch, decoded. split; [reflexivity|]. split; [exact Hacks|]. split; [exact Hd|].
    split; [exact Hdec|]. split; [exact Hlow|].
    destruct Hf as (_ & _ & _ & s1 & s2 & _ & _ & _ & Hf). by do 2 eexists.
Defined.
