(* ===== verification/PipelineProgress.v ===== *)
(** * The pipeline always moves on

    No reachable state of the pipeline is a deadlock, and once admission is
    closed every schedule ends the run.

    Every admitted unit is somewhere until the actor has settled it
    ([balanced]), and a worker pool loses a member only when nothing will
    arrive for it any more ([sound]); a state in which no task can step and the
    run has not ended contradicts one of the two ([stuck_ended]).  A weight on
    what the tasks and the queues hold ([work]) decreases with every step of a
    task while nothing is admitted. *)

From Stdlib Require Import NArith Lia.
From stdpp Require Import relations.
From S2P Require Import Prelude.
From S2P Require Import BTree.
From S2P Require Import Types.
From S2P Require Import AckCoordinator.
From S2P Require Import ByteBudget.
From S2P Require Import Source.
From S2P Require Import Options.
From S2P Require Import Metrics.
From S2P Require Import WriteRetry.
From S2P Require Import Decode.
From S2P Require Import Pipeline.
From S2P Require Import PipelineDemo.
From S2P Require Import PipelineResources.
From S2P Require Import PipelineWorkers.
From S2P Require Import PipelineSafety.
From S2P Require Import PipelineRestart.
From S2P Require Import PipelineProvenance.
Local Open Scope N_scope.

(** ** Weights

    A weight for each place a unit can be in, and for each program counter. *)

Record Weights (T : Type) := {
  wt_actor : ActorPc → N;
  wt_descriptor : N;
  wt_fetch : FetchPc → N;
  wt_fetched : N;
  wt_decode : DecodePc T → N;
  wt_commit : N;
  wt_write : WritePc T → N;
  wt_message : N;
}.
Arguments wt_actor {T}. Arguments wt_descriptor {T}. Arguments wt_fetch {T}. Arguments wt_fetched {T}.
Arguments wt_decode {T}. Arguments wt_commit {T}. Arguments wt_write {T}. Arguments wt_message {T}.

(** [k] for each member of a queue. *)
Definition each {A} (k : N) (q : list A) : N := sum_N ((λ _, k) <$> q).

Lemma each_length {A} k (q : list A) : each k q = N.of_nat (length q) * k.
Proof. apply sum_N_const. Qed.
Lemma each_cons {A} k (x : A) q : each k (x :: q) = k + each k q.
Proof. done. Qed.
Lemma each_nil {A} k : each (A := A) k [] = 0.
Proof. done. Qed.
Lemma each_app {A} k (q1 q2 : list A) : each k (q1 ++ q2) = each k q1 + each k q2.
Proof. apply sum_N_fmap_app. Qed.
Lemma each_mono {A B} k (q1 : list A) (q2 : list B) :
  (length q1 ≤ length q2)%nat → each k q1 ≤ each k q2.
Proof. intros Hl. rewrite !each_length. apply N.mul_le_mono_r. lia. Qed.

Section weights.
Context {C F W1 W2 T : Type}.
Implicit Types s : Sys C F W1 W2 T.

Definition weigh (w : Weights T) s : N :=
  wt_actor w (a_pc (sy_actor s)) +
  each (wt_descriptor w) (s_descriptors (sy_shared s)) + sum_N (wt_fetch w <$> sy_fetchers s) +
  each (wt_fetched w) (s_fetched (sy_shared s)) + sum_N (wt_decode w <$> sy_decoders s) +
  each (wt_commit w) (s_commits (sy_shared s)) + sum_N (wt_write w <$> sy_writers s) +
  each (wt_message w) (s_completions (sy_shared s)).

(** The weight outside the actor. *)
Definition weigh_rest (w : Weights T) s : N := weigh w s - wt_actor w (a_pc (sy_actor s)).

Lemma weigh_split w s : weigh w s = wt_actor w (a_pc (sy_actor s)) + weigh_rest w s.
Proof. unfold weigh_rest, weigh. lia. Qed.

Lemma weigh_rest_eq w s :
  weigh_rest w s =
  each (wt_descriptor w) (s_descriptors (sy_shared s)) + sum_N (wt_fetch w <$> sy_fetchers s) +
  each (wt_fetched w) (s_fetched (sy_shared s)) + sum_N (wt_decode w <$> sy_decoders s) +
  each (wt_commit w) (s_commits (sy_shared s)) + sum_N (wt_write w <$> sy_writers s) +
  each (wt_message w) (s_completions (sy_shared s)).
Proof. unfold weigh_rest, weigh. lia. Qed.

(** *** How many units are admitted and not settled

    Every message of a worker settles one. *)
Definition unit_weights : Weights T := {|
  wt_actor pc := match pc with ASending us => each 1 us | _ => 0 end;
  wt_descriptor := 1;
  wt_fetch pc := match pc with FFetching _ | FSending _ | FReporting _ _ _ => 1 | FIdle | FExited => 0 end;
  wt_fetched := 1;
  wt_decode pc := match pc with DDecoding _ | DSending _ _ | DReporting _ _ _ => 1 | _ => 0 end;
  wt_commit := 1;
  wt_write pc := match pc with WWriting _ _ | WReporting _ _ _ => 1 | _ => 0 end;
  wt_message := 1;
|}.
Definition units s : N := weigh unit_weights s.

(** *** How many steps are left

    [max_attempts] bounds the retries of one commit. *)
Section work.
Context (max_attempts : N).

Definition commit_work : N := 8 + 3 * max_attempts.

Definition retry_work (pc : RetryPc) : N :=
  match pc with
  | PWrite k => 8 + 3 * (max_attempts - k)
  | PCheck k _ => 7 + 3 * (max_attempts - k)
  | PSleep k => 9 + 3 * (max_attempts - sat_add32 k 1)
  | PDone _ => 5
  end.

Definition work_weights : Weights T := {|
  wt_actor pc :=
    match pc with
    | ADone _ => 0
    | ALoop => 1
    | ASleeping => 2
    | ASending us => 2 + each (commit_work + 7) us
    | APolling gates => 3 + each (commit_work + 7) gates
    end;
  wt_descriptor := commit_work + 6;
  wt_fetch pc :=
    match pc with
    | FFetching _ => commit_work + 6
    | FSending _ => commit_work + 5
    | FReporting _ _ _ => 2
    | FIdle => 1
    | FExited => 0
    end;
  wt_fetched := commit_work + 3;
  wt_decode pc :=
    match pc with
    | DDecoding _ => commit_work + 3
    | DSending _ _ => commit_work + 2
    | DReporting _ _ _ => 4
    | DFinishing _ _ => 2
    | DIdle => 1
    | DExited => 0
    end;
  wt_commit := commit_work;
  wt_write pc :=
    match pc with
    | WWriting _ rp => retry_work rp
    | WReporting _ _ _ => 4
    | WFinishing _ _ => 2
    | WIdle => 1
    | WExited => 0
    end;
  wt_message := 1;
|}.
End work.
End weights.

Lemma retry_work_decreases {K W T} `{Sink K W T} (sink : K) commit m sel pc (w : W) :
  is_u32 m → (∀ a, pc ≠ PDone a) →
  retry_work m (retry_step sink commit m sel pc w).1.1 < retry_work m pc.
Proof.
  intros Hm Hpc.
  assert (∀ k e, retry_work m (sleep_or_fail k m e) ≤ 6 + 3 * (m - k)) as Hsleep.
  { intros k e. unfold sleep_or_fail. destruct (N.leb_spec m k); simpl; [lia|].
    unfold sat_add32, is_u32, u32_max in *. lia. }
  destruct pc as [k|k e|k|a]; [| | |by destruct (Hpc a)]; destruct sel as [slow|slow partial]; simpl;
    try (simpl; lia).
  - destruct (sink_write sink commit w) as [w' [r|[e|e|e]]]; simpl; try lia.
    specialize (Hsleep k e). lia.
  - destruct (check_committed _ _ w) as [w' [[]|err]]; simpl; try lia; specialize (Hsleep k e); lia.
Qed.

(** ** The invariants *)

Section progress.
Context {C F W1 D K W2 T : Type}.
Context `{ConsumerLaws C F W1} `{TypedRecords T} `{Decoder D T} `{Sink K W2 T}.
Context (cf : Config F D K).
Implicit Types s : Sys C F W1 W2 T.
Abbreviation attempts := (effective_retry_max_attempts (cf_options cf)).

Definition work s : N := weigh (work_weights attempts) s.

(** The actor counts the units that are not settled, until the run is aborted
    or the actor returns. *)
Definition over s : Prop := s_abort (sy_shared s) = true ∨ actor_done s = true.
Definition balanced s : Prop := over s ∨ a_in_flight (sy_actor s) = units s.

(** A worker that left finds its queue empty and without senders, unless the
    run is over or a fatal report is on its way to the actor. *)
Definition failing s : Prop := over s ∨ ∃ e, WCFatal e ∈ s_completions (sy_shared s).
Record exits_ok s : Prop := {
  ex_fetch : FExited ∈ sy_fetchers s →
    s_descriptors (sy_shared s) = [] ∧ s_descriptors_closed (sy_shared s) = true;
  ex_decode : DExited ∈ sy_decoders s → s_fetched (sy_shared s) = [] ∧ fetchers_gone s = true;
  ex_write : WExited ∈ sy_writers s → s_commits (sy_shared s) = [] ∧ decoders_gone s = true;
}.
Definition sound s : Prop := failing s ∨ exits_ok s.

(** The sizes of the three pools. *)
Definition pools s : nat * nat * nat :=
  (length (sy_fetchers s), length (sy_decoders s), length (sy_writers s)).

(** What a worker step does to them. *)
Record worker_progress s s' : Prop := {
  wp_actor : sy_actor s' = sy_actor s;
  wp_abort : s_abort (sy_shared s') = s_abort (sy_shared s);
  wp_pools : pools s' = pools s;
  wp_messages : ∃ ms, s_completions (sy_shared s') = s_completions (sy_shared s) ++ ms;
  wp_units : over s ∨ units s' = units s;
  wp_units_le : units s' ≤ units s;
  wp_sound : sound s → sound s';
  wp_work : work s' < work s;
}.

(** Weigh both sides; an update of a pool exchanges the weight of one cell. *)
Ltac weight_facts :=
  repeat match goal with
  | Hi : ?l !! ?i = Some ?x |- context [sum_N (?w <$> <[?i := ?y]> ?l)] =>
      let E := fresh "E" in
      pose proof (sum_N_insert w l i x y Hi) as E; revert E;
      generalize (sum_N (w <$> <[i:=y]> l)); let n := fresh "n" in intros n;
      cbn [wt_fetch wt_decode wt_write unit_weights work_weights retry_work]; intros E
  end.
Ltac weigh_places :=
  unfold units, work, weigh;
  cbn [sy_actor sy_shared sy_fetchers sy_decoders sy_writers set_fetcher set_decoder set_writer on_shared
       on_actor s_descriptors s_fetched s_commits s_completions with_descriptors with_fetched with_commits
       with_completions with_w1 with_w2 with_capacity with_tokens log release a_pc with_pc
       wt_actor wt_descriptor wt_fetched wt_commit wt_message unit_weights work_weights];
  repeat match goal with
  | Hq : s_descriptors _ = _ |- _ => rewrite Hq
  | Hq : s_fetched _ = _ |- _ => rewrite Hq
  | Hq : s_commits _ = _ |- _ => rewrite Hq
  | Hq : s_completions _ = _ |- _ => rewrite Hq
  | Hq : a_pc _ = _ |- _ => rewrite Hq
  end;
  rewrite ?each_app, ?each_cons, ?each_nil; weight_facts;
  rewrite ?each_app, ?each_cons, ?each_nil.
Ltac weigh := weigh_places; unfold commit_work in *; lia.

(** Completions and exits are the only way out. *)
Lemma failing_mono s s' :
  sy_actor s' = sy_actor s → s_abort (sy_shared s') = s_abort (sy_shared s) →
  (∀ m, m ∈ s_completions (sy_shared s) → m ∈ s_completions (sy_shared s')) →
  failing s → failing s'.
Proof.
  intros Ha Hab Hm [[Ho|Ho]|(e & He)].
  - left; left. by rewrite Hab.
  - left; right. unfold actor_done in *. by rewrite Ha.
  - right. exists e. by apply Hm.
Qed.

Lemma sound_mono s s' :
  sy_actor s' = sy_actor s → s_abort (sy_shared s') = s_abort (sy_shared s) →
  (∀ m, m ∈ s_completions (sy_shared s) → m ∈ s_completions (sy_shared s')) →
  (exits_ok s → failing s' ∨ exits_ok s') → sound s → sound s'.
Proof.
  intros Ha Hab Hm He [Hf|Hok]; [left; by eapply failing_mono|]. exact (He Hok).
Qed.

(** *** Fetch workers *)

(** While a fetcher is at work, the decoders have not left. *)
Lemma fetcher_present s i pc :
  sy_fetchers s !! i = Some pc → fetch_exited pc = false → fetchers_gone s = false.
Proof.
  intros Hi Hp. destruct (fetchers_gone s) eqn:Hg; [|done].
  by rewrite (forallb_lookup _ _ _ _ Hg Hi) in Hp.
Qed.
Lemma decoder_present s i pc :
  sy_decoders s !! i = Some pc → decode_exited pc = false → decoders_gone s = false.
Proof.
  intros Hi Hp. destruct (decoders_gone s) eqn:Hg; [|done].
  by rewrite (forallb_lookup _ _ _ _ Hg Hi) in Hp.
Qed.
Lemma writer_present s i pc :
  sy_writers s !! i = Some pc → write_exited pc = false → writers_gone s = false.
Proof.
  intros Hi Hp. destruct (writers_gone s) eqn:Hg; [|done].
  by rewrite (forallb_lookup _ _ _ _ Hg Hi) in Hp.
Qed.

(** A step of fetcher [i] that does not end it, or ends it with its queue
    empty and closed. *)
Lemma exits_fetch s i pc pc' (sh : Shared W1 W2 T) :
  sy_fetchers s !! i = Some pc → fetch_exited pc = false →
  (s_descriptors (sy_shared s) = [] → s_descriptors_closed (sy_shared s) = true →
     s_descriptors sh = [] ∧ s_descriptors_closed sh = true) →
  s_commits sh = s_commits (sy_shared s) →
  (pc' = FExited → s_descriptors sh = [] ∧ s_descriptors_closed sh = true) →
  exits_ok s → exits_ok (set_fetcher i pc' (on_shared (λ _, sh) s)).
Proof.
  intros Hi Hp Hd Hc He [Hf Hde Hw]. split; simpl.
  - intros [Heq|Hin]%elem_insert_inv; [by apply He|]. destruct (Hf Hin). by apply Hd.
  - intros Hin. destruct (Hde Hin) as [_ Hg]. by rewrite (fetcher_present _ _ _ Hi Hp) in Hg.
  - intros Hin. rewrite Hc. exact (Hw Hin).
Qed.

Lemma exits_decode s i pc pc' (sh : Shared W1 W2 T) :
  sy_decoders s !! i = Some pc → decode_exited pc = false →
  s_descriptors sh = s_descriptors (sy_shared s) →
  s_descriptors_closed sh = s_descriptors_closed (sy_shared s) →
  (s_fetched (sy_shared s) = [] → s_fetched sh = []) →
  (pc' = DExited → s_fetched sh = [] ∧ fetchers_gone s = true) →
  exits_ok s → exits_ok (set_decoder i pc' (on_shared (λ _, sh) s)).
Proof.
  intros Hi Hp Hd Hcl Hq He [Hf Hde Hw]. split; simpl.
  - rewrite Hd, Hcl. exact Hf.
  - intros [Heq|Hin]%elem_insert_inv; [by apply He|]. destruct (Hde Hin). split; [by apply Hq|done].
  - intros Hin. destruct (Hw Hin) as [_ Hg]. by rewrite (decoder_present _ _ _ Hi Hp) in Hg.
Qed.

Lemma exits_write s i pc' (sh : Shared W1 W2 T) :
  s_descriptors sh = s_descriptors (sy_shared s) →
  s_descriptors_closed sh = s_descriptors_closed (sy_shared s) →
  s_fetched sh = s_fetched (sy_shared s) →
  (s_commits (sy_shared s) = [] → s_commits sh = []) →
  (pc' = WExited → s_commits sh = [] ∧ decoders_gone s = true) →
  exits_ok s → exits_ok (set_writer i pc' (on_shared (λ _, sh) s)).
Proof.
  intros Hd Hcl Hfe Hq He [Hf Hde Hw]. split; simpl.
  - rewrite Hd, Hcl. exact Hf.
  - rewrite Hfe. exact Hde.
  - intros [Heq|Hin]%elem_insert_inv; [by apply He|]. destruct (Hw Hin). split; [by apply Hq|done].
Qed.

Lemma send_completion_cases msg s d s1 :
  send_completion cf msg s = Some (d, s1) →
  (d = false ∧ actor_done s = true ∧ s1 = s) ∨
  (d = true ∧ s1 = on_shared (λ sh, with_completions (s_completions sh ++ [msg]) sh) s).
Proof.
  unfold send_completion. destruct (actor_done s); [intros [= <- <-]; by left|].
  destruct (has_room cf _); [|done]. intros [= <- <-]. by right.
Qed.

(** The parts of [worker_progress] that a worker step has by its shape. *)
Lemma worker_moves s s' :
  sy_actor s' = sy_actor s → s_abort (sy_shared s') = s_abort (sy_shared s) → pools s' = pools s →
  (∃ ms, s_completions (sy_shared s') = s_completions (sy_shared s) ++ ms) →
  over s ∨ units s' = units s → (exits_ok s → failing s' ∨ exits_ok s') → work s' < work s →
  units s' ≤ units s → worker_progress s s'.
Proof.
  intros Ha Hab Hp Hm Hu He Hw Hle. split; try done. apply sound_mono; try done.
  destruct Hm as (ms & Hm). intros m Hin. rewrite Hm. apply elem_of_app. by left.
Qed.

Lemma no_messages s s' :
  s_completions (sy_shared s') = s_completions (sy_shared s) →
  ∃ ms, s_completions (sy_shared s') = s_completions (sy_shared s) ++ ms.
Proof. intros ->. exists []. by rewrite app_nil_r. Qed.

Lemma failing_sent s e :
  failing (on_shared (λ sh, with_completions (s_completions sh ++ [WCFatal e]) sh) s).
Proof. right. exists e. simpl. apply elem_of_app. right. by left. Qed.

(** The goals of [worker_moves] that the shape of the new state answers. *)
Ltac shape := first [ done | by unfold pools; simpl; rewrite length_insert
                    | by apply no_messages | by eexists ].

Lemma fetch_step_progress i arm s s' : fetch_step cf i arm s = Some s' → worker_progress s s'.
Proof.
  unfold fetch_step. destruct (sy_fetchers s !! i) as [pc|] eqn:Hi; [|done]. simpl.
  unfold abort_if. destruct pc as [|a|b|e r p|]; [destruct arm|destruct arm| | |]; try done.
  - unfold fetch_recv. destruct (s_descriptors (sy_shared s)) as [|a rest] eqn:Hq.
    + destruct (descriptors_closed s) eqn:Hcl; [|done]. intros [= <-].
      apply worker_moves; [shape..|right; weigh| |weigh|weigh]. intros Hok.
      unfold descriptors_closed in Hcl. rewrite (fetcher_present _ _ _ Hi eq_refl), orb_false_r in Hcl.
      apply orb_true_iff in Hcl as [Hcl|Hd]; [|by left; left; right]. right.
      by apply (exits_fetch s i FIdle FExited (sy_shared s)).
    + unfold enter_stage. destruct (attach_stage _ _ _) as [r b]. intros [= <-].
      apply worker_moves; [shape..|right; weigh| |weigh|weigh]. intros Hok. right.
      apply (exits_fetch s i FIdle); try done. by rewrite Hq.
  - destruct (s_abort _) eqn:Hab; [|done]. simpl. intros [= <-].
    apply worker_moves; [shape..|by left; left|by left; left; left|weigh|weigh].
  - unfold fetch_run. destruct (Source.fetch _ _ _) as [w1 [batch|e]]; intros [= <-];
      (apply worker_moves; [shape..|right; weigh| |weigh|weigh]); intros Hok; right;
      by apply (exits_fetch s i (FFetching a) _ (with_w1 w1 (sy_shared s))).
  - destruct (s_abort _) eqn:Hab; [|done]. simpl. intros [= <-].
    apply worker_moves; [shape..|by left; left|by left; left; left|weigh|weigh].
  - unfold fetch_send. destruct (fetched_closed s); [|destruct (has_room cf _); [|done]]; intros [= <-];
      (apply worker_moves; [shape..|right; weigh| |weigh|weigh]); intros Hok; right.
    + by apply (exits_fetch s i (FSending b) _ (sy_shared s)).
    + by apply (exits_fetch s i (FSending b) _ (with_fetched _ (sy_shared s))).
  - destruct (send_completion cf _ s) as [[d s1]|] eqn:Hsend; [|done]. simpl. intros [= <-].
    destruct (send_completion_cases _ _ _ _ Hsend) as [(-> & Hd & ->)|[-> ->]].
    + apply worker_moves; [shape..|by left; right|by left; left; right|weigh|weigh].
    + apply worker_moves; [shape..|right; weigh| |weigh|weigh]. intros _. left. right. exists e.
      simpl. apply elem_of_app. right. by left.
Qed.

(** *** Decode workers *)

(** A worker that reports and goes on, or leaves: it leaves only after a fatal
    report or when the actor has returned. *)
Lemma report_leaves msg d s s1 :
  send_completion cf msg s = Some (d, s1) → report_continues msg d = false → failing s1.
Proof.
  intros Hsend Hr. destruct (send_completion_cases _ _ _ _ Hsend) as [(-> & Hd & ->)|[-> ->]].
  - left. by right.
  - destruct msg as [rep|e]; [done|]. apply failing_sent.
Qed.

Lemma decode_step_progress i arm s s' : decode_step cf i arm s = Some s' → worker_progress s s'.
Proof.
  unfold decode_step. destruct (sy_decoders s !! i) as [pc|] eqn:Hi; [|done]. simpl.
  unfold abort_if. destruct pc as [|b|e seq|msg r p|r p|]; [destruct arm|destruct arm| | | |]; try done.
  - unfold decode_recv. destruct (s_fetched (sy_shared s)) as [|b rest] eqn:Hq.
    + destruct (fetched_closed s) eqn:Hcl; [|done]. intros [= <-].
      apply worker_moves; [shape..|right; weigh| |weigh|weigh]. intros Hok. right.
      unfold fetched_closed in Hcl. rewrite (decoder_present _ _ _ Hi eq_refl), orb_false_r in Hcl.
      by apply (exits_decode s i DIdle DExited (sy_shared s)).
    + unfold enter_stage. destruct (attach_stage _ _ _) as [r bud]. intros [= <-].
      apply worker_moves; [shape..|right; weigh| |weigh|weigh]. intros Hok. right.
      apply (exits_decode s i DIdle); try done. by rewrite Hq.
  - destruct (s_abort _) eqn:Hab; [|done]. simpl. intros [= <-].
    apply worker_moves; [shape..|by left; left|by left; left; left|weigh|weigh].
  - unfold decode_run.
    destruct (decode_one _ _ _ _ _ _ _) as [[r bud] [[commit range|range rows]|e]]; intros [= <-];
      (apply worker_moves; [shape..|right; weigh| |weigh|weigh]); intros Hok; right;
      by apply (exits_decode s i (DDecoding b) _ (with_capacity bud (s_permits (sy_shared s)) (sy_shared s))).
  - destruct (s_abort _) eqn:Hab; [|done]. simpl. intros [= <-].
    apply worker_moves; [shape..|by left; left|by left; left; left|weigh|weigh].
  - unfold decode_send. destruct (commits_closed s); [|destruct (has_room cf _); [|done]]; intros [= <-];
      (apply worker_moves; [shape..|right; weigh| |weigh|weigh]); intros Hok; right.
    + by apply (exits_decode s i (DSending e seq) _ (sy_shared s)).
    + by apply (exits_decode s i (DSending e seq) _ (with_commits _ (sy_shared s))).
  - destruct (send_completion cf _ s) as [[d s1]|] eqn:Hsend; [|done]. simpl.
    pose proof (report_leaves _ _ _ _ Hsend) as Hleave.
    destruct (send_completion_cases _ _ _ _ Hsend) as [(-> & Hd & ->)|[-> ->]];
      destruct (report_continues msg _); intros [= <-];
      (apply worker_moves; [shape..|by first [by left; right|right; weigh]| |weigh|weigh]); intros Hok.
    + left. left. by right.
    + left. by apply Hleave.
    + right. by apply (exits_decode s i (DReporting msg r p) _ (with_completions _ (sy_shared s))).
    + left. by apply Hleave.
  - intros [= <-]. apply worker_moves; [shape..|right; weigh| |weigh|weigh]. intros Hok. right.
    by apply (exits_decode s i (DFinishing r p) _ (release r (sy_shared s))).
Qed.

(** *** Writer workers *)

Lemma write_step_progress i arm sel s s' :
  is_u32 attempts → write_step cf i arm sel s = Some s' → worker_progress s s'.
Proof.
  intros Hm. unfold write_step. destruct (sy_writers s !! i) as [pc|] eqn:Hi; [|done]. simpl.
  unfold abort_if. destruct pc as [|e rp|msg r p|r p|]; [destruct arm| | | |]; try done.
  - unfold write_recv. destruct (s_commits (sy_shared s)) as [|e rest] eqn:Hq.
    + destruct (commits_closed s) eqn:Hcl; [|done]. intros [= <-].
      apply worker_moves; [shape..|right; weigh| |weigh|weigh]. intros Hok. right.
      unfold commits_closed in Hcl. rewrite (writer_present _ _ _ Hi eq_refl), orb_false_r in Hcl.
      by apply (exits_write s i WExited (sy_shared s)).
    + unfold enter_stage. destruct (attach_stage _ _ _) as [r bud]. intros [= <-].
      apply worker_moves; [shape..|right; weigh| |weigh|weigh]. intros Hok. right.
      apply exits_write; try done. by rewrite Hq.
  - destruct (s_abort _) eqn:Hab; [|done]. simpl. intros [= <-].
    apply worker_moves; [shape..|right; weigh|by left; left; left|weigh|weigh].
  - unfold write_run. assert (∀ rp', retry_work attempts rp' < retry_work attempts rp →
      ∀ w2 calls, worker_progress s (set_writer i (WWriting e rp')
        (on_shared (λ sh, log calls (with_w2 w2 sh)) s))) as Hretry.
    { intros rp' Hlt w2 calls. apply worker_moves; [shape..|right; weigh| |weigh|weigh]. intros Hok. right.
      by apply (exits_write s i _ (log calls (with_w2 w2 (sy_shared s)))). }
    destruct rp as [k|k err|k|a].
    4: { intros [= <-]. apply worker_moves; [shape..|right; weigh| |weigh|weigh]. intros Hok. right.
         by apply (exits_write s i _ (sy_shared s)). }
    all: destruct (_ && _); [done|];
      match goal with |- context [retry_step ?a ?b ?c ?sl ?pc ?w] =>
        pose proof (retry_work_decreases a b c sl pc w Hm ltac:(done)) as Hlt;
        destruct (retry_step a b c sl pc w) as [[rp' w2] call] end;
      intros [= <-]; by apply Hretry.
  - destruct (send_completion cf _ s) as [[d s1]|] eqn:Hsend; [|done]. simpl.
    pose proof (report_leaves _ _ _ _ Hsend) as Hleave.
    destruct (send_completion_cases _ _ _ _ Hsend) as [(-> & Hd & ->)|[-> ->]];
      destruct (report_continues msg _); intros [= <-];
      (apply worker_moves; [shape..|by first [by left; right|right; weigh]| |weigh|weigh]); intros Hok.
    + left. left. by right.
    + left. by apply Hleave.
    + right. by apply (exits_write s i _ (with_completions _ (sy_shared s))).
    + left. by apply Hleave.
  - intros [= <-]. apply worker_moves; [shape..|right; weigh| |weigh|weigh]. intros Hok. right.
    by apply (exits_write s i _ (release r (sy_shared s))).
Qed.

(** ** Steps of the actor *)

(** What the actor's computations leave alone. *)
Record kept s s' : Prop := {
  kt_pools : (sy_fetchers s', sy_decoders s', sy_writers s') = (sy_fetchers s, sy_decoders s, sy_writers s);
  kt_queues : (s_descriptors (sy_shared s'), s_fetched (sy_shared s'), s_commits (sy_shared s'),
               s_completions (sy_shared s')) =
              (s_descriptors (sy_shared s), s_fetched (sy_shared s), s_commits (sy_shared s),
               s_completions (sy_shared s));
  kt_tokens : (s_descriptors_closed (sy_shared s'), s_abort (sy_shared s')) =
              (s_descriptors_closed (sy_shared s), s_abort (sy_shared s));
}.

#[export] Instance kept_preorder : PreOrder kept.
Proof. split; [by intros s|]. intros s1 s2 s3 [] []. split; by etrans. Qed.

Lemma kept_frame s s' : frame s s' → kept s s'.
Proof. intros [Hf Hd Hw _ _ (w1 & tr & Hs)]. split; rewrite ?Hf, ?Hd, ?Hw, ?Hs; done. Qed.
Lemma kept_actor f s s' : kept s s' → kept s (on_actor f s').
Proof. intros []. by split. Qed.
Lemma kept_release rs s : kept s (on_shared (release_all rs) s).
Proof. split; [done|..]; simpl; by rewrite release_all_capacity. Qed.
Lemma kept_finish s s' r : kept s s' → kept s (finish r s').
Proof. apply kept_actor. Qed.

Lemma kept_weight w s s' : kept s s' → weigh_rest w s' = weigh_rest w s.
Proof. intros [[= Hf Hd Hw] [= H1' H2' H3' H4'] _]. rewrite !weigh_rest_eq. congruence. Qed.

Lemma kept_exits s s' : kept s s' → exits_ok s → exits_ok s'.
Proof.
  intros [[= Hf Hd Hw] [= H1' H2' H3' H4'] [= Hc _]] [].
  split; unfold fetchers_gone, decoders_gone in *; rewrite ?Hf, ?Hd, ?Hw, ?H1', ?H2', ?H3', ?Hc; done.
Qed.

(** What an actor step does to the invariants. *)
Record actor_progress s s' : Prop := {
  ap_abort : s_abort (sy_shared s') = s_abort (sy_shared s);
  ap_pools : pools s' = pools s;
  ap_balanced : balanced s → balanced s';
  ap_sound : sound s → sound s';
  ap_open : a_admission_open (sy_actor s) = false → a_admission_open (sy_actor s') = false;
  ap_work : a_admission_open (sy_actor s) = false → work s' < work s;
}.

Abbreviation pc_units := (wt_actor (unit_weights (T := T))).
Abbreviation pc_work := (wt_actor (work_weights (T := T) attempts)).

(** A step that leaves the rest alone and either ends the actor or accounts
    for the units it takes up. *)
Lemma actor_moves s s' :
  kept s s' → actor_done s = false →
  actor_done s' = true ∨
    a_in_flight (sy_actor s') + pc_units (a_pc (sy_actor s)) =
    a_in_flight (sy_actor s) + pc_units (a_pc (sy_actor s')) →
  (a_admission_open (sy_actor s) = false → a_admission_open (sy_actor s') = false) →
  (a_admission_open (sy_actor s) = false →
     pc_work (a_pc (sy_actor s')) < pc_work (a_pc (sy_actor s))) →
  actor_progress s s'.
Proof.
  intros Hk Hnd Hu Ho Hw. pose proof Hk as [[= Hf Hd Hwr] [= _ _ _ Hm] [= _ Hab]].
  assert (over s → over s') as Hover by (intros [Ha|Ha]; [left; congruence|congruence]).
  split; try done.
  - unfold pools. congruence.
  - intros [Hov|Hb]; [by left; apply Hover|]. destruct Hu as [Hd'|Hu]; [by left; right|]. right.
    unfold units in *. rewrite weigh_split in *. rewrite (kept_weight _ _ _ Hk). lia.
  - intros [[Hov|He]|Hok]; [by left; left; apply Hover| |by right; apply (kept_exits s)].
    left. right. by rewrite Hm.
  - intros Hop. unfold work. rewrite !weigh_split, (kept_weight _ _ _ Hk). specialize (Hw Hop). lia.
Qed.

(** The actor returns. *)
Lemma actor_returns s s' r :
  kept s s' → actor_done s = false → a_admission_open (sy_actor s') = a_admission_open (sy_actor s) →
  actor_progress s (finish r s').
Proof.
  intros Hk Hnd Ho. apply actor_moves; [by apply kept_finish|done|by left|simpl; congruence|].
  intros _. simpl. unfold actor_done in Hnd. destruct (a_pc (sy_actor s)); simpl; lia || done.
Qed.

Lemma actor_drops s s' r rs :
  kept s s' → actor_done s = false → a_admission_open (sy_actor s') = a_admission_open (sy_actor s) →
  actor_progress s (on_shared (release_all rs) (finish r s')).
Proof.
  intros Hk Hnd Ho. apply actor_moves; [etrans; [by apply (kept_finish _ s' r)|apply kept_release]|done|by left|simpl; congruence|].
  intros _. simpl. unfold actor_done in Hnd. destruct (a_pc (sy_actor s)); simpl; lia || done.
Qed.

Lemma actor_not_done s : (∀ r, a_pc (sy_actor s) ≠ ADone r) → actor_done s = false.
Proof. unfold actor_done. intros Hpc. destruct (a_pc (sy_actor s)) as [| | | |r]; try done. by destruct (Hpc r). Qed.

(** The poll: what it registers is what it takes up. *)
Lemma poll_progress b gates s :
  a_pc (sy_actor s) = APolling gates → safe_state cf b s → actor_progress s (poll_descriptors gates s).
Proof.
  intros Hpc (h & lost & Hsafe). assert (actor_done s = false) as Hnd by (unfold actor_done; by rewrite Hpc).
  unfold poll_descriptors. destruct (next_descriptors _ _ _) as [[src w1] polled] eqn:Hnext.
  set (s0 := on_shared (with_w1 w1) (on_actor (with_source src) s)).
  destruct polled as [[|d ds]|e]; [| |by apply actor_drops].
  { apply actor_moves; [by etrans; [|apply kept_release]|done| |done|];
      [right|intros _]; simpl; rewrite Hpc; simpl; lia. }
  set (n := length (d :: ds)). set (s1 := on_shared (release_all (ag_reservation <$> drop n gates)) s0).
  assert (keeps cf s s1) as Hks by (etrans; [by apply (keeps_ext cf s s0)|apply keeps_release]).
  pose proof (safe_keeps _ _ _ _ _ _ _ Hks (reflexivity _) Hsafe) as Hsafe1.
  assert (kept s s1) as Hk1 by (etrans; [|apply kept_release]; done).
  pose proof (register_all_safe cf b _ _ _ _ Hsafe1 (next_below_max _ _ _ _ _ Hnext)) as Hreg.
  pose proof (framed_for_each (d :: ds) register_one framed_register_one s1) as Hfr.
  destruct (next_descriptors_contiguous _ _ _ _ _ Hnext) as (Hlen & _).
  destruct (for_each (d :: ds) register_one s1) as [s2 [u|e]]; cbn [fst] in Hfr.
  - destruct Hreg as (h' & Hs2). pose proof (sf_in_flight _ _ _ _ _ Hs2) as Hi2.
    pose proof (sf_in_flight _ _ _ _ _ Hsafe) as Hi. rewrite length_app, length_fmap in Hi2.
    assert (length (zip (d :: ds) (take n gates)) = n) as Hz.
    { rewrite length_zip_with, length_take. unfold n in *. lia. }
    apply actor_moves; [by apply kept_actor; etrans; [exact Hk1|apply kept_frame]|done| | |].
    + right. cbn [sy_actor on_actor with_pc a_pc a_in_flight wt_actor unit_weights]. rewrite Hpc, Hi2, Hi.
      rewrite each_length, Hz. unfold n. lia.
    + intros Ho. simpl. by rewrite (fr_open _ _ Hfr).
    + intros _. cbn [sy_actor on_actor with_pc a_pc wt_actor work_weights]. rewrite Hpc.
      pose proof (each_mono (commit_work attempts + 7) (zip (d :: ds) (take n gates)) gates) as Hm.
      rewrite Hz in Hm. specialize (Hm Hlen). lia.
  - apply actor_drops; [by etrans; [exact Hk1|apply kept_frame]|done|]. by rewrite (fr_open _ _ Hfr).
Qed.

Lemma send_progress u rest s s' :
  a_pc (sy_actor s) = ASending (u :: rest) → send_descriptor cf u rest s = Some s' → actor_progress s s'.
Proof.
  intros Hpc. assert (actor_done s = false) as Hnd by (unfold actor_done; by rewrite Hpc).
  unfold send_descriptor. destruct u as [d g]. destruct (descriptors_closed s) eqn:Hcl.
  { intros [= <-]. by apply (actor_drops s s _ (ag_reservation g :: ((λ x, ag_reservation x.2) <$> rest))). }
  destruct (has_room cf _); [|done]. intros [= <-].
  assert (s_descriptors_closed (sy_shared s) = false) as Hopen.
  { unfold descriptors_closed in Hcl. by destruct (s_descriptors_closed _). }
  split; try done.
  - intros [[Ho|Ho]|Hb]; [by left; left|congruence|]. right. simpl. rewrite Hb. weigh.
  - intros [[[Ho|Ho]|He]|Hok]; [by left; left; left|congruence|by left; right|].
    right. destruct Hok as [Hf Hd Hw]. split; simpl; [|exact Hd|exact Hw].
    intros Hin. destruct (Hf Hin). congruence.
  - intros _. weigh.
Qed.

(** The completion arm settles one unit, or the actor returns. *)
Lemma completion_progress b s s' :
  a_pc (sy_actor s) = ALoop → completion_arm cf s = Some s' → safe_state cf b s → actor_progress s s'.
Proof.
  intros Hpc Harm Hs. assert (actor_done s = false) as Hnd by (unfold actor_done; by rewrite Hpc).
  unfold completion_arm in Harm. destruct (s_completions (sy_shared s)) as [|m rest] eqn:Hm; simpl in Harm.
  { destruct (completion_senders_gone s); [|done]. injection Harm as <-. by apply actor_returns. }
  set (s0 := on_shared (with_completions rest) s) in *.
  assert (∀ s1 r, kept s0 s1 → a_admission_open (sy_actor s1) = a_admission_open (sy_actor s) →
            actor_progress s (finish r s1)) as Hreturn.
  { intros s1 r Hk Ho. pose proof (kept_finish _ _ r Hk) as Hk1. pose proof Hk1 as [[= Hf Hd Hw] _ [= _ Hab]].
    split; [done|unfold pools; simpl in *; congruence|by left; right|by left; left; right|simpl; congruence|].
    intros _. unfold work. rewrite weigh_split, (kept_weight _ _ _ Hk1). simpl.
    rewrite weigh_rest_eq. unfold s0. weigh. }
  destruct m as [rep|e]; [|injection Harm as <-; by apply Hreturn].
  destruct (commit_popped cf b s rep rest Hm Hs) as [_ Hi]. fold s0 in Hi.
  pose proof (framed_on_committed cf rep s0) as Hfr.
  destruct (on_committed cf rep s0) as [s1 [u|e]]; injection Harm as <-; simpl in Hi, Hfr;
    [|by apply Hreturn; [apply kept_frame|apply (fr_open _ _ Hfr)]].
  pose proof (kept_frame _ _ Hfr) as Hk. pose proof Hk as [[= Hf Hd Hw] [= _ _ _ Hc] [= Hcl Hab]].
  assert (∀ w, weigh w s = weigh w s1 + wt_message w) as Hweigh.
  { intros w. rewrite !weigh_split, (fr_pc _ _ Hfr), (kept_weight _ _ _ Hk), !weigh_rest_eq, Hm.
    simpl. rewrite each_cons. lia. }
  split; [exact Hab|unfold pools; congruence| | |by rewrite (fr_open _ _ Hfr)|].
  - intros [[Ho|Ho]|Hb]; [left; left; congruence|congruence|]. right.
    unfold units in *. rewrite Hweigh in Hb. cbn [wt_message unit_weights] in Hb. lia.
  - intros [[[Ho|Ho]|(e & He)]|Hok]; [left; left; left; congruence|congruence| |].
    + left. right. exists e. rewrite Hc. simpl. rewrite Hm in He. by apply elem_of_cons in He as [|].
    + right. apply (kept_exits s0 s1 Hk). by destruct Hok.
  - intros _. unfold work. rewrite Hweigh. cbn [wt_message work_weights]. lia.
Qed.

Lemma select_progress b p s s' :
  a_pc (sy_actor s) = ALoop → actor_select cf p s = Some s' → safe_state cf b s → actor_progress s s'.
Proof.
  intros Hpc. assert (actor_done s = false) as Hnd by (unfold actor_done; by rewrite Hpc).
  unfold actor_select. destruct (select_arm _ _) as [[]|] eqn:Hsel; [| | | |done].
  - destruct (s_abort _); [|done]. intros [= <-] _. by apply actor_returns.
  - destruct (s_shutdown _); [|done]. intros [= <-] _.
    assert (a_admission_open (sy_actor s) = true) as Ho.
    { unfold select_arm in Hsel. destruct (saw_abort p); [done|].
      destruct (a_admission_open _); [done|]. rewrite !andb_false_r in Hsel. by destruct (_ && _). }
    split; try done; [|congruence].
    intros [Hf|[Hf Hd Hw]]; [by left|]. right. split; simpl; [|exact Hd|exact Hw].
    intros Hin. by destruct (Hf Hin).
  - by apply completion_progress.
  - assert (a_admission_open (sy_actor s) = true) as Ho.
    { unfold select_arm in Hsel. destruct (saw_abort p); [done|]. destruct (a_admission_open _); [done|].
      rewrite !andb_false_r in Hsel. by destruct (_ && _). }
    destruct (admission_attempt _ _) as [[g sh]|] eqn:Hadm; [|done].
    destruct (open_gates cf g sh) as [gates sh'] eqn:Hopen. intros [= <-] _.
    destruct (open_gates_rsteps _ _ _ _ _ [] Hopen) as [_ Hsh'].
    assert (∃ bud p', sh = with_capacity bud p' (sy_shared s)) as (bud & p' & ->).
    { unfold admission_attempt in Hadm. destruct (0 <? _); [|done].
      destruct (reserve _ _) as [[r|] bud]; [|done]. simplify_eq. eauto. }
    apply actor_moves; [|done|by right; simpl; rewrite Hpc|simpl; congruence|congruence].
    rewrite Hsh'. by split.
Qed.

Lemma actor_step_progress b p s s' :
  actor_step cf p s = Some s' → safe_state cf b s → actor_progress s s'.
Proof.
  unfold actor_step. destruct (a_pc (sy_actor s)) as [|gates| |[|u us]|r] eqn:Hpc; [| | | | |done].
  - destruct (_ && _); [|by apply select_progress]. intros [= <-] _.
    assert (actor_done s = false) as Hnd by (unfold actor_done; by rewrite Hpc).
    unfold drain_finish. destruct (negb _); [|by apply actor_returns; [apply kept_actor|..]].
    pose proof (framed_flush s) as Hf. destruct (flush_logged s) as [s1 [u|e]]; cbn [fst] in Hf;
      (apply actor_returns; [by repeat apply kept_actor; apply kept_frame|done|apply (fr_open _ _ Hf)]).
  - intros [= <-]. by apply poll_progress.
  - intros [= <-] _. apply actor_moves; [by apply kept_actor|unfold actor_done; by rewrite Hpc| |done|].
    + right. simpl. by rewrite Hpc.
    + intros _. simpl. rewrite Hpc. simpl. lia.
  - intros [= <-] _. apply actor_moves; [by apply kept_actor|unfold actor_done; by rewrite Hpc| |done|].
    + right. simpl. by rewrite Hpc.
    + intros _. simpl. rewrite Hpc. simpl. rewrite each_nil. lia.
  - intros Hs _. by apply (send_progress u us).
Qed.

(** ** Every step *)

(** The steps of the tasks; the others are the environment's. *)
Definition is_task (ev : SysEvent (W1 := W1) (W2 := W2)) : bool :=
  match ev with
  | EvActor _ | EvFetch _ _ | EvDecode _ _ | EvWrite _ _ _ => true
  | EvShutdown | EvSupervisorAbort | EvSourceWorld _ | EvSinkWorld _ => false
  end.

(** Nothing more will be admitted. *)
Definition draining s : bool := negb (a_admission_open (sy_actor s)) || actor_done s.

Record progress_inv s : Prop := { pi_balanced : balanced s; pi_sound : sound s }.

Lemma environment_progress ev s s' :
  is_task ev = false → exec cf ev s = Some s' →
  (progress_inv s → progress_inv s') ∧ pools s' = pools s ∧ work s' = work s ∧ draining s' = draining s.
Proof.
  intros Ht Hex.
  assert (∃ f, s' = on_shared f s ∧ ∀ sh, (s_abort sh = true → s_abort (f sh) = true) ∧
    (s_descriptors (f sh), s_descriptors_closed (f sh), s_fetched (f sh), s_commits (f sh), s_completions (f sh)) =
    (s_descriptors sh, s_descriptors_closed sh, s_fetched sh, s_commits sh, s_completions sh)) as (f & -> & Hf).
  { destruct ev; simpl in Ht, Hex; try done.
    - injection Hex as <-. eexists. by split.
    - unfold supervisor_abort in Hex. destruct (a_pc _) as [| | | |[|]]; try done. injection Hex as <-.
      eexists. split; [done|]. by intros sh.
    - injection Hex as <-. eexists. by split.
    - injection Hex as <-. eexists. by split. }
  destruct (Hf (sy_shared s)) as [Ha [= H1' H2' H3' H4' H5']]. split_and!; [|done| |done].
  - intros [Hb Hs]. split.
    + destruct Hb as [[Ho|Ho]|Hb]; [left; left; by apply Ha|by left; right|]. right.
      unfold units, weigh in *. simpl. by rewrite H1', H3', H4', H5'.
    + destruct Hs as [[[Ho|Ho]|He]|[Hfe Hde Hwr]]; [left; left; left; by apply Ha|by left; left; right| |].
      * left. right. simpl. by rewrite H5'.
      * right. split; unfold fetchers_gone, decoders_gone in *; simpl; by rewrite ?H1', ?H2', ?H3', ?H4'.
  - unfold work, weigh. simpl. by rewrite H1', H3', H4', H5'.
Qed.

Lemma worker_draining s s' : sy_actor s' = sy_actor s → draining s' = draining s.
Proof. unfold draining, actor_done. by intros ->. Qed.

Lemma worker_inv s s' : worker_progress s s' → progress_inv s → progress_inv s'.
Proof.
  intros [Ha Hab _ _ Hu _ Hs _] [Hb Hsd]. split; [|by apply Hs].
  assert (over s → over s') as Hover.
  { unfold over, actor_done. by rewrite Ha, Hab. }
  destruct Hb as [Ho|Hb]; [by left; apply Hover|]. destruct Hu as [Ho|Hu]; [by left; apply Hover|].
  right. by rewrite Ha, Hu.
Qed.

(** One step of a task: the invariants are kept, and while nothing is admitted
    the work decreases. *)
Lemma task_progress b ev s s' :
  is_u32 attempts → is_task ev = true → exec cf ev s = Some s' → safe_state cf b s →
  (progress_inv s → progress_inv s') ∧ pools s' = pools s ∧
  (draining s = true → work s' < work s ∧ draining s' = true).
Proof.
  intros Hm Ht Hex Hs.
  assert (worker_progress s s' → (progress_inv s → progress_inv s') ∧ pools s' = pools s ∧
    (draining s = true → work s' < work s ∧ draining s' = true)) as Hworker.
  { intros Hw. split_and!; [by apply worker_inv|apply Hw|]. intros Hd. split; [apply Hw|].
    by rewrite (worker_draining s s') by apply Hw. }
  destruct ev as [| |p|i arm|i arm|i arm sel|f|f]; try done; simpl in Hex.
  - destruct (actor_step_progress _ _ _ _ Hex Hs) as [Hab Hp Hb Hsd Ho Hw].
    split_and!; [intros []; split; auto|done|]. intros Hd.
    assert (a_admission_open (sy_actor s) = false) as Hop.
    { unfold draining in Hd. apply orb_true_iff in Hd as [Hd|Hd]; [by apply negb_true_iff|].
      unfold actor_done, actor_step in *. by destruct (a_pc (sy_actor s)). }
    split; [by apply Hw|]. unfold draining. by rewrite (Ho Hop).
  - by apply Hworker, (fetch_step_progress i arm).
  - by apply Hworker, (decode_step_progress i arm).
  - by apply Hworker, (write_step_progress i arm sel).
Qed.

(** ** A scheduler

    It tries the tasks in order, each with an outcome of its await that needs
    no one else: a worker's own arm, a call of the sink that returns. *)

Definition abort_poll : Polls :=
  {| saw_abort := true; saw_shutdown := false; saw_completion := false; saw_gate := false |}.
Definition completion_poll : Polls :=
  {| saw_abort := false; saw_shutdown := false; saw_completion := true; saw_gate := false |}.
Definition gate_poll : Polls :=
  {| saw_abort := false; saw_shutdown := false; saw_completion := false; saw_gate := true |}.

Definition tasks s : list (SysEvent (W1 := W1) (W2 := W2)) :=
  (EvActor <$> [abort_poll; completion_poll; gate_poll]) ++
  ((λ i, EvFetch i ArmWork) <$> seq 0 (length (sy_fetchers s))) ++
  ((λ i, EvDecode i ArmWork) <$> seq 0 (length (sy_decoders s))) ++
  ((λ i, EvWrite i ArmWork (Proceed false)) <$> seq 0 (length (sy_writers s))).

Definition next_task s : option (Sys C F W1 W2 T) := head (omap (λ ev, exec cf ev s) (tasks s)).

Fixpoint drain (fuel : nat) s : Sys C F W1 W2 T :=
  match fuel with
  | O => s
  | S fuel => match next_task s with Some s' => drain fuel s' | None => s end
  end.

(** The actor has returned and every worker has left: the joins return. *)
Definition ended s : bool := actor_done s && fetchers_gone s && decoders_gone s && writers_gone s.

Definition stuck s : Prop := ∀ ev, ev ∈ tasks s → exec cf ev s = None.

Lemma next_task_some s s' :
  next_task s = Some s' → ∃ ev, ev ∈ tasks s ∧ is_task ev = true ∧ exec cf ev s = Some s'.
Proof.
  unfold next_task. intros Hh. apply head_Some_elem_of in Hh.
  apply list_elem_of_omap in Hh as (ev & Hev & Hex). exists ev. split_and!; [done| |done].
  unfold tasks in Hev. rewrite !elem_of_app, !list_elem_of_fmap in Hev.
  by destruct Hev as [(p & -> & _)|[(i & -> & _)|[(i & -> & _)|(i & -> & _)]]].
Qed.

Lemma next_task_none s : next_task s = None → stuck s.
Proof.
  unfold next_task. intros Hh ev Hev. destruct (exec cf ev s) as [s'|] eqn:Hex; [|done].
  assert (s' ∈ omap (λ ev, exec cf ev s) (tasks s)) as Hin by (apply list_elem_of_omap; eauto).
  destruct (omap _ _); [by apply elem_of_nil in Hin|done].
Qed.

Lemma elem_fmap_seq {A B} (f : nat → B) (l : list A) i x :
  l !! i = Some x → f i ∈ f <$> seq 0 (length l).
Proof.
  intros Hi%lookup_lt_Some. apply list_elem_of_fmap_2, elem_of_seq. lia.
Qed.

Lemma stuck_actor s p : stuck s → p ∈ [abort_poll; completion_poll; gate_poll] → actor_step cf p s = None.
Proof.
  intros Hst Hp. apply (Hst (EvActor p)). apply elem_of_app. left. by apply list_elem_of_fmap_2.
Qed.
Lemma stuck_fetch s i pc : stuck s → sy_fetchers s !! i = Some pc → fetch_step cf i ArmWork s = None.
Proof.
  intros Hst Hi. apply (Hst (EvFetch i ArmWork)). unfold tasks. rewrite !elem_of_app.
  right; left. exact (elem_fmap_seq (λ i, EvFetch i ArmWork) _ i pc Hi).
Qed.
Lemma stuck_decode s i pc : stuck s → sy_decoders s !! i = Some pc → decode_step cf i ArmWork s = None.
Proof.
  intros Hst Hi. apply (Hst (EvDecode i ArmWork)). unfold tasks. rewrite !elem_of_app.
  right; right; left. exact (elem_fmap_seq (λ i, EvDecode i ArmWork) _ i pc Hi).
Qed.
Lemma stuck_write s i pc :
  stuck s → sy_writers s !! i = Some pc → write_step cf i ArmWork (Proceed false) s = None.
Proof.
  intros Hst Hi. apply (Hst (EvWrite i ArmWork (Proceed false))). unfold tasks. rewrite !elem_of_app.
  right; right; right. exact (elem_fmap_seq (λ i, EvWrite i ArmWork (Proceed false)) _ i pc Hi).
Qed.

(** ** A stuck pipeline has ended *)

(** The senders of the stages always find room ([sends_have_room]). *)
Record roomy s : Prop := {
  rm_descriptors : ∀ u rest, a_pc (sy_actor s) = ASending (u :: rest) →
    has_room cf (s_descriptors (sy_shared s)) = true;
  rm_fetched : ∀ i b, sy_fetchers s !! i = Some (FSending b) → has_room cf (s_fetched (sy_shared s)) = true;
  rm_commits : ∀ i e seq, sy_decoders s !! i = Some (DSending e seq) →
    has_room cf (s_commits (sy_shared s)) = true;
}.

Lemma room_nil {A} : has_room cf (@nil A) = true.
Proof. unfold has_room, channel_depth. apply N.ltb_lt. simpl. lia. Qed.

(** The completion of a report does not wait. *)
Definition mailbox_free s : Prop := actor_done s = true ∨ s_completions (sy_shared s) = [].

Lemma send_completion_free msg s : mailbox_free s → is_Some (send_completion cf msg s).
Proof.
  unfold send_completion. intros [-> | ->]; [by eexists|]. destruct (actor_done s); [by eexists|].
  rewrite room_nil. by eexists.
Qed.

Lemma stuck_fetcher s i pc :
  stuck s → roomy s → mailbox_free s → sy_fetchers s !! i = Some pc →
  pc = FExited ∨ (pc = FIdle ∧ s_descriptors (sy_shared s) = [] ∧ descriptors_closed s = false).
Proof.
  intros Hst Hr Hm Hi. pose proof (stuck_fetch _ _ _ Hst Hi) as Hno. unfold fetch_step in Hno.
  rewrite Hi in Hno. simpl in Hno. destruct pc as [|a|b|e r p|]; [| | | |by left].
  - right. unfold fetch_recv in Hno. destruct (s_descriptors _) as [|a rest].
    + by destruct (descriptors_closed s).
    + by destruct (enter_stage _ _ _).
  - unfold fetch_run in Hno. by destruct (Source.fetch _ _ _) as [w1 [batch|e]].
  - unfold fetch_send in Hno. rewrite (rm_fetched _ Hr _ _ Hi) in Hno. by destruct (fetched_closed s).
  - destruct (send_completion_free (WCFatal e) s Hm) as [[d s1] Hs]. by rewrite Hs in Hno.
Qed.

Lemma stuck_decoder s i pc :
  stuck s → roomy s → mailbox_free s → sy_decoders s !! i = Some pc →
  pc = DExited ∨ (pc = DIdle ∧ s_fetched (sy_shared s) = [] ∧ fetched_closed s = false).
Proof.
  intros Hst Hr Hm Hi. pose proof (stuck_decode _ _ _ Hst Hi) as Hno. unfold decode_step in Hno.
  rewrite Hi in Hno. simpl in Hno. destruct pc as [|b|e seq|msg r p|r p|]; [| | | |done|by left].
  - right. unfold decode_recv in Hno. destruct (s_fetched _) as [|b rest].
    + by destruct (fetched_closed s).
    + by destruct (enter_stage _ _ _).
  - unfold decode_run in Hno.
    by destruct (decode_one _ _ _ _ _ _ _) as [[r bud] [[commit range|range rows]|e]].
  - unfold decode_send in Hno. rewrite (rm_commits _ Hr _ _ _ Hi) in Hno. by destruct (commits_closed s).
  - destruct (send_completion_free msg s Hm) as [[d s1] Hs]. by rewrite Hs in Hno.
Qed.

Lemma stuck_writer s i pc :
  stuck s → mailbox_free s → sy_writers s !! i = Some pc →
  pc = WExited ∨ (pc = WIdle ∧ s_commits (sy_shared s) = [] ∧ commits_closed s = false).
Proof.
  intros Hst Hm Hi. pose proof (stuck_write _ _ _ Hst Hi) as Hno. unfold write_step in Hno.
  rewrite Hi in Hno. simpl in Hno. destruct pc as [|e rp|msg r p|r p|]; [| | |done|by left].
  - right. unfold write_recv in Hno. destruct (s_commits _) as [|e rest].
    + by destruct (commits_closed s).
    + by destruct (enter_stage _ _ _).
  - unfold write_run in Hno. destruct rp as [k|k err|k|a]; simpl in Hno; try done.
    + by destruct (sink_write _ _ _).
    + by destruct (check_committed _ _ _).
  - destruct (send_completion_free msg s Hm) as [[d s1] Hs]. by rewrite Hs in Hno.
Qed.

(** When the actor has returned, the pools empty one after the other. *)
Lemma stuck_done s : stuck s → roomy s → actor_done s = true → ended s = true.
Proof.
  intros Hst Hr Hd. assert (mailbox_free s) as Hm by by left.
  assert (fetchers_gone s = true) as Hf.
  { apply forallb_forall. intros pc [i Hi]%list_elem_of_In%list_elem_of_lookup_1.
    destruct (stuck_fetcher _ _ _ Hst Hr Hm Hi) as [->|(-> & _ & Hc)]; [done|].
    unfold descriptors_closed in Hc. by rewrite Hd, orb_true_r in Hc. }
  assert (decoders_gone s = true) as Hde.
  { apply forallb_forall. intros pc [i Hi]%list_elem_of_In%list_elem_of_lookup_1.
    destruct (stuck_decoder _ _ _ Hst Hr Hm Hi) as [->|(-> & _ & Hc)]; [done|].
    unfold fetched_closed in Hc. by rewrite Hf in Hc. }
  unfold ended. rewrite Hd, Hf, Hde. apply forallb_forall.
  intros pc [i Hi]%list_elem_of_In%list_elem_of_lookup_1.
  destruct (stuck_writer _ _ _ Hst Hm Hi) as [->|(-> & _ & Hc)]; [done|].
  unfold commits_closed in Hc. by rewrite Hde in Hc.
Qed.

Definition manned s : Prop := (0 < length (sy_fetchers s))%nat ∧ (0 < length (sy_decoders s))%nat ∧
  (0 < length (sy_writers s))%nat.

Lemma concat_nil {A B} (f : A → list B) l : Forall (λ x, f x = []) l → concat (f <$> l) = [].
Proof. induction 1 as [|x l Hx _ IH]; simpl; [done|]. by rewrite Hx. Qed.
Lemma sum_N_zero {A} (g : A → N) l : Forall (λ x, g x = 0) l → sum_N (g <$> l) = 0.
Proof. induction 1 as [|x l Hx _ IH]; simpl; [done|]. unfold fmap in IH. lia. Qed.

Lemma head_member {A} (l : list A) : (0 < length l)%nat → ∃ x, l !! 0%nat = Some x.
Proof. destruct l as [|x l]; simpl; [lia|eauto]. Qed.

(** Stuck with nothing to settle, the stages are empty. *)
Lemma stuck_empty s :
  stuck s → roomy s → s_completions (sy_shared s) = [] → exits_ok s → manned s →
  weigh_rest unit_weights s = 0 ∧ held_rest s = [].
Proof.
  intros Hst Hr Hm [Hfe Hde Hwr] (H1' & H2' & H3'). assert (mailbox_free s) as Hfree by by right.
  assert (s_descriptors (sy_shared s) = []) as Hd.
  { destruct (head_member _ H1') as [pc Hi].
    destruct (stuck_fetcher _ _ _ Hst Hr Hfree Hi) as [->|(_ & Hq & _)]; [|done].
    apply Hfe. by eapply list_elem_of_lookup_2. }
  assert (s_fetched (sy_shared s) = []) as Hf.
  { destruct (head_member _ H2') as [pc Hi].
    destruct (stuck_decoder _ _ _ Hst Hr Hfree Hi) as [->|(_ & Hq & _)]; [|done].
    apply Hde. by eapply list_elem_of_lookup_2. }
  assert (s_commits (sy_shared s) = []) as Hc.
  { destruct (head_member _ H3') as [pc Hi].
    destruct (stuck_writer _ _ _ Hst Hfree Hi) as [->|(_ & Hq & _)]; [|done].
    apply Hwr. by eapply list_elem_of_lookup_2. }
  assert (Forall (λ pc, pc = FExited ∨ pc = FIdle) (sy_fetchers s)) as Fp.
  { apply Forall_lookup. intros i pc Hi.
    destruct (stuck_fetcher _ _ _ Hst Hr Hfree Hi) as [->|(-> & _)]; tauto. }
  assert (Forall (λ pc, pc = DExited ∨ pc = DIdle) (sy_decoders s)) as Dp.
  { apply Forall_lookup. intros i pc Hi.
    destruct (stuck_decoder _ _ _ Hst Hr Hfree Hi) as [->|(-> & _)]; tauto. }
  assert (Forall (λ pc, pc = WExited ∨ pc = WIdle) (sy_writers s)) as Wp.
  { apply Forall_lookup. intros i pc Hi.
    destruct (stuck_writer _ _ _ Hst Hfree Hi) as [->|(-> & _)]; tauto. }
  split.
  - rewrite weigh_rest_eq, Hd, Hf, Hc, Hm, !each_nil.
    rewrite !sum_N_zero; [done|..]; eapply Forall_impl; [exact Wp| |exact Dp| |exact Fp|];
      by intros pc [->| ->].
  - unfold held_rest. rewrite Hd, Hf, Hc.
    rewrite !concat_nil; [done|..]; eapply Forall_impl; [exact Wp| |exact Dp| |exact Fp|];
      by intros pc [->| ->].
Qed.

(** An empty pipeline has a permit and room for one estimate. *)
Lemma admission_when_empty s :
  resources_inv (estimated_max_batch_bytes (bp cf)) (fault_limit (bp cf))
    (channel_depth cf) (max_inflight_bytes (bp cf)) (res_of s) →
  estimated_max_batch_bytes (bp cf) ≤ max_inflight_bytes (bp cf) → held_res s = [] →
  is_Some (admission_attempt cf (sy_shared s)).
Proof.
  intros [Hp [Hin _] Hcap _] Hest Hheld. cbn [res_of res_permits res_held res_budget] in *.
  rewrite Hheld in Hp, Hin. simpl in Hp, Hin. unfold admission_attempt.
  assert (0 < s_permits (sy_shared s)) as Hpos by (unfold channel_depth in Hp; lia).
  apply N.ltb_lt in Hpos. rewrite Hpos. unfold reserve.
  destruct (_ =? 0); [by eexists|].
  assert (sat_add64 (in_flight (s_budget (sy_shared s))) (estimated_max_batch_bytes (bp cf)) ≤
          capacity (s_budget (sy_shared s))) as Hfits%N.leb_le.
  { rewrite Hin, Hcap. change (wrap64 (held_sum [])) with 0. unfold sat_add64. lia. }
  rewrite Hfits. by eexists.
Qed.

(** The actor before its return: it waits in its loop, for a completion that
    the pipeline owes it or for a gate it can have. *)
Lemma stuck_ended s :
  resources_inv (estimated_max_batch_bytes (bp cf)) (fault_limit (bp cf))
    (channel_depth cf) (max_inflight_bytes (bp cf)) (res_of s) →
  estimated_max_batch_bytes (bp cf) ≤ max_inflight_bytes (bp cf) →
  roomy s → manned s → progress_inv s → stuck s → ended s = true.
Proof.
  intros Hres Hest Hr Hman [Hbal Hsound] Hst. destruct (actor_done s) eqn:Hnd; [by apply stuck_done|].
  exfalso. pose proof (stuck_actor s abort_poll Hst ltac:(left)) as Hab.
  pose proof (stuck_actor s completion_poll Hst ltac:(right; left)) as Hco.
  pose proof (stuck_actor s gate_poll Hst ltac:(right; right; left)) as Hga.
  unfold actor_step, actor_done in Hab, Hco, Hga, Hnd.
  destruct (a_pc (sy_actor s)) as [|gates| |[|u us]|r] eqn:Hpc; try done.
  2: { unfold send_descriptor in Hab. destruct u as [d g]. rewrite (rm_descriptors _ Hr _ _ Hpc) in Hab.
       by destruct (descriptors_closed s). }
  destruct (negb (a_admission_open (sy_actor s)) && (a_in_flight (sy_actor s) =? 0)) eqn:Hdrain; [done|].
  unfold actor_select, select_arm in Hab, Hco, Hga. simpl in Hab, Hco, Hga.
  destruct (s_abort (sy_shared s)) eqn:Habort; [done|].
  assert (¬ over s) as Hover.
  { intros [Ho|Ho]; [congruence|]. unfold actor_done in Ho. by rewrite Hpc in Ho. }
  destruct Hbal as [Ho|Hbal]; [done|]. unfold units in Hbal. rewrite weigh_split, Hpc in Hbal. simpl in Hbal.
  assert (s_completions (sy_shared s) = []) as Hm.
  { destruct (s_completions (sy_shared s)) as [|m rest] eqn:Hm; [done|]. exfalso.
    assert (0 < a_in_flight (sy_actor s)) as Hpos.
    { rewrite Hbal, weigh_rest_eq, Hm, each_cons. simpl. lia. }
    apply N.ltb_lt in Hpos. rewrite Hpos in Hco. unfold completion_arm in Hco. rewrite Hm in Hco.
    destruct m as [rep|e]; [|done]. by destruct (on_committed _ _ _) as [s1 [u|e]]. }
  assert (exits_ok s) as Hex.
  { destruct Hsound as [[Ho|(e & He)]|Hex]; [done| |done]. rewrite Hm in He. by apply elem_of_nil in He. }
  destruct (stuck_empty s Hst Hr Hm Hex Hman) as [Hu Hh]. rewrite Hu in Hbal. rewrite Hbal in Hdrain.
  destruct (a_admission_open (sy_actor s)); [|done].
  destruct (admission_when_empty s Hres Hest) as [[g sh] Hadm].
  { rewrite held_res_split, Hpc, Hh. done. }
  rewrite Hadm in Hga. by destruct (open_gates cf g sh).
Qed.

(** ** Runs *)

Lemma exec_progress b ev s s' :
  is_u32 attempts → exec cf ev s = Some s' → safe_state cf b s →
  (progress_inv s → progress_inv s') ∧ pools s' = pools s ∧
  (draining s = true → work s' + (if is_task ev then 1 else 0) ≤ work s ∧ draining s' = true).
Proof.
  intros Hm Hex Hs. destruct (is_task ev) eqn:Ht.
  - destruct (task_progress b ev s s' Hm Ht Hex Hs) as (Hi & Hp & Hw). split_and!; [done|done|].
    intros Hd. destruct (Hw Hd). split; [lia|done].
  - destruct (environment_progress ev s s' Ht Hex) as (Hi & Hp & Hw & Hd). split_and!; [done|done|].
    rewrite Hw, Hd. intros ->. split; [lia|done].
Qed.

(** The number of task steps of a schedule. *)
Definition task_steps (evs : list (SysEvent (W1 := W1) (W2 := W2))) : N :=
  sum_N ((λ ev, if is_task ev then 1 else 0) <$> evs).

Lemma exec_all_progress b evs : ∀ s s',
  is_u32 attempts → exec_all cf evs s = Some s' → safe_state cf b s →
  (progress_inv s → progress_inv s') ∧ pools s' = pools s ∧
  (draining s = true → work s' + task_steps evs ≤ work s ∧ draining s' = true).
Proof.
  induction evs as [|ev evs IH]; intros s s' Hm Hrun Hs; simpl in Hrun.
  { injection Hrun as <-. split_and!; try done. intros Hd. split; [unfold task_steps; simpl; lia|done]. }
  destruct (exec cf ev s) as [s1|] eqn:Hev; [|done]. simpl in Hrun.
  destruct (exec_progress b ev s s1 Hm Hev Hs) as (Hi & Hp & Hw).
  destruct (IH s1 s' Hm Hrun (exec_safe cf b _ _ _ Hev Hs)) as (Hi' & Hp' & Hw').
  split_and!; [by auto|congruence|]. intros Hd. destruct (Hw Hd) as [Hle Hd1].
  destruct (Hw' Hd1) as [Hle' Hd2]. split; [|done]. unfold task_steps in *. rewrite sum_N_fmap_cons. lia.
Qed.

(** The scheduler runs the drain to a state where nothing can step. *)
Lemma drain_stuck b fuel : ∀ s,
  is_u32 attempts → safe_state cf b s → draining s = true → (N.to_nat (work s) ≤ fuel)%nat →
  (∃ evs, exec_all cf evs s = Some (drain fuel s)) ∧ stuck (drain fuel s).
Proof.
  induction fuel as [|fuel IH]; intros s Hm Hs Hd Hw; simpl.
  all: destruct (next_task s) as [s1|] eqn:Hn; [|split; [by exists []|by apply next_task_none]].
  all: destruct (next_task_some _ _ Hn) as (ev & _ & Ht & Hev);
    destruct (task_progress b ev s s1 Hm Ht Hev Hs) as (_ & _ & Hlt); destruct (Hlt Hd) as [Hlt' Hd'].
  - lia.
  - destruct (IH s1 Hm (exec_safe cf b _ _ _ Hev Hs) Hd' ltac:(lia)) as [[evs Hrun] Hst].
    split; [|done]. exists (ev :: evs). simpl. by rewrite Hev.
Qed.
End progress.

Section run_progress.
Context {C F W1 D K W2 T : Type}.
Context `{ConsumerLaws C F W1} `{TypedRecords T} `{Decoder D T} `{Sink K W2 T}.
Implicit Types s : Sys C F W1 W2 T.

Lemma build_valid (b : RuntimeBuilder C F D K) rt :
  build b = Ok rt → valid_backpressure (bp (run_config rt)) = true.
Proof.
  unfold build. destruct (rb_source b) as [source|]; [|done]. simpl.
  destruct (rb_decoder b) as [decoder|]; [|done]. simpl.
  destruct (rb_sink b) as [sink|]; [|done]. simpl.
  destruct (validate_backpressure _ _) eqn:Hv; [|done]. destruct (validate_overrides _); [|done].
  intros [= <-]. pose proof (validate_backpressure_ok (bs_id source)
    (backpressure_for (rb_options b) (bs_id source))) as E. rewrite Hv in E. exact (eq_sym E).
Qed.

Lemma run_start_progress (rt : Runtime C F D K) (w1 : W1) (w2 : W2) (s0 : Sys C F W1 W2 T) :
  run_start rt w1 w2 = Ok s0 → progress_inv s0 ∧ manned s0.
Proof.
  unfold run_start. destruct (take_coordinator _ _) as [[coord|] reg]; [|done]. simpl. intros [= <-].
  assert (∀ {A} (x y : A) n, y ≠ x → y ∉ replicate n x) as Hno.
  { intros A x y n Hxy [-> _]%elem_of_replicate. done. }
  split; [split|].
  - right. unfold units, weigh. simpl. rewrite !each_nil.
    rewrite !sum_N_zero; [done|by apply Forall_replicate..].
  - right. split; simpl; intros Hin; exfalso; by apply Hno in Hin.
  - unfold manned. simpl. rewrite !length_replicate. lia.
Qed.

(** What every reachable state has. *)
Record live_state (b : option N) (cf : Config F D K) s : Prop := {
  lv_safe : safe_state cf b s;
  lv_progress : progress_inv s;
  lv_manned : manned s;
  lv_roomy : roomy cf s;
  lv_resources : resources_inv (estimated_max_batch_bytes (bp cf)) (fault_limit (bp cf))
    (channel_depth cf) (max_inflight_bytes (bp cf)) (res_of s);
  lv_fits : estimated_max_batch_bytes (bp cf) ≤ max_inflight_bytes (bp cf);
}.

Lemma run_live b w1 w2 cf s :
  run_reaches b w1 w2 cf s → baseline_u64 b → is_u32 (effective_retry_max_attempts (cf_options cf)) →
  live_state (baseline b) cf s.
Proof.
  intros Hrun Hu Hm. pose proof (run_resources _ _ _ _ _ Hrun) as Hres.
  destruct (sends_have_room _ _ _ _ _ Hrun) as (R1 & R2 & R3).
  pose proof (run_safe _ _ _ _ _ Hrun Hu) as Hsafe.
  destruct Hrun as (rt & s0 & evs & Hb & Hs0 & -> & Hex).
  destruct (run_start_safe _ _ _ _ _ Hb Hu Hs0) as (Hsafe0 & _ & _).
  destruct (run_start_progress _ _ _ _ Hs0) as [Hi0 Hm0].
  destruct (exec_all_progress _ _ _ _ _ Hm Hex Hsafe0) as (Hi & Hp & _).
  split; [exact Hsafe|by apply Hi| |by split|exact Hres|].
  - injection Hp as H1' H2' H3'. unfold manned in *. by rewrite H1', H2', H3'.
  - pose proof (build_valid _ _ Hb) as Hv. unfold valid_backpressure in Hv.
    apply andb_true_iff in Hv as [[[Hv _]%andb_true_iff _]%andb_true_iff _]. by apply N.leb_le.
Qed.

Lemma live_not_stuck b cf s : live_state b cf s → stuck cf s → ended s = true.
Proof. intros []. by apply stuck_ended. Qed.

Lemma reaches_on b w1 w2 cf s evs s' :
  run_reaches b w1 w2 cf s → exec_all cf evs s = Some s' → run_reaches b w1 w2 cf s'.
Proof.
  intros (rt & s0 & evs0 & Hb & Hs0 & -> & Hex) Hev. exists rt, s0, (evs0 ++ evs). split_and!; try done.
  by rewrite exec_all_app, Hex.
Qed.

Lemma live_moves b cf s : live_state b cf s → ended s = true ∨ is_Some (next_task cf s).
Proof.
  intros Hl. destruct (next_task cf s) as [s'|] eqn:Hn; [by right|]. left.
  by eapply live_not_stuck, next_task_none.
Qed.

(** C9: the pipeline never deadlocks.  In every state of every run, whatever
    the scheduling, the faults and the aborts, either the run is over (the
    actor has returned and every worker has left, so the joins return) or some
    task can take its next step, with an outcome of its await that depends on
    no other task.  In particular the actor never waits for a gate that cannot
    open on an idle pipeline, nor for a completion that nobody owes it. *)
Theorem no_deadlock (b : RuntimeBuilder C F D K) (w1 : W1) (w2 : W2) (cf : Config F D K)
    (s : Sys C F W1 W2 T) (Hrun : run_reaches b w1 w2 cf s) (Hbase : baseline_u64 b)
    (Hretry : is_u32 (effective_retry_max_attempts (cf_options cf))) :
  ended s = true ∨ ∃ ev s', ev ∈ tasks s ∧ exec cf ev s = Some s'.
Proof.
  destruct (live_moves _ _ _ (run_live _ _ _ _ _ Hrun Hbase Hretry)) as [He|[s' Hs']]; [by left|].
  right. destruct (next_task_some _ _ _ Hs') as (ev & Hin & _ & Hev). by exists ev, s'.
Qed.

(** C8: shutting down terminates.  Once admission is closed (or the actor has
    returned), every schedule, fair or not, takes at most [work] task steps
    before the run is over, whatever the sink answers, however often it has to
    be retried and whatever the environment does meanwhile; and the
    scheduler that just runs the first task that can step reaches the end of
    the run within that many steps. *)
Theorem drain_terminates (b : RuntimeBuilder C F D K) (w1 : W1) (w2 : W2) (cf : Config F D K)
    (s : Sys C F W1 W2 T) (Hrun : run_reaches b w1 w2 cf s) (Hbase : baseline_u64 b)
    (Hretry : is_u32 (effective_retry_max_attempts (cf_options cf))) (Hdrain : draining s = true) :
  (∀ evs s', exec_all cf evs s = Some s' →
     task_steps evs ≤ work cf s ∧ (ended s' = true ∨ is_Some (next_task cf s'))) ∧
  (∃ evs, exec_all cf evs s = Some (drain cf (N.to_nat (work cf s)) s)) ∧
  ended (drain cf (N.to_nat (work cf s)) s) = true.
Proof.
  pose proof (run_safe _ _ _ _ _ Hrun Hbase) as Hsafe. split.
  - intros evs s' Hex. destruct (exec_all_progress _ _ _ _ _ Hretry Hex Hsafe) as (_ & _ & Hw).
    destruct (Hw Hdrain). split; [lia|]. eapply live_moves, run_live; [|done..]. by eapply reaches_on.
  - destruct (drain_stuck cf _ _ s Hretry Hsafe Hdrain (Nat.le_refl _)) as [[evs Hex] Hst].
    split; [by exists evs|]. eapply live_not_stuck; [|exact Hst].
    eapply run_live; [|done..]. by eapply reaches_on.
Qed.
End run_progress.

(** ** The properties at work *)

Lemma no_deadlock_witness :
  ∃ s, demo_run false (demo_admit ++ demo_decode) = Some s ∧ ended s = false ∧
    ∃ ev s', ev ∈ tasks s ∧ exec (demo_config false) ev s = Some s'.
Proof.
  destruct (demo_run false (demo_admit ++ demo_decode)) as [s|] eqn:Hrun; [|by vm_compute in Hrun].
  assert (ended s = false) as He by (vm_compute in Hrun; by simplify_eq).
  exists s. split; [done|]. split; [done|].
  destruct (no_deadlock _ _ _ _ _ (demo_reaches _ _ _ Hrun) (demo_baseline_fine false))
    as [He'|Hstep]; [by vm_compute| |exact Hstep].
  by rewrite He in He'.
Defined.

(** Two units in flight when the shutdown is seen. *)
Definition demo_closing : list DemoEvent :=
  demo_admit ++ demo_decode ++ [EvShutdown; EvActor (polls true false false)].

Lemma drain_terminates_witness :
  ∃ s, demo_run false demo_closing = Some s ∧ draining s = true ∧ ended s = false ∧
    a_in_flight (sy_actor s) = 2 ∧
    ended (drain (demo_config false) (N.to_nat (work (demo_config false) s)) s) = true ∧
    acks (s_trace (sy_shared (drain (demo_config false) (N.to_nat (work (demo_config false) s)) s))) = [0; 1].
Proof.
  destruct (demo_run false demo_closing) as [s|] eqn:Hrun; [|by vm_compute in Hrun].
  assert (draining s = true ∧ ended s = false ∧ a_in_flight (sy_actor s) = 2 ∧
    acks (s_trace (sy_shared (drain (demo_config false) (N.to_nat (work (demo_config false) s)) s))) = [0; 1])
    as (Hd & He & Hi & Ha) by (vm_compute in Hrun; simplify_eq; by vm_compute).
  exists s. split_and!; [done..| |exact Ha].
  by apply (drain_terminates _ _ _ _ _ (demo_reaches _ _ _ Hrun) (demo_baseline_fine false) ltac:(by vm_compute) Hd).
Defined.
