(* ===== verification/PipelineStages.v ===== *)
(** * The stage counters

    [StageInflightBytes] has one counter per stage, and every reservation
    carries the counter it is attached to.  Each place of the pipeline holds
    reservations of one stage only ([staged]), so the four counters are exactly
    the bytes the documentation of the struct assigns to them. *)

From Stdlib Require Import NArith Lia.
From S2P Require Import Prelude.
From S2P Require Import BTree.
From S2P Require Import Types.
From S2P Require Import AckCoordinator.
From S2P Require Import ByteBudget.
From S2P Require Import Source.
From S2P Require Import Options.
From S2P Require Import Metrics.
From S2P Require Import WriteRetry.
From S2P Require Import Decode.
From S2P Require Import Pipeline.
From S2P Require Import PipelineDemo.
From S2P Require Import PipelineResources.
From S2P Require Import PipelineWorkers.
From S2P Require Import PipelineSafety.
From S2P Require Import PipelineRestart.
From S2P Require Import PipelineProvenance.
From S2P Require Import PipelineProgress.
Local Open Scope N_scope.

Definition in_stage (l : StageLoc) (rs : list Reservation) : Prop := Forall (λ r, stage r = Some l) rs.

Lemma in_stage_nil l : in_stage l [].
Proof. constructor. Qed.
Lemma in_stage_one l r : stage r = Some l → in_stage l [r].
Proof. by constructor. Qed.
Lemma in_stage_inv l r rs : in_stage l (r :: rs) → stage r = Some l ∧ in_stage l rs.
Proof. by intros [? ?]%Forall_cons. Qed.
Lemma in_stage_app l rs1 rs2 : in_stage l rs1 → in_stage l rs2 → in_stage l (rs1 ++ rs2).
Proof. intros. by apply Forall_app. Qed.

(** The bytes counted at [l'] of reservations that are all at [l]. *)
Lemma in_stage_held l l' rs : in_stage l rs → held_at l' rs = if decide (l = l') then held_sum rs else 0.
Proof.
  induction 1 as [|r rs Hr _ IH]; [by destruct (decide _)|]. rewrite held_at_cons, held_sum_cons, IH.
  unfold at_stage. rewrite Hr. destruct (decide (l = l')) as [->|Hne].
  - by rewrite bool_decide_true.
  - by rewrite bool_decide_false by congruence.
Qed.

Lemma held_at_app l rs1 rs2 : held_at l (rs1 ++ rs2) = held_at l rs1 + held_at l rs2.
Proof. apply sum_N_fmap_app. Qed.

Lemma in_stage_concat {A} l (f : A → list Reservation) pool :
  Forall (λ x, in_stage l (f x)) pool → in_stage l (concat (f <$> pool)).
Proof. induction 1; simpl; [constructor|]. by apply in_stage_app. Qed.

Lemma reconcile_stage n r b : stage (reconcile n r b).1 = stage r.
Proof. unfold reconcile. destruct (_ =? _); [done|]. by destruct (_ <? _). Qed.

Section stages.
Context {C F W1 D K W2 T : Type}.
Context `{ConsumerLaws C F W1} `{TypedRecords T} `{Decoder D T} `{Sink K W2 T}.
Context (cf : Config F D K).
Implicit Types s : Sys C F W1 W2 T.

(** What each stage holds. *)
Definition source_held s : list Reservation :=
  actor_held (a_pc (sy_actor s)) ++ (ad_reservation <$> s_descriptors (sy_shared s)).
Definition fetch_stage_held s : list Reservation :=
  concat (fetch_held <$> sy_fetchers s) ++ (fb_reservation <$> s_fetched (sy_shared s)).
Definition decode_stage_held s : list Reservation :=
  concat (decode_held <$> sy_decoders s) ++ (sce_reservation <$> s_commits (sy_shared s)).
Definition sink_stage_held s : list Reservation := concat (write_held <$> sy_writers s).

Record staged s : Prop := {
  sg_actor : in_stage stage_source (actor_held (a_pc (sy_actor s)));
  sg_descriptors : in_stage stage_source (ad_reservation <$> s_descriptors (sy_shared s));
  sg_fetchers : Forall (λ pc, in_stage stage_fetch (fetch_held pc)) (sy_fetchers s);
  sg_fetched : in_stage stage_fetch (fb_reservation <$> s_fetched (sy_shared s));
  sg_decoders : Forall (λ pc, in_stage stage_decode (decode_held pc)) (sy_decoders s);
  sg_commits : in_stage stage_decode (sce_reservation <$> s_commits (sy_shared s));
  sg_writers : Forall (λ pc, in_stage stage_sink_dispatch (write_held pc)) (sy_writers s);
}.

Lemma enter_stage_at l r (sh : Shared W1 W2 T) r' sh' :
  enter_stage l r sh = (r', sh') → stage r' = Some l ∧ sh' = with_capacity (s_budget sh') (s_permits sh') sh.
Proof.
  unfold enter_stage, attach_stage. intros [= <- <-]. by split.
Qed.

(** A step of one worker: the old invariant, and what the new cell and the
    queues hold. *)
Ltac staged_step Hs :=
  destruct Hs as [Sa Sd Sf Sq Sde Sc Sw]; split; simpl; try assumption;
  try (apply Forall_insert; [assumption|]); try apply in_stage_nil; try (by apply in_stage_one).

Lemma fetch_step_staged i arm s s' : fetch_step cf i arm s = Some s' → staged s → staged s'.
Proof.
  unfold fetch_step. destruct (sy_fetchers s !! i) as [pc|] eqn:Hi; [|done]. simpl. intros Hex Hs.
  pose proof (Forall_lookup_1 _ _ _ _ (sg_fetchers _ Hs) Hi) as Hpc. simpl in Hpc.
  unfold abort_if in Hex. destruct pc as [|a|b|e r p|]; [destruct arm|destruct arm| | |]; try done;
    simpl in Hpc; try apply in_stage_inv in Hpc as [Hr _].
  - unfold fetch_recv in Hex. destruct (s_descriptors (sy_shared s)) as [|a rest] eqn:Hq.
    + destruct (descriptors_closed s); [|done]. injection Hex as <-. staged_step Hs.
    + destruct (enter_stage _ _ _) as [r sh] eqn:He. injection Hex as <-.
      destruct (enter_stage_at _ _ _ _ _ He) as [Hr ->]. staged_step Hs.
      rewrite Hq in Sd. by apply in_stage_inv in Sd as [_ Sd].
  - destruct (_ && _); [|done]. injection Hex as <-. staged_step Hs.
  - unfold fetch_run in Hex. destruct (Source.fetch _ _ _) as [w1 [batch|e]]; injection Hex as <-;
      staged_step Hs.
  - destruct (_ && _); [|done]. injection Hex as <-. staged_step Hs.
  - unfold fetch_send in Hex. destruct (fetched_closed s); [|destruct (has_room cf _); [|done]];
      injection Hex as <-; staged_step Hs.
    rewrite fmap_app. apply in_stage_app; [done|]. by apply in_stage_one.
  - destruct (send_completion cf _ s) as [[d s1]|] eqn:Hsend; [|done]. simpl in Hex. injection Hex as <-.
    destruct (send_completion_cases _ _ _ _ _ Hsend) as [(-> & Hd & ->)|[-> ->]]; staged_step Hs.
Qed.

Lemma decode_step_staged i arm s s' : decode_step cf i arm s = Some s' → staged s → staged s'.
Proof.
  unfold decode_step. destruct (sy_decoders s !! i) as [pc|] eqn:Hi; [|done]. simpl. intros Hex Hs.
  pose proof (Forall_lookup_1 _ _ _ _ (sg_decoders _ Hs) Hi) as Hpc. simpl in Hpc.
  unfold abort_if in Hex. destruct pc as [|b|e seq|msg r p|r p|]; [destruct arm|destruct arm| | | |]; try done;
    simpl in Hpc; try apply in_stage_inv in Hpc as [Hr _].
  - unfold decode_recv in Hex. destruct (s_fetched (sy_shared s)) as [|b rest] eqn:Hq.
    + destruct (fetched_closed s); [|done]. injection Hex as <-. staged_step Hs.
    + destruct (enter_stage _ _ _) as [r sh] eqn:He. injection Hex as <-.
      destruct (enter_stage_at _ _ _ _ _ He) as [Hr ->]. staged_step Hs.
      rewrite Hq in Sq. by apply in_stage_inv in Sq as [_ Sq].
  - destruct (_ && _); [|done]. injection Hex as <-. staged_step Hs.
  - unfold decode_run in Hex. rewrite decode_one_run in Hex.
    destruct (decode_checked _ _ _) as [decoded|e]; [|injection Hex as <-; staged_step Hs].
    destruct (oversize_gate _ _) as [u|e]; [|injection Hex as <-; staged_step Hs].
    pose proof (reconcile_stage (actual_bytes decoded) (fb_reservation b) (s_budget (sy_shared s))) as Hst.
    cbn [fst snd] in Hex. destruct (reconcile _ _ _) as [r' bud]. cbn [fst] in Hst. rewrite Hr in Hst.
    destruct (dry_run _); injection Hex as <-; staged_step Hs.
  - destruct (_ && _); [|done]. injection Hex as <-. staged_step Hs.
  - unfold decode_send in Hex. destruct (commits_closed s); [|destruct (has_room cf _); [|done]];
      injection Hex as <-; staged_step Hs.
    rewrite fmap_app. apply in_stage_app; [done|]. by apply in_stage_one.
  - destruct (send_completion cf _ s) as [[d s1]|] eqn:Hsend; [|done]. simpl in Hex. injection Hex as <-.
    destruct (send_completion_cases _ _ _ _ _ Hsend) as [(-> & Hd & ->)|[-> ->]];
      destruct (report_continues msg _); staged_step Hs.
  - injection Hex as <-. staged_step Hs.
Qed.

Lemma write_step_staged i arm sel s s' : write_step cf i arm sel s = Some s' → staged s → staged s'.
Proof.
  unfold write_step. destruct (sy_writers s !! i) as [pc|] eqn:Hi; [|done]. simpl. intros Hex Hs.
  pose proof (Forall_lookup_1 _ _ _ _ (sg_writers _ Hs) Hi) as Hpc. simpl in Hpc.
  unfold abort_if in Hex. destruct pc as [|e rp|msg r p|r p|]; [destruct arm| | | |]; try done;
    simpl in Hpc; try apply in_stage_inv in Hpc as [Hr _].
  - unfold write_recv in Hex. destruct (s_commits (sy_shared s)) as [|e rest] eqn:Hq.
    + destruct (commits_closed s); [|done]. injection Hex as <-. staged_step Hs.
    + destruct (enter_stage _ _ _) as [r sh] eqn:He. injection Hex as <-.
      destruct (enter_stage_at _ _ _ _ _ He) as [Hr ->]. staged_step Hs.
      rewrite Hq in Sc. by apply in_stage_inv in Sc as [_ Sc].
  - destruct (_ && _); [|done]. injection Hex as <-. staged_step Hs.
  - unfold write_run in Hex. destruct rp as [k|k err|k|a].
    4: { injection Hex as <-. staged_step Hs. }
    all: destruct (_ && _); [done|];
      destruct (retry_step _ _ _ _ _ _) as [[rp' w2] call]; injection Hex as <-; staged_step Hs.
  - destruct (send_completion cf _ s) as [[d s1]|] eqn:Hsend; [|done]. simpl in Hex. injection Hex as <-.
    destruct (send_completion_cases _ _ _ _ _ Hsend) as [(-> & Hd & ->)|[-> ->]];
      destruct (report_continues msg _); staged_step Hs.
  - injection Hex as <-. staged_step Hs.
Qed.

(** *** The actor *)

(** A step that leaves the pools and the queues alone. *)
Lemma kept_staged s s' :
  kept s s' → in_stage stage_source (actor_held (a_pc (sy_actor s'))) → staged s → staged s'.
Proof.
  intros [[= Hf Hd Hw] [= H1' H2' H3' _] _] Ha []. split; rewrite ?Hf, ?Hd, ?Hw, ?H1', ?H2', ?H3'; done.
Qed.

Lemma extend_gates_staged n : ∀ gates (sh : Shared W1 W2 T) gates' sh',
  extend_gates cf n gates sh = (gates', sh') →
  in_stage stage_source (ag_reservation <$> gates) → in_stage stage_source (ag_reservation <$> gates').
Proof.
  induction n as [|n IH]; intros gates sh gates' sh'; cbn [extend_gates]; [by intros [= <- _]|].
  destruct (0 <? s_permits sh); [|by intros [= <- _]].
  destruct (try_reserve _ _) as [[r|] b]; [|by intros [= <- _]].
  match goal with |- context [enter_stage ?l ?x ?y] => destruct (enter_stage l x y) as [r1 sh1] eqn:He end.
  intros Hrun Hg. eapply IH; [exact Hrun|].
  rewrite fmap_app. apply in_stage_app; [done|]. apply in_stage_one. by apply (enter_stage_at _ _ _ _ _ He).
Qed.

Lemma open_gates_staged g (sh : Shared W1 W2 T) gates sh' :
  open_gates cf g sh = (gates, sh') → in_stage stage_source (ag_reservation <$> gates).
Proof.
  unfold open_gates.
  match goal with |- context [enter_stage ?l ?x ?y] => destruct (enter_stage l x y) as [r sh1] eqn:He end.
  intros Hrun.
  eapply extend_gates_staged; [exact Hrun|]. apply in_stage_one. by apply (enter_stage_at _ _ _ _ _ He).
Qed.

Lemma zip_staged l (ds : list SourceBatchDescriptor) gates :
  in_stage l (ag_reservation <$> gates) → in_stage l ((λ x, ag_reservation x.2) <$> zip ds gates).
Proof.
  revert gates. induction ds as [|d ds IH]; intros [|g gates]; simpl; try (by constructor).
  intros [Hg Hgs]%in_stage_inv. constructor; [done|]. by apply IH.
Qed.

Lemma poll_staged gates s :
  a_pc (sy_actor s) = APolling gates → staged s → staged (poll_descriptors gates s).
Proof.
  intros Hpc Hs. pose proof (sg_actor _ Hs) as Hg. rewrite Hpc in Hg. simpl in Hg.
  unfold poll_descriptors. destruct (next_descriptors _ _ _) as [[src w1] polled].
  set (s0 := on_shared (with_w1 w1) (on_actor (with_source src) s)).
  destruct polled as [[|d ds]|e].
  - apply (kept_staged s); [by etrans; [|apply kept_release]|constructor|done].
  - set (n := length (d :: ds)). set (s1 := on_shared (release_all (ag_reservation <$> drop n gates)) s0).
    assert (kept s s1) as Hk1 by (etrans; [|apply kept_release]; done).
    pose proof (framed_for_each (d :: ds) register_one framed_register_one s1) as Hfr.
    destruct (for_each (d :: ds) register_one s1) as [s2 [u|e]]; cbn [fst] in Hfr.
    + apply (kept_staged s); [|simpl|done].
      * apply kept_actor. by etrans; [exact Hk1|apply kept_frame].
      * apply (zip_staged _ (d :: ds)). rewrite <- (take_drop n gates), fmap_app in Hg.
        by apply Forall_app in Hg as [Hg _].
    + apply (kept_staged s); [|constructor|done].
      etrans; [|apply kept_release]. apply kept_finish. by etrans; [exact Hk1|apply kept_frame].
  - apply (kept_staged s); [by etrans; [|apply kept_release]|constructor|done].
Qed.

Lemma completion_staged s s' :
  a_pc (sy_actor s) = ALoop → completion_arm cf s = Some s' → staged s → staged s'.
Proof.
  intros Hpc Harm Hs. unfold completion_arm in Harm.
  destruct (s_completions (sy_shared s)) as [|m rest]; simpl in Harm.
  { destruct (completion_senders_gone s); [|done]. injection Harm as <-. staged_step Hs. }
  assert (staged (on_shared (with_completions rest) s)) as Hs0 by (destruct Hs; by split).
  destruct m as [rep|e]; [|injection Harm as <-; by staged_step Hs0].
  pose proof (framed_on_committed cf rep (on_shared (with_completions rest) s)) as Hfr.
  destruct (on_committed cf rep _) as [s1 [u|e]]; injection Harm as <-;
    (eapply kept_staged; [|idtac|exact Hs0]).
  - by apply kept_frame.
  - pose proof (fr_pc _ _ Hfr) as Hpc1. simpl in Hpc1. rewrite Hpc1, Hpc. constructor.
  - apply kept_finish. by apply kept_frame.
  - constructor.
Qed.

Lemma actor_step_staged p s s' : actor_step cf p s = Some s' → staged s → staged s'.
Proof.
  unfold actor_step. destruct (a_pc (sy_actor s)) as [|gates| |[|u us]|r] eqn:Hpc; [| | | | |done].
  - destruct (_ && _).
    + intros [= <-] Hs. unfold drain_finish. destruct (negb _); [|by staged_step Hs].
      pose proof (framed_flush s) as Hf. destruct (flush_logged s) as [s1 [u|e]]; cbn [fst] in Hf;
        (apply (kept_staged s); [by repeat apply kept_actor; apply kept_frame|constructor|done]).
    + unfold actor_select. destruct (select_arm _ _) as [[]|]; [| | | |done].
      * destruct (s_abort _); [|done]. intros [= <-] Hs. staged_step Hs.
      * destruct (s_shutdown _); [|done]. intros [= <-] Hs. by staged_step Hs.
      * by apply completion_staged.
      * destruct (admission_attempt _ _) as [[g sh]|] eqn:Hadm; [|done].
        destruct (open_gates cf g sh) as [gates sh'] eqn:Hopen. intros [= <-] Hs.
        pose proof (open_gates_staged _ _ _ _ Hopen) as Hg.
        destruct (open_gates_rsteps _ _ _ _ _ [] Hopen) as [_ ->].
        unfold admission_attempt in Hadm. destruct (0 <? _); [|done].
        destruct (reserve _ _) as [[r|] bud]; [|done]. simplify_eq. by staged_step Hs.
  - intros [= <-]. by apply poll_staged.
  - intros [= <-] Hs. staged_step Hs.
  - intros [= <-] Hs. staged_step Hs.
  - unfold send_descriptor. destruct u as [d g]. destruct (descriptors_closed s).
    + intros [= <-] Hs. apply (kept_staged s); [|constructor|done].
      etrans; [by apply kept_finish|apply (kept_release (ag_reservation g :: _))].
    + destruct (has_room cf _); [|done]. intros [= <-] Hs.
      pose proof (sg_actor _ Hs) as Hg. rewrite Hpc in Hg. apply in_stage_inv in Hg as [Hr Hg].
      staged_step Hs. rewrite fmap_app. apply in_stage_app; [done|]. by apply in_stage_one.
Qed.

Lemma exec_staged ev s s' : exec cf ev s = Some s' → staged s → staged s'.
Proof.
  destruct ev as [| |p|i arm|i arm|i arm sel|f|f]; simpl.
  - intros [= <-] Hs. by staged_step Hs.
  - unfold supervisor_abort. destruct (a_pc (sy_actor s)) as [| | | |[|]]; try done.
    intros [= <-] Hs. by staged_step Hs.
  - apply actor_step_staged.
  - apply fetch_step_staged.
  - apply decode_step_staged.
  - apply write_step_staged.
  - intros [= <-] Hs. by staged_step Hs.
  - intros [= <-] Hs. by staged_step Hs.
Qed.

Lemma exec_all_staged evs : ∀ s s', exec_all cf evs s = Some s' → staged s → staged s'.
Proof.
  induction evs as [|ev evs IH]; intros s s'; simpl; [by intros [= ->]|].
  destruct (exec cf ev s) as [s1|] eqn:Hev; [|done]. simpl. intros Hrun Hs.
  eapply IH; [done|]. by eapply exec_staged.
Qed.

(** Staged, each counter is the sum over its own stage. *)
Lemma staged_counts s :
  staged s → accounts (s_budget (sy_shared s)) (held_res s) →
  let load l := stage_load l (s_budget (sy_shared s)) in
  load stage_source = wrap64 (held_sum (source_held s)) ∧
  load stage_fetch = wrap64 (held_sum (fetch_stage_held s)) ∧
  load stage_decode = wrap64 (held_sum (decode_stage_held s)) ∧
  load stage_sink_dispatch = wrap64 (held_sum (sink_stage_held s)).
Proof.
  intros [Sa Sd Sf Sq Sde Sc Sw] [_ Hl] load. unfold load.
  apply in_stage_concat in Sf, Sde, Sw. rewrite !Hl.
  unfold held_res, source_held, fetch_stage_held, decode_stage_held, sink_stage_held.
  rewrite !held_at_app.
  rewrite !(in_stage_held _ _ _ Sa), !(in_stage_held _ _ _ Sd), !(in_stage_held _ _ _ Sf),
    !(in_stage_held _ _ _ Sq), !(in_stage_held _ _ _ Sde), !(in_stage_held _ _ _ Sc),
    !(in_stage_held _ _ _ Sw).
  unfold stage_source, stage_fetch, stage_decode, stage_sink_dispatch, held_sum in *.
  rewrite !sum_N_fmap_app. simpl. rewrite !N.add_0_r, ?N.add_assoc. done.
Qed.
End stages.

Section run_stages.
Context {C F W1 D K W2 T : Type}.
Context `{ConsumerLaws C F W1} `{TypedRecords T} `{Decoder D T} `{Sink K W2 T}.
Implicit Types s : Sys C F W1 W2 T.

Lemma run_staged b w1 w2 cf s : run_reaches b w1 w2 cf s → staged s.
Proof.
  intros (rt & s0 & evs & Hb & Hs0 & -> & Hrun). eapply exec_all_staged; [exact Hrun|].
  unfold run_start in Hs0. destruct (take_coordinator _ _) as [[coord|] reg]; [|done]. simpl in Hs0.
  injection Hs0 as <-. split; simpl; try apply in_stage_nil; by apply Forall_replicate, in_stage_nil.
Qed.

Lemma run_counts b w1 w2 cf s :
  run_reaches b w1 w2 cf s →
  let load l := stage_load l (s_budget (sy_shared s)) in
  load stage_source = wrap64 (held_sum (source_held s)) ∧
  load stage_fetch = wrap64 (held_sum (fetch_stage_held s)) ∧
  load stage_decode = wrap64 (held_sum (decode_stage_held s)) ∧
  load stage_sink_dispatch = wrap64 (held_sum (sink_stage_held s)).
Proof.
  intros Hrun. apply staged_counts; [by eapply run_staged|].
  exact (ri_accounts _ _ _ _ _ (run_resources _ _ _ _ _ Hrun)).
Qed.

(** C24: the stage counters mean what they say.  In every state of every run,
    whatever the scheduling, the faults and the aborts, the source counter is
    the bytes held by the actor and parked in the descriptor channel, the fetch
    counter those of the fetch workers and of the channel of fetched batches,
    the decode counter those of the decode workers and of the commit channel,
    after reconciliation, and the dispatch counter those of the writers; the
    four add up to the bytes in flight of the budget. *)
Theorem stage_counters_exact (b : RuntimeBuilder C F D K) (w1 : W1) (w2 : W2) (cf : Config F D K)
    (s : Sys C F W1 W2 T) (Hrun : run_reaches b w1 w2 cf s) :
  let load l := stage_load l (s_budget (sy_shared s)) in
  load stage_source = wrap64 (held_sum (source_held s)) ∧
  load stage_fetch = wrap64 (held_sum (fetch_stage_held s)) ∧
  load stage_decode = wrap64 (held_sum (decode_stage_held s)) ∧
  load stage_sink_dispatch = wrap64 (held_sum (sink_stage_held s)) ∧
  wrap64 (load stage_source + load stage_fetch + load stage_decode + load stage_sink_dispatch) =
  in_flight (s_budget (sy_shared s)).
Proof.
  destruct (run_counts _ _ _ _ _ Hrun) as (H1' & H2' & H3' & H4'). intros load.
  split_and!; try done. unfold load. rewrite H1', H2', H3', H4'.
  pose proof (acc_in_flight _ _ (ri_accounts _ _ _ _ _ (run_resources _ _ _ _ _ Hrun))) as Hf.
  cbn [res_of res_held res_budget] in Hf. rewrite Hf.
  unfold held_res, source_held, fetch_stage_held, decode_stage_held, sink_stage_held, held_sum.
  rewrite wrap64_add4, !sum_N_fmap_app. f_equal. lia.
Qed.
End run_stages.

(** ** The property at work *)

Lemma stage_counters_exact_witness :
  ∃ s, demo_run false (demo_admit ++ demo_decode ++ [write_work 0]) = Some s ∧
    stage_load stage_decode (s_budget (sy_shared s)) = 100 ∧
    stage_load stage_sink_dispatch (s_budget (sy_shared s)) = 300 ∧
    stage_load stage_sink_dispatch (s_budget (sy_shared s)) = wrap64 (held_sum (sink_stage_held s)).
Proof.
  destruct (demo_run false (demo_admit ++ demo_decode ++ [write_work 0])) as [s|] eqn:Hrun;
    [|by vm_compute in Hrun].
  exists s. split; [done|]. split; [vm_compute in Hrun; by simplify_eq|].
  split; [vm_compute in Hrun; by simplify_eq|].
  by destruct (stage_counters_exact _ _ _ _ _ (demo_reaches _ _ _ Hrun)) as (_ & _ & _ & Hd & _).
Defined.
