(* ===== verification/PipelineMetrics.v ===== *)
(** * The metrics of a run
    (runtime/opendata-ingest-runtime/src/runtime.rs, the emissions of
    [per_source_actor], [fetch_worker], [decode_worker], [decode_one] and
    [writer_worker])

    What each step of the pipeline does to the metric families of the runtime.
    Emissions read the state and never change it, so a run with metrics is a run
    of [Pipeline] beside a [RuntimeMetrics] ([metered_exec]).  A step carries one
    more choice of the environment: whether the wait it ends took 10 ms or more,
    the threshold of [with_backpressure_timer].

    The gauges a worker sets at the top of its loop are set by the step that
    goes back there, and by the start of the task. *)

From Stdlib Require Import NArith Lia.
From S2P Require Import Prelude.
From S2P Require Import BTree.
From S2P Require Import Types.
From S2P Require Import AckCoordinator.
From S2P Require Import ByteBudget.
From S2P Require Import Source.
From S2P Require Import Options.
From S2P Require Import Metrics.
From S2P Require Import WriteRetry.
From S2P Require Import Decode.
From S2P Require Import Pipeline.
From S2P Require Import PipelineDemo.
From S2P Require Import PipelineResources.
From S2P Require Import PipelineWorkers.
From S2P Require Import PipelineSafety.
From S2P Require Import PipelineRestart.
From S2P Require Import PipelineProvenance.
From S2P Require Import PipelineProgress.
From S2P Require Import PipelineStages.
Local Open Scope N_scope.

Section metrics.
Context {C F W1 D K W2 T : Type}.
Context `{ConsumerLaws C F W1} `{TypedRecords T} `{Decoder D T} `{Sink K W2 T}.
Context (cf : Config F D K).
Implicit Types s : Sys C F W1 W2 T.
Implicit Types m : RuntimeMetrics.
Abbreviation source_label := (source_str (cf_source_id cf)).
Abbreviation sink_label := (sink_str (sink_id (cf_sink cf))).
Abbreviation dry := (dry_run (cf_options cf)).

(** [len() as i64] and [load() as i64]. *)
Definition len_gauge {A} (q : list A) : Z := as_i64 (N.of_nat (length q)).
Definition load_gauge (l : StageLoc) s : Z := as_i64 (stage_load l (s_budget (sy_shared s))).

Definition set_stage_inflight (label : string) (l : StageLoc) s m : RuntimeMetrics :=
  on_stage_inflight_bytes (set_gauge (load_gauge l s) (label, source_label)) m.
Definition observe_stage (label : string) m : RuntimeMetrics :=
  on_stage_latency_seconds (observe (label, source_label)) m.

(** ** The actor *)

Definition emit_stage_inflight_gauges s m : RuntimeMetrics :=
  foldl (λ m x, set_stage_inflight x.1 x.2 s m) m
    [("source", stage_source); ("fetch", stage_fetch); ("decode", stage_decode);
     ("sink_dispatch", stage_sink_dispatch)].

(** The acknowledgement's part of the completion arm: [s] is the state before
    the arm, [s1] after it. *)
Definition ack_emits s s1 m : RuntimeMetrics :=
  match frontier (a_coordinator (sy_actor s1)) with
  | Some f =>
      if negb dry
      then on_ack_frontier_gauge (set_gauge (as_i64 f) source_label)
             (if should_ack (a_last_ack_sent (sy_actor s)) f
              then on_ack_lag_seconds (observe source_label) m
              else m)
      else m
  | None => m
  end.

(** The completion arm; an error leaves it before its emissions. *)
Definition completion_emits s m : RuntimeMetrics :=
  match s_completions (sy_shared s) with
  | WCCommitted report :: rest =>
      match on_committed cf report (on_shared (with_completions rest) s) with
      | (s1, Ok _) =>
          let m := ack_emits s s1 m in
          let pending := N.of_nat (pending_count (a_coordinator (sy_actor s1))) in
          let lag := N.of_nat (source_pending_count (a_source (sy_actor s1))) in
          let m := on_pending_ranges (set_gauge (as_i64 pending) source_label) m in
          let m := on_buffer_consumer_seq_lag (set_gauge (as_i64 lag) source_label) m in
          observe_stage "source" (emit_stage_inflight_gauges s1 m)
      | (_, Err _) => m
      end
  | _ => m
  end.

(** The register-all pass, with its counter. *)
Definition register_metered (d : SourceBatchDescriptor) : M (Sys C F W1 W2 T * RuntimeMetrics) RuntimeError unit :=
  zoom fst (λ s x, (s, x.2)) (register_one d) ;;
  modify (λ x, (x.1, on_descriptors_handed_out (inc source_label) x.2)).

(** The admission arm from the manifest read to the register-all pass. *)
Definition poll_emits (gates : list AdmissionGate) s m : RuntimeMetrics :=
  let '((src, w1), polled) :=
    next_descriptors (length gates) SourceBudget_default (a_source (sy_actor s), s_w1 (sy_shared s)) in
  let s := on_shared (with_w1 w1) (on_actor (with_source src) s) in
  match polled with
  | Err _ => m
  | Ok descriptors =>
      let m := on_admission_next_descriptors_calls (inc source_label) m in
      let m := on_admission_descriptors_per_call (observe source_label) m in
      match descriptors with
      | [] =>
          let released := N.of_nat (length gates) in
          observe_stage "source" (on_admission_extension_releases (inc_by released source_label) m)
      | _ :: _ =>
          let admitted := length descriptors in
          let m :=
            if (admitted <? length gates)%nat
            then on_admission_extension_releases
                   (inc_by (N.of_nat (length gates - admitted)) source_label) m
            else m in
          let s := on_shared (release_all (ag_reservation <$> drop admitted gates)) s in
          (for_each descriptors register_metered (s, m)).1.2
      end
  end.

(** A wait of the [select!] counts against the source budget whichever arm
    ends it: the admission future is polled, and its timer runs, whenever
    admission is open and no arm before it is ready. *)
Definition actor_emits (p : Polls) (slow : bool) s m : RuntimeMetrics :=
  match a_pc (sy_actor s) with
  | ALoop =>
      if negb (a_admission_open (sy_actor s)) && (a_in_flight (sy_actor s) =? 0)
      then m
      else
        let m := with_backpressure_timer (cf_source_id cf) SourceBudgetReason
                   (slow && a_admission_open (sy_actor s)) m in
        match select_arm (sy_actor s) p with
        | Some ArmCompletion => completion_emits s m
        | _ => m
        end
  | APolling gates => poll_emits gates s m
  | ASending [] => observe_stage "source" m
  | _ => m
  end.

(** ** The workers *)

Definition fetch_loop_top s m : RuntimeMetrics :=
  set_stage_inflight "fetch" stage_fetch s
    (on_stage_queue_depth (set_gauge (len_gauge (s_descriptors (sy_shared s))) ("fetch", source_label)) m).

(** The sum over the entries, in [u64]. *)
Definition fetched_bytes (b : SourceBatch) : N :=
  wrap64 (sum_N ((λ e, N.of_nat (length (raw_bytes e)) + N.of_nat (length (raw_metadata e))) <$> sb_entries b)).

(** [s'] is the state after the step. *)
Definition fetch_emits (i : nat) (arm : WorkerArm) (slow : bool) s s' m : RuntimeMetrics :=
  match sy_fetchers s !! i, arm with
  | Some (FFetching a), ArmWork =>
      match (Source.fetch (cf_handle cf) (ad_descriptor a) (s_w1 (sy_shared s))).2 with
      | Ok source_batch =>
          on_bytes_fetched (inc_by (fetched_bytes source_batch) source_label) (observe_stage "fetch" m)
      | Err _ => m
      end
  | Some (FSending b), _ =>
      let m := with_backpressure_timer (cf_source_id cf) DecodeBudgetReason slow m in
      if fetched_closed s then m else fetch_loop_top s' m
  | _, _ => m
  end.

Definition decode_loop_top s m : RuntimeMetrics :=
  set_stage_inflight "decode" stage_decode s
    (on_stage_queue_depth (set_gauge (len_gauge (s_fetched (sy_shared s))) ("decode", source_label)) m).

(** [decode_one]: the records of a batch that passes the checks. *)
Definition decode_one_emits (b : FetchedBatch) m : RuntimeMetrics :=
  match decode_checked (T := T) (cf_decoder cf) (fb_batch b) (fb_sequence b) with
  | Ok decoded =>
      match oversize_gate (bp cf) decoded with
      | Ok _ =>
          on_records_decoded
            (inc_by (record_count (records_of decoded)) (source_str (db_source decoded))) m
      | Err _ => m
      end
  | Err _ => m
  end.

Definition decode_emits (i : nat) (arm : WorkerArm) (slow : bool) s s' m : RuntimeMetrics :=
  match sy_decoders s !! i, arm with
  | Some (DDecoding b), ArmWork => observe_stage "decode" (decode_one_emits b m)
  | Some (DSending e seq), _ =>
      let m := with_backpressure_timer (cf_source_id cf) SinkBudgetReason slow m in
      if commits_closed s then m else decode_loop_top s' m
  | Some (DFinishing _ _), _ => decode_loop_top s' m
  | _, _ => m
  end.

Definition write_loop_top s m : RuntimeMetrics :=
  set_stage_inflight "sink_dispatch" stage_sink_dispatch s
    (on_sink_queue_depth (set_gauge (len_gauge (s_commits (sy_shared s))) sink_label) m).

Definition set_sink_inflight s m : RuntimeMetrics :=
  on_sink_inflight_bytes (set_gauge (load_gauge stage_sink_dispatch s) sink_label) m.

Definition select_slow (sel : Select W2) : bool :=
  match sel with Proceed slow | Abort slow _ => slow end.

Definition write_emits (i : nat) (arm : WorkerArm) (sel : Select W2) s s' m : RuntimeMetrics :=
  match sy_writers s !! i, arm with
  | Some WIdle, ArmWork =>
      match s_commits (sy_shared s) with
      | _ :: _ => set_sink_inflight s' m
      | [] => m
      end
  | Some (WWriting _ (PSleep _)), _ =>
      with_backpressure_timer (cf_source_id cf) Retrying (select_slow sel) m
  | Some (WWriting _ (PDone a)), _ =>
      on_sink_commits (inc (source_label, sink_label, SinkCommitOutcome_as_label (wa_outcome a)))
        (observe_stage "sink_dispatch" m)
  | Some (WFinishing _ _), _ => write_loop_top s' (set_sink_inflight s' m)
  | _, _ => m
  end.

(** ** Metered runs *)

Definition emits (ev : SysEvent (W1 := W1) (W2 := W2)) (slow : bool) s s' m : RuntimeMetrics :=
  match ev with
  | EvActor p => actor_emits p slow s m
  | EvFetch i arm => fetch_emits i arm slow s s' m
  | EvDecode i arm => decode_emits i arm slow s s' m
  | EvWrite i arm sel => write_emits i arm sel s s' m
  | EvShutdown | EvSupervisorAbort | EvSourceWorld _ | EvSinkWorld _ => m
  end.

Definition metered_exec (ev : SysEvent (W1 := W1) (W2 := W2) * bool) (x : Sys C F W1 W2 T * RuntimeMetrics)
    : option (Sys C F W1 W2 T * RuntimeMetrics) :=
  s' ← exec cf ev.1 x.1; Some (s', emits ev.1 ev.2 x.1 s' x.2).

Fixpoint metered_exec_all (evs : list (SysEvent (W1 := W1) (W2 := W2) * bool))
    (x : Sys C F W1 W2 T * RuntimeMetrics) : option (Sys C F W1 W2 T * RuntimeMetrics) :=
  match evs with
  | [] => Some x
  | ev :: rest => x ← metered_exec ev x; metered_exec_all rest x
  end.

(** The spawn of the tasks: each worker reaches the top of its loop. *)
Definition start_emits s m : RuntimeMetrics :=
  Nat.iter (length (sy_writers s)) (write_loop_top s)
    (Nat.iter (length (sy_decoders s)) (decode_loop_top s)
       (Nat.iter (length (sy_fetchers s)) (fetch_loop_top s) m)).

(** Metrics do not influence a run, and every run can be metered. *)
Lemma metered_exec_all_run evs : ∀ x x',
  metered_exec_all evs x = Some x' → exec_all cf (fst <$> evs) x.1 = Some x'.1.
Proof.
  induction evs as [|[ev slow] evs IH]; intros [s m] x'; simpl; [by intros [= <-]|].
  unfold metered_exec. simpl. destruct (exec cf ev s) as [s1|]; [|done]. simpl. apply (IH (s1, _)).
Qed.

(** ** What the emissions leave alone *)

(** The families that only the actor writes, and the gauge that only the
    writers write. *)
Definition actor_families m : Family string N * Family string Z * Family string Z :=
  (descriptors_handed_out m, ack_frontier_gauge m, pending_ranges m).

Lemma timer_quiet reason slow m :
  actor_families (with_backpressure_timer (cf_source_id cf) reason slow m) = actor_families m ∧
  sink_inflight_bytes (with_backpressure_timer (cf_source_id cf) reason slow m) = sink_inflight_bytes m.
Proof. by destruct slow. Qed.

Lemma fetch_emits_quiet i arm slow s s' m :
  actor_families (fetch_emits i arm slow s s' m) = actor_families m ∧
  sink_inflight_bytes (fetch_emits i arm slow s s' m) = sink_inflight_bytes m.
Proof. unfold fetch_emits. repeat case_match; try done; apply timer_quiet. Qed.

Lemma decode_emits_quiet i arm slow s s' m :
  actor_families (decode_emits i arm slow s s' m) = actor_families m ∧
  sink_inflight_bytes (decode_emits i arm slow s s' m) = sink_inflight_bytes m.
Proof.
  unfold decode_emits, decode_one_emits. repeat case_match; try done; apply timer_quiet.
Qed.

Lemma write_emits_quiet i arm sel s s' m :
  actor_families (write_emits i arm sel s s' m) = actor_families m.
Proof. unfold write_emits. repeat case_match; try done; apply timer_quiet. Qed.

Lemma stage_gauges_quiet s m :
  actor_families (emit_stage_inflight_gauges s m) = actor_families m ∧
  sink_inflight_bytes (emit_stage_inflight_gauges s m) = sink_inflight_bytes m.
Proof. done. Qed.

(** ** The register-all pass *)

Definition handed m : N := default 0 (descriptors_handed_out m !! source_label).
Definition handed_ok (x : Sys C F W1 W2 T * RuntimeMetrics) : Prop :=
  handed x.2 = wrap64 (N.of_nat (length (admits (s_trace (sy_shared x.1))))).

Lemma register_metered_run d s m :
  match register_one d s with
  | (s', Ok _) => register_metered d (s, m) = ((s', on_descriptors_handed_out (inc source_label) m), Ok tt)
  | (s', Err e) => register_metered d (s, m) = ((s', m), Err e)
  end.
Proof.
  destruct (register_one d s) as [s' [[]|e]] eqn:E; unfold register_metered; rewrite run_bind; unfold zoom;
    simpl; by rewrite E.
Qed.

Lemma register_one_trace d s :
  match register_one d s with
  | (s', Ok _) => s_trace (sy_shared s') = s_trace (sy_shared s) ++ [TrAdmit (sbd_sequence d)]
  | (s', Err _) => s_trace (sy_shared s') = s_trace (sy_shared s)
  end.
Proof.
  unfold register_one. rewrite run_bind. unfold zoom at 1.
  destruct (register_pending _ _ _) as [c [[]|e]]; done.
Qed.

Lemma handed_inc m : handed (on_descriptors_handed_out (inc source_label) m) = wrapping_add64 (handed m) 1.
Proof. unfold handed, inc. simpl. by rewrite inc_by_lookup, decide_True. Qed.

(** The counter follows the trace, and the other metrics are not touched. *)
Lemma register_all_metered ds : ∀ s m s' r,
  for_each ds register_one s = (s', r) → handed_ok (s, m) →
  ∃ m', for_each ds register_metered (s, m) = ((s', m'), r) ∧ handed_ok (s', m') ∧
    (ack_frontier_gauge m', pending_ranges m', sink_inflight_bytes m') =
    (ack_frontier_gauge m, pending_ranges m, sink_inflight_bytes m) ∧
    acks (s_trace (sy_shared s')) = acks (s_trace (sy_shared s)) ∧
    a_progress (sy_actor s') = a_progress (sy_actor s).
Proof.
  induction ds as [|d ds IH]; intros s m s' r; [intros [= <- <-] Hok; by exists m|].
  change (for_each (d :: ds) register_one s) with ((register_one d ≫= λ _, for_each ds register_one) s).
  change (for_each (d :: ds) register_metered (s, m))
    with ((register_metered d ≫= λ _, for_each ds register_metered) (s, m)).
  rewrite !run_bind. pose proof (register_metered_run d s m) as Hone.
  pose proof (register_one_trace d s) as Htr.
  assert (a_progress (sy_actor (register_one d s).1) = a_progress (sy_actor s)) as Hpr.
  { unfold register_one. rewrite run_bind. unfold zoom at 1.
    by destruct (register_pending _ _ _) as [c [[]|e]]. }
  destruct (register_one d s) as [s1 [u|e]]; cbn [fst] in Hpr; rewrite Hone.
  - intros Hrun Hok. destruct (IH s1 (on_descriptors_handed_out (inc source_label) m) s' r Hrun)
      as (m' & Hm' & Hok' & Hq & Ha & Hp).
    { unfold handed_ok in *. simpl in *. rewrite handed_inc, Hok, Htr, admits_app, length_app, wrapping_add64_spec.
      f_equal. simpl. lia. }
    exists m'. split_and!; [done|done|done| |congruence]. rewrite Ha, Htr, acks_app. apply app_nil_r.
  - intros [= <- <-] Hok. exists m. unfold handed_ok in *. simpl in *. by rewrite Htr.
Qed.

(** ** The invariant *)

(** A writer may have left with its unit, without setting its gauge. *)
Definition troubled s : Prop :=
  s_abort (sy_shared s) = true ∨ (∃ e, WCFatal e ∈ s_completions (sy_shared s)) ∨
  ∃ e, a_pc (sy_actor s) = ADone (Err e).

(** A clean return leaves nothing to settle. *)
Definition settled s : Prop :=
  ∀ u, a_pc (sy_actor s) = ADone (Ok u) → s_abort (sy_shared s) = true ∨ units s = 0.

Record actor_gauges s m : Prop := {
  ag_ack : dry = false → ack_frontier_gauge m !! source_label = as_i64 <$> last (acks (s_trace (sy_shared s)));
  ag_pending : ∀ v, pending_ranges m !! source_label = Some v →
    v = as_i64 (N.of_nat (pending_ranges_total (a_progress (sy_actor s))));
}.

Record metrics_inv s m : Prop := {
  mi_handed : handed_ok (s, m);
  mi_actor : actor_done s = false → actor_gauges s m;
  mi_sink : troubled s ∨
    default 0%Z (sink_inflight_bytes m !! sink_label) = as_i64 (wrap64 (held_sum (sink_stage_held s)));
  mi_settled : settled s;
}.

Lemma handed_families m m' : actor_families m' = actor_families m → handed m' = handed m.
Proof. unfold actor_families, handed. by intros [= -> _ _]. Qed.

(** A step that the actor takes no part in. *)
Lemma quiet_actor_inv s s' m m' :
  sy_actor s' = sy_actor s → actor_families m' = actor_families m →
  admits (s_trace (sy_shared s')) = admits (s_trace (sy_shared s)) →
  acks (s_trace (sy_shared s')) = acks (s_trace (sy_shared s)) →
  handed_ok (s, m) → (actor_done s = false → actor_gauges s m) →
  handed_ok (s', m') ∧ (actor_done s' = false → actor_gauges s' m').
Proof.
  intros Ha Hm Had Hac Hok Hg. split.
  - unfold handed_ok in *. simpl in *. by rewrite (handed_families _ _ Hm), Had.
  - intros Hnd. assert (actor_done s = false) as Hnd0 by (unfold actor_done in *; by rewrite Ha in Hnd).
    destruct (Hg Hnd0) as [G1 G2]. unfold actor_families in Hm. injection Hm as _ Hm1 Hm2.
    split; rewrite ?Hm1, ?Hm2, ?Hac, ?Ha; done.
Qed.

(** *** Worker steps *)

Lemma worker_quiet s s' :
  worker_effect cf s s' →
  sy_actor s' = sy_actor s ∧ admits (s_trace (sy_shared s')) = admits (s_trace (sy_shared s)) ∧
  acks (s_trace (sy_shared s')) = acks (s_trace (sy_shared s)).
Proof.
  intros [Ha (cs & Ht & _) _ _]. split; [done|]. rewrite Ht, admits_app, acks_app, admits_calls, acks_calls.
  by rewrite !app_nil_r.
Qed.

Lemma worker_troubled s s' : worker_progress cf s s' → troubled s → troubled s'.
Proof.
  intros [Ha Hab _ (ms & Hms) _ _ _ _] [Ht|[(e & He)|(e & He)]].
  - left. congruence.
  - right; left. exists e. rewrite Hms. apply elem_of_app. by left.
  - right; right. exists e. congruence.
Qed.

Lemma worker_settled s s' : worker_progress cf s s' → settled s → settled s'.
Proof.
  intros [Ha Hab _ _ _ Hle _ _] Hs u Hu. rewrite Ha in Hu. rewrite Hab.
  destruct (Hs u Hu) as [|Hz]; [by left|]. right. lia.
Qed.

(** Fetchers and decoders leave the writers alone. *)
Lemma send_completion_writers msg s d s1 :
  send_completion cf msg s = Some (d, s1) → sy_writers s1 = sy_writers s.
Proof. intros Hsend. by destruct (send_completion_cases _ _ _ _ _ Hsend) as [(_ & _ & ->)|[_ ->]]. Qed.

Lemma fetch_step_writers i arm s s' : fetch_step cf i arm s = Some s' → sy_writers s' = sy_writers s.
Proof.
  unfold fetch_step, fetch_recv, fetch_run, fetch_send, abort_if.
  destruct (sy_fetchers s !! i) as [pc|]; [|done]. simpl.
  destruct pc as [|a|b|e r p|]; [destruct arm|destruct arm| | |]; try done;
    try (destruct (send_completion cf _ s) as [[d s1]|] eqn:Hsend; [|done]; simpl; intros [= <-];
         by rewrite <- (send_completion_writers _ _ _ _ Hsend));
    repeat case_match; intros; by simplify_eq.
Qed.

Lemma decode_step_writers i arm s s' : decode_step cf i arm s = Some s' → sy_writers s' = sy_writers s.
Proof.
  unfold decode_step, decode_recv, decode_run, decode_send, abort_if.
  destruct (sy_decoders s !! i) as [pc|]; [|done]. simpl.
  destruct pc as [|b|e seq|msg r p|r p|]; [destruct arm|destruct arm| | | |]; try done;
    try (destruct (send_completion cf _ s) as [[d s1]|] eqn:Hsend; [|done]; simpl; intros [= <-];
         rewrite <- (send_completion_writers _ _ _ _ Hsend); by destruct (report_continues _ _));
    repeat case_match; intros; by simplify_eq.
Qed.

(** *** The gauge of the writers *)

Definition sink_gauge_ok s m : Prop :=
  default 0%Z (sink_inflight_bytes m !! sink_label) = as_i64 (wrap64 (held_sum (sink_stage_held s))).

(** The dispatch counter of a reachable state ([run_counts]). *)
Definition dispatch_counted s : Prop :=
  stage_load stage_sink_dispatch (s_budget (sy_shared s)) = wrap64 (held_sum (sink_stage_held s)).

Lemma set_sink_inflight_ok s m : dispatch_counted s → sink_gauge_ok s (set_sink_inflight s m).
Proof.
  intros Hc. unfold sink_gauge_ok, set_sink_inflight, load_gauge, set_gauge. simpl.
  by rewrite lookup_insert_eq, Hc.
Qed.

Lemma sink_held_writer s s' i pc pc' :
  sy_writers s !! i = Some pc → sy_writers s' = <[i:=pc']> (sy_writers s) → write_held pc' = write_held pc →
  held_sum (sink_stage_held s') = held_sum (sink_stage_held s).
Proof.
  intros Hi Hw Hh. unfold sink_stage_held, held_sum. rewrite Hw.
  pose proof (sum_N_concat_insert write_held held _ _ _ pc' Hi) as Hs. rewrite Hh in Hs. lia.
Qed.

(** The unit of a writer that reports is not settled. *)
Lemma reporting_unit s i msg r p :
  sy_writers s !! i = Some (WReporting msg r p) → 0 < units s.
Proof.
  intros Hi. set (w := wt_write (unit_weights (T := T))).
  assert (1 ∈ w <$> sy_writers s) as Hin.
  { apply list_elem_of_fmap. exists (WReporting msg r p). split; [done|]. by eapply list_elem_of_lookup_2. }
  apply sum_N_elem in Hin. unfold units, weigh. fold w. lia.
Qed.

(** A writer step sets the gauge when it changes what the writers hold, unless
    the writer leaves with its unit. *)
Lemma write_step_sink i arm sel s s' m :
  write_step cf i arm sel s = Some s' → settled s → dispatch_counted s' → sink_gauge_ok s m →
  troubled s' ∨ sink_gauge_ok s' (write_emits i arm sel s s' m).
Proof.
  unfold write_step, write_emits. destruct (sy_writers s !! i) as [pc|] eqn:Hi; [|done]. simpl.
  intros Hex Hset Hcount Hg.
  assert (∀ pc' m', sy_writers s' = <[i:=pc']> (sy_writers s) → write_held pc' = write_held pc →
    sink_inflight_bytes m' = sink_inflight_bytes m → troubled s' ∨ sink_gauge_ok s' m') as Hsame.
  { intros pc' m' Hw Hh Hm. right. unfold sink_gauge_ok in *.
    by rewrite Hm, (sink_held_writer _ _ _ _ _ Hi Hw Hh). }
  unfold abort_if in Hex. destruct pc as [|e rp|msg r p|r p|]; [destruct arm| | | |]; try done.
  - unfold write_recv in Hex. destruct (s_commits (sy_shared s)) as [|e rest].
    + destruct (commits_closed s); [|done]. injection Hex as <-. by apply (Hsame WExited).
    + right. by apply set_sink_inflight_ok.
  - destruct (s_abort (sy_shared s)) eqn:Hab; [|done]. injection Hex as <-. by left; left.
  - unfold write_run in Hex. destruct rp as [k|k err|k|a].
    4: { injection Hex as <-. by apply (Hsame (WReporting (completion_of (sce_range e) a) (sce_reservation e) (sce_permit e))). }
    all: destruct (_ && _); [done|]; destruct (retry_step _ _ _ _ _ _) as [[rp' w2] call];
      injection Hex as <-; apply (Hsame (WWriting e rp')); [done..|]; try done; apply timer_quiet.
  - destruct (send_completion cf _ s) as [[d s1]|] eqn:Hsend; [|done]. simpl in Hex. injection Hex as <-.
    destruct (send_completion_cases _ _ _ _ _ Hsend) as [(-> & Hd & ->)|[-> ->]].
    + left. assert (report_continues msg false = false) as -> by by destruct msg.
      unfold actor_done in Hd. destruct (a_pc (sy_actor s)) as [| | | |[u|e]] eqn:Hpc; try done.
      * destruct (Hset u Hpc) as [Hab|Hz]; [by left|]. pose proof (reporting_unit _ _ _ _ _ Hi). lia.
      * right; right. by exists e.
    + destruct msg as [rep|e]; simpl.
      * by apply (Hsame (WFinishing r p)).
      * left. right; left. exists e. simpl. apply elem_of_app. right. by left.
  - injection Hex as <-. right. unfold write_loop_top. by apply set_sink_inflight_ok.
Qed.

(** *** Steps of the actor *)

(** What an actor step other than the completion arm leaves alone. *)
Definition same_outside s s' : Prop :=
  (sy_writers s', s_completions (sy_shared s'), s_abort (sy_shared s')) =
  (sy_writers s, s_completions (sy_shared s), s_abort (sy_shared s)).

Lemma kept_outside s s' : kept s s' → same_outside s s'.
Proof. intros [[= _ _ Hw] [= _ _ _ Hm] [= _ Hab]]. unfold same_outside. congruence. Qed.

Lemma drain_kept s : kept s (drain_finish cf s).
Proof.
  unfold drain_finish. destruct (negb _); [|by repeat apply kept_actor].
  pose proof (framed_flush s) as Hf. destruct (flush_logged s) as [s1 [u|e]]; cbn [fst] in Hf;
    by repeat apply kept_actor; apply kept_frame.
Qed.

Lemma poll_kept gates s : kept s (poll_descriptors gates s).
Proof.
  unfold poll_descriptors. destruct (next_descriptors _ _ _) as [[src w1] polled].
  destruct polled as [[|d ds]|e]; [by etrans; [|apply kept_release]| |by etrans; [|apply kept_release]].
  set (s1 := on_shared (release_all _) _). assert (kept s s1) as Hk1 by (etrans; [|apply kept_release]; done).
  pose proof (framed_for_each (d :: ds) register_one framed_register_one s1) as Hfr.
  assert (kept s (for_each (d :: ds) register_one s1).1) as Hk2 by (etrans; [exact Hk1|by apply kept_frame]).
  destruct (for_each (d :: ds) register_one s1) as [s2 [u|e]]; cbn [fst] in Hk2.
  - by apply kept_actor.
  - etrans; [|apply kept_release]. by apply kept_finish.
Qed.

Lemma actor_step_shape p s s' :
  actor_step cf p s = Some s' →
  (a_pc (sy_actor s) = ALoop ∧ select_arm (sy_actor s) p = Some ArmCompletion ∧ completion_arm cf s = Some s') ∨
  same_outside s s'.
Proof.
  unfold actor_step. destruct (a_pc (sy_actor s)) as [|gates| |[|u us]|r] eqn:Hpc; [| | | | |done].
  - destruct (_ && _); [intros [= <-]; right; apply kept_outside, drain_kept|].
    unfold actor_select. destruct (select_arm _ _) as [[]|] eqn:Hsel; [| | | |done].
    + destruct (s_abort _); [|done]. intros [= <-]. by right.
    + destruct (s_shutdown _); [|done]. intros [= <-]. by right.
    + by left.
    + destruct (admission_attempt _ _) as [[g sh]|] eqn:Hadm; [|done].
      destruct (open_gates cf g sh) as [gates sh'] eqn:Hopen. intros [= <-]. right.
      destruct (open_gates_rsteps _ _ _ _ _ [] Hopen) as [_ ->].
      unfold admission_attempt in Hadm. destruct (0 <? _); [|done].
      destruct (reserve _ _) as [[r|] bud]; [|done]. by simplify_eq.
  - intros [= <-]. right. apply kept_outside, poll_kept.
  - intros [= <-]. by right.
  - intros [= <-]. by right.
  - unfold send_descriptor. destruct u as [d g]. destruct (descriptors_closed s).
    + intros [= <-]. right. apply kept_outside. etrans; [by apply kept_finish|].
      apply (kept_release (ag_reservation g :: _)).
    + destruct (has_room cf _); [|done]. intros [= <-]. by right.
Qed.

Lemma completion_outside s s' :
  completion_arm cf s = Some s' →
  sy_writers s' = sy_writers s ∧ s_abort (sy_shared s') = s_abort (sy_shared s) ∧
  ((∃ e, a_pc (sy_actor s') = ADone (Err e)) ∨
   ∃ rep rest, s_completions (sy_shared s) = WCCommitted rep :: rest ∧ s_completions (sy_shared s') = rest ∧
     on_committed cf rep (on_shared (with_completions rest) s) = (s', Ok tt)).
Proof.
  unfold completion_arm. destruct (s_completions (sy_shared s)) as [|m rest] eqn:Hm; simpl.
  { destruct (completion_senders_gone s); [|done]. intros [= <-]. split_and!; [done..|]. left. by eexists. }
  destruct m as [rep|e]; [|intros [= <-]; split_and!; [done..|]; left; by eexists].
  set (s0 := on_shared (with_completions rest) s).
  pose proof (framed_on_committed cf rep s0) as Hfr.
  destruct (on_committed cf rep s0) as [s1 [[]|e]] eqn:Hrun; intros [= <-];
    destruct (kept_frame _ _ Hfr) as [[= _ _ Hw] [= _ _ _ Hc] [= _ Hab]]; cbn [fst] in *;
    (split_and!; [exact Hw|exact Hab|]).
  - right. by exists rep, rest.
  - left. by eexists.
Qed.

Lemma actor_troubled p s s' :
  actor_step cf p s = Some s' → actor_done s = false →
  (troubled s → troubled s') ∧ sy_writers s' = sy_writers s.
Proof.
  intros Hstep Hnd. destruct (actor_step_shape _ _ _ Hstep) as [(_ & _ & Harm)|[= Hw Hm Hab]].
  - destruct (completion_outside _ _ Harm) as (Hw & Hab & Hend). split; [|done].
    intros [Ht|[(e & He)|(e & He)]].
    + left. congruence.
    + destruct Hend as [Hend|(rep & rest & Hm & Hm' & _)]; [by right; right|].
      rewrite Hm in He. apply elem_of_cons in He as [|He]; [done|]. right; left. exists e. by rewrite Hm'.
    + unfold actor_done in Hnd. by rewrite He in Hnd.
  - split; [|done]. intros [Ht|[(e & He)|(e & He)]].
    + left. congruence.
    + right; left. exists e. congruence.
    + unfold actor_done in Hnd. by rewrite He in Hnd.
Qed.

(** The actor returns [Ok] from the drain only. *)
Lemma actor_returns_ok p s s' u :
  actor_step cf p s = Some s' → a_pc (sy_actor s') = ADone (Ok u) →
  a_pc (sy_actor s) = ALoop ∧ a_in_flight (sy_actor s) = 0 ∧ kept s s'.
Proof.
  unfold actor_step. destruct (a_pc (sy_actor s)) as [|gates| |[|x us]|r] eqn:Hpc; [| | | | |done].
  - destruct (_ && _) eqn:Hd.
    + intros [= <-] _. split_and!; [done| |apply drain_kept]. apply andb_true_iff in Hd as [_ Hd].
      by apply N.eqb_eq.
    + unfold actor_select. destruct (select_arm _ _) as [[]|]; [| | | |done].
      * destruct (s_abort _); [|done]. by intros [= <-].
      * destruct (s_shutdown _); [|done]. intros [= <-]. simpl. by rewrite Hpc.
      * intros Harm Hok. exfalso. unfold completion_arm in Harm.
        destruct (s_completions (sy_shared s)) as [|m rest]; simpl in Harm.
        { destruct (completion_senders_gone s); [|done]. injection Harm as <-. by simpl in Hok. }
        destruct m as [rep|e]; [|injection Harm as <-; by simpl in Hok].
        pose proof (framed_on_committed cf rep (on_shared (with_completions rest) s)) as Hfr.
        destruct (on_committed cf rep _) as [s1 [v|e]]; injection Harm as <-; [|by simpl in Hok].
        pose proof (fr_pc _ _ Hfr) as Hpc1. simpl in Hpc1. congruence.
      * destruct (admission_attempt _ _) as [[g sh]|]; [|done]. destruct (open_gates cf g sh).
        by intros [= <-].
  - intros [= <-]. unfold poll_descriptors. destruct (next_descriptors _ _ _) as [[src w1] [[|d ds]|e]]; [done| |done].
    by destruct (for_each _ _ _) as [s2 [v|e]].
  - by intros [= <-].
  - by intros [= <-].
  - unfold send_descriptor. destruct x as [d g]. destruct (descriptors_closed s); [by intros [= <-]|].
    destruct (has_room cf _); [|done]. by intros [= <-].
Qed.

Lemma actor_settled p s s' :
  actor_step cf p s = Some s' → actor_done s = false → balanced s → settled s'.
Proof.
  intros Hstep Hnd Hb u Hu. destruct (actor_returns_ok _ _ _ _ Hstep Hu) as (Hpc & Hz & Hk).
  destruct Hb as [[Ha|Hd]|Hb]; [left|congruence|right].
  - destruct Hk as [_ _ [= _ Hab]]. congruence.
  - unfold units in *. rewrite weigh_split, (kept_weight _ _ _ Hk), Hu. rewrite weigh_split, Hpc in Hb.
    simpl in *. lia.
Qed.

(** What the gauges of the actor need of a step. *)
Lemma actor_gauges_same s s' m m' :
  acks (s_trace (sy_shared s')) = acks (s_trace (sy_shared s)) →
  a_progress (sy_actor s') = a_progress (sy_actor s) →
  (ack_frontier_gauge m', pending_ranges m') = (ack_frontier_gauge m, pending_ranges m) →
  actor_gauges s m → actor_gauges s' m'.
Proof. intros Ha Hp [= H1' H2'] []. split; rewrite ?Ha, ?Hp, ?H1', ?H2'; done. Qed.

Lemma poll_metrics gates s m :
  handed_ok (s, m) → actor_gauges s m →
  let s' := poll_descriptors gates s in
  let m' := poll_emits gates s m in
  handed_ok (s', m') ∧ actor_gauges s' m' ∧ sink_inflight_bytes m' = sink_inflight_bytes m.
Proof.
  intros Hok Hg. unfold poll_descriptors, poll_emits.
  destruct (next_descriptors _ _ _) as [[src w1] polled].
  set (s0 := on_shared (with_w1 w1) (on_actor (with_source src) s)).
  assert (∀ rs (x : Sys C F W1 W2 T), s_trace (sy_shared (on_shared (release_all rs) x)) = s_trace (sy_shared x)) as Hrel.
  { intros rs x. simpl. by rewrite release_all_capacity. }
  destruct polled as [[|d ds]|e].
  - split_and!; [|eapply actor_gauges_same; [..|exact Hg]; [by rewrite Hrel|done|done]|done].
    unfold handed_ok in *. simpl fst. rewrite Hrel. exact Hok.
  - set (s1 := on_shared (release_all (ag_reservation <$> drop (length (d :: ds)) gates)) s0).
    set (m1 := if (length (d :: ds) <? length gates)%nat then _ else _).
    assert (handed_ok (s1, m1)) as Hok1.
    { unfold handed_ok in *. simpl fst. unfold s1. rewrite Hrel. unfold m1. by destruct (_ <? _)%nat. }
    assert ((ack_frontier_gauge m1, pending_ranges m1, sink_inflight_bytes m1) =
            (ack_frontier_gauge m, pending_ranges m, sink_inflight_bytes m)) as [= Q1 Q2 Q3]
      by (unfold m1; by destruct (_ <? _)%nat).
    destruct (for_each (d :: ds) register_one s1) as [s2 r] eqn:Hrun.
    destruct (register_all_metered _ _ m1 _ _ Hrun Hok1) as (m' & Hm & Hok2 & [= E1 E2 E3] & Ha & Hp).
    rewrite Hm. simpl.
    assert (acks (s_trace (sy_shared s2)) = acks (s_trace (sy_shared s))) as Ha2.
    { rewrite Ha. unfold s1. by rewrite Hrel. }
    assert (handed_ok (s2, m') ∧ actor_gauges s2 m') as [G1 G2].
    { split; [done|]. eapply actor_gauges_same; [exact Ha2| | |exact Hg]; [by rewrite Hp|congruence]. }
    destruct r as [u|e].
    + split_and!; [exact G1|by apply (actor_gauges_same s2 _ m')|congruence].
    + split_and!; [|eapply actor_gauges_same; [..|exact G2]; [by rewrite Hrel|done|done]|congruence].
      unfold handed_ok in *. simpl fst. rewrite Hrel. exact G1.
  - split_and!; [|eapply actor_gauges_same; [..|exact Hg]; [by rewrite Hrel|done|done]|done].
    unfold handed_ok in *. simpl fst. rewrite Hrel. exact Hok.
Qed.

(** The completion arm ends with the progress sample. *)
Lemma on_committed_sample rep s s' :
  on_committed cf rep s = (s', Ok tt) →
  pending_ranges_total (a_progress (sy_actor s')) = pending_count (a_coordinator (sy_actor s')).
Proof.
  intros Hrun. unfold on_committed in Hrun. destruct (rep_range rep) as [low high].
  do 5 (apply run_bind_inv in Hrun as (? & ? & _ & Hrun)).
  apply run_bind_inv in Hrun as (s1 & ? & _ & Hrun). unfold modify in Hrun. by injection Hrun as <-.
Qed.

Lemma completion_metrics b s s' m :
  completion_arm cf s = Some s' → a_pc (sy_actor s) = ALoop → safe_state cf b s → safe_state cf b s' →
  handed_ok (s, m) → actor_gauges s m →
  let m' := completion_emits s m in
  handed_ok (s', m') ∧ (actor_done s' = false → actor_gauges s' m') ∧
  sink_inflight_bytes m' = sink_inflight_bytes m.
Proof.
  intros Harm Hpc Hsafe Hsafe' Hok Hg. unfold completion_emits, completion_arm in *.
  destruct (s_completions (sy_shared s)) as [|[rep|e] rest] eqn:Hm; simpl in Harm.
  { destruct (completion_senders_gone s); [|done]. by injection Harm as <-. }
  2: { by injection Harm as <-. }
  set (s0 := on_shared (with_completions rest) s) in *.
  pose proof (reading_on_committed cf rep s0) as Hread. pose proof (framed_on_committed cf rep s0) as Hfr.
  destruct (on_committed cf rep s0) as [s1 [[]|e]] eqn:Hrun; injection Harm as <-; cbn [fst] in Hread, Hfr;
    injection Hread as _ Hadm.
  2: { split_and!; [|done|done]. unfold handed_ok in *. simpl in *. by rewrite Hadm. }
  assert (∀ m1, handed m1 = handed m → handed_ok (s1, m1)) as Hhand.
  { intros m1 Hm1. unfold handed_ok in *. simpl in *. by rewrite Hm1, Hadm. }
  assert (handed (ack_emits s s1 m) = handed m ∧
          sink_inflight_bytes (ack_emits s s1 m) = sink_inflight_bytes m ∧
          pending_ranges (ack_emits s s1 m) = pending_ranges m) as (Q1 & Q2 & Q3).
  { unfold ack_emits. repeat case_match; done. }
  split_and!; [by apply Hhand| |exact Q2].
  intros _. destruct Hg as [Hack _]. split.
  - intros Hdry. specialize (Hack Hdry). destruct Hsafe' as (h & lost & Hsafe').
    pose proof (sf_acked _ _ _ _ _ Hsafe' Hdry) as Hl. rewrite Hl.
    change (ack_frontier_gauge (ack_emits s s1 m) !! source_label = as_i64 <$> frontier (a_coordinator (sy_actor s1))).
    unfold ack_emits. rewrite Hdry. destruct (frontier (a_coordinator (sy_actor s1))) as [f|].
    + simpl. unfold set_gauge. by rewrite lookup_insert_eq.
    + rewrite Hack. destruct (fr_shared _ _ Hfr) as (w1 & tr & Hsh).
      assert (s_trace (sy_shared s1) = s_trace (sy_shared s) ++ tr) as Ht by by rewrite Hsh.
      apply last_None in Hl. rewrite Ht, acks_app in Hl. by apply app_nil in Hl as [-> _].
  - intros v Hv. change (pending_ranges (on_pending_ranges (set_gauge
      (as_i64 (N.of_nat (pending_count (a_coordinator (sy_actor s1))))) source_label)
      (ack_emits s s1 m)) !! source_label = Some v) in Hv. simpl in Hv. unfold set_gauge in Hv.
    rewrite lookup_insert_eq in Hv. injection Hv as <-. by rewrite (on_committed_sample _ _ _ Hrun).
Qed.

Lemma actor_metrics b p slow s s' m :
  actor_step cf p s = Some s' → actor_done s = false → safe_state cf b s → safe_state cf b s' →
  handed_ok (s, m) → actor_gauges s m →
  let m' := actor_emits p slow s m in
  handed_ok (s', m') ∧ (actor_done s' = false → actor_gauges s' m') ∧
  sink_inflight_bytes m' = sink_inflight_bytes m.
Proof.
  intros Hstep Hnd Hsafe Hsafe' Hok Hg. unfold actor_emits. unfold actor_step in Hstep.
  destruct (a_pc (sy_actor s)) as [|gates| |[|u us]|r] eqn:Hpc; [| | | | |done].
  - destruct (_ && _) eqn:Hd.
    { injection Hstep as <-. assert (admits (s_trace (sy_shared (drain_finish cf s))) = admits (s_trace (sy_shared s)) ∧
        actor_done (drain_finish cf s) = true) as [Ha Hdn].
      { unfold drain_finish. destruct (negb (dry_run _)); [|done]. pose proof (reading_flush s) as Hr.
        destruct (flush_logged s) as [s1 [u|e]]; cbn [fst] in Hr; injection Hr as _ Hr; done. }
      split_and!; [|by rewrite Hdn|done]. unfold handed_ok in *. simpl in *. by rewrite Ha. }
    set (m0 := with_backpressure_timer _ _ _ m).
    destruct (timer_quiet SourceBudgetReason (slow && a_admission_open (sy_actor s)) m) as [Hq1 Hq2].
    fold m0 in Hq1, Hq2. injection Hq1 as E1 E2 E3.
    assert (handed_ok (s, m0)) as Hok0 by (unfold handed_ok, handed in *; simpl in *; by rewrite E1).
    assert (actor_gauges s m0) as Hg0 by (apply (actor_gauges_same s s m m0); [done..|congruence|done]).
    unfold actor_select in Hstep. destruct (select_arm _ _) as [[]|]; [| | | |done].
    + destruct (s_abort _); [|done]. by injection Hstep as <-.
    + destruct (s_shutdown _); [|done]. injection Hstep as <-. split_and!; [exact Hok0| |exact Hq2].
      intros _. by apply (actor_gauges_same s _ m0).
    + rewrite <- Hq2. by apply (completion_metrics b).
    + destruct (admission_attempt _ _) as [[g sh]|] eqn:Hadm; [|done].
      destruct (open_gates cf g sh) as [gates sh'] eqn:Hopen. injection Hstep as <-.
      destruct (open_gates_rsteps _ _ _ _ _ [] Hopen) as [_ ->].
      unfold admission_attempt in Hadm. destruct (0 <? _); [|done].
      destruct (reserve _ _) as [[r|] bud]; [|done]. simplify_eq. split_and!; [done| |done].
      intros _. by apply (actor_gauges_same s _ m0).
  - injection Hstep as <-. destruct (poll_metrics gates s m Hok Hg) as (G1 & G2 & G3). by split_and!.
  - injection Hstep as <-. split_and!; [done| |done]. intros _. by apply (actor_gauges_same s _ m).
  - injection Hstep as <-. split_and!; [done| |done]. intros _. by apply (actor_gauges_same s _ m).
  - unfold send_descriptor in Hstep. destruct u as [d g]. destruct (descriptors_closed s).
    + injection Hstep as <-. split_and!; [|done|done]. unfold handed_ok in *. simpl in *.
      by rewrite release_all_capacity.
    + destruct (has_room cf _); [|done]. injection Hstep as <-. split_and!; [done| |done].
      intros _. by apply (actor_gauges_same s _ m).
Qed.

(** *** Every step *)

Lemma sink_gauge_same s s' m m' :
  sy_writers s' = sy_writers s → sink_inflight_bytes m' = sink_inflight_bytes m →
  sink_gauge_ok s m → sink_gauge_ok s' m'.
Proof. intros Hw Hm Hg. unfold sink_gauge_ok, sink_stage_held in *. by rewrite Hw, Hm. Qed.

(** A worker step, given what it does to the gauge of the writers. *)
Lemma worker_metrics s s' m m' :
  worker_effect cf s s' → worker_progress cf s s' → actor_families m' = actor_families m →
  (sink_gauge_ok s m → troubled s' ∨ sink_gauge_ok s' m') →
  metrics_inv s m → metrics_inv s' m'.
Proof.
  intros He Hp Hm Hsink [Hok Hg Hs Hset]. destruct (worker_quiet _ _ He) as (Ha & Had & Hac).
  destruct (quiet_actor_inv _ _ _ _ Ha Hm Had Hac Hok Hg) as [Hok' Hg'].
  split; [done|done| |by apply (worker_settled s)].
  destruct Hs as [Ht|Hs]; [left; by apply (worker_troubled s)|by apply Hsink].
Qed.

Lemma metered_step b ev slow s s' m :
  exec cf ev s = Some s' → is_u32 (effective_retry_max_attempts (cf_options cf)) →
  safe_state cf b s → progress_inv s → dispatch_counted s' →
  metrics_inv s m → metrics_inv s' (emits ev slow s s' m).
Proof.
  intros Hex Hm Hsafe Hpi Hcount Hinv. pose proof (exec_safe cf b _ _ _ Hex Hsafe) as Hsafe'.
  destruct ev as [| |p|i arm|i arm|i arm sel|f|f]; simpl in Hex |- *.
  - injection Hex as <-. destruct Hinv as [Hok Hg Hs Hset].
    split; [exact Hok| |exact Hs|exact Hset]. intros Hnd. apply (actor_gauges_same s _ m); [done..|by apply Hg].
  - unfold supervisor_abort in Hex. destruct (a_pc (sy_actor s)) as [| | | |[|e]] eqn:Hpc; try done.
    injection Hex as <-. destruct Hinv as [Hok Hg Hs Hset]. split; [exact Hok| |by left; left|intros u Hu; by left].
    intros Hnd. unfold actor_done in Hnd. simpl in Hnd. by rewrite Hpc in Hnd.
  - assert (actor_done s = false) as Hnd.
    { unfold actor_done, actor_step in *. by destruct (a_pc (sy_actor s)). }
    destruct Hinv as [Hok Hg Hs Hset].
    destruct (actor_metrics b p slow s s' m Hex Hnd Hsafe Hsafe' Hok (Hg Hnd)) as (G1 & G2 & G3).
    destruct (actor_troubled _ _ _ Hex Hnd) as [Ht Hw].
    split; [done|done| |by apply (actor_settled p s); [done..|apply Hpi]].
    destruct Hs as [Hs|Hs]; [left; by apply Ht|right]. by apply (sink_gauge_same s _ m).
  - destruct (fetch_emits_quiet i arm slow s s' m) as [Q1 Q2].
    apply (worker_metrics s _ m); [by eapply fetch_step_effect|by eapply fetch_step_progress|done| |done].
    intros Hg. right. apply (sink_gauge_same s _ m); [by eapply fetch_step_writers|done|done].
  - destruct (decode_emits_quiet i arm slow s s' m) as [Q1 Q2].
    apply (worker_metrics s _ m); [by eapply decode_step_effect|by eapply decode_step_progress|done| |done].
    intros Hg. right. apply (sink_gauge_same s _ m); [by eapply decode_step_writers|done|done].
  - apply (worker_metrics s _ m); [by eapply write_step_effect|by eapply write_step_progress
      |apply write_emits_quiet| |done].
    intros Hg. eapply write_step_sink; [exact Hex|apply Hinv|done|done].
  - injection Hex as <-. destruct Hinv as [Hok Hg Hs Hset].
    split; [exact Hok| |exact Hs|exact Hset]. intros Hnd. apply (actor_gauges_same s _ m); [done..|by apply Hg].
  - injection Hex as <-. destruct Hinv as [Hok Hg Hs Hset].
    split; [exact Hok| |exact Hs|exact Hset]. intros Hnd. apply (actor_gauges_same s _ m); [done..|by apply Hg].
Qed.
End metrics.

Section run_metrics.
Context {C F W1 D K W2 T : Type}.
Context `{ConsumerLaws C F W1} `{TypedRecords T} `{Decoder D T} `{Sink K W2 T}.
Implicit Types s : Sys C F W1 W2 T.

(** A run of the runtime that [b] builds, with fresh metrics. *)
Definition metered_run (evs : list (SysEvent (W1 := W1) (W2 := W2) * bool)) (b : RuntimeBuilder C F D K)
    (w1 : W1) (w2 : W2) (cf : Config F D K) s (m : RuntimeMetrics) : Prop :=
  ∃ rt s0, build b = Ok rt ∧ run_start rt w1 w2 = Ok s0 ∧ cf = run_config rt ∧
           metered_exec_all cf evs (s0, start_emits cf s0 RuntimeMetrics_new) = Some (s, m).

Lemma metered_exec_all_inv b w1 w2 cf evs : ∀ s m s' m',
  metered_exec_all cf evs (s, m) = Some (s', m') →
  run_reaches b w1 w2 cf s → baseline_u64 b → is_u32 (effective_retry_max_attempts (cf_options cf)) →
  metrics_inv cf s m → run_reaches b w1 w2 cf s' ∧ metrics_inv cf s' m'.
Proof.
  induction evs as [|[ev slow] evs IH]; intros s m s' m'; simpl; [by intros [= <- <-]|].
  unfold metered_exec. simpl. destruct (exec cf ev s) as [s1|] eqn:Hev; [|done]. simpl.
  intros Hrun Hreach Hu Hm Hinv.
  assert (run_reaches b w1 w2 cf s1) as Hreach1.
  { apply (reaches_on b w1 w2 cf s [ev]); [done|]. simpl. by rewrite Hev. }
  apply (IH _ _ _ _ Hrun Hreach1 Hu Hm).
  pose proof (run_live _ _ _ _ _ Hreach Hu Hm) as [Hsafe Hpi _ _ _ _].
  apply (metered_step cf (baseline b) ev slow s s1 m Hev Hm Hsafe Hpi); [|done].
  by destruct (run_counts _ _ _ _ _ Hreach1) as (_ & _ & _ & Hd).
Qed.

Lemma iter_inv {A} (P : A → Prop) (f : A → A) n x : (∀ y, P y → P (f y)) → P x → P (Nat.iter n f x).
Proof. intros Hf Hx. induction n; simpl; auto. Qed.

(** No family of interest is touched by the start of the tasks. *)
Lemma start_emits_quiet (cf : Config F D K) s m :
  (actor_families (start_emits cf s m), sink_inflight_bytes (start_emits cf s m)) =
  (actor_families m, sink_inflight_bytes m).
Proof.
  unfold start_emits. set (P m' := (actor_families m', sink_inflight_bytes m') = (actor_families m, sink_inflight_bytes m)).
  by repeat apply (iter_inv P).
Qed.

Lemma metered_run_inv evs b w1 w2 cf s m :
  metered_run evs b w1 w2 cf s m → baseline_u64 b → is_u32 (effective_retry_max_attempts (cf_options cf)) →
  run_reaches b w1 w2 cf s ∧ metrics_inv cf s m.
Proof.
  intros (rt & s0 & Hb & Hs0 & Hcf & Hrun) Hu Hm. eapply metered_exec_all_inv; [exact Hrun| |done|done|].
  { by exists rt, s0, []. }
  pose proof (start_emits_quiet cf s0 RuntimeMetrics_new) as [= E1 E2 E3 E4].
  unfold run_start in Hs0. destruct (take_coordinator _ _) as [[coord|] reg]; [|done]. simpl in Hs0.
  injection Hs0 as Hs0. rewrite <- Hs0 in *. split.
  - unfold handed_ok, handed. simpl in *. by rewrite E1.
  - intros _. split.
    + intros _. simpl in *. by rewrite E2.
    + intros v. simpl in *. by rewrite E3.
  - right. unfold sink_stage_held. simpl in *. rewrite E4. simpl.
    by rewrite concat_replicate_nil.
  - intros u. simpl. done.
Qed.

(** A pipeline that ended cleanly holds nothing. *)
Lemma ended_clean s u :
  settled s → ended s = true → a_pc (sy_actor s) = ADone (Ok u) → s_abort (sy_shared s) = false →
  ¬ troubled s ∧ sink_stage_held s = [].
Proof.
  intros Hset He Hpc Hab. destruct (Hset u Hpc) as [|Hz]; [congruence|]. split.
  - intros [Ht|[(e & Hin)|(e & Ht)]]; [congruence| |congruence].
    unfold units, weigh in Hz. assert (s_completions (sy_shared s) = []) as Hm; [|by rewrite Hm in Hin; apply elem_of_nil in Hin].
    destruct (s_completions (sy_shared s)); [done|]. rewrite each_cons in Hz. simpl in Hz. lia.
  - unfold ended in He. apply andb_true_iff in He as [_ Hw]. unfold sink_stage_held. apply concat_nil.
    apply Forall_lookup. intros i pc Hi. unfold writers_gone in Hw.
    pose proof (forallb_lookup _ _ _ _ Hw Hi). by destruct pc.
Qed.

End run_metrics.

(** ** The property at work *)

(** The demonstration run, metered; the scheduled waits are short. *)
Definition demo_metered (evs : list DemoEvent) : option (DemoSys * RuntimeMetrics) :=
  s0 ← demo_run false [];
  metered_exec_all (demo_config false) ((λ ev, (ev, false)) <$> evs)
    (s0, start_emits (demo_config false) s0 RuntimeMetrics_new).

Lemma demo_metered_run evs s m :
  demo_metered evs = Some (s, m) →
  metered_run ((λ ev, (ev, false)) <$> evs) (demo_builder false) demo_world demo_sink_world (demo_config false) s m.
Proof.
  unfold demo_metered. destruct (demo_run false []) as [s1|] eqn:Hs1; [|done]. simpl.
  destruct (demo_run_start _ _ _ Hs1) as (rt & s0 & Hb & Hs0 & Hcf & Hrun). simpl in Hrun. injection Hrun as ->.
  intros Hm. by exists rt, s1.
Qed.

Definition demo_metered_events : list DemoEvent :=
  demo_admit ++ demo_decode ++ demo_write ++ [EvActor (polls false true true)].

