(* ===== verification/SinkGauge.v ===== *)
(** * The sink byte gauge under concurrency
    (runtime/opendata-ingest-runtime/src/runtime.rs, [writer_worker])

    [PipelineMetrics] sets the gauge and reads the counter that feeds it in one
    step.  Here the two are steps of their own, as they are in the source, and
    the writers take turns between them: what the gauge then promises, and what
    it does not. *)

From Stdlib Require Import NArith Lia.
From S2P Require Import Prelude.
From S2P Require Import Async.
From S2P Require Import Metrics.
Local Open Scope N_scope.

(** What a writer does to the counter [stage_bytes.sink_dispatch] and to the
    gauge; [GWrite] is the await of the write and of the report. *)
Inductive GaugeCall :=
| GAttach (held : N)
| GLoad
| GSet (v : Z)
| GWrite
| GDrop (held : N).

Definition gauge_answer (c : GaugeCall) : Type := match c with GLoad => N | _ => unit end.

(** The counter, the gauge, and the values the counter has had. *)
Record GaugeState := { g_counter : N; g_gauge : Z; g_past : list N }.

Definition set_counter (v : N) (s : GaugeState) : GaugeState :=
  {| g_counter := v; g_gauge := g_gauge s; g_past := v :: g_past s |}.

Definition gauge_handle (c : GaugeCall) (s : GaugeState) : GaugeState * gauge_answer c :=
  match c with
  | GAttach held => (set_counter (wrapping_add64 (g_counter s) held) s, tt)
  | GLoad => (s, g_counter s)
  | GSet v => ({| g_counter := g_counter s; g_gauge := v; g_past := g_past s |}, tt)
  | GWrite => (s, tt)
  | GDrop held => (set_counter (wrapping_sub64 (g_counter s) held) s, tt)
  end.

Abbreviation Unit := (Fut gauge_answer unit).

(** [gauge.set(counter.load(SeqCst) as i64)]. *)
Definition emit_gauge (rest : Unit) : Unit := Call GLoad (λ v : gauge_answer GLoad, Call (GSet (as_i64 v)) (λ _, rest)).

(** One envelope in a writer: attach, emit, write and report, then drop and
    emit; after a fatal error, or when the actor has gone, the worker returns
    and only drops. *)
Definition writer_unit (held : N) (leaves : bool) : Unit :=
  Call (GAttach held) (λ _, emit_gauge (Call GWrite (λ _,
  Call (GDrop held) (λ _, if leaves then Ready tt else emit_gauge (Ready tt))))).

Definition no_events (c : GaugeCall) (_ : gauge_answer c) : list unit := [].
Definition gauge_run (evs : list (PoolEvent (answer := gauge_answer) unit)) : option (Pool (Ev := unit) unit) :=
  pool_run no_events gauge_handle (λ _, false) (λ _ s, s) (λ _, []) evs
    (pool_start {| g_counter := 0; g_gauge := 0%Z; g_past := [0] |}).

(** ** The gauge shows a value the counter has had *)

Definition gauge_in_past (s : GaugeState) : Prop := g_gauge s ∈ as_i64 <$> g_past s ∧ g_counter s ∈ g_past s.

(** What a writer is about to set, it has read. *)
Definition reads_past (past : list N) (p : Unit) : Prop := match p with Call (GSet v) _ => v ∈ as_i64 <$> past | _ => True end.

(** Every set of [p] follows a load. *)
Fixpoint loads_first (p : Unit) : Prop :=
  match p with
  | Ready _ => True
  | Call c k =>
      match c as c return ((gauge_answer c → Unit) → (gauge_answer c → Prop) → Prop) with
      | GLoad => λ k ok, ∀ v, (∃ rest, k v = Call (GSet (as_i64 v)) rest) ∧ ok v
      | _ => λ k ok, ∀ r, reads_past [] (k r) ∧ ok r
      end k (λ r, loads_first (k r))
  end.

Lemma writer_unit_loads held leaves : loads_first (writer_unit held leaves) ∧ reads_past [] (writer_unit held leaves).
Proof.
  split; [|done]. cbn. intros _. split; [done|]. intros v. split; [by eexists|]. intros _. split; [done|].
  intros _. split; [done|]. intros _. destruct leaves; cbn; (split; [done|]); [done|].
  intros v'. split; [by eexists|]. done.
Qed.

Definition slot_reads (past : list N) (slot : Slot (answer := gauge_answer) unit) : Prop :=
  match slot with Running p => loads_first p ∧ reads_past past p | Dropped _ => True end.

Definition gauge_ok (p : Pool (answer := gauge_answer) (Ev := unit) (St := GaugeState) unit) : Prop :=
  gauge_in_past (pool_state p) ∧ Forall (slot_reads (g_past (pool_state p))) (slots p).

Lemma shown_past_cons (past : list N) v (z : Z) : z ∈ as_i64 <$> past → z ∈ as_i64 <$> v :: past.
Proof. simpl. by right. Qed.

Lemma reads_past_mono past past' p : past ⊆ past' → reads_past past p → reads_past past' p.
Proof. intros Hsub. destruct p as [|[]]; simpl; [done..| |done|done].
  intros (x & -> & Hx)%list_elem_of_fmap. apply list_elem_of_fmap. eauto.
Qed.

Lemma reads_past_nil past p : reads_past [] p → reads_past past p.
Proof. apply reads_past_mono. by intros x Hx%elem_of_nil. Qed.

Lemma slots_mono past past' sl : past ⊆ past' → Forall (slot_reads past) sl → Forall (slot_reads past') sl.
Proof.
  intros Hsub Hall. eapply Forall_impl; [exact Hall|]. intros [p|c]; [|done]. intros [Hl Hr].
  split; [done|]. by eapply reads_past_mono.
Qed.

Lemma gauge_step ev p p' :
  match ev with Spawn q => loads_first q ∧ reads_past [] q | _ => True end →
  gauge_ok p → pool_step no_events gauge_handle (λ _, false) (λ _ s, s) (λ _, []) ev p = Some p' → gauge_ok p'.
Proof.
  intros Hev [[Hg Hc] Hsl]. destruct ev as [q|i|i]; cbn [pool_step].
  - intros [= <-]. split; [done|]. apply Forall_app. split; [done|]. constructor; [|constructor].
    destruct Hev as [Hl Hr]. split; [done|]. by apply reads_past_nil.
  - destruct (slots p !! i) as [[[|c k]|]|] eqn:Hi; [done| |done..].
    destruct (gauge_handle c (pool_state p)) as [s r] eqn:Hh. intros [= <-].
    pose proof Hsl as Hslot. rewrite Forall_lookup in Hslot. destruct (Hslot i _ Hi) as [Hl Hr]. clear Hslot.
    assert (g_past (pool_state p) ⊆ g_past s) as Hsub.
    { destruct c; injection Hh as <- _; try done; intros x Hx; by right. }
    assert (gauge_in_past s ∧ slot_reads (g_past s) (Running (k r))) as [Hs Hk].
    { destruct c; injection Hh as <- <-; simpl in Hl, Hr;
        [specialize (Hl tt)|specialize (Hl (g_counter (pool_state p)))|specialize (Hl tt)..]; destruct Hl as [Hk Hl].
      all: split; [|split; [exact Hl|]]; try (by apply reads_past_nil); try done.
      - split; [|left]. by apply shown_past_cons.
      - destruct Hk as [rest ->]. by apply list_elem_of_fmap_2.
      - split; [|left]. by apply shown_past_cons. }
    split; [exact Hs|]. cbn [pool_state slots]. apply Forall_insert; [by eapply slots_mono|exact Hk].
  - by destruct (slots p !! i) as [[[|c k]|]|].
Qed.

(** Under any schedule of writers the gauge shows a value that the counter has
    had at some time. *)
Theorem gauge_shows_past_value (evs : list (PoolEvent (answer := gauge_answer) unit)) p :
  Forall (λ ev, match ev with Spawn q => ∃ held leaves, q = writer_unit held leaves | _ => True end) evs →
  gauge_run evs = Some p → g_gauge (pool_state p) ∈ as_i64 <$> g_past (pool_state p).
Proof.
  unfold gauge_run. set (p0 := pool_start _).
  assert (gauge_ok p0) as H0 by (split; [split; left|constructor]). clearbody p0. revert p0 H0.
  induction evs as [|ev evs IH]; intros p0 H0 Hevs; cbn [pool_run]; [intros [= <-]; apply H0|].
  apply Forall_cons in Hevs as [Hev Hevs].
  destruct (pool_step _ _ _ _ _ ev p0) as [p1|] eqn:Hstep; [|done]. intros Hrun. apply (IH p1); [|done..].
  eapply gauge_step; [|exact H0|exact Hstep]. destruct ev as [q|i|i]; [|done..].
  destruct Hev as (held & leaves & ->). apply writer_unit_loads.
Qed.

(** ** It need not show the last one *)

(** Both writers attach; the first ends and loads 7, the bytes of the second;
    the second ends and sets 0; then the first sets what it had loaded. *)
Definition race : list (PoolEvent (answer := gauge_answer) unit) :=
  Spawn (writer_unit 5 false) :: Spawn (writer_unit 7 false) :: Poll 0 :: Poll 1 ::
  replicate 5 (Poll 0) ++ replicate 6 (Poll 1) ++ [Poll 0].

(** A writer that leaves on a fatal error. *)
Definition fatal_run : list (PoolEvent (answer := gauge_answer) unit) :=
  Spawn (writer_unit 5 true) :: replicate 5 (Poll 0).

(** Whether every writer is done, the counter and the gauge. *)
Definition gauge_end (p : Pool (answer := gauge_answer) (Ev := unit) (St := GaugeState) unit) : bool * N * Z :=
  (forallb (λ slot, match slot with Running (Ready _) => true | _ => false end) (slots p),
   g_counter (pool_state p), g_gauge (pool_state p)).

(** With every writer done and the counter at zero the gauge can show bytes: 7
    after a race of two writers, 5 after a fatal error. *)
Theorem sink_gauge_can_stay_stale :
  gauge_end <$> gauge_run race = Some (true, 0, 7%Z) ∧ gauge_end <$> gauge_run fatal_run = Some (true, 0, 5%Z).
Proof. split; vm_compute; reflexivity. Qed.
