(* ===== verification/Envelope.v ===== *)
(** * The OTLP metadata envelope
    (plugins/opendata-ingest-otel/src/envelope.rs)

    The four-byte header of each entry's metadata, its parser and the check
    against the envelope the decoder is configured for. *)

From Stdlib Require Import NArith Lia.
From S2P Require Import Prelude.
From S2P Require Import Types.
Local Open Scope N_scope.

Definition ENVELOPE_LEN : nat := 4.

Inductive SignalType := Metrics | Logs | Traces.

#[export] Instance SignalType_eq_dec : EqDecision SignalType.
Proof. solve_decision. Defined.

Definition SignalType_as_byte (s : SignalType) : N :=
  match s with Metrics => 1 | Logs => 2 | Traces => 3 end.
Definition SignalType_from_byte (b : N) : option SignalType :=
  match b with
  | 1 => Some Metrics
  | 2 => Some Logs
  | 3 => Some Traces
  | _ => None
  end.
Definition SignalType_name (s : SignalType) : string :=
  match s with Metrics => "metrics" | Logs => "logs" | Traces => "traces" end.

Inductive PayloadEncoding := OtlpProtobuf.

#[export] Instance PayloadEncoding_eq_dec : EqDecision PayloadEncoding.
Proof. solve_decision. Defined.

Definition PayloadEncoding_as_byte (e : PayloadEncoding) : N := match e with OtlpProtobuf => 1 end.
Definition PayloadEncoding_from_byte (b : N) : option PayloadEncoding :=
  match b with 1 => Some OtlpProtobuf | _ => None end.
Definition PayloadEncoding_name (e : PayloadEncoding) : string :=
  match e with OtlpProtobuf => "otlp_protobuf" end.

Record MetadataEnvelope := {
  me_version : N;
  me_signal_type : SignalType;
  me_encoding : PayloadEncoding;
  me_reserved : N;
}.

Record ConfiguredEnvelope := {
  ce_version : N;
  ce_signal_type : SignalType;
  ce_encoding : PayloadEncoding;
}.

Definition matches (self : ConfiguredEnvelope) (env : MetadataEnvelope) : bool :=
  (ce_version self =? me_version env) &&
  bool_decide (ce_signal_type self = me_signal_type env) &&
  bool_decide (ce_encoding self = me_encoding env).

Inductive EnvelopeError :=
| TooShort (entry_index : N) (len min : nat)
| UnsupportedVersion (entry_index version : N)
| UnsupportedSignal (entry_index byte : N)
| UnsupportedEncoding (entry_index byte : N)
| Mismatch (entry_index version : N) (signal encoding : string)
    (exp_version : N) (exp_signal exp_encoding : string).

Definition EnvelopeError_display (e : EnvelopeError) : string :=
  match e with
  | TooShort i len min =>
      "entry " +:+ show i +:+ ": envelope is " +:+ show_nat len +:+ " bytes; expected at least " +:+
      show_nat min
  | UnsupportedVersion i v => "entry " +:+ show i +:+ ": unsupported version " +:+ show v
  | UnsupportedSignal i b => "entry " +:+ show i +:+ ": unsupported signal_type byte " +:+ show b
  | UnsupportedEncoding i b => "entry " +:+ show i +:+ ": unsupported encoding byte " +:+ show b
  | Mismatch i v s e ev es ee =>
      "entry " +:+ show i +:+ ": envelope (v" +:+ show v +:+ ", signal=" +:+ s +:+ ", encoding=" +:+ e +:+
      ") does not match configured (v" +:+ show ev +:+ ", signal=" +:+ es +:+ ", encoding=" +:+ ee +:+ ")"
  end.

(** [payload[i]], guarded by the length check. *)
Definition octet (payload : Bytes) (i : nat) : N := default 0 (Byte.to_N <$> payload !! i).

Definition decode_envelope (entry_index : N) (payload : Bytes) : result MetadataEnvelope EnvelopeError :=
  if (length payload <? ENVELOPE_LEN)%nat
  then Err (TooShort entry_index (length payload) ENVELOPE_LEN)
  else
    let version := octet payload 0 in
    if negb (version =? 1) then Err (UnsupportedVersion entry_index version)
    else
      let signal_byte := octet payload 1 in
      let? signal_type := ok_or (SignalType_from_byte signal_byte)
                            (UnsupportedSignal entry_index signal_byte) in
      let encoding_byte := octet payload 2 in
      let? encoding := ok_or (PayloadEncoding_from_byte encoding_byte)
                         (UnsupportedEncoding entry_index encoding_byte) in
      Ok {| me_version := version; me_signal_type := signal_type; me_encoding := encoding;
            me_reserved := octet payload 3 |}.

Definition decode_envelopes (batch : SourceBatch) : result (list MetadataEnvelope) EnvelopeError :=
  collect_results ((λ entry, decode_envelope (entry_index entry) (raw_metadata entry)) <$> sb_entries batch).

(** The loop of [validate_consistent] from position [i]. *)
Fixpoint validate_from (i : N) (envelopes : list MetadataEnvelope) (configured : ConfiguredEnvelope)
    : result unit EnvelopeError :=
  match envelopes with
  | [] => Ok tt
  | env :: rest =>
      if negb (matches configured env)
      then Err (Mismatch i (me_version env) (SignalType_name (me_signal_type env))
                  (PayloadEncoding_name (me_encoding env)) (ce_version configured)
                  (SignalType_name (ce_signal_type configured)) (PayloadEncoding_name (ce_encoding configured)))
      else validate_from (i + 1) rest configured
  end.

Definition validate_consistent (envelopes : list MetadataEnvelope) (configured : ConfiguredEnvelope)
    : result unit EnvelopeError := validate_from 0 envelopes configured.

(** ** The wire format *)

(** What a producer writes in front of its metadata. *)
Definition header (env : MetadataEnvelope) : Bytes :=
  u8_of_N <$> [me_version env; SignalType_as_byte (me_signal_type env);
               PayloadEncoding_as_byte (me_encoding env); me_reserved env].
Definition envelope_u8 (env : MetadataEnvelope) : Prop := me_version env < 256 ∧ me_reserved env < 256.

Lemma SignalType_byte_inj b s : SignalType_from_byte b = Some s ↔ b = SignalType_as_byte s.
Proof.
  split; [|by intros ->; destruct s]. intros Hb.
  destruct b as [|[[p|p|]|[p|p|]|]]; simplify_eq/=; done.
Qed.
Lemma PayloadEncoding_byte_inj b e : PayloadEncoding_from_byte b = Some e ↔ b = PayloadEncoding_as_byte e.
Proof.
  split; [|by intros ->; destruct e]. intros Hb.
  by destruct b as [|[p|p|]]; simplify_eq/=.
Qed.

Lemma octet_bound payload i : octet payload i < 256.
Proof.
  unfold octet. destruct (payload !! i) as [b|]; simpl; [|lia].
  pose proof (Byte.to_N_bounded b). lia.
Qed.

Lemma u8_octet b : u8_of_N (octet [b] 0) = b.
Proof. apply u8_of_to_N. Qed.

(** The envelope codec.  [decode_one] accepts a payload exactly when it
    starts with the header of a version 1 envelope, and returns that envelope:
    the header is read back unchanged, whatever metadata follows it, and
    nothing else is accepted. *)
Theorem decode_envelope_exact (entry_index : N) (payload : Bytes) (env : MetadataEnvelope) :
  decode_envelope entry_index payload = Ok env ↔
  me_version env = 1 ∧ me_reserved env < 256 ∧ ∃ rest, payload = header env ++ rest.
Proof.
  unfold decode_envelope. split.
  - destruct (Nat.ltb_spec (length payload) ENVELOPE_LEN) as [|Hlen]; [done|].
    destruct (N.eqb_spec (octet payload 0) 1) as [Hv|]; [|done]. simpl.
    destruct (SignalType_from_byte _) as [s|] eqn:Hs; [|done]. simpl.
    destruct (PayloadEncoding_from_byte _) as [e|] eqn:He; [|done]. simpl. intros [= <-].
    apply SignalType_byte_inj in Hs. apply PayloadEncoding_byte_inj in He.
    split; [done|]. split; [apply octet_bound|].
    destruct payload as [|b0 [|b1 [|b2 [|b3 rest]]]]; simpl in Hlen; try (unfold ENVELOPE_LEN in Hlen; lia).
    exists rest. unfold header. simpl. unfold octet in *. simpl in *.
    rewrite <- Hs, <- He, Hv, !u8_of_to_N. f_equal. rewrite <- (u8_of_to_N b0). by rewrite Hv.
  - intros (Hv & Hr & rest & ->). destruct env as [v s e r]. simpl in *. subst v.
    assert (octet (header {| me_version := 1; me_signal_type := s; me_encoding := e; me_reserved := r |} ++ rest) 3 = r)
      as Hr3. { unfold octet, header. simpl. rewrite u8_of_N_to_N. by apply N.mod_small. }
    unfold header in *. simpl in *. unfold octet in *. simpl in *. rewrite Hr3. by destruct s, e.
Qed.

(** The check of a whole batch, as the decoder runs it. *)
Definition check_envelopes (configured : ConfiguredEnvelope) (batch : SourceBatch) : result unit EnvelopeError :=
  let? envelopes := decode_envelopes batch in validate_consistent envelopes configured.

Lemma validate_from_ok i envs configured :
  validate_from i envs configured = Ok tt ↔ Forall (λ env, matches configured env = true) envs.
Proof.
  revert i. induction envs as [|env envs IH]; intros i; simpl; [by split|].
  rewrite Forall_cons, <- (IH (i + 1)). destruct (matches configured env); simpl; [|by split; [|intros [? _]]].
  by split; [|intros [_ ?]].
Qed.

Lemma matches_spec configured env :
  matches configured env = true ↔
  me_version env = ce_version configured ∧ me_signal_type env = ce_signal_type configured ∧
  me_encoding env = ce_encoding configured.
Proof.
  unfold matches. rewrite !andb_true_iff, N.eqb_eq, !bool_decide_eq_true. intuition congruence.
Qed.


(** ** The property at work *)

Definition logs_envelope : ConfiguredEnvelope :=
  {| ce_version := 1; ce_signal_type := Logs; ce_encoding := OtlpProtobuf |}.
Definition demo_entry (i : N) (metadata : list N) : SourceEntry :=
  {| entry_index := i; raw_bytes := []; raw_metadata := u8_of_N <$> metadata; ingestion_time_ms := 0 |}.
Definition demo_envelopes (metadata : list (list N)) : SourceBatch :=
  {| sb_source := mkSourceId "buffer"; sb_sequence := 42; sb_manifest_path := "m";
     sb_data_object_path := "d"; sb_entries := imap (λ i md, demo_entry (N.of_nat i) md) metadata |}.

