(* ===== verification/OtlpLogs.v ===== *)
(** * The OTLP logs decoder
    (plugins/opendata-ingest-otel/src/logs.rs)

    The decoder that flattens OTLP log requests into rows with their source
    coordinates.  The protobuf messages and their parser come from the
    [opentelemetry-proto] and [prost] crates and are an interface here
    ([OtlpProto]), with one accessor per field the decoder reads; so are
    [hex::encode] and the [Display] of floats. *)

From Stdlib Require Import NArith Lia.
From S2P Require Import Prelude.
From S2P Require Import BTree.
From S2P Require Import Types.
From S2P Require Import Envelope.
From S2P Require Import ByteBudget.
From S2P Require Import Options.
From S2P Require Import Decode.
Local Open Scope N_scope.

(** [any_value::Value]. *)
Inductive Value (F64 : Type) :=
| StringValue (s : string)
| BoolValue (b : bool)
| IntValue (i : Z)
| DoubleValue (d : F64)
| BytesValue (bytes : Bytes)
| ArrayValue
| KvlistValue.
Arguments StringValue {F64}. Arguments BoolValue {F64}. Arguments IntValue {F64}.
Arguments DoubleValue {F64}. Arguments BytesValue {F64}. Arguments ArrayValue {F64}.
Arguments KvlistValue {F64}.

Class OtlpProto := {
  ExportLogsServiceRequest : Type;
  ResourceLogs : Type;
  Resource : Type;
  ScopeLogs : Type;
  InstrumentationScope : Type;
  LogRecord : Type;
  KeyValue : Type;
  AnyValue : Type;
  F64 : Type;
  request_decode : Bytes → result ExportLogsServiceRequest BoxError;
  resource_logs : ExportLogsServiceRequest → list ResourceLogs;
  resource : ResourceLogs → option Resource;
  resource_attrs : Resource → list KeyValue;
  scope_logs : ResourceLogs → list ScopeLogs;
  scope : ScopeLogs → option InstrumentationScope;
  scope_name_of : InstrumentationScope → string;
  scope_attrs : InstrumentationScope → list KeyValue;
  log_records : ScopeLogs → list LogRecord;
  time_unix_nano : LogRecord → N;
  observed_time_unix_nano : LogRecord → N;
  log_severity_number : LogRecord → Z;
  log_severity_text : LogRecord → string;
  log_body : LogRecord → option AnyValue;
  log_attrs : LogRecord → list KeyValue;
  trace_id : LogRecord → Bytes;
  span_id : LogRecord → Bytes;
  kv_key : KeyValue → string;
  kv_value : KeyValue → option AnyValue;
  any_value : AnyValue → option (Value F64);
  hex_encode : Bytes → string;
  f64_to_string : F64 → string;
  (** [size_of::<DecodedLogRecord>()]: the compiler's choice. *)
  size_of_record : N;
}.

(** ** Decoded records *)

Record RowSourceCoordinates := {
  buffer_sequence : N;
  row_entry_index : N;
  record_index : N;
  manifest_path : string;
  data_path : string;
  row_ingestion_time_ms : Z;
}.

Record DecodedLogRecord := {
  source : RowSourceCoordinates;
  timestamp_unix_nano : N;
  observed_timestamp_unix_nano : N;
  severity_number : Z;
  severity_text : string;
  body : string;
  service_name : option string;
  resource_attributes : btree string string;
  scope_name : option string;
  log_attributes : btree string string;
  trace_id_hex : string;
  span_id_hex : string;
}.

Definition OTLP_LOGS_SCHEMA_NAME : string := "opendata.otel.logs.v1".

Record TypedDecodedLogs := { records : list DecodedLogRecord; tdl_schema : TypedSchema }.
Definition TypedDecodedLogs_new (rs : list DecodedLogRecord) : TypedDecodedLogs :=
  {| records := rs; tdl_schema := {| ts_name := OTLP_LOGS_SCHEMA_NAME; ts_version := mkSchemaVersion 1 |} |}.

Record OtlpLogsDecoder := { expected : ConfiguredEnvelope }.
Definition OtlpLogsDecoder_new : OtlpLogsDecoder := {| expected := logs_envelope |}.

Definition str_len (s : string) : N := N.of_nat (String.length s).
Definition attrs_len (m : btree string string) : N := sum_N ((λ kv, str_len kv.1 + str_len kv.2) <$> m).

Section decoder.
Context `{P : OtlpProto}.

Definition approx_size_bytes (r : DecodedLogRecord) : N :=
  size_of_record + str_len (severity_text r) + str_len (body r) +
  from_option str_len 0 (service_name r) + from_option str_len 0 (scope_name r) +
  (str_len (trace_id_hex r) + str_len (span_id_hex r)) +
  attrs_len (resource_attributes r) + attrs_len (log_attributes r).

#[export] Instance TypedDecodedLogs_records : TypedRecords TypedDecodedLogs := {
  record_count t := N.of_nat (length (records t));
  estimated_bytes t := sum_N (approx_size_bytes <$> records t);
  schema t := tdl_schema t;
}.

(** ** Values and attributes *)

Definition string_value (value : option AnyValue) : option string :=
  match v ← value; any_value v with
  | Some (StringValue s) => Some s
  | Some (BoolValue b) => Some (if b then "true" else "false")
  | Some (IntValue i) => Some (show_Z i)
  | Some (DoubleValue d) => Some (f64_to_string d)
  | Some (BytesValue bytes) => Some (hex_encode bytes)
  | Some ArrayValue | Some KvlistValue => Some "<complex>"
  | None => None
  end.

Definition any_value_to_string (value : option AnyValue) : string := default "" (string_value value).

Definition merge_attributes (src : list KeyValue) (dst : btree string string) : btree string string :=
  foldl (λ dst kv,
    match string_value (kv_value kv) with
    | Some value => bt_insert (kv_key kv) value dst
    | None => dst
    end) dst src.

(** The pass over the attributes of a resource. *)
Definition resource_pass (attributes : list KeyValue) : btree string string * option string :=
  foldl (λ '(resource_attributes, service_name) kv,
    match string_value (kv_value kv) with
    | Some value =>
        (bt_insert (kv_key kv) value resource_attributes,
         if bool_decide (kv_key kv = "service.name") then Some value else service_name)
    | None => (resource_attributes, service_name)
    end) ([], None) attributes.

(** ** Rows *)

Definition make_record (batch : SourceBatch) (entry : SourceEntry)
    (resource_attributes : btree string string) (service_name : option string)
    (sl : ScopeLogs) (log : LogRecord) (record_index : N) : DecodedLogRecord :=
  let log_attributes := merge_attributes (log_attrs log) [] in
  let log_attributes := match scope sl with
                        | Some sc => merge_attributes (scope_attrs sc) log_attributes
                        | None => log_attributes
                        end in
  {| source := {| buffer_sequence := sb_sequence batch; row_entry_index := entry_index entry;
                  record_index := record_index; manifest_path := sb_manifest_path batch;
                  data_path := sb_data_object_path batch;
                  row_ingestion_time_ms := ingestion_time_ms entry |};
     timestamp_unix_nano := time_unix_nano log;
     observed_timestamp_unix_nano := observed_time_unix_nano log;
     severity_number := log_severity_number log;
     severity_text := log_severity_text log;
     body := any_value_to_string (log_body log);
     service_name := service_name;
     resource_attributes := resource_attributes;
     scope_name := scope_name_of <$> scope sl;
     log_attributes := log_attributes;
     trace_id_hex := hex_encode (trace_id log);
     span_id_hex := hex_encode (span_id log) |}.

(** The three nested loops of [decode_entry]; their state is the vector of
    records and the [u32] record index. *)
Definition log_step batch entry ra sn sl (st : list DecodedLogRecord * N) (log : LogRecord)
    : list DecodedLogRecord * N :=
  (st.1 ++ [make_record batch entry ra sn sl log st.2], wrap32 (st.2 + 1)).
Definition scope_step batch entry ra sn (st : list DecodedLogRecord * N) (sl : ScopeLogs)
    : list DecodedLogRecord * N :=
  foldl (log_step batch entry ra sn sl) st (log_records sl).
Definition resource_pair (rl : ResourceLogs) : btree string string * option string :=
  match resource rl with Some r => resource_pass (resource_attrs r) | None => ([], None) end.
Definition resource_step batch entry (st : list DecodedLogRecord * N) (rl : ResourceLogs)
    : list DecodedLogRecord * N :=
  let '(ra, sn) := resource_pair rl in
  foldl (scope_step batch entry ra sn) st (scope_logs rl).

Definition logs_error (sequence entry_index : N) (e : BoxError) : BoxError :=
  mkBoxError ("OTLP logs decode failed for sequence=" +:+ show sequence +:+ " entry_index=" +:+
              show entry_index +:+ ": " +:+ box_display e).

Definition decode_entry (batch : SourceBatch) (entry : SourceEntry) (records : list DecodedLogRecord)
    : result (list DecodedLogRecord) BoxError :=
  let? req := map_err (logs_error (sb_sequence batch) (entry_index entry))
                (request_decode (raw_bytes entry)) in
  Ok (foldl (resource_step batch entry) (records, 0) (resource_logs req)).1.

Fixpoint decode_entries (batch : SourceBatch) (entries : list SourceEntry)
    (records : list DecodedLogRecord) : result (list DecodedLogRecord) BoxError :=
  match entries with
  | [] => Ok records
  | entry :: rest => let? records := decode_entry batch entry records in decode_entries batch rest records
  end.

Definition decode_logs (batch : SourceBatch) : result (list DecodedLogRecord) BoxError :=
  decode_entries batch (sb_entries batch) [].

Definition envelope_box (e : EnvelopeError) : BoxError := mkBoxError (EnvelopeError_display e).

Definition accepts_logs (self : OtlpLogsDecoder) (raw_metadata : Bytes) : bool :=
  match decode_envelope 0 raw_metadata with Ok env => matches (expected self) env | Err _ => false end.

Definition decode_batch (self : OtlpLogsDecoder) (batch : SourceBatch)
    : RuntimeResult (list (DecodedBatch TypedDecodedLogs)) :=
  let? envelopes := map_err (λ e, EDecoder (envelope_box e)) (decode_envelopes batch) in
  let? _ := map_err (λ e, EDecoder (envelope_box e)) (validate_consistent envelopes (expected self)) in
  let? rs := map_err EDecoder (decode_logs batch) in
  Ok [{| db_source := sb_source batch;
         db_low_sequence := sb_sequence batch;
         db_high_sequence := sb_sequence batch;
         db_source_entry_count := wrap32 (N.of_nat (length (sb_entries batch)));
         db_records := Typed (TypedDecodedLogs_new rs);
         db_source_columns :=
           {| scc_manifest_path := sb_manifest_path batch;
              scc_data_path := sb_data_object_path batch;
              scc_sequences := (λ r, buffer_sequence (source r)) <$> rs;
              scc_entry_indices := (λ r, row_entry_index (source r)) <$> rs;
              scc_record_indices := (λ r, record_index (source r)) <$> rs;
              scc_ingestion_time_ms := (λ r, row_ingestion_time_ms (source r)) <$> rs |};
         db_stats := {| source_byte_count := 0;
                        decoded_byte_estimate := sum_N (approx_size_bytes <$> rs) |};
         db_schema_version := mkSchemaVersion 1 |}].

#[export] Instance OtlpLogsDecoder_decoder : Decoder OtlpLogsDecoder TypedDecodedLogs := {
  accepts := accepts_logs;
  decode := decode_batch;
}.

(** ** The rows of a request *)

(** The specification of the nested loops: every log of every scope of every
    resource, in order. *)
Definition logs_of_scope (rl : ResourceLogs) (sl : ScopeLogs) : list (ResourceLogs * ScopeLogs * LogRecord) :=
  (λ log, (rl, sl, log)) <$> log_records sl.
Definition logs_of_resource (rl : ResourceLogs) : list (ResourceLogs * ScopeLogs * LogRecord) :=
  concat (logs_of_scope rl <$> scope_logs rl).
Definition logs_of_request (req : ExportLogsServiceRequest) : list (ResourceLogs * ScopeLogs * LogRecord) :=
  concat (logs_of_resource <$> resource_logs req).

Definition row_of batch entry (x : ResourceLogs * ScopeLogs * LogRecord) (idx : N) : DecodedLogRecord :=
  make_record batch entry (resource_pair x.1.1).1 (resource_pair x.1.1).2 x.1.2 x.2 idx.
Definition rows_of batch entry (req : ExportLogsServiceRequest) : list DecodedLogRecord :=
  imap (λ i x, row_of batch entry x (wrap32 (N.of_nat i))) (logs_of_request req).

Definition push_row batch entry (st : list DecodedLogRecord * N) (x : ResourceLogs * ScopeLogs * LogRecord) :=
  (st.1 ++ [row_of batch entry x st.2], wrap32 (st.2 + 1)).

Lemma foldl_concat {A B C} (f : A → C → A) (g : B → list C) l st :
  foldl f st (concat (g <$> l)) = foldl (λ st x, foldl f st (g x)) st l.
Proof.
  revert st. induction l as [|x l IH]; intros st; [done|].
  rewrite fmap_cons. simpl. rewrite foldl_app. apply IH.
Qed.

Lemma foldl_ext' {A B} (f g : A → B → A) l st : (∀ st x, f st x = g st x) → foldl f st l = foldl g st l.
Proof. intros Hfg. revert st. induction l as [|x l IH]; intros st; simpl; [done|]. by rewrite Hfg. Qed.

Lemma resource_step_push batch entry st rl :
  resource_step batch entry st rl = foldl (push_row batch entry) st (logs_of_resource rl).
Proof.
  unfold resource_step, logs_of_resource. rewrite foldl_concat.
  destruct (resource_pair rl) as [ra sn] eqn:Hp. apply foldl_ext'. intros st' sl.
  unfold scope_step, logs_of_scope. rewrite foldl_fmap. apply foldl_ext'. intros [rs n] log.
  unfold log_step, push_row, row_of. simpl. by rewrite Hp.
Qed.

Lemma wrap32_succ n : wrap32 (wrap32 n + 1) = wrap32 (n + 1).
Proof. unfold wrap32. by rewrite N.Div0.add_mod_idemp_l. Qed.

Lemma push_rows batch entry l : ∀ rs n,
  (foldl (push_row batch entry) (rs, wrap32 n) l).1 =
  rs ++ imap (λ i x, row_of batch entry x (wrap32 (n + N.of_nat i))) l.
Proof.
  induction l as [|x l IH]; intros rs n; simpl; [by rewrite app_nil_r|].
  unfold push_row at 2. simpl. rewrite wrap32_succ, IH, <- app_assoc. simpl. do 2 f_equal.
  - by rewrite N.add_0_r.
  - apply imap_ext. intros i y _. simpl. do 2 f_equal. lia.
Qed.

Lemma decode_entry_rows batch entry rs :
  decode_entry batch entry rs =
  match request_decode (raw_bytes entry) with
  | Ok req => Ok (rs ++ rows_of batch entry req)
  | Err e => Err (logs_error (sb_sequence batch) (entry_index entry) e)
  end.
Proof.
  unfold decode_entry. destruct (request_decode (raw_bytes entry)) as [req|e]; [|done]. simpl. f_equal.
  rewrite (foldl_ext' _ _ _ _ (resource_step_push batch entry)).
  unfold rows_of, logs_of_request. rewrite <- foldl_concat.
  apply (push_rows batch entry _ rs 0).
Qed.

Lemma decode_logs_rows (batch : SourceBatch) :
  match decode_logs batch with
  | Ok rs =>
      ∃ reqs, Forall2 (λ entry req, request_decode (raw_bytes entry) = Ok req) (sb_entries batch) reqs ∧
        rs = concat (zip_with (rows_of batch) (sb_entries batch) reqs)
  | Err e =>
      ∃ entry err, entry ∈ sb_entries batch ∧ request_decode (raw_bytes entry) = Err err ∧
        e = logs_error (sb_sequence batch) (entry_index entry) err
  end.
Proof.
  unfold decode_logs.
  enough (∀ rs, match decode_entries batch (sb_entries batch) rs with
    | Ok rs' => ∃ reqs, Forall2 (λ entry req, request_decode (raw_bytes entry) = Ok req) (sb_entries batch) reqs ∧
        rs' = rs ++ concat (zip_with (rows_of batch) (sb_entries batch) reqs)
    | Err e => ∃ entry err, entry ∈ sb_entries batch ∧ request_decode (raw_bytes entry) = Err err ∧
        e = logs_error (sb_sequence batch) (entry_index entry) err
    end) as Hgo by exact (Hgo []).
  generalize (sb_entries batch). intros entries.
  induction entries as [|entry entries IH]; intros rs; simpl.
  { exists []. split; [constructor|by rewrite app_nil_r]. }
  rewrite decode_entry_rows. destruct (request_decode (raw_bytes entry)) as [req|e] eqn:Hreq; simpl.
  - specialize (IH (rs ++ rows_of batch entry req)).
    destruct (decode_entries batch entries _) as [rs'|e].
    + destruct IH as (reqs & Hall & ->). exists (req :: reqs). split; [by constructor|]. by rewrite <- app_assoc.
    + destruct IH as (entry' & err & Hin & Herr & ->). exists entry', err. split; [by right|done].
  - exists entry, e. split; [left|done].
Qed.


(** ** Attributes *)

(** The value that the last usable attribute of key [k] carries. *)
Definition last_value (k : string) (kvs : list KeyValue) : option string :=
  last (omap (λ kv, if bool_decide (kv_key kv = k) then string_value (kv_value kv) else None) kvs).

Lemma last_value_snoc k kvs kv :
  last_value k (kvs ++ [kv]) =
  match (if bool_decide (kv_key kv = k) then string_value (kv_value kv) else None) with
  | Some v => Some v
  | None => last_value k kvs
  end.
Proof.
  unfold last_value. rewrite omap_app. simpl.
  destruct (if bool_decide _ then _ else _); [by rewrite last_snoc|by rewrite app_nil_r].
Qed.

Lemma merge_attributes_get src dst k :
  bt_get k (merge_attributes src dst) =
  match last_value k src with Some v => Some v | None => bt_get k dst end.
Proof.
  unfold merge_attributes. induction src as [|kv src IH] using rev_ind; [done|].
  rewrite foldl_app, last_value_snoc. simpl. destruct (string_value (kv_value kv)) as [v|] eqn:Hv.
  - destruct (bool_decide_reflect (kv_key kv = k)) as [<-|Hne]; [by rewrite bt_get_insert_eq|].
    by rewrite bt_get_insert_ne.
  - by destruct (bool_decide _).
Qed.

Lemma resource_pass_fst kvs : (resource_pass kvs).1 = merge_attributes kvs [].
Proof.
  unfold resource_pass, merge_attributes. induction kvs as [|kv kvs IH] using rev_ind; [done|].
  rewrite !foldl_app. simpl. destruct (foldl _ _ kvs) as [m sn]. simpl in IH. subst m.
  by destruct (string_value (kv_value kv)).
Qed.

Lemma resource_pass_snd kvs : (resource_pass kvs).2 = last_value "service.name" kvs.
Proof.
  unfold resource_pass. induction kvs as [|kv kvs IH] using rev_ind; [done|].
  rewrite foldl_app, last_value_snoc, <- IH. simpl. destruct (foldl _ _ kvs) as [m sn]. simpl.
  destruct (string_value (kv_value kv)); simpl; by destruct (bool_decide _).
Qed.

Definition scope_attributes (sl : ScopeLogs) : list KeyValue := from_option scope_attrs [] (scope sl).
Definition resource_attributes_of (rl : ResourceLogs) : list KeyValue := from_option resource_attrs [] (resource rl).

(** Attribute precedence.  In a row's [log_attributes] the last usable value
    of the scope wins over every value of the log, and without one the last
    usable value of the log is kept; resource attributes stay in their own map,
    the last usable value winning; the service name is the resource's last
    usable [service.name]; attributes without a value leave no trace. *)
Theorem row_attribute_precedence (batch : SourceBatch) (entry : SourceEntry)
    (x : ResourceLogs * ScopeLogs * LogRecord) (idx : N) (k : string) :
  let r := row_of batch entry x idx in
  bt_get k (log_attributes r) =
    match last_value k (scope_attributes x.1.2) with
    | Some v => Some v
    | None => last_value k (log_attrs x.2)
    end ∧
  bt_get k (resource_attributes r) = last_value k (resource_attributes_of x.1.1) ∧
  service_name r = last_value "service.name" (resource_attributes_of x.1.1).
Proof.
  destruct x as [[rl sl] log]. unfold row_of, make_record, resource_pair, scope_attributes, resource_attributes_of.
  simpl. split_and!.
  - destruct (scope sl) as [sc|]; simpl; rewrite !merge_attributes_get; simpl;
      by destruct (last_value k (log_attrs log)).
  - destruct (resource rl) as [r|]; simpl; [|done]. rewrite resource_pass_fst, merge_attributes_get.
    by destruct (last_value k _).
  - destruct (resource rl) as [r|]; simpl; [|done]. apply resource_pass_snd.
Qed.

(** ** The contract with the runtime *)

Definition row_coordinates (r : DecodedLogRecord) : N * N := (row_entry_index (source r), record_index (source r)).

Lemma rows_coordinates batch entry req :
  row_coordinates <$> rows_of batch entry req =
  (λ i, (entry_index entry, wrap32 (N.of_nat i))) <$> seq 0 (length (logs_of_request req)).
Proof.
  unfold rows_of. rewrite fmap_imap. symmetry. rewrite <- imap_seq_0. by apply imap_ext.
Qed.


(** The decoder meets the runtime's contract.  A batch that passes the
    envelope check and whose payloads parse is accepted by the decode stage of
    the pipeline: one decoded batch, covering exactly the batch's sequence, its
    four coordinate columns as long as its rows, its byte estimate the sum over
    the rows.  Every other batch is a fatal decoder error. *)
Theorem decoder_meets_contract (batch : SourceBatch) :
  match decode_batch OtlpLogsDecoder_new batch with
  | Ok out =>
      ∃ d rs, out = [d] ∧ check_envelopes logs_envelope batch = Ok tt ∧ decode_logs batch = Ok rs ∧
        decode_checked OtlpLogsDecoder_new batch (sb_sequence batch) = Ok d ∧
        db_records d = Typed (TypedDecodedLogs_new rs) ∧
        (let columns := db_source_columns d in
         length (scc_sequences columns) = length rs ∧ length (scc_entry_indices columns) = length rs ∧
         length (scc_record_indices columns) = length rs ∧ length (scc_ingestion_time_ms columns) = length rs) ∧
        decoded_byte_estimate (db_stats d) = estimated_bytes (TypedDecodedLogs_new rs)
  | Err e =>
      (∃ b, e = EDecoder b) ∧
      (is_ok (check_envelopes logs_envelope batch) = false ∨ is_ok (decode_logs batch) = false)
  end.
Proof.
  unfold decode_batch, check_envelopes. simpl expected.
  destruct (decode_envelopes batch) as [envs|e] eqn:Henvs; simpl; [|split; [by eexists|by left]].
  destruct (validate_consistent envs logs_envelope) as [[]|e] eqn:Hval; simpl; [|split; [by eexists|by left]].
  destruct (decode_logs batch) as [rs|e] eqn:Hrs; simpl; [|split; [by eexists|by right]].
  eexists _, rs. split; [reflexivity|]. split; [done|]. split; [done|]. split.
  - apply decode_checked_ok. split_and!; try done.
    + intros first Hfirst. simpl. unfold accepts_logs.
      unfold decode_envelopes in Henvs. apply collect_results_ok in Henvs.
      destruct (sb_entries batch) as [|entry entries]; [done|]. injection Hfirst as ->.
      rewrite fmap_cons in Henvs. inversion Henvs as [|? env ? envs' Hd _]; subst.
      apply validate_from_ok, Forall_cons in Hval as [Hm _].
      apply decode_envelope_exact in Hd.
      by rewrite (proj2 (decode_envelope_exact 0 _ env) Hd).
    + simpl. unfold decode_batch. rewrite Henvs. simpl. rewrite Hval. simpl. by rewrite Hrs.
  - simpl. by rewrite !length_fmap.
Qed.
End decoder.

(** ** The properties at work

    An interface whose payloads are the number of logs of one scope. *)

Definition demo_log (i : nat) : N * list (string * option (option (Value unit))) :=
  (N.of_nat i, [("rec", Some (Some (IntValue (Z.of_nat i)))); ("shared", Some (Some (StringValue "log")))]).

(** Lower-case hexadecimal. *)
Definition hex_digit (n : N) : Ascii.ascii :=
  default "0"%char (String.get (N.to_nat n) "0123456789abcdef").
Fixpoint demo_hex (bytes : Bytes) : string :=
  match bytes with
  | [] => ""
  | b :: rest => String (hex_digit (Byte.to_N b / 16)) (String (hex_digit (Byte.to_N b mod 16)) (demo_hex rest))
  end.
Lemma demo_hex_free bytes : str_free ":"%char (demo_hex bytes) = true.
Proof. induction bytes as [|b bytes IH]; [done|]. simpl. rewrite IH. by destruct b. Qed.

#[export] Instance DemoProto : OtlpProto := {
  ExportLogsServiceRequest := nat;
  ResourceLogs := nat;
  Resource := unit;
  ScopeLogs := nat;
  InstrumentationScope := unit;
  LogRecord := N * list (string * option (option (Value unit)));
  KeyValue := string * option (option (Value unit));
  AnyValue := option (Value unit);
  F64 := unit;
  request_decode b := match b with x :: _ => Ok (N.to_nat (Byte.to_N x)) | [] => Err (mkBoxError "truncated") end;
  resource_logs n := [n];
  resource _ := Some tt;
  resource_attrs _ := [("service.name", Some (Some (StringValue "svc-a"))); ("empty", None)];
  scope_logs n := [n];
  scope _ := Some tt;
  scope_name_of _ := "scope";
  scope_attrs _ := [("shared", Some (Some (StringValue "scope")))];
  log_records n := demo_log <$> seq 0 n;
  time_unix_nano l := l.1;
  observed_time_unix_nano _ := 0;
  log_severity_number _ := 9%Z;
  log_severity_text _ := "INFO";
  log_body _ := None;
  log_attrs l := l.2;
  trace_id _ := [];
  span_id _ := [];
  kv_key := fst;
  kv_value := snd;
  any_value v := v;
  hex_encode := demo_hex;
  f64_to_string _ := "0";
  size_of_record := 248;
}.

Definition demo_batch_of (counts : list N) : SourceBatch :=
  {| sb_source := mkSourceId "buffer"; sb_sequence := 42; sb_manifest_path := "m"; sb_data_object_path := "d";
     sb_entries := imap (λ i n, {| entry_index := N.of_nat i; raw_bytes := [u8_of_N n];
                                   raw_metadata := u8_of_N <$> [1; 2; 1; 0]; ingestion_time_ms := 99 |}) counts |}.

