(* ===== verification/RowValue.v ===== *)
(** * Column values and their encodings
    (plugins/opendata-ingest-clickhouse/src/adapter/mod.rs)

    The column values of an insert, the LEB128 and RowBinary writers and the
    calendar behind [DateTime64] literals.  The readers at the end are the
    specification: what a server that follows the RowBinary format reads
    back. *)

From Stdlib Require Import ZArith NArith Lia.
From S2P Require Import Prelude.
From S2P Require Import BTree.
From S2P Require Import Types.
Local Open Scope Z_scope.

Inductive RowValue :=
| RVString (s : string)
| LowCardinalityString (s : string)
| UInt8 (v : N)
| Int32 (v : Z)
| UInt32 (v : N)
| UInt64 (v : N)
| Int64 (v : Z)
| DateTime64Nanos (ns : N)
| NullableDateTime64Nanos (ns : option N)
| StringMap (m : btree string string).

(** ** Machine encodings *)

(** [to_le_bytes] of a [k]-byte integer. *)
Definition le_bytes (k : nat) (v : N) : Bytes :=
  (λ i, u8_of_N (N.shiftr v (8 * N.of_nat i))) <$> seq 0 k.
(** [to_le_bytes] of a [k]-byte two's complement integer. *)
Definition le_bytes_signed (k : nat) (v : Z) : Bytes :=
  le_bytes k (Z.to_N (v mod 2 ^ (8 * Z.of_nat k))).
(** [as i64] of a [u64]. *)
Definition as_i64 (v : N) : Z :=
  if (v <? 2 ^ 63)%N then Z.of_N v else Z.of_N v - 2 ^ 64.

(** [write_varuint]; a [u64] has at most ten groups of seven bits. *)
Fixpoint varuint_loop (fuel : nat) (value : N) : Bytes :=
  match fuel with
  | O => []
  | S fuel =>
      let byte := N.land value 127 in
      let value := N.shiftr value 7 in
      if (value =? 0)%N then [u8_of_N byte]
      else u8_of_N (N.lor byte 128) :: varuint_loop fuel value
  end.
Definition write_varuint (value : N) : Bytes := varuint_loop 10 value.

(** The length prefix and the bytes of a string. *)
Definition write_string (s : string) : Bytes :=
  write_varuint (N.of_nat (String.length s)) ++ as_bytes s.

Definition write_row_binary (v : RowValue) : Bytes :=
  match v with
  | RVString s | LowCardinalityString s => write_string s
  | UInt8 v => [u8_of_N v]
  | Int32 v => le_bytes_signed 4 v
  | UInt32 v => le_bytes 4 v
  | UInt64 v => le_bytes 8 v
  | Int64 v => le_bytes_signed 8 v
  | DateTime64Nanos ns => le_bytes_signed 8 (as_i64 ns)
  | NullableDateTime64Nanos None => [u8_of_N 1]
  | NullableDateTime64Nanos (Some ns) => u8_of_N 0 :: le_bytes_signed 8 (as_i64 ns)
  | StringMap m =>
      write_varuint (N.of_nat (length m)) ++
      concat ((λ kv, write_string kv.1 ++ write_string kv.2) <$> m)
  end.

(** ** The calendar ([chrono_internal]) *)

Definition is_leap (year : Z) : bool :=
  ((year mod 4 =? 0) && negb (year mod 100 =? 0)) || (year mod 400 =? 0).

Definition days_in_month (year month : Z) : Z :=
  match month with
  | 1 | 3 | 5 | 7 | 8 | 10 | 12 => 31
  | 4 | 6 | 9 | 11 => 30
  | 2 => if is_leap year then 29 else 28
  | _ => 0
  end.

Definition year_length (year : Z) : Z := if is_leap year then 366 else 365.

(** The loop over the years; [None] when the fuel runs out. *)
Fixpoint year_loop (fuel : nat) (year days : Z) : option (Z * Z) :=
  match fuel with
  | O => None
  | S fuel =>
      let dy := year_length year in
      if dy <=? days then year_loop fuel (year + 1) (days - dy)
      else if days <? 0 then year_loop fuel (year - 1) (days + year_length (year - 1))
      else Some (year, days)
  end.

Fixpoint month_loop (fuel : nat) (year month days : Z) : option (Z * Z) :=
  match fuel with
  | O => None
  | S fuel =>
      let dim := days_in_month year month in
      if dim <=? days then month_loop fuel year (month + 1) (days - dim)
      else Some (month, days)
  end.

Record DateParts := {
  dp_year : Z; dp_month : Z; dp_day : Z; dp_hour : Z; dp_minute : Z; dp_second : Z;
}.

(** [parts]: every turn of the year loop moves at least a year's days; the
    month loop stops within the year ([date_parts_exact]). *)
Definition date_parts (secs : Z) : option DateParts :=
  let day_seconds := 86400 in
  let days := secs / day_seconds in
  let sec_of_day := secs mod day_seconds in
  let hour := sec_of_day / 3600 in
  let sec_of_hour := sec_of_day mod 3600 in
  let minute := sec_of_hour / 60 in
  let second := sec_of_hour mod 60 in
  '(year, days) ← year_loop (S (S (Z.to_nat (Z.abs days)))) 1970 days;
  '(month, days) ← month_loop 13 year 1 days;
  Some {| dp_year := year; dp_month := month; dp_day := days + 1;
          dp_hour := hour; dp_minute := minute; dp_second := second |}.

(** The zero-padded [Display] of a width. *)
Definition zeros (n : nat) : string := String.concat "" (replicate n "0").
Definition padded (width : nat) (v : Z) : string :=
  if v <? 0
  then let s := show (Z.to_N (- v)) in "-" +:+ zeros (width - 1 - String.length s) +:+ s
  else let s := show (Z.to_N v) in zeros (width - String.length s) +:+ s.

Definition date_format (secs nanos : Z) : option string :=
  d ← date_parts secs;
  Some (padded 4 (dp_year d) +:+ "-" +:+ padded 2 (dp_month d) +:+ "-" +:+ padded 2 (dp_day d) +:+ " " +:+
        padded 2 (dp_hour d) +:+ ":" +:+ padded 2 (dp_minute d) +:+ ":" +:+ padded 2 (dp_second d) +:+ "." +:+
        padded 9 nanos).

Definition format_datetime64_ns (unix_nanos : N) : option string :=
  let secs := Z.of_N (unix_nanos / 1000000000) in
  let nanos := Z.of_N (unix_nanos mod 1000000000) in
  date_format secs nanos.

Example known_timestamp : format_datetime64_ns 1700000000123456789 = Some "2023-11-14 22:13:20.123456789".
Proof. by vm_compute. Qed.
Example leap_year_handling : date_format 1582934400 0 = Some "2020-02-29 00:00:00.000000000".
Proof. by vm_compute. Qed.

(** ** The Gregorian calendar, in closed form *)

(** Days between 1970-01-01 and the first day of a year. *)
Definition days_before_year (year : Z) : Z :=
  let y := year - 1 in 365 * (year - 1970) + (y / 4 - y / 100 + y / 400) - 477.
(** Days between the first day of a year and the first day of a month. *)
Definition days_before_month (year month : Z) : Z :=
  foldr Z.add 0 ((λ k, days_in_month year (Z.of_nat k)) <$> seq 1 (Z.to_nat (month - 1))).
Definition day_number (year month day : Z) : Z :=
  days_before_year year + days_before_month year month + (day - 1).

Lemma days_before_year_succ year : days_before_year (year + 1) = days_before_year year + year_length year.
Proof.
  unfold days_before_year, year_length, is_leap. replace (year + 1 - 1) with year by lia.
  destruct (Z.eqb_spec (year mod 4) 0), (Z.eqb_spec (year mod 100) 0), (Z.eqb_spec (year mod 400) 0);
    simpl; Z.to_euclidean_division_equations; lia.
Qed.

Lemma year_length_bounds year : 365 <= year_length year <= 366.
Proof. unfold year_length. destruct (is_leap year); lia. Qed.

Lemma year_loop_exact fuel : ∀ year days,
  (Z.to_nat (Z.abs days) + 1 < fuel)%nat →
  ∃ y d, year_loop fuel year days = Some (y, d) ∧ 0 <= d < year_length y ∧
         days_before_year y + d = days_before_year year + days.
Proof.
  induction fuel as [|fuel IH]; intros year days Hfuel; [lia|]. cbn [year_loop].
  pose proof (year_length_bounds year). destruct (Z.leb_spec (year_length year) days).
  - destruct (IH (year + 1) (days - year_length year)) as (y & d & Hrun & Hd & Heq); [lia|].
    exists y, d. split; [done|]. split; [done|]. rewrite days_before_year_succ in Heq. lia.
  - destruct (Z.ltb_spec days 0); [|by exists year, days].
    pose proof (year_length_bounds (year - 1)).
    pose proof (days_before_year_succ (year - 1)) as Hs. replace (year - 1 + 1) with year in Hs by lia.
    destruct (Z.leb_spec (year_length (year - 1)) (- days)).
    + destruct (IH (year - 1) (days + year_length (year - 1))) as (y & d & Hrun & Hd & Heq); [lia|].
      exists y, d. split; [done|]. split; [done|]. lia.
    + exists (year - 1), (days + year_length (year - 1)). split; [|lia].
      destruct fuel as [|fuel]; [lia|]. cbn [year_loop].
      rewrite (proj2 (Z.leb_gt _ _)) by lia. by rewrite (proj2 (Z.ltb_ge _ _)) by lia.
Qed.

(** The days of months [month .. 12]. *)
Definition days_from_month (year month : Z) : Z :=
  foldr Z.add 0 ((λ k, days_in_month year (Z.of_nat k)) <$> seq (Z.to_nat month) (Z.to_nat (13 - month))).

Lemma days_from_month_step year month :
  1 <= month <= 12 → days_from_month year month = days_in_month year month + days_from_month year (month + 1).
Proof.
  intros Hm. unfold days_from_month. replace (Z.to_nat (13 - month)) with (S (Z.to_nat (13 - (month + 1)))) by lia.
  simpl. rewrite Z2Nat.id by lia. do 4 f_equal. lia.
Qed.

Lemma sum_Z_snoc (l : list Z) x : foldr Z.add 0 (l ++ [x]) = foldr Z.add 0 l + x.
Proof. induction l as [|y l IH]; simpl; [lia|]. rewrite IH. lia. Qed.

Lemma days_before_month_step year month :
  1 <= month → days_before_month year (month + 1) = days_before_month year month + days_in_month year month.
Proof.
  intros Hm. unfold days_before_month. replace (Z.to_nat (month + 1 - 1)) with (S (Z.to_nat (month - 1))) by lia.
  rewrite seq_S, fmap_app, list_fmap_singleton, sum_Z_snoc. do 2 f_equal. lia.
Qed.

Lemma year_is_its_months year : days_from_month year 1 = year_length year.
Proof. unfold days_from_month, year_length. simpl. by destruct (is_leap year). Qed.

Lemma month_loop_exact fuel : ∀ year month days,
  1 <= month <= 12 → (Z.to_nat (13 - month) <= fuel)%nat → 0 <= days < days_from_month year month →
  ∃ m d, month_loop fuel year month days = Some (m, d) ∧ 1 <= m <= 12 ∧ 0 <= d < days_in_month year m ∧
         days_before_month year m + d = days_before_month year month + days.
Proof.
  induction fuel as [|fuel IH]; intros year month days Hm Hfuel Hd; [lia|]. cbn [month_loop].
  rewrite days_from_month_step in Hd by lia. destruct (Z.leb_spec (days_in_month year month) days).
  - destruct (decide (month = 12)) as [->|Hne].
    { assert (days_from_month year (12 + 1) = 0) as Hz by done. lia. }
    destruct (IH year (month + 1) (days - days_in_month year month)) as (m & d & Hrun & Hm' & Hd' & Heq); [lia..|].
    exists m, d. split_and!; try done; try lia. rewrite days_before_month_step in Heq by lia. lia.
  - exists month, days. split_and!; done || lia.
Qed.

Lemma date_parts_spec (secs : Z) :
  ∃ d, date_parts secs = Some d ∧
    1 <= dp_month d <= 12 ∧ 1 <= dp_day d <= days_in_month (dp_year d) (dp_month d) ∧
    0 <= dp_hour d < 24 ∧ 0 <= dp_minute d < 60 ∧ 0 <= dp_second d < 60 ∧
    secs = 86400 * day_number (dp_year d) (dp_month d) (dp_day d) +
           3600 * dp_hour d + 60 * dp_minute d + dp_second d.
Proof.
  unfold date_parts.
  destruct (year_loop_exact (S (S (Z.to_nat (Z.abs (secs / 86400))))) 1970 (secs / 86400))
    as (y & d & -> & Hd & Hy); [lia|]. cbn [mbind option_bind].
  destruct (month_loop_exact 13 y 1 d) as (m & d' & -> & Hm & Hd' & Hmo); [lia|lia|by rewrite year_is_its_months|].
  cbn [mbind option_bind]. eexists. split; [reflexivity|]. simpl. split; [lia|]. split; [lia|].
  assert (days_before_year 1970 = 0) as H0 by reflexivity. rewrite H0 in Hy.
  assert (days_before_month y 1 = 0) as H1 by reflexivity. rewrite H1 in Hmo.
  unfold day_number. replace (d' + 1 - 1) with d' by lia.
  replace (days_before_year y + days_before_month y m + d') with (secs / 86400) by lia.
  clear. split_and!; Z.to_euclidean_division_equations; lia.
Qed.


(** The literal that the JSON path sends. *)
Lemma format_datetime64_some ns : is_Some (format_datetime64_ns ns).
Proof.
  unfold format_datetime64_ns, date_format.
  destruct (date_parts_spec (Z.of_N (ns / 1000000000))) as (d & -> & _). by eexists.
Qed.

(** ** Reading the wire *)

Fixpoint read_varuint (l : Bytes) : option (N * Bytes) :=
  match l with
  | [] => None
  | b :: rest =>
      let v := Byte.to_N b in
      if (v <? 128)%N then Some (v, rest)
      else '(hi, rest) ← read_varuint rest; Some ((v - 128) + 128 * hi, rest)%N
  end.

Fixpoint read_le (k : nat) (l : Bytes) : option (N * Bytes) :=
  match k, l with
  | O, _ => Some (0%N, l)
  | S k, b :: rest => '(hi, rest) ← read_le k rest; Some (Byte.to_N b + 256 * hi, rest)%N
  | S _, [] => None
  end.

Definition read_le_signed (k : nat) (l : Bytes) : option (Z * Bytes) :=
  '(v, rest) ← read_le k l;
  Some (if (v <? 2 ^ (8 * N.of_nat k - 1))%N then Z.of_N v else Z.of_N v - 2 ^ (8 * Z.of_nat k), rest).

Definition read_string (l : Bytes) : option (string * Bytes) :=
  '(n, rest) ← read_varuint l;
  if (N.of_nat (length rest) <? n)%N then None
  else Some (String.string_of_list_byte (take (N.to_nat n) rest), drop (N.to_nat n) rest).

Fixpoint read_pairs (n : nat) (l : Bytes) : option (list (string * string) * Bytes) :=
  match n with
  | O => Some ([], l)
  | S n =>
      '(k, l) ← read_string l;
      '(v, l) ← read_string l;
      '(m, l) ← read_pairs n l;
      Some ((k, v) :: m, l)
  end.

Lemma varuint_byte v : N.lor (N.land v 127) 128 = (v mod 128 + 128)%N.
Proof.
  rewrite <- N.lxor_lor; [rewrite <- N.add_nocarry_lxor|].
  - f_equal. change 127%N with (N.ones 7). by rewrite N.land_ones.
  - rewrite <- N.land_assoc. apply N.land_0_r.
  - rewrite <- N.land_assoc. apply N.land_0_r.
Qed.

Lemma varuint_round_trip_loop fuel : ∀ v rest,
  (v < 2 ^ (7 * N.of_nat fuel))%N → (0 < fuel)%nat →
  read_varuint (varuint_loop fuel v ++ rest) = Some (v, rest).
Proof.
  induction fuel as [|fuel IH]; intros v rest Hv Hfuel; [lia|]. cbn [varuint_loop].
  assert (N.shiftr v 7 = v / 128)%N as Hsh by apply N.shiftr_div_pow2.
  assert (N.land v 127 = v mod 128)%N as Hland by (change 127%N with (N.ones 7); by rewrite N.land_ones).
  pose proof (N.mod_lt v 128 ltac:(done)) as Hmod. pose proof (N.div_mod v 128 ltac:(done)) as Hdm.
  rewrite Hsh. destruct (N.eqb_spec (v / 128) 0) as [Hz|Hnz]; simpl; rewrite u8_of_N_to_N.
  - rewrite Hland, (N.mod_small (v mod 128) 256), (proj2 (N.ltb_lt _ _)) by lia. do 2 f_equal. lia.
  - rewrite varuint_byte, (N.mod_small (v mod 128 + 128) 256), (proj2 (N.ltb_ge _ _)) by lia.
    assert (v / 128 < 2 ^ (7 * N.of_nat fuel))%N as Hlt.
    { apply N.Div0.div_lt_upper_bound. replace (7 * N.of_nat (S fuel))%N with (7 + 7 * N.of_nat fuel)%N in Hv by lia.
      by rewrite N.pow_add_r in Hv. }
    assert (0 < fuel)%nat as Hf.
    { destruct fuel; [|lia]. change (2 ^ (7 * N.of_nat 0))%N with 1%N in Hlt. lia. }
    rewrite (IH _ _ Hlt Hf). simpl. do 2 f_equal. lia.
Qed.

Lemma le_bytes_succ k v : le_bytes (S k) v = u8_of_N v :: le_bytes k (N.shiftr v 8).
Proof.
  unfold le_bytes. simpl. rewrite N.shiftr_0_r. f_equal. rewrite <- fmap_S_seq, <- list_fmap_compose.
  apply list_fmap_ext. intros i j _. simpl. rewrite N.shiftr_shiftr. do 2 f_equal. lia.
Qed.

Lemma read_le_bytes k : ∀ v rest, read_le k (le_bytes k v ++ rest) = Some (v mod 2 ^ (8 * N.of_nat k), rest)%N.
Proof.
  induction k as [|k IH]; intros v rest; [simpl; by rewrite N.mod_1_r|].
  rewrite le_bytes_succ. cbn [app read_le]. rewrite IH. cbn [mbind option_bind]. rewrite u8_of_N_to_N.
  do 2 f_equal. replace (8 * N.of_nat (S k))%N with (8 + 8 * N.of_nat k)%N by lia.
  rewrite N.pow_add_r, N.Div0.mod_mul_r, N.shiftr_div_pow2; done.
Qed.

Lemma read_le_signed_bytes k v rest :
  (0 < k)%nat → - 2 ^ (8 * Z.of_nat k - 1) <= v < 2 ^ (8 * Z.of_nat k - 1) →
  read_le_signed k (le_bytes_signed k v ++ rest) = Some (v, rest).
Proof.
  intros Hk Hv. unfold read_le_signed, le_bytes_signed. rewrite read_le_bytes. cbn [mbind option_bind].
  set (w := 8 * Z.of_nat k) in *.
  assert (2 ^ w = 2 * 2 ^ (w - 1)) as Hw.
  { rewrite <- Z.pow_succ_r by lia. f_equal. lia. }
  assert (0 < 2 ^ (w - 1)) as Hpos by (apply Z.pow_pos_nonneg; lia).
  pose proof (Z.mod_pos_bound v (2 ^ w) ltac:(lia)) as Hb.
  assert (Z.of_N (2 ^ (8 * N.of_nat k)) = 2 ^ w) as HwN by (rewrite N2Z.inj_pow; f_equal; lia).
  assert (Z.of_N (2 ^ (8 * N.of_nat k - 1)) = 2 ^ (w - 1)) as HwN1 by (rewrite N2Z.inj_pow; f_equal; lia).
  rewrite N.mod_small by (apply N2Z.inj_lt; rewrite HwN, Z2N.id; lia).
  rewrite Z2N.id by lia.
  destruct (N.ltb_spec (Z.to_N (v mod 2 ^ w)) (2 ^ (8 * N.of_nat k - 1))) as [Hlt|Hge];
    [apply N2Z.inj_lt in Hlt|apply N2Z.inj_le in Hge]; rewrite HwN1, Z2N.id in * by lia; do 2 f_equal.
  - destruct (Z.leb_spec 0 v); [rewrite Z.mod_small; lia|].
    rewrite <- (Z_mod_plus_full v 1 (2 ^ w)), Z.mod_small in Hlt by lia. lia.
  - destruct (Z.leb_spec 0 v); [rewrite Z.mod_small in Hge; lia|].
    rewrite <- (Z_mod_plus_full v 1 (2 ^ w)), Z.mod_small by lia. lia.
Qed.

(** The ClickHouse types of the columns, and the values a server holds. *)
Inductive ChType :=
| TString | TLowCardinality | TUInt8 | TInt32 | TUInt32 | TUInt64 | TInt64
| TDateTime64 | TNullableDateTime64 | TStringMap.

Inductive ServerValue :=
| SVString (s : string)
| SVInt (v : Z)
| SVNull
| SVMap (m : list (string * string)).

Definition type_of (v : RowValue) : ChType :=
  match v with
  | RVString _ => TString
  | LowCardinalityString _ => TLowCardinality
  | UInt8 _ => TUInt8
  | Int32 _ => TInt32
  | UInt32 _ => TUInt32
  | UInt64 _ => TUInt64
  | Int64 _ => TInt64
  | DateTime64Nanos _ => TDateTime64
  | NullableDateTime64Nanos _ => TNullableDateTime64
  | StringMap _ => TStringMap
  end.

(** [DateTime64(9)] is a signed count of nanoseconds on the wire. *)
Definition server_view (v : RowValue) : ServerValue :=
  match v with
  | RVString s | LowCardinalityString s => SVString s
  | UInt8 v | UInt32 v | UInt64 v => SVInt (Z.of_N v)
  | Int32 v | Int64 v => SVInt v
  | DateTime64Nanos ns | NullableDateTime64Nanos (Some ns) => SVInt (as_i64 ns)
  | NullableDateTime64Nanos None => SVNull
  | StringMap m => SVMap m
  end.

Definition read_value (ty : ChType) (l : Bytes) : option (ServerValue * Bytes) :=
  match ty with
  | TString | TLowCardinality => '(s, l) ← read_string l; Some (SVString s, l)
  | TUInt8 => '(v, l) ← read_le 1 l; Some (SVInt (Z.of_N v), l)
  | TUInt32 => '(v, l) ← read_le 4 l; Some (SVInt (Z.of_N v), l)
  | TUInt64 => '(v, l) ← read_le 8 l; Some (SVInt (Z.of_N v), l)
  | TInt32 => '(v, l) ← read_le_signed 4 l; Some (SVInt v, l)
  | TInt64 | TDateTime64 => '(v, l) ← read_le_signed 8 l; Some (SVInt v, l)
  | TNullableDateTime64 =>
      match l with
      | [] => None
      | b :: l => if (Byte.to_N b =? 1)%N then Some (SVNull, l)
                  else '(v, l) ← read_le_signed 8 l; Some (SVInt v, l)
      end
  | TStringMap => '(n, l) ← read_varuint l; '(m, l) ← read_pairs (N.to_nat n) l; Some (SVMap m, l)
  end.

Definition string_ok (s : string) : Prop := is_u64 (N.of_nat (String.length s)).
Definition i32_ok (v : Z) : Prop := - 2 ^ 31 <= v < 2 ^ 31.
Definition i64_ok (v : Z) : Prop := - 2 ^ 63 <= v < 2 ^ 63.

(** The ranges of the Rust types. *)
Definition value_ok (v : RowValue) : Prop :=
  match v with
  | RVString s | LowCardinalityString s => string_ok s
  | UInt8 v => (v < 256)%N
  | UInt32 v => is_u32 v
  | UInt64 v => is_u64 v
  | Int32 v => i32_ok v
  | Int64 v => i64_ok v
  | DateTime64Nanos ns | NullableDateTime64Nanos (Some ns) => is_u64 ns
  | NullableDateTime64Nanos None => True
  | StringMap m => is_u64 (N.of_nat (length m)) ∧ Forall (λ kv, string_ok kv.1 ∧ string_ok kv.2) m
  end.

Lemma varuint_round_trip v rest : is_u64 v → read_varuint (write_varuint v ++ rest) = Some (v, rest).
Proof.
  intros Hv. apply varuint_round_trip_loop; [|lia]. eapply N.le_lt_trans; [exact Hv|]. done.
Qed.

Lemma read_write_string s rest : string_ok s → read_string (write_string s ++ rest) = Some (s, rest).
Proof.
  intros Hs. unfold read_string, write_string. rewrite <- app_assoc, varuint_round_trip by done.
  cbn [mbind option_bind]. pose proof (as_bytes_length s) as Hl.
  rewrite (proj2 (N.ltb_ge _ _)) by (rewrite length_app; lia).
  rewrite Nat2N.id, <- Hl, take_app_length, drop_app_length. unfold as_bytes.
  by rewrite String.string_of_list_byte_of_string.
Qed.

Lemma read_write_pairs (m : btree string string) rest :
  Forall (λ kv, string_ok kv.1 ∧ string_ok kv.2) m →
  read_pairs (length m) (concat ((λ kv, write_string kv.1 ++ write_string kv.2) <$> m) ++ rest) = Some (m, rest).
Proof.
  induction 1 as [|[k v] m [Hk Hv] _ IH]; [done|]. rewrite fmap_cons. cbn [concat length read_pairs].
  rewrite <- !app_assoc, read_write_string by done. cbn [mbind option_bind].
  rewrite read_write_string by done. cbn [mbind option_bind]. by rewrite IH.
Qed.

Lemma as_i64_ok ns : is_u64 ns → i64_ok (as_i64 ns).
Proof.
  unfold is_u64, u64_max, i64_ok, as_i64. intros Hns.
  destruct (N.ltb_spec ns (2 ^ 63)) as [Hlt|Hge]; [apply N2Z.inj_lt in Hlt|apply N2Z.inj_le in Hge];
    apply N2Z.inj_le in Hns; change (Z.of_N (2 ^ 63)) with (2 ^ 63) in *; lia.
Qed.

Lemma read_i64 v rest : i64_ok v → read_le_signed 8 (le_bytes_signed 8 v ++ rest) = Some (v, rest).
Proof. intros Hv. apply read_le_signed_bytes; [lia|exact Hv]. Qed.

Lemma row_binary_value (v : RowValue) (rest : Bytes) :
  value_ok v → read_value (type_of v) (write_row_binary v ++ rest) = Some (server_view v, rest).
Proof.
  intros Hok.
  destruct v as [s|s|v|v|v|v|v|ns|[ns|]|m]; simpl type_of; cbn [read_value write_row_binary server_view value_ok] in *.
  - by rewrite read_write_string.
  - by rewrite read_write_string.
  - change [u8_of_N v] with (le_bytes 1 v). rewrite read_le_bytes. cbn [mbind option_bind].
    by rewrite N.mod_small.
  - rewrite read_le_signed_bytes; [done|lia|exact Hok].
  - rewrite read_le_bytes. cbn [mbind option_bind]. rewrite N.mod_small; [done|].
    eapply N.le_lt_trans; [exact Hok|done].
  - rewrite read_le_bytes. cbn [mbind option_bind]. rewrite N.mod_small; [done|].
    eapply N.le_lt_trans; [exact Hok|done].
  - by rewrite read_i64.
  - by rewrite read_i64 by by apply as_i64_ok.
  - cbn [app]. rewrite u8_of_N_to_N. change (0 mod 256 =? 1)%N with false. cbv iota.
    by rewrite read_i64 by by apply as_i64_ok.
  - cbn [app]. by rewrite u8_of_N_to_N.
  - destruct Hok as [Hl Hm]. rewrite <- app_assoc, varuint_round_trip by done. cbn [mbind option_bind].
    by rewrite Nat2N.id, read_write_pairs.
Qed.

(** the RowBinary encoding of a value is exact and self-delimiting.  A
    server that reads a column of the value's type recovers the value, whatever
    bytes follow, and consumes exactly the bytes written: strings and maps of
    any content, the integer types over their whole range, nullable timestamps
    with their marker.  A timestamp is read as the signed 64-bit count, which
    is the source's number below 2^63. *)
Theorem row_binary_round_trip (v : RowValue) (rest : Bytes) (Hok : value_ok v) :
  read_value (type_of v) (write_row_binary v ++ rest) = Some (server_view v, rest) ∧
  (∀ ns, (ns < 2 ^ 63)%N → as_i64 ns = Z.of_N ns).
Proof.
  split; [by apply row_binary_value|intros ns Hns; unfold as_i64; by rewrite (proj2 (N.ltb_lt _ _))].
Qed.

Lemma row_binary_round_trip_witness :
  let v := StringMap [("aa", "bb"); ("k", "v")] in
  write_row_binary v = u8_of_N <$> [2; 2; 97; 97; 2; 98; 98; 1; 107; 1; 118]%N ∧
  read_value (type_of v) (write_row_binary v ++ [u8_of_N 7]) = Some (server_view v, [u8_of_N 7]).
Proof.
  split; [by vm_compute|].
  apply (row_binary_round_trip (StringMap [("aa", "bb"); ("k", "v")]) [u8_of_N 7]).
  split; [by vm_compute|]. repeat constructor; by vm_compute.
Defined.
