(* ===== verification/LogsAdapter.v ===== *)
(** * The ClickHouse logs adapter
    (plugins/opendata-ingest-clickhouse/src/adapter/{mod,logs}.rs)

    How a commit's decoded logs become insert chunks: the stable sort, the
    greedy chunking by rows and bytes, the rows and the idempotency tokens.
    SHA-256 comes from the [sha2] crate and is a parameter. *)

From Stdlib Require Import ZArith NArith Lia Sorted.
From stdpp Require Import sorting.
From S2P Require Import Prelude.
From S2P Require Import BTree.
From S2P Require Import Types.
From S2P Require Import OtlpLogs.
From S2P Require Import RowValue.
Local Open Scope N_scope.

Class Sha256 := { sha256 : Bytes → Bytes }.

(** ** Chunks *)

Record ClickHouseSettings := {
  chs_insert_quorum : option string;
  insert_deduplication_token : string;
  chs_apply_deduplication_token : bool;
}.

Record InsertChunk := {
  ic_database : string;
  ic_table : string;
  columns : list string;
  rows : list (list RowValue);
  settings : ClickHouseSettings;
  idempotency_token : string;
  chunk_index : N;
  observability_labels : list (string * string);
}.

Definition rows_count (c : InsertChunk) : N := N.of_nat (length (rows c)).

Record ClickHouseAdapterBatch (R : Type) := {
  cab_identity : CommitIdentity;
  cab_records : list R;
  cab_bytes : N;
}.
Arguments cab_identity {R}. Arguments cab_records {R}. Arguments cab_bytes {R}.
Arguments Build_ClickHouseAdapterBatch {R}.

Inductive AdapterError := Plan (msg : string).
Definition AdapterError_display (e : AdapterError) : string := match e with Plan m => "adapter: " +:+ m end.

(** The trait, at the record type of the logs sink. *)
Class Adapter (A : Type) := {
  plan : A → ClickHouseAdapterBatch DecodedLogRecord → result (list InsertChunk) AdapterError;
}.

(** ** Configuration *)

Record LogsAdapterConfig := {
  database : string;
  table : string;
  adapter_version : N;
  max_chunk_rows : N;
  max_chunk_bytes : N;
  insert_quorum : option string;
  apply_deduplication_token : bool;
}.

Definition LogsAdapterConfig_default : LogsAdapterConfig := {|
  database := "responsive"; table := "logs"; adapter_version := 1;
  max_chunk_rows := 100000; max_chunk_bytes := 32 * 1024 * 1024;
  insert_quorum := Some "auto"; apply_deduplication_token := true |}.

Record OtlpLogsClickHouseAdapter := {
  oca_config : LogsAdapterConfig;
  oca_fingerprint : string;
}.

Definition nl : string := String "010" "".

(** The bytes the hasher is fed, in order. *)
Definition fingerprint_input (config : LogsAdapterConfig) : string :=
  "otlp-logs-clickhouse-adapter:v1" +:+ nl +:+
  "database=" +:+ database config +:+ nl +:+
  "table=" +:+ table config +:+ nl +:+
  "adapter_version=" +:+ show (adapter_version config) +:+ nl +:+
  "max_chunk_rows=" +:+ show (max_chunk_rows config) +:+ nl +:+
  "max_chunk_bytes=" +:+ show (max_chunk_bytes config) +:+ nl +:+
  "insert_quorum=" +:+ default "" (insert_quorum config) +:+ nl.

Definition COLUMNS : list string := [
  "Timestamp"; "ObservedTimestamp"; "SeverityText"; "SeverityNumber"; "ServiceName"; "Body";
  "ResourceAttributes"; "LogAttributes"; "TraceId"; "SpanId"; "_odb_sequence"; "_odb_entry_index";
  "_odb_record_index"; "_odb_manifest_path"; "_odb_data_path"; "_odb_ingestion_time_ms";
  "_adapter_version"; "_odb_gateway_received_at"].

(** ** Rows *)

(** [str::parse::<u64>]: an optional plus sign, then at least one digit. *)
Fixpoint parse_digits (s : string) (acc : N) : option N :=
  match s with
  | EmptyString => Some acc
  | String c s => if is_digit c then parse_digits s (10 * acc + (Ascii.N_of_ascii c - 48)) else None
  end.
Definition parse_u64 (s : string) : option N :=
  let digits := match s with String "+" s' => s' | _ => s end in
  match digits with
  | EmptyString => None
  | _ => v ← parse_digits digits 0; if v <=? u64_max then Some v else None
  end.

Definition severity_to_u8 (severity_number : Z) : N := Z.to_N (Z.max 0 (Z.min severity_number 255)).

Definition GATEWAY_KEY : string := "_odb_gateway_received_at".

Definition log_row (config : LogsAdapterConfig) (rec : DecodedLogRecord) : list RowValue :=
  let gateway_received_at := bt_get GATEWAY_KEY (resource_attributes rec) ≫= parse_u64 in
  let resource := bt_remove GATEWAY_KEY (resource_attributes rec) in
  [DateTime64Nanos (timestamp_unix_nano rec);
   DateTime64Nanos (observed_timestamp_unix_nano rec);
   LowCardinalityString (severity_text rec);
   UInt8 (severity_to_u8 (severity_number rec));
   LowCardinalityString (default "" (service_name rec));
   RVString (body rec);
   StringMap resource;
   StringMap (log_attributes rec);
   RVString (trace_id_hex rec);
   RVString (span_id_hex rec);
   UInt64 (buffer_sequence (source rec));
   UInt32 (row_entry_index (source rec));
   UInt32 (record_index (source rec));
   LowCardinalityString (manifest_path (source rec));
   RVString (data_path (source rec));
   Int64 (row_ingestion_time_ms (source rec));
   UInt32 (adapter_version config);
   NullableDateTime64Nanos gateway_received_at].

Definition build_token (manifest_path : string) (config : LogsAdapterConfig) (fingerprint : string)
    (low high chunk_index : N) : string :=
  manifest_path +:+ ":" +:+ database config +:+ "." +:+ table config +:+ ":" +:+
  show low +:+ "-" +:+ show high +:+ ":" +:+ show (adapter_version config) +:+ ":" +:+
  fingerprint +:+ ":" +:+ show chunk_index.

Definition logs_table_ddl (config : LogsAdapterConfig) : string :=
  "CREATE TABLE IF NOT EXISTS " +:+ database config +:+ "." +:+ table config +:+ " (" +:+ nl +:+
  ("Timestamp           DateTime64(9)               CODEC(Delta, ZSTD)," +:+ nl +:+
   "ObservedTimestamp   DateTime64(9)               CODEC(Delta, ZSTD)," +:+ nl +:+
   "SeverityText        LowCardinality(String)," +:+ nl +:+
   "SeverityNumber      UInt8," +:+ nl +:+
   "ServiceName         LowCardinality(String)," +:+ nl +:+
   "Body                String                      CODEC(ZSTD)," +:+ nl +:+
   "ResourceAttributes  Map(LowCardinality(String), String)," +:+ nl +:+
   "LogAttributes       Map(LowCardinality(String), String)," +:+ nl +:+
   "TraceId             String                      CODEC(ZSTD)," +:+ nl +:+
   "SpanId              String                      CODEC(ZSTD)," +:+ nl +:+
   "_odb_sequence            UInt64," +:+ nl +:+
   "_odb_entry_index         UInt32," +:+ nl +:+
   "_odb_record_index        UInt32," +:+ nl +:+
   "_odb_manifest_path       LowCardinality(String)," +:+ nl +:+
   "_odb_data_path           String," +:+ nl +:+
   "_odb_ingestion_time_ms   Int64," +:+ nl +:+
   "_adapter_version         UInt32," +:+ nl +:+
   "_odb_gateway_received_at    Nullable(DateTime64(9))," +:+ nl +:+
   "_odb_clickhouse_inserted_at DateTime64(9) DEFAULT now64(9)" +:+ nl +:+
   ")" +:+ nl +:+
   "ENGINE = ReplacingMergeTree(_adapter_version)" +:+ nl +:+
   "PARTITION BY toDate(Timestamp)" +:+ nl +:+
   "ORDER BY (toDate(Timestamp), ServiceName, _odb_sequence, _odb_entry_index, _odb_record_index)" +:+ nl +:+
   "TTL toDate(Timestamp) + INTERVAL 30 DAY").

(** ** The stable sort *)

Definition sort_key (r : DecodedLogRecord) : N * N * N :=
  (buffer_sequence (source r), row_entry_index (source r), record_index (source r)).
Definition key_leb (a b : N * N * N) : bool :=
  let '(a1, a2, a3) := a in
  let '(b1, b2, b3) := b in
  (a1 <? b1) || ((a1 =? b1) && ((a2 <? b2) || ((a2 =? b2) && (a3 <=? b3)))).

(** [sort_by_key] is stable; so is this insertion sort. *)
Fixpoint insert_by_key (r : DecodedLogRecord) (l : list DecodedLogRecord) : list DecodedLogRecord :=
  match l with
  | [] => [r]
  | r' :: l' => if key_leb (sort_key r) (sort_key r') then r :: l else r' :: insert_by_key r l'
  end.
Definition sort_by_key (l : list DecodedLogRecord) : list DecodedLogRecord := foldr insert_by_key [] l.

Section plan.
Context `{P : OtlpProto} `{Sha256}.

Definition chunking_fingerprint (config : LogsAdapterConfig) : string :=
  hex_encode (take 8 (sha256 (as_bytes (fingerprint_input config)))).

Definition OtlpLogsClickHouseAdapter_new (config : LogsAdapterConfig) : OtlpLogsClickHouseAdapter :=
  {| oca_config := config; oca_fingerprint := chunking_fingerprint config |}.

(** ** Chunking *)

Definition emit (config : LogsAdapterConfig) (manifest_path fingerprint : string) (low high : N)
    (slice : list DecodedLogRecord) (chunk_index : N) : InsertChunk :=
  let token := build_token manifest_path config fingerprint low high chunk_index in
  {| ic_database := database config; ic_table := table config; columns := COLUMNS;
     rows := log_row config <$> slice;
     settings := {| chs_insert_quorum := insert_quorum config; insert_deduplication_token := token;
                    chs_apply_deduplication_token := apply_deduplication_token config |};
     idempotency_token := token; chunk_index := chunk_index;
     observability_labels := [("table", table config); ("signal", "logs")] |}.

Record ChunkState := {
  cs_chunks : list InsertChunk;
  cs_current : list DecodedLogRecord;
  cs_current_bytes : N;
  cs_chunk_index : N;
}.

(** One turn of the loop over the records. *)
Definition chunk_step (emit : list DecodedLogRecord → N → InsertChunk) (max_rows max_bytes : N)
    (st : ChunkState) (record : DecodedLogRecord) : ChunkState :=
  let rec_bytes := approx_size_bytes record in
  let would_exceed_rows := max_rows <? N.of_nat (length (cs_current st)) + 1 in
  let would_exceed_bytes := max_bytes <? cs_current_bytes st + rec_bytes in
  let st :=
    if negb (match cs_current st with [] => true | _ => false end) &&
       (would_exceed_rows || would_exceed_bytes)
    then {| cs_chunks := cs_chunks st ++ [emit (cs_current st) (cs_chunk_index st)];
            cs_current := []; cs_current_bytes := 0;
            cs_chunk_index := wrap32 (cs_chunk_index st + 1) |}
    else st in
  {| cs_chunks := cs_chunks st; cs_current := cs_current st ++ [record];
     cs_current_bytes := cs_current_bytes st + rec_bytes; cs_chunk_index := cs_chunk_index st |}.

Definition chunk_records (emit : list DecodedLogRecord → N → InsertChunk) (max_rows max_bytes : N)
    (records : list DecodedLogRecord) : list InsertChunk :=
  let st := foldl (chunk_step emit max_rows max_bytes)
              {| cs_chunks := []; cs_current := []; cs_current_bytes := 0; cs_chunk_index := 0 |} records in
  match cs_current st with
  | [] => cs_chunks st
  | _ => cs_chunks st ++ [emit (cs_current st) (cs_chunk_index st)]
  end.

Definition plan_logs (self : OtlpLogsClickHouseAdapter) (batch : ClickHouseAdapterBatch DecodedLogRecord)
    : result (list InsertChunk) AdapterError :=
  let config := oca_config self in
  let low_sequence := range_low (ci_range (cab_identity batch)) in
  let high_sequence := range_high (ci_range (cab_identity batch)) in
  let records := sort_by_key (cab_records batch) in
  match records with
  | [] => Ok []
  | first :: _ =>
      let path := manifest_path (source first) in
      match List.find (λ r, negb (String.eqb (manifest_path (source r)) path)) records with
      | Some mismatch =>
          Err (Plan ("commit group mixes manifest paths: first record has " +:+ path +:+ ", found " +:+
                     manifest_path (source mismatch)))
      | None =>
          Ok (chunk_records (emit config path (oca_fingerprint self) low_sequence high_sequence)
                (N.max (max_chunk_rows config) 1) (N.max (max_chunk_bytes config) 1) records)
      end
  end.

#[export] Instance OtlpLogsClickHouseAdapter_adapter : Adapter OtlpLogsClickHouseAdapter := { plan := plan_logs }.

(** ** The chunking, specified *)

Definition slice_bytes (s : list DecodedLogRecord) : N := sum_N (approx_size_bytes <$> s).

(** [r] does not fit behind [s]. *)
Definition exceeds (max_rows max_bytes : N) (s : list DecodedLogRecord) (r : DecodedLogRecord) : Prop :=
  max_rows < N.of_nat (length s) + 1 ∨ max_bytes < slice_bytes s + approx_size_bytes r.
(** A chunk stays within the limits, except that one record is never split. *)
Definition fits (max_rows max_bytes : N) (s : list DecodedLogRecord) : Prop :=
  s ≠ [] ∧ N.of_nat (length s) ≤ max_rows ∧ (slice_bytes s ≤ max_bytes ∨ length s = 1%nat).
(** No chunk is closed early. *)
Fixpoint greedy (max_rows max_bytes : N) (slices : list (list DecodedLogRecord)) : Prop :=
  match slices with
  | s :: rest =>
      match rest with (r :: _) :: _ => exceeds max_rows max_bytes s r | _ => True end ∧
      greedy max_rows max_bytes rest
  | [] => True
  end.

Lemma greedy_snoc_cons mr mb full c s s' :
  greedy mr mb (full ++ [c :: s]) → greedy mr mb (full ++ [c :: s']).
Proof.
  induction full as [|x full IH]; [done|]. simpl. intros [Hx Hg]. split; [|by apply IH].
  by destruct full as [|[|? ?] ?].
Qed.

Lemma greedy_close mr mb full s r :
  greedy mr mb (full ++ [s]) → exceeds mr mb s r → greedy mr mb ((full ++ [s]) ++ [[r]]).
Proof.
  induction full as [|x full IH]; [done|]. simpl. intros [Hx Hg] He. split; [|by apply IH].
  destruct full as [|[|? ?] ?]; done.
Qed.

Lemma slice_bytes_snoc s r : slice_bytes (s ++ [r]) = slice_bytes s + approx_size_bytes r.
Proof. unfold slice_bytes. rewrite fmap_app, sum_N_app. simpl. lia. Qed.

(** What the loop has built after [records]: the closed slices and the open
    one. *)
Record chunk_inv (emit : list DecodedLogRecord → N → InsertChunk) (mr mb : N)
    (records : list DecodedLogRecord) (full : list (list DecodedLogRecord)) (st : ChunkState) : Prop := {
  ci_chunks : cs_chunks st = imap (λ i s, emit s (wrap32 (N.of_nat i))) full;
  ci_index : cs_chunk_index st = wrap32 (N.of_nat (length full));
  ci_bytes : cs_current_bytes st = slice_bytes (cs_current st);
  ci_records : records = concat full ++ cs_current st;
  ci_full : Forall (fits mr mb) full;
  ci_current : cs_current st = [] → full = [];
  ci_fits : cs_current st ≠ [] → fits mr mb (cs_current st);
  ci_greedy : greedy mr mb (full ++ [cs_current st]);
}.

Lemma chunk_step_inv emit mr mb records full st r :
  1 ≤ mr → chunk_inv emit mr mb records full st →
  ∃ full', chunk_inv emit mr mb (records ++ [r]) full' (chunk_step emit mr mb st r).
Proof.
  destruct st as [chunks cur bytes idx]. intros Hmr [Hc Hi Hb Hr Hf Hcur Hfit Hg]. unfold chunk_step. simpl in *.
  destruct cur as [|x cur].
  - exists []. rewrite (Hcur eq_refl) in *. simpl in *. subst. split; simpl; try done.
    + unfold slice_bytes. simpl. lia.
    + intros _. split_and!; [done|simpl; lia|by right].
  - simpl negb. cbn [andb].
    assert (exceeds mr mb (x :: cur) r → ∃ full',
      chunk_inv emit mr mb (records ++ [r]) full'
        {| cs_chunks := chunks ++ [emit (x :: cur) idx]; cs_current := [r];
           cs_current_bytes := 0 + approx_size_bytes r; cs_chunk_index := wrap32 (idx + 1) |}) as Hclose.
    { intros He. exists (full ++ [x :: cur]). split; simpl.
      - rewrite imap_app. simpl. by rewrite Hc, Hi, Nat.add_0_r.
      - rewrite Hi, length_app. simpl. unfold wrap32. rewrite N.Div0.add_mod_idemp_l. f_equal. lia.
      - unfold slice_bytes. simpl. lia.
      - rewrite Hr, concat_app. simpl. by rewrite app_nil_r.
      - apply Forall_app. split; [done|]. constructor; [by apply Hfit|constructor].
      - done.
      - intros _. split_and!; [done|simpl; lia|by right].
      - by apply greedy_close. }
    destruct (N.ltb_spec mr (N.of_nat (length (x :: cur)) + 1)) as [Hrows|Hrows]; cbn [orb].
    { apply Hclose. by left. }
    destruct (N.ltb_spec mb (bytes + approx_size_bytes r)) as [Hbytes|Hbytes].
    { apply Hclose. right. by rewrite <- Hb. }
    exists full. split; simpl; try done.
    + by rewrite app_comm_cons, slice_bytes_snoc, Hb.
    + by rewrite Hr, <- app_assoc.
    + intros _. split; [done|]. rewrite app_comm_cons, length_app. simpl length in *. split; [lia|]. left.
      rewrite slice_bytes_snoc. lia.
    + eapply greedy_snoc_cons. exact Hg.
Qed.

Lemma chunk_records_spec emit mr mb records :
  1 ≤ mr →
  ∃ slices, chunk_records emit mr mb records = imap (λ i s, emit s (wrap32 (N.of_nat i))) slices ∧
    concat slices = records ∧ Forall (fits mr mb) slices ∧ greedy mr mb slices.
Proof.
  intros Hmr. unfold chunk_records. set (st0 := {| cs_chunks := [] |}).
  assert (∃ full, chunk_inv emit mr mb records full (foldl (chunk_step emit mr mb) st0 records))
    as (full & [Hc Hi Hb Hr Hf Hcur Hfit Hg]).
  { induction records as [|r records IH] using rev_ind.
    - exists []. by split.
    - destruct IH as (full & Hinv). rewrite foldl_app. simpl. by eapply chunk_step_inv. }
  destruct (foldl _ st0 records) as [chunks cur bytes idx]. simpl in *. destruct cur as [|x cur].
  - exists []. rewrite (Hcur eq_refl) in *. simpl in *. by subst.
  - exists (full ++ [x :: cur]). split_and!.
    + rewrite imap_app. simpl. by rewrite Hc, Hi, Nat.add_0_r.
    + rewrite concat_app. simpl. by rewrite app_nil_r.
    + apply Forall_app. split; [done|]. constructor; [by apply Hfit|constructor].
    + done.
Qed.

(** ** The sort, specified *)

Definition key_le (r1 r2 : DecodedLogRecord) : Prop := key_leb (sort_key r1) (sort_key r2) = true.

Lemma key_leb_spec a b :
  key_leb a b = true ↔
  a.1.1 < b.1.1 ∨ (a.1.1 = b.1.1 ∧ (a.1.2 < b.1.2 ∨ (a.1.2 = b.1.2 ∧ a.2 ≤ b.2))).
Proof.
  destruct a as [[a1 a2] a3], b as [[b1 b2] b3]. simpl.
  rewrite !orb_true_iff, !andb_true_iff, !orb_true_iff, !andb_true_iff, !N.ltb_lt, !N.eqb_eq, N.leb_le. tauto.
Qed.

Lemma key_le_trans r1 r2 r3 : key_le r1 r2 → key_le r2 r3 → key_le r1 r3.
Proof. unfold key_le. rewrite !key_leb_spec. intuition lia. Qed.
Lemma key_le_total r1 r2 : key_leb (sort_key r1) (sort_key r2) = false → key_le r2 r1.
Proof.
  intros Hf. unfold key_le. rewrite key_leb_spec.
  assert (¬ key_leb (sort_key r1) (sort_key r2) = true) as Hn by congruence. rewrite key_leb_spec in Hn. lia.
Qed.
Lemma key_le_antisym r1 r2 : key_le r1 r2 → key_le r2 r1 → sort_key r1 = sort_key r2.
Proof.
  unfold key_le. rewrite !key_leb_spec. destruct (sort_key r1) as [[? ?] ?], (sort_key r2) as [[? ?] ?]. simpl.
  intros H1 H2. assert (∀ a b c a' b' c' : N, a = a' → b = b' → c = c' → (a, b, c) = (a', b', c')) as Heq
    by (intros; by subst). apply Heq; lia.
Qed.

Lemma insert_by_key_perm r l : insert_by_key r l ≡ₚ r :: l.
Proof.
  induction l as [|r' l IH]; cbn [insert_by_key]; [done|]. destruct (key_leb (sort_key r) (sort_key r')); [reflexivity|].
  rewrite IH. apply Permutation_swap.
Qed.
Lemma sort_by_key_perm l : sort_by_key l ≡ₚ l.
Proof. induction l as [|r l IH]; simpl; [done|]. by rewrite insert_by_key_perm, IH. Qed.

Lemma insert_by_key_sorted r l : StronglySorted key_le l → StronglySorted key_le (insert_by_key r l).
Proof.
  induction 1 as [|r' l Hs IH Hall]; cbn [insert_by_key]; [repeat constructor|].
  destruct (key_leb (sort_key r) (sort_key r')) eqn:Hk.
  - constructor; [by constructor|]. constructor; [done|]. eapply Forall_impl; [exact Hall|].
    intros x Hx. by eapply key_le_trans.
  - constructor; [done|]. rewrite insert_by_key_perm. constructor; [by apply key_le_total|done].
Qed.
Lemma sort_by_key_sorted l : StronglySorted key_le (sort_by_key l).
Proof. induction l as [|r l IH]; simpl; [constructor|]. by apply insert_by_key_sorted. Qed.

Lemma sort_by_key_unique l1 l2 :
  NoDup (sort_key <$> l1) → l1 ≡ₚ l2 → sort_by_key l1 = sort_by_key l2.
Proof.
  intros Hnd Hp. eapply StronglySorted_unique_strong; [|apply sort_by_key_sorted..|].
  - intros x1 x2 Hx1 Hx2 H1 H2. rewrite sort_by_key_perm in Hx1, Hx2. rewrite <- Hp in Hx2.
    pose proof (key_le_antisym _ _ H1 H2) as Hk.
    apply list_elem_of_lookup in Hx1 as [i Hi]. apply list_elem_of_lookup in Hx2 as [j Hj].
    assert (i = j) as -> by (eapply (NoDup_lookup (sort_key <$> l1)); [done|rewrite list_lookup_fmap, Hi; done|];
      rewrite list_lookup_fmap, Hj; simpl; by rewrite Hk).
    congruence.
  - by rewrite !sort_by_key_perm.
Qed.

(** Stability: records with equal keys keep their order. *)
Definition with_key (k : N * N * N) (l : list DecodedLogRecord) : list DecodedLogRecord :=
  filter (λ r, sort_key r = k) l.

Lemma insert_by_key_stable k r l : with_key k (insert_by_key r l) = with_key k (r :: l).
Proof.
  induction l as [|r' l IH]; cbn [insert_by_key]; [done|].
  destruct (key_leb (sort_key r) (sort_key r')) eqn:Hk; [done|]. unfold with_key in *.
  rewrite (filter_cons _ r'), IH, !filter_cons. destruct (decide (sort_key r' = k)) as [<-|]; [|done].
  destruct (decide (sort_key r = sort_key r')) as [He|]; [|done].
  rewrite He in Hk. exfalso. assert (key_leb (sort_key r') (sort_key r') = true); [|congruence].
  apply key_leb_spec. lia.
Qed.
Lemma sort_by_key_stable k l : with_key k (sort_by_key l) = with_key k l.
Proof.
  induction l as [|r l IH]; [done|]. change (sort_by_key (r :: l)) with (insert_by_key r (sort_by_key l)).
  rewrite insert_by_key_stable. unfold with_key in *. by rewrite !filter_cons, IH.
Qed.

(** ** The plan *)

Definition mixed_manifests (records : list DecodedLogRecord) : Prop :=
  ∃ r1 r2, r1 ∈ records ∧ r2 ∈ records ∧ manifest_path (source r1) ≠ manifest_path (source r2).

Definition max_rows (self : OtlpLogsClickHouseAdapter) : N := N.max (max_chunk_rows (oca_config self)) 1.
Definition max_bytes (self : OtlpLogsClickHouseAdapter) : N := N.max (max_chunk_bytes (oca_config self)) 1.

(** The chunk of one slice, for a commit of the given range. *)
Definition emit_for (self : OtlpLogsClickHouseAdapter) (path : string) (range : SequenceRange)
    (slice : list DecodedLogRecord) (index : N) : InsertChunk :=
  emit (oca_config self) path (oca_fingerprint self) (range_low range) (range_high range) slice index.

Lemma plan_logs_spec self batch :
  match plan_logs self batch with
  | Ok chunks =>
      (∃ path slices, chunks = imap (λ i s, emit_for self path (ci_range (cab_identity batch)) s (wrap32 (N.of_nat i))) slices ∧
        concat slices = sort_by_key (cab_records batch) ∧
        Forall (λ r, manifest_path (source r) = path) (cab_records batch) ∧
        Forall (fits (max_rows self) (max_bytes self)) slices ∧ greedy (max_rows self) (max_bytes self) slices)
  | Err _ => mixed_manifests (cab_records batch)
  end.
Proof.
  unfold plan_logs. pose proof (sort_by_key_perm (cab_records batch)) as Hp.
  destruct (sort_by_key (cab_records batch)) as [|first rest] eqn:Hs.
  - apply Permutation_nil_l in Hp as Hnil. rewrite <- Hnil. exists "", []. repeat split; constructor.
  - rewrite <- Hs in *. destruct (List.find _ _) as [r|] eqn:Hfind.
    + apply List.find_some in Hfind as [Hin Hne]. apply list_elem_of_In in Hin.
      apply negb_true_iff, String.eqb_neq in Hne. exists r, first. rewrite <- Hp. split_and!; [done| |done].
      rewrite Hs. by left.
    + destruct (chunk_records_spec (emit_for self (manifest_path (source first)) (ci_range (cab_identity batch)))
        (max_rows self) (max_bytes self) (sort_by_key (cab_records batch))) as (slices & Hc & Hcat & Hf & Hg);
        [unfold max_rows; lia|].
      exists (manifest_path (source first)), slices. split_and!; [exact Hc|done| |done|done].
      rewrite <- Hp. apply Forall_forall. intros r Hin.
      pose proof (List.find_none _ _ Hfind r ltac:(by apply list_elem_of_In)) as Hn.
      by apply negb_false_iff, String.eqb_eq in Hn.
Qed.

Lemma concat_rows self path range slices : ∀ f : nat → N,
  concat (rows <$> imap (λ i s, emit_for self path range s (f i)) slices) = log_row (oca_config self) <$> concat slices.
Proof.
  induction slices as [|s slices IH]; intros f; [done|].
  rewrite imap_cons, fmap_cons. cbn [concat]. rewrite fmap_app. f_equal. apply (IH (f ∘ S)).
Qed.

(** C18: the insert plan of a commit loses nothing, duplicates nothing and
    respects the limits.  A commit that mixes manifests is refused, and only
    that; otherwise the rows of the chunks, in order, are the rows of the
    commit's records, sorted by sequence, entry and record and stable on equal
    coordinates; chunk [i] is numbered [i] (as a u32) and carries the token of
    its number; no chunk is empty or, unless it is a single record, larger than
    the row and byte limits; and no chunk is closed while the next record still
    fits. *)
Theorem plan_covers_commit (self : OtlpLogsClickHouseAdapter) (batch : ClickHouseAdapterBatch DecodedLogRecord) :
  match plan self batch with
  | Err _ => mixed_manifests (cab_records batch)
  | Ok chunks =>
      ¬ mixed_manifests (cab_records batch) ∧
      ∃ slices sorted,
        concat (rows <$> chunks) = log_row (oca_config self) <$> sorted ∧
        sorted ≡ₚ cab_records batch ∧ StronglySorted key_le sorted ∧
        (∀ k, with_key k sorted = with_key k (cab_records batch)) ∧
        concat slices = sorted ∧ rows <$> chunks = (λ s, log_row (oca_config self) <$> s) <$> slices ∧
        Forall (fits (max_rows self) (max_bytes self)) slices ∧ greedy (max_rows self) (max_bytes self) slices ∧
        (∀ i c, chunks !! i = Some c →
          chunk_index c = wrap32 (N.of_nat i) ∧ columns c = COLUMNS ∧
          insert_deduplication_token (settings c) = idempotency_token c ∧
          Forall (λ r, idempotency_token c =
            build_token (manifest_path (source r)) (oca_config self) (oca_fingerprint self)
              (range_low (ci_range (cab_identity batch))) (range_high (ci_range (cab_identity batch)))
              (wrap32 (N.of_nat i))) (cab_records batch))
  end.
Proof.
  pose proof (plan_logs_spec self batch) as Hspec. unfold plan. simpl.
  destruct (plan_logs self batch) as [chunks|e]; [|done].
  destruct Hspec as (path & slices & -> & Hcat & Hpath & Hf & Hg). split.
  { intros (r1 & r2 & H1 & H2 & Hne). rewrite Forall_forall in Hpath. rewrite !Hpath in Hne by done. done. }
  exists slices, (sort_by_key (cab_records batch)). split_and!.
  - by rewrite concat_rows, Hcat.
  - apply sort_by_key_perm.
  - apply sort_by_key_sorted.
  - intros k. apply sort_by_key_stable.
  - done.
  - rewrite fmap_imap. unfold compose. simpl. apply list_eq. intros i. rewrite list_lookup_imap, list_lookup_fmap. done.
  - done.
  - done.
  - intros i c. rewrite list_lookup_imap. destruct (slices !! i) as [s|]; simpl; [|done]. intros [= <-].
    simpl. split_and!; [done..|]. eapply Forall_impl; [exact Hpath|]. by intros r ->.
Qed.

(** A replay plans the same inserts.  Two batches of one commit that hold
    the same records in any order, with distinct coordinates, yield the same
    chunks with the same tokens, or the same refusal up to its message. *)
Theorem plan_deterministic (self : OtlpLogsClickHouseAdapter) (batch1 batch2 : ClickHouseAdapterBatch DecodedLogRecord)
    (Hid : cab_identity batch1 = cab_identity batch2)
    (Hrec : cab_records batch1 ≡ₚ cab_records batch2)
    (Hkeys : NoDup (sort_key <$> cab_records batch1)) :
  plan self batch1 = plan self batch2.
Proof. unfold plan. simpl. unfold plan_logs. by rewrite (sort_by_key_unique _ _ Hkeys Hrec), Hid. Qed.

(** Names that the token's separators do not occur in. *)
Definition clean_names (config : LogsAdapterConfig) : Prop :=
  str_free ":" (database config) = true ∧ str_free "." (database config) = true ∧ str_free ":" (table config) = true.

Lemma build_token_inj path1 path2 config1 config2 fp1 fp2 low1 low2 high1 high2 i1 i2 :
  clean_names config1 → clean_names config2 → str_free ":" fp1 = true → str_free ":" fp2 = true →
  build_token path1 config1 fp1 low1 high1 i1 = build_token path2 config2 fp2 low2 high2 i2 →
  path1 = path2 ∧ database config1 = database config2 ∧ table config1 = table config2 ∧ low1 = low2 ∧ high1 = high2 ∧
  adapter_version config1 = adapter_version config2 ∧ fp1 = fp2 ∧ i1 = i2.
Proof.
  intros (Hd1 & Hdot1 & Ht1) (Hd2 & Hdot2 & Ht2) Hf1 Hf2. unfold build_token.
  set (a1 := path1). set (a2 := path2).
  set (b1 := database config1 +:+ "." +:+ table config1). set (b2 := database config2 +:+ "." +:+ table config2).
  set (c1 := show low1 +:+ "-" +:+ show high1). set (c2 := show low2 +:+ "-" +:+ show high2).
  set (d1 := show (adapter_version config1)). set (d2 := show (adapter_version config2)).
  assert (∀ a b c d f i config path low high,
    b = database config +:+ "." +:+ table config → c = show low +:+ "-" +:+ show high →
    d = show (adapter_version config) → a = path → 
    path +:+ ":" +:+ database config +:+ "." +:+ table config +:+ ":" +:+ show low +:+ "-" +:+ show high +:+ ":" +:+
      show (adapter_version config) +:+ ":" +:+ f +:+ ":" +:+ i =
    ((((a +:+ ":" +:+ b) +:+ ":" +:+ c) +:+ ":" +:+ d) +:+ ":" +:+ f) +:+ ":" +:+ i) as Hshape.
  { intros. subst. by rewrite !string_app_assoc. }
  rewrite (Hshape a1 b1 c1 d1), (Hshape a2 b2 c2 d2) by done. clear Hshape. intros Heq.
  apply delim_inj_r in Heq as [Heq Hi]; [|by apply show_free..]. apply show_inj in Hi.
  apply delim_inj_r in Heq as [Heq ->]; [|done..].
  apply delim_inj_r in Heq as [Heq Hv]; [|by apply show_free..]. apply show_inj in Hv.
  apply delim_inj_r in Heq as [Heq Hc]; [|unfold c1, c2; rewrite !str_free_app, !show_free by done; done..].
  apply delim_inj_r in Heq as [Heq Hb]; [|unfold b1, b2; rewrite !str_free_app, ?Hd1, ?Ht1, ?Hd2, ?Ht2; done..].
  unfold b1, b2, c1, c2 in *. apply (delim_inj "-") in Hc as [Hl Hh]; [|by apply show_free..].
  apply (delim_inj ".") in Hb as [Hdb Htb]; [|done..].
  apply show_inj in Hl. apply (show_inj high1 high2) in Hh. done.
Qed.

(** C20: a token belongs to one chunk of one commit.  If chunk [i] of one plan
    and chunk [j] of another have the same idempotency token (names without
    the separators, chunk numbers within a u32), they are the same chunk of
    the same source range of the same manifest, for the same table, adapter
    version and chunking fingerprint. *)
Theorem tokens_identify_chunks (config1 config2 : LogsAdapterConfig)
    (batch1 batch2 : ClickHouseAdapterBatch DecodedLogRecord) (chunks1 chunks2 : list InsertChunk)
    (i j : nat) (c1 c2 : InsertChunk)
    (Hhex : ∀ bytes, str_free ":" (hex_encode bytes) = true)
    (Hnames : clean_names config1 ∧ clean_names config2)
    (Hplan1 : plan (OtlpLogsClickHouseAdapter_new config1) batch1 = Ok chunks1)
    (Hplan2 : plan (OtlpLogsClickHouseAdapter_new config2) batch2 = Ok chunks2)
    (Hi : chunks1 !! i = Some c1) (Hj : chunks2 !! j = Some c2)
    (Hsize : is_u32 (N.of_nat i) ∧ is_u32 (N.of_nat j))
    (Htoken : idempotency_token c1 = idempotency_token c2) :
  i = j ∧ ci_range (cab_identity batch1) = ci_range (cab_identity batch2) ∧
  ic_database c1 = ic_database c2 ∧ ic_table c1 = ic_table c2 ∧
  adapter_version config1 = adapter_version config2 ∧ chunking_fingerprint config1 = chunking_fingerprint config2 ∧
  ∀ r1 r2, r1 ∈ cab_records batch1 → r2 ∈ cab_records batch2 → manifest_path (source r1) = manifest_path (source r2).
Proof.
  destruct Hnames as [Hn1 Hn2]. destruct Hsize as [Hs1 Hs2].
  pose proof (plan_logs_spec (OtlpLogsClickHouseAdapter_new config1) batch1) as H1.
  pose proof (plan_logs_spec (OtlpLogsClickHouseAdapter_new config2) batch2) as H2.
  unfold plan in *. simpl in *. rewrite Hplan1 in H1. rewrite Hplan2 in H2.
  destruct H1 as (p1 & s1 & -> & _ & Hp1 & _). destruct H2 as (p2 & s2 & -> & _ & Hp2 & _).
  rewrite list_lookup_imap in Hi, Hj. destruct (s1 !! i); [|done]. destruct (s2 !! j); [|done].
  simpl in Hi, Hj. simplify_eq. simpl in *.
  apply build_token_inj in Htoken as (-> & -> & -> & Hl & Hh & -> & -> & Hij); [|done|done|apply Hhex..].
  unfold is_u32, u32_max in *. unfold wrap32 in Hij. rewrite !N.mod_small in Hij by lia.
  split_and!; try done; [lia| |].
  - destruct (ci_range (cab_identity batch1)), (ci_range (cab_identity batch2)). simpl in *. by subst.
  - intros r1 r2 Hr1 Hr2. rewrite Forall_forall in Hp1, Hp2. by rewrite (Hp1 r1), (Hp2 r2).
Qed.
End plan.

(** ** A concrete commit *)

#[export] Instance DemoSha : Sha256 := { sha256 bytes := bytes }.

Definition demo_config : LogsAdapterConfig := {|
  database := "responsive"; table := "logs"; adapter_version := 1; max_chunk_rows := 2; max_chunk_bytes := 100000;
  insert_quorum := Some "auto"; apply_deduplication_token := true |}.

Definition demo_rec (sequence entry index : N) : DecodedLogRecord := {|
  source := {| buffer_sequence := sequence; row_entry_index := entry; record_index := index;
               manifest_path := "ingest/otel/logs/manifest"; data_path := "d"; row_ingestion_time_ms := 99%Z |};
  timestamp_unix_nano := 1000; observed_timestamp_unix_nano := 2000; severity_number := 9%Z; severity_text := "INFO";
  body := "hello"; service_name := Some "svc-a";
  resource_attributes := [("_odb_gateway_received_at", "1700000000123456789"); ("service.name", "svc-a")];
  scope_name := None; log_attributes := [("k", "v")]; trace_id_hex := "0a"; span_id_hex := "0b" |}.

Definition demo_batch (records : list DecodedLogRecord) : ClickHouseAdapterBatch DecodedLogRecord := {|
  cab_identity := {| ci_source := mkSourceId "test"; ci_sink := mkSinkId "clickhouse_logs";
                     ci_range := {| range_low := 7; range_high := 7 |}; ci_schema_version := mkSchemaVersion 1 |};
  cab_records := records; cab_bytes := 0 |}.

Definition demo_shuffled : list DecodedLogRecord := [demo_rec 7 0 1; demo_rec 7 1 0; demo_rec 7 0 0].
Definition demo_sorted : list DecodedLogRecord := [demo_rec 7 0 0; demo_rec 7 0 1; demo_rec 7 1 0].
Definition demo_adapter : OtlpLogsClickHouseAdapter := OtlpLogsClickHouseAdapter_new demo_config.

Lemma plan_deterministic_witness :
  plan demo_adapter (demo_batch demo_shuffled) = plan demo_adapter (demo_batch demo_sorted) ∧
  match plan demo_adapter (demo_batch demo_sorted) with
  | Ok chunks => rows_count <$> chunks = [2; 1]
  | Err _ => False
  end.
Proof.
  split; [|by vm_compute]. apply (plan_deterministic demo_adapter (demo_batch demo_shuffled) (demo_batch demo_sorted)).
  - done.
  - apply (Permutation_app_comm [demo_rec 7 0 1; demo_rec 7 1 0] [demo_rec 7 0 0]).
  - by apply (bool_decide_unpack _).
Defined.

Lemma tokens_identify_chunks_witness :
  ∃ chunks1 chunks2 c1 c2,
    plan demo_adapter (demo_batch demo_shuffled) = Ok chunks1 ∧ plan demo_adapter (demo_batch demo_sorted) = Ok chunks2 ∧
    chunks1 !! 1%nat = Some c1 ∧ chunks2 !! 1%nat = Some c2 ∧
    idempotency_token c1 = "ingest/otel/logs/manifest:responsive.logs:7-7:1:6f746c702d6c6f67:1" ∧
    ic_table c1 = ic_table c2.
Proof.
  destruct (plan demo_adapter (demo_batch demo_shuffled)) as [chunks1|e] eqn:H1; [|by vm_compute in H1].
  destruct (plan demo_adapter (demo_batch demo_sorted)) as [chunks2|e] eqn:H2; [|by vm_compute in H2].
  destruct (chunks1 !! 1%nat) as [c1|] eqn:Hc1; [|vm_compute in H1; by simplify_eq].
  destruct (chunks2 !! 1%nat) as [c2|] eqn:Hc2; [|vm_compute in H2; by simplify_eq].
  exists chunks1, chunks2, c1, c2. split_and!; try done.
  - clear H2 Hc2. vm_compute in H1. simplify_eq. simpl in Hc1. by simplify_eq.
  - apply (tokens_identify_chunks (P:=DemoProto) demo_config demo_config (demo_batch demo_shuffled) (demo_batch demo_sorted)
      chunks1 chunks2 1 1 c1 c2 demo_hex_free); try done.
    vm_compute in H1, H2. injection H1 as <-. injection H2 as <-.
    injection Hc1 as <-. injection Hc2 as <-. reflexivity.
Defined.
