(* ===== verification/Serializer.v ===== *)
(** * Chunk serializers
    (plugins/opendata-ingest-clickhouse/src/serializer/ and the JSON values of
    adapter/mod.rs)

    The two wire formats of an insert body.  JSON text comes from the
    [serde_json] crate and is a parameter.  The reader of a
    RowBinaryWithNamesAndTypes body is the specification of the RowBinary
    serializer. *)

From Stdlib Require Import ZArith NArith Lia Sorted.
From S2P Require Import Prelude.
From S2P Require Import BTree.
From S2P Require Import Types.
From S2P Require Import OtlpLogs.
From S2P Require Import RowValue.
From S2P Require Import LogsAdapter.
Local Open Scope N_scope.

(** ** Errors (writer.rs) *)

Inductive WriterErrorClass :=
| ClassRetryable
| ClassNonRetryable
| ClassRetryBudgetExhausted.

Inductive WriterError :=
| WRetryable (message : string)
| WNonRetryable (message : string)
| WRetryBudgetExhausted (message : string)
| WSerialization (message : string).

Definition WriterError_display (e : WriterError) : string :=
  match e with
  | WRetryable m => "clickhouse insert failed (retryable): " +:+ m
  | WNonRetryable m => "clickhouse insert failed (non-retryable): " +:+ m
  | WRetryBudgetExhausted m => "clickhouse insert failed (retry budget exhausted): " +:+ m
  | WSerialization m => "serialization error: " +:+ m
  end.

Definition class (e : WriterError) : WriterErrorClass :=
  match e with
  | WRetryable _ => ClassRetryable
  | WRetryBudgetExhausted _ => ClassRetryBudgetExhausted
  | WNonRetryable _ | WSerialization _ => ClassNonRetryable
  end.

#[export] Instance WriterErrorClass_eq_dec : EqDecision WriterErrorClass.
Proof. solve_decision. Defined.

(** [{:?}] of a [str]: quotes, backslashes and control characters are escaped;
    characters beyond ASCII are taken to be printable. *)
Definition quote : string := String (Ascii.ascii_of_N 34) "".
Definition debug_char (c : Ascii.ascii) : string :=
  match Ascii.N_of_ascii c with
  | 0 => "\0" | 9 => "\t" | 10 => "\n" | 13 => "\r" | 34 => "\" +:+ quote | 92 => "\\"
  | n => if (n <? 32) || (n =? 127)
         then "\u{" +:+ (if n <? 16 then "" else String (hex_digit (n / 16)) "") +:+
              String (hex_digit (n mod 16)) "}"
         else String c ""
  end.
Fixpoint debug_chars (s : string) : string :=
  match s with EmptyString => "" | String c s => debug_char c +:+ debug_chars s end.
Definition debug_str (s : string) : string := quote +:+ debug_chars s +:+ quote.

(** ** Formats *)

Inductive SerializationFormat := JsonEachRow | RowBinary.
Definition SerializationFormat_default : SerializationFormat := JsonEachRow.
Definition SerializationFormat_as_label (f : SerializationFormat) : string :=
  match f with JsonEachRow => "json_each_row" | RowBinary => "row_binary" end.
Definition format_keyword (f : SerializationFormat) : string :=
  match f with JsonEachRow => "JSONEachRow" | RowBinary => "RowBinaryWithNamesAndTypes" end.

(** The trait object of the writer. *)
Class ChunkSerializer (S : Type) := {
  format : S → SerializationFormat;
  serialize : S → InsertChunk → result Bytes WriterError;
}.

(** Both serializers refuse a row that does not match the columns. *)
Definition ragged_row (row : list RowValue) (columns : list string) : WriterError :=
  WSerialization ("row has " +:+ show_nat (length row) +:+ " values but " +:+
                  show_nat (length columns) +:+ " columns are expected").

(** ** RowBinaryWithNamesAndTypes *)

Definition column_type_table (name : string) : option string :=
  match name with
  | "Timestamp" => Some "DateTime64(9)"
  | "ObservedTimestamp" => Some "DateTime64(9)"
  | "SeverityText" => Some "LowCardinality(String)"
  | "SeverityNumber" => Some "UInt8"
  | "ServiceName" => Some "LowCardinality(String)"
  | "Body" => Some "String"
  | "ResourceAttributes" => Some "Map(LowCardinality(String), String)"
  | "LogAttributes" => Some "Map(LowCardinality(String), String)"
  | "TraceId" => Some "String"
  | "SpanId" => Some "String"
  | "_odb_sequence" => Some "UInt64"
  | "_odb_entry_index" => Some "UInt32"
  | "_odb_record_index" => Some "UInt32"
  | "_odb_manifest_path" => Some "LowCardinality(String)"
  | "_odb_data_path" => Some "String"
  | "_odb_ingestion_time_ms" => Some "Int64"
  | "_adapter_version" => Some "UInt32"
  | "_odb_gateway_received_at" => Some "Nullable(DateTime64(9))"
  | _ => None
  end%string.

Definition clickhouse_type_for_column (name : string) : result string WriterError :=
  match column_type_table name with
  | Some ty => Ok ty
  | None =>
      Err (WSerialization ("no RowBinary type table entry for column " +:+ debug_str name +:+
             "; update `clickhouse_type_for_column` to match the adapter DDL"))
  end.

Lemma column_error_class name e : clickhouse_type_for_column name = Err e → class e = ClassNonRetryable.
Proof. unfold clickhouse_type_for_column. destruct (column_type_table name); [done|]. by intros [= <-]. Qed.

(** The three loops append to [out]. *)
Definition write_names (columns : list string) (out : Bytes) : Bytes :=
  foldl (λ out name, out ++ write_string name) out columns.

Fixpoint write_types (columns : list string) (out : Bytes) : result Bytes WriterError :=
  match columns with
  | [] => Ok out
  | name :: columns =>
      let? ty := clickhouse_type_for_column name in
      write_types columns (out ++ write_string ty)
  end.

Fixpoint write_rows (columns : list string) (rows : list (list RowValue)) (out : Bytes) : result Bytes WriterError :=
  match rows with
  | [] => Ok out
  | row :: rows =>
      if negb (length row =? length columns)%nat then Err (ragged_row row columns)
      else write_rows columns rows (foldl (λ out v, out ++ write_row_binary v) out row)
  end.

Definition RowBinary_serialize (chunk : InsertChunk) : result Bytes WriterError :=
  let out := write_names (columns chunk) (write_varuint (N.of_nat (length (columns chunk)))) in
  let? out := write_types (columns chunk) out in
  write_rows (columns chunk) (rows chunk) out.

Inductive RowBinarySerializer := mkRowBinarySerializer.
#[export] Instance RowBinarySerializer_chunk : ChunkSerializer RowBinarySerializer := {
  format _ := RowBinary;
  serialize _ := RowBinary_serialize;
}.

(** ** JSONEachRow *)

(** [serde_json]: values, the object map and its text. *)
Class SerdeJson := {
  JsonValue : Type;
  JsonMap : Type;
  json_string : string → JsonValue;
  json_number : Z → JsonValue;
  json_null : JsonValue;
  json_object : JsonMap → JsonValue;
  json_map_new : JsonMap;
  json_map_insert : string → JsonValue → JsonMap → JsonMap;
  to_vec : JsonValue → result Bytes string;
}.

Section json.
Context `{SerdeJson}.

(** [None] only if the calendar's fuel ran out, which [format_datetime64_some]
    excludes. *)
Definition to_json (v : RowValue) : option JsonValue :=
  match v with
  | RVString s | LowCardinalityString s => Some (json_string s)
  | UInt8 v | UInt32 v | UInt64 v => Some (json_number (Z.of_N v))
  | Int32 v | Int64 v => Some (json_number v)
  | DateTime64Nanos ns | NullableDateTime64Nanos (Some ns) => json_string <$> format_datetime64_ns ns
  | NullableDateTime64Nanos None => Some json_null
  | StringMap m =>
      Some (json_object (foldl (λ obj kv, json_map_insert kv.1 (json_string kv.2) obj) json_map_new m))
  end.

Definition json_row (columns : list string) (row : list RowValue) : option JsonMap :=
  foldl (λ obj cv, obj ← obj; value ← to_json cv.2; Some (json_map_insert cv.1 value obj))
    (Some json_map_new) (zip columns row).

Fixpoint json_rows (columns : list string) (rows : list (list RowValue)) (out : Bytes) : result Bytes WriterError :=
  match rows with
  | [] => Ok out
  | row :: rows =>
      if negb (length row =? length columns)%nat then Err (ragged_row row columns)
      else
        let? line := map_err WSerialization
          (match json_row columns row with Some obj => to_vec (json_object obj) | None => Err "" end) in
        json_rows columns rows (out ++ line ++ [u8_of_N 10])
  end.

Definition JsonEachRow_serialize (chunk : InsertChunk) : result Bytes WriterError :=
  json_rows (columns chunk) (rows chunk) [].

Inductive JsonEachRowSerializer := mkJsonEachRowSerializer.
#[export] Instance JsonEachRowSerializer_chunk : ChunkSerializer JsonEachRowSerializer := {
  format _ := JsonEachRow;
  serialize _ := JsonEachRow_serialize;
}.

(** [Arc<dyn ChunkSerializer>]. *)
Inductive DynSerializer := DynJson (s : JsonEachRowSerializer) | DynRowBinary (s : RowBinarySerializer).
#[export] Instance DynSerializer_chunk : ChunkSerializer DynSerializer := {
  format s := match s with DynJson s => format s | DynRowBinary s => format s end;
  serialize s := match s with DynJson s => serialize s | DynRowBinary s => serialize s end;
}.
Definition build_serializer (f : SerializationFormat) : DynSerializer :=
  match f with
  | JsonEachRow => DynJson mkJsonEachRowSerializer
  | RowBinary => DynRowBinary mkRowBinarySerializer
  end.
End json.

(** ** Reading a body back *)

Definition ch_type_of_name (ty : string) : option ChType :=
  match ty with
  | "String" => Some TString
  | "LowCardinality(String)" => Some TLowCardinality
  | "UInt8" => Some TUInt8
  | "Int32" => Some TInt32
  | "UInt32" => Some TUInt32
  | "UInt64" => Some TUInt64
  | "Int64" => Some TInt64
  | "DateTime64(9)" => Some TDateTime64
  | "Nullable(DateTime64(9))" => Some TNullableDateTime64
  | "Map(LowCardinality(String), String)" => Some TStringMap
  | _ => None
  end%string.

Fixpoint read_strings (n : nat) (l : Bytes) : option (list string * Bytes) :=
  match n with
  | O => Some ([], l)
  | S n => '(s, l) ← read_string l; '(rest, l) ← read_strings n l; Some (s :: rest, l)
  end.

Fixpoint read_row (tys : list ChType) (l : Bytes) : option (list ServerValue * Bytes) :=
  match tys with
  | [] => Some ([], l)
  | ty :: tys => '(v, l) ← read_value ty l; '(vs, l) ← read_row tys l; Some (v :: vs, l)
  end.

(** Rows up to the end of the body; a row has at least a byte. *)
Fixpoint read_rows (fuel : nat) (tys : list ChType) (l : Bytes) : option (list (list ServerValue)) :=
  match l, fuel with
  | [], _ => Some []
  | _, O => None
  | _, S fuel => '(row, l) ← read_row tys l; rows ← read_rows fuel tys l; Some (row :: rows)
  end.

(** Names, types, rows. *)
Definition read_body (l : Bytes) : option (list string * list string * list (list ServerValue)) :=
  '(n, l) ← read_varuint l;
  '(names, l) ← read_strings (N.to_nat n) l;
  '(types, l) ← read_strings (N.to_nat n) l;
  tys ← mapM ch_type_of_name types;
  rows ← read_rows (length l) tys l;
  Some (names, types, rows).

(** A row whose values have the columns' types and are in range. *)
Definition row_typed (tys : list ChType) (row : list RowValue) : Prop := type_of <$> row = tys ∧ Forall value_ok row.

Definition row_bytes (row : list RowValue) : Bytes := concat (write_row_binary <$> row).
Definition view_row (row : list RowValue) : list ServerValue := server_view <$> row.

Lemma foldl_write {A} (write : A → Bytes) (l : list A) (out : Bytes) :
  foldl (λ out x, out ++ write x) out l = out ++ concat (write <$> l).
Proof.
  revert out. induction l as [|x l IH]; intros out; [by rewrite app_nil_r|]. cbn [foldl]. rewrite IH, fmap_cons.
  cbn [concat]. by rewrite app_assoc.
Qed.

Lemma write_types_ok columns types out :
  collect_results (clickhouse_type_for_column <$> columns) = Ok types →
  write_types columns out = Ok (out ++ concat (write_string <$> types)).
Proof.
  revert types out. induction columns as [|c columns IH]; intros types out; cbn [fmap list_fmap collect_results].
  - intros [= <-]. by rewrite app_nil_r.
  - cbn [write_types]. destruct (clickhouse_type_for_column c) as [ty|e]; [|done].
    destruct (collect_results _) as [tys|e] eqn:Hc; [|done]. intros [= <-].
    rewrite (IH tys _ eq_refl), fmap_cons. cbn [concat]. by rewrite app_assoc.
Qed.

Lemma write_rows_ok columns rows out :
  Forall (λ row, length row = length columns) rows →
  write_rows columns rows out = Ok (out ++ concat (row_bytes <$> rows)).
Proof.
  revert out. induction rows as [|row rows IH]; intros out Hall; [by rewrite app_nil_r|].
  apply Forall_cons in Hall as [Hrow Hall]. cbn [write_rows].
  rewrite (proj2 (Nat.eqb_eq _ _) Hrow). cbn [negb]. rewrite foldl_write, IH by done. rewrite fmap_cons.
  cbn [concat]. by rewrite app_assoc.
Qed.

Lemma read_strings_written l rest :
  Forall string_ok l → read_strings (length l) (concat (write_string <$> l) ++ rest) = Some (l, rest).
Proof.
  induction 1 as [|s l Hs _ IH]; [done|]. rewrite fmap_cons. cbn [concat length read_strings].
  rewrite <- app_assoc, read_write_string by done. cbn [mbind option_bind]. by rewrite IH.
Qed.

Lemma read_value_written v rest :
  value_ok v → read_value (type_of v) (write_row_binary v ++ rest) = Some (server_view v, rest).
Proof. intros Hv. by apply row_binary_value. Qed.

Lemma read_row_written row rest :
  Forall value_ok row →
  read_row (type_of <$> row) (row_bytes row ++ rest) = Some (view_row row, rest).
Proof.
  unfold row_bytes, view_row. induction 1 as [|v row Hv _ IH]; [done|]. rewrite !fmap_cons. cbn [concat read_row].
  rewrite <- app_assoc, read_value_written by done. cbn [mbind option_bind]. by rewrite IH.
Qed.

Lemma write_varuint_nonempty v : write_varuint v ≠ [].
Proof. unfold write_varuint. cbn [varuint_loop]. by destruct (_ =? 0). Qed.
Lemma write_row_binary_nonempty v : write_row_binary v ≠ [].
Proof.
  destruct v as [s|s|v|v|v|v|v|ns|[ns|]|m]; try done; cbn [write_row_binary]; unfold write_string;
    intros Hnil; apply app_eq_nil in Hnil as [Hnil _]; by apply write_varuint_nonempty in Hnil.
Qed.

Lemma read_rows_written tys rows fuel :
  tys ≠ [] → Forall (row_typed tys) rows →
  (length (concat (row_bytes <$> rows)) <= fuel)%nat →
  read_rows fuel tys (concat (row_bytes <$> rows)) =
    Some (view_row <$> rows).
Proof.
  intros Hne Hall. revert fuel. induction Hall as [|row rows [Hty Hok] _ IH]; intros fuel Hfuel; [by destruct fuel|].
  rewrite !fmap_cons in *. cbn [concat] in *. rewrite length_app in Hfuel.
  assert (0 < length (row_bytes row))%nat as Hpos.
  { unfold row_bytes. destruct row as [|v row]; [by subst|]. rewrite fmap_cons. cbn [concat]. rewrite length_app.
    pose proof (write_row_binary_nonempty v). destruct (write_row_binary v); [done|]. simpl. lia. }
  destruct fuel as [|fuel]; [lia|].
  destruct (row_bytes row ++ concat (row_bytes <$> rows)) as [|b l] eqn:Hcat.
  { apply app_eq_nil in Hcat as [Hnil _]. rewrite Hnil in Hpos. simpl in Hpos. lia. }
  cbn [read_rows]. rewrite <- Hcat, <- Hty, read_row_written by done. cbn [mbind option_bind].
  rewrite Hty, IH by lia. done.
Qed.

Definition column_types (columns : list string) : option (list ChType) :=
  match collect_results (clickhouse_type_for_column <$> columns) with
  | Ok types => mapM ch_type_of_name types
  | Err _ => None
  end.

Lemma serialize_reads_back chunk types tys :
  collect_results (clickhouse_type_for_column <$> columns chunk) = Ok types →
  mapM ch_type_of_name types = Some tys → columns chunk ≠ [] →
  is_u64 (N.of_nat (length (columns chunk))) → Forall string_ok (columns chunk) → Forall string_ok types →
  Forall (row_typed tys) (rows chunk) →
  ∃ body, RowBinary_serialize chunk = Ok body ∧
    read_body body = Some (columns chunk, types, view_row <$> rows chunk).
Proof.
  intros Htypes Htys Hne Hlen Hcols Hstr Hrows.
  pose proof (collect_results_length _ _ Htypes) as Hl. rewrite length_fmap in Hl.
  pose proof (length_mapM ch_type_of_name types tys Htys) as Hl2.
  unfold RowBinary_serialize, write_names. rewrite foldl_write, (write_types_ok _ types) by done.
  rewrite write_rows_ok; cycle 1.
  { eapply Forall_impl; [exact Hrows|]. intros row [Hty _]. rewrite <- Hty, length_fmap in Hl2. lia. }
  eexists. split; [reflexivity|]. unfold read_body.
  rewrite <- !app_assoc, varuint_round_trip by done. cbn [mbind option_bind]. rewrite Nat2N.id.
  rewrite read_strings_written by done. cbn [mbind option_bind].
  rewrite <- Hl, read_strings_written by done. cbn [mbind option_bind]. rewrite Htys. cbn [mbind option_bind].
  rewrite read_rows_written; [done| |done|done].
  intros ->. destruct (columns chunk); [done|]. simpl in *. lia.
Qed.

(** ** The table's declarations *)

Fixpoint blanks (s : string) : bool := match s with EmptyString => true | String c s => Ascii.eqb c " " && blanks s end.

(** A line of the DDL that declares a column of a type. *)
Definition declares (ddl name ty : string) : Prop :=
  ∃ before pad c after, ddl = before +:+ nl +:+ name +:+ " " +:+ pad +:+ ty +:+ String c after ∧
    blanks pad = true ∧ (c = "," ∨ c = " ")%char.

Fixpoint strip (p s : string) : option string :=
  match p, s with
  | EmptyString, _ => Some s
  | String a p, String b s => if Ascii.eqb a b then strip p s else None
  | String _ _, EmptyString => None
  end.
Fixpoint skip_blanks (s : string) : string :=
  match s with String c s' => if Ascii.eqb c " " then skip_blanks s' else s | EmptyString => s end.
Definition line_declares (name ty s : string) : bool :=
  match strip (nl +:+ name +:+ " ") s with
  | Some s => match strip ty (skip_blanks s) with Some (String c _) => Ascii.eqb c "," || Ascii.eqb c " " | _ => false end
  | None => false
  end.
Fixpoint text_declares (name ty s : string) : bool :=
  line_declares name ty s || match s with String _ s => text_declares name ty s | EmptyString => false end.

Lemma strip_some p s r : strip p s = Some r → s = p +:+ r.
Proof.
  revert s. induction p as [|a p IH]; intros [|b s]; simpl; try (by intros [= <-]).
  destruct (Ascii.eqb_spec a b) as [->|]; [|done]. by intros ->%IH.
Qed.
Lemma skip_blanks_some s : ∃ pad, s = pad +:+ skip_blanks s ∧ blanks pad = true.
Proof.
  induction s as [|c s (pad & Hs & Hb)]; [by exists ""|]. simpl.
  destruct (Ascii.eqb_spec c " ") as [->|]; [|by exists ""]. exists (String " " pad). split; [|done].
  exact (f_equal (String " ") Hs).
Qed.
Lemma declares_app s ddl name ty : declares ddl name ty → declares (s +:+ ddl) name ty.
Proof.
  intros (before & pad & c & after & -> & Hb & Hc). exists (s +:+ before), pad, c, after.
  by rewrite string_app_assoc.
Qed.
Lemma text_declares_sound name ty s : text_declares name ty s = true → declares s name ty.
Proof.
  induction s as [|a s IH]; cbn [text_declares]; intros [Hl|Ht]%orb_true_iff; try done.
  2: by apply (declares_app (String a "")), IH.
  unfold line_declares in Hl. destruct (strip _ _) as [s1|] eqn:H1 in Hl; [|done]. apply strip_some in H1.
  destruct (skip_blanks_some s1) as (pad & Hs1 & Hb).
  destruct (strip ty _) as [[|c after]|] eqn:H2 in Hl; try done. apply strip_some in H2.
  exists "", pad, c, after. split; [|split; [done|]].
  - by rewrite H1, Hs1, H2, !string_app_assoc.
  - apply orb_true_iff in Hl as [Hl%Ascii.eqb_eq|Hl%Ascii.eqb_eq]; auto.
Qed.

Definition COLUMN_TYPES : list string := [
  "DateTime64(9)"; "DateTime64(9)"; "LowCardinality(String)"; "UInt8"; "LowCardinality(String)"; "String";
  "Map(LowCardinality(String), String)"; "Map(LowCardinality(String), String)"; "String"; "String"; "UInt64"; "UInt32";
  "UInt32"; "LowCardinality(String)"; "String"; "Int64"; "UInt32"; "Nullable(DateTime64(9))"].
Definition COLUMN_CH_TYPES : list ChType := [
  TDateTime64; TDateTime64; TLowCardinality; TUInt8; TLowCardinality; TString; TStringMap; TStringMap; TString; TString;
  TUInt64; TUInt32; TUInt32; TLowCardinality; TString; TInt64; TUInt32; TNullableDateTime64].

Lemma column_types_known : collect_results (clickhouse_type_for_column <$> COLUMNS) = Ok COLUMN_TYPES.
Proof. reflexivity. Qed.
Lemma column_ch_types_known : mapM ch_type_of_name COLUMN_TYPES = Some COLUMN_CH_TYPES.
Proof. reflexivity. Qed.
Lemma log_row_types config r : type_of <$> log_row config r = COLUMN_CH_TYPES.
Proof. reflexivity. Qed.

Lemma ddl_declares config : Forall2 (declares (logs_table_ddl config)) COLUMNS COLUMN_TYPES.
Proof.
  unfold logs_table_ddl, COLUMNS, COLUMN_TYPES.
  repeat (apply Forall2_cons; split; [do 5 apply declares_app; apply text_declares_sound; vm_compute; reflexivity|]).
  constructor.
Qed.

(** C40: the four places that spell out the table's schema agree.  Every column
    the adapter lists, without repetition, has an entry in the RowBinary type
    table; that type is the one the DDL declares for the column; and the row of
    any record holds, in order, a value of each column's type. *)
Theorem schema_agreement (config : LogsAdapterConfig) (record : DecodedLogRecord) :
  ∃ types tys,
    collect_results (clickhouse_type_for_column <$> COLUMNS) = Ok types ∧ NoDup COLUMNS ∧
    Forall2 (declares (logs_table_ddl config)) COLUMNS types ∧
    mapM ch_type_of_name types = Some tys ∧ type_of <$> log_row config record = tys.
Proof.
  exists COLUMN_TYPES, COLUMN_CH_TYPES. split_and!; [done| |apply ddl_declares|done|apply log_row_types].
  by apply (bool_decide_unpack _).
Qed.

(** ** The rows of a record *)

Definition map_ok (m : btree string string) : Prop :=
  is_u64 (N.of_nat (length m)) ∧ Forall (λ kv, string_ok kv.1 ∧ string_ok kv.2) m.

(** The ranges of the fields' Rust types. *)
Definition record_ok (r : DecodedLogRecord) : Prop :=
  is_u64 (timestamp_unix_nano r) ∧ is_u64 (observed_timestamp_unix_nano r) ∧
  Forall string_ok [severity_text r; default "" (service_name r); body r; trace_id_hex r; span_id_hex r;
                    manifest_path (source r); data_path (source r)] ∧
  map_ok (resource_attributes r) ∧ map_ok (log_attributes r) ∧
  is_u64 (buffer_sequence (source r)) ∧ is_u32 (row_entry_index (source r)) ∧ is_u32 (record_index (source r)) ∧
  i64_ok (row_ingestion_time_ms (source r)).

Lemma map_ok_remove k m : map_ok m → map_ok (bt_remove k m).
Proof.
  intros [Hl Hall].
  assert (length (bt_remove k m) <= length m ∧ Forall (λ kv, string_ok kv.1 ∧ string_ok kv.2) (bt_remove k m))%nat as [H1 H2].
  { clear Hl. induction Hall as [|[k' v'] m Hkv Hall IH]; [done|]. simpl. destruct (ocompare k k'); simpl.
    - split; [lia|done].
    - destruct IH. split; [lia|by constructor].
    - destruct IH. split; [lia|by constructor]. }
  split; [|done]. unfold is_u64 in *. lia.
Qed.

Lemma parse_u64_ok s v : parse_u64 s = Some v → is_u64 v.
Proof.
  unfold parse_u64. destruct (match s with String "+" s' => s' | _ => s end) as [|c s']; [done|].
  destruct (parse_digits _ 0) as [v'|]; [|done]. cbn [mbind option_bind].
  destruct (N.leb_spec v' u64_max); [|done]. by intros [= <-].
Qed.

Lemma log_row_ok config r : is_u32 (adapter_version config) → record_ok r → Forall value_ok (log_row config r).
Proof.
  intros Hv (Ht & Ho & Hs & Hra & Hla & Hseq & He & Hri & Hms).
  repeat (apply Forall_cons in Hs as [? Hs]). unfold log_row.
  repeat (apply Forall_cons; split; [try done|]); [| | |constructor].
  - cbn [value_ok]. unfold severity_to_u8. lia.
  - by apply (map_ok_remove GATEWAY_KEY).
  - cbn [value_ok]. destruct (bt_get GATEWAY_KEY _) as [s|]; [|done]. cbn [mbind option_bind].
    destruct (parse_u64 s) as [v|] eqn:Hp; [|done]. by apply parse_u64_ok in Hp.
Qed.

Section bodies.
Context `{P : OtlpProto} `{Sha256}.

Definition slice_view (config : LogsAdapterConfig) (s : list DecodedLogRecord) : list (list ServerValue) :=
  (λ r, view_row (log_row config r)) <$> s.

Lemma chunk_body config s c :
  is_u32 (adapter_version config) → Forall record_ok s → columns c = COLUMNS → rows c = log_row config <$> s →
  ∃ body, serialize mkRowBinarySerializer c = Ok body ∧
    read_body body = Some (COLUMNS, COLUMN_TYPES, slice_view config s).
Proof.
  intros Hv Hs Hc Hr. assert (slice_view config s = view_row <$> rows c) as -> by (rewrite Hr; by rewrite <- list_fmap_compose).
  rewrite <- Hc. apply serialize_reads_back with (tys := COLUMN_CH_TYPES);
    rewrite ?Hc; try done.
  - repeat (apply Forall_cons; split; [by vm_compute|]). constructor.
  - repeat (apply Forall_cons; split; [by vm_compute|]). constructor.
  - rewrite Hr. apply Forall_fmap. eapply Forall_impl; [exact Hs|]. intros r Hrok. split; [done|].
    by apply log_row_ok.
Qed.

Lemma planned_bodies_spec (self : OtlpLogsClickHouseAdapter)
    (batch : ClickHouseAdapterBatch DecodedLogRecord) (chunks : list InsertChunk)
    (Hversion : is_u32 (adapter_version (oca_config self))) (Hrecords : Forall record_ok (cab_records batch))
    (Hplan : plan self batch = Ok chunks) :
  ∃ bodies served sorted,
    Forall2 (λ c body, serialize mkRowBinarySerializer c = Ok body) chunks bodies ∧
    Forall2 (λ body t, read_body body = Some (COLUMNS, COLUMN_TYPES, t)) bodies served ∧
    sorted ≡ₚ cab_records batch ∧ StronglySorted key_le sorted ∧
    concat served = (λ r, view_row (log_row (oca_config self) r)) <$> sorted.
Proof.
  pose proof (plan_logs_spec self batch) as Hspec. unfold plan in Hplan. simpl in Hplan. rewrite Hplan in Hspec.
  destruct Hspec as (path & slices & -> & Hcat & _).
  assert (Forall (Forall record_ok) slices) as Hok.
  { apply Forall_concat. rewrite Hcat, sort_by_key_perm. exact Hrecords. }
  assert (∀ f : nat → N, ∃ bodies, Forall2 (λ c body, serialize mkRowBinarySerializer c = Ok body)
      (imap (λ i s, emit_for self path (ci_range (cab_identity batch)) s (f i)) slices) bodies ∧
    Forall2 (λ body t, read_body body = Some (COLUMNS, COLUMN_TYPES, t)) bodies
      (slice_view (oca_config self) <$> slices)) as Hbodies.
  { clear Hplan Hcat. induction Hok as [|s slices Hs _ IH]; intros f; [exists []; by split|].
    destruct (IH (f ∘ S)) as (bodies & H1 & H2).
    destruct (chunk_body (oca_config self) s (emit_for self path (ci_range (cab_identity batch)) s (f 0%nat)))
      as (body & Hb1 & Hb2); [done..|].
    exists (body :: bodies). rewrite imap_cons, fmap_cons. split; by constructor. }
  destruct (Hbodies (λ i, wrap32 (N.of_nat i))) as (bodies & H1 & H2).
  exists bodies, (slice_view (oca_config self) <$> slices), (sort_by_key (cab_records batch)).
  split_and!; [done|done|apply sort_by_key_perm|apply sort_by_key_sorted|].
  rewrite <- Hcat. clear. induction slices as [|s slices IH]; [done|]. rewrite fmap_cons. cbn [concat].
  by rewrite IH, fmap_app.
Qed.
(** C17: what reaches the server is the commit.  Every chunk of a plan
    serializes; a server that reads the RowBinary bodies gets the adapter's
    columns with the table's types and, over all chunks, exactly one row per
    record of the commit, holding that record's values, in sorted order. *)
Theorem planned_bodies_read_back (self : OtlpLogsClickHouseAdapter)
    (batch : ClickHouseAdapterBatch DecodedLogRecord) (chunks : list InsertChunk)
    (Hversion : is_u32 (adapter_version (oca_config self))) (Hrecords : Forall record_ok (cab_records batch))
    (Hplan : plan self batch = Ok chunks) :
  ∃ bodies served sorted,
    Forall2 (λ c body, serialize mkRowBinarySerializer c = Ok body) chunks bodies ∧
    Forall2 (λ body t, read_body body = Some (COLUMNS, COLUMN_TYPES, t)) bodies served ∧
    sorted ≡ₚ cab_records batch ∧ StronglySorted key_le sorted ∧
    concat served = (λ r, view_row (log_row (oca_config self) r)) <$> sorted.
Proof. by apply planned_bodies_spec. Qed.
End bodies.

Lemma planned_bodies_read_back_witness :
  ∃ chunks bodies served, plan demo_adapter (demo_batch demo_shuffled) = Ok chunks ∧
    Forall2 (λ c body, serialize mkRowBinarySerializer c = Ok body) chunks bodies ∧
    Forall2 (λ body t, read_body body = Some (COLUMNS, COLUMN_TYPES, t)) bodies served ∧
    length <$> served = [2; 1]%nat.
Proof.
  destruct (plan demo_adapter (demo_batch demo_shuffled)) as [chunks|e] eqn:Hp; [|by vm_compute in Hp].
  destruct (planned_bodies_read_back demo_adapter (demo_batch demo_shuffled) chunks) as (bodies & served & sorted & H1 & H2 & _).
  - done.
  - by apply (bool_decide_unpack _).
  - done.
  - exists chunks, bodies, served. split_and!; try done.
    vm_compute in Hp. injection Hp as <-.
    apply Forall2_cons_inv_l in H1 as (b1 & bs & Hb1 & H1 & ->). apply Forall2_cons_inv_l in H1 as (b2 & bs' & Hb2 & H1 & ->).
    apply Forall2_nil_inv_l in H1 as ->.
    apply Forall2_cons_inv_l in H2 as (t1 & ts & Ht1 & H2 & ->). apply Forall2_cons_inv_l in H2 as (t2 & ts' & Ht2 & H2 & ->).
    apply Forall2_nil_inv_l in H2 as ->.
    vm_compute in Hb1. injection Hb1 as <-. vm_compute in Hb2. injection Hb2 as <-.
    vm_compute in Ht1. injection Ht1 as <-. vm_compute in Ht2. injection Ht2 as <-. reflexivity.
Defined.
