(* ===== verification/Writer.v ===== *)
(** * The ClickHouse writer
    (plugins/opendata-ingest-clickhouse/src/writer.rs)

    One HTTP insert per chunk, its classified retry loop and the metrics it
    emits, as futures over the calls of [HttpCall].  The HTTP client
    ([reqwest]), the URL encoding and the clock are parameters; the state keeps
    the log of the requests sent, with their answers, and of the sleeps. *)

From Stdlib Require Import ZArith NArith Lia.
From S2P Require Import Prelude.
From S2P Require Import BTree.
From S2P Require Import Types.
From S2P Require Import Options.
From S2P Require Import Metrics.
From S2P Require Import Async.
From S2P Require Import ClickHouseMetrics.
From S2P Require Import OtlpLogs.
From S2P Require Import RowValue.
From S2P Require Import LogsAdapter.
From S2P Require Import Serializer.
Local Open Scope N_scope.

(** ** Configuration *)

Inductive HttpClientMode :=
| PerCall
| Pooled (pool_max_idle_per_host : N) (pool_idle_timeout_ms : N).
Definition HttpClientMode_default : HttpClientMode := PerCall.
Definition HttpClientMode_as_label (m : HttpClientMode) : string :=
  match m with PerCall => "per_call" | Pooled _ _ => "pooled" end.

Record WriterConfig := {
  endpoint : string;
  user : string;
  password : string;
  request_timeout : Duration;
  max_attempts : N;
  initial_backoff : Duration;
  serialization_format : SerializationFormat;
  http_client_mode : HttpClientMode;
}.
Definition WriterConfig_default : WriterConfig := {|
  endpoint := "http://localhost:8123"; user := "default"; password := "";
  request_timeout := mkDuration (30 * 1000000000); max_attempts := 6; initial_backoff := from_millis 100;
  serialization_format := SerializationFormat_default; http_client_mode := HttpClientMode_default |}.

(** [Duration::MAX], [saturating_mul], [as_secs]. *)
Definition duration_max : N := u64_max * 1000000000 + 999999999.
Definition duration_mul (d : Duration) (k : N) : Duration := mkDuration (N.min (nanos d * k) duration_max).
Definition as_secs (d : Duration) : N := nanos d / 1000000000.

(** ** The HTTP client *)

Record ClientOptions := {
  co_timeout : Duration;
  co_pool_max_idle_per_host : N;
  co_pool_idle_timeout : option Duration;
}.

Record Request := {
  req_url : string;
  req_headers : list (string * string);
  req_body : Bytes;
}.

(** [resp_text]: [None] when reading the body fails. *)
Record Response := { status : N; resp_text : option string }.
Definition is_success (r : Response) : bool := (200 <=? status r) && (status r <? 300).

(** [send_dropped]: what the world still makes of a request whose future is
    dropped before the answer.  [dump_insert_body] is the debugging aid behind
    the environment variable [INGESTOR_DUMP_INSERT_BODY]. *)
Class Reqwest (W : Type) := {
  Client : Type;
  ReqError : Type;
  build_client : ClientOptions → W → W * result Client ReqError;
  send : Client → Request → W → W * result Response ReqError;
  send_dropped : Client → Request → W → W;
  is_timeout : ReqError → bool;
  is_connect : ReqError → bool;
  is_status : ReqError → bool;
  ReqError_display : ReqError → string;
  sleep : Duration → W → W;
  dump_insert_body : Bytes → W → W;
  urlencode : string → string;
}.

(** [trim_end_matches('/')]. *)
Fixpoint trim_end_slashes (s : string) : string :=
  match s with
  | EmptyString => ""
  | String c s =>
      match trim_end_slashes s with
      | EmptyString => if Ascii.eqb c "/" then "" else String c ""
      | t => String c t
      end
  end.

Definition render_insert_sql_clean (chunk : InsertChunk) (f : SerializationFormat) : string :=
  "INSERT INTO " +:+ ic_database chunk +:+ "." +:+ ic_table chunk +:+ " FORMAT " +:+ format_keyword f.

Section writer.
Context {W : Type} `{Reqwest W} `{SerdeJson}.

Definition build_insert_url (endpoint : string) (chunk : InsertChunk) (timeout : Duration) : string :=
  let url := trim_end_slashes endpoint in
  let url := url +:+ "/?async_insert=0" in
  let url := url +:+ "&date_time_input_format=best_effort" in
  let url := if chs_apply_deduplication_token (settings chunk)
             then url +:+ "&insert_deduplication_token=" +:+ urlencode (insert_deduplication_token (settings chunk))
             else url in
  let url := match chs_insert_quorum (settings chunk) with
             | Some quorum => url +:+ "&insert_quorum=" +:+ urlencode quorum
             | None => url
             end in
  if 0 <? nanos timeout then url +:+ "&max_execution_time=" +:+ show (as_secs timeout) else url.

(** ** Calls

    What the writer asks of the outside, one step each.  [CSend], [CText] and
    [CSleep] are its awaits, where the future can be dropped; the text of a
    body comes with the response, [CText] is the wait for it. *)

Inductive HttpCall :=
| CDump (body : Bytes)
| CBuildClient (options : ClientOptions)
| CSend (client : Client) (req : Request)
| CText (resp : Response)
| CSleep (d : Duration)
| CEmit (op : MetricOp).

Definition answer (c : HttpCall) : Type :=
  match c with
  | CBuildClient _ => result Client ReqError
  | CSend _ _ => result Response ReqError
  | _ => unit
  end.

Abbreviation Wr A := (Async answer WriterError A).

Inductive HttpEvent :=
| Sent (req : Request) (answer : result Response ReqError)
| Slept (d : Duration)
| Abandoned (req : Request).

Inductive WriterEvent :=
| Http (ev : HttpEvent)
| Emitted (op : MetricOp).

Definition observe_call (c : HttpCall) : answer c → list WriterEvent :=
  match c with
  | CSend _ req => λ a, [Http (Sent req a)]
  | CSleep d => λ _, [Http (Slept d)]
  | CEmit op => λ _, [Emitted op]
  | _ => λ _, []
  end.

(** The world, the shared metrics, and the log of the requests and sleeps. *)
Record WriterState := {
  ws_world : W;
  ws_metrics : ClickHouseMetrics;
  ws_log : list HttpEvent;
}.

Definition on_world (f : W → W) (events : list HttpEvent) (s : WriterState) : WriterState :=
  {| ws_world := f (ws_world s); ws_metrics := ws_metrics s; ws_log := ws_log s ++ events |}.

Definition handle (c : HttpCall) (s : WriterState) : WriterState * answer c :=
  match c with
  | CDump body => (on_world (dump_insert_body body) [] s, tt)
  | CBuildClient options =>
      let '(w, built) := build_client options (ws_world s) in (on_world (λ _, w) [] s, built)
  | CSend client req =>
      let '(w, a) := send client req (ws_world s) in (on_world (λ _, w) [Sent req a] s, a)
  | CText _ => (s, tt)
  | CSleep d => (on_world (sleep d) [Slept d] s, tt)
  | CEmit op =>
      ({| ws_world := ws_world s; ws_metrics := apply_metric op (ws_metrics s); ws_log := ws_log s |}, tt)
  end.

(** A dropped future: where, and what its last call leaves behind. *)
Definition suspends (c : HttpCall) : bool :=
  match c with CSend _ _ | CText _ | CSleep _ => true | _ => false end.
Definition abandon (c : HttpCall) (s : WriterState) : WriterState :=
  match c with CSend client req => on_world (send_dropped client req) [Abandoned req] s | _ => s end.
Definition abandoned (c : HttpCall) : list WriterEvent :=
  match c with CSend _ req => [Http (Abandoned req)] | _ => [] end.

(** Run a future to its end, alone. *)
Definition run {A} (p : Fut answer A) : WriterState → WriterState * A := block_on handle p.

(** The state left by a future that is dropped at its [n]-th call. *)
Definition cancel {A} (n : nat) (p : Fut answer A) : WriterState → option WriterState :=
  dropped_at handle suspends abandon n p.

Definition emit {E} (op : MetricOp) : Async answer E unit := call (CEmit op : HttpCall).

(** The parts of [pooled_client] and [serializer] chosen at construction. *)
Record ClickHouseWriter := {
  cw_config : WriterConfig;
  cw_serializer : DynSerializer;
  cw_pooled_client : option Client;
}.

Definition new_with_metrics (config : WriterConfig) (w : W) : W * ClickHouseWriter :=
  let serializer := build_serializer (serialization_format config) in
  let '(w, pooled_client) :=
    match http_client_mode config with
    | PerCall => (w, None)
    | Pooled max_idle idle_timeout_ms =>
        let '(w, built) := build_client {| co_timeout := request_timeout config; co_pool_max_idle_per_host := max_idle;
                                           co_pool_idle_timeout := Some (from_millis idle_timeout_ms) |} w in
        (w, match built with Ok c => Some c | Err _ => None end)
    end in
  (w, {| cw_config := config; cw_serializer := serializer; cw_pooled_client := pooled_client |}).

Definition http_mode_label (self : ClickHouseWriter) : string :=
  HttpClientMode_as_label (http_client_mode (cw_config self)).

Definition http_client (self : ClickHouseWriter) : Wr Client :=
  match cw_pooled_client self with
  | Some c => mret c
  | None =>
      built ← call (CBuildClient {| co_timeout := request_timeout (cw_config self); co_pool_max_idle_per_host := 0;
                                    co_pool_idle_timeout := None |});
      match built with
      | Ok c => mret c
      | Err e => fails (WNonRetryable ("reqwest client: " +:+ ReqError_display e))
      end
  end.

(** ** Classification *)

(** The label of [insert_errors] and the error. *)
Definition classify_reqwest (err : ReqError) : string * WriterError :=
  let label := if is_timeout err then "timeout" else if is_connect err then "connect"
               else if is_status err then "http" else "network" in
  (label,
   if is_timeout err || is_connect err then WRetryable ("network/timeout: " +:+ ReqError_display err)
   else if is_status err then WRetryable ("http status: " +:+ ReqError_display err)
   else WRetryable ("request error: " +:+ ReqError_display err)).

Definition classify_status (status : N) (body : string) : string * WriterError :=
  (show status,
   if (status =? 429) || ((500 <=? status) && (status <? 600))
   then WRetryable ("status " +:+ show status +:+ ": " +:+ body)
   else WNonRetryable ("status " +:+ show status +:+ ": " +:+ body)).

(** Count the error, then return it. *)
Definition classified {A} (c : string * WriterError) : Wr A := emit (ErrorCounted c.1) ;; fails c.2.

(** ** Inserts *)

Definition auth_headers (config : WriterConfig) : list (string * string) :=
  (if String.eqb (user config) "" then [] else [("X-ClickHouse-User", user config)]) ++
  (if String.eqb (password config) "" then [] else [("X-ClickHouse-Key", password config)]).

Definition insert_request (config : WriterConfig) (sql_clean : string) (body : Bytes) (chunk : InsertChunk) : Request :=
  let combined := as_bytes sql_clean ++ [u8_of_N 10] ++ body in
  {| req_url := build_insert_url (endpoint config) chunk (request_timeout config);
     req_headers := ("content-length", show_nat (length combined)) :: auth_headers config;
     req_body := combined |}.

Definition execute_once (self : ClickHouseWriter) (sql_clean : string) (body : Bytes) (chunk : InsertChunk) : Wr unit :=
  let req := insert_request (cw_config self) sql_clean body chunk in
  call (CDump (req_body req)) ;;
  http ← http_client self;
  emit (InflightInc (http_mode_label self)) ;;
  send_result ← call (CSend http req);
  emit (InflightDec (http_mode_label self)) ;;
  match send_result with
  | Err e => classified (classify_reqwest e)
  | Ok resp =>
      call (CText resp) ;;
      if is_success resp then mret tt
      else classified (classify_status (status resp) (default "" (resp_text resp)))
  end.

Definition attempt_label (r : result unit WriterError) : InsertResult :=
  match r with
  | Ok _ => ResultOk
  | Err e =>
      match class e with
      | ClassRetryable => ResultRetryable
      | ClassNonRetryable => ResultNonRetryable
      | ClassRetryBudgetExhausted => ResultRetryBudgetExhausted
      end
  end.

(** The loop of [execute_chunk]; [None] is out of fuel, and [max_attempts + 1]
    turns are enough ([attempt_loop_spec]). *)
Fixpoint attempt_loop (fuel : nat) (self : ClickHouseWriter) (sql : string) (body : Bytes) (chunk : InsertChunk)
    (attempt : N) (backoff : Duration) : Fut answer (option (result unit WriterError)) :=
  match fuel with
  | O => Ready None
  | S fuel =>
      let attempt := attempt + 1 in
      and_then (execute_once self sql body chunk) (λ r,
      let label := (SerializationFormat_as_label (format (cw_serializer self)), http_mode_label self,
                    InsertResult_as_label (attempt_label r)) in
      Call (CEmit (InsertObserved label)) (λ _,
      match r with
      | Ok _ => Ready (Some (Ok tt))
      | Err err =>
          match class err with
          | ClassRetryable =>
              if attempt <? max_attempts (cw_config self)
              then
                Call (CEmit (RetryCounted "retryable")) (λ _,
                Call (CSleep backoff) (λ _,
                attempt_loop fuel self sql body chunk attempt (duration_mul backoff 2)))
              else
                Ready (Some (Err (WRetryBudgetExhausted
                  ("retry budget (" +:+ show (max_attempts (cw_config self)) +:+ ") exhausted: " +:+ WriterError_display err))))
          | ClassRetryBudgetExhausted | ClassNonRetryable => Ready (Some (Err err))
          end
      end))
  end.

Definition run_attempts (self : ClickHouseWriter) (sql : string) (body : Bytes) (chunk : InsertChunk) : Wr unit :=
  and_then (attempt_loop (S (N.to_nat (max_attempts (cw_config self)))) self sql body chunk 0
              (initial_backoff (cw_config self)))
    (λ r, Ready (default (Err (WNonRetryable "out of fuel")) r)).

Definition execute_chunk (self : ClickHouseWriter) (chunk : InsertChunk) : Wr unit :=
  let f := format (cw_serializer self) in
  body ← pure (serialize (cw_serializer self) chunk);
  emit (SerializationObserved (SerializationFormat_as_label f)) ;;
  emit (SerializedBytes (SerializationFormat_as_label f) (N.of_nat (length body))) ;;
  emit (ChunkRows (SerializationFormat_as_label f) (rows_count chunk)) ;;
  let sql := render_insert_sql_clean chunk f in
  run_attempts self sql body chunk.

Definition execute_all (self : ClickHouseWriter) (chunks : list InsertChunk) : Wr unit :=
  each chunks (execute_chunk self).

Definition execute_statement (self : ClickHouseWriter) (sql : string) : Wr string :=
  let url := trim_end_slashes (endpoint (cw_config self)) in
  let body_bytes := as_bytes sql in
  let req := {| req_url := url;
                req_headers := ("content-length", show_nat (length body_bytes)) :: auth_headers (cw_config self);
                req_body := body_bytes |} in
  http ← http_client self;
  send_result ← call (CSend http req);
  match send_result with
  | Err e => classified (classify_reqwest e)
  | Ok resp =>
      call (CText resp) ;;
      let body := default "" (resp_text resp) in
      if is_success resp then mret body else classified (classify_status (status resp) body)
  end.

(** ** What the events say *)

Definition http_events (evs : list WriterEvent) : list HttpEvent :=
  omap (λ ev, match ev with Http ev => Some ev | Emitted _ => None end) evs.
Definition ops (evs : list WriterEvent) : list MetricOp :=
  omap (λ ev, match ev with Emitted op => Some op | Http _ => None end) evs.

Lemma http_events_app l1 l2 : http_events (l1 ++ l2) = http_events l1 ++ http_events l2.
Proof. apply omap_app. Qed.
Lemma ops_app l1 l2 : ops (l1 ++ l2) = ops l1 ++ ops l2.
Proof. apply omap_app. Qed.

Definition tracks (s : WriterState) (evs : list WriterEvent) (s' : WriterState) : Prop :=
  ws_log s' = ws_log s ++ http_events evs ∧ ws_metrics s' = apply_metrics (ops evs) (ws_metrics s).

Lemma tracks_nil s : tracks s [] s.
Proof. split; [by rewrite app_nil_r|done]. Qed.
Lemma tracks_app s1 s2 s3 l1 l2 : tracks s1 l1 s2 → tracks s2 l2 s3 → tracks s1 (l1 ++ l2) s3.
Proof.
  intros [Hl1 Hm1] [Hl2 Hm2]. split; [by rewrite Hl2, Hl1, http_events_app, app_assoc|].
  by rewrite Hm2, Hm1, ops_app, apply_metrics_app.
Qed.
Lemma tracks_call c s : let '(s', r) := handle c s in tracks s (observe_call c r) s'.
Proof.
  destruct c as [b|o|cl req|resp|d|op]; cbn [handle].
  - by split.
  - destruct (build_client o (ws_world s)) as [w built]. by split.
  - destruct (send cl req (ws_world s)) as [w a]. by split.
  - apply tracks_nil.
  - by split.
  - split; [by rewrite app_nil_r|done].
Qed.
Lemma tracks_abandon c s : suspends c = true → tracks s (abandoned c) (abandon c s).
Proof. destruct c; try done; intros _; apply tracks_nil. Qed.

(** A run alone ends as the future does, with a log and metrics that its events
    account for. *)
Lemma run_holds {A} (p : Fut answer A) (I : list WriterEvent → point (C := HttpCall) A → Prop) s :
  holds observe_call p [] I → let '(s', a) := run p s in ∃ evs, I evs (Returned a) ∧ tracks s evs s'.
Proof. apply block_on_holds; [apply tracks_nil|apply tracks_app|apply tracks_call]. Qed.

Lemma cancel_holds {A} n (p : Fut answer A) (I : list WriterEvent → point (C := HttpCall) A → Prop) s s' :
  holds observe_call p [] I → cancel n p s = Some s' →
  ∃ before c, I before (Waiting c) ∧ suspends c = true ∧ tracks s (before ++ abandoned c) s'.
Proof.
  apply dropped_at_holds; [apply tracks_nil|apply tracks_app|apply tracks_call|apply tracks_abandon].
Qed.

(** *** Requests and gauges at every point of a future

    [reqs] are the requests it may send; [mode] is the label of its gauge. *)

Definition within (reqs : Request → Prop) (ev : WriterEvent) : Prop :=
  match ev with
  | Http (Sent req _) | Http (Abandoned req) => reqs req
  | Http (Slept _) => True
  | Emitted op => uncommitted op = true
  end.
Definition call_within (reqs : Request → Prop) (c : HttpCall) : Prop :=
  match c with CSend _ req => reqs req | CEmit op => uncommitted op = true | _ => True end.

(** The request of this future that is in flight. *)
Definition busy (mode l : string) (c : HttpCall) : Z :=
  match c with
  | CSend _ _ | CEmit (InflightDec _) => if decide (mode = l) then 1 else 0
  | _ => 0
  end.

Definition settled (reqs : Request → Prop) (evs : list WriterEvent) : Prop :=
  Forall (within reqs) evs ∧ ∀ l, inflight l (ops evs) = 0%Z.
Definition waits (reqs : Request → Prop) (mode : string) (evs : list WriterEvent) (c : HttpCall) : Prop :=
  Forall (within reqs) evs ∧ call_within reqs c ∧ ∀ l, inflight l (ops evs) = busy mode l c.

Lemma within_mono (reqs reqs' : Request → Prop) ev : (∀ r, reqs r → reqs' r) → within reqs ev → within reqs' ev.
Proof. intros Hsub. destruct ev as [[]|]; simpl; auto. Qed.
Lemma settled_mono (reqs reqs' : Request → Prop) evs : (∀ r, reqs r → reqs' r) → settled reqs evs → settled reqs' evs.
Proof. intros Hsub [Hall Hg]. split; [|done]. eapply Forall_impl; [exact Hall|]. intros ev. by apply within_mono. Qed.
Lemma waits_mono (reqs reqs' : Request → Prop) mode evs c :
  (∀ r, reqs r → reqs' r) → waits reqs mode evs c → waits reqs' mode evs c.
Proof.
  intros Hsub (Hall & Hc & Hg). split_and!; [|destruct c; simpl in *; auto|done].
  eapply Forall_impl; [exact Hall|]. intros ev. by apply within_mono.
Qed.
Lemma settled_nil reqs : settled reqs [].
Proof. by split. Qed.
Lemma settled_app reqs l1 l2 : settled reqs l1 → settled reqs l2 → settled reqs (l1 ++ l2).
Proof.
  intros [H1 G1] [H2 G2]. split; [by apply Forall_app|]. intros l. by rewrite ops_app, inflight_app, G1, G2.
Qed.
Lemma waits_app reqs mode l1 l2 c : settled reqs l1 → waits reqs mode l2 c → waits reqs mode (l1 ++ l2) c.
Proof.
  intros [H1 G1] (H2 & Hc & G2). split_and!; [by apply Forall_app|done|]. intros l.
  by rewrite ops_app, inflight_app, G1, G2.
Qed.

(** Updates that concern neither the gauge nor the commits. *)
Definition plain (op : MetricOp) : bool :=
  uncommitted op && match op with InflightInc _ | InflightDec _ | RetryCounted _ => false | _ => true end.
Lemma plain_settled reqs op : plain op = true → settled reqs [Emitted op].
Proof. intros [Hu Hp]%andb_true_iff. split; [by repeat constructor|]. intros l. by destruct op. Qed.
Lemma plain_waits reqs mode op : plain op = true → waits reqs mode [] (CEmit op).
Proof. intros [Hu Hp]%andb_true_iff. split_and!; [constructor|done|]. intros l. by destruct op. Qed.

(** ** The protocol of a chunk *)

(** What an answer says: the server acknowledged the insert, its outcome is
    unknown (no answer, throttled, or a server-side failure), or it refused
    it. *)
Definition acked (a : result Response ReqError) : bool := match a with Ok resp => is_success resp | Err _ => false end.
Definition ambiguous (a : result Response ReqError) : bool :=
  match a with
  | Ok resp => (status resp =? 429) || ((500 <=? status resp) && (status resp <? 600))
  | Err _ => true
  end.
(** The error an unsuccessful answer is reported as. *)
Definition verdict (a : result Response ReqError) : WriterError :=
  match a with
  | Ok resp => (classify_status (status resp) (default "" (resp_text resp))).2
  | Err e => (classify_reqwest e).2
  end.

Lemma verdict_class a : class (verdict a) = if ambiguous a then ClassRetryable else ClassNonRetryable.
Proof.
  destruct a as [resp|e]; simpl; [by destruct (_ || _)|].
  destruct (is_timeout e), (is_connect e), (is_status e); reflexivity.
Qed.
Lemma acked_not_ambiguous a : acked a = true → ambiguous a = false.
Proof.
  destruct a as [resp|e]; [|done]. simpl. unfold is_success. intros [H1%N.leb_le H2%N.ltb_lt]%andb_true_iff.
  apply orb_false_iff. split; [apply N.eqb_neq; lia|]. apply andb_false_iff. left. apply N.leb_gt. lia.
Qed.

(** One attempt: the request was not sent because no client could be built, or
    it was sent once and answered. *)
Inductive attempt_outcome (req : Request) : list HttpEvent → result unit WriterError → Prop :=
| attempt_unsent m : attempt_outcome req [] (Err (WNonRetryable m))
| attempt_acked a : acked a = true → attempt_outcome req [Sent req a] (Ok tt)
| attempt_failed a : acked a = false → attempt_outcome req [Sent req a] (Err (verdict a)).

Definition attempt_point (req : Request) (mode : string) (tr : list WriterEvent)
    (x : point (C := HttpCall) (result unit WriterError)) : Prop :=
  match x with
  | Waiting c => waits (eq req) mode tr c
  | Returned r => settled (eq req) tr ∧ attempt_outcome req (http_events tr) r ∧ retries (ops tr) = []
  end.

Ltac solve_waits := split_and!; [repeat constructor|done|intros l; simpl; repeat case_decide; congruence || lia].

Lemma sent_settled mode req a rest :
  Forall (λ ev, match ev with Emitted op => plain op = true | Http _ => False end) rest →
  settled (eq req) (Emitted (InflightInc mode) :: Http (Sent req a) :: Emitted (InflightDec mode) :: rest) ∧
  http_events (Emitted (InflightInc mode) :: Http (Sent req a) :: Emitted (InflightDec mode) :: rest) = [Sent req a] ∧
  retries (ops (Emitted (InflightInc mode) :: Http (Sent req a) :: Emitted (InflightDec mode) :: rest)) = [].
Proof.
  intros Hrest.
  assert (settled (eq req) rest ∧ http_events rest = [] ∧ retries (ops rest) = []) as ([H1 G1] & H2 & H3).
  { induction Hrest as [|[|op] rest Hop _ (IH1 & IH2 & IH3)]; [split; [apply settled_nil|done]|done|].
    split; [by apply (settled_app _ [Emitted op]); [apply plain_settled|]|]. split; [done|].
    apply andb_true_iff in Hop as [_ Hop]. by destruct op. }
  split_and!.
  - split; [by repeat constructor|]. intros l. simpl. rewrite G1. case_decide; lia.
  - simpl. by rewrite H2.
  - done.
Qed.

Lemma execute_once_spec self sql body chunk :
  holds observe_call (execute_once self sql body chunk) []
    (attempt_point (insert_request (cw_config self) sql body chunk) (http_mode_label self)).
Proof.
  unfold execute_once, http_client. set (req := insert_request _ _ _ _). set (mode := http_mode_label self).
  assert (∀ http, holds observe_call (emit (InflightInc mode) ;;
      send_result ← call (CSend http req);
      emit (InflightDec mode) ;;
      match send_result with
      | Err e => classified (classify_reqwest e)
      | Ok resp => call (CText resp) ;;
          if is_success resp then mret tt
          else classified (classify_status (status resp) (default "" (resp_text resp)))
      end) [] (attempt_point req mode)) as Hsend.
  { intros http. apply holds_call; [solve_waits|]. intros []. apply holds_call; [solve_waits|]. intros a.
    apply holds_call; [solve_waits|]. intros []. destruct a as [resp|e].
    - apply holds_call; [solve_waits|]. intros []. simpl.
      destruct (is_success resp) eqn:Hs; [apply holds_ready|apply holds_call; [solve_waits|intros []; apply holds_ready]];
        simpl; (edestruct (sent_settled mode req) as (H1 & H2 & H3); [|split_and!; [exact H1| |exact H3]]).
      + constructor.
      + by constructor.
      + by repeat constructor.
      + by apply (attempt_failed req (Ok resp)).
    - apply holds_call; [solve_waits|]. intros []. apply holds_ready. simpl.
      edestruct (sent_settled mode req) as (H1 & H2 & H3); [|split_and!; [exact H1| |exact H3]].
      + by repeat constructor.
      + by apply (attempt_failed req (Err e)). }
  apply holds_call; [solve_waits|]. intros []. destruct (cw_pooled_client self) as [http|]; [exact (Hsend http)|].
  apply (holds_call _ (CBuildClient _)); [solve_waits|]. intros [http|e]; [exact (Hsend http)|].
  apply holds_ready. split_and!; [apply settled_nil|constructor|done].
Qed.

(** The [i]-th backoff in closed form. *)
Definition backoff_at (initial : Duration) (i : nat) : Duration :=
  mkDuration (N.min (nanos initial * 2 ^ N.of_nat i) duration_max).

Lemma backoff_at_succ initial i : duration_mul (backoff_at initial i) 2 = backoff_at initial (S i).
Proof.
  unfold duration_mul, backoff_at. simpl. f_equal. rewrite Nat2N.inj_succ, N.pow_succ_r'. unfold duration_max, u64_max. lia.
Qed.

(** The end of a chunk's attempts: the client could not be built, or the last
    answer decides. *)
Definition final_outcome (limit : N) (req : Request) (before : N) (tr : list HttpEvent) (r : result unit WriterError) : Prop :=
  (tr = [] ∧ ∃ m, r = Err (WNonRetryable m)) ∨
  ∃ a, tr = [Sent req a] ∧
    ((acked a = true ∧ r = Ok tt) ∨
     (acked a = false ∧ ambiguous a = false ∧ r = Err (verdict a)) ∨
     (ambiguous a = true ∧ limit ≤ before + 1 ∧
      r = Err (WRetryBudgetExhausted ("retry budget (" +:+ show limit +:+ ") exhausted: " +:+ WriterError_display (verdict a))))).

(** Failed attempts, each followed by its backoff. *)
Definition retry_events (req : Request) (initial : Duration) (from : nat) (answers : list (result Response ReqError)) : list HttpEvent :=
  concat (imap (λ i a, [Sent req a; Slept (backoff_at initial (from + i))]) answers).

Lemma retry_events_cons req initial from a answers :
  retry_events req initial from (a :: answers) =
  Sent req a :: Slept (backoff_at initial from) :: retry_events req initial (S from) answers.
Proof.
  unfold retry_events. rewrite imap_cons. cbn [concat app]. rewrite Nat.add_0_r. do 3 f_equal. apply imap_ext.
  intros i x _. simpl. by rewrite Nat.add_succ_r.
Qed.

Section attempts.
Context (self : ClickHouseWriter) (sql : string) (body : Bytes) (chunk : InsertChunk) (initial : Duration).
Let req := insert_request (cw_config self) sql body chunk.
Let limit := max_attempts (cw_config self).

(** The events of the attempts from the [k]-th on, with their result. *)
Definition attempts_done (k : nat) (tr : list WriterEvent) (r : result unit WriterError) : Prop :=
  ∃ answers tl, http_events tr = retry_events req initial k answers ++ tl ∧
    Forall (λ a, ambiguous a = true) answers ∧
    (answers = [] ∨ N.of_nat (k + length answers) < limit) ∧
    final_outcome limit req (N.of_nat (k + length answers)) tl r ∧
    retries (ops tr) = replicate (length answers) "retryable".

Definition loop_point (k : nat) (tr : list WriterEvent) (x : point (C := HttpCall) (option (result unit WriterError))) : Prop :=
  match x with
  | Waiting c => waits (eq req) (http_mode_label self) tr c
  | Returned o => settled (eq req) tr ∧ ∃ r, o = Some r ∧ attempts_done k tr r
  end.

(** The last attempt. *)
Lemma attempts_done_last k tr label r :
  retries (ops tr) = [] → final_outcome limit req (N.of_nat k) (http_events tr) r →
  attempts_done k (tr ++ [Emitted (InsertObserved label)]) r.
Proof.
  intros Hr Hfin. exists [], (http_events tr). cbn [length]. rewrite Nat.add_0_r. split_and!; [|done|by left|done|].
  - by rewrite http_events_app, app_nil_r.
  - by rewrite ops_app, retries_app, Hr.
Qed.

(** An ambiguous attempt, its backoff, and the attempts after it. *)
Lemma attempts_done_retry k tr a label tr' r :
  http_events tr = [Sent req a] → retries (ops tr) = [] → ambiguous a = true → N.of_nat k + 1 < limit →
  attempts_done (S k) tr' r →
  attempts_done k ((((tr ++ [Emitted (InsertObserved label)]) ++ [Emitted (RetryCounted "retryable")]) ++
                    [Http (Slept (backoff_at initial k))]) ++ tr') r.
Proof.
  intros Htr Hr Ha Hlt (answers & tl & Hev & Hall & Hlen & Hfin & Hret). exists (a :: answers), tl. split_and!.
  - rewrite !http_events_app, Htr, Hev, retry_events_cons. done.
  - by constructor.
  - right. simpl. destruct Hlen as [->|]; simpl; lia.
  - cbn [length]. by rewrite Nat.add_succ_r.
  - by rewrite !ops_app, !retries_app, Hr, Hret.
Qed.

Lemma attempt_loop_spec fuel : ∀ k,
  (N.to_nat limit < k + fuel)%nat → (0 < fuel)%nat →
  holds observe_call (attempt_loop fuel self sql body chunk (N.of_nat k) (backoff_at initial k)) [] (loop_point k).
Proof.
  induction fuel as [|fuel IH]; intros k Hk Hf; [lia|]. cbn [attempt_loop].
  apply holds_and_then. eapply holds_mono; [|apply execute_once_spec]. fold req.
  intros tr [r|c]; [|done]. intros (Hset & Hout & Hret). cbn [bound].
  set (label := (_, _, InsertResult_as_label (attempt_label r))).
  assert (settled (eq req) (tr ++ [Emitted (InsertObserved label)])) as Hset1
    by (apply settled_app; [done|by apply plain_settled]).
  split; [rewrite <- (app_nil_r tr); apply waits_app; [done|by apply plain_waits]|]. intros [].
  assert (∀ r', final_outcome limit req (N.of_nat k) (http_events tr) r' →
    holds observe_call (Ready (Some r')) (tr ++ [Emitted (InsertObserved label)]) (loop_point k)) as Hend.
  { intros r' Hfin. apply holds_ready. split; [done|]. exists r'. split; [done|]. by apply attempts_done_last. }
  cbn [observe_call]. clearbody label. remember (http_events tr) as htr eqn:Hhtr. destruct Hout as [m|a Ha|a Ha].
  - apply Hend. left. by eauto.
  - apply Hend. right. exists a. by auto.
  - rewrite verdict_class. destruct (ambiguous a) eqn:Hamb.
    + destruct (N.ltb_spec (N.of_nat k + 1) (max_attempts (cw_config self))) as [Hlt|Hge].
      * rewrite backoff_at_succ. replace (N.of_nat k + 1) with (N.of_nat (S k)) by lia.
        assert (settled (eq req) [Emitted (RetryCounted "retryable")]) as Hrs
          by (split; [by repeat constructor|by intros l]).
        split; [rewrite <- (app_nil_r (tr ++ _)); apply waits_app; [done|solve_waits]|]. intros [].
        split; [rewrite <- (app_nil_r ((tr ++ _) ++ _)); apply waits_app; [by apply settled_app|solve_waits]|]. intros [].
        cbn [observe_call]. apply holds_after. eapply holds_mono; [|apply (IH (S k)); lia].
        assert (settled (eq req) (((tr ++ [Emitted (InsertObserved label)]) ++ [Emitted (RetryCounted "retryable")]) ++
          [Http (Slept (backoff_at initial k))])) as Hset3
          by (apply settled_app; [by apply settled_app|split; [by repeat constructor|by intros l]]).
        intros tr' [o|c]; cbn [loop_point].
        -- intros (Hset' & r & -> & Hdone). split; [by apply settled_app|]. exists r. split; [done|].
           by apply attempts_done_retry with (a := a).
        -- by apply waits_app.
      * apply Hend. right. exists a. split; [done|]. right; right. done.
    + apply Hend. right. exists a. split; [done|]. right; left. done.
Qed.
End attempts.

Lemma backoff_at_0 initial : nanos initial ≤ duration_max → backoff_at initial 0 = initial.
Proof. destruct initial as [n]. unfold backoff_at. simpl. intros H1. f_equal. lia. Qed.

Definition chunk_request (self : ClickHouseWriter) (chunk : InsertChunk) (body : Bytes) : Request :=
  insert_request (cw_config self) (render_insert_sql_clean chunk (format (cw_serializer self))) body chunk.

Definition chunk_point (self : ClickHouseWriter) (chunk : InsertChunk) (tr : list WriterEvent)
    (x : point (C := HttpCall) (result unit WriterError)) : Prop :=
  match serialize (cw_serializer self) chunk with
  | Err e => tr = [] ∧ x = Returned (Err e)
  | Ok body =>
      let req := chunk_request self chunk body in
      match x with
      | Waiting c => waits (eq req) (http_mode_label self) tr c
      | Returned r => settled (eq req) tr ∧
          ∃ answers tl, http_events tr = retry_events req (initial_backoff (cw_config self)) 0 answers ++ tl ∧
            Forall (λ a, ambiguous a = true) answers ∧
            N.of_nat (length answers) < N.max 1 (max_attempts (cw_config self)) ∧
            final_outcome (max_attempts (cw_config self)) req (N.of_nat (length answers)) tl r ∧
            retries (ops tr) = replicate (length answers) "retryable"
      end
  end.

Lemma execute_chunk_spec self chunk :
  nanos (initial_backoff (cw_config self)) ≤ duration_max →
  holds observe_call (execute_chunk self chunk) [] (chunk_point self chunk).
Proof.
  intros Hdur. unfold execute_chunk, chunk_point. destruct (serialize (cw_serializer self) chunk) as [body|e]; [|by split].
  set (req := chunk_request self chunk body). set (f := SerializationFormat_as_label _).
  do 3 (apply holds_call; [solve_waits|]; intros []).
  unfold run_attempts. apply holds_and_then, holds_after.
  set (pre := _ ++ observe_call (CEmit (ChunkRows _ _)) _).
  assert (settled (eq req) pre) as Hpre by (split; [by repeat constructor|by intros l]).
  eapply holds_mono; [|rewrite <- (backoff_at_0 (initial_backoff (cw_config self))) by done;
    apply (attempt_loop_spec self _ body chunk (initial_backoff (cw_config self)) _ 0); lia].
  intros tr [o|c]; cbn [loop_point bound].
  - intros (Hset & r & -> & answers & tl & Hev & Hamb & Hlen & Hfin & Hret). apply holds_ready.
    split; [by apply settled_app|]. exists answers, tl. cbn [Nat.add] in Hfin. split_and!; try done.
    destruct Hlen as [->|]; simpl in *; lia.
  - by apply waits_app.
Qed.

Lemma inc_replicate n (f : Family string N) :
  foldl (λ f r, inc r f) f (replicate n "retryable") = Nat.iter n (inc "retryable") f.
Proof. revert f. induction n as [|n IH]; intros f; [done|]. cbn [replicate foldl]. rewrite IH. apply Nat.iter_swap. Qed.

(** C19: the protocol of one insert.  [execute_chunk] always returns.  A chunk
    that does not serialize sends nothing.  Otherwise every request it sends is
    the same one, with the same URL, token and body; at most [max_attempts]
    (and at least one) are sent; every answer but the last was ambiguous and
    was followed by a backoff that doubles from the initial one and saturates;
    and the result is decided by the last answer: success exactly on a 2xx, a
    refusal as it stands, and an ambiguous answer as an exhausted budget only
    after the last attempt.  The in-flight gauge returns to its value and the
    retry counter grew by the number of retries. *)
Theorem execute_chunk_protocol (self : ClickHouseWriter) (chunk : InsertChunk) (s : WriterState)
    (Hdur : nanos (initial_backoff (cw_config self)) ≤ duration_max) :
  let '(s', r) := run (execute_chunk self chunk) s in
  match serialize (cw_serializer self) chunk with
  | Err e => s' = s ∧ r = Err e
  | Ok body =>
      ∃ answers tr,
        ws_log s' = ws_log s ++
          retry_events (chunk_request self chunk body) (initial_backoff (cw_config self)) 0 answers ++ tr ∧
        Forall (λ a, ambiguous a = true) answers ∧
        N.of_nat (length answers) < N.max 1 (max_attempts (cw_config self)) ∧
        final_outcome (max_attempts (cw_config self)) (chunk_request self chunk body) (N.of_nat (length answers)) tr r ∧
        retry_count (ws_metrics s') = Nat.iter (length answers) (inc "retryable") (retry_count (ws_metrics s)) ∧
        ∀ l, default 0%Z (http_concurrent_inflight (ws_metrics s') !! l) =
             default 0%Z (http_concurrent_inflight (ws_metrics s) !! l)
  end.
Proof.
  destruct (serialize (cw_serializer self) chunk) as [body|e] eqn:Hser; cycle 1.
  { unfold execute_chunk. by rewrite Hser. }
  pose proof (run_holds _ _ s (execute_chunk_spec self chunk Hdur)) as Hrun.
  destruct (run (execute_chunk self chunk) s) as [s' r]. destruct Hrun as (evs & Hpoint & Hlog & Hmet).
  unfold chunk_point in Hpoint. rewrite Hser in Hpoint.
  destruct Hpoint as ((_ & Hgauge) & answers & tl & Hev & Hamb & Hlen & Hfin & Hret). exists answers, tl.
  rewrite Hlog, Hmet, Hev, apply_metrics_retries, Hret, inc_replicate. split_and!; try done.
  intros l. rewrite apply_metrics_inflight, Hgauge. lia.
Qed.

(** The per-commit counters are the sink's: the writer leaves them alone. *)
Definition same_commits (s s' : WriterState) : Prop :=
  rows_committed (ws_metrics s') = rows_committed (ws_metrics s) ∧
  commit_bytes (ws_metrics s') = commit_bytes (ws_metrics s).

Lemma within_uncommitted reqs evs : Forall (within reqs) evs → Forall (λ op, uncommitted op = true) (ops evs).
Proof. induction 1 as [|[ev|op] evs Hev _ IH]; [constructor|exact IH|by constructor]. Qed.

Lemma tracks_commits reqs s evs s' : tracks s evs s' → Forall (within reqs) evs → same_commits s s'.
Proof.
  intros [_ Hm] Hall%within_uncommitted. unfold same_commits. rewrite Hm.
  by destruct (apply_metrics_uncommitted (ops evs) (ws_metrics s) Hall) as [-> ->].
Qed.

(** The events of a chunk that the server acknowledged in the end. *)
Definition chunk_acked (self : ClickHouseWriter) (chunk : InsertChunk) (tr : list HttpEvent) : Prop :=
  ∃ body answers a, serialize (cw_serializer self) chunk = Ok body ∧
    tr = retry_events (chunk_request self chunk body) (initial_backoff (cw_config self)) 0 answers ++
         [Sent (chunk_request self chunk body) a] ∧
    Forall (λ a, ambiguous a = true) answers ∧ acked a = true.

(** The events of a chunk that failed with [e]: no request was acknowledged,
    and the error says what is known of the insert. *)
Definition refused_event (self : ClickHouseWriter) (chunk : InsertChunk) (ev : HttpEvent) : Prop :=
  match ev with
  | Sent req a => acked a = false ∧
      ∃ body, serialize (cw_serializer self) chunk = Ok body ∧ req = chunk_request self chunk body
  | Slept _ => True
  | Abandoned _ => False
  end.
Definition chunk_failed (self : ClickHouseWriter) (chunk : InsertChunk) (tr : list HttpEvent) (e : WriterError) : Prop :=
  Forall (refused_event self chunk) tr ∧
  class e ≠ ClassRetryable ∧
  (class e = ClassRetryBudgetExhausted → ∃ req a, last tr = Some (Sent req a) ∧ ambiguous a = true).

Lemma retry_events_forall (P : HttpEvent → Prop) req initial from answers :
  (∀ a, a ∈ answers → P (Sent req a)) → (∀ d, P (Slept d)) → Forall P (retry_events req initial from answers).
Proof.
  revert from. induction answers as [|a answers IH]; intros from Hs Hd; [constructor|].
  rewrite retry_events_cons. constructor; [apply Hs; left|]. constructor; [apply Hd|].
  apply IH; [|done]. intros a' Ha'. apply Hs. by right.
Qed.

Lemma ambiguous_not_acked a : ambiguous a = true → acked a = false.
Proof. intros H1. destruct (acked a) eqn:Ha; [|done]. apply acked_not_ambiguous in Ha. congruence. Qed.

Lemma serialize_class (sr : DynSerializer) chunk e : serialize sr chunk = Err e → class e = ClassNonRetryable.
Proof.
  destruct sr as [js|rb]; simpl.
  - unfold JsonEachRow_serialize. generalize ([] : Bytes). induction (rows chunk) as [|row rs IH]; intros out; simpl; [done|].
    destruct (negb _); [by intros [= <-]|]. destruct (map_err _ _) as [line|e'] eqn:Hl; [apply IH|].
    unfold map_err in Hl. destruct (match json_row _ _ with Some _ => _ | None => _ end); [done|]. intros [= <-].
    by injection Hl as <-.
  - unfold RowBinary_serialize. destruct (write_types _ _) as [out|e'] eqn:Ht.
    + generalize out. clear. induction (rows chunk) as [|row rs IH]; intros out; simpl; [done|].
      destruct (negb _); [by intros [= <-]|]. apply IH.
    + intros [= <-]. revert Ht. generalize (write_names (columns chunk) (write_varuint (N.of_nat (length (columns chunk))))).
      induction (columns chunk) as [|c cs IH]; intros out; cbn [write_types]; [done|].
      destruct (clickhouse_type_for_column c) as [ty|e0] eqn:Hty; [apply IH|]. intros [= <-].
      by eapply column_error_class.
Qed.

(** The requests of a list of chunks. *)
Definition chunk_requests (self : ClickHouseWriter) (chunks : list InsertChunk) (req : Request) : Prop :=
  ∃ chunk body, chunk ∈ chunks ∧ serialize (cw_serializer self) chunk = Ok body ∧ req = chunk_request self chunk body.

Definition chunk_ended (self : ClickHouseWriter) (chunk : InsertChunk) (tr : list HttpEvent) (r : result unit WriterError) : Prop :=
  match r with Ok _ => chunk_acked self chunk tr | Err e => chunk_failed self chunk tr e end.

Lemma execute_chunk_events self chunk :
  nanos (initial_backoff (cw_config self)) ≤ duration_max →
  holds observe_call (execute_chunk self chunk) [] (λ tr x,
    match x with
    | Waiting c => waits (chunk_requests self [chunk]) (http_mode_label self) tr c
    | Returned r => settled (chunk_requests self [chunk]) tr ∧ chunk_ended self chunk (http_events tr) r
    end).
Proof.
  intros Hdur. eapply holds_mono; [|by apply execute_chunk_spec]. intros evs x. unfold chunk_point.
  destruct (serialize (cw_serializer self) chunk) as [body|e] eqn:Hser; cycle 1.
  { intros [-> ->]. split; [apply settled_nil|]. split_and!; [constructor| |]; by rewrite (serialize_class _ _ _ Hser). }
  set (req := chunk_request self chunk body).
  assert (∀ r, req = r → chunk_requests self [chunk] r) as Hreq by (intros r <-; exists chunk, body; by split; [left|]).
  destruct x as [r|c]; [|by apply waits_mono].
  intros (Hset & answers & tr & -> & Hamb & Hlen & Hfin & _). split; [by eapply settled_mono|].
  rewrite Forall_forall in Hamb.
  assert (∀ tl, Forall (refused_event self chunk) tl →
    Forall (refused_event self chunk) (retry_events req (initial_backoff (cw_config self)) 0 answers ++ tl)) as Hall.
  { intros tl Htl. apply Forall_app. split; [|done]. apply retry_events_forall; [|done].
    intros a Ha. split; [by apply ambiguous_not_acked, Hamb|by exists body]. }
  destruct Hfin as [[-> [m ->]]|(a & -> & [[Ha ->]|[(Ha & Hna & ->)|(Ha & _ & ->)]])].
  - split_and!; [apply Hall; constructor|done|done].
  - exists body, answers, a. split_and!; try done. by apply Forall_forall.
  - split_and!; [apply Hall; repeat constructor; [done|by exists body]| |];
      rewrite verdict_class, Hna; done.
  - split_and!; [apply Hall; repeat constructor; [by apply ambiguous_not_acked|by exists body]|done|].
    intros _. exists req, a. by rewrite last_snoc.
Qed.

(** The inserts of a list of chunks, in order, up to the first failure. *)
Definition chunks_ended (self : ClickHouseWriter) (chunks : list InsertChunk) (tr : list HttpEvent) (r : result unit WriterError) : Prop :=
  match r with
  | Ok _ => ∃ traces, tr = concat traces ∧ Forall2 (chunk_acked self) chunks traces
  | Err e => ∃ before chunk after traces last_tr, chunks = before ++ chunk :: after ∧ tr = concat traces ++ last_tr ∧
      Forall2 (chunk_acked self) before traces ∧ chunk_failed self chunk last_tr e
  end.

Lemma chunks_ended_cons self c chunks tr tr' r :
  chunk_acked self c tr → chunks_ended self chunks tr' r → chunks_ended self (c :: chunks) (tr ++ tr') r.
Proof.
  intros Hc. destruct r as [[]|e]; simpl.
  - intros (traces & -> & Hall). exists (tr :: traces). split; [done|by constructor].
  - intros (before & chunk & after & traces & last_tr & -> & -> & Hall & Hf).
    exists (c :: before), chunk, after, (tr :: traces), last_tr. split_and!; [done| |by constructor|done].
    cbn [concat]. by rewrite <- app_assoc.
Qed.

Lemma execute_all_spec self chunks :
  nanos (initial_backoff (cw_config self)) ≤ duration_max →
  holds observe_call (execute_all self chunks) [] (λ tr x,
    match x with
    | Waiting c => waits (chunk_requests self chunks) (http_mode_label self) tr c
    | Returned r => settled (chunk_requests self chunks) tr ∧ chunks_ended self chunks (http_events tr) r
    end).
Proof.
  intros Hdur. unfold execute_all. induction chunks as [|c chunks IH]; cbn [each].
  { apply holds_ready. split; [apply settled_nil|]. exists []. split; [done|constructor]. }
  assert (∀ r, chunk_requests self [c] r → chunk_requests self (c :: chunks) r) as Hc.
  { intros r (x & body & ->%list_elem_of_singleton & Hser). exists c, body. split; [left|done]. }
  assert (∀ r, chunk_requests self chunks r → chunk_requests self (c :: chunks) r) as Hcs.
  { intros r (x & body & Hx & Hser). exists x, body. split; [by right|done]. }
  apply holds_bind. eapply holds_mono; [|by apply execute_chunk_events].
  intros tr [[[]|e]|k]; cbn [tried].
  - intros [Hset Hacked]. apply holds_after. eapply holds_mono; [|exact IH]. intros tr' [r|k].
    + intros [Hset' Hend]. split; [apply settled_app; [exact (settled_mono _ _ _ Hc Hset)|exact (settled_mono _ _ _ Hcs Hset')]|].
      rewrite http_events_app. by apply chunks_ended_cons.
    + intros Hw. apply waits_app; [exact (settled_mono _ _ _ Hc Hset)|exact (waits_mono _ _ _ _ _ Hcs Hw)].
  - intros [Hset Hf]. split; [exact (settled_mono _ _ _ Hc Hset)|]. exists [], c, chunks, [], (http_events tr). split_and!; [done|done|constructor|exact Hf].
  - by apply waits_mono.
Qed.

(** A commit's inserts go out in order, and the first failure ends them.
    [execute_all] succeeds exactly when the server acknowledged every chunk,
    one after the other; on an error, the chunks before the failing one were
    all acknowledged, no request of the failing one was, and nothing of a later
    chunk was sent. *)
Theorem execute_all_prefix (self : ClickHouseWriter) (chunks : list InsertChunk) (s : WriterState)
    (Hdur : nanos (initial_backoff (cw_config self)) ≤ duration_max) :
  let '(s', r) := run (execute_all self chunks) s in
  match r with
  | Ok _ => ∃ traces, ws_log s' = ws_log s ++ concat traces ∧ Forall2 (chunk_acked self) chunks traces
  | Err e => ∃ before chunk after traces tr, chunks = before ++ chunk :: after ∧
      ws_log s' = ws_log s ++ concat traces ++ tr ∧ Forall2 (chunk_acked self) before traces ∧ chunk_failed self chunk tr e
  end.
Proof.
  pose proof (run_holds _ _ s (execute_all_spec self chunks Hdur)) as Hrun.
  destruct (run (execute_all self chunks) s) as [s' [[]|e]]; destruct Hrun as (evs & [_ Hend] & Hlog & _).
  - destruct Hend as (traces & Htr & Hall). exists traces. by rewrite Hlog, Htr.
  - destruct Hend as (before & chunk & after & traces & tr & Hc & Htr & Hall & Hf).
    exists before, chunk, after, traces, tr. by rewrite Hlog, Htr.
Qed.
End writer.

(** ** A scripted server *)

(** The world is the script of the answers; past its end every insert is
    acknowledged. *)
#[export] Instance DemoHttp : Reqwest (list (result Response string)) := {
  Client := unit;
  ReqError := string;
  build_client _ w := (w, Ok tt);
  send _ _ w := match w with [] => ([], Ok {| status := 200; resp_text := Some "" |}) | a :: w => (w, a) end;
  send_dropped _ _ w := tail w;
  is_timeout e := String.eqb e "timeout";
  is_connect e := String.eqb e "connect";
  is_status _ := false;
  ReqError_display e := e;
  sleep _ w := w;
  dump_insert_body _ w := w;
  urlencode s := s;
}.

#[export] Instance DemoJson : SerdeJson := {
  JsonValue := string;
  JsonMap := string;
  json_string := debug_str;
  json_number := show_Z;
  json_null := "null";
  json_object m := "{" +:+ m +:+ "}";
  json_map_new := "";
  json_map_insert k v m := m +:+ (if String.eqb m "" then "" else ",") +:+ debug_str k +:+ ":" +:+ v;
  to_vec v := Ok (as_bytes v);
}.

Definition demo_writer : ClickHouseWriter :=
  {| cw_config := {| endpoint := "http://localhost:8123/"; user := "default"; password := "";
                     request_timeout := mkDuration 5000000000; max_attempts := 3; initial_backoff := from_millis 100;
                     serialization_format := RowBinary; http_client_mode := PerCall |};
     cw_serializer := build_serializer RowBinary; cw_pooled_client := None |}.

Definition demo_chunks : list InsertChunk :=
  match plan demo_adapter (demo_batch demo_sorted) with Ok chunks => chunks | Err _ => [] end.
Definition demo_chunk : InsertChunk :=
  default {| ic_database := ""; ic_table := ""; columns := []; rows := [];
             settings := {| chs_insert_quorum := None; insert_deduplication_token := ""; chs_apply_deduplication_token := false |};
             idempotency_token := ""; chunk_index := 0; observability_labels := [] |} (head demo_chunks).

Definition demo_answer (code : N) : result Response string := Ok {| status := code; resp_text := Some "body" |}.
Definition demo_state (script : list (result Response string)) : WriterState :=
  {| ws_world := script; ws_metrics := ClickHouseMetrics_new; ws_log := [] |}.

(** Statuses of the requests of a log (0 without an answer, 499 when the caller
    left), and the sleeps, in milliseconds. *)
Definition demo_view (log : list HttpEvent) : list (N + N) :=
  (λ ev, match ev with
         | Sent _ (Ok resp) => inl (status resp)
         | Sent _ (Err _) => inl 0
         | Slept d => inr (nanos d / 1000000)
         | Abandoned _ => inl 499
         end) <$> log.

Example demo_url : build_insert_url "http://localhost:8123/" demo_chunk (mkDuration 5000000000) =
  "http://localhost:8123/?async_insert=0&date_time_input_format=best_effort&insert_deduplication_token=ingest/otel/logs/manifest:responsive.logs:7-7:1:6f746c702d6c6f67:0&insert_quorum=auto&max_execution_time=5".
Proof. by vm_compute. Qed.

Lemma execute_chunk_protocol_witness :
  ∃ s' r body answers tr, run (execute_chunk demo_writer demo_chunk) (demo_state [Err "timeout"; demo_answer 503; demo_answer 400]) = (s', r) ∧
    serialize (cw_serializer demo_writer) demo_chunk = Ok body ∧
    demo_view (ws_log s') = [inl 0; inr 100; inl 503; inr 200; inl 400] ∧
    ws_log s' = [] ++ retry_events (chunk_request demo_writer demo_chunk body) (from_millis 100) 0 answers ++ tr ∧
    final_outcome 3 (chunk_request demo_writer demo_chunk body) (N.of_nat (length answers)) tr r ∧
    default 0 (retry_count (ws_metrics s') !! "retryable") = 2.
Proof.
  set (s := demo_state _).
  pose proof (execute_chunk_protocol demo_writer demo_chunk s ltac:(by vm_compute)) as Hspec.
  destruct (run (execute_chunk demo_writer demo_chunk) s) as [s' r] eqn:Hrun.
  destruct (serialize (cw_serializer demo_writer) demo_chunk) as [body|e] eqn:Hser; [|by vm_compute in Hser].
  destruct Hspec as (answers & tr & Hlog & _ & _ & Hfin & _).
  exists s', r, body, answers, tr. split_and!; [done|done| |exact Hlog|exact Hfin|].
  - change s' with (s', r).1. rewrite <- Hrun. vm_compute. reflexivity.
  - change s' with (s', r).1. rewrite <- Hrun. vm_compute. reflexivity.
Defined.

Lemma execute_all_prefix_witness :
  ∃ s' r, run (execute_all demo_writer demo_chunks) (demo_state [demo_answer 429]) = (s', r) ∧ r = Ok tt ∧
    demo_view (ws_log s') = [inl 429; inr 100; inl 200; inl 200] ∧
    ∃ traces, ws_log s' = [] ++ concat traces ∧ Forall2 (chunk_acked demo_writer) demo_chunks traces.
Proof.
  set (s := demo_state _).
  pose proof (execute_all_prefix demo_writer demo_chunks s ltac:(by vm_compute)) as Hspec.
  destruct (run (execute_all demo_writer demo_chunks) s) as [s' r] eqn:Hrun. exists s', r. split; [done|].
  assert (is_ok r = true) as Hok by (change r with (s', r).2; rewrite <- Hrun; vm_compute; reflexivity).
  destruct r as [[]|e]; [|done]. split; [done|]. split; [|exact Hspec].
  change s' with (s', Ok (E := WriterError) tt).1. rewrite <- Hrun. vm_compute. reflexivity.
Defined.
