(* ===== verification/ClickHouseSink.v ===== *)
(** * The ClickHouse sink
    (plugins/opendata-ingest-clickhouse/src/sink.rs)

    The [Sink] implementation: the checks before any request, the plan, the
    inserts, and how the writer's verdict becomes a [SinkCommitFailure].  The
    world of the sink is the writer's state: server, metrics and the log of the
    requests. *)

From Stdlib Require Import ZArith NArith Lia Sorted.
From S2P Require Import Prelude.
From S2P Require Import BTree.
From S2P Require Import Types.
From S2P Require Import Options.
From S2P Require Import Metrics.
From S2P Require Import Async.
From S2P Require Import ClickHouseMetrics.
From S2P Require Import WriteRetry.
From S2P Require Import OtlpLogs.
From S2P Require Import RowValue.
From S2P Require Import LogsAdapter.
From S2P Require Import Serializer.
From S2P Require Import Writer.
Local Open Scope N_scope.

Definition ODB_RUN_ID_ATTR : string := "_odb_run_id".
Definition UNKNOWN_RUN_ID_LABEL : string := "unknown".

(** [as_any().downcast_ref::<TypedDecodedLogs>()]. *)
Class AsLogs (T : Type) := { as_logs : T → option TypedDecodedLogs }.
#[export] Instance AsLogs_logs : AsLogs TypedDecodedLogs := { as_logs := Some }.

(** [{:?}] of a [TypedSchema]. *)
Definition TypedSchema_debug (s : TypedSchema) : string :=
  "TypedSchema { name: " +:+ debug_str (ts_name s) +:+ ", version: SchemaVersion(" +:+
  show (schema_version_num (ts_version s)) +:+ ") }".

Definition fatal (msg : string) : SinkCommitFailure := Fatal (mkBoxError msg).

(** Rows per run id; records without the attribute count as unknown. *)
Definition bucket_rows_by_run_id (records : list DecodedLogRecord) : gmap string N :=
  foldl (λ counts rec,
    let run_id := default UNKNOWN_RUN_ID_LABEL (bt_get ODB_RUN_ID_ATTR (log_attributes rec)) in
    <[run_id := default 0 (counts !! run_id) + 1]> counts) ∅ records.

Section sink.
Context {W T A : Type} `{Reqwest W} `{SerdeJson} `{P : OtlpProto} `{TypedRecords T} `{AsLogs T} `{Adapter A}.

Record ClickHouseSink := {
  chs_id : SinkId;
  chs_adapter : A;
  chs_writer : ClickHouseWriter;
  chs_budget : SinkBudget;
}.

Definition ClickHouseSink_new_with_metrics (id : SinkId) (adapter : A) (writer : ClickHouseWriter) : ClickHouseSink :=
  {| chs_id := id; chs_adapter := adapter; chs_writer := writer; chs_budget := SinkBudget_default |}.
Definition with_budget (self : ClickHouseSink) (budget : SinkBudget) : ClickHouseSink :=
  {| chs_id := chs_id self; chs_adapter := chs_adapter self; chs_writer := chs_writer self; chs_budget := budget |}.

(** What [write] does before the first request: the selected records and their
    chunks. *)
Definition write_plan (self : ClickHouseSink) (commit : SinkCommit T)
    : result (list DecodedLogRecord * list InsertChunk) SinkCommitFailure :=
  let identity := sc_identity commit in
  let batch := sc_batch commit in
  if negb (range_low (ci_range identity) =? db_low_sequence batch) ||
     negb (range_high (ci_range identity) =? db_high_sequence batch)
  then Err (fatal ("SinkCommit identity range " +:+ show (range_low (ci_range identity)) +:+ "..=" +:+
              show (range_high (ci_range identity)) +:+ " disagrees with DecodedBatch range " +:+
              show (db_low_sequence batch) +:+ "..=" +:+ show (db_high_sequence batch)))
  else
    let 'Typed typed := db_records batch in
    let? logs := ok_or (as_logs typed)
      (fatal ("ClickHouseSink expects TypedDecodedLogs (schema " +:+ OTLP_LOGS_SCHEMA_NAME +:+ "), got " +:+
              TypedSchema_debug (schema typed))) in
    let selected := records logs in
    let input_row_count := N.of_nat (length selected) in
    let bytes := sum_N (approx_size_bytes <$> selected) in
    let group := {| cab_identity := identity; cab_records := selected; cab_bytes := bytes |} in
    let? chunks := map_err (λ e, Fatal (mkBoxError (AdapterError_display e))) (plan (chs_adapter self) group) in
    let chunk_row_total := sum_N (rows_count <$> chunks) in
    if negb (chunk_row_total =? input_row_count)
    then Err (fatal ("adapter plan covered " +:+ show chunk_row_total +:+ " rows but commit held " +:+
                show input_row_count +:+ "; refusing to insert and ack a partial/dropped chunking"))
    else Ok (selected, chunks).

(** The sum of the rows' numbers of values. *)
Definition bytes_written_of (chunks : list InsertChunk) : N :=
  sum_N ((λ c, sum_N ((λ r, N.of_nat (length r)) <$> rows c)) <$> chunks).
Definition rows_written_of (chunks : list InsertChunk) : N := sum_N (rows_count <$> chunks).

(** The updates of a successful commit. *)
Definition count_committed (rows_by_run_id : gmap string N) (bytes_written : N) : list MetricOp :=
  ((λ kv, RowsCommitted kv.1 kv.2) <$> map_to_list rows_by_run_id) ++ [CommitBytes bytes_written].

Definition write (self : ClickHouseSink) (commit : SinkCommit T) : Async answer SinkCommitFailure SinkCommitResult :=
  planned ← pure (write_plan self commit);
  let '(selected, chunks) := (planned : list DecodedLogRecord * list InsertChunk) in
  let rows_by_run_id := bucket_rows_by_run_id selected in
  let bytes_written := bytes_written_of chunks in
  let rows_written := rows_written_of chunks in
  outcome ← outcome_of (execute_all (chs_writer self) chunks);
  match outcome with
  | Ok _ =>
      each (count_committed rows_by_run_id bytes_written) emit ;;
      mret {| scr_bytes_written := bytes_written; scr_rows_written := rows_written |}
  | Err e =>
      match class e with
      | ClassRetryable | ClassRetryBudgetExhausted => fails (MaybeCommitted (mkBoxError (WriterError_display e)))
      | ClassNonRetryable => fails (Fatal (mkBoxError (WriterError_display e)))
      end
  end.

#[export] Instance ClickHouseSink_sink : Sink ClickHouseSink WriterState T := {
  sink_id := chs_id;
  write_budget := chs_budget;
  sink_write self commit := run (write self commit);
  check_committed _ _ s := (s, Ok CSUnknown);
}.

(** ** One write *)

(** The conditions of a plan, in the order of the checks. *)
Lemma write_plan_ok self commit selected chunks :
  write_plan self commit = Ok (selected, chunks) ↔
  ∃ logs typed, db_records (sc_batch commit) = Typed typed ∧ as_logs typed = Some logs ∧ selected = records logs ∧
    ci_range (sc_identity commit) = {| range_low := db_low_sequence (sc_batch commit);
                                       range_high := db_high_sequence (sc_batch commit) |} ∧
    plan (chs_adapter self) {| cab_identity := sc_identity commit; cab_records := records logs;
                               cab_bytes := sum_N (approx_size_bytes <$> records logs) |} = Ok chunks ∧
    sum_N (rows_count <$> chunks) = N.of_nat (length (records logs)).
Proof.
  unfold write_plan. destruct (ci_range (sc_identity commit)) as [low high]. cbn [range_low range_high].
  destruct (db_records (sc_batch commit)) as [typed].
  split.
  - destruct (N.eqb_spec low (db_low_sequence (sc_batch commit))) as [->|]; [|done].
    destruct (N.eqb_spec high (db_high_sequence (sc_batch commit))) as [->|]; [|done]. cbn [negb orb].
    destruct (as_logs typed) as [logs|] eqn:Hl; [|done]. simpl.
    destruct (plan _ _) as [cs|e] eqn:Hp; [|done]. simpl.
    destruct (N.eqb_spec (sum_N (rows_count <$> cs)) (N.of_nat (length (records logs)))); [|done]. simpl.
    intros [= <- <-]. by exists logs, typed.
  - intros (logs & typed' & [= <-] & Hl & -> & [= -> ->] & Hp & Hsum). rewrite !N.eqb_refl. cbn [negb orb].
    rewrite Hl. cbn [ok_or]. rewrite Hp. cbn [map_err]. by rewrite Hsum, N.eqb_refl.
Qed.

Lemma write_plan_err self commit f : write_plan self commit = Err f → ∃ e, f = Fatal e.
Proof.
  unfold write_plan. destruct (_ || _); [intros [= <-]; by eexists|]. destruct (db_records _) as [typed].
  destruct (as_logs typed) as [logs|]; simpl; [|intros [= <-]; by eexists].
  destruct (plan _ _) as [cs|e]; simpl; [|intros [= <-]; by eexists].
  destruct (negb _); [intros [= <-]; by eexists|done].
Qed.

(** The requests of the commit's plan. *)
Definition planned_request (self : ClickHouseSink) (commit : SinkCommit T) (req : Request) : Prop :=
  ∃ selected chunks, write_plan self commit = Ok (selected, chunks) ∧ chunk_requests (chs_writer self) chunks req.

Definition planned_event (self : ClickHouseSink) (commit : SinkCommit T) (ev : HttpEvent) : Prop :=
  match ev with Sent req _ | Abandoned req => planned_request self commit req | Slept _ => True end.

(** The events of a failed list of inserts. *)
Definition inserts_failed (self : ClickHouseSink) (chunks : list InsertChunk) (tr : list HttpEvent) (e : WriterError) : Prop :=
  ∃ before chunk after traces last_tr, chunks = before ++ chunk :: after ∧ tr = concat traces ++ last_tr ∧
    Forall2 (chunk_acked (chs_writer self)) before traces ∧ chunk_failed (chs_writer self) chunk last_tr e.

(** What a write has done when it returns [r]. *)
Definition write_ended (self : ClickHouseSink) (selected : list DecodedLogRecord) (chunks : list InsertChunk)
    (tr : list WriterEvent) (r : result SinkCommitResult SinkCommitFailure) : Prop :=
  match r with
  | Ok res =>
      (∃ traces, http_events tr = concat traces ∧ Forall2 (chunk_acked (chs_writer self)) chunks traces) ∧
      scr_rows_written res = N.of_nat (length selected) ∧ scr_bytes_written res = bytes_written_of chunks ∧
      ∃ inserts, Forall (λ op, uncommitted op = true) inserts ∧
        ops tr = inserts ++ count_committed (bucket_rows_by_run_id selected) (scr_bytes_written res)
  | Err f =>
      Forall (λ op, uncommitted op = true) (ops tr) ∧
      ∃ e, inserts_failed self chunks (http_events tr) e ∧
      match f with
      | NotCommitted _ => False
      | MaybeCommitted b => b = mkBoxError (WriterError_display e) ∧
          ∃ req a, last (http_events tr) = Some (Sent req a) ∧ ambiguous a = true
      | Fatal b => b = mkBoxError (WriterError_display e) ∧ class e = ClassNonRetryable
      end
  end.

(** A write at every point: it sends requests of the plan only, its gauge is up
    exactly while one is in flight, and at its awaits nothing is counted as
    committed. *)
Definition write_point (self : ClickHouseSink) (commit : SinkCommit T) (tr : list WriterEvent)
    (x : point (C := HttpCall) (result SinkCommitResult SinkCommitFailure)) : Prop :=
  Forall (planned_event self commit) (http_events tr) ∧
  match x with
  | Waiting c =>
      (match c with CSend _ req => planned_request self commit req | _ => True end) ∧
      (∀ l, inflight l (ops tr) = busy (http_mode_label (chs_writer self)) l c) ∧
      (suspends c = true → Forall (λ op, uncommitted op = true) (ops tr))
  | Returned r =>
      (∀ l, inflight l (ops tr) = 0%Z) ∧
      match write_plan self commit with
      | Err f => tr = [] ∧ r = Err f ∧ ∃ e, f = Fatal e
      | Ok (selected, chunks) => write_ended self selected chunks tr r
      end
  end.

Lemma within_planned self commit selected chunks tr :
  write_plan self commit = Ok (selected, chunks) →
  Forall (within (chunk_requests (chs_writer self) chunks)) tr → Forall (planned_event self commit) (http_events tr).
Proof.
  intros Hplan. induction 1 as [|[ev|op] tr Hev _ IH]; [constructor| |exact IH].
  constructor; [|exact IH]. destruct ev; simpl in *; [|done|]; by exists selected, chunks.
Qed.

(** Emissions one after the other. *)
Lemma emits_spec {B} (l : list MetricOp) (f : unit → Async answer SinkCommitFailure B) evs I :
  (∀ l1 op l2, l = l1 ++ op :: l2 → I (evs ++ (Emitted <$> l1)) (Waiting (CEmit op))) →
  holds observe_call (f tt) (evs ++ (Emitted <$> l)) I →
  holds observe_call (each l emit ≫= f) evs I.
Proof.
  revert evs. induction l as [|op l IH]; intros evs Hw Hf; cbn [each].
  { by rewrite app_nil_r in Hf. }
  change (holds observe_call (call (CEmit op : HttpCall) ≫= λ _, each l emit ≫= f) evs I).
  apply holds_call; [by rewrite <- (app_nil_r evs); apply (Hw [] op l)|]. intros []. apply IH.
  - intros l1 op' l2 ->. rewrite <- app_assoc. by apply (Hw (op :: l1) op' l2).
  - by rewrite <- app_assoc.
Qed.

Lemma ops_emitted l : ops (Emitted <$> l) = l.
Proof. induction l as [|op l IH]; [done|]. by rewrite fmap_cons; simpl; f_equal. Qed.
Lemma http_emitted l : http_events (Emitted <$> l) = [].
Proof. by induction l. Qed.
Lemma count_committed_inflight rows bytes l1 op l2 mode :
  count_committed rows bytes = l1 ++ op :: l2 → inflight mode l1 = 0%Z ∧ ∀ m, busy m mode (CEmit op) = 0%Z.
Proof.
  intros Hl. assert (Forall (λ op, uncommitted op = false) (l1 ++ op :: l2)) as [Hall Hop]%Forall_app.
  { rewrite <- Hl. apply Forall_app. split; [apply Forall_fmap; by apply Forall_true|by repeat constructor]. }
  inversion Hop as [|? ? Hu _]; subst. split; [|by destruct op].
  clear -Hall. induction Hall as [|x l Hx _ IH]; [done|]. simpl. rewrite IH. by destruct x.
Qed.

Lemma write_spec (self : ClickHouseSink) (commit : SinkCommit T)
    (Hdur : nanos (initial_backoff (cw_config (chs_writer self))) ≤ duration_max) :
  holds observe_call (write self commit) [] (write_point self commit).
Proof.
  unfold write. destruct (write_plan self commit) as [[selected chunks]|f] eqn:Hplan; cycle 1.
  { apply holds_ready. split; [constructor|]. split; [done|]. rewrite Hplan. repeat split. by eapply write_plan_err. }
  cbn [mbind Async_bind pure and_then]. apply holds_and_then. unfold outcome_of. apply holds_and_then.
  eapply holds_mono; [|by apply execute_all_spec]. intros tr [r|c]; cbn [bound].
  2:{ intros (Hall & Hc & Hg). split; [by eapply within_planned|]. split_and!; [|done|].
      - destruct c; try done. by exists selected, chunks.
      - intros _. by eapply within_uncommitted. }
  intros ([Hall Hg] & Hend). pose proof (within_planned _ _ _ _ _ Hplan Hall) as Hreqs.
  pose proof (within_uncommitted _ _ Hall) as Hun. apply holds_ready. cbn [bound].
  destruct r as [[]|e]; cbn [chunks_ended] in Hend.
  - apply (emits_spec _ (λ _, mret _)).
    + intros l1 op l2 Hl. split; [by rewrite http_events_app, http_emitted, app_nil_r|]. split; [done|]. split; [|done].
      intros l. destruct (count_committed_inflight _ _ _ _ _ l Hl) as [Hl1 ->].
      by rewrite ops_app, ops_emitted, inflight_app, Hg, Hl1.
    + apply holds_ready. split; [by rewrite http_events_app, http_emitted, app_nil_r|]. rewrite Hplan. split.
      * intros l. rewrite ops_app, ops_emitted, inflight_app, Hg. unfold count_committed. rewrite inflight_app.
        destruct (count_committed_inflight (bucket_rows_by_run_id selected) (bytes_written_of chunks)
          ((λ kv, RowsCommitted kv.1 kv.2) <$> map_to_list (bucket_rows_by_run_id selected))
          (CommitBytes (bytes_written_of chunks)) [] l eq_refl) as [-> _]. done.
      * cbn [write_ended scr_rows_written scr_bytes_written].
        rewrite http_events_app, http_emitted, app_nil_r, ops_app, ops_emitted.
        apply write_plan_ok in Hplan as (logs & typed & _ & _ & -> & _ & _ & Hsum). split_and!; [done|exact Hsum|done|].
        by exists (ops tr).
  - assert (write_ended self selected chunks tr (Err match class e with
      | ClassRetryable | ClassRetryBudgetExhausted => MaybeCommitted (mkBoxError (WriterError_display e))
      | ClassNonRetryable => Fatal (mkBoxError (WriterError_display e)) end)) as Hended.
    { split; [done|]. exists e. split; [exact Hend|].
      destruct Hend as (before & chunk & after & traces & last_tr & _ & Htr & _ & _ & Hne & Hlast).
      destruct (class e) eqn:Hcls; [done|by split|]. split; [done|].
      destruct (Hlast eq_refl) as (req & a & Hl & Ha). exists req, a. split; [|done]. by rewrite Htr, last_app, Hl. }
    destruct (class e); apply holds_ready; (split; [done|]); (split; [done|]); by rewrite Hplan.
Qed.

End sink.

(** ** Retries *)

Section retries.
Context {K W T : Type} `{Sink K W T} (env : nat → Select W) (R : W → W → Prop) `{!PreOrder R}.
Context (sink : K) (commit : SinkCommit T).
Context (Hwrite : ∀ w, R w (sink_write sink commit w).1) (Hcheck : ∀ w, R w (check_committed sink (sc_identity commit) w).1).
Context (Hpartial : ∀ i slow partial w, env i = Abort slow partial → R w (partial w)).

Lemma retry_or_fail_world source_id attempt max_attempts e (s : RetryState (T := T)) :
  R (rs_world s) (rs_world (retry_or_fail env source_id attempt max_attempts e s).2).
Proof. unfold retry_or_fail, sleep_with_abort. destruct (_ <=? _); [done|]. by destruct (env (rs_polls s)). Qed.

(** A relation that every call on the sink and every aborted call respects
    holds across the loop. *)
Lemma write_loop_world source_id max_attempts fuel : ∀ attempt (s : RetryState (T := T)),
  R (rs_world s) (rs_world (write_loop env fuel sink commit source_id attempt max_attempts s).2).
Proof using All.
  induction fuel as [|fuel IH]; intros attempt s; [done|]. cbn [write_loop].
  assert (R (rs_world s) (rs_world (attempt_once env sink commit source_id attempt max_attempts s).2)) as Honce.
  { unfold attempt_once. destruct (env (rs_polls s)) as [slow|slow partial] eqn:Henv; [|by eapply Hpartial].
    pose proof (Hwrite (rs_world s)) as Hw. destruct (sink_write sink commit (rs_world s)) as [w [r|[e|e|e]]]; simpl in Hw.
    - done.
    - etrans; [|apply retry_or_fail_world]. done.
    - set (s1 := after_call w _ s). destruct (env (rs_polls s1)) as [slow1|slow1 partial1] eqn:Henv1;
        [|etrans; [exact Hw|exact (Hpartial _ _ _ w Henv1)]].
      pose proof (Hcheck w) as Hc. simpl. destruct (check_committed _ _ w) as [w2 [[]|e2]]; simpl in Hc;
        try (etrans; [|apply retry_or_fail_world]); by etrans.
    - done. }
  destruct (attempt_once _ _ _ _ _ _ s) as [[a|] s1]; [done|]. by etrans.
Qed.
End retries.

Section composed.
Context {W T A : Type} `{Reqwest W} `{SerdeJson} `{P : OtlpProto} `{TypedRecords T} `{AsLogs T} `{Adapter A}.

(** The log grew by requests of the plan only. *)
Definition replays (self : ClickHouseSink) (commit : SinkCommit T) (s s' : WriterState) : Prop :=
  ∃ tr, ws_log s' = ws_log s ++ tr ∧ Forall (planned_event self commit) tr.

#[export] Instance replays_preorder self commit : PreOrder (replays self commit).
Proof.
  split.
  - intros s. exists []. split; [by rewrite app_nil_r|constructor].
  - intros s1 s2 s3 (tr1 & Hl1 & HF1) (tr2 & Hl2 & HF2). exists (tr1 ++ tr2).
    split; [by rewrite Hl2, Hl1, app_assoc|]. by apply Forall_app.
Qed.

Lemma sink_write_replays (self : ClickHouseSink) (commit : SinkCommit T) (s : WriterState) :
  nanos (initial_backoff (cw_config (chs_writer self))) ≤ duration_max →
  replays self commit s (sink_write self commit s).1.
Proof.
  intros Hdur. simpl. pose proof (run_holds _ _ s (write_spec self commit Hdur)) as Hrun.
  destruct (run (write self commit) s) as [s' r]. destruct Hrun as (evs & (Hreqs & _) & Hlog & _).
  by exists (http_events evs).
Qed.

(** A write that is dropped: before it does anything, or at one of its
    awaits. *)
Definition cancelled_write (self : ClickHouseSink) (commit : SinkCommit T) (s s' : WriterState) : Prop :=
  s' = s ∨ ∃ n, cancel n (write self commit) s = Some s'.

Lemma cancelled_write_events (self : ClickHouseSink) (commit : SinkCommit T) (s s' : WriterState) :
  nanos (initial_backoff (cw_config (chs_writer self))) ≤ duration_max →
  cancelled_write self commit s s' → replays self commit s s' ∧ same_commits s s'.
Proof.
  intros Hdur [->|[n Hn]]; [by split; [apply replays_preorder|]|].
  destruct (cancel_holds n _ _ s s' (write_spec self commit Hdur) Hn) as (before & c & Hpoint & Hc & Hlog & Hmet).
  destruct Hpoint as (Hreqs & Hreq & _ & Hun). specialize (Hun Hc). split.
  - exists (http_events (before ++ abandoned c)). split; [done|]. rewrite http_events_app. apply Forall_app. split; [done|].
    destruct c; try done. by constructor.
  - unfold same_commits. rewrite Hmet, ops_app. assert (ops (abandoned c) = []) as -> by (by destruct c). rewrite app_nil_r.
    by destruct (apply_metrics_uncommitted (ops before) (ws_metrics s) Hun) as [-> ->].
Qed.

(** Nothing is ever verified after the fact: the status is always unknown. *)
Lemma write_loop_committed env (self : ClickHouseSink) (commit : SinkCommit T) source_id max_attempts fuel :
  ∀ attempt (s : RetryState (T := T)) a s' x,
  write_loop env fuel self commit source_id attempt max_attempts s = (Some a, s') → wa_inner a = Ok x →
  ∃ res w, x = WSCommitted res ∧ sink_write self commit w = (rs_world s', Ok res).
Proof.
  induction fuel as [|fuel IH]; intros attempt s a s' x; [done|]. cbn [write_loop].
  assert (∀ a1 e (s0 : RetryState (T := T)), (retry_or_fail env source_id attempt max_attempts e s0).1 = Some a1 → wa_inner a1 = Ok x → False) as Hretry.
  { intros a1 e s0. unfold retry_or_fail. destruct (_ <=? _); [by intros [= <-]|].
    destruct (sleep_with_abort _ _ _) as [[] ?]; [done|]. by intros [= <-]. }
  destruct (attempt_once _ _ _ _ _ _ s) as [[a1|] s1] eqn:Honce; [|apply IH].
  intros [= <- <-] Hx. unfold attempt_once in Honce.
  destruct (env (rs_polls s)) as [slow|slow partial]; [|injection Honce as <- <-; done].
  destruct (sink_write self commit (rs_world s)) as [w [r|[e|e|e]]] eqn:Hw.
  - injection Honce as <- <-. injection Hx as <-. by exists r, (rs_world s).
  - exfalso. eapply (Hretry a1 e); [|exact Hx]. by rewrite Honce.
  - set (s1' := after_call w _ s) in Honce.
    destruct (env (rs_polls s1')) as [slow1|slow1 partial1]; [|injection Honce as <- <-; done].
    exfalso. eapply (Hretry a1 e); [|exact Hx]. unfold check_committed in Honce. simpl in Honce. by rewrite Honce.
  - injection Honce as <- <-. done.
Qed.

(** C29: retrying a commit replays its inserts.  However the runtime's retry
    loop goes (ambiguous failures, backoffs, and aborts that drop the write at
    any of its awaits, with a request on its way), every request it made the
    sink send is a request of the commit's one plan, with that chunk's token
    and body; and success means that a last complete write returned [Ok], never
    that a status check answered. *)
Theorem retries_replay_the_plan (env : nat → Select WriterState) (self : ClickHouseSink) (commit : SinkCommit T)
    (options : RuntimeOptions) (source_id : SourceId) (s : WriterState) (m : RuntimeMetrics)
    (a : WriteAttempt) (st : RetryState)
    (Hdur : nanos (initial_backoff (cw_config (chs_writer self))) ≤ duration_max)
    (Haborts : ∀ i slow partial w, env i = Abort slow partial → cancelled_write self commit w (partial w))
    (Hrun : write_with_retry env self commit options source_id (retry_start s m) = (Some a, st)) :
  replays self commit s (rs_world st) ∧
  ∀ x, wa_inner a = Ok x → ∃ res w, x = WSCommitted res ∧ sink_write self commit w = (rs_world st, Ok res).
Proof.
  split; [|intros x; by eapply write_loop_committed].
  change st with (Some a, st).2. rewrite <- Hrun.
  apply (write_loop_world env (replays self commit) self commit); [by intros; apply sink_write_replays|done|].
  intros i slow partial w Hi. by eapply cancelled_write_events, Haborts.
Qed.
End composed.

(** ** Delivery *)

Section delivery.
Context {W T : Type} `{Reqwest W} `{SerdeJson} `{P : OtlpProto} `{TypedRecords T} `{AsLogs T} `{Sha256}.

(** The requests the server acknowledged, in order. *)
Definition acked_requests (log : list (HttpEvent (W := W))) : list Request :=
  omap (λ ev, match ev with Sent req a => if acked a then Some req else None | _ => None end) log.

Lemma acked_requests_app l1 l2 : acked_requests (l1 ++ l2) = acked_requests l1 ++ acked_requests l2.
Proof. apply omap_app. Qed.

Lemma acked_requests_chunk (writer : ClickHouseWriter) chunk tr :
  chunk_acked writer chunk tr →
  ∃ body, serialize (cw_serializer writer) chunk = Ok body ∧ acked_requests tr = [chunk_request writer chunk body].
Proof.
  intros (body & answers & a & Hser & -> & Hamb & Ha). exists body. split; [done|].
  rewrite acked_requests_app. cbn [acked_requests omap list_omap]. rewrite Ha.
  assert (∀ from, acked_requests (retry_events (chunk_request writer chunk body)
    (initial_backoff (cw_config writer)) from answers) = []) as ->; [|done].
  induction Hamb as [|a' answers Ha' _ IH]; intros from; [done|]. rewrite retry_events_cons.
  cbn [acked_requests omap list_omap]. rewrite (ambiguous_not_acked a') by done. apply IH.
Qed.

Lemma acked_requests_chunks (writer : ClickHouseWriter) chunks traces bodies :
  Forall2 (chunk_acked writer) chunks traces →
  Forall2 (λ c body, serialize (cw_serializer writer) c = Ok body) chunks bodies →
  Forall2 (λ req body, ∃ sql, req_body req = as_bytes sql ++ [u8_of_N 10] ++ body)
    (acked_requests (concat traces)) bodies.
Proof.
  intros Hall. revert bodies. induction Hall as [|c tr chunks traces Hc _ IH]; intros bodies Hb.
  - apply Forall2_nil_inv_l in Hb as ->. constructor.
  - apply Forall2_cons_inv_l in Hb as (body & bodies' & Hbody & Hb & ->). cbn [concat]. rewrite acked_requests_app.
    destruct (acked_requests_chunk _ _ _ Hc) as (body' & Hser & ->).
    assert (body' = body) as -> by congruence. constructor; [|by apply IH].
    by exists (render_insert_sql_clean c (format (cw_serializer writer))).
Qed.

(** A plan whose chunks were all acknowledged: what the server then holds. *)
Lemma planned_delivers (self : ClickHouseSink (A := OtlpLogsClickHouseAdapter)) (commit : SinkCommit T)
    (typed : T) (logs : TypedDecodedLogs) selected chunks (evs : list WriterEvent) (res : SinkCommitResult)
    (Hformat : cw_serializer (chs_writer self) = build_serializer RowBinary)
    (Hversion : is_u32 (adapter_version (oca_config (chs_adapter self))))
    (Htyped : db_records (sc_batch commit) = Typed typed) (Hlogs : as_logs typed = Some logs)
    (Hrecords : Forall record_ok (records logs))
    (Hplan : write_plan self commit = Ok (selected, chunks))
    (Hended : write_ended self selected chunks evs (Ok res)) :
  ∃ bodies served sorted,
    Forall2 (λ req body, ∃ sql, req_body req = as_bytes sql ++ [u8_of_N 10] ++ body) (acked_requests (http_events evs)) bodies ∧
    Forall2 (λ body t, read_body body = Some (COLUMNS, COLUMN_TYPES, t)) bodies served ∧
    concat served = (λ r, view_row (log_row (oca_config (chs_adapter self)) r)) <$> sorted ∧
    sorted ≡ₚ records logs ∧ StronglySorted key_le sorted ∧
    scr_rows_written res = N.of_nat (length (records logs)).
Proof.
  destruct Hended as ((traces & -> & Hacked) & Hrows & _).
  apply write_plan_ok in Hplan as (logs' & typed' & Ht & Hl & -> & _ & Hplan & _).
  assert (logs' = logs) as -> by congruence.
  destruct (planned_bodies_spec (chs_adapter self) {| cab_identity := sc_identity commit; cab_records := records logs;
    cab_bytes := sum_N (approx_size_bytes <$> records logs) |} chunks Hversion Hrecords Hplan)
    as (bodies & served & sorted & Hser & Hread & Hperm & Hsorted & Hcat).
  exists bodies, served, sorted. split_and!; try done.
  eapply acked_requests_chunks; [exact Hacked|]. rewrite Hformat. exact Hser.
Qed.

Lemma write_delivers (self : ClickHouseSink (A := OtlpLogsClickHouseAdapter)) (commit : SinkCommit T)
    (typed : T) (logs : TypedDecodedLogs) (s s' : WriterState) (res : SinkCommitResult)
    (Hdur : nanos (initial_backoff (cw_config (chs_writer self))) ≤ duration_max)
    (Hformat : cw_serializer (chs_writer self) = build_serializer RowBinary)
    (Hversion : is_u32 (adapter_version (oca_config (chs_adapter self))))
    (Htyped : db_records (sc_batch commit) = Typed typed) (Hlogs : as_logs typed = Some logs)
    (Hrecords : Forall record_ok (records logs))
    (Hwrite : sink_write self commit s = (s', Ok res)) :
  ∃ tr bodies served sorted,
    ws_log s' = ws_log s ++ tr ∧
    Forall2 (λ req body, ∃ sql, req_body req = as_bytes sql ++ [u8_of_N 10] ++ body) (acked_requests tr) bodies ∧
    Forall2 (λ body t, read_body body = Some (COLUMNS, COLUMN_TYPES, t)) bodies served ∧
    concat served = (λ r, view_row (log_row (oca_config (chs_adapter self)) r)) <$> sorted ∧
    sorted ≡ₚ records logs ∧ StronglySorted key_le sorted ∧
    scr_rows_written res = N.of_nat (length (records logs)).
Proof.
  pose proof (run_holds _ _ s (write_spec self commit Hdur)) as Hrun. simpl in Hwrite. rewrite Hwrite in Hrun.
  destruct Hrun as (evs & (_ & _ & Hend) & Hlog & _).
  destruct (write_plan self commit) as [[selected chunks]|f] eqn:Hplan; [|by destruct Hend as (_ & ? & _)].
  exists (http_events evs).
  destruct (planned_delivers self commit typed logs selected chunks evs res Hformat Hversion Htyped Hlogs Hrecords Hplan Hend)
    as (bodies & served & sorted & Hdel). by exists bodies, served, sorted.
Qed.

End delivery.

(** ** A concrete sink *)

Definition demo_logs (rs : list DecodedLogRecord) : TypedDecodedLogs := TypedDecodedLogs_new rs.
Definition demo_commit (rs : list DecodedLogRecord) : SinkCommit TypedDecodedLogs := {|
  sc_identity := cab_identity (demo_batch rs);
  sc_batch := {| db_source := mkSourceId "test"; db_low_sequence := 7; db_high_sequence := 7; db_source_entry_count := 2;
                 db_records := Typed (demo_logs rs);
                 db_source_columns := {| scc_manifest_path := "m"; scc_data_path := "d"; scc_sequences := [];
                   scc_entry_indices := []; scc_record_indices := []; scc_ingestion_time_ms := [] |};
                 db_stats := {| source_byte_count := 0; decoded_byte_estimate := 0 |};
                 db_schema_version := mkSchemaVersion 1 |} |}.
Definition demo_sink : ClickHouseSink := ClickHouseSink_new_with_metrics (mkSinkId "clickhouse_logs") demo_adapter demo_writer.



Lemma retries_replay_the_plan_witness :
  ∃ a st, write_with_retry (λ _, Proceed false) demo_sink (demo_commit demo_sorted) RuntimeOptions_default (mkSourceId "buffer")
      (retry_start (demo_state [demo_answer 500; demo_answer 500; demo_answer 500]) RuntimeMetrics_new) = (Some a, st) ∧
    demo_view (ws_log (rs_world st)) = [inl 500; inr 100; inl 500; inr 200; inl 500; inl 200; inl 200] ∧
    replays demo_sink (demo_commit demo_sorted) (demo_state [demo_answer 500; demo_answer 500; demo_answer 500]) (rs_world st) ∧
    ∃ x res w, wa_inner a = Ok x ∧ x = WSCommitted res ∧ sink_write demo_sink (demo_commit demo_sorted) w = (rs_world st, Ok res).
Proof.
  set (s := demo_state _).
  destruct (write_with_retry _ _ _ _ _ (retry_start s _)) as [oa st] eqn:Hrun.
  assert (match oa with Some a => is_ok (wa_inner a) | None => false end = true) as Hok
    by (change oa with (oa, st).1; rewrite <- Hrun; vm_compute; reflexivity).
  destruct oa as [a|]; [|discriminate Hok].
  destruct (retries_replay_the_plan (λ _, Proceed false) demo_sink (demo_commit demo_sorted) RuntimeOptions_default
    (mkSourceId "buffer") s RuntimeMetrics_new a st) as [Hr Hx].
  - by vm_compute.
  - intros i slow partial w [=].
  - exact Hrun.
  - exists a, st. split; [reflexivity|]. split; [|split; [exact Hr|]].
    + change st with (Some a, st).2. rewrite <- Hrun. vm_compute. reflexivity.
    + destruct (wa_inner a) as [x|e]; [|discriminate Hok]. destruct (Hx x eq_refl) as (res & w & Hxr & Hw).
      exists x, res, w. split; [reflexivity|]. split; [exact Hxr|exact Hw].
Defined.
