(* ===== verification/SinkConcurrency.v ===== *)
(** * Concurrent writes on one sink
    (plugins/opendata-ingest-clickhouse/src/{sink,writer}.rs under the writer
    workers of runtime.rs)

    The writer workers of a source share one sink: their calls of
    [Sink::write] take turns at every request, answer, backoff and update of a
    metric, and an abort drops a call at the await it stands at.  Every
    schedule of such calls is a run of a pool of the sink's futures; what
    [ClickHouseSink] states of one write alone holds of each of them here. *)

From Stdlib Require Import ZArith NArith Lia.
From S2P Require Import Prelude.
From S2P Require Import BTree.
From S2P Require Import Types.
From S2P Require Import Options.
From S2P Require Import Metrics.
From S2P Require Import Async.
From S2P Require Import ClickHouseMetrics.
From S2P Require Import OtlpLogs.
From S2P Require Import RowValue.
From S2P Require Import LogsAdapter.
From S2P Require Import Serializer.
From S2P Require Import Writer.
From S2P Require Import ClickHouseSink.
Local Open Scope N_scope.

Section concurrency.
Context {W T A : Type} `{Reqwest W} `{SerdeJson} `{P : OtlpProto} `{TypedRecords T} `{AsLogs T} `{Adapter A}.
Context (self : ClickHouseSink (A := A)).
Context (Hdur : nanos (initial_backoff (cw_config (chs_writer self))) ≤ duration_max).

(** A worker calls [write]; a call makes its next step; a call is dropped. *)
Inductive WriteEvent :=
| Begin (commit : SinkCommit T)
| Step (i : nat)
| Cancel (i : nat).

Abbreviation Outcome := (result SinkCommitResult SinkCommitFailure).
Abbreviation WriteSlot := (Slot (answer := answer (W := W)) Outcome).
Abbreviation Writes := (Pool (answer := answer (W := W)) (Ev := WriterEvent (W := W)) (St := WriterState) Outcome).

Definition pool_event (ev : WriteEvent) : PoolEvent (answer := answer) Outcome :=
  match ev with Begin commit => Spawn (write self commit) | Step i => Poll i | Cancel i => Drop i end.

Definition concurrent_writes (evs : list WriteEvent) (s : WriterState) : option Writes :=
  pool_run observe_call handle suspends abandon abandoned (pool_event <$> evs) (pool_start s).

(** The commits of the calls, in the order of the slots. *)
Definition begun (evs : list WriteEvent) : list (SinkCommit T) :=
  omap (λ ev, match ev with Begin commit => Some commit | _ => None end) evs.

Lemma spawned_begun evs : spawned (pool_event <$> evs) = write self <$> begun evs.
Proof.
  induction evs as [|ev evs IH]; [done|]. cbn [fmap list_fmap spawned omap list_omap begun].
  destruct ev; simpl; [f_equal|..]; exact IH.
Qed.

(** The events of one call. *)
Definition events_of (i : nat) (p : Writes) : list WriterEvent := own i (history p).

(** What a slot tells of its call. *)
Definition slot_point (commit : SinkCommit T) (tr : list WriterEvent) (slot : WriteSlot) : Prop :=
  match slot with
  | Running q => write_point self commit tr (here q)
  | Dropped c => suspends c = true ∧ ∃ before, tr = before ++ abandoned c ∧ write_point self commit before (Waiting c)
  end.

Lemma writes_hold evs s (p : Writes) i commit slot :
  concurrent_writes evs s = Some p → begun evs !! i = Some commit → slots p !! i = Some slot →
  slot_point commit (events_of i p) slot.
Proof using Hdur.
  intros Hrun Hi Hslot. unfold events_of.
  pose proof (pool_holds observe_call handle tracks tracks_nil tracks_app tracks_call suspends abandon abandoned
    tracks_abandon s (pool_event <$> evs) p i (write self commit) slot (write_point self commit) Hrun) as Hp.
  rewrite spawned_begun, list_lookup_fmap, Hi in Hp.
  specialize (Hp eq_refl Hslot (write_spec self commit Hdur)). by destruct slot.
Qed.

Lemma writes_state evs s (p : Writes) :
  concurrent_writes evs s = Some p → tracks s (history p).*2 (pool_state p) ∧ length (slots p) = length (begun evs).
Proof.
  intros Hrun. pose proof (pool_run_ok observe_call handle tracks tracks_nil tracks_app tracks_call suspends abandon
    abandoned tracks_abandon s (pool_event <$> evs) p Hrun) as (Ht & Hlen & _).
  split; [exact Ht|]. by rewrite Hlen, spawned_begun, length_fmap.
Qed.

Lemma slot_begun evs s (p : Writes) i slot :
  concurrent_writes evs s = Some p → slots p !! i = Some slot → ∃ commit, begun evs !! i = Some commit.
Proof.
  intros Hrun Hi%lookup_lt_Some. apply writes_state in Hrun as [_ Hlen]. rewrite Hlen in Hi.
  by apply lookup_lt_is_Some_2.
Qed.

(** C11: concurrent writes do not disturb each other.  Whatever the schedule of
    the calls and whichever of them are dropped at an await, the shared log
    holds the events of the calls and no others, and each call on its own
    behaves as a call that runs alone: its requests are those of its commit's
    plan; when it has returned, the result, the requests of its own it rests
    on, and what it counted are those of [sink_write_exact]; when it was
    dropped, it has counted nothing as committed. *)
Theorem concurrent_writes_exact (evs : list WriteEvent) (s : WriterState) (p : Writes)
    (Hrun : concurrent_writes evs s = Some p) :
  ws_log (pool_state p) = ws_log s ++ http_events (history p).*2 ∧
  length (slots p) = length (begun evs) ∧
  ∀ i commit slot, begun evs !! i = Some commit → slots p !! i = Some slot →
    let tr := events_of i p in
    Forall (planned_event self commit) (http_events tr) ∧
    match slot with
    | Running (Ready r) =>
        match write_plan self commit with
        | Err f => tr = [] ∧ r = Err f ∧ ∃ e, f = Fatal e
        | Ok (selected, chunks) => write_ended self selected chunks tr r
        end
    | Running (Call _ _) => True
    | Dropped _ => Forall (λ op, uncommitted op = true) (ops tr)
    end.
Proof using Hdur.
  pose proof (writes_state evs s p Hrun) as [[Hlog _] Hlen]. split; [exact Hlog|]. split; [exact Hlen|].
  intros i commit slot Hi Hslot tr. pose proof (writes_hold evs s p i commit slot Hrun Hi Hslot) as Hp. fold tr in Hp.
  destruct slot as [[r|c k]|c]; cbn [slot_point] in Hp.
  - destruct Hp as (Hreqs & _ & Hend). by split.
  - by destruct Hp as (Hreqs & _).
  - destruct Hp as (Hc & before & -> & Hreqs & Hreq & _ & Hun). rewrite http_events_app, ops_app. split.
    + apply Forall_app. split; [exact Hreqs|]. destruct c; try done. by constructor.
    + assert (ops (abandoned c) = []) as -> by (by destruct c). rewrite app_nil_r. by apply Hun.
Qed.

(** ** The in-flight gauge *)

(** A slot whose request is on its way, or was when the call was dropped. *)
Definition in_flight (slot : WriteSlot) : Z :=
  match slot with
  | Running (Call (CSend _ _) _) | Running (Call (CEmit (InflightDec _)) _) => 1
  | Dropped (CSend _ _) => 1
  | _ => 0
  end.

Lemma slot_in_flight commit tr slot l :
  slot_point commit tr slot →
  inflight l (ops tr) = if decide (http_mode_label (chs_writer self) = l) then in_flight slot else 0%Z.
Proof.
  destruct slot as [[r|c k]|c]; cbn [slot_point].
  - intros (_ & Hg & _). rewrite Hg. by case_decide.
  - intros (_ & _ & Hg & _). rewrite Hg. destruct c; cbn [busy in_flight]; try by case_decide.
    destruct op; by case_decide.
  - intros (Hc & before & -> & _ & _ & Hg & _). rewrite ops_app, inflight_app, Hg.
    destruct c; try done; simpl; case_decide; done.
Qed.

(** C27: what the gauge of the requests in flight shows.  Under any schedule
    the gauge of the sink's HTTP mode stands at its first value plus one for
    every call that waits for an answer, and plus one for every call that was
    dropped while it waited: the decrement comes after the await, so an aborted
    call leaves the gauge high for good.  It is never below its first value nor
    above it by more than the number of calls; the other modes do not move. *)
Theorem inflight_gauge_bounds (evs : list WriteEvent) (s : WriterState) (p : Writes) (l : string)
    (Hrun : concurrent_writes evs s = Some p) :
  let gauge st := default 0%Z (http_concurrent_inflight (ws_metrics st) !! l) in
  let own := if decide (http_mode_label (chs_writer self) = l) then sum_Z (in_flight <$> slots p) else 0%Z in
  gauge (pool_state p) = (gauge s + own)%Z ∧ (0 ≤ own ≤ Z.of_nat (length (begun evs)))%Z.
Proof using Hdur.
  intros gauge own_requests. pose proof (writes_state evs s p Hrun) as [[_ Hmet] Hlen].
  set (w := λ slot, if decide (http_mode_label (chs_writer self) = l) then in_flight slot else 0%Z).
  assert (inflight l (ops (history p).*2) = sum_Z (w <$> slots p)) as Hsum.
  { rewrite (pool_sum observe_call handle tracks tracks_nil tracks_app tracks_call suspends abandon abandoned
      tracks_abandon s _ p (λ evs, inflight l (ops evs)) (λ _, w) Hrun).
    - exact (f_equal sum_Z (imap_const w _)).
    - done.
    - intros l1 l2. by rewrite ops_app, inflight_app.
    - intros i slot Hslot. destruct (slot_begun evs s p i slot Hrun Hslot) as [commit Hi].
      by apply (slot_in_flight commit), (writes_hold evs s p i). }
  assert (sum_Z (w <$> slots p) = own_requests) as Hown.
  { unfold w, own_requests. case_decide; [done|]. apply sum_Z_zero, Forall_fmap. by apply Forall_true. }
  split.
  - unfold gauge. by rewrite Hmet, apply_metrics_inflight, Hsum, Hown.
  - rewrite <- Hown, <- Hlen.
    pose proof (sum_Z_bounds (w <$> slots p) 0 1) as Hb. rewrite length_fmap in Hb.
    assert (Forall (λ x, 0 ≤ x ≤ 1)%Z (w <$> slots p)) as Hall; [|specialize (Hb Hall); lia].
    apply Forall_fmap, Forall_true. intros slot. unfold w, in_flight. simpl. repeat case_match; lia.
Qed.

(** ** The commit counters *)

Definition record_run_id (rec : DecodedLogRecord) : string :=
  default UNKNOWN_RUN_ID_LABEL (bt_get ODB_RUN_ID_ATTR (log_attributes rec)).

Lemma bucket_rows_lookup rs l :
  default 0 (bucket_rows_by_run_id rs !! l) = N.of_nat (length (filter (λ r, record_run_id r = l) rs)).
Proof.
  induction rs as [|r rs IH] using rev_ind; [done|]. unfold bucket_rows_by_run_id in *. rewrite foldl_app, filter_app, length_app.
  cbn [foldl]. fold (record_run_id r). rewrite filter_cons, filter_nil. set (counts := foldl _ ∅ rs) in *.
  destruct (decide (record_run_id r = l)) as [<-|Hne].
  - rewrite lookup_insert_eq. simpl. rewrite IH. lia.
  - rewrite lookup_insert_ne by done. simpl. rewrite IH. lia.
Qed.

Lemma count_committed_counts selected bytes l :
  committed_rows l (count_committed (bucket_rows_by_run_id selected) bytes) =
    N.of_nat (length (filter (λ r, record_run_id r = l) selected)) ∧
  committed_bytes (count_committed (bucket_rows_by_run_id selected) bytes) = bytes.
Proof.
  unfold count_committed. rewrite committed_rows_app, committed_bytes_app, committed_rows_table, bucket_rows_lookup. split.
  - simpl. change (committed_rows l [CommitBytes bytes]) with 0. lia.
  - assert (∀ kvs : list (string * N), committed_bytes ((λ kv, RowsCommitted kv.1 kv.2) <$> kvs) = 0) as ->
      by (intros kvs; induction kvs as [|kv kvs IH]; [done|exact IH]).
    change (committed_bytes [CommitBytes bytes]) with (bytes + 0). lia.
Qed.

(** What a slot has committed. *)
Definition records_of (commit : SinkCommit T) (slot : WriteSlot) : list DecodedLogRecord :=
  match slot, write_plan self commit with
  | Running (Ready (Ok _)), Ok (selected, _) => selected
  | _, _ => []
  end.
Definition bytes_of (slot : WriteSlot) : N := match slot with Running (Ready (Ok res)) => scr_bytes_written res | _ => 0 end.

(** A call is at an await, or over. *)
Definition at_rest (slot : WriteSlot) : Prop := match slot with Running (Call c _) => suspends c = true | _ => True end.

Lemma slot_counts commit tr slot l :
  slot_point commit tr slot → at_rest slot →
  committed_rows l (ops tr) = N.of_nat (length (filter (λ r, record_run_id r = l) (records_of commit slot))) ∧
  committed_bytes (ops tr) = bytes_of slot.
Proof.
  destruct slot as [[r|c k]|c]; cbn [slot_point at_rest records_of bytes_of].
  - intros (_ & _ & Hend) _. destruct r as [res|f].
    + destruct (write_plan self commit) as [[selected chunks]|f]; [|by destruct Hend as (_ & ? & _)].
      destruct Hend as (_ & _ & _ & inserts & Hun & ->). rewrite committed_rows_app, committed_bytes_app.
      destruct (uncommitted_counts l inserts Hun) as [-> ->].
      destruct (count_committed_counts selected (scr_bytes_written res) l) as [-> ->]. lia.
    + assert (Forall (λ op, uncommitted op = true) (ops tr)) as Hun.
      { destruct (write_plan self commit) as [[selected chunks]|f']; [by destruct Hend|]. destruct Hend as [-> _]. constructor. }
      by apply uncommitted_counts.
  - intros (_ & _ & _ & Hun) Hc. destruct (uncommitted_counts l (ops tr) (Hun Hc)) as [-> ->].
    by destruct (write_plan self commit) as [[]|].
  - intros (Hc & before & -> & _ & _ & _ & Hun) _. rewrite ops_app.
    assert (ops (abandoned c) = []) as -> by (by destruct c). rewrite app_nil_r. by apply uncommitted_counts, Hun.
Qed.

Lemma sum_Z_concat {B D E} (Q : E → Prop) `{∀ x, Decision (Q x)} (g : B → D → list E) l1 : ∀ l2,
  sum_Z (zip_with (λ b d, Z.of_nat (length (filter Q (g b d)))) l1 l2) =
  Z.of_nat (length (filter Q (concat (zip_with g l1 l2)))).
Proof.
  induction l1 as [|b l1 IH]; intros [|d l2]; [done..|]. cbn [zip_with concat sum_Z foldr].
  rewrite filter_app, length_app. fold (sum_Z (zip_with (λ b d, Z.of_nat (length (filter Q (g b d)))) l1 l2)).
  rewrite IH. lia.
Qed.

End concurrency.

(** ** Three calls at work

    The first call is throttled once and goes through; the second is dropped
    while its first request is on its way; the third goes through in between. *)

Definition demo_schedule : list (WriteEvent (T := TypedDecodedLogs)) :=
  Begin (demo_commit demo_sorted) :: Begin (demo_commit demo_sorted) :: Begin (demo_commit demo_shuffled) ::
  concat (replicate 6 [Step 1; Step 0]) ++ [Step 0; Cancel 1] ++ concat (replicate 22 [Step 2; Step 0]) ++
  replicate 3 (Step 0).
Definition demo_server : WriterState := demo_state [demo_answer 429].

(** Rows of the calls that are over. *)
Definition demo_rows (p : Pool (answer := answer (W := list (result Response string))) (Ev := WriterEvent)
    (St := WriterState) (result SinkCommitResult SinkCommitFailure)) : list (option N) :=
  (λ slot, match slot with Running (Ready (Ok res)) => Some (scr_rows_written res) | _ => None end) <$> slots p.
Definition demo_at_rest (p : Pool (answer := answer (W := list (result Response string))) (Ev := WriterEvent)
    (St := WriterState) (result SinkCommitResult SinkCommitFailure)) : bool :=
  forallb (λ slot, match slot with Running (Call c _) => suspends c | _ => true end) (slots p).

Lemma concurrent_writes_exact_witness :
  ∃ p, concurrent_writes demo_sink demo_schedule demo_server = Some p ∧
    demo_view (ws_log (pool_state p)) = [inl 429; inl 499; inr 100; inl 200; inl 200; inl 200; inl 200] ∧
    demo_rows p = [Some 3; None; Some 3] ∧
    ws_log (pool_state p) = ws_log demo_server ++ http_events (history p).*2 ∧
    ∀ slot, slots p !! 1%nat = Some slot →
      Forall (planned_event demo_sink (demo_commit demo_sorted)) (http_events (events_of 1 p)).
Proof.
  destruct (concurrent_writes demo_sink demo_schedule demo_server) as [p|] eqn:Hrun;
    [|vm_compute in Hrun; discriminate Hrun].
  destruct (concurrent_writes_exact demo_sink ltac:(by vm_compute) demo_schedule demo_server p Hrun) as (Hlog & _ & Hslots).
  assert ((λ p, (demo_view (ws_log (pool_state p)), demo_rows p)) <$> concurrent_writes demo_sink demo_schedule demo_server =
    Some ([inl 429; inl 499; inr 100; inl 200; inl 200; inl 200; inl 200], [Some 3; None; Some 3])) as Hview
    by (vm_compute; reflexivity).
  rewrite Hrun in Hview. injection Hview as Hview Hrows. exists p. split; [reflexivity|]. split; [exact Hview|].
  split; [exact Hrows|]. split; [exact Hlog|]. intros slot Hslot.
  exact (proj1 (Hslots 1%nat (demo_commit demo_sorted) slot eq_refl Hslot)).
Defined.

Lemma inflight_gauge_bounds_witness :
  ∃ p, concurrent_writes demo_sink demo_schedule demo_server = Some p ∧ sum_Z (in_flight <$> slots p) = 1%Z ∧
    default 0%Z (http_concurrent_inflight (ws_metrics (pool_state p)) !! "per_call") = 1%Z.
Proof.
  destruct (concurrent_writes demo_sink demo_schedule demo_server) as [p|] eqn:Hrun;
    [|vm_compute in Hrun; discriminate Hrun].
  assert ((λ p, sum_Z (in_flight <$> slots p)) <$> concurrent_writes demo_sink demo_schedule demo_server = Some 1%Z)
    as Hsum by (vm_compute; reflexivity).
  rewrite Hrun in Hsum. injection Hsum as Hsum. exists p. split; [reflexivity|]. split; [exact Hsum|].
  destruct (inflight_gauge_bounds demo_sink ltac:(by vm_compute) demo_schedule demo_server p "per_call" Hrun) as [Hg _].
  rewrite decide_True in Hg by reflexivity. rewrite Hg, Hsum. reflexivity.
Defined.

