(* ===== verification/EndToEnd.v ===== *)
(** * The whole ingestor: from the buffer to the table

    The pipelined runtime with the OTLP logs decoder and the ClickHouse sink,
    over any buffer and any server.  What the theorems about the runtime, the
    decoder, the planner, the serializer and the writer say together: a record
    that the buffer will not hand out again is in the acknowledged inserts. *)

From Stdlib Require Import NArith Lia Sorted.
From stdpp Require Import relations.
From S2P Require Import Prelude.
From S2P Require Import BTree.
From S2P Require Import Types.
From S2P Require Import AckCoordinator.
From S2P Require Import ByteBudget.
From S2P Require Import Source.
From S2P Require Import Options.
From S2P Require Import Metrics.
From S2P Require Import WriteRetry.
From S2P Require Import Decode.
From S2P Require Import Pipeline.
From S2P Require Import PipelineDemo.
From S2P Require Import PipelineResources.
From S2P Require Import PipelineWorkers.
From S2P Require Import PipelineSafety.
From S2P Require Import PipelineRestart.
From S2P Require Import PipelineProvenance.
From S2P Require Import Envelope.
From S2P Require Import OtlpLogs.
From S2P Require Import RowValue.
From S2P Require Import LogsAdapter.
From S2P Require Import Serializer.
From S2P Require Import Writer.
From S2P Require Import ClickHouseSink.
Local Open Scope N_scope.

Section end_to_end.
Context {C F W1 W : Type}.
Context `{ConsumerLaws C F W1} `{Reqwest W} `{SerdeJson} `{P : OtlpProto} `{Sha256}.

Abbreviation LogsSink := (ClickHouseSink (A := OtlpLogsClickHouseAdapter)).
Abbreviation LogsBuilder := (RuntimeBuilder C F OtlpLogsDecoder LogsSink).
Abbreviation LogsSys := (Sys C F W1 (WriterState (W := W)) TypedDecodedLogs).

(** The log of requests only grows. *)
Definition log_grows (s s' : WriterState (W := W)) : Prop := ∃ tr, ws_log s' = ws_log s ++ tr.

#[export] Instance log_grows_preorder : PreOrder log_grows.
Proof.
  split.
  - intros s. exists []. by rewrite app_nil_r.
  - intros s1 s2 s3 [tr1 Htr1] [tr2 Htr2]. exists (tr1 ++ tr2). by rewrite Htr2, Htr1, app_assoc.
Qed.

(** The rows of [rs] are what the acknowledged requests of [tr] hold. *)
Definition delivered (config : LogsAdapterConfig) (rs : list DecodedLogRecord) (tr : list (HttpEvent (W := W))) : Prop :=
  ∃ bodies served sorted,
    Forall2 (λ req body, ∃ sql, req_body req = as_bytes sql ++ [u8_of_N 10] ++ body) (acked_requests tr) bodies ∧
    Forall2 (λ body t, read_body body = Some (COLUMNS, COLUMN_TYPES, t)) bodies served ∧
    concat served = (λ r, view_row (log_row config r)) <$> sorted ∧ sorted ≡ₚ rs ∧ StronglySorted key_le sorted.

Lemma decode_batch_records (decoder : OtlpLogsDecoder) batch d :
  decode_batch decoder batch = Ok [d] →
  ∃ rs, check_envelopes (expected decoder) batch = Ok tt ∧ decode_logs batch = Ok rs ∧
        db_records d = Typed (TypedDecodedLogs_new rs).
Proof.
  unfold decode_batch, check_envelopes. destruct (decode_envelopes batch) as [envs|e]; [|done]. simpl.
  destruct (validate_consistent envs (expected decoder)) as [[]|e]; [|done]. simpl.
  destruct (decode_logs batch) as [rs|e]; [|done]. intros [= <-]. by exists rs.
Qed.

(** The runtime holds its sink as a [dyn Sink]: [K] is any type of sinks, and
    [cf_sink cf] one that behaves as the ClickHouse sink [sink]. *)
Lemma confirmed_delivered {K} `{HK : Sink K (WriterState (W := W)) TypedDecodedLogs} (sink : LogsSink)
    (evs : list SysEvent) (b : RuntimeBuilder C F OtlpLogsDecoder K) (w1 : W1)
    (w2 : WriterState (W := W)) (cf : Config F OtlpLogsDecoder K) (s : LogsSys) (q : N) :
  run_by evs b w1 w2 cf s → Forall (sink_event_within log_grows) evs →
  (∀ commit w, sink_write (cf_sink cf) commit w = sink_write sink commit w) →
  (∀ id w, check_committed (cf_sink cf) id w = (w, Ok CSUnknown)) →
  nanos (initial_backoff (cw_config (chs_writer sink))) ≤ duration_max →
  cw_serializer (chs_writer sink) = build_serializer RowBinary →
  is_u32 (adapter_version (oca_config (chs_adapter sink))) →
  confirmed q (s_trace (sy_shared s)) →
  ∃ d batch rs,
    sbd_sequence d = q ∧ (∃ w w', Source.fetch (cf_handle cf) d w = (w', Ok batch)) ∧
    check_envelopes (expected (cf_decoder cf)) batch = Ok tt ∧ decode_logs batch = Ok rs ∧
    (Forall record_ok rs →
     ∃ before tr after, ws_log (s_w2 (sy_shared s)) = before ++ tr ++ after ∧
       delivered (oca_config (chs_adapter sink)) rs tr).
Proof.
  intros Hrun Hevs Hsw Hsc Hdur Hformat Hversion Hconf.
  destruct (run_traced _ _ _ _ _ _ Hrun) as (rt & s0 & _ & _ & Hexec & Htr).
  destruct (confirmed_origin _ _ _ _ Htr Hconf) as (commit & (batch & decoded & Hfetched & Hdec & _ & ->) & Hcall).
  destruct Hfetched as (d & _ & Hseq & (_ & _ & _ & sf & sf' & _ & _ & _ & Hfetch)).
  apply decode_checked_ok in Hdec as (_ & Hdec & _ & _).
  destruct (decode_batch_records _ _ _ Hdec) as (rs & Henv & Hrs & Hrecords).
  exists d, batch, rs. split_and!; try done; [by do 2 eexists|]. intros Hok.
  destruct Hcall as [(res & _ & Hwrite)|Hcheck]; cycle 1.
  { destruct Hcheck as (_ & _ & _ & s1 & s2 & _ & _ & _ & Hcheck). rewrite Hsc in Hcheck. by injection Hcheck. }
  assert (∀ commit w, log_grows w (sink_write (cf_sink cf) commit w).1) as Hgrow.
  { intros commit w. rewrite Hsw. destruct (sink_write_replays sink commit w Hdur) as (tr & Hl & _). by exists tr. }
  assert (∀ id w, log_grows w (check_committed (cf_sink cf) id w).1) as Hgrow' by (intros id w; by rewrite Hsc).
  destruct (during_world cf log_grows Hgrow Hgrow' evs s0 s _ Hevs Hexec Hwrite) as (s1 & s2 & Hw & _ & [after Hafter]).
  rewrite Hsw in Hw.
  assert (as_logs (TypedDecodedLogs_new rs) = Some (TypedDecodedLogs_new rs)) as Has by done.
  destruct (write_delivers sink (build_commit (sink_id (cf_sink cf)) q q decoded) (TypedDecodedLogs_new rs)
              (TypedDecodedLogs_new rs) _ _ res Hdur Hformat Hversion Hrecords Has Hok Hw)
    as (tr & bodies & served & sorted & Hlog & H1' & H2' & H3' & H4' & H5' & _).
  exists (ws_log (s_w2 (sy_shared s1))), tr, after. split; [by rewrite Hafter, Hlog, app_assoc|].
  by exists bodies, served, sorted.
Qed.

(** No acknowledged record is lost.  In every run of the runtime with the
    logs decoder and the ClickHouse sink writing RowBinary, whatever the
    scheduling, the server's answers, the retries and the aborts: if an
    admitted sequence is covered by an acknowledgement, or by the durable
    cursor, then the source was asked for that sequence and answered a batch
    whose entries passed the envelope check and decoded to records, and the
    log of requests has a part whose acknowledged inserts, read back as the
    server reads them, hold one row per record, with its values. *)
Theorem acknowledged_records_are_delivered (evs : list SysEvent) (b : LogsBuilder) (w1 : W1)
    (w2 : WriterState (W := W)) (cf : Config F OtlpLogsDecoder LogsSink) (s : LogsSys)
    (Hrun : run_by evs b w1 w2 cf s) (Hbase : baseline_u64 b) (Hopened : well_opened b w1)
    (Hevs : Forall ev_ok evs) (Hsink : Forall (sink_event_within log_grows) evs)
    (Hdur : nanos (initial_backoff (cw_config (chs_writer (cf_sink cf)))) ≤ duration_max)
    (Hformat : cw_serializer (chs_writer (cf_sink cf)) = build_serializer RowBinary)
    (Hversion : is_u32 (adapter_version (oca_config (chs_adapter (cf_sink cf))))) :
  ∀ f q, f ∈ acks (s_trace (sy_shared s)) ∨ durable (source_of s) = Some f →
    q ∈ admits (s_trace (sy_shared s)) → q ≤ f →
  ∃ d batch rs,
    sbd_sequence d = q ∧ (∃ w w', Source.fetch (cf_handle cf) d w = (w', Ok batch)) ∧
    check_envelopes (expected (cf_decoder cf)) batch = Ok tt ∧ decode_logs batch = Ok rs ∧
    (Forall record_ok rs →
     ∃ before tr after, ws_log (s_w2 (sy_shared s)) = before ++ tr ++ after ∧
       delivered (oca_config (chs_adapter (cf_sink cf))) rs tr).
Proof.
  intros f q Hf Hq Hle. apply (confirmed_delivered (cf_sink cf) evs b w1 w2 cf s q); try done.
  by eapply covered_confirmed.
Qed.
End end_to_end.

(** ** A concrete run

    One data object with two entries of OTLP logs; the server answers the first
    insert with 429 and then acknowledges. *)

Abbreviation HttpWorld := (list (result Response string)).
Abbreviation E2EEvent := (SysEvent (W1 := LogWorld) (W2 := WriterState (W := HttpWorld))).

Definition e2e_world : LogWorld := {|
  lw_batches := [([[u8_of_N 2]; [u8_of_N 1]],
                  [{| start_index := 0; bm_ingestion_time_ms := 99; bm_payload := u8_of_N <$> [1; 2; 1; 0] |}])];
  lw_durable := None; lw_failing_acks := 0 |}.

Definition e2e_builder : RuntimeBuilder LogConsumer unit OtlpLogsDecoder (ClickHouseSink (A := OtlpLogsClickHouseAdapter)) :=
  with_options (demo_options false) (set_sink demo_sink (add_decoder OtlpLogsDecoder_new (add_source log_source builder))).

Definition e2e_events : list E2EEvent :=
  replicate 4 (EvActor (polls false false true)) ++ replicate 3 (EvFetch 0 ArmWork) ++
  replicate 3 (EvDecode 0 ArmWork) ++ replicate 4 (EvWrite 0 ArmWork (Proceed false)) ++
  [EvActor (polls false true false)].

Definition e2e_config : Config unit OtlpLogsDecoder (ClickHouseSink (A := OtlpLogsClickHouseAdapter)) := {|
  cf_options := demo_options false; cf_decoder := OtlpLogsDecoder_new; cf_sink := demo_sink;
  cf_handle := fetch_handle log_source; cf_source_id := bs_id log_source |}.

Definition e2e_run : option (Sys LogConsumer unit LogWorld (WriterState (W := HttpWorld)) TypedDecodedLogs) :=
  match build e2e_builder with
  | Ok rt =>
      match run_start rt e2e_world (demo_state [demo_answer 429]) with
      | Ok s0 => exec_all (run_config rt) e2e_events s0
      | Err _ => None
      end
  | Err _ => None
  end.

Lemma e2e_run_by s :
  e2e_run = Some s → run_by e2e_events e2e_builder e2e_world (demo_state [demo_answer 429]) e2e_config s.
Proof.
  unfold e2e_run. assert (∃ rt, build e2e_builder = Ok rt ∧ e2e_config = run_config rt) as (rt & Hb & Hcf)
    by (eexists; split; reflexivity).
  rewrite Hb. destruct (run_start rt e2e_world _) as [s0|e] eqn:Hs0; [|discriminate].
  rewrite <- Hcf. intros Hrun. exists rt, s0. split; [exact Hb|]. split; [exact Hs0|]. split; [exact Hcf|exact Hrun].
Qed.

(** The batch of the data object, and its records, which are representable. *)
Definition e2e_records : list DecodedLogRecord :=
  match next_descriptors 1 SourceBudget_default (log_source, e2e_world) with
  | (_, Ok (d :: _)) =>
      match Source.fetch (fetch_handle log_source) d e2e_world with
      | (_, Ok batch) => match decode_logs batch with Ok rs => rs | Err _ => [] end
      | _ => []
      end
  | _ => []
  end.

Lemma acknowledged_records_are_delivered_witness :
  length e2e_records = 3%nat ∧ Forall record_ok e2e_records ∧
  ∃ s, e2e_run = Some s ∧ durable (source_of s) = Some 0 ∧
    demo_view (ws_log (s_w2 (sy_shared s))) = [inl 429; inr 100; inl 200; inl 200] ∧
  ∃ d batch rs,
    sbd_sequence d = 0 ∧ (∃ w w', Source.fetch (cf_handle e2e_config) d w = (w', Ok batch)) ∧
    check_envelopes logs_envelope batch = Ok tt ∧ decode_logs batch = Ok rs ∧
    (Forall record_ok rs → ∃ before tr after, ws_log (s_w2 (sy_shared s)) = before ++ tr ++ after ∧ delivered demo_config rs tr).
Proof.
  split; [vm_compute; reflexivity|]. split; [by apply (bool_decide_unpack _)|].
  destruct e2e_run as [s|] eqn:Hrun; [|vm_compute in Hrun; discriminate Hrun].
  assert (option_map (λ s, (admits (s_trace (sy_shared s)), durable (source_of s),
            demo_view (ws_log (s_w2 (sy_shared s))))) e2e_run =
          Some ([0], Some 0, [inl 429; inr 100; inl 200; inl 200])) as Hfacts by (vm_compute; reflexivity).
  rewrite Hrun in Hfacts. injection Hfacts as Hadmits Hdurable Hview.
  exists s. split; [reflexivity|]. split; [exact Hdurable|]. split; [exact Hview|].
  apply (acknowledged_records_are_delivered e2e_events e2e_builder e2e_world (demo_state [demo_answer 429]) e2e_config s
           (e2e_run_by s Hrun)) with (f := 0).
  - intros x Hx. discriminate Hx.
  - intros src Hsrc. injection Hsrc as <-. split; [reflexivity|]. intros f Hf. vm_compute in Hf. discriminate Hf.
  - repeat (apply Forall_cons; split; [exact I|]). apply Forall_nil. exact I.
  - repeat (apply Forall_cons; split; [exact I|]). apply Forall_nil. exact I.
  - by vm_compute.
  - reflexivity.
  - by vm_compute.
  - right. exact Hdurable.
  - rewrite Hadmits. left.
  - reflexivity.
Defined.
