(* ===== verification/ConcurrentDelivery.v ===== *)
(** * The whole ingestor, with concurrent writes

    The runtime of [EndToEnd] makes a write of the sink in one step.  Here its
    writers overlap: the pipeline runs with a sink that only hands on answers,
    in the order in which the calls return, and the calls run on the shared
    ClickHouse sink as a pool ([SinkConcurrency]).  A run of the two together
    is a run of each, such that every success the pipeline saw is that of a
    call of the pool, on the same commit. *)

From Stdlib Require Import NArith Lia Sorted.
From S2P Require Import Prelude.
From S2P Require Import BTree.
From S2P Require Import Types.
From S2P Require Import AckCoordinator.
From S2P Require Import ByteBudget.
From S2P Require Import Source.
From S2P Require Import Options.
From S2P Require Import Metrics.
From S2P Require Import Async.
From S2P Require Import ClickHouseMetrics.
From S2P Require Import WriteRetry.
From S2P Require Import Decode.
From S2P Require Import Pipeline.
From S2P Require Import PipelineDemo.
From S2P Require Import PipelineResources.
From S2P Require Import PipelineWorkers.
From S2P Require Import PipelineSafety.
From S2P Require Import PipelineRestart.
From S2P Require Import PipelineProvenance.
From S2P Require Import Envelope.
From S2P Require Import OtlpLogs.
From S2P Require Import RowValue.
From S2P Require Import LogsAdapter.
From S2P Require Import Serializer.
From S2P Require Import Writer.
From S2P Require Import ClickHouseSink.
From S2P Require Import SinkConcurrency.
From S2P Require Import EndToEnd.
Local Open Scope N_scope.

(** The sink as the pipeline sees it: the answers of its calls, in the order in
    which they return. *)
Record AnsweringSink := { an_id : SinkId; an_budget : SinkBudget }.
Definition Answers : Type := list (result SinkCommitResult SinkCommitFailure).

#[export] Instance AnsweringSink_sink : Sink AnsweringSink Answers TypedDecodedLogs := {
  sink_id := an_id;
  write_budget := an_budget;
  sink_write _ _ w := match w with a :: w => (w, a) | [] => ([], Err (NotCommitted (mkBoxError "no answer"))) end;
  check_committed _ _ w := (w, Ok CSUnknown);
}.

Section concurrent_delivery.
Context {C F W1 W : Type}.
Context `{ConsumerLaws C F W1} `{Reqwest W} `{SerdeJson} `{P : OtlpProto} `{Sha256}.

Abbreviation ConcurrentBuilder := (RuntimeBuilder C F OtlpLogsDecoder AnsweringSink).
Abbreviation ConcurrentSys := (Sys C F W1 Answers TypedDecodedLogs).

(** Every success in the trace of the pipeline is that of a call of the pool. *)
Definition answered_by (tr : list (TraceEvent TypedDecodedLogs)) (wevs : list WriteEvent)
    (p : Pool (answer := answer (W := W)) (Ev := WriterEvent) (St := WriterState) (result SinkCommitResult SinkCommitFailure)) : Prop :=
  ∀ commit res, CallWrite commit (Ok res) ∈ calls tr →
    ∃ i, begun wevs !! i = Some commit ∧ slots p !! i = Some (Running (Ready (Ok res))).

End concurrent_delivery.

(** ** A concrete run

    The pipeline of the run in [EndToEnd]; on the sink, the call of its commit
    overlaps with a call of another commit, which is dropped with its request
    on the way, is throttled once, and goes through. *)

Definition demo_answers : Answers := [Ok {| scr_bytes_written := 54; scr_rows_written := 3 |}].

Definition overlap_builder : RuntimeBuilder LogConsumer unit OtlpLogsDecoder AnsweringSink :=
  with_options (demo_options false) (set_sink {| an_id := mkSinkId "clickhouse_logs"; an_budget := SinkBudget_default |}
    (add_decoder OtlpLogsDecoder_new (add_source log_source builder))).

Definition overlap_events : list (SysEvent (W1 := LogWorld) (W2 := Answers)) :=
  replicate 4 (EvActor (polls false false true)) ++ replicate 3 (EvFetch 0 ArmWork) ++
  replicate 3 (EvDecode 0 ArmWork) ++ replicate 4 (EvWrite 0 ArmWork (Proceed false)) ++
  [EvActor (polls false true false)].

Definition overlap_config : Config unit OtlpLogsDecoder AnsweringSink := {|
  cf_options := demo_options false; cf_decoder := OtlpLogsDecoder_new;
  cf_sink := {| an_id := mkSinkId "clickhouse_logs"; an_budget := SinkBudget_default |};
  cf_handle := fetch_handle log_source; cf_source_id := bs_id log_source |}.

Definition overlap_run : option (Sys LogConsumer unit LogWorld Answers TypedDecodedLogs) :=
  match build overlap_builder with
  | Ok rt =>
      match run_start rt e2e_world demo_answers with
      | Ok s0 => exec_all (run_config rt) overlap_events s0
      | Err _ => None
      end
  | Err _ => None
  end.

Lemma overlap_run_by s :
  overlap_run = Some s → run_by overlap_events overlap_builder e2e_world demo_answers overlap_config s.
Proof.
  unfold overlap_run. assert (∃ rt, build overlap_builder = Ok rt ∧ overlap_config = run_config rt) as (rt & Hb & Hcf)
    by (eexists; split; reflexivity).
  rewrite Hb. destruct (run_start rt e2e_world _) as [s0|e] eqn:Hs0; [|discriminate].
  rewrite <- Hcf. intros Hrun. exists rt, s0. split; [exact Hb|]. split; [exact Hs0|]. split; [exact Hcf|exact Hrun].
Qed.

(** The commit the pipeline made, and the schedule of the calls. *)
Definition overlap_commit : SinkCommit TypedDecodedLogs :=
  match option_map (λ s, calls (s_trace (sy_shared s))) overlap_run with
  | Some (CallWrite commit _ :: _) => commit
  | _ => demo_commit demo_sorted
  end.
Definition overlap_schedule : list (WriteEvent (T := TypedDecodedLogs)) :=
  Begin (demo_commit demo_sorted) :: Begin overlap_commit :: concat (replicate 6 [Step 0; Step 1]) ++ [Step 1; Cancel 0] ++
  replicate 25 (Step 1).

Lemma only_success {T} (c c' : SinkCommit T) (r r' : SinkCommitResult) :
  CallWrite c (Ok r) ∈ [CallWrite c' (Ok r')] → c = c' ∧ r = r'.
Proof. intros [= -> ->]%list_elem_of_singleton. done. Qed.

Definition overlap_server : WriterState := demo_state [demo_answer 429; demo_answer 429].

