(* ===== verification/IngestorConfig.v ===== *)
(** * Configuration of the ingestor
    (connectors/clickhouse-ingestor/src/config.rs, error.rs)

    The sections of the YAML file with their defaults, the loader, and the
    translations into the configurations of the writer, the adapter and the
    runtime.  Reading and merging the YAML file and the environment is figment's
    part: a parameter answers the merged document, each section with the keys
    that are present.  What the [serde] attributes of the sections add to it,
    the default of an absent key and the error for a missing required one, is
    written out. *)

From Stdlib Require Import NArith Lia.
From S2P Require Import Prelude.
From S2P Require Import BTree.
From S2P Require Import Types.
From S2P Require Import Options.
From S2P Require Import Envelope.
From S2P Require Import LogsAdapter.
From S2P Require Import Serializer.
From S2P Require Import Writer.
Local Open Scope N_scope.

(** ** Errors (error.rs) *)

Inductive IngestorError :=
| IEnvelope (e : EnvelopeError)
| ISignalDecode (msg : string)
| IAdapter (msg : string)
| IWriter (e : WriterError)
| IConfig (msg : string)
| IIo (msg : string)
| IOther (msg : string).

Definition IngestorError_display (e : IngestorError) : string :=
  match e with
  | IEnvelope e => "metadata envelope: " +:+ EnvelopeError_display e
  | ISignalDecode m => "signal decoder: " +:+ m
  | IAdapter m => "adapter: " +:+ m
  | IWriter e => "clickhouse writer: " +:+ WriterError_display e
  | IConfig m => "config: " +:+ m
  | IIo m => "io: " +:+ m
  | IOther m => m
  end.

(** ** Sections *)

Definition default_metrics_bind_addr : string := "0.0.0.0:9090".
Record MetricsServerSection := { bind_addr : string }.
Definition MetricsServerSection_default : MetricsServerSection := {| bind_addr := default_metrics_bind_addr |}.

(** [common::ObjectStoreConfig] is another crate's. *)
Record BufferSection (O : Type) := {
  buf_manifest_path : string;
  data_prefix : string;
  object_store : O;
}.
Arguments buf_manifest_path {O}. Arguments data_prefix {O}. Arguments object_store {O}.
Arguments Build_BufferSection {O}.

Record ClickHouseSection := {
  ch_endpoint : string;
  ch_database : string;
  ch_table : string;
  ch_insert_quorum : option string;
  ch_user : string;
  ch_password : string;
}.
Definition default_user : string := "default".

Record RuntimeSection := {
  rs_dry_run : bool;
  rs_poll_interval_ms : N;
  rs_retry_max_attempts : N;
  rs_retry_initial_backoff_ms : N;
  rs_request_timeout_secs : N;
  rs_max_inflight_batches : N;
  rs_max_inflight_bytes : N;
  rs_estimated_max_batch_bytes : N;
  rs_fetch_concurrency : N;
  rs_decode_concurrency : N;
  rs_oversize_fault_multiplier : N;
  rs_max_descriptors_per_poll : N;
}.
Definition default_dry_run : bool := true.
Definition default_poll_interval_ms : N := 250.
Definition default_retry_attempts : N := 6.
Definition default_retry_backoff_ms : N := 100.
Definition default_request_timeout_secs : N := 30.
Definition default_max_inflight_batches : N := 64.
Definition default_max_inflight_bytes : N := 256 * 1024 * 1024.
Definition default_estimated_max_batch_bytes : N := 4 * 1024 * 1024.
Definition default_fetch_concurrency : N := 8.
Definition default_decode_concurrency : N := 4.
Definition default_oversize_fault_multiplier : N := 4.
Definition default_max_descriptors_per_poll : N := 8.
Definition default_max_concurrent_commits : N := 4.

Record SinkSection := {
  sk_max_concurrent_commits : N;
  sk_serialization_format : SerializationFormat;
  sk_http_client_mode : HttpClientMode;
}.
Definition SinkSection_default : SinkSection := {|
  sk_max_concurrent_commits := default_max_concurrent_commits;
  sk_serialization_format := SerializationFormat_default;
  sk_http_client_mode := HttpClientMode_default |}.

Inductive AckPolicyKind := KEveryCommitGroup | KEveryN.
Record AckSection := {
  ak_policy : AckPolicyKind;
  ak_n : option N;
}.
Definition AckSection_default : AckSection := {| ak_policy := KEveryCommitGroup; ak_n := None |}.

Record AdapterSection := {
  ap_adapter_version : N;
  ap_max_chunk_rows : N;
  ap_max_chunk_bytes : N;
  ap_apply_deduplication_token : bool;
}.
Definition default_apply_dedup_token : bool := true.
Definition AdapterSection_default : AdapterSection := {|
  ap_adapter_version := 1; ap_max_chunk_rows := 100000; ap_max_chunk_bytes := 32 * 1024 * 1024;
  ap_apply_deduplication_token := true |}.

Record IngestorConfig (O : Type) := {
  cfg_buffer : BufferSection O;
  cfg_clickhouse : ClickHouseSection;
  cfg_runtime : RuntimeSection;
  cfg_ack : AckSection;
  cfg_adapter : AdapterSection;
  cfg_sink : SinkSection;
  cfg_metrics_server : MetricsServerSection;
}.
Arguments cfg_buffer {O}. Arguments cfg_clickhouse {O}. Arguments cfg_runtime {O}. Arguments cfg_ack {O}.
Arguments cfg_adapter {O}. Arguments cfg_sink {O}. Arguments cfg_metrics_server {O}.
Arguments Build_IngestorConfig {O}.

(** ** Documents

    The keys a document has, section by section. *)

Record RawBuffer (O : Type) := {
  raw_manifest_path : option string; raw_data_prefix : option string; raw_object_store : option O }.
Arguments raw_manifest_path {O}. Arguments raw_data_prefix {O}. Arguments raw_object_store {O}.
Record RawClickHouse := {
  raw_endpoint : option string; raw_database : option string; raw_table : option string;
  raw_insert_quorum : option string; raw_user : option string; raw_password : option string }.
Record RawRuntime := {
  raw_dry_run : option bool; raw_poll_interval_ms : option N; raw_retry_max_attempts : option N;
  raw_retry_initial_backoff_ms : option N; raw_request_timeout_secs : option N;
  raw_max_inflight_batches : option N; raw_max_inflight_bytes : option N;
  raw_estimated_max_batch_bytes : option N; raw_fetch_concurrency : option N;
  raw_decode_concurrency : option N; raw_oversize_fault_multiplier : option N;
  raw_max_descriptors_per_poll : option N }.
Record RawAck := { raw_policy : option AckPolicyKind; raw_n : option N }.
Record RawAdapter := {
  raw_adapter_version : option N; raw_max_chunk_rows : option N; raw_max_chunk_bytes : option N;
  raw_apply_deduplication_token : option bool }.
Record RawSink := {
  raw_max_concurrent_commits : option N; raw_serialization_format : option SerializationFormat;
  raw_http_client_mode : option HttpClientMode }.
Record RawMetricsServer := { raw_bind_addr : option string }.
Record RawConfig (O : Type) := {
  raw_buffer : option (RawBuffer O); raw_clickhouse : option RawClickHouse; raw_runtime : option RawRuntime;
  raw_ack : option RawAck; raw_adapter : option RawAdapter; raw_sink : option RawSink;
  raw_metrics_server : option RawMetricsServer }.
Arguments raw_buffer {O}. Arguments raw_clickhouse {O}. Arguments raw_runtime {O}. Arguments raw_ack {O}.
Arguments raw_adapter {O}. Arguments raw_sink {O}. Arguments raw_metrics_server {O}.

(** Figment: the merge of the file and of the environment, and the text of the
    error for a missing key.  If several keys are missing, the model names the
    first in the order of the declarations. *)
Class Figment := {
  Path : Type;
  path_display : Path → string;
  ObjectStoreConfig : Type;
  merged : Path → result (RawConfig ObjectStoreConfig) string;
  missing_field : string → string;
}.

Section load.
Context `{Figment}.

Definition required {A} (key : string) (o : option A) : result A string := ok_or o (missing_field key).

Definition fill_buffer (r : RawBuffer ObjectStoreConfig) : result (BufferSection ObjectStoreConfig) string :=
  let? manifest_path := required "manifest_path" (raw_manifest_path r) in
  let? data_prefix := required "data_prefix" (raw_data_prefix r) in
  let? object_store := required "object_store" (raw_object_store r) in
  Ok {| buf_manifest_path := manifest_path; data_prefix := data_prefix; object_store := object_store |}.

Definition fill_clickhouse (r : RawClickHouse) : result ClickHouseSection string :=
  let? endpoint := required "endpoint" (raw_endpoint r) in
  let? database := required "database" (raw_database r) in
  let? table := required "table" (raw_table r) in
  Ok {| ch_endpoint := endpoint; ch_database := database; ch_table := table;
        ch_insert_quorum := raw_insert_quorum r;
        ch_user := default default_user (raw_user r); ch_password := default "" (raw_password r) |}.

Definition fill_runtime (r : RawRuntime) : RuntimeSection := {|
  rs_dry_run := default default_dry_run (raw_dry_run r);
  rs_poll_interval_ms := default default_poll_interval_ms (raw_poll_interval_ms r);
  rs_retry_max_attempts := default default_retry_attempts (raw_retry_max_attempts r);
  rs_retry_initial_backoff_ms := default default_retry_backoff_ms (raw_retry_initial_backoff_ms r);
  rs_request_timeout_secs := default default_request_timeout_secs (raw_request_timeout_secs r);
  rs_max_inflight_batches := default default_max_inflight_batches (raw_max_inflight_batches r);
  rs_max_inflight_bytes := default default_max_inflight_bytes (raw_max_inflight_bytes r);
  rs_estimated_max_batch_bytes := default default_estimated_max_batch_bytes (raw_estimated_max_batch_bytes r);
  rs_fetch_concurrency := default default_fetch_concurrency (raw_fetch_concurrency r);
  rs_decode_concurrency := default default_decode_concurrency (raw_decode_concurrency r);
  rs_oversize_fault_multiplier := default default_oversize_fault_multiplier (raw_oversize_fault_multiplier r);
  rs_max_descriptors_per_poll := default default_max_descriptors_per_poll (raw_max_descriptors_per_poll r) |}.

Definition fill_ack (r : RawAck) : result AckSection string :=
  let? policy := required "policy" (raw_policy r) in
  Ok {| ak_policy := policy; ak_n := raw_n r |}.

Definition fill_adapter (r : RawAdapter) : result AdapterSection string :=
  let? adapter_version := required "adapter_version" (raw_adapter_version r) in
  let? max_chunk_rows := required "max_chunk_rows" (raw_max_chunk_rows r) in
  let? max_chunk_bytes := required "max_chunk_bytes" (raw_max_chunk_bytes r) in
  Ok {| ap_adapter_version := adapter_version; ap_max_chunk_rows := max_chunk_rows;
        ap_max_chunk_bytes := max_chunk_bytes;
        ap_apply_deduplication_token := default default_apply_dedup_token (raw_apply_deduplication_token r) |}.

Definition fill_sink (r : RawSink) : SinkSection := {|
  sk_max_concurrent_commits := default default_max_concurrent_commits (raw_max_concurrent_commits r);
  sk_serialization_format := default SerializationFormat_default (raw_serialization_format r);
  sk_http_client_mode := default HttpClientMode_default (raw_http_client_mode r) |}.

Definition fill_metrics_server (r : RawMetricsServer) : MetricsServerSection := {|
  bind_addr := default default_metrics_bind_addr (raw_bind_addr r) |}.

Definition fill (r : RawConfig ObjectStoreConfig) : result (IngestorConfig ObjectStoreConfig) string :=
  let? buffer := required "buffer" (raw_buffer r) in
  let? buffer := fill_buffer buffer in
  let? clickhouse := required "clickhouse" (raw_clickhouse r) in
  let? clickhouse := fill_clickhouse clickhouse in
  let? runtime := required "runtime" (raw_runtime r) in
  let? ack := required "ack" (raw_ack r) in
  let? ack := fill_ack ack in
  let? adapter := required "adapter" (raw_adapter r) in
  let? adapter := fill_adapter adapter in
  Ok {| cfg_buffer := buffer; cfg_clickhouse := clickhouse; cfg_runtime := fill_runtime runtime;
        cfg_ack := ack; cfg_adapter := adapter;
        cfg_sink := match raw_sink r with Some s => fill_sink s | None => SinkSection_default end;
        cfg_metrics_server :=
          match raw_metrics_server r with Some m => fill_metrics_server m | None => MetricsServerSection_default end |}.

Definition load (path : Path) : result (IngestorConfig ObjectStoreConfig) IngestorError :=
  map_err IConfig (let? raw := merged path in fill raw).

End load.

(** ** Translations *)

Section translations.
Context {O : Type}.
Implicit Types self : IngestorConfig O.

(** The configuration's own [ack_flush_policy]. *)
Definition cfg_ack_flush_policy self : AckFlushPolicy :=
  match ak_policy (cfg_ack self) with
  | KEveryCommitGroup => EveryCommitGroup
  | KEveryN => EveryN (N.max (default 1 (ak_n (cfg_ack self))) 1)
  end.

Definition writer_config self : WriterConfig := {|
  endpoint := ch_endpoint (cfg_clickhouse self);
  user := ch_user (cfg_clickhouse self);
  password := ch_password (cfg_clickhouse self);
  request_timeout := mkDuration (rs_request_timeout_secs (cfg_runtime self) * 1000000000);
  max_attempts := rs_retry_max_attempts (cfg_runtime self);
  initial_backoff := from_millis (rs_retry_initial_backoff_ms (cfg_runtime self));
  serialization_format := sk_serialization_format (cfg_sink self);
  http_client_mode := sk_http_client_mode (cfg_sink self) |}.

Definition logs_adapter_config self : LogsAdapterConfig := {|
  database := ch_database (cfg_clickhouse self);
  table := ch_table (cfg_clickhouse self);
  adapter_version := ap_adapter_version (cfg_adapter self);
  max_chunk_rows := ap_max_chunk_rows (cfg_adapter self);
  max_chunk_bytes := ap_max_chunk_bytes (cfg_adapter self);
  insert_quorum := ch_insert_quorum (cfg_clickhouse self);
  apply_deduplication_token := ap_apply_deduplication_token (cfg_adapter self) |}.

(** The ranges of the numeric fields' types that the theorems use. *)
Definition config_ok self : Prop :=
  is_u64 (rs_retry_initial_backoff_ms (cfg_runtime self)) ∧ is_u32 (ap_adapter_version (cfg_adapter self)).

Lemma writer_config_backoff self :
  config_ok self → nanos (initial_backoff (writer_config self)) ≤ duration_max.
Proof. intros [Hb _]. unfold writer_config. cbn [initial_backoff nanos from_millis]. unfold duration_max, is_u64, u64_max in *. lia. Qed.
End translations.
