(* ===== verification/Ingestor.v ===== *)
(** * The ingestor binary
    (connectors/clickhouse-ingestor/src/bin/clickhouse_ingestor.rs)

    [main]: from the configuration file to the running runtime.  The object
    store, the buffer's consumer, the recorder and the parser of socket
    addresses are other crates': parameters.  An [anyhow] error is its chain of
    messages, outermost first.  Logging has no part in the result; the signal
    handler and the metrics server's task are in [Process]. *)

From Stdlib Require Import NArith Lia Sorted.
From stdpp Require Import relations.
From S2P Require Import Prelude.
From S2P Require Import BTree.
From S2P Require Import Types.
From S2P Require Import AckCoordinator.
From S2P Require Import ByteBudget.
From S2P Require Import Source.
From S2P Require Import Options.
From S2P Require Import Metrics.
From S2P Require Import WriteRetry.
From S2P Require Import Decode.
From S2P Require Import Pipeline.
From S2P Require Import PipelineDemo.
From S2P Require Import PipelineResources.
From S2P Require Import PipelineWorkers.
From S2P Require Import PipelineSafety.
From S2P Require Import PipelineRestart.
From S2P Require Import PipelineProvenance.
From S2P Require Import Envelope.
From S2P Require Import OtlpLogs.
From S2P Require Import RowValue.
From S2P Require Import LogsAdapter.
From S2P Require Import Serializer.
From S2P Require Import ClickHouseMetrics.
From S2P Require Import Writer.
From S2P Require Import ClickHouseSink.
From S2P Require Import EndToEnd.
From S2P Require Import IngestorConfig.
Local Open Scope N_scope.

(** ** The sinks *)

Record DryRunSink := { drs_id : SinkId }.

#[export] Instance DryRunSink_sink {W T} : Sink DryRunSink W T := {
  sink_id := drs_id;
  write_budget _ := SinkBudget_default;
  sink_write _ _ w :=
    (w, Err (Fatal (mkBoxError "DryRunSink::write called; runtime should have short-circuited via dry_run=true")));
  check_committed _ _ w := (w, Ok CSUnknown);
}.

Section ingestor.
Context {C F W1 W : Type}.
Context `{ConsumerLaws C F W1} `{Reqwest W} `{SerdeJson} `{P : OtlpProto} `{Sha256} `{Figment}.

(** The [Arc<dyn Sink>] of the builder. *)
Inductive IngestorSink :=
| DrySink (s : DryRunSink)
| LiveSink (s : ClickHouseSink (W := W) (A := OtlpLogsClickHouseAdapter)).

#[export] Instance IngestorSink_sink : Sink IngestorSink (WriterState (W := W)) TypedDecodedLogs := {
  sink_id s := match s with DrySink s => drs_id s | LiveSink s => chs_id s end;
  write_budget s := match s with DrySink s => SinkBudget_default | LiveSink s => chs_budget s end;
  sink_write s := match s with DrySink s => sink_write s | LiveSink s => sink_write s end;
  check_committed s := match s with DrySink s => check_committed (T := TypedDecodedLogs) s
                               | LiveSink s => check_committed (T := TypedDecodedLogs) s end;
}.

(** ** The environment of [main] *)

(** [anyhow::Error]. *)
Definition AnyError : Type := list string.
Definition with_context {A} (context : string) (r : result A string) : result A AnyError :=
  map_err (λ e, [context; e]) r.

Record ConsumerConfig := {
  cc_object_store : ObjectStoreConfig;
  cc_manifest_path : string;
  cc_data_path_prefix : string;
  cc_gc_interval : Duration;
  cc_gc_grace_period : Duration;
}.

Class MainEnv := {
  ObjectStore : Type;
  SocketAddr : Type;
  set_global_recorder : result unit string;
  create_object_store : ObjectStoreConfig → result ObjectStore string;
  with_object_store : ConsumerConfig → ObjectStore → option N → M W1 string C;
  parse_addr : string → result SocketAddr string;
}.
Context `{MainEnv}.

(** ** Wiring *)

Definition consumer_config (cfg : IngestorConfig ObjectStoreConfig) : ConsumerConfig := {|
  cc_object_store := object_store (cfg_buffer cfg);
  cc_manifest_path := buf_manifest_path (cfg_buffer cfg);
  cc_data_path_prefix := data_prefix (cfg_buffer cfg);
  cc_gc_interval := mkDuration (5 * 60 * 1000000000);
  cc_gc_grace_period := mkDuration (10 * 60 * 1000000000) |}.

Definition runtime_options (cfg : IngestorConfig ObjectStoreConfig) : RuntimeOptions :=
  let runtime := cfg_runtime cfg in {|
  ack_flush_policy := cfg_ack_flush_policy cfg;
  dry_run := rs_dry_run runtime;
  poll_interval := from_millis (rs_poll_interval_ms runtime);
  max_descriptors_per_poll := rs_max_descriptors_per_poll runtime;
  max_retry_attempts := rs_retry_max_attempts runtime;
  retry_backoff := from_millis (rs_retry_initial_backoff_ms runtime);
  source_defaults := {|
    max_inflight_batches := rs_max_inflight_batches runtime;
    max_inflight_bytes := rs_max_inflight_bytes runtime;
    estimated_max_batch_bytes := rs_estimated_max_batch_bytes runtime;
    fetch_concurrency := rs_fetch_concurrency runtime;
    decode_concurrency := rs_decode_concurrency runtime;
    oversize_fault_multiplier := rs_oversize_fault_multiplier runtime |};
  source_overrides := ∅;
  sink_options := {|
    max_concurrent_commits := sk_max_concurrent_commits (cfg_sink cfg);
    retry_max_attempts := rs_retry_max_attempts runtime;
    retry_initial_backoff_ms := rs_retry_initial_backoff_ms runtime |} |}.

Definition clickhouse_sink_id : SinkId := mkSinkId "clickhouse_logs".

(** The sink of the mode, and the world of the HTTP client a pooled writer
    builds. *)
Definition select_sink (cfg : IngestorConfig ObjectStoreConfig) (w : W) : W * IngestorSink :=
  if rs_dry_run (cfg_runtime cfg)
  then (w, DrySink {| drs_id := clickhouse_sink_id |})
  else
    let adapter := OtlpLogsClickHouseAdapter_new (logs_adapter_config cfg) in
    let '(w, writer) := new_with_metrics (writer_config cfg) w in
    (w, LiveSink (ClickHouseSink_new_with_metrics clickhouse_sink_id adapter writer)).

Abbreviation IngestorRuntime := (Runtime C F OtlpLogsDecoder IngestorSink).

(** [main] up to the start of the tasks. *)
Definition wire (path : Path) : M (W1 * W) AnyError (IngestorRuntime * SocketAddr) :=
  cfg ← lift (with_context ("loading ingestor config from " +:+ path_display path)
                (map_err IngestorError_display (load path)));
  lift (map_err (λ e, ["install global metrics recorder: " +:+ e]) set_global_recorder) ;;
  store ← lift (with_context "constructing object store" (create_object_store (object_store (cfg_buffer cfg))));
  consumer ← (λ x : W1 * W,
    let '(w1, r) := with_object_store (consumer_config cfg) store None x.1 in
    ((w1, x.2), with_context "initializing buffer consumer" r));
  let source := BufferSource_new consumer (mkSourceId "buffer") (buf_manifest_path (cfg_buffer cfg)) None in
  let builder := with_options (runtime_options cfg) (add_decoder OtlpLogsDecoder_new (add_source source builder)) in
  sink ← (λ x : W1 * W, let '(w, sink) := select_sink cfg x.2 in ((x.1, w), Ok sink));
  runtime ← lift (map_err (λ e, ["building runtime: " +:+ RuntimeError_display e]) (build (set_sink sink builder)));
  addr ← lift (with_context ("parsing metrics_server.bind_addr=" +:+ bind_addr (cfg_metrics_server cfg))
                 (parse_addr (bind_addr (cfg_metrics_server cfg))));
  mret (runtime, addr).

(** The end of [main]: the runtime's result. *)
Definition main_result (runtime_result : RuntimeResult unit) : result unit AnyError :=
  map_err (λ e, ["runtime: " +:+ RuntimeError_display e]) runtime_result.
End ingestor.

(** ** What the wiring makes *)

Section wiring.
Context {C F W1 W : Type}.
Context `{ConsumerLaws C F W1} `{Reqwest W} `{SerdeJson} `{P : OtlpProto} `{Sha256} `{Figment}.
Context `{!MainEnv (C := C) (W1 := W1)}.
Implicit Types cfg : IngestorConfig ObjectStoreConfig.

Definition ingestor_source cfg (consumer : C) : BufferSource C F :=
  BufferSource_new consumer (mkSourceId "buffer") (buf_manifest_path (cfg_buffer cfg)) None.
Definition ingestor_builder cfg (consumer : C) (sink : IngestorSink (W := W)) :=
  set_sink sink (with_options (runtime_options cfg)
    (add_decoder OtlpLogsDecoder_new (add_source (ingestor_source cfg consumer) builder))).

(** The retry knobs of the file are the ones in force, whatever the library's
    shadowing rule makes of a default. *)
Lemma wired_retries cfg :
  effective_retry_max_attempts (runtime_options cfg) = rs_retry_max_attempts (cfg_runtime cfg) ∧
  effective_retry_backoff (runtime_options cfg) = from_millis (rs_retry_initial_backoff_ms (cfg_runtime cfg)).
Proof.
  unfold effective_retry_max_attempts, effective_retry_backoff. simpl.
  split; by destruct (negb _).
Qed.

Lemma wired_policy cfg n : ack_flush_policy (runtime_options cfg) = EveryN n → 1 ≤ n.
Proof. simpl. unfold cfg_ack_flush_policy. destruct (ak_policy _); [done|]. intros [= <-]. lia. Qed.

Lemma build_ingestor cfg consumer sink :
  match build (ingestor_builder cfg consumer sink) with
  | Ok rt =>
      valid_backpressure (source_defaults (runtime_options cfg)) = true ∧
      rt_source rt = ingestor_source cfg consumer ∧ rt_decoder rt = OtlpLogsDecoder_new ∧ rt_sink rt = sink ∧
      rt_options rt = runtime_options cfg
  | Err e => valid_backpressure (source_defaults (runtime_options cfg)) = false ∧ ∃ m, e = EConfig m
  end.
Proof.
  pose proof (build_accepts_valid_configurations (ingestor_builder cfg consumer sink)) as Hb.
  assert (backpressure_for (runtime_options cfg) (mkSourceId "buffer") = source_defaults (runtime_options cfg)) as Hbp
    by (unfold backpressure_for; simpl; by rewrite lookup_empty).
  destruct (build _) as [rt|e].
  - destruct Hb as (source & Hsrc & Hdec & Hsink & Hs & Hopt & [Hval _] & _). injection Hsrc as <-.
    injection Hdec as Hdec. injection Hsink as Hsink. simpl in Hval. rewrite Hbp in Hval. by split_and!.
  - destruct Hb as [Hm [Hb|[Hb|[Hb|(source & Hsrc & Hval)]]]]; [done..|]. injection Hsrc as <-. split; [|done].
    destruct (valid_backpressure _) eqn:Hv; [|done]. exfalso. apply Hval. split; [simpl; by rewrite Hbp|].
    apply map_Forall_empty.
Qed.


(** *** Runs of a wired runtime *)

Lemma wire_ok path w1 w x rt addr :
  wire path (w1, w) = (x, Ok (rt, addr)) →
  ∃ cfg store consumer sink, load path = Ok cfg ∧
    with_object_store (consumer_config cfg) store None w1 = (x.1, Ok consumer) ∧
    select_sink cfg w = (x.2, sink) ∧ build (ingestor_builder cfg consumer sink) = Ok rt.
Proof.
  unfold wire. intros Hrun. apply run_bind_inv in Hrun as (x1 & cfg & Hload & Hrun).
  unfold lift in Hload. destruct (load path) as [cfg'|e]; [|done]. injection Hload as <- <-.
  apply run_bind_inv in Hrun as (x2 & u & Hrec & Hrun). injection Hrec as <- _.
  apply run_bind_inv in Hrun as (x3 & store & Hstore & Hrun). injection Hstore as <- _.
  apply run_bind_inv in Hrun as (x4 & consumer & Hcons & Hrun). simpl in Hcons.
  destruct (with_object_store _ store None w1) as [w1' [c|e]] eqn:Hopen; [|done]. injection Hcons as <- <-.
  apply run_bind_inv in Hrun as (x5 & sink & Hsink & Hrun). simpl in Hsink.
  destruct (select_sink cfg' w) as [w' sink'] eqn:Hsel. injection Hsink as <- <-.
  apply run_bind_inv in Hrun as (x6 & rt' & Hbuild & Hrun). unfold lift in Hbuild.
  destruct (build _) as [rt0|e] eqn:Hb; [|done]. injection Hbuild as <- <-.
  apply run_bind_inv in Hrun as (x7 & addr' & Haddr & Hrun). injection Haddr as <- _.
  injection Hrun as <- <- _. by exists cfg', store, c, sink'.
Qed.

(** What is relied on of the buffer's consumer: it opens past the durable
    cursor. *)
Definition opens_past_cursor cfg (w1 : W1) : Prop :=
  ∀ store consumer w1', with_object_store (consumer_config cfg) store None w1 = (w1', Ok consumer) →
  ∀ f, durable_acked (consumer, w1') = Some f → ∃ c, read_cursor (consumer, w1') = Some c ∧ f < c.

(** The state of a writer that has sent nothing. *)
Definition silent (w : W) (m : ClickHouseMetrics) : WriterState (W := W) :=
  {| ws_world := w; ws_metrics := m; ws_log := [] |}.

Lemma wired_run path w1 w x rt addr cfg m s0 evs (s : Sys C F W1 (WriterState (W := W)) TypedDecodedLogs) :
  wire path (w1, w) = (x, Ok (rt, addr)) → load path = Ok cfg → opens_past_cursor cfg w1 →
  run_start rt x.1 (silent x.2 m) = Ok s0 → exec_all (run_config rt) evs s0 = Some s →
  ∃ consumer sink, select_sink cfg w = (x.2, sink) ∧ rt_sink rt = sink ∧ rt_options rt = runtime_options cfg ∧
    let b := ingestor_builder cfg consumer sink in
    run_by evs b x.1 (silent x.2 m) (run_config rt) s ∧ baseline_u64 b ∧ well_opened b x.1 ∧
    rb_source b = Some (rt_source rt).
Proof.
  intros Hwire Hload Hopen Hs0 Hexec.
  destruct (wire_ok _ _ _ _ _ _ Hwire) as (cfg' & store & consumer & sink & Hl & Hc & Hsel & Hb).
  assert (cfg' = cfg) as -> by congruence.
  pose proof (build_ingestor cfg consumer sink) as Hspec. rewrite Hb in Hspec.
  destruct Hspec as (_ & Hsrc & _ & Hsk & Hopt). exists consumer, sink. do 3 (split; [done|]). split_and!.
  - exists rt, s0. by split_and!.
  - by intros y [=].
  - intros src [= <-]. split; [done|]. intros f Hf. right. by eapply Hopen.
  - by rewrite Hsrc.
Qed.

Lemma silent_sink_preorder : PreOrder (λ s s' : WriterState (W := W), ws_log s' = ws_log s).
Proof. split; [by intros s|]. intros s1 s2 s3 H12 H23. by rewrite H23. Qed.

(** C23: a dry run of the binary has no effect outside.  With [dry_run] set in
    the file, no run of the wired runtime calls the sink, sends a request to
    ClickHouse, acknowledges or flushes: the durable cursor of the buffer stays
    where the consumer opened it. *)
Theorem ingestor_dry_run_has_no_effect (path : Path) (w1 : W1) (w : W) (x : W1 * W) rt addr cfg m s0 evs
    (s : Sys C F W1 (WriterState (W := W)) TypedDecodedLogs)
    (Hwire : wire path (w1, w) = (x, Ok (rt, addr))) (Hload : load path = Ok cfg)
    (Hdry : rs_dry_run (cfg_runtime cfg) = true) (Hopen : opens_past_cursor cfg w1)
    (Hstart : run_start rt x.1 (silent x.2 m) = Ok s0) (Hexec : exec_all (run_config rt) evs s0 = Some s)
    (Hevs : Forall ev_ok evs) (Hsink : Forall (sink_event_within (λ a b, ws_log b = ws_log a)) evs) :
  s_trace (sy_shared s) = TrAdmit <$> admits (s_trace (sy_shared s)) ∧
  durable (source_of s) = durable (rt_source rt, x.1) ∧ ws_log (s_w2 (sy_shared s)) = [] ∧ x.2 = w.
Proof.
  destruct (wired_run _ _ _ _ _ _ _ _ _ _ _ Hwire Hload Hopen Hstart Hexec)
    as (consumer & sink & Hsel & Hsk & Hopt & Hrun & Hbase & Hopened & Hsrc).
  unfold select_sink in Hsel. rewrite Hdry in Hsel. injection Hsel as Hx Hsk'.
  assert (dry_run (cf_options (run_config rt)) = true) as Hd by (simpl; by rewrite Hopt).
  destruct (dry_run_pure _ _ _ _ _ _ Hrun Hbase Hopened Hevs Hd) as [Htr Hdur].
  split; [done|]. split; [by apply Hdur|]. split; [|done].
  assert (ws_log (s_w2 (sy_shared s0)) = []) as Hs0.
  { unfold run_start in Hstart. destruct (take_coordinator _ _) as [[c|] ?]; [|done]. simpl in Hstart.
    by injection Hstart as <-. }
  rewrite <- Hs0. pose proof silent_sink_preorder.
  apply (exec_all_world (run_config rt) (λ a b : WriterState (W := W), ws_log b = ws_log a)) with (evs := evs); try done.
  - intros commit w0. simpl. by rewrite Hsk, <- Hsk'.
  - intros id w0. simpl. by rewrite Hsk, <- Hsk'.
Qed.

(** A sequence the sink confirmed in a live run is in the table. *)
Lemma wired_delivered (path : Path) (w1 : W1) (w : W) (x : W1 * W) rt addr cfg m s0 evs
    (s : Sys C F W1 (WriterState (W := W)) TypedDecodedLogs) q :
  wire path (w1, w) = (x, Ok (rt, addr)) → load path = Ok cfg →
  rs_dry_run (cfg_runtime cfg) = false → sk_serialization_format (cfg_sink cfg) = RowBinary →
  config_ok cfg → opens_past_cursor cfg w1 →
  run_start rt x.1 (silent x.2 m) = Ok s0 → exec_all (run_config rt) evs s0 = Some s →
  Forall (sink_event_within log_grows) evs → confirmed q (s_trace (sy_shared s)) →
  ∃ d batch rs,
    sbd_sequence d = q ∧ (∃ v v', Source.fetch (fetch_handle (rt_source rt)) d v = (v', Ok batch)) ∧
    check_envelopes logs_envelope batch = Ok tt ∧ decode_logs batch = Ok rs ∧
    (Forall record_ok rs →
     ∃ before tr after, ws_log (s_w2 (sy_shared s)) = before ++ tr ++ after ∧
       delivered (logs_adapter_config cfg) rs tr).
Proof.
  intros Hwire Hload Hlive Hformat Hok Hopen Hstart Hexec Hsink Hconf.
  destruct (wired_run _ _ _ _ _ _ _ _ _ _ _ Hwire Hload Hopen Hstart Hexec)
    as (consumer & sink & Hsel & Hsk & Hopt & Hrun & Hbase & Hopened & Hsrc).
  assert (rt_decoder rt = OtlpLogsDecoder_new) as Hdec.
  { destruct Hrun as (rt' & s0' & Hb & _ & Hcf & _). pose proof (build_ingestor cfg consumer sink) as Hspec.
    rewrite Hb in Hspec. destruct Hspec as (_ & _ & Hd & _). injection Hcf as _ Hd' _ _ _. by rewrite Hd'. }
  unfold select_sink in Hsel. rewrite Hlive in Hsel.
  destruct (new_with_metrics (writer_config cfg) w) as [w' writer] eqn:Hw. injection Hsel as Hx Hsink'.
  assert (cw_config writer = writer_config cfg ∧ cw_serializer writer = build_serializer RowBinary) as [Hcw Hser].
  { unfold new_with_metrics in Hw. destruct (match http_client_mode _ with PerCall => _ | Pooled _ _ => _ end) as [? ?].
    injection Hw as _ <-. simpl. by rewrite Hformat. }
  destruct (confirmed_delivered (ClickHouseSink_new_with_metrics clickhouse_sink_id
      (OtlpLogsClickHouseAdapter_new (logs_adapter_config cfg)) writer) evs _ _ _ _ s q Hrun Hsink)
    as (d & batch & rs & Hd & Hfetch & Henv & Hrs & Hdel); simpl.
  - intros commit v. by rewrite Hsk, <- Hsink'.
  - intros id v. by rewrite Hsk, <- Hsink'.
  - rewrite Hcw. by apply writer_config_backoff.
  - done.
  - by destruct Hok.
  - done.
  - exists d, batch, rs. split_and!; try done. simpl in Henv. by rewrite Hdec in Henv.
Qed.

(** C1: what the binary acknowledges is in the table.  For a configuration file
    in live mode with the RowBinary format, and any buffer and server: in every
    state of every run of the wired runtime, a sequence that the run admitted
    and that an acknowledgement or the durable cursor covers was fetched, its
    entries decoded, and the requests that ClickHouse acknowledged during the
    run hold one row per record, under the columns of the table and in the
    values the file's adapter section says. *)
Theorem ingestor_delivers (path : Path) (w1 : W1) (w : W) (x : W1 * W) rt addr cfg m s0 evs
    (s : Sys C F W1 (WriterState (W := W)) TypedDecodedLogs)
    (Hwire : wire path (w1, w) = (x, Ok (rt, addr))) (Hload : load path = Ok cfg)
    (Hlive : rs_dry_run (cfg_runtime cfg) = false) (Hformat : sk_serialization_format (cfg_sink cfg) = RowBinary)
    (Hok : config_ok cfg) (Hopen : opens_past_cursor cfg w1)
    (Hstart : run_start rt x.1 (silent x.2 m) = Ok s0) (Hexec : exec_all (run_config rt) evs s0 = Some s)
    (Hevs : Forall ev_ok evs) (Hsink : Forall (sink_event_within log_grows) evs) :
  ∀ f q, f ∈ acks (s_trace (sy_shared s)) ∨ durable (source_of s) = Some f →
    q ∈ admits (s_trace (sy_shared s)) → q ≤ f →
  ∃ d batch rs,
    sbd_sequence d = q ∧ (∃ v v', Source.fetch (fetch_handle (rt_source rt)) d v = (v', Ok batch)) ∧
    check_envelopes logs_envelope batch = Ok tt ∧ decode_logs batch = Ok rs ∧
    (Forall record_ok rs →
     ∃ before tr after, ws_log (s_w2 (sy_shared s)) = before ++ tr ++ after ∧
       delivered (logs_adapter_config cfg) rs tr).
Proof.
  intros f q Hf Hq Hle.
  destruct (wired_run _ _ _ _ _ _ _ _ _ _ _ Hwire Hload Hopen Hstart Hexec)
    as (consumer & sink & _ & _ & _ & Hrun & Hbase & Hopened & _).
  eapply wired_delivered; try done. by apply (covered_confirmed _ _ _ _ _ s f q Hrun).
Qed.
End wiring.

(** ** A concrete deployment

    A file with a row-binary sink, and a buffer whose first object an earlier
    process made durable. *)

#[export] Instance DemoFigment : Figment := {
  Path := bool;
  path_display _ := "ingestor.yaml";
  ObjectStoreConfig := unit;
  merged dry := Ok {|
    raw_buffer := Some {| raw_manifest_path := Some "manifest"; raw_data_prefix := Some "data"; raw_object_store := Some tt |};
    raw_clickhouse := Some {| raw_endpoint := Some "http://localhost:8123"; raw_database := Some "responsive";
      raw_table := Some "logs"; raw_insert_quorum := None; raw_user := None; raw_password := None |};
    raw_runtime := Some {| raw_dry_run := Some dry; raw_poll_interval_ms := None; raw_retry_max_attempts := None;
      raw_retry_initial_backoff_ms := None; raw_request_timeout_secs := None; raw_max_inflight_batches := None;
      raw_max_inflight_bytes := None; raw_estimated_max_batch_bytes := None; raw_fetch_concurrency := None;
      raw_decode_concurrency := None; raw_oversize_fault_multiplier := None; raw_max_descriptors_per_poll := None |};
    raw_ack := Some {| raw_policy := Some KEveryN; raw_n := Some 0 |};
    raw_adapter := Some {| raw_adapter_version := Some 1; raw_max_chunk_rows := Some 2; raw_max_chunk_bytes := Some 100000;
      raw_apply_deduplication_token := None |};
    raw_sink := Some {| raw_max_concurrent_commits := None; raw_serialization_format := Some RowBinary;
      raw_http_client_mode := None |};
    raw_metrics_server := None |};
  missing_field key := "missing field `" +:+ key +:+ "`";
}.

#[export] Instance DemoEnv : MainEnv (C := LogConsumer) (W1 := LogWorld) := {
  ObjectStore := unit;
  SocketAddr := string;
  set_global_recorder := Ok tt;
  create_object_store _ := Ok tt;
  with_object_store _ _ _ w := (w, Ok {| lc_next := match lw_durable w with Some n => n + 1 | None => 0 end |});
  parse_addr s := Ok s;
}.

Definition deployed_world : LogWorld := {|
  lw_batches := ([], []) :: lw_batches e2e_world; lw_durable := Some 0; lw_failing_acks := 0 |}.

Abbreviation DeployedSys := (Sys LogConsumer unit LogWorld (WriterState (W := HttpWorld)) TypedDecodedLogs).

(** The wiring, then the run of the events. *)
Definition deploy (dry : bool) (evs : list E2EEvent) :=
  match wire (C := LogConsumer) (F := unit) dry (deployed_world, [demo_answer 429]) with
  | (x, Ok (rt, addr)) =>
      match run_start rt x.1 (silent x.2 ClickHouseMetrics_new) with
      | Ok s0 => match exec_all (run_config rt) evs s0 with Some s => Some (x, rt, addr, s0, s) | None => None end
      | Err _ => None
      end
  | (_, Err _) => None
  end.

Lemma deploy_inv dry evs x rt addr s0 s :
  deploy dry evs = Some (x, rt, addr, s0, s) →
  wire dry (deployed_world, [demo_answer 429]) = (x, Ok (rt, addr)) ∧
  run_start rt x.1 (silent x.2 ClickHouseMetrics_new) = Ok s0 ∧ exec_all (run_config rt) evs s0 = Some s.
Proof.
  unfold deploy. destruct (wire _ _) as [x' [[rt' addr']|e]]; [|discriminate].
  destruct (run_start _ _ _) as [s0'|e] eqn:Hs0; [|discriminate].
  destruct (exec_all _ _ _) as [s'|] eqn:Hs; [|discriminate]. intros Heq. injection Heq as <- <- <- <- <-.
  split; [reflexivity|]. split; [exact Hs0|exact Hs].
Qed.

Definition deployed_config (dry : bool) : IngestorConfig (@ObjectStoreConfig DemoFigment) := {|
  cfg_buffer := {| buf_manifest_path := "manifest"; data_prefix := "data"; object_store := tt |};
  cfg_clickhouse := {| ch_endpoint := "http://localhost:8123"; ch_database := "responsive"; ch_table := "logs";
    ch_insert_quorum := None; ch_user := "default"; ch_password := "" |};
  cfg_runtime := {| rs_dry_run := dry; rs_poll_interval_ms := 250; rs_retry_max_attempts := 6;
    rs_retry_initial_backoff_ms := 100; rs_request_timeout_secs := 30; rs_max_inflight_batches := 64;
    rs_max_inflight_bytes := 268435456; rs_estimated_max_batch_bytes := 4194304; rs_fetch_concurrency := 8;
    rs_decode_concurrency := 4; rs_oversize_fault_multiplier := 4; rs_max_descriptors_per_poll := 8 |};
  cfg_ack := {| ak_policy := KEveryN; ak_n := Some 0 |};
  cfg_adapter := {| ap_adapter_version := 1; ap_max_chunk_rows := 2; ap_max_chunk_bytes := 100000;
    ap_apply_deduplication_token := true |};
  cfg_sink := {| sk_max_concurrent_commits := 4; sk_serialization_format := RowBinary; sk_http_client_mode := PerCall |};
  cfg_metrics_server := {| bind_addr := "0.0.0.0:9090" |} |}.

Lemma deployed_load dry : load dry = Ok (deployed_config dry).
Proof. reflexivity. Qed.

Lemma deployed_opens dry : opens_past_cursor (deployed_config dry) deployed_world.
Proof.
  intros store consumer w1' Hopen f Hf. injection Hopen as <- <-. injection Hf as <-. exists 1. by split; vm_compute.
Qed.

Lemma deployed_events (R : relation (WriterState (W := HttpWorld))) evs :
  forallb (λ ev : E2EEvent, match ev with EvSourceWorld _ | EvSinkWorld _ => false
                            | EvWrite _ _ (Abort _ _) => false | _ => true end) evs = true →
  Forall (ev_ok (C := LogConsumer) (F := unit)) evs ∧ Forall (sink_event_within R) evs.
Proof.
  induction evs as [|ev evs IH]; [by split; constructor|]. simpl. intros [Hev Hevs]%andb_true_iff.
  destruct (IH Hevs) as [H1' H2']. split; (constructor; [|done]); destruct ev as [| | | | |i arm []| |]; done.
Qed.

Lemma ingestor_delivers_witness :
  ∃ x rt addr s0 s, deploy false e2e_events = Some (x, rt, addr, s0, s) ∧
    admits (s_trace (sy_shared s)) = [1] ∧ durable (source_of s) = Some 1 ∧
    demo_view (ws_log (s_w2 (sy_shared s))) = [inl 429; inr 100; inl 200; inl 200] ∧
    ∃ d batch rs, sbd_sequence d = 1 ∧ decode_logs batch = Ok rs ∧
      (Forall record_ok rs → ∃ before tr after, ws_log (s_w2 (sy_shared s)) = before ++ tr ++ after ∧
         delivered (logs_adapter_config (deployed_config false)) rs tr).
Proof.
  assert (option_map (λ y, (admits (s_trace (sy_shared y.2)), durable (source_of y.2),
            demo_view (ws_log (s_w2 (sy_shared y.2))))) (deploy false e2e_events) =
          Some ([1], Some 1, [inl 429; inr 100; inl 200; inl 200])) as Hfacts by (vm_compute; reflexivity).
  destruct (deploy false e2e_events) as [[[[[x rt] addr] s0] s]|] eqn:Hrun; [|discriminate Hfacts].
  injection Hfacts as Hadmits Hdurable Hview. exists x, rt, addr, s0, s.
  split; [reflexivity|]. split; [exact Hadmits|]. split; [exact Hdurable|]. split; [exact Hview|].
  destruct (deploy_inv _ _ _ _ _ _ _ Hrun) as (Hwire & Hs0 & Hexec).
  destruct (deployed_events log_grows e2e_events eq_refl) as [Hevs Hsink].
  assert (config_ok (deployed_config false)) as Hok by (split; by vm_compute).
  assert (1 ∈ admits (s_trace (sy_shared s))) as Hq by (rewrite Hadmits; left).
  destruct (ingestor_delivers (false : @Path DemoFigment) deployed_world [demo_answer 429] x rt addr (deployed_config false)
    ClickHouseMetrics_new s0 e2e_events s Hwire (deployed_load false) eq_refl eq_refl Hok (deployed_opens false) Hs0 Hexec
    Hevs Hsink 1 1 (or_intror Hdurable) Hq (N.le_refl 1)) as (d & batch & rs & Hd & _ & _ & Hrs & Hdel).
  exists d, batch, rs. split; [exact Hd|]. split; [exact Hrs|exact Hdel].
Defined.

Lemma ingestor_dry_run_has_no_effect_witness :
  ∃ x rt addr s0 s,
    deploy true (replicate 4 (EvActor (polls false false true)) ++ replicate 3 (EvFetch 0 ArmWork) ++
                 replicate 3 (EvDecode 0 ArmWork) ++ [EvActor (polls false true false)]) = Some (x, rt, addr, s0, s) ∧
    source_ranges_committed (a_progress (sy_actor s)) = 1 ∧
    s_trace (sy_shared s) = [TrAdmit 1] ∧ durable (source_of s) = Some 0 ∧ ws_log (s_w2 (sy_shared s)) = [].
Proof.
  set (evs := _ ++ _ ++ _ ++ _).
  assert (option_map (λ y, (source_ranges_committed (a_progress (sy_actor y.2)), admits (s_trace (sy_shared y.2)),
            durable (rt_source y.1.1.1.2, y.1.1.1.1.1))) (deploy true evs) = Some (1, [1], Some 0)) as Hfacts
    by (vm_compute; reflexivity).
  destruct (deploy true evs) as [[[[[x rt] addr] s0] s]|] eqn:Hrun; [|discriminate Hfacts].
  injection Hfacts as Hranges Hadmits Hdurable. exists x, rt, addr, s0, s.
  split; [reflexivity|]. split; [exact Hranges|].
  destruct (deploy_inv _ _ _ _ _ _ _ Hrun) as (Hwire & Hs0 & Hexec).
  destruct (deployed_events (λ a b, ws_log b = ws_log a) evs eq_refl) as [Hevs Hsink].
  destruct (ingestor_dry_run_has_no_effect (true : @Path DemoFigment) deployed_world [demo_answer 429] x rt addr (deployed_config true)
    ClickHouseMetrics_new s0 evs s Hwire (deployed_load true) eq_refl (deployed_opens true) Hs0 Hexec Hevs Hsink)
    as (Htr & Hdur & Hlog & _).
  split; [rewrite Htr, Hadmits; reflexivity|]. split; [rewrite Hdur; exact Hdurable|exact Hlog].
Defined.
