(* ===== verification/Process.v ===== *)
(** * The process of the ingestor
    (connectors/clickhouse-ingestor/src/bin/clickhouse_ingestor.rs, the end of
    [main]; metrics_server.rs, [serve])

    After the wiring ([Ingestor]) the process has three tasks: [main], which
    runs the runtime to its end, the task of the metrics server, and the task
    that waits for Ctrl-C.  They share the shutdown token.  A state holds the
    machine of the pipeline and where the other tasks stand; an event says which
    of them moves and what the outside answers. *)

From Stdlib Require Import NArith Lia Sorted.
From S2P Require Import Prelude.
From S2P Require Import BTree.
From S2P Require Import Types.
From S2P Require Import AckCoordinator.
From S2P Require Import ByteBudget.
From S2P Require Import Source.
From S2P Require Import Options.
From S2P Require Import Metrics.
From S2P Require Import WriteRetry.
From S2P Require Import Decode.
From S2P Require Import Pipeline.
From S2P Require Import PipelineDemo.
From S2P Require Import PipelineResources.
From S2P Require Import PipelineWorkers.
From S2P Require Import PipelineSafety.
From S2P Require Import PipelineRestart.
From S2P Require Import PipelineProvenance.
From S2P Require Import PipelineProgress.
From S2P Require Import Envelope.
From S2P Require Import OtlpLogs.
From S2P Require Import RowValue.
From S2P Require Import LogsAdapter.
From S2P Require Import Serializer.
From S2P Require Import ClickHouseMetrics.
From S2P Require Import Writer.
From S2P Require Import ClickHouseSink.
From S2P Require Import EndToEnd.
From S2P Require Import IngestorConfig.
From S2P Require Import Ingestor.
Local Open Scope N_scope.

(** ** The tasks *)

(** [serve]: at the bind, at the graceful serve, or over, with what it
    returned or the message of its panic. *)
Inductive ServerPc :=
| SBinding
| SServing
| SEnded (r : result (result unit AnyError) string).

(** [main]: in [runtime.run], at the join of the server task, or over. *)
Inductive MainPc :=
| MRun
| MJoin (runtime_result : RuntimeResult unit)
| MExited (r : result unit AnyError).

(** The lines that report trouble with the server. *)
Inductive ProcessLog :=
| ServerExited (e : AnyError)
| ServerJoinFailed (join_err : string).

Section process.
Context {C F W1 D K W2 T : Type}.
Context `{ConsumerLaws C F W1} `{TypedRecords T} `{Decoder D T} `{Sink K W2 T}.
Context (cf : Config F D K) (addr : string).
Abbreviation Sys := (Sys C F W1 W2 T).
Abbreviation SysEvent := (SysEvent (W1 := W1) (W2 := W2)).

Record Process := {
  p_sys : Sys;
  p_signalled : bool;
  p_server : ServerPc;
  p_main : MainPc;
  p_log : list ProcessLog;
}.

Definition process_start (s0 : Sys) : Process :=
  {| p_sys := s0; p_signalled := false; p_server := SBinding; p_main := MRun; p_log := [] |}.

(** [shutdown.cancel()]. *)
Definition cancel_shutdown (s : Sys) : Sys := on_shared (λ sh, with_tokens true (s_abort sh) sh) s.

Inductive ProcessEvent :=
| PRun (ev : SysEvent)
| PSignal
| PBind (r : result unit string)
| PServe (r : result unit string)
| PPanic (join_err : string)
| PReturn
| PJoined.

Definition with_server (pc : ServerPc) (log : list ProcessLog) (p : Process) : Process :=
  {| p_sys := p_sys p; p_signalled := p_signalled p; p_server := pc; p_main := p_main p; p_log := p_log p ++ log |}.
Definition with_main (pc : MainPc) (log : list ProcessLog) (s : Sys) (p : Process) : Process :=
  {| p_sys := s; p_signalled := p_signalled p; p_server := p_server p; p_main := pc; p_log := p_log p ++ log |}.

(** The task around [serve] reports its error and ends all the same. *)
Definition server_ends (r : result unit AnyError) (p : Process) : Process :=
  with_server (SEnded (Ok r)) (match r with Ok _ => [] | Err e => [ServerExited e] end) p.

(** [serve], at its two awaits: the bind, and the graceful serve, which returns
    without an error only when the token is cancelled. *)
Definition serve_bind (r : result unit string) (p : Process) : Process :=
  match with_context ("binding metrics server to " +:+ addr) r with
  | Ok _ => with_server SServing [] p
  | Err e => server_ends (Err e) p
  end.
Definition serve_until (r : result unit string) (p : Process) : option Process :=
  if is_ok r && negb (s_shutdown (sy_shared (p_sys p))) then None
  else Some (server_ends (with_context "metrics server error" r) p).

(** What [Runtime::run] returns when its actor and its workers are over. *)
Definition run_result (s : Sys) : RuntimeResult unit :=
  final_result (match a_pc (sy_actor s) with ADone r => r | _ => Ok tt end)
    ((λ _, Joined (Ok tt)) <$> sy_fetchers s) ((λ _, Joined (Ok tt)) <$> sy_decoders s)
    ((λ _, Joined (Ok tt)) <$> sy_writers s).

(** One step.  The token is cancelled by the signal task, once, and by [main]
    when the runtime has returned. *)
Definition process_step (ev : ProcessEvent) (p : Process) : option Process :=
  match p_main p, ev with
  | MExited _, _ => None
  | MRun, PRun EvShutdown => None
  | MRun, PRun ev => s ← exec cf ev (p_sys p); Some (with_main MRun [] s p)
  | _, PSignal =>
      if p_signalled p then None
      else Some {| p_sys := cancel_shutdown (p_sys p); p_signalled := true; p_server := p_server p;
                   p_main := p_main p; p_log := p_log p |}
  | _, PBind r => match p_server p with SBinding => Some (serve_bind r p) | _ => None end
  | _, PServe r => match p_server p with SServing => serve_until r p | _ => None end
  | _, PPanic join_err =>
      match p_server p with SEnded _ => None | _ => Some (with_server (SEnded (Err join_err)) [] p) end
  | MRun, PReturn =>
      if ended (p_sys p)
      then Some (with_main (MJoin (run_result (p_sys p))) [] (cancel_shutdown (p_sys p)) p)
      else None
  | MJoin r, PJoined =>
      match p_server p with
      | SEnded joined =>
          Some (with_main (MExited (main_result r))
            (match joined with Ok _ => [] | Err e => [ServerJoinFailed e] end) (p_sys p) p)
      | _ => None
      end
  | _, _ => None
  end.

Fixpoint process_run (evs : list ProcessEvent) (p : Process) : option Process :=
  match evs with
  | [] => Some p
  | ev :: rest => p ← process_step ev p; process_run rest p
  end.

(** ** The process is a run of the pipeline *)

(** What the pipeline sees of the events. *)
Definition pipeline_events (evs : list ProcessEvent) : list SysEvent :=
  omap (λ ev, match ev with PRun ev => Some ev | PSignal => Some EvShutdown | _ => None end) evs.

(** A state of the process against the states of the pipeline: while [main]
    runs, its pipeline is reached by the events so far; afterwards it is the one
    the runtime returned from, with the token cancelled. *)
Definition process_ok (s0 : Sys) (evs : list ProcessEvent) (p : Process) : Prop :=
  ∃ pre s, pre `prefix_of` pipeline_events evs ∧ exec_all cf pre s0 = Some s ∧
    match p_main p with
    | MRun => pre = pipeline_events evs ∧ p_sys p = s
    | MJoin r => ended s = true ∧ r = run_result s ∧ p_sys p = cancel_shutdown s
    | MExited res => ended s = true ∧ res = main_result (run_result s) ∧ p_sys p = cancel_shutdown s ∧
                     ∃ r, p_server p = SEnded r
    end.

Lemma pipeline_events_snoc evs ev : pipeline_events (evs ++ [ev]) = pipeline_events evs ++ pipeline_events [ev].
Proof. apply omap_app. Qed.

Lemma exec_all_snoc evs ev s0 s s' :
  exec_all cf evs s0 = Some s → exec cf ev s = Some s' → exec_all cf (evs ++ [ev]) s0 = Some s'.
Proof. intros Hs Hev. rewrite exec_all_app, Hs. simpl. by rewrite Hev. Qed.

(** An event that leaves the pipeline and [main] where they are. *)
Lemma process_ok_aside s0 evs ev p p' :
  process_ok s0 evs p → pipeline_events [ev] = [] → p_main p' = p_main p → p_sys p' = p_sys p →
  ((∃ r, p_server p = SEnded r) → ∃ r, p_server p' = SEnded r) → process_ok s0 (evs ++ [ev]) p'.
Proof.
  intros (pre & s & Hpre & Hex & Hm) Hev Hmain Hsys Hsrv. exists pre, s.
  rewrite pipeline_events_snoc, Hev, app_nil_r, Hmain, Hsys. split_and!; [done..|].
  destruct (p_main p); [done..|]. destruct Hm as (? & ? & ? & ?). split_and!; auto.
Qed.

Lemma process_step_ok s0 evs ev p p' :
  process_ok s0 evs p → process_step ev p = Some p' → process_ok s0 (evs ++ [ev]) p'.
Proof.
  intros Hok Hstep. pose proof Hok as (pre & s & Hpre & Hex & Hm). unfold process_step in Hstep.
  destruct (p_main p) as [|r|res] eqn:Hmain; [| |done].
  - destruct Hm as [-> Hs]. destruct ev as [ev| |r|r|e| |]; try done.
    + assert (∃ s1, exec cf ev (p_sys p) = Some s1 ∧ p' = with_main MRun [] s1 p) as (s1 & Hev & ->).
      { destruct ev; [done|..]; (destruct (exec cf _ _) as [s1|]; [|done]); injection Hstep as <-; by eexists. }
      exists (pipeline_events (evs ++ [PRun ev])), s1. split; [done|]. split; [|done].
      rewrite pipeline_events_snoc. eapply exec_all_snoc; [exact Hex|]. by rewrite <- Hs.
    + destruct (p_signalled p); [done|]. injection Hstep as <-. exists (pipeline_events (evs ++ [PSignal])).
      exists (cancel_shutdown s). split; [done|]. rewrite pipeline_events_snoc. simpl. rewrite ?Hmain, Hs.
      split; [|done]. by eapply exec_all_snoc.
    + destruct (p_server p) eqn:Hsrv; try done. injection Hstep as <-.
      eapply process_ok_aside; [exact Hok|..]; unfold serve_bind, with_context; destruct r; try done;
        simpl; intros [? ?]; congruence.
    + destruct (p_server p) eqn:Hsrv; try done. unfold serve_until in Hstep. destruct (_ && _); [done|].
      injection Hstep as <-. eapply process_ok_aside; [exact Hok|done..|]. intros _. by eexists.
    + destruct (p_server p) eqn:Hsrv; try done; injection Hstep as <-;
        (eapply process_ok_aside; [exact Hok|done..|]; intros _; by eexists).
    + destruct (ended (p_sys p)) eqn:Hend; [|done]. injection Hstep as <-. exists (pipeline_events evs), s.
      rewrite pipeline_events_snoc, app_nil_r. split_and!; [done..|]. simpl. by subst s.
  - destruct Hm as (Hend & Hr & Hs). destruct ev as [ev| |r'|r'|e| |]; try done.
    + destruct (p_signalled p); [done|]. injection Hstep as <-. exists pre, s. rewrite pipeline_events_snoc.
      split; [by apply prefix_app_r|]. split; [done|]. simpl. rewrite ?Hmain, Hs. by split_and!.
    + destruct (p_server p) eqn:Hsrv; try done. injection Hstep as <-.
      eapply process_ok_aside; [exact Hok|..]; unfold serve_bind, with_context; destruct r'; try done;
        simpl; intros [? ?]; congruence.
    + destruct (p_server p) eqn:Hsrv; try done. unfold serve_until in Hstep. destruct (_ && _); [done|].
      injection Hstep as <-. eapply process_ok_aside; [exact Hok|done..|]. intros _. by eexists.
    + destruct (p_server p) eqn:Hsrv; try done; injection Hstep as <-;
        (eapply process_ok_aside; [exact Hok|done..|]; intros _; by eexists).
    + destruct (p_server p) as [| |joined] eqn:Hsrv; try done. injection Hstep as <-. exists pre, s.
      rewrite pipeline_events_snoc, app_nil_r. split_and!; [done..|]. simpl. rewrite Hr, Hsrv. split_and!; [done..|by eexists].
Qed.

Lemma process_run_ok evs : ∀ s0 before p p',
  process_ok s0 before p → process_run evs p = Some p' → process_ok s0 (before ++ evs) p'.
Proof.
  induction evs as [|ev evs IH]; intros s0 before p p' Hok Hrun; cbn [process_run] in Hrun.
  { injection Hrun as <-. by rewrite app_nil_r. }
  destruct (process_step ev p) as [p1|] eqn:Hstep; [|done]. rewrite (cons_middle ev), app_assoc.
  eapply IH; [|exact Hrun]. by eapply process_step_ok.
Qed.

Lemma process_runs evs s0 p : process_run evs (process_start s0) = Some p → process_ok s0 evs p.
Proof.
  intros Hrun. apply (process_run_ok evs s0 [] (process_start s0)); [|done].
  exists [], s0. by split_and!.
Qed.

(** Workers that left returned [Ok]; the actor decides. *)
Lemma join_clean {A} what (l : list A) : join_all what (Ok tt) ((λ _, Joined (Ok tt)) <$> l) = Ok tt.
Proof. by induction l. Qed.

Lemma run_result_done (s : Sys) r : a_pc (sy_actor s) = ADone r → run_result s = r.
Proof. intros Hpc. unfold run_result, final_result. rewrite Hpc, !join_clean. by destruct r as [[]|]. Qed.

Lemma ended_done (s : Sys) : ended s = true → ∃ r, a_pc (sy_actor s) = ADone r.
Proof.
  unfold ended, actor_done. destruct (a_pc (sy_actor s)) as [| | | |r]; try done. intros _. by exists r.
Qed.

(** The token is cancelled in the pipeline only by the events. *)
Lemma exec_all_shutdown evs : ∀ s s',
  exec_all cf evs s = Some s' → s_shutdown (sy_shared s') = true → s_shutdown (sy_shared s) = true ∨ EvShutdown ∈ evs.
Proof.
  induction evs as [|ev evs IH]; intros s s' Hrun Hs'; simpl in Hrun; [injection Hrun as <-; by left|].
  destruct (exec cf ev s) as [s1|] eqn:Hev; [|done]. simpl in Hrun.
  destruct (IH _ _ Hrun Hs') as [Hs1|Hin]; [|right; by right].
  destruct ev; [right; by left|left; rewrite <- Hs1; symmetry; by eapply exec_shutdown; [|exact Hev]..].
Qed.

(** ** How long a shutdown takes *)

Definition server_work (pc : ServerPc) : N := match pc with SBinding => 2 | SServing => 1 | SEnded _ => 0 end.
Definition main_work (pc : MainPc) : N := match pc with MRun => 2 | MJoin _ => 1 | MExited _ => 0 end.
Definition process_work (p : Process) : N := work cf (p_sys p) + server_work (p_server p) + main_work (p_main p).

(** The steps of the three tasks and of the tasks of the pipeline. *)
Definition is_step (ev : ProcessEvent) : bool :=
  match ev with PRun ev => is_task ev | PSignal => false | _ => true end.
Definition process_steps (evs : list ProcessEvent) : N := sum_N ((λ ev, if is_step ev then 1 else 0) <$> evs).

Lemma cancel_progress (s : Sys) : work cf (cancel_shutdown s) = work cf s ∧ draining (cancel_shutdown s) = draining s.
Proof. by destruct (environment_progress cf EvShutdown s (cancel_shutdown s) eq_refl eq_refl) as (_ & _ & ? & ?). Qed.

(** The server moves alone. *)
Lemma server_step_work ev p p' :
  match ev with PBind _ | PServe _ | PPanic _ => True | _ => False end → process_step ev p = Some p' →
  p_sys p' = p_sys p ∧ p_main p' = p_main p ∧ server_work (p_server p') + 1 ≤ server_work (p_server p).
Proof.
  intros Hev Hstep. unfold process_step in Hstep.
  assert (∀ x, (match p_main p with MExited _ => None | _ => x end) = Some p' → x = Some p') as Hx
    by (intros x; by destruct (p_main p)).
  destruct ev as [| |r|r|e| |]; try done.
  - assert ((match p_server p with SBinding => Some (serve_bind r p) | _ => None end) = Some p') as Hs
      by (apply Hx; rewrite <- Hstep; by destruct (p_main p)).
    destruct (p_server p); try done. injection Hs as <-. by destruct r.
  - assert ((match p_server p with SServing => serve_until r p | _ => None end) = Some p') as Hs
      by (apply Hx; rewrite <- Hstep; by destruct (p_main p)).
    destruct (p_server p); try done. unfold serve_until in Hs. destruct (_ && _); [done|]. by injection Hs as <-.
  - assert ((match p_server p with SEnded _ => None | _ => Some (with_server (SEnded (Err e)) [] p) end) = Some p') as Hs
      by (apply Hx; rewrite <- Hstep; by destruct (p_main p)).
    destruct (p_server p); try done; injection Hs as <-; (split_and!; [done..|simpl; lia]).
Qed.

Lemma process_step_work b ev p p' :
  is_u32 (effective_retry_max_attempts (cf_options cf)) → (p_main p = MRun → safe_state cf b (p_sys p)) →
  draining (p_sys p) = true → process_step ev p = Some p' →
  process_work p' + (if is_step ev then 1 else 0) ≤ process_work p ∧ draining (p_sys p') = true.
Proof.
  intros Hm Hsafe Hd Hstep. destruct (cancel_progress (p_sys p)) as [Hcw Hcd]. unfold process_work.
  assert (match ev with PBind _ | PServe _ | PPanic _ => True | _ => False end ∨
          match ev with PRun _ | PSignal | PReturn | PJoined => True | _ => False end) as [Hev|Hev]
    by (destruct ev; auto).
  { destruct (server_step_work ev p p' Hev Hstep) as (-> & -> & Hle). split; [|done]. destruct ev; try done; cbn [is_step]; lia. }
  unfold process_step in Hstep. destruct (p_main p) as [|r|res] eqn:Hmain; [| |done].
  - destruct ev as [ev| |r|r|e| |]; try done.
    + assert (∃ s1, exec cf ev (p_sys p) = Some s1 ∧ p' = with_main MRun [] s1 p) as (s1 & Hex & ->).
      { destruct ev; [done|..]; (destruct (exec cf _ _) as [s1|]; [|done]); injection Hstep as <-; by eexists. }
      destruct (exec_progress cf b ev _ _ Hm Hex (Hsafe eq_refl)) as (_ & _ & Hw). destruct (Hw Hd). cbn [with_main p_sys p_server p_main is_step server_work main_work]. split; [lia|done].
    + destruct (p_signalled p); [done|]. injection Hstep as <-. cbn [with_main p_sys p_server p_main is_step server_work main_work]. rewrite Hcw, Hcd. split; [lia|done].
    + destruct (ended (p_sys p)); [|done]. injection Hstep as <-. cbn [with_main p_sys p_server p_main is_step server_work main_work]. rewrite Hcw, Hcd. split; [lia|done].
  - destruct ev as [ev| |r'|r'|e| |]; try done.
    + destruct (p_signalled p); [done|]. injection Hstep as <-. cbn [with_main p_sys p_server p_main is_step server_work main_work]. rewrite Hcw, Hcd. split; [lia|done].
    + destruct (p_server p) eqn:Hsrv; try done. injection Hstep as <-. rewrite <- Hsrv. cbn [with_main p_sys p_server p_main is_step server_work main_work]. split; [lia|done].
Qed.

Definition exited (p : Process) : Prop := ∃ res, p_main p = MExited res.

Lemma process_moves b s0 evs p :
  process_ok s0 evs p → (p_main p = MRun → live_state b cf (p_sys p)) →
  exited p ∨ ∃ ev p', is_step ev = true ∧ process_step ev p = Some p'.
Proof.
  intros (pre & s & _ & _ & Hm) Hlive. unfold process_step. destruct (p_main p) as [|r|res] eqn:Hmain.
  - right. destruct (live_moves _ _ _ (Hlive eq_refl)) as [Hend|[s' Hs']].
    { exists PReturn. rewrite Hend. by eexists. }
    destruct (next_task_some _ _ _ Hs') as (ev & _ & Ht & Hex). exists (PRun ev). destruct ev; try done; rewrite Hex; by eexists.
  - right. destruct Hm as (_ & _ & Hs). destruct (p_server p) as [| |joined] eqn:Hsrv.
    + exists (PBind (Ok tt)). by eexists.
    + exists (PServe (Ok tt)). unfold serve_until. rewrite Hs. by eexists.
    + exists PJoined. by eexists.
  - left. by exists res.
Qed.

(** The states of the process of a runtime that [build] returned. *)
Definition process_reaches (b : RuntimeBuilder C F D K) (w1 : W1) (w2 : W2) (p : Process) : Prop :=
  ∃ rt s0 evs, build b = Ok rt ∧ run_start rt w1 w2 = Ok s0 ∧ cf = run_config rt ∧
    process_run evs (process_start s0) = Some p.

Lemma process_run_app evs1 evs2 p :
  process_run (evs1 ++ evs2) p = (p1 ← process_run evs1 p; process_run evs2 p1).
Proof.
  revert p. induction evs1 as [|ev evs1 IH]; intros p; [done|]. simpl.
  destruct (process_step ev p) as [p1|]; [apply IH|done].
Qed.

Lemma process_reaches_on b w1 w2 p evs p' :
  process_reaches b w1 w2 p → process_run evs p = Some p' → process_reaches b w1 w2 p'.
Proof.
  intros (rt & s0 & evs0 & Hb & Hs0 & Hcf & Hrun) Hevs. exists rt, s0, (evs0 ++ evs). split_and!; try done.
  by rewrite process_run_app, Hrun.
Qed.

Lemma process_reaches_sys b w1 w2 p :
  process_reaches b w1 w2 p → ∃ s0 evs, process_ok s0 evs p ∧ (p_main p = MRun → run_reaches b w1 w2 cf (p_sys p)).
Proof.
  intros (rt & s0 & evs & Hb & Hs0 & Hcf & Hrun). exists s0, evs. pose proof (process_runs _ _ _ Hrun) as Hok.
  split; [done|]. intros Hmain. destruct Hok as (pre & s & _ & Hex & Hm). rewrite Hmain in Hm. destruct Hm as [_ ->].
  exists rt, s0, pre. by split_and!.
Qed.

Lemma process_run_work b w1 w2 evs : ∀ p p',
  is_u32 (effective_retry_max_attempts (cf_options cf)) → baseline_u64 b → process_reaches b w1 w2 p →
  draining (p_sys p) = true → process_run evs p = Some p' → process_work p' + process_steps evs ≤ process_work p.
Proof.
  induction evs as [|ev evs IH]; intros p p' Hm Hb Hp Hd Hrun; cbn [process_run] in Hrun.
  { injection Hrun as <-. unfold process_steps. simpl. lia. }
  destruct (process_step ev p) as [p1|] eqn:Hstep; [|done].
  assert (process_reaches b w1 w2 p1) as Hp1 by (eapply (process_reaches_on _ _ _ p [ev]); [done|]; simpl; by rewrite Hstep).
  destruct (process_reaches_sys _ _ _ _ Hp) as (s0 & evs0 & _ & Hsys).
  destruct (process_step_work (baseline b) ev p p1 Hm) as [Hle Hd1]; [|done..|].
  { intros Hmain. eapply run_safe; [by apply Hsys|done]. }
  specialize (IH p1 p' Hm Hb Hp1 Hd1 Hrun). unfold process_steps in *. rewrite sum_N_fmap_cons. lia.
Qed.

End process.

(** ** The exit of the binary *)

Section exit.
Context {C F W1 W : Type}.
Context `{ConsumerLaws C F W1} `{Reqwest W} `{SerdeJson} `{P : OtlpProto} `{Sha256} `{Figment}.
Context `{!MainEnv (C := C) (W1 := W1)}.

(** What the outside may do to the two worlds during a run. *)
Definition process_event_ok (ev : ProcessEvent (W1 := W1) (W2 := WriterState (W := W))) : Prop :=
  match ev with PRun ev => ev_ok (C := C) (F := F) ev ∧ sink_event_within log_grows ev | _ => True end.

Lemma pipeline_events_ok evs pre :
  Forall process_event_ok evs → pre `prefix_of` pipeline_events evs →
  Forall (ev_ok (C := C) (F := F)) pre ∧ Forall (sink_event_within log_grows) pre ∧ (EvShutdown ∈ pre → PSignal ∈ evs ∨ PRun EvShutdown ∈ evs).
Proof.
  intros Hall [k Hpre].
  assert (∀ ev, ev ∈ pre → (∃ ev', ev' ∈ evs ∧ (ev' = PRun ev ∨ ev' = PSignal ∧ ev = EvShutdown))) as Hin.
  { intros ev Hev. assert (ev ∈ pipeline_events evs) as Hp by (rewrite Hpre; apply elem_of_app; by left).
    apply list_elem_of_omap in Hp as (ev' & Hev' & Heq). exists ev'. split; [done|]. destruct ev'; naive_solver. }
  rewrite !Forall_forall in *. split_and!.
  - intros ev Hev. destruct (Hin ev Hev) as (ev' & Hev' & [->|[-> ->]]); [apply (Hall _ Hev')|done].
  - intros ev Hev. destruct (Hin ev Hev) as (ev' & Hev' & [->|[-> ->]]); [apply (Hall _ Hev')|done].
  - intros Hev. destruct (Hin _ Hev) as (ev' & Hev' & [->|[-> _]]); auto.
Qed.

Lemma process_run_cancels (cf : Config F OtlpLogsDecoder (IngestorSink (W := W))) addr evs :
  ∀ p p' : Process (C := C) (F := F), process_run cf addr evs p = Some p' → PRun EvShutdown ∉ evs.
Proof.
  induction evs as [|ev evs IH]; intros p p' Hrun Hin; [by apply not_elem_of_nil in Hin|]. cbn [process_run] in Hrun.
  destruct (process_step cf addr ev p) as [p1|] eqn:Hstep; [|done].
  apply elem_of_cons in Hin as [<-|Hin]; [|by eapply IH]. unfold process_step in Hstep. by destruct (p_main p).
Qed.

End exit.

(** ** Concrete processes *)

(** The workers find their channels closed and leave. *)
Definition workers_leave {W1 W2} (fetchers decoders writers : nat) : list (ProcessEvent (W1 := W1) (W2 := W2)) :=
  ((λ i, PRun (EvFetch i ArmWork)) <$> seq 0 fetchers) ++ ((λ i, PRun (EvDecode i ArmWork)) <$> seq 0 decoders) ++
  ((λ i, PRun (EvWrite i ArmWork (Proceed false))) <$> seq 0 writers).

(** The run of the deployment in [Ingestor], whose metrics address is taken,
    until Ctrl-C. *)
Definition deployed_process_events : list (ProcessEvent (W1 := LogWorld) (W2 := WriterState (W := HttpWorld))) :=
  PBind (Err "address in use") :: (PRun <$> e2e_events) ++
  [PSignal; PRun (EvActor (polls true false false)); PRun (EvActor (polls true false false));
   PRun (EvWrite 0 ArmWork (Proceed false))] ++
  workers_leave 8 4 4 ++ [PReturn; PJoined].

Definition deployed_process :=
  match wire (C := LogConsumer) (F := unit) (false : @Path DemoFigment) (deployed_world, [demo_answer 429]) with
  | (x, Ok (rt, addr)) =>
      match run_start rt x.1 (silent x.2 ClickHouseMetrics_new) with
      | Ok s0 =>
          match process_run (run_config rt) "0.0.0.0:9090" deployed_process_events (process_start s0) with
          | Some p => Some (x, rt, addr, s0, p)
          | None => None
          end
      | Err _ => None
      end
  | (_, Err _) => None
  end.

Lemma deployed_process_inv x rt addr s0 p :
  deployed_process = Some (x, rt, addr, s0, p) →
  wire (C := LogConsumer) (F := unit) (false : @Path DemoFigment) (deployed_world, [demo_answer 429]) = (x, Ok (rt, addr)) ∧
  run_start rt x.1 (silent x.2 ClickHouseMetrics_new) = Ok s0 ∧
  process_run (run_config rt) "0.0.0.0:9090" deployed_process_events (process_start s0) = Some p.
Proof.
  unfold deployed_process. destruct (wire _ _) as [x' [[rt' addr']|e]]; [|discriminate].
  destruct (run_start _ _ _) as [s0'|e] eqn:Hs0; [|discriminate].
  destruct (process_run _ _ _ _) as [p'|] eqn:Hp; [|discriminate]. intros Heq. injection Heq as <- <- <- <- <-.
  split; [reflexivity|]. split; [exact Hs0|exact Hp].
Qed.

Lemma deployed_process_events_ok : Forall (process_event_ok (C := LogConsumer) (F := unit)) deployed_process_events.
Proof.
  assert (forallb (λ ev, match ev with PRun (EvSourceWorld _) | PRun (EvSinkWorld _) | PRun (EvWrite _ _ (Abort _ _)) => false
                         | _ => true end) deployed_process_events = true) as Hquiet by (vm_compute; reflexivity).
  apply Forall_forall. intros ev Hev. rewrite forallb_forall in Hquiet. specialize (Hquiet ev).
  rewrite <- list_elem_of_In in Hquiet. specialize (Hquiet Hev). destruct ev as [[| | | | |i arm []| |]| | | | | |]; done.
Qed.


(** Two units in flight when the signal comes; the server serves until then. *)
Definition demo_signalled : list (ProcessEvent (W1 := LogWorld) (W2 := ScriptWorld)) :=
  PBind (Ok tt) :: (PRun <$> demo_admit ++ demo_decode) ++ [PSignal; PRun (EvActor (polls true false false))].
Definition demo_exit : list (ProcessEvent (W1 := LogWorld) (W2 := ScriptWorld)) :=
  (PRun <$> demo_write ++ [EvActor (polls false true false); step_actor; write_work 0]) ++ PServe (Ok tt) :: workers_leave 8 4 4 ++ [PReturn; PJoined].

Definition demo_process (evs : list (ProcessEvent (W1 := LogWorld) (W2 := ScriptWorld))) :=
  match build (demo_builder false) with
  | Ok rt =>
      match run_start rt demo_world demo_sink_world with
      | Ok s0 => process_run (run_config rt) "addr" evs (process_start s0)
      | Err _ => None
      end
  | Err _ => None
  end.

Lemma demo_process_reaches evs p :
  demo_process evs = Some p → process_reaches (PipelineDemo.demo_config false) "addr" (demo_builder false) demo_world demo_sink_world p.
Proof.
  unfold demo_process. assert (∃ rt, build (demo_builder false) = Ok rt ∧ PipelineDemo.demo_config false = run_config rt) as (rt & Hb & Hcf)
    by (eexists; split; reflexivity).
  rewrite Hb. destruct (run_start rt demo_world demo_sink_world) as [s0|e] eqn:Hs0; [|discriminate].
  intros Hrun. exists rt, s0, evs. split; [exact Hb|]. split; [exact Hs0|]. split; [exact Hcf|]. by rewrite Hcf.
Qed.

