(* ===== verification/MetricsServer.v ===== *)
(** * The metrics endpoint
    (connectors/clickhouse-ingestor/src/metrics_registry.rs, metrics_server.rs)

    The registry that the binary owns and the two routes it serves.  The text
    encoder of prometheus-client, the renderer of the metrics-rs handle and the
    routing of axum are other crates': parameters, or the table of routes.  The
    registered metric structs are shared with the runtime and the sink, so a
    scrape takes their values of the moment.  The task that binds the socket and
    serves until the shutdown is in [Process]. *)

From Stdlib Require Import NArith.
From S2P Require Import Prelude.
From S2P Require Import Metrics.
From S2P Require Import ClickHouseMetrics.
Local Open Scope N_scope.

Class PrometheusText := {
  PrometheusHandle : Type;
  handle_render : PrometheusHandle → string;
  (** [encode]: the registered names with the shared metric structs. *)
  encode : list string → RuntimeMetrics → ClickHouseMetrics → result string string;
}.

Section server.
Context `{PrometheusText}.

Record MetricsRegistry := {
  mr_registered : list string;
  mr_runtime : RuntimeMetrics;
  mr_clickhouse : ClickHouseMetrics;
  mr_prom_handle : PrometheusHandle;
}.

(** [MetricsRegistry::new]: both structs registered, the runtime's first. *)
Definition MetricsRegistry_new (prom_handle : PrometheusHandle) : MetricsRegistry := {|
  mr_registered := registered_metrics.*1 ++ ClickHouseMetrics_registered;
  mr_runtime := RuntimeMetrics_new;
  mr_clickhouse := ClickHouseMetrics_new;
  mr_prom_handle := prom_handle |}.

(** The lock, which a panicking holder may have poisoned: the registry is used
    all the same. *)
Definition lock_registry (l : result MetricsRegistry MetricsRegistry) : MetricsRegistry :=
  match l with Ok g => g | Err poisoned => poisoned end.

Record HttpResponse := { hr_status : N; hr_body : string }.

Definition render_metrics (l : result MetricsRegistry MetricsRegistry) : HttpResponse :=
  let guard := lock_registry l in
  match encode (mr_registered guard) (mr_runtime guard) (mr_clickhouse guard) with
  | Err e => {| hr_status := 500; hr_body := "encode error: " +:+ e |}
  | Ok body => {| hr_status := 200; hr_body := body +:+ handle_render (mr_prom_handle guard) |}
  end.

(** The routes; axum answers 404 for any other path. *)
Definition router (path : string) (l : result MetricsRegistry MetricsRegistry) : option HttpResponse :=
  if String.eqb path "/metrics" then Some (render_metrics l)
  else if String.eqb path "/-/healthy" then Some {| hr_status := 200; hr_body := "OK" |}
  else None.

(** Liveness does not depend on the metrics. *)
Lemma healthy_always l : router "/-/healthy" l = Some {| hr_status := 200; hr_body := "OK" |}.
Proof. done. Qed.

(** A scrape of the fresh registry asks the encoder for every registered
    metric, each name once. *)
Lemma registered_names_distinct handle : NoDup (mr_registered (MetricsRegistry_new handle)).
Proof. apply (bool_decide_unpack _). by vm_compute. Qed.
End server.
