(* ===== verification/Bench.v ===== *)
(** * The ORDER BY benchmark harness
    (connectors/clickhouse-ingestor/src/bench.rs)

    The query shapes with their SQL, and the two table definitions under
    comparison. *)

From Stdlib Require Import NArith.
From S2P Require Import Prelude.
From S2P Require Import LogsAdapter.
Local Open Scope N_scope.

Inductive QueryShape :=
| LastNForService (service : string) (limit : N)
| TimeRangeWithSeverity (from_ts to_ts : N)
| AttributeLookup (key value : string) (limit : N).

Definition render_sql (self : QueryShape) (database table : string) : string :=
  match self with
  | LastNForService service limit =>
      "SELECT count() FROM " +:+ database +:+ "." +:+ table +:+ " WHERE ServiceName = '" +:+ service +:+
      "' ORDER BY Timestamp DESC LIMIT " +:+ show limit
  | TimeRangeWithSeverity from_ts to_ts =>
      "SELECT count() FROM " +:+ database +:+ "." +:+ table +:+ " WHERE Timestamp BETWEEN fromUnixTimestamp(" +:+
      show from_ts +:+ ") AND fromUnixTimestamp(" +:+ show to_ts +:+ ") AND SeverityNumber >= 9"
  | AttributeLookup key value limit =>
      "SELECT count() FROM " +:+ database +:+ "." +:+ table +:+ " WHERE LogAttributes['" +:+ key +:+ "'] = '" +:+
      value +:+ "' LIMIT " +:+ show limit
  end.

(** [str::replace] for a non-empty pattern: the occurrences from the left,
    without overlap; [skip] counts the rest of an occurrence. *)
Fixpoint replace_from (skip : nat) (pattern to s : string) : string :=
  match s with
  | EmptyString => ""
  | String c s' =>
      match skip with
      | S skip => replace_from skip pattern to s'
      | O =>
          if String.prefix pattern s
          then to +:+ replace_from (String.length pattern - 1) pattern to s'
          else String c (replace_from 0 pattern to s')
      end
  end.
Definition replace (pattern to s : string) : string := replace_from 0 pattern to s.

Definition alpha_default_ddl (adapter : LogsAdapterConfig) : string := logs_table_ddl adapter.

Definition alpha_order : string :=
  "ORDER BY (toDate(Timestamp), ServiceName, _odb_sequence, _odb_entry_index, _odb_record_index)".
Definition raw_order : string := "ORDER BY (_odb_sequence, _odb_entry_index, _odb_record_index)".

Definition raw_landing_table_ddl (adapter : LogsAdapterConfig) : string :=
  replace alpha_order raw_order (logs_table_ddl adapter).

Definition alpha_query_suite : list QueryShape := [
  LastNForService "controller" 100;
  TimeRangeWithSeverity 1700000000 1700010000;
  AttributeLookup "topic" "foo" 100 ].

(** ** Replacement *)

Lemma prefix_app p s : String.prefix p (p +:+ s) = true.
Proof. induction p as [|c p IH]; [by destruct s|]. simpl. by destruct (ascii_dec c c). Qed.

Lemma replace_skip p to a s : replace_from (String.length a) p to (a +:+ s) = replace_from 0 p to s.
Proof. induction a as [|c a IH]; [done|]. simpl. exact IH. Qed.

(** The pattern's first character does not occur in [a]. *)
Fixpoint char_free (c : Ascii.ascii) (a : string) : bool :=
  match a with EmptyString => true | String x a => negb (Ascii.eqb c x) && char_free c a end.

Lemma replace_free c p to a s :
  char_free c a = true → replace_from 0 (String c p) to (a +:+ s) = a +:+ replace_from 0 (String c p) to s.
Proof.
  induction a as [|x a IH]; [done|]. simpl. intros [Hx Ha]%andb_true_iff.
  apply negb_true_iff, Ascii.eqb_neq in Hx. destruct (ascii_dec c x) as [->|]; [done|]. by rewrite IH.
Qed.

Lemma replace_here p to s : p ≠ "" → replace_from 0 p to (p +:+ s) = to +:+ replace_from 0 p to s.
Proof.
  destruct p as [|c p]; [done|]. intros _. pose proof (prefix_app (String c p) s) as Hp.
  change (String c p +:+ s) with (String c (p +:+ s)) in *. cbn [replace_from]. rewrite Hp.
  f_equal. change (String.length (String c p) - 1)%nat with (String.length p - 0)%nat.
  rewrite Nat.sub_0_r. apply replace_skip.
Qed.

(** The two tables of the comparison differ in their ORDER BY clause and in
    nothing else, for names without a capital O. *)
Theorem raw_landing_swaps_order (adapter : LogsAdapterConfig) :
  char_free "O" (database adapter) = true → char_free "O" (table adapter) = true →
  ∃ columns tail,
    alpha_default_ddl adapter =
      "CREATE TABLE IF NOT EXISTS " +:+ database adapter +:+ "." +:+ table adapter +:+ columns +:+ alpha_order +:+ tail ∧
    raw_landing_table_ddl adapter =
      "CREATE TABLE IF NOT EXISTS " +:+ database adapter +:+ "." +:+ table adapter +:+ columns +:+ raw_order +:+ tail.
Proof.
  intros Hdb Htable. unfold raw_landing_table_ddl, alpha_default_ddl, logs_table_ddl, replace.
  match goal with |- context [table adapter +:+ ?b] => set (body := b) end.
  exists (String.substring 0 988 body), (String.substring (988 + 93) 200 body).
  assert (body = String.substring 0 988 body +:+ alpha_order +:+ String.substring (988 + 93) 200 body) as Hbody
    by (vm_compute; reflexivity).
  assert (replace_from 0 alpha_order raw_order body =
          String.substring 0 988 body +:+ raw_order +:+ String.substring (988 + 93) 200 body) as Hreplaced
    by (vm_compute; reflexivity).
  split; [by rewrite Hbody at 1|]. rewrite <- Hreplaced. clearbody body.
  change (replace_from 0 alpha_order raw_order ("CREATE TABLE IF NOT EXISTS " +:+ ?s)) with
    ("CREATE TABLE IF NOT EXISTS " +:+ replace_from 0 alpha_order raw_order s).
  unfold alpha_order. rewrite replace_free by done. f_equal. f_equal.
  change (replace_from 0 ?p ?t ("." +:+ ?s)) with ("." +:+ replace_from 0 p t s). f_equal.
  by rewrite replace_free.
Qed.
