(* ===== verification/Testing.v ===== *)
(** * Unit tests

    The repository's unit tests, translated beside the component they test, are
    runs of the model: a test is a computation of [M] over the values it makes,
    which panics or returns.  A suite is a list of named tests, and what is
    proved of it is that none of them fails; the names are those of the source.
    A test that spawns tasks is a sequence of the steps of the tasks in the
    order the test forces. *)

From Stdlib Require Import NArith.
From S2P Require Import Prelude.

(** The message of a panic. *)
Definition Panic : Type := string.
Definition TestResult : Type := result unit Panic.

(** [#[test] fn]: run from the values the test makes first. *)
Definition test {S} (s : S) (body : M S Panic unit) : TestResult := (body s).2.
(** A test without a mutable value. *)
Definition pure_test (body : M unit Panic unit) : TestResult := test tt body.

Section assertions.
Context {S : Type}.

(** [assert!], [assert_eq!], [assert_ne!], [panic!]. *)
Definition assert (b : bool) : M S Panic unit := if b then mret tt else throw "assertion failed".
Definition assert_eq {A} `{EqDecision A} (left right : A) : M S Panic unit :=
  if bool_decide (left = right) then mret tt else throw "assertion `left == right` failed".
Definition assert_ne {A} `{EqDecision A} (left right : A) : M S Panic unit :=
  if bool_decide (left = right) then throw "assertion `left != right` failed" else mret tt.
Definition panic {A} (message : string) : M S Panic A := throw message.

(** [unwrap], [unwrap_err] and [expect] of a value. *)
Definition unwrap {A E} (r : result A E) : M S Panic A :=
  match r with Ok a => mret a | Err _ => throw "called `Result::unwrap()` on an `Err` value" end.
Definition unwrap_err {A E} (r : result A E) : M S Panic E :=
  match r with Ok _ => throw "called `Result::unwrap_err()` on an `Ok` value" | Err e => mret e end.
Definition expect {A} (o : option A) (message : string) : M S Panic A :=
  match o with Some a => mret a | None => throw message end.
(** [v[i]]. *)
Definition index {A} (l : list A) (i : nat) : M S Panic A := expect (l !! i) "index out of bounds".

(** A fallible method of the value under test: its result, the result it must
    have, the error it must have. *)
Definition attempt {A E} (m : M S E A) : M S Panic (result A E) := λ s, let '(s, r) := m s in (s, Ok r).
Definition ok {A E} (m : M S E A) : M S Panic A := attempt m ≫= unwrap.
Definition err {A E} (m : M S E A) : M S Panic E := attempt m ≫= unwrap_err.

(** What a getter must return. *)
Definition sees {A} `{EqDecision A} (getter : S → A) (value : A) : M S Panic unit :=
  s ← get; assert_eq (getter s) value.
End assertions.

(** [str::starts_with], [ends_with], [contains]. *)
Definition starts_with (s pre : string) : bool := String.prefix pre s.
Fixpoint contains (s sub : string) : bool :=
  String.prefix sub s || match s with EmptyString => false | String _ rest => contains rest sub end.
Fixpoint ends_with (s suf : string) : bool :=
  String.eqb s suf || match s with EmptyString => false | String _ rest => ends_with rest suf end.

(** The names of the tests that fail. *)
Definition failures (suite : list (string * TestResult)) : list string :=
  omap (λ t, match t.2 with Ok _ => None | Err _ => Some t.1 end) suite.
