(* ===== verification/AckCoordinatorTests.v ===== *)
(** * The unit tests of the ack coordinator
    (runtime/opendata-ingest-runtime/src/ack_coordinator.rs, [mod tests]) *)

From Stdlib Require Import NArith.
From S2P Require Import Prelude.
From S2P Require Import BTree.
From S2P Require Import Types.
From S2P Require Import AckCoordinator.
From S2P Require Import Testing.
Local Open Scope N_scope.

Definition coord (baseline : option N) : AckCoordinator := AckCoordinator_new (mkSourceId "test") baseline.

(** [matches!(err, RuntimeError::Ack(_))]. *)
Definition is_ack (e : RuntimeError) : bool := match e with EAck _ => true | _ => false end.

(** The method must fail, with an [Ack] error. *)
Definition refuses {S A} (m : M S RuntimeError A) : M S Panic unit := e ← err m; assert (is_ack e).

Definition advance : M AckCoordinator Panic unit := modify advance_frontier.

(** ** Initial state *)

Definition frontier_starts_at_none_and_pending_is_empty : TestResult := test (coord None) (
  sees frontier None ;;
  sees pending_count 0%nat ;;
  sees baseline_fixed false ;;
  sees effective_baseline None ;;
  sees initial_frontier_baseline None).

Definition new_with_constructor_baseline_fixes_eagerly : TestResult := test (coord (Some 5)) (
  sees baseline_fixed true ;;
  sees effective_baseline (Some 5) ;;
  sees initial_frontier_baseline (Some 5) ;;
  sees frontier None).

(** ** Validation of the input of [register_pending] *)

Definition register_pending_rejects_low_greater_than_high : TestResult := test (coord None) (
  refuses (register_pending 5 4)).

Definition register_pending_rejects_overlap_with_existing : TestResult := test (coord None) (
  ok (register_pending 0 4) ;;
  refuses (register_pending 3 5)).

Definition register_pending_rejects_non_monotonic_admission : TestResult := test (coord None) (
  ok (register_pending 0 0) ;;
  ok (register_pending 1 1) ;;
  refuses (register_pending 1 1)).

Definition register_pending_rejects_admission_gap : TestResult := test (coord None) (
  ok (register_pending 0 0) ;;
  e ← err (register_pending 2 2);
  assert (is_ack e) ;;
  assert (contains (RuntimeError_display e) "non-contiguous admission") ;;
  sees pending_count 1%nat ;;
  ok (register_pending 1 1) ;;
  sees pending_count 2%nat).

Definition register_pending_rejects_gap_when_high_spans_multiple_sequences : TestResult := test (coord None) (
  ok (register_pending 0 4) ;;
  refuses (register_pending 6 6) ;;
  ok (register_pending 5 5)).

(** ** The floor of the baseline *)

Definition register_pending_rejects_first_range_below_baseline : TestResult := test (coord (Some 5)) (
  refuses (register_pending 4 4)).

Definition register_pending_rejects_first_range_above_baseline_plus_one : TestResult := test (coord (Some 5)) (
  refuses (register_pending 7 7)).

Definition register_pending_first_range_at_baseline_plus_one_succeeds : TestResult := test (coord (Some 5)) (
  ok (register_pending 6 6) ;;
  sees pending_count 1%nat ;;
  ok (mark_committed 6 6) ;;
  advance ;;
  sees frontier (Some 6)).

Definition register_pending_absorbed_baseline_accepts_any_first_low : TestResult := test (coord None) (
  ok (register_pending 42 42) ;;
  sees baseline_fixed true ;;
  sees effective_baseline (Some 41) ;;
  ok (mark_committed 42 42) ;;
  advance ;;
  sees frontier (Some 42)).

Definition register_pending_absorbed_baseline_zero_stays_none : TestResult := test (coord None) (
  ok (register_pending 0 0) ;;
  sees baseline_fixed true ;;
  sees effective_baseline None ;;
  ok (mark_committed 0 0) ;;
  advance ;;
  sees frontier (Some 0)).

Definition register_pending_rejects_range_already_acked : TestResult := test (coord None) (
  ok (register_pending 0 0) ;;
  ok (mark_committed 0 0) ;;
  advance ;;
  sees frontier (Some 0) ;;
  refuses (register_pending 0 0)).

(** ** [mark_committed] *)

Definition mark_committed_unknown_range_errors : TestResult := test (coord None) (
  refuses (mark_committed 0 0)).

Definition mark_committed_twice_is_idempotent : TestResult := test (coord None) (
  ok (register_pending 0 0) ;;
  ok (mark_committed 0 0) ;;
  ok (mark_committed 0 0) ;;
  advance ;;
  sees frontier (Some 0)).

Definition mark_committed_rejects_mismatched_high : TestResult := test (coord None) (
  ok (register_pending 0 3) ;;
  refuses (mark_committed 0 4)).

(** ** [advance_frontier] *)

Definition frontier_advances_through_contiguous_committed_ranges : TestResult := test (coord None) (
  ok (register_pending 0 0) ;;
  ok (register_pending 1 2) ;;
  ok (register_pending 3 3) ;;
  ok (mark_committed 0 0) ;;
  ok (mark_committed 1 2) ;;
  ok (mark_committed 3 3) ;;
  advance ;;
  sees frontier (Some 3) ;;
  sees pending_count 0%nat).

Definition frontier_advance_drops_completed_ranges_from_map : TestResult := test (coord None) (
  ok (register_pending 0 0) ;;
  ok (register_pending 1 1) ;;
  ok (mark_committed 0 0) ;;
  ok (mark_committed 1 1) ;;
  sees pending_count 2%nat ;;
  advance ;;
  sees pending_count 0%nat ;;
  sees frontier (Some 1)).

Definition frontier_monotonic_across_advance_calls : TestResult := test (coord None) (
  for_each [0; 1; 2] (λ i, ok (register_pending i i)) ;;
  ok (mark_committed 0 0) ;;
  advance ;;
  sees frontier (Some 0) ;;
  ok (mark_committed 1 1) ;;
  advance ;;
  sees frontier (Some 1) ;;
  ok (mark_committed 2 2) ;;
  advance ;;
  sees frontier (Some 2)).

Definition frontier_anchors_at_baseline_plus_one_not_first_observed_range : TestResult := test (coord (Some 5)) (
  ok (register_pending 6 6) ;;
  ok (register_pending 7 7) ;;
  ok (mark_committed 7 7) ;;
  advance ;;
  sees frontier None ;;
  ok (mark_committed 6 6) ;;
  advance ;;
  sees frontier (Some 7)).

(** ** Completion out of order *)

Definition frontier_stops_at_first_hole_when_commits_arrive_out_of_order : TestResult := test (coord None) (
  ok (register_pending 0 0) ;;
  ok (register_pending 1 1) ;;
  ok (register_pending 2 2) ;;
  ok (mark_committed 1 1) ;;
  ok (mark_committed 2 2) ;;
  advance ;;
  sees frontier None ;;
  sees pending_count 3%nat).

Definition frontier_advances_after_hole_fills : TestResult := test (coord None) (
  ok (register_pending 0 0) ;;
  ok (register_pending 1 1) ;;
  ok (register_pending 2 2) ;;
  ok (mark_committed 1 1) ;;
  ok (mark_committed 2 2) ;;
  advance ;;
  sees frontier None ;;
  ok (mark_committed 0 0) ;;
  advance ;;
  sees frontier (Some 2) ;;
  sees pending_count 0%nat).

(** ** Two sources *)

Definition on_a {A} : M AckCoordinator Panic A → M (AckCoordinator * AckCoordinator) Panic A :=
  zoom fst (λ a s, (a, s.2)).
Definition on_b {A} : M AckCoordinator Panic A → M (AckCoordinator * AckCoordinator) Panic A :=
  zoom snd (λ b s, (s.1, b)).

Definition multi_source_isolation_two_coordinators : TestResult :=
  test (AckCoordinator_new (mkSourceId "a") None, AckCoordinator_new (mkSourceId "b") None) (
  on_a (ok (register_pending 0 0)) ;;
  on_b (ok (register_pending 100 100)) ;;
  on_a (ok (mark_committed 0 0)) ;;
  on_a advance ;;
  on_a (sees frontier (Some 0)) ;;
  on_b (sees frontier None) ;;
  on_b (ok (mark_committed 100 100)) ;;
  on_b advance ;;
  on_b (sees frontier (Some 100)) ;;
  on_a (sees frontier (Some 0))).

(** ** The registry *)

(** [reg.get(&source).unwrap()] and [reg.get_mut(&source).unwrap().method()]. *)
Definition get_source (source : SourceId) : M AckCoordinators Panic AckCoordinator :=
  reg ← get; expect (reg !! source) "called `Option::unwrap()` on a `None` value".
Definition on_source_of {A} (source : SourceId) (m : M AckCoordinator Panic A) : M AckCoordinators Panic A :=
  c ← get_source source; zoom (λ _, c) (λ c reg, <[source := c]> reg) m.

Definition registry_rejects_duplicate_source : TestResult := test AckCoordinators_new (
  ok (register_source (mkSourceId "a") None) ;;
  refuses (register_source (mkSourceId "a") None)).

Definition registry_seeds_each_coordinator_with_its_own_baseline : TestResult := test AckCoordinators_new (
  ok (register_source (mkSourceId "a") (Some 10)) ;;
  ok (register_source (mkSourceId "b") None) ;;
  a ← get_source (mkSourceId "a"); assert_eq (initial_frontier_baseline a) (Some 10) ;;
  b ← get_source (mkSourceId "b"); assert_eq (initial_frontier_baseline b) None).

Definition registry_pending_total_sums_across_coordinators : TestResult := test AckCoordinators_new (
  ok (register_source (mkSourceId "a") None) ;;
  ok (register_source (mkSourceId "b") None) ;;
  on_source_of (mkSourceId "a") (ok (register_pending 0 0)) ;;
  on_source_of (mkSourceId "b") (ok (register_pending 0 1)) ;;
  on_source_of (mkSourceId "b") (ok (register_pending 2 2)) ;;
  sees pending_total 3%nat).

Definition ack_coordinator_suite : list (string * TestResult) := [
  ("frontier_starts_at_none_and_pending_is_empty", frontier_starts_at_none_and_pending_is_empty);
  ("new_with_constructor_baseline_fixes_eagerly", new_with_constructor_baseline_fixes_eagerly);
  ("register_pending_rejects_low_greater_than_high", register_pending_rejects_low_greater_than_high);
  ("register_pending_rejects_overlap_with_existing", register_pending_rejects_overlap_with_existing);
  ("register_pending_rejects_non_monotonic_admission", register_pending_rejects_non_monotonic_admission);
  ("register_pending_rejects_admission_gap", register_pending_rejects_admission_gap);
  ("register_pending_rejects_gap_when_high_spans_multiple_sequences", register_pending_rejects_gap_when_high_spans_multiple_sequences);
  ("register_pending_rejects_first_range_below_baseline", register_pending_rejects_first_range_below_baseline);
  ("register_pending_rejects_first_range_above_baseline_plus_one", register_pending_rejects_first_range_above_baseline_plus_one);
  ("register_pending_first_range_at_baseline_plus_one_succeeds", register_pending_first_range_at_baseline_plus_one_succeeds);
  ("register_pending_absorbed_baseline_accepts_any_first_low", register_pending_absorbed_baseline_accepts_any_first_low);
  ("register_pending_absorbed_baseline_zero_stays_none", register_pending_absorbed_baseline_zero_stays_none);
  ("register_pending_rejects_range_already_acked", register_pending_rejects_range_already_acked);
  ("mark_committed_unknown_range_errors", mark_committed_unknown_range_errors);
  ("mark_committed_twice_is_idempotent", mark_committed_twice_is_idempotent);
  ("mark_committed_rejects_mismatched_high", mark_committed_rejects_mismatched_high);
  ("frontier_advances_through_contiguous_committed_ranges", frontier_advances_through_contiguous_committed_ranges);
  ("frontier_advance_drops_completed_ranges_from_map", frontier_advance_drops_completed_ranges_from_map);
  ("frontier_monotonic_across_advance_calls", frontier_monotonic_across_advance_calls);
  ("frontier_anchors_at_baseline_plus_one_not_first_observed_range", frontier_anchors_at_baseline_plus_one_not_first_observed_range);
  ("frontier_stops_at_first_hole_when_commits_arrive_out_of_order", frontier_stops_at_first_hole_when_commits_arrive_out_of_order);
  ("frontier_advances_after_hole_fills", frontier_advances_after_hole_fills);
  ("multi_source_isolation_two_coordinators", multi_source_isolation_two_coordinators);
  ("registry_rejects_duplicate_source", registry_rejects_duplicate_source);
  ("registry_seeds_each_coordinator_with_its_own_baseline", registry_seeds_each_coordinator_with_its_own_baseline);
  ("registry_pending_total_sums_across_coordinators", registry_pending_total_sums_across_coordinators)].

Theorem ack_coordinator_tests_pass : failures ack_coordinator_suite = [].
Proof. vm_compute. reflexivity. Qed.
