(* ===== verification/ByteBudgetTests.v ===== *)
(** * The unit tests of the byte budget
    (runtime/opendata-ingest-runtime/src/source_budget.rs, [mod tests])

    A test holds its reservations in its own variables; the state is the budget
    and the task [waiter] that some tests spawn.  [sleep] lets that task run
    until it waits; a notification makes it runnable again.  The tests check
    [!waiter.is_finished()] of a task that must be parked in [reserve], which is
    what is checked here.  Time limits have no counterpart: [reconcile] and
    [try_reserve] do not await. *)

From Stdlib Require Import NArith.
From S2P Require Import Prelude.
From S2P Require Import Types.
From S2P Require Import ByteBudget.
From S2P Require Import Testing.
Local Open Scope N_scope.

(** The spawned task: about to try [reserve(bytes)], parked in it, holding what
    it got until it is told to let go, or over. *)
Inductive WaiterTask := Runnable (bytes : N) | Asleep (bytes : N) | Holds (r : Reservation) | Finished.

Record BudgetTest := { tested : Budget; waiter : option WaiterTask }.

Definition budget (cap : N) : BudgetTest := {| tested := Budget_new (mkSourceId "test") cap; waiter := None |}.

Definition with_tested (b : Budget) (s : BudgetTest) : BudgetTest := {| tested := b; waiter := waiter s |}.
Definition with_waiter (w : WaiterTask) (s : BudgetTest) : BudgetTest := {| tested := tested s; waiter := Some w |}.

Abbreviation BT := (M BudgetTest Panic).

(** [b.reserve(n).await] of the test itself, which must not park. *)
Definition reserved (bytes : N) : BT Reservation := λ s,
  match reserve bytes (tested s) with
  | (Some r, b) => (with_tested b s, Ok r)
  | (None, b) => (with_tested b s, Err "the test would wait for ever")
  end.
Definition try_reserved (bytes : N) : BT (option Reservation) := λ s,
  let '(r, b) := try_reserve bytes (tested s) in (with_tested b s, Ok r).

(** [notify_waiters]. *)
Definition notified : BT unit :=
  modify (λ s, match waiter s with Some (Asleep n) => with_waiter (Runnable n) s | _ => s end).

Definition dropped (r : Reservation) : BT unit :=
  modify (λ s, with_tested (drop_reservation r (tested s)) s) ;; when (0 <? held r) notified.
Definition reconciled (actual : N) (r : Reservation) : BT Reservation :=
  s ← get; let '(r', b) := reconcile actual r (tested s) in
  modify (with_tested b) ;; when (actual <? held r) notified ;; mret r'.
Definition attached (l : N) (r : Reservation) : BT Reservation :=
  s ← get; let '(r', b) := attach_stage l r (tested s) in modify (with_tested b) ;; mret r'.

Definition spawn_waiter (bytes : N) : BT unit := modify (with_waiter (Runnable bytes)).
Definition sleep : BT unit := modify (λ s,
  match waiter s with
  | Some (Runnable n) =>
      match reserve n (tested s) with
      | (Some r, b) => with_waiter (Holds r) (with_tested b s)
      | (None, b) => with_waiter (Asleep n) (with_tested b s)
      end
  | _ => s
  end).
Definition must_be_parked : BT unit :=
  s ← get; assert (match waiter s with Some (Asleep _) => true | _ => false end).
(** The waiter reports its claim: [held_rx] resolves. *)
Definition claims (bytes : N) : BT unit :=
  sleep ;; s ← get; match waiter s with Some (Holds r) => assert_eq (held r) bytes | _ => panic "waiter should claim within 2s" end.
(** [release_tx.send] and [waiter.await]. *)
Definition release_waiter : BT unit :=
  s ← get; match waiter s with
           | Some (Holds r) => dropped r ;; modify (with_waiter Finished)
           | _ => panic "task panicked"
           end.

Definition in_flight_is (n : N) : BT unit := sees (λ s, in_flight (tested s)) n.
Definition stage_is (l n : N) : BT unit := sees (λ s, stage_load l (tested s)) n.

Definition budget_reserve_blocks_when_full : TestResult := test (budget 100) (
  r1 ← reserved 100;
  in_flight_is 100 ;;
  spawn_waiter 1 ;;
  sleep ;;
  must_be_parked ;;
  dropped r1 ;;
  claims 1 ;;
  in_flight_is 1 ;;
  release_waiter ;;
  in_flight_is 0).

Definition budget_reconcile_shrink_releases_excess : TestResult := test (budget 200) (
  r ← reserved 100;
  in_flight_is 100 ;;
  r ← reconciled 60 r;
  in_flight_is 60 ;;
  assert_eq (held r) 60).

Definition budget_reconcile_grow_oversubscribes_without_blocking : TestResult := test (budget 100) (
  _ ← reserved 80;
  r2 ← reserved 20;
  in_flight_is 100 ;;
  r2 ← reconciled 40 r2;
  in_flight_is 120 ;;
  assert_eq (held r2) 40 ;;
  spawn_waiter 1 ;;
  sleep ;;
  must_be_parked).

Definition budget_drop_after_oversubscription_unwinds_atomically : TestResult := test (budget 100) (
  r1 ← reserved 80;
  r2 ← reserved 20;
  r2 ← reconciled 40 r2;
  dropped r2 ;;
  in_flight_is 80 ;;
  spawn_waiter 20 ;;
  claims 20 ;;
  in_flight_is 100 ;;
  release_waiter ;;
  dropped r1 ;;
  in_flight_is 0).

(** The spawned task runs when the test first waits, after [r2] was taken. *)
Definition budget_drop_releases_held_bytes_and_notifies : TestResult := test (budget 100) (
  r ← reserved 50;
  in_flight_is 50 ;;
  spawn_waiter 50 ;;
  r2 ← reserved 50;
  in_flight_is 100 ;;
  sleep ;;
  must_be_parked ;;
  dropped r ;;
  claims 50 ;;
  in_flight_is 100 ;;
  release_waiter ;;
  dropped r2 ;;
  in_flight_is 0).

Definition attach_stage_moves_held_bytes_between_stages : TestResult := test (budget 200) (
  r ← reserved 100;
  let stage_a := 0 in let stage_b := 1 in
  r ← attached stage_a r;
  stage_is stage_a 100 ;; stage_is stage_b 0 ;;
  r ← attached stage_b r;
  stage_is stage_a 0 ;; stage_is stage_b 100 ;;
  r ← reconciled 60 r;
  stage_is stage_b 60 ;; in_flight_is 60 ;;
  r ← reconciled 150 r;
  stage_is stage_b 150 ;; in_flight_is 150 ;;
  dropped r ;;
  stage_is stage_a 0 ;; stage_is stage_b 0 ;; in_flight_is 0).

Definition budget_zero_reservation_does_not_block_or_account : TestResult := test (budget 100) (
  _ ← reserved 100;
  r ← reserved 0;
  assert_eq (held r) 0 ;;
  in_flight_is 100).

Definition try_reserve_succeeds_when_room : TestResult := test (budget 100) (
  r ← try_reserved 40; r ← expect r "room for 40";
  assert_eq (held r) 40 ;;
  in_flight_is 40).

Definition try_reserve_returns_none_when_full : TestResult := test (budget 100) (
  _ ← reserved 100;
  r ← try_reserved 1; assert (bool_decide (held <$> r = None)) ;;
  in_flight_is 100).

Definition try_reserve_returns_none_on_overflow : TestResult := test (budget u64_max) (
  r ← try_reserved (u64_max - 10); _ ← expect r "first big claim fits";
  r ← try_reserved 100; assert (bool_decide (held <$> r = None)) ;;
  in_flight_is (u64_max - 10)).

Definition try_reserve_does_not_park_under_pressure : TestResult := test (budget 100) (
  _ ← reserved 100;
  attempt ← try_reserved 1;
  assert (bool_decide (held <$> attempt = None))).

Definition try_reserve_then_drop_unwinds_atomically : TestResult := test (budget 100) (
  r ← try_reserved 60; r ← expect r "room for 60";
  in_flight_is 60 ;;
  dropped r ;;
  in_flight_is 0 ;;
  r2 ← try_reserved 100; r2 ← expect r2 "full capacity is free";
  assert_eq (held r2) 100).

Definition try_reserve_zero_bytes_returns_zero_reservation : TestResult := test (budget 100) (
  _ ← reserved 100;
  r ← try_reserved 0; r ← expect r "zero-byte reserve always admits";
  assert_eq (held r) 0 ;;
  in_flight_is 100).

Definition try_reserve_drop_notifies_blocked_reserve : TestResult := test (budget 100) (
  r1 ← try_reserved 100; r1 ← expect r1 "first claim fits";
  spawn_waiter 50 ;;
  sleep ;;
  must_be_parked ;;
  dropped r1 ;;
  claims 50 ;;
  release_waiter).

Definition byte_budget_suite : list (string * TestResult) := [
  ("budget_reserve_blocks_when_full", budget_reserve_blocks_when_full);
  ("budget_reconcile_shrink_releases_excess", budget_reconcile_shrink_releases_excess);
  ("budget_reconcile_grow_oversubscribes_without_blocking", budget_reconcile_grow_oversubscribes_without_blocking);
  ("budget_drop_after_oversubscription_unwinds_atomically", budget_drop_after_oversubscription_unwinds_atomically);
  ("budget_drop_releases_held_bytes_and_notifies", budget_drop_releases_held_bytes_and_notifies);
  ("attach_stage_moves_held_bytes_between_stages", attach_stage_moves_held_bytes_between_stages);
  ("budget_zero_reservation_does_not_block_or_account", budget_zero_reservation_does_not_block_or_account);
  ("try_reserve_succeeds_when_room", try_reserve_succeeds_when_room);
  ("try_reserve_returns_none_when_full", try_reserve_returns_none_when_full);
  ("try_reserve_returns_none_on_overflow", try_reserve_returns_none_on_overflow);
  ("try_reserve_does_not_park_under_pressure", try_reserve_does_not_park_under_pressure);
  ("try_reserve_then_drop_unwinds_atomically", try_reserve_then_drop_unwinds_atomically);
  ("try_reserve_zero_bytes_returns_zero_reservation", try_reserve_zero_bytes_returns_zero_reservation);
  ("try_reserve_drop_notifies_blocked_reserve", try_reserve_drop_notifies_blocked_reserve)].

Theorem byte_budget_tests_pass : failures byte_budget_suite = [].
Proof. vm_compute. reflexivity. Qed.
