(* ===== verification/RuntimeTests.v ===== *)
(** * The unit tests of the runtime's options and of the buffer source
    (runtime/opendata-ingest-runtime/src/runtime.rs and source.rs, [mod tests]) *)

From Stdlib Require Import NArith ZArith.
From S2P Require Import Prelude.
From S2P Require Import Types.
From S2P Require Import AckCoordinator.
From S2P Require Import ByteBudget.
From S2P Require Import Source.
From S2P Require Import Options.
From S2P Require Import Testing.
Local Open Scope N_scope.

#[export] Instance AckFlushPolicy_eq_dec : EqDecision AckFlushPolicy.
Proof. solve_decision. Defined.

(** ** runtime.rs *)

Definition default_options_are_dry_run_logs : TestResult := pure_test (
  let opts := RuntimeOptions_default in
  assert (dry_run opts) ;;
  assert_eq (max_descriptors_per_poll opts) 8 ;;
  assert (match ack_flush_policy opts with EveryCommitGroup => true | _ => false end) ;;
  assert_eq (max_inflight_batches (source_defaults opts)) 64 ;;
  assert_eq (fetch_concurrency (source_defaults opts)) 8 ;;
  assert_eq (decode_concurrency (source_defaults opts)) 4 ;;
  assert_eq (max_concurrent_commits (sink_options opts)) 4).

Definition ack_flush_policy_default_is_every_commit_group : TestResult := pure_test (
  assert_eq AckFlushPolicy_default EveryCommitGroup).

Definition serial_profile_reproduces_phase_five_shape : TestResult := pure_test (
  let bp := serial in
  assert_eq (max_inflight_batches bp) 1 ;;
  assert_eq (fetch_concurrency bp) 1 ;;
  assert_eq (decode_concurrency bp) 1).

Definition backpressure_for_falls_back_to_defaults : TestResult := pure_test (
  let opts := RuntimeOptions_default in
  let bp := backpressure_for opts (mkSourceId "any") in
  assert_eq (max_inflight_batches bp) 64).

(** A profile that differs from the default in one field each. *)
Definition with_max_inflight_batches (n : N) (bp : SourceBackpressureOptions) : SourceBackpressureOptions := {|
  max_inflight_batches := n; max_inflight_bytes := max_inflight_bytes bp;
  estimated_max_batch_bytes := estimated_max_batch_bytes bp; fetch_concurrency := fetch_concurrency bp;
  decode_concurrency := decode_concurrency bp; oversize_fault_multiplier := oversize_fault_multiplier bp |}.
Definition with_fetch_concurrency (n : N) (bp : SourceBackpressureOptions) : SourceBackpressureOptions := {|
  max_inflight_batches := max_inflight_batches bp; max_inflight_bytes := max_inflight_bytes bp;
  estimated_max_batch_bytes := estimated_max_batch_bytes bp; fetch_concurrency := n;
  decode_concurrency := decode_concurrency bp; oversize_fault_multiplier := oversize_fault_multiplier bp |}.
Definition with_decode_concurrency (n : N) (bp : SourceBackpressureOptions) : SourceBackpressureOptions := {|
  max_inflight_batches := max_inflight_batches bp; max_inflight_bytes := max_inflight_bytes bp;
  estimated_max_batch_bytes := estimated_max_batch_bytes bp; fetch_concurrency := fetch_concurrency bp;
  decode_concurrency := n; oversize_fault_multiplier := oversize_fault_multiplier bp |}.
Definition with_bytes (max_inflight estimated : N) (bp : SourceBackpressureOptions) : SourceBackpressureOptions := {|
  max_inflight_batches := max_inflight_batches bp; max_inflight_bytes := max_inflight;
  estimated_max_batch_bytes := estimated; fetch_concurrency := fetch_concurrency bp;
  decode_concurrency := decode_concurrency bp; oversize_fault_multiplier := oversize_fault_multiplier bp |}.

Definition with_override (source : SourceId) (bp : SourceBackpressureOptions) (o : RuntimeOptions) : RuntimeOptions := {|
  ack_flush_policy := ack_flush_policy o; dry_run := dry_run o; poll_interval := poll_interval o;
  max_descriptors_per_poll := max_descriptors_per_poll o; max_retry_attempts := max_retry_attempts o;
  retry_backoff := retry_backoff o; source_defaults := source_defaults o;
  source_overrides := <[source := bp]> (source_overrides o); sink_options := sink_options o |}.

Definition backpressure_for_honors_override : TestResult := pure_test (
  let override_bp := with_max_inflight_batches 5 SourceBackpressureOptions_default in
  let opts := with_override (mkSourceId "hot") override_bp RuntimeOptions_default in
  assert_eq (max_inflight_batches (backpressure_for opts (mkSourceId "hot"))) 5 ;;
  assert_eq (max_inflight_batches (backpressure_for opts (mkSourceId "other"))) 64).

Definition validate_backpressure_rejects_oversized_reservation : TestResult := pure_test (
  let bp := with_bytes 1024 4096 SourceBackpressureOptions_default in
  err ← unwrap_err (validate_backpressure (mkSourceId "hot") bp);
  let msg := RuntimeError_display err in
  assert (contains msg "estimated_max_batch_bytes") ;;
  assert (match err with EConfig _ => true | _ => false end)).

(** The [match field] of the loop is the second component of the pairs. *)
Definition validate_backpressure_rejects_zero_concurrency : TestResult := pure_test (
  for_each [("max_inflight_batches", with_max_inflight_batches 0);
            ("fetch_concurrency", with_fetch_concurrency 0);
            ("decode_concurrency", with_decode_concurrency 0)] (λ '(field, zeroed),
    err ← unwrap_err (validate_backpressure (mkSourceId "s") (zeroed SourceBackpressureOptions_default));
    assert (contains (RuntimeError_display err) field))).

Definition validate_backpressure_accepts_default : TestResult := pure_test (
  unwrap (validate_backpressure (mkSourceId "s") SourceBackpressureOptions_default) ;;
  unwrap (validate_backpressure (mkSourceId "s") serial)).

(** ** source.rs *)

Definition meta (index signal : N) (ts : Z) : BufferMetadata := {|
  start_index := index; bm_ingestion_time_ms := ts; bm_payload := u8_of_N <$> [1; signal; 1; 0] |}.

Definition single_metadata_range_applies_to_all_entries : TestResult := pure_test (
  let batch := {| cb_entries := [as_bytes "a"; as_bytes "b"]; cb_sequence := 7; cb_location := "loc";
                  cb_metadata := [meta 0 1 1234] |} in
  let raw := split_into_raw_entries batch (mkSourceId "test") "manifest" in
  assert_eq (sb_source raw) (mkSourceId "test") ;;
  assert_eq (sb_sequence raw) 7 ;;
  assert_eq (sb_manifest_path raw) "manifest" ;;
  assert_eq (sb_data_object_path raw) "loc" ;;
  assert_eq (length (sb_entries raw)) 2%nat ;;
  for_each (imap pair (sb_entries raw)) (λ '(i, entry),
    assert_eq (entry_index entry) (N.of_nat i) ;;
    assert_eq (raw_metadata entry) (u8_of_N <$> [1; 1; 1; 0]) ;;
    assert_eq (ingestion_time_ms entry) 1234%Z)).

Definition multiple_metadata_ranges_split_at_start_indexes : TestResult := pure_test (
  let batch := {| cb_entries := (λ i, as_bytes ("e" +:+ show (N.of_nat i))) <$> seq 0 6; cb_sequence := 9;
                  cb_location := "loc"; cb_metadata := [meta 0 1 100; meta 2 2 200; meta 5 1 300] |} in
  let raw := split_into_raw_entries batch (mkSourceId "test") "manifest" in
  let signals := (λ e, raw_metadata e !! 1%nat) <$> sb_entries raw in
  let times := ingestion_time_ms <$> sb_entries raw in
  assert_eq signals (Some ∘ u8_of_N <$> [1; 1; 2; 2; 2; 1]) ;;
  assert_eq times [100; 100; 200; 200; 200; 300]%Z).

Definition empty_metadata_yields_empty_envelopes : TestResult := pure_test (
  let batch := {| cb_entries := [as_bytes "x"]; cb_sequence := 1; cb_location := "loc"; cb_metadata := [] |} in
  let raw := split_into_raw_entries batch (mkSourceId "test") "manifest" in
  assert_eq (length (sb_entries raw)) 1%nat ;;
  e0 ← index (sb_entries raw) 0;
  assert_eq (raw_metadata e0) [] ;;
  assert_eq (ingestion_time_ms e0) 0%Z).

Definition runtime_suite : list (string * TestResult) := [
  ("default_options_are_dry_run_logs", default_options_are_dry_run_logs);
  ("ack_flush_policy_default_is_every_commit_group", ack_flush_policy_default_is_every_commit_group);
  ("serial_profile_reproduces_phase_five_shape", serial_profile_reproduces_phase_five_shape);
  ("backpressure_for_falls_back_to_defaults", backpressure_for_falls_back_to_defaults);
  ("backpressure_for_honors_override", backpressure_for_honors_override);
  ("validate_backpressure_rejects_oversized_reservation", validate_backpressure_rejects_oversized_reservation);
  ("validate_backpressure_rejects_zero_concurrency", validate_backpressure_rejects_zero_concurrency);
  ("validate_backpressure_accepts_default", validate_backpressure_accepts_default);
  ("single_metadata_range_applies_to_all_entries", single_metadata_range_applies_to_all_entries);
  ("multiple_metadata_ranges_split_at_start_indexes", multiple_metadata_ranges_split_at_start_indexes);
  ("empty_metadata_yields_empty_envelopes", empty_metadata_yields_empty_envelopes)].

Theorem runtime_tests_pass : failures runtime_suite = [].
Proof. vm_compute. reflexivity. Qed.
