(* ===== verification/OtelTests.v ===== *)
(** * The unit tests of the OpenTelemetry plugin
    (plugins/opendata-ingest-otel/src/envelope.rs and logs.rs, [mod tests]) *)

From Stdlib Require Import ZArith NArith Strings.Byte.
From S2P Require Import Prelude.
From S2P Require Import BTree.
From S2P Require Import Types.
From S2P Require Import Envelope.
From S2P Require Import OtlpLogs.
From S2P Require Import Testing.
Local Open Scope N_scope.

Definition bytes_of (l : list N) : Bytes := u8_of_N <$> l.

(** ** envelope.rs *)

Definition batch_with_envelopes (envelopes : list (list N)) : SourceBatch := {|
  sb_source := mkSourceId "test"; sb_sequence := 1; sb_manifest_path := "m"; sb_data_object_path := "d";
  sb_entries := imap (λ i env, {| entry_index := N.of_nat i; raw_bytes := []; raw_metadata := bytes_of env;
                                  ingestion_time_ms := 0 |}) envelopes |}.

Definition logs_otlp : ConfiguredEnvelope :=
  {| ce_version := 1; ce_signal_type := Logs; ce_encoding := OtlpProtobuf |}.

Definition decodes_per_entry : TestResult := pure_test (
  envs ← unwrap (decode_envelopes (batch_with_envelopes [[1; 2; 1; 0]; [1; 1; 1; 0]]));
  e0 ← index envs 0; assert_eq (me_signal_type e0) Logs ;;
  e1 ← index envs 1; assert_eq (me_signal_type e1) Metrics).

(** The tests of the errors call [matches!] without asserting its result; here
    it is asserted. *)
Definition rejects_short_envelope : TestResult := pure_test (
  e ← unwrap_err (decode_envelopes (batch_with_envelopes [[1; 2]]));
  assert (match e with TooShort _ _ _ => true | _ => false end)).
Definition rejects_unsupported_version : TestResult := pure_test (
  e ← unwrap_err (decode_envelopes (batch_with_envelopes [[2; 2; 1; 0]]));
  assert (match e with UnsupportedVersion _ _ => true | _ => false end)).
Definition rejects_unknown_signal : TestResult := pure_test (
  e ← unwrap_err (decode_envelopes (batch_with_envelopes [[1; 99; 1; 0]]));
  assert (match e with UnsupportedSignal _ _ => true | _ => false end)).
Definition rejects_unknown_encoding : TestResult := pure_test (
  e ← unwrap_err (decode_envelopes (batch_with_envelopes [[1; 2; 99; 0]]));
  assert (match e with UnsupportedEncoding _ _ => true | _ => false end)).

Definition validate_passes_when_all_match : TestResult := pure_test (
  envs ← unwrap (decode_envelopes (batch_with_envelopes [[1; 2; 1; 0]; [1; 2; 1; 0]]));
  unwrap (validate_consistent envs logs_otlp)).
Definition validate_fails_when_signal_mismatches : TestResult := pure_test (
  envs ← unwrap (decode_envelopes (batch_with_envelopes [[1; 2; 1; 0]; [1; 1; 1; 0]]));
  e ← unwrap_err (validate_consistent envs logs_otlp);
  match e with Mismatch entry_index _ _ _ _ _ _ => assert_eq entry_index 1 | _ => panic "expected mismatch" end).

(** ** logs.rs

    The messages of the tests, as trees.  Their wire format, [prost]'s, is a
    byte for the number of records of each resource, up to 32; the records are
    those of [make_request]. *)

Record TestLog := { tl_resource : nat; tl_index : nat }.

#[export] Instance TestProto : OtlpProto := {
  ExportLogsServiceRequest := list (nat * nat);
  ResourceLogs := nat * nat;
  Resource := nat;
  ScopeLogs := nat * nat;
  InstrumentationScope := unit;
  LogRecord := TestLog;
  KeyValue := string * string;
  AnyValue := string;
  F64 := unit;
  request_decode payload :=
    if forallb (λ b, Byte.to_N b <=? 32) payload
    then Ok (imap (λ r_idx b, (r_idx, N.to_nat (Byte.to_N b))) payload)
    else Err (mkBoxError "invalid wire type");
  resource_logs req := req;
  resource rl := Some rl.1;
  resource_attrs r_idx := [("service.name", "svc-" +:+ show (N.of_nat r_idx))];
  scope_logs rl := [rl];
  scope _ := None;
  scope_name_of _ := "";
  scope_attrs _ := [];
  log_records sl := (λ i, {| tl_resource := sl.1; tl_index := i |}) <$> seq 0 sl.2;
  time_unix_nano l := 1000 + N.of_nat (tl_index l);
  observed_time_unix_nano _ := 0;
  log_severity_number _ := 9%Z;
  log_severity_text _ := "INFO";
  log_body l := Some ("body-" +:+ show (N.of_nat (tl_resource l)) +:+ "-" +:+ show (N.of_nat (tl_index l)));
  log_attrs l := [("rec", show (N.of_nat (tl_resource l)) +:+ "/" +:+ show (N.of_nat (tl_index l)))];
  trace_id _ := replicate 16 (u8_of_N 0xaa);
  span_id _ := replicate 8 (u8_of_N 0xbb);
  kv_key := fst;
  kv_value kv := Some kv.2;
  any_value v := Some (StringValue v);
  hex_encode := demo_hex;
  f64_to_string _ := "0";
  size_of_record := 248;
}.

(** [make_request(records_per_resource).encode_to_vec()]. *)
Definition request_payload (records_per_resource : list N) : Bytes := bytes_of records_per_resource.

Definition batch_with_payloads (payloads : list Bytes) : SourceBatch := {|
  sb_source := mkSourceId "buffer"; sb_sequence := 42; sb_manifest_path := "ingest/test/manifest";
  sb_data_object_path := "ingest/test/data/abc.batch";
  sb_entries := imap (λ i payload, {| entry_index := N.of_nat i; raw_bytes := payload;
                                      raw_metadata := bytes_of [1; 2; 1; 0]; ingestion_time_ms := 99 |}) payloads |}.

Definition flattens_resource_scope_log_tree_and_assigns_record_index : TestResult := pure_test (
  decoded ← unwrap (decode_logs (batch_with_payloads [request_payload [2; 3]]));
  assert_eq (length decoded) 5%nat ;;
  assert_eq ((λ r, record_index (source r)) <$> decoded) [0; 1; 2; 3; 4] ;;
  d0 ← index decoded 0; d2 ← index decoded 2;
  assert_eq (service_name d0) (Some "svc-0") ;;
  assert_eq (service_name d2) (Some "svc-1") ;;
  for_each decoded (λ r,
    assert_eq (buffer_sequence (source r)) 42 ;;
    assert_eq (row_entry_index (source r)) 0 ;;
    assert_eq (manifest_path (source r)) "ingest/test/manifest" ;;
    assert_eq (row_ingestion_time_ms (source r)) 99%Z) ;;
  assert_eq (body d0) "body-0-0").

Definition record_index_resets_per_entry : TestResult := pure_test (
  let payload := request_payload [1] in
  decoded ← unwrap (decode_logs (batch_with_payloads [payload; payload]));
  assert_eq (length decoded) 2%nat ;;
  d0 ← index decoded 0; d1 ← index decoded 1;
  assert_eq (row_entry_index (source d0)) 0 ;;
  assert_eq (row_entry_index (source d1)) 1 ;;
  assert_eq (record_index (source d0)) 0 ;;
  assert_eq (record_index (source d1)) 0).

Definition empty_payload_yields_zero_rows_but_no_error : TestResult := pure_test (
  decoded ← unwrap (decode_logs (batch_with_payloads [request_payload []]));
  assert_eq (length decoded) 0%nat).

(** [OtelDecodeError] has one variant. *)
Definition malformed_payload_returns_signal_decode_error : TestResult := pure_test (
  unwrap_err (decode_logs (batch_with_payloads [as_bytes "not-a-protobuf-message"])) ;; mret tt).

Definition trace_and_span_ids_hex_encoded : TestResult := pure_test (
  decoded ← unwrap (decode_logs (batch_with_payloads [request_payload [1]]));
  d0 ← index decoded 0;
  assert_eq (trace_id_hex d0) (String.concat "" (replicate 32 "a")) ;;
  assert_eq (span_id_hex d0) (String.concat "" (replicate 16 "b"))).

Definition otel_suite : list (string * TestResult) := [
  ("decodes_per_entry", decodes_per_entry);
  ("rejects_short_envelope", rejects_short_envelope);
  ("rejects_unsupported_version", rejects_unsupported_version);
  ("rejects_unknown_signal", rejects_unknown_signal);
  ("rejects_unknown_encoding", rejects_unknown_encoding);
  ("validate_passes_when_all_match", validate_passes_when_all_match);
  ("validate_fails_when_signal_mismatches", validate_fails_when_signal_mismatches);
  ("flattens_resource_scope_log_tree_and_assigns_record_index", flattens_resource_scope_log_tree_and_assigns_record_index);
  ("record_index_resets_per_entry", record_index_resets_per_entry);
  ("empty_payload_yields_zero_rows_but_no_error", empty_payload_yields_zero_rows_but_no_error);
  ("malformed_payload_returns_signal_decode_error", malformed_payload_returns_signal_decode_error);
  ("trace_and_span_ids_hex_encoded", trace_and_span_ids_hex_encoded)].

Theorem otel_tests_pass : failures otel_suite = [].
Proof. vm_compute. reflexivity. Qed.
