(* ===== verification/Sha2.v ===== *)
(** * SHA-256

    The function behind the [sha2] crate, for the runs of the unit tests: the
    theorems on the adapter hold of any [Sha256].  The constants are the first
    32 bits of the fractional parts of square and cube roots of primes. *)

From Stdlib Require Import NArith Strings.Byte.
From S2P Require Import Prelude.
From S2P Require Import LogsAdapter.
Local Open Scope N_scope.

(** ** Words *)

Definition word_add (a b : N) : N := wrap32 (a + b).
Definition word_not (a : N) : N := N.lxor a u32_max.
Definition rotr (n a : N) : N := N.lor (N.shiftr a n) (wrap32 (N.shiftl a (32 - n))).

(** ** Constants *)

Definition prime (n : N) : bool := forallb (λ d, negb (n mod (2 + N.of_nat d) =? 0)) (seq 0 (N.to_nat (N.sqrt n) - 1)).
Definition primes (bound : nat) : list N := List.filter prime (N.of_nat <$> seq 2 bound).

(** The largest [r] below [2 ^ bits] whose cube is at most [n]. *)
Fixpoint cube_root (bits : nat) (r n : N) : N :=
  match bits with
  | O => r
  | S bits =>
      let r' := r + 2 ^ N.of_nat bits in
      cube_root bits (if r' * r' * r' <=? n then r' else r) n
  end.

Definition round_constants : list N := (λ p, wrap32 (cube_root 36 0 (N.shiftl p 96))) <$> take 64 (primes 320).
Definition initial_state : list N := (λ p, wrap32 (N.sqrt (N.shiftl p 64))) <$> take 8 (primes 20).

(** ** One block *)

Definition big_endian (l : list N) : N := foldl (λ acc b, 256 * acc + b) 0 l.
Definition be_bytes (k : nat) (v : N) : list N := (λ i, N.shiftr v (8 * N.of_nat i) mod 256) <$> rev (seq 0 k).

Fixpoint words (k : nat) (l : list N) : list N :=
  match k with O => [] | S k => big_endian (take 4 l) :: words k (drop 4 l) end.

(** The message schedule, the last word first. *)
Fixpoint schedule (k : nat) (w : list N) : list N :=
  match k with
  | O => w
  | S k =>
      let at_ i := default 0 (w !! i) in
      let s0 := N.lxor (N.lxor (rotr 7 (at_ 14%nat)) (rotr 18 (at_ 14%nat))) (N.shiftr (at_ 14%nat) 3) in
      let s1 := N.lxor (N.lxor (rotr 17 (at_ 1%nat)) (rotr 19 (at_ 1%nat))) (N.shiftr (at_ 1%nat) 10) in
      schedule k (word_add (word_add (at_ 15%nat) s0) (word_add (at_ 6%nat) s1) :: w)
  end.

Definition round (st : list N) (kw : N * N) : list N :=
  match st with
  | [a; b; c; d; e; f; g; h] =>
      let s1 := N.lxor (N.lxor (rotr 6 e) (rotr 11 e)) (rotr 25 e) in
      let ch := N.lxor (N.land e f) (N.land (word_not e) g) in
      let t1 := word_add (word_add (word_add h s1) (word_add ch kw.1)) kw.2 in
      let s0 := N.lxor (N.lxor (rotr 2 a) (rotr 13 a)) (rotr 22 a) in
      let maj := N.lxor (N.lxor (N.land a b) (N.land a c)) (N.land b c) in
      [word_add t1 (word_add s0 maj); a; b; c; word_add d t1; e; f; g]
  | _ => st
  end.

Definition compress (constants st block : list N) : list N :=
  zip_with word_add st (foldl round st (zip constants (rev (schedule 48 (rev (words 16 block)))))).

(** ** The message *)

Definition pad (l : list N) : list N :=
  let zeros := ((64 - (length l + 9) mod 64) mod 64)%nat in
  l ++ 128 :: replicate zeros 0 ++ be_bytes 8 (8 * N.of_nat (length l)).

Fixpoint blocks (constants : list N) (fuel : nat) (st l : list N) : list N :=
  match fuel with
  | O => st
  | S fuel => blocks constants fuel (compress constants st (take 64 l)) (drop 64 l)
  end.

Definition digest (l : list N) : list N :=
  let padded := pad l in
  concat (be_bytes 4 <$> blocks round_constants (Nat.div (length padded) 64) initial_state padded).

(** The test vectors of the standard. *)
Example abc_digest : big_endian (digest [97; 98; 99]) = 0xba7816bf8f01cfea414140de5dae2223b00361a396177a9cb410ff61f20015ad.
Proof. vm_compute. reflexivity. Qed.
Example empty_digest : big_endian (digest []) = 0xe3b0c44298fc1c149afbf4c8996fb92427ae41e4649b934ca495991b7852b855.
Proof. vm_compute. reflexivity. Qed.

#[export] Instance Sha256_digest : Sha256 := { sha256 bytes := u8_of_N <$> digest (Byte.to_N <$> bytes) }.
