(* ===== verification/LogsAdapterTests.v ===== *)
(** * The unit tests of the logs adapter
    (plugins/opendata-ingest-clickhouse/src/adapter/logs.rs, [mod tests]) *)

From Stdlib Require Import ZArith NArith.
From S2P Require Import Prelude.
From S2P Require Import BTree.
From S2P Require Import Types.
From S2P Require Import OtlpLogs.
From S2P Require Import RowValue.
From S2P Require Import LogsAdapter.
From S2P Require Import Sha2.
From S2P Require Import Testing.
Local Open Scope N_scope.

(** [LogsAdapterConfig { max_chunk_rows, max_chunk_bytes, ..default() }]. *)
Definition with_limits (rows bytes : N) : LogsAdapterConfig := {|
  database := database LogsAdapterConfig_default; table := table LogsAdapterConfig_default;
  adapter_version := adapter_version LogsAdapterConfig_default; max_chunk_rows := rows; max_chunk_bytes := bytes;
  insert_quorum := insert_quorum LogsAdapterConfig_default;
  apply_deduplication_token := apply_deduplication_token LogsAdapterConfig_default |}.
Definition with_rows (rows : N) : LogsAdapterConfig := with_limits rows (max_chunk_bytes LogsAdapterConfig_default).

Definition cfg : LogsAdapterConfig := with_rows 2.

Definition ident (low high : N) : CommitIdentity := {|
  ci_source := mkSourceId "test"; ci_sink := mkSinkId "clickhouse_logs"; ci_range := SequenceRange_new low high;
  ci_schema_version := mkSchemaVersion 1 |}.

(** [rec] with the path of the manifest and the resource attributes that some
    tests change. *)
Definition rec_with (manifest : string) (resource : btree string string) (sequence entry_index record_index : N)
    : DecodedLogRecord := {|
  source := {| buffer_sequence := sequence; row_entry_index := entry_index; record_index := record_index;
               manifest_path := manifest; data_path := "ingest/test/data/abc.batch"; row_ingestion_time_ms := 12345 |};
  timestamp_unix_nano := 1700000000000000000 + sequence;
  observed_timestamp_unix_nano := 0;
  severity_number := 9;
  severity_text := "INFO";
  body := "body-" +:+ show sequence +:+ "-" +:+ show entry_index +:+ "-" +:+ show record_index;
  service_name := Some "controller";
  resource_attributes := resource;
  scope_name := None;
  log_attributes := [("topic", "foo")];
  trace_id_hex := "deadbeef";
  span_id_hex := "feedface" |}.
Definition rec : N → N → N → DecodedLogRecord := rec_with "ingest/test/manifest" [("k", "v")].

Abbreviation T := (M unit Panic).

(** [adapter.plan(ClickHouseAdapterBatch { records, identity, bytes: 0 })]. *)
Definition planned (config : LogsAdapterConfig) (records : list DecodedLogRecord) (low high : N)
    : result (list InsertChunk) AdapterError :=
  plan (OtlpLogsClickHouseAdapter_new config)
    {| cab_identity := ident low high; cab_records := records; cab_bytes := 0 |}.

Definition cell (chunks : list InsertChunk) (column : nat) : T RowValue :=
  chunk ← index chunks 0; row ← index (rows chunk) 0; index row column.

Definition empty_batch_yields_no_chunks : TestResult := pure_test (
  chunks ← unwrap (planned cfg [] 5 9);
  assert_eq (length chunks) 0%nat).

Definition rows_chunk_at_max_chunk_rows : TestResult := pure_test (
  chunks ← unwrap (planned cfg [rec 1 0 0; rec 1 0 1; rec 2 0 0] 1 2);
  assert_eq (length chunks) 2%nat ;;
  c0 ← index chunks 0; c1 ← index chunks 1;
  assert_eq (rows_count c0) 2 ;;
  assert_eq (rows_count c1) 1 ;;
  assert_eq (chunk_index c0) 0 ;;
  assert_eq (chunk_index c1) 1).

Definition token_format_includes_low_high_version_fingerprint_chunk : TestResult := pure_test (
  chunks ← unwrap (planned cfg [rec 7 0 0; rec 7 0 1; rec 8 0 0] 7 8);
  c0 ← index chunks 0; c1 ← index chunks 1;
  assert (starts_with (idempotency_token c0) "ingest/test/manifest:responsive.logs:7-8:1:") ;;
  assert (ends_with (idempotency_token c0) ":0") ;;
  assert (ends_with (idempotency_token c1) ":1") ;;
  assert_ne (idempotency_token c0) (idempotency_token c1)).

Definition plan_rejects_records_from_mixed_manifests : TestResult := pure_test (
  let a := rec_with "ingest/otel/logs-a/manifest" [("k", "v")] 1 0 0 in
  let b := rec_with "ingest/otel/logs-b/manifest" [("k", "v")] 1 0 1 in
  e ← unwrap_err (planned cfg [a; b] 1 1);
  assert (contains (AdapterError_display e) "commit group mixes manifest paths")).

Definition token_distinguishes_two_manifests_for_same_table : TestResult := pure_test (
  let a := rec_with "ingest/otel/logs-a/manifest" [("k", "v")] 1 0 0 in
  let b := rec_with "ingest/otel/logs-b/manifest" [("k", "v")] 1 0 0 in
  plan_a ← unwrap (planned cfg [a] 1 1);
  plan_b ← unwrap (planned cfg [b] 1 1);
  a0 ← index plan_a 0; b0 ← index plan_b 0;
  assert_ne (idempotency_token a0) (idempotency_token b0)).

Definition byte_threshold_chunks_records : TestResult := pure_test (
  chunks ← unwrap (planned (with_limits 1000000 1) [rec 1 0 0; rec 1 0 1; rec 1 0 2] 1 1);
  assert_eq (length chunks) 3%nat).

Definition changing_max_chunk_bytes_shifts_chunk_boundaries : TestResult := pure_test (
  let records := [rec 1 0 0; rec 1 0 1; rec 1 0 2] in
  loose ← unwrap (planned (with_limits 1000000 1000000) records 1 1);
  strict ← unwrap (planned (with_limits 1000000 1) records 1 1);
  assert_eq (length loose) 1%nat ;;
  assert_eq (length strict) 3%nat ;;
  l0 ← index loose 0; s0 ← index strict 0;
  assert_ne (idempotency_token l0) (idempotency_token s0)).

Definition replay_with_same_inputs_produces_same_tokens : TestResult := pure_test (
  let records := [rec 7 0 0; rec 7 0 1; rec 8 0 0] in
  plan_a ← unwrap (planned cfg records 7 8);
  plan_b ← unwrap (planned cfg records 7 8);
  assert_eq (idempotency_token <$> plan_a) (idempotency_token <$> plan_b)).

Definition changing_max_chunk_rows_changes_fingerprint_and_tokens : TestResult := pure_test (
  let a := with_rows 2 in
  let b := with_rows 3 in
  assert_ne (chunking_fingerprint a) (chunking_fingerprint b)).

Definition rows_carry_source_columns_in_correct_positions : TestResult := pure_test (
  chunks ← unwrap (planned (with_rows 100) [rec 11 3 7] 11 11);
  c10 ← cell chunks 10;
  match c10 with UInt64 v => assert_eq v 11 | _ => panic "_odb_sequence column wrong type" end ;;
  c11 ← cell chunks 11;
  match c11 with UInt32 v => assert_eq v 3 | _ => panic "_odb_entry_index column wrong type" end ;;
  c12 ← cell chunks 12;
  match c12 with UInt32 v => assert_eq v 7 | _ => panic "_odb_record_index column wrong type" end).

Definition ddl_uses_replacing_merge_tree_with_adapter_version : TestResult := pure_test (
  let ddl := logs_table_ddl LogsAdapterConfig_default in
  assert (contains ddl "ReplacingMergeTree(_adapter_version)") ;;
  assert (contains ddl "_odb_sequence, _odb_entry_index, _odb_record_index") ;;
  assert (contains ddl "PARTITION BY toDate(Timestamp)")).

Definition ddl_carries_stage2_e2e_latency_columns : TestResult := pure_test (
  let ddl := logs_table_ddl LogsAdapterConfig_default in
  assert (contains ddl "_odb_gateway_received_at    Nullable(DateTime64(9))") ;;
  assert (contains ddl "_odb_clickhouse_inserted_at DateTime64(9) DEFAULT now64(9)")).

Definition columns_const_includes_gateway_but_omits_inserted_at : TestResult := pure_test (
  assert (bool_decide ("_odb_gateway_received_at" ∈ COLUMNS)) ;;
  assert (negb (bool_decide ("_odb_clickhouse_inserted_at" ∈ COLUMNS))) ;;
  assert_eq (length COLUMNS) 18%nat).

Definition gateway_attribute_extracted_into_typed_column_and_removed_from_resource_map : TestResult := pure_test (
  let gateway_ts_ns := 1700000000123456789 in
  let resource := bt_insert "service.namespace" "responsive"
    (bt_insert "_odb_gateway_received_at" (show gateway_ts_ns) [("k", "v")]) in
  chunks ← unwrap (planned (with_rows 100) [rec_with "ingest/test/manifest" resource 11 0 0] 11 11);
  c17 ← cell chunks 17;
  match c17 with NullableDateTime64Nanos (Some v) => assert_eq v gateway_ts_ns | _ => panic "position 17 wrong shape" end ;;
  c6 ← cell chunks 6;
  match c6 with
  | StringMap m =>
      assert_eq (bt_get "_odb_gateway_received_at" m) None ;;
      assert_eq (bt_get "service.namespace" m) (Some "responsive")
  | _ => panic "position 6 wrong shape"
  end).

Definition missing_gateway_attribute_lands_as_null : TestResult := pure_test (
  chunks ← unwrap (planned (with_rows 100) [rec 1 0 0] 1 1);
  c17 ← cell chunks 17;
  match c17 with NullableDateTime64Nanos None => mret tt | _ => panic "expected NullableDateTime64Nanos(None)" end).

Definition non_numeric_gateway_attribute_is_dropped_and_lands_as_null : TestResult := pure_test (
  let resource := bt_insert "_odb_gateway_received_at" "not-a-number" [("k", "v")] in
  chunks ← unwrap (planned (with_rows 100) [rec_with "ingest/test/manifest" resource 1 0 0] 1 1);
  c17 ← cell chunks 17;
  match c17 with NullableDateTime64Nanos None => mret tt | _ => panic "expected NullableDateTime64Nanos(None) for bad parse" end ;;
  c6 ← cell chunks 6;
  match c6 with
  | StringMap m => assert_eq (bt_get "_odb_gateway_received_at" m) None
  | _ => panic "position 6 wrong shape"
  end).

Definition records_sorted_for_deterministic_chunking : TestResult := pure_test (
  chunks ← unwrap (planned (with_rows 100) [rec 2 0 0; rec 1 0 1; rec 1 0 0] 1 2);
  c0 ← index chunks 0;
  row_seqs ← lift (collect_results ((λ row, match row !! 10%nat with Some (UInt64 v) => Ok v | _ => Err "expected UInt64" end) <$> rows c0));
  assert_eq row_seqs [1; 1; 2]).

Definition logs_adapter_suite : list (string * TestResult) := [
  ("empty_batch_yields_no_chunks", empty_batch_yields_no_chunks);
  ("rows_chunk_at_max_chunk_rows", rows_chunk_at_max_chunk_rows);
  ("token_format_includes_low_high_version_fingerprint_chunk", token_format_includes_low_high_version_fingerprint_chunk);
  ("plan_rejects_records_from_mixed_manifests", plan_rejects_records_from_mixed_manifests);
  ("token_distinguishes_two_manifests_for_same_table", token_distinguishes_two_manifests_for_same_table);
  ("byte_threshold_chunks_records", byte_threshold_chunks_records);
  ("changing_max_chunk_bytes_shifts_chunk_boundaries", changing_max_chunk_bytes_shifts_chunk_boundaries);
  ("replay_with_same_inputs_produces_same_tokens", replay_with_same_inputs_produces_same_tokens);
  ("changing_max_chunk_rows_changes_fingerprint_and_tokens", changing_max_chunk_rows_changes_fingerprint_and_tokens);
  ("rows_carry_source_columns_in_correct_positions", rows_carry_source_columns_in_correct_positions);
  ("ddl_uses_replacing_merge_tree_with_adapter_version", ddl_uses_replacing_merge_tree_with_adapter_version);
  ("ddl_carries_stage2_e2e_latency_columns", ddl_carries_stage2_e2e_latency_columns);
  ("columns_const_includes_gateway_but_omits_inserted_at", columns_const_includes_gateway_but_omits_inserted_at);
  ("gateway_attribute_extracted_into_typed_column_and_removed_from_resource_map", gateway_attribute_extracted_into_typed_column_and_removed_from_resource_map);
  ("missing_gateway_attribute_lands_as_null", missing_gateway_attribute_lands_as_null);
  ("non_numeric_gateway_attribute_is_dropped_and_lands_as_null", non_numeric_gateway_attribute_is_dropped_and_lands_as_null);
  ("records_sorted_for_deterministic_chunking", records_sorted_for_deterministic_chunking)].

Theorem logs_adapter_tests_pass : failures logs_adapter_suite = [].
Proof. vm_compute. reflexivity. Qed.
