(* ===== verification/AdapterTokenTests.v ===== *)
(** * The contract tests of the insert token
    (plugins/opendata-ingest-clickhouse/tests/adapter_token.rs)

    The format of the deduplication token and its dependence on every input,
    computed with the SHA-256 of [Sha2]. *)

From Stdlib Require Import ZArith NArith.
From S2P Require Import Prelude.
From S2P Require Import BTree.
From S2P Require Import Types.
From S2P Require Import OtlpLogs.
From S2P Require Import LogsAdapter.
From S2P Require Import Sha2.
From S2P Require Import Testing.
Local Open Scope N_scope.

Definition token_record (manifest : string) (sequence entry_index record_index : N) : DecodedLogRecord := {|
  source := {| buffer_sequence := sequence; row_entry_index := entry_index; record_index := record_index;
               manifest_path := manifest; data_path := "ingest/test/adapter-token/data/0";
               row_ingestion_time_ms := 1700000000000 |};
  timestamp_unix_nano := 1700000000000000000; observed_timestamp_unix_nano := 1700000000000000001;
  severity_number := 9; severity_text := "INFO"; body := "hello"; service_name := Some "svc";
  resource_attributes := []; scope_name := None; log_attributes := []; trace_id_hex := ""; span_id_hex := "" |}.

Definition identity (low high : N) : CommitIdentity := {|
  ci_source := mkSourceId "buffer"; ci_sink := mkSinkId "clickhouse_logs"; ci_range := SequenceRange_new low high;
  ci_schema_version := mkSchemaVersion 1 |}.

Definition batch_of (id : CommitIdentity) (records : list DecodedLogRecord) : ClickHouseAdapterBatch DecodedLogRecord := {|
  cab_identity := id; cab_records := records; cab_bytes := sum_N (approx_size_bytes <$> records) |}.

Definition batch (manifest : string) (low_sequence high_sequence : N) (n_records : nat) : ClickHouseAdapterBatch DecodedLogRecord :=
  batch_of (identity low_sequence high_sequence)
    ((λ i, token_record manifest low_sequence 0 (N.of_nat i)) <$> seq 0 n_records).

(** [LogsAdapterConfig { max_chunk_rows, .. }] with the database and the table
    of two of the tests. *)
Definition responsive_logs (rows : N) : LogsAdapterConfig := {|
  database := "responsive"; table := "logs"; adapter_version := 1; max_chunk_rows := rows;
  max_chunk_bytes := 32 * 1024 * 1024; insert_quorum := Some "auto"; apply_deduplication_token := true |}.

Abbreviation T := (M unit Panic).

(** [OtlpLogsClickHouseAdapter::new(cfg).plan(b).expect(..)[0].idempotency_token]. *)
Definition first_token (config : LogsAdapterConfig) (b : ClickHouseAdapterBatch DecodedLogRecord) : T string :=
  chunks ← unwrap (plan (OtlpLogsClickHouseAdapter_new config) b);
  chunk ← index chunks 0;
  mret (idempotency_token chunk).

Definition adapter_token_matches_documented_build_token_shape : TestResult := pure_test (
  let config := responsive_logs 100000 in
  let adapter := OtlpLogsClickHouseAdapter_new config in
  let fingerprint := oca_fingerprint adapter in
  chunks ← unwrap (plan adapter (batch "ingest/test/adapter-token/manifest" 7 9 1));
  assert_eq (length chunks) 1%nat ;;
  let expected := "ingest/test/adapter-token/manifest:" +:+ database config +:+ "." +:+ table config +:+ ":7-9:" +:+
                  show (adapter_version config) +:+ ":" +:+ fingerprint +:+ ":0" in
  c0 ← index chunks 0;
  assert_eq (idempotency_token c0) expected ;;
  assert_eq (insert_deduplication_token (settings c0)) expected).

Definition adapter_token_changes_with_manifest_path : TestResult := pure_test (
  a ← first_token LogsAdapterConfig_default (batch "manifests/a" 0 0 1);
  b ← first_token LogsAdapterConfig_default (batch "manifests/b" 0 0 1);
  assert_ne a b).

(** [cfg.field = value] on a copy of the default configuration. *)
Definition with_database (v : string) (c : LogsAdapterConfig) : LogsAdapterConfig := {|
  database := v; table := table c; adapter_version := adapter_version c; max_chunk_rows := max_chunk_rows c;
  max_chunk_bytes := max_chunk_bytes c; insert_quorum := insert_quorum c;
  apply_deduplication_token := apply_deduplication_token c |}.
Definition with_table (v : string) (c : LogsAdapterConfig) : LogsAdapterConfig := {|
  database := database c; table := v; adapter_version := adapter_version c; max_chunk_rows := max_chunk_rows c;
  max_chunk_bytes := max_chunk_bytes c; insert_quorum := insert_quorum c;
  apply_deduplication_token := apply_deduplication_token c |}.
Definition with_version (v : N) (c : LogsAdapterConfig) : LogsAdapterConfig := {|
  database := database c; table := table c; adapter_version := v; max_chunk_rows := max_chunk_rows c;
  max_chunk_bytes := max_chunk_bytes c; insert_quorum := insert_quorum c;
  apply_deduplication_token := apply_deduplication_token c |}.
Definition with_max_chunk_rows (v : N) (c : LogsAdapterConfig) : LogsAdapterConfig := {|
  database := database c; table := table c; adapter_version := adapter_version c; max_chunk_rows := v;
  max_chunk_bytes := max_chunk_bytes c; insert_quorum := insert_quorum c;
  apply_deduplication_token := apply_deduplication_token c |}.
Definition with_max_chunk_bytes (v : N) (c : LogsAdapterConfig) : LogsAdapterConfig := {|
  database := database c; table := table c; adapter_version := adapter_version c; max_chunk_rows := max_chunk_rows c;
  max_chunk_bytes := v; insert_quorum := insert_quorum c;
  apply_deduplication_token := apply_deduplication_token c |}.
Definition with_quorum (v : option string) (c : LogsAdapterConfig) : LogsAdapterConfig := {|
  database := database c; table := table c; adapter_version := adapter_version c; max_chunk_rows := max_chunk_rows c;
  max_chunk_bytes := max_chunk_bytes c; insert_quorum := v;
  apply_deduplication_token := apply_deduplication_token c |}.

Definition adapter_token_changes_with_database_table_low_high_adapter_version : TestResult := pure_test (
  let baseline_cfg := LogsAdapterConfig_default in
  let base := batch "manifests/base" 0 0 1 in
  baseline ← first_token baseline_cfg base;
  differ_db ← first_token (with_database "other_db" baseline_cfg) base;
  assert_ne baseline differ_db ;;
  differ_table ← first_token (with_table "other_table" baseline_cfg) base;
  assert_ne baseline differ_table ;;
  differ_version ← first_token (with_version (adapter_version baseline_cfg + 1) baseline_cfg) base;
  assert_ne baseline differ_version ;;
  differ_low ← first_token baseline_cfg (batch "manifests/base" 1 1 1);
  assert_ne baseline differ_low ;;
  differ_high ← first_token baseline_cfg (batch "manifests/base" 0 1 1);
  assert_ne baseline differ_high).

Definition adapter_token_changes_with_chunking_fingerprint_inputs : TestResult := pure_test (
  let baseline_cfg := LogsAdapterConfig_default in
  let base := batch "manifests/base" 0 0 1 in
  baseline ← first_token baseline_cfg base;
  differ_rows ← first_token (with_max_chunk_rows (max_chunk_rows baseline_cfg + 1) baseline_cfg) base;
  assert_ne baseline differ_rows ;;
  differ_bytes ← first_token (with_max_chunk_bytes (max_chunk_bytes baseline_cfg + 1) baseline_cfg) base;
  assert_ne baseline differ_bytes ;;
  differ_quorum ← first_token (with_quorum (Some "3") baseline_cfg) base;
  assert_ne baseline differ_quorum ;;
  differ_none ← first_token (with_quorum None baseline_cfg) base;
  assert_ne baseline differ_none ;;
  differ_empty ← first_token (with_quorum (Some "") baseline_cfg) base;
  assert_eq differ_none differ_empty).

(** [seen.insert] is true of every token: no two are equal. *)
Definition adapter_token_chunk_index_increments_within_a_single_plan : TestResult := pure_test (
  chunks ← unwrap (plan (OtlpLogsClickHouseAdapter_new (responsive_logs 1)) (batch "manifests/chunked" 0 0 3));
  assert_eq (length chunks) 3%nat ;;
  for_each (imap pair chunks) (λ '(i, chunk),
    assert_eq (chunk_index chunk) (N.of_nat i) ;;
    assert (ends_with (idempotency_token chunk) (":" +:+ show (N.of_nat i)))) ;;
  assert (bool_decide (NoDup (idempotency_token <$> chunks)))).

Definition adapter_token_range_comes_from_commit_identity_range : TestResult := pure_test (
  let records := [token_record "manifests/range-prov" 100 0 0] in
  chunks ← unwrap (plan (OtlpLogsClickHouseAdapter_new LogsAdapterConfig_default) (batch_of (identity 7 9) records));
  assert_eq (length chunks) 1%nat ;;
  c0 ← index chunks 0;
  let token := idempotency_token c0 in
  assert (contains token ":7-9:") ;;
  assert (negb (contains token ":100-100:"))).

Definition adapter_token_changes_with_commit_identity_range : TestResult := pure_test (
  let records := [token_record "manifests/range-shift" 1 0 0] in
  a ← first_token LogsAdapterConfig_default (batch_of (identity 0 0) records);
  b ← first_token LogsAdapterConfig_default (batch_of (identity 0 1) records);
  assert_ne a b).

Definition adapter_token_suite : list (string * TestResult) := [
  ("adapter_token_matches_documented_build_token_shape", adapter_token_matches_documented_build_token_shape);
  ("adapter_token_changes_with_manifest_path", adapter_token_changes_with_manifest_path);
  ("adapter_token_changes_with_database_table_low_high_adapter_version", adapter_token_changes_with_database_table_low_high_adapter_version);
  ("adapter_token_changes_with_chunking_fingerprint_inputs", adapter_token_changes_with_chunking_fingerprint_inputs);
  ("adapter_token_chunk_index_increments_within_a_single_plan", adapter_token_chunk_index_increments_within_a_single_plan);
  ("adapter_token_range_comes_from_commit_identity_range", adapter_token_range_comes_from_commit_identity_range);
  ("adapter_token_changes_with_commit_identity_range", adapter_token_changes_with_commit_identity_range)].

Theorem adapter_token_tests_pass : failures adapter_token_suite = [].
Proof. vm_compute. reflexivity. Qed.
