(* ===== verification/SerializerTests.v ===== *)
(** * The unit tests of the row values and the serializers
    (plugins/opendata-ingest-clickhouse/src/adapter/mod.rs,
    serializer/rowbinary.rs and serializer/jsoneachrow.rs, [mod tests]) *)

From Stdlib Require Import ZArith NArith.
From S2P Require Import Prelude.
From S2P Require Import BTree.
From S2P Require Import Types.
From S2P Require Import OtlpLogs.
From S2P Require Import RowValue.
From S2P Require Import LogsAdapter.
From S2P Require Import Serializer.
From S2P Require Import Testing.
Local Open Scope N_scope.

(** ** JSON values, for the tests

    A tree of values with its compact text; the strings of the tests need no
    escapes. *)

#[warnings="-register-all"]
Inductive Json := JString (s : string) | JNumber (n : Z) | JNull | JObject (keys : list string) (values : list Json).

Fixpoint json_text (v : Json) : string :=
  match v with
  | JString s => quote +:+ s +:+ quote
  | JNumber n => show_Z n
  | JNull => "null"
  | JObject keys values =>
      "{" +:+ String.concat "," (zip_with (λ k v, quote +:+ k +:+ quote +:+ ":" +:+ v) keys (map json_text values)) +:+ "}"
  end.

#[export] Instance TreeJson : SerdeJson := {
  JsonValue := Json;
  JsonMap := btree string Json;
  json_string := JString;
  json_number := JNumber;
  json_null := JNull;
  json_object m := JObject m.*1 m.*2;
  json_map_new := [];
  json_map_insert := bt_insert;
  to_vec v := Ok (as_bytes (json_text v));
}.

Definition bytes_of (l : list N) : Bytes := u8_of_N <$> l.

(** ** adapter/mod.rs *)

Definition date_is (secs nanos : Z) (text : string) : TestResult :=
  pure_test (s ← expect (date_format secs nanos) "the calendar ends"; assert_eq s text).

Definition unix_epoch_is_1970_01_01 : TestResult := date_is 0 0 "1970-01-01 00:00:00.000000000".
Definition known_timestamp : TestResult := date_is 1700000000 0 "2023-11-14 22:13:20.000000000".
Definition leap_year_handling : TestResult := date_is 1582934400 0 "2020-02-29 00:00:00.000000000".

Definition datetime64_format_round_trips_for_nanos : TestResult := pure_test (
  s ← expect (format_datetime64_ns 1700000000123456789) "the calendar ends";
  assert_eq s "2023-11-14 22:13:20.123456789").

Definition row_value_stringmap_serializes_to_object : TestResult := pure_test (
  json ← expect (to_json (StringMap (bt_insert "k" "v" []))) "the calendar ends";
  match json with
  | JObject keys values => match bt_get "k" (zip keys values) with Some (JString v) => assert_eq v "v" | _ => panic "unwrap" end
  | _ => panic "unwrap"
  end).

Definition nullable_datetime64_some_json_is_iso8601 : TestResult := pure_test (
  json ← expect (to_json (NullableDateTime64Nanos (Some 1700000000123456789))) "the calendar ends";
  match json with JString s => assert_eq s "2023-11-14 22:13:20.123456789" | _ => panic "unwrap" end).

Definition nullable_datetime64_none_json_is_null : TestResult := pure_test (
  json ← expect (to_json (NullableDateTime64Nanos None)) "the calendar ends";
  match json with JNull => mret tt | _ => panic "expected JSON null" end).

Definition nullable_datetime64_some_row_binary_byte_layout : TestResult := pure_test (
  assert_eq (write_row_binary (NullableDateTime64Nanos (Some 0x123456789abcdef0)))
    (bytes_of [0x00; 0xf0; 0xde; 0xbc; 0x9a; 0x78; 0x56; 0x34; 0x12])).

Definition nullable_datetime64_none_row_binary_is_single_null_byte : TestResult := pure_test (
  assert_eq (write_row_binary (NullableDateTime64Nanos None)) (bytes_of [0x01])).

(** ** serializer/rowbinary.rs *)

Definition rowbinary_type_table_covers_all_otlp_logs_columns : TestResult := pure_test (
  for_each COLUMNS (λ col, unwrap (clickhouse_type_for_column col) ;; mret tt)).

Definition write_row_binary_emits_expected_bytes_for_each_variant : TestResult := pure_test (
  assert_eq (write_row_binary (UInt8 0x5A)) (bytes_of [0x5A]) ;;
  assert_eq (write_row_binary (UInt32 0x01020304)) (bytes_of [0x04; 0x03; 0x02; 0x01]) ;;
  assert_eq (write_row_binary (UInt64 0x0807060504030201))
    (bytes_of [0x01; 0x02; 0x03; 0x04; 0x05; 0x06; 0x07; 0x08]) ;;
  assert_eq (write_row_binary (Int32 (-1))) (bytes_of [0xFF; 0xFF; 0xFF; 0xFF]) ;;
  assert_eq (write_row_binary (Int64 (-1))) (bytes_of [0xFF; 0xFF; 0xFF; 0xFF; 0xFF; 0xFF; 0xFF; 0xFF]) ;;
  assert_eq (write_row_binary (DateTime64Nanos 0)) (bytes_of [0; 0; 0; 0; 0; 0; 0; 0]) ;;
  assert_eq (write_row_binary (RVString "hi")) (bytes_of [0x02] ++ as_bytes "hi") ;;
  assert_eq (write_row_binary (LowCardinalityString "abc")) (bytes_of [0x03] ++ as_bytes "abc") ;;
  let map := bt_insert "aa" "bb" (bt_insert "k" "v" []) in
  assert_eq (write_row_binary (StringMap map))
    (bytes_of [0x02; 0x02] ++ as_bytes "aa" ++ bytes_of [0x02] ++ as_bytes "bb" ++
     bytes_of [0x01] ++ as_bytes "k" ++ bytes_of [0x01] ++ as_bytes "v")).

(** [ClickHouseSettings::default()]. *)
Definition settings_default : ClickHouseSettings := {|
  chs_insert_quorum := None; insert_deduplication_token := ""; chs_apply_deduplication_token := false |}.

Definition severity_chunk (cells : list (list RowValue)) : InsertChunk := {|
  ic_database := "responsive"; ic_table := "logs"; columns := ["SeverityNumber"]; rows := cells;
  settings := settings_default; idempotency_token := "tok"; chunk_index := 0; observability_labels := [] |}.

Definition rowbinary_serialize_header_for_otlp_logs : TestResult := pure_test (
  bytes ← unwrap (serialize mkRowBinarySerializer (severity_chunk [[UInt8 9]; [UInt8 13]]));
  let expected :=
    bytes_of [0x01; N.of_nat (String.length "SeverityNumber")] ++ as_bytes "SeverityNumber" ++
    bytes_of [N.of_nat (String.length "UInt8")] ++ as_bytes "UInt8" ++ bytes_of [9; 13] in
  assert_eq bytes expected).

Definition rowbinary_rejects_row_column_mismatch : TestResult := pure_test (
  e ← unwrap_err (serialize mkRowBinarySerializer (severity_chunk [[UInt8 1; UInt8 2]]));
  match e with WSerialization msg => assert (contains msg "row has 2 values") | _ => panic "unexpected error" end).

(** ** serializer/jsoneachrow.rs *)

Definition chunk (cells : list (list RowValue)) : InsertChunk := {|
  ic_database := "responsive"; ic_table := "logs"; columns := ["a"; "b"]; rows := cells;
  settings := {| chs_insert_quorum := Some "auto"; insert_deduplication_token := "tok";
                 chs_apply_deduplication_token := true |};
  idempotency_token := "tok"; chunk_index := 0; observability_labels := [] |}.

(** The lines of the body are the texts of the two objects. *)
Definition jsoneachrow_emits_one_object_per_row : TestResult := pure_test (
  body ← unwrap (serialize mkJsonEachRowSerializer (chunk [[RVString "x"; UInt64 1]; [RVString "y"; UInt64 2]]));
  let line a b := as_bytes (json_text (JObject ["a"; "b"] [JString a; JNumber b])) ++ bytes_of [10] in
  assert_eq body (line "x" 1%Z ++ line "y" 2%Z)).

Definition jsoneachrow_rejects_row_column_mismatch : TestResult := pure_test (
  e ← unwrap_err (serialize mkJsonEachRowSerializer (chunk [[RVString "x"]]));
  match e with WSerialization msg => assert (contains msg "row has 1 values") | _ => panic "unexpected error" end).

Definition serializer_suite : list (string * TestResult) := [
  ("unix_epoch_is_1970_01_01", unix_epoch_is_1970_01_01);
  ("known_timestamp", known_timestamp);
  ("leap_year_handling", leap_year_handling);
  ("datetime64_format_round_trips_for_nanos", datetime64_format_round_trips_for_nanos);
  ("row_value_stringmap_serializes_to_object", row_value_stringmap_serializes_to_object);
  ("nullable_datetime64_some_json_is_iso8601", nullable_datetime64_some_json_is_iso8601);
  ("nullable_datetime64_none_json_is_null", nullable_datetime64_none_json_is_null);
  ("nullable_datetime64_some_row_binary_byte_layout", nullable_datetime64_some_row_binary_byte_layout);
  ("nullable_datetime64_none_row_binary_is_single_null_byte", nullable_datetime64_none_row_binary_is_single_null_byte);
  ("rowbinary_type_table_covers_all_otlp_logs_columns", rowbinary_type_table_covers_all_otlp_logs_columns);
  ("write_row_binary_emits_expected_bytes_for_each_variant", write_row_binary_emits_expected_bytes_for_each_variant);
  ("rowbinary_serialize_header_for_otlp_logs", rowbinary_serialize_header_for_otlp_logs);
  ("rowbinary_rejects_row_column_mismatch", rowbinary_rejects_row_column_mismatch);
  ("jsoneachrow_emits_one_object_per_row", jsoneachrow_emits_one_object_per_row);
  ("jsoneachrow_rejects_row_column_mismatch", jsoneachrow_rejects_row_column_mismatch)].

Theorem serializer_tests_pass : failures serializer_suite = [].
Proof. vm_compute. reflexivity. Qed.
