(* ===== verification/SinkTests.v ===== *)
(** * The unit tests of the writer and the sink
    (plugins/opendata-ingest-clickhouse/src/writer.rs and sink.rs,
    [mod tests]) *)

From Stdlib Require Import ZArith NArith.
From S2P Require Import Prelude.
From S2P Require Import BTree.
From S2P Require Import Types.
From S2P Require Import Options.
From S2P Require Import OtlpLogs.
From S2P Require Import RowValue.
From S2P Require Import LogsAdapter.
From S2P Require Import Serializer.
From S2P Require Import Async.
From S2P Require Import ClickHouseMetrics.
From S2P Require Import Writer.
From S2P Require Import ClickHouseSink.
From S2P Require Import Testing.
From S2P Require Import SerializerTests.
Local Open Scope N_scope.

(** ** writer.rs *)

Definition insert_sql_is_well_formed : TestResult := pure_test (
  assert_eq (render_insert_sql_clean (chunk []) JsonEachRow) "INSERT INTO responsive.logs FORMAT JSONEachRow").

Definition classify_status_503_is_retryable : TestResult := pure_test (
  assert_eq (class (classify_status 503 "service unavailable").2) ClassRetryable).
Definition classify_status_429_is_retryable : TestResult := pure_test (
  assert_eq (class (classify_status 429 "too many requests").2) ClassRetryable).
Definition classify_status_400_is_non_retryable : TestResult := pure_test (
  assert_eq (class (classify_status 400 "bad request").2) ClassNonRetryable).

Definition retry_budget_exhausted_classifies_distinctly : TestResult := pure_test (
  assert_eq (class (WRetryBudgetExhausted "retry budget (3) exhausted: timeout")) ClassRetryBudgetExhausted ;;
  assert_ne ClassRetryBudgetExhausted ClassNonRetryable).

Definition at_endpoint (url : string) (timeout : Duration) (attempts : N) (backoff : Duration) : WriterConfig := {|
  endpoint := url; user := user WriterConfig_default; password := password WriterConfig_default;
  request_timeout := timeout; max_attempts := attempts; initial_backoff := backoff;
  serialization_format := serialization_format WriterConfig_default;
  http_client_mode := http_client_mode WriterConfig_default |}.

(** Every connection to the closed port is refused. *)
Definition refused : WriterState := demo_state [Err "connect"].

Definition execute_chunk_returns_retry_budget_exhausted_after_one_attempt : TestResult := pure_test (
  let config := at_endpoint "http://127.0.0.1:1" (from_millis 100) 1 (from_millis 1) in
  let writer := (new_with_metrics config (ws_world refused)).2 in
  let c := {| ic_database := "test"; ic_table := "logs"; columns := ["body"]; rows := [[RVString "hello"]];
              settings := settings_default; idempotency_token := "test-token"; chunk_index := 0;
              observability_labels := [] |} in
  e ← unwrap_err (run (execute_chunk writer c) refused).2;
  assert_eq (class e) ClassRetryBudgetExhausted).

Definition insert_url_carries_settings_as_query_params : TestResult := pure_test (
  let url := build_insert_url "http://localhost:8123" (chunk []) (mkDuration 5000000000) in
  assert (starts_with url "http://localhost:8123/?async_insert=0") ;;
  assert (contains url "date_time_input_format=best_effort") ;;
  assert (contains url "insert_deduplication_token=tok") ;;
  assert (contains url "insert_quorum=auto") ;;
  assert (contains url "max_execution_time=5")).

Definition insert_url_omits_token_when_disabled : TestResult := pure_test (
  let c := chunk [] in
  let c := {| ic_database := ic_database c; ic_table := ic_table c; columns := columns c; rows := rows c;
              settings := {| chs_insert_quorum := chs_insert_quorum (settings c);
                             insert_deduplication_token := insert_deduplication_token (settings c);
                             chs_apply_deduplication_token := false |};
              idempotency_token := idempotency_token c; chunk_index := chunk_index c;
              observability_labels := observability_labels c |} in
  let url := build_insert_url "http://localhost:8123" c (mkDuration 5000000000) in
  assert (negb (contains url "insert_deduplication_token"))).

(** ** sink.rs *)

(** An adapter that plans no chunk. *)
Inductive DroppingAdapter := mkDroppingAdapter.
#[export] Instance DroppingAdapter_adapter : Adapter DroppingAdapter := { plan _ _ := Ok [] }.

Definition fake_log_record (seq : N) (attributes : btree string string) : DecodedLogRecord := {|
  source := {| buffer_sequence := seq; row_entry_index := 0; record_index := 0; manifest_path := "test/manifest";
               data_path := "test/data"; row_ingestion_time_ms := 0 |};
  timestamp_unix_nano := 0; observed_timestamp_unix_nano := 0; severity_number := 9; severity_text := "INFO";
  body := "hello"; service_name := None; resource_attributes := []; scope_name := None;
  log_attributes := attributes; trace_id_hex := ""; span_id_hex := "" |}.

Definition fake_sink_commit (rs : list DecodedLogRecord) : SinkCommit TypedDecodedLogs :=
  let count := length rs in
  {| sc_identity := {| ci_source := mkSourceId "test"; ci_sink := mkSinkId "clickhouse_logs";
                       ci_range := SequenceRange_new 0 0; ci_schema_version := mkSchemaVersion 1 |};
     sc_batch := {| db_source := mkSourceId "test"; db_low_sequence := 0; db_high_sequence := 0;
                    db_source_entry_count := wrap32 (N.of_nat count); db_records := Typed (TypedDecodedLogs_new rs);
                    db_source_columns := {| scc_manifest_path := "test/manifest"; scc_data_path := "test/data";
                      scc_sequences := replicate count 0; scc_entry_indices := replicate count 0;
                      scc_record_indices := N.of_nat <$> seq 0 count; scc_ingestion_time_ms := replicate count 0%Z |};
                    db_stats := {| source_byte_count := 0; decoded_byte_estimate := 0 |};
                    db_schema_version := mkSchemaVersion 1 |} |}.

Definition sink_rejects_adapter_that_drops_rows : TestResult := pure_test (
  let config := at_endpoint "http://localhost:1" (request_timeout WriterConfig_default) (max_attempts WriterConfig_default)
                  (initial_backoff WriterConfig_default) in
  let writer := (new_with_metrics config (ws_world refused)).2 in
  let sink := ClickHouseSink_new_with_metrics (mkSinkId "clickhouse_logs") mkDroppingAdapter writer in
  let commit := fake_sink_commit [fake_log_record 0 []; fake_log_record 1 []] in
  e ← unwrap_err (sink_write sink commit refused).2;
  match e with
  | Fatal boxed => assert (contains (box_display boxed) "adapter plan covered 0 rows but commit held 2")
  | _ => panic "expected Fatal"
  end).

Definition bucket_rows_by_run_id_groups_and_falls_back : TestResult := pure_test (
  let a := fake_log_record 0 [("_odb_run_id", "run-a")] in
  let b := fake_log_record 1 [("_odb_run_id", "run-a")] in
  let c := fake_log_record 2 [("_odb_run_id", "run-b")] in
  let d := fake_log_record 3 [] in
  let counts := bucket_rows_by_run_id [a; b; c; d] in
  assert_eq (counts !! "run-a") (Some 2) ;;
  assert_eq (counts !! "run-b") (Some 1) ;;
  assert_eq (counts !! "unknown") (Some 1) ;;
  assert_eq (sum_N (map_to_list counts).*2) 4).

Definition sink_suite : list (string * TestResult) := [
  ("insert_sql_is_well_formed", insert_sql_is_well_formed);
  ("classify_status_503_is_retryable", classify_status_503_is_retryable);
  ("classify_status_429_is_retryable", classify_status_429_is_retryable);
  ("classify_status_400_is_non_retryable", classify_status_400_is_non_retryable);
  ("retry_budget_exhausted_classifies_distinctly", retry_budget_exhausted_classifies_distinctly);
  ("execute_chunk_returns_retry_budget_exhausted_after_one_attempt", execute_chunk_returns_retry_budget_exhausted_after_one_attempt);
  ("insert_url_carries_settings_as_query_params", insert_url_carries_settings_as_query_params);
  ("insert_url_omits_token_when_disabled", insert_url_omits_token_when_disabled);
  ("sink_rejects_adapter_that_drops_rows", sink_rejects_adapter_that_drops_rows);
  ("bucket_rows_by_run_id_groups_and_falls_back", bucket_rows_by_run_id_groups_and_falls_back)].

Theorem sink_tests_pass : failures sink_suite = [].
Proof. vm_compute. reflexivity. Qed.
