(* ===== verification/IngestorTests.v ===== *)
(** * The unit tests of the ingestor
    (connectors/clickhouse-ingestor/src/config.rs and bench.rs, [mod tests])

    The documents of the configuration's tests are written with the keys that
    each YAML text has; a key that no section declares ([commit_group]) has no
    counterpart. *)

From Stdlib Require Import NArith.
From S2P Require Import Prelude.
From S2P Require Import Types.
From S2P Require Import Options.
From S2P Require Import LogsAdapter.
From S2P Require Import Serializer.
From S2P Require Import Writer.
From S2P Require Import IngestorConfig.
From S2P Require Import Bench.
From S2P Require Import Testing.
Local Open Scope N_scope.

#[export] Instance SerializationFormat_eq_dec : EqDecision SerializationFormat.
Proof. solve_decision. Defined.
#[export] Instance HttpClientMode_eq_dec : EqDecision HttpClientMode.
Proof. solve_decision. Defined.

(** ** config.rs *)

(** [serde_yaml::from_str]: a path is the document itself. *)
#[export] Instance YamlText : Figment := {
  Path := RawConfig string;
  path_display _ := "yaml";
  ObjectStoreConfig := string;
  merged document := Ok document;
  missing_field key := "missing field `" +:+ key +:+ "`";
}.

Definition Document : Type := RawConfig (@ObjectStoreConfig YamlText).
Definition from_str (yaml : Document) : result (IngestorConfig string) string := fill yaml.

Definition yaml_buffer : RawBuffer string := {|
  raw_manifest_path := Some "m"; raw_data_prefix := Some "d"; raw_object_store := Some "InMemory" |}.
Definition yaml_clickhouse : RawClickHouse := {|
  raw_endpoint := Some "http://x:8123"; raw_database := Some "db"; raw_table := Some "t";
  raw_insert_quorum := None; raw_user := None; raw_password := None |}.
(** [runtime:] with the five keys that most of the texts set. *)
Definition yaml_runtime : RawRuntime := {|
  raw_dry_run := Some true; raw_poll_interval_ms := Some 250; raw_retry_max_attempts := Some 6;
  raw_retry_initial_backoff_ms := Some 100; raw_request_timeout_secs := Some 30;
  raw_max_inflight_batches := None; raw_max_inflight_bytes := None; raw_estimated_max_batch_bytes := None;
  raw_fetch_concurrency := None; raw_decode_concurrency := None; raw_oversize_fault_multiplier := None;
  raw_max_descriptors_per_poll := None |}.
Definition yaml_ack : RawAck := {| raw_policy := Some KEveryCommitGroup; raw_n := None |}.
Definition yaml_adapter (max_chunk_rows max_chunk_bytes : N) : RawAdapter := {|
  raw_adapter_version := Some 1; raw_max_chunk_rows := Some max_chunk_rows;
  raw_max_chunk_bytes := Some max_chunk_bytes; raw_apply_deduplication_token := None |}.

(** The text that the tests vary. *)
Definition yaml_with (runtime : RawRuntime) (ack : RawAck) (sink : option RawSink)
    (metrics_server : option RawMetricsServer) : Document := {|
  raw_buffer := Some yaml_buffer; raw_clickhouse := Some yaml_clickhouse; raw_runtime := Some runtime;
  raw_ack := Some ack; raw_adapter := Some (yaml_adapter 1 1); raw_sink := sink;
  raw_metrics_server := metrics_server |}.

Definition defaults_render_via_serde : TestResult := pure_test (
  let yaml : Document := {|
    raw_buffer := Some {| raw_manifest_path := Some "ingest/otel/logs/manifest";
      raw_data_prefix := Some "ingest/otel/logs/data"; raw_object_store := Some "InMemory" |};
    raw_clickhouse := Some {| raw_endpoint := Some "http://localhost:8123"; raw_database := Some "responsive";
      raw_table := Some "logs"; raw_insert_quorum := None; raw_user := None; raw_password := None |};
    raw_runtime := Some yaml_runtime; raw_ack := Some yaml_ack;
    raw_adapter := Some (yaml_adapter 100000 33554432); raw_sink := None; raw_metrics_server := None |} in
  cfg ← unwrap (from_str yaml);
  let writer := writer_config cfg in
  assert_eq (endpoint writer) "http://localhost:8123" ;;
  assert_eq (max_attempts writer) 6 ;;
  assert_eq (serialization_format writer) JsonEachRow ;;
  assert_eq (http_client_mode writer) PerCall ;;
  assert_eq (sk_max_concurrent_commits (cfg_sink cfg)) 4 ;;
  match cfg_ack_flush_policy cfg with EveryCommitGroup => mret tt | _ => panic "unexpected policy" end ;;
  let adapter := logs_adapter_config cfg in
  assert_eq (database adapter) "responsive" ;;
  assert_eq (table adapter) "logs" ;;
  assert_eq (adapter_version adapter) 1 ;;
  assert_eq (rs_max_descriptors_per_poll (cfg_runtime cfg)) 8).

Definition runtime_max_descriptors_per_poll_override_parses : TestResult := pure_test (
  let runtime := {|
    raw_dry_run := None; raw_poll_interval_ms := None; raw_retry_max_attempts := None;
    raw_retry_initial_backoff_ms := None; raw_request_timeout_secs := None; raw_max_inflight_batches := None;
    raw_max_inflight_bytes := None; raw_estimated_max_batch_bytes := None; raw_fetch_concurrency := None;
    raw_decode_concurrency := None; raw_oversize_fault_multiplier := None;
    raw_max_descriptors_per_poll := Some 16 |} in
  cfg ← unwrap (from_str (yaml_with runtime yaml_ack None None));
  assert_eq (rs_max_descriptors_per_poll (cfg_runtime cfg)) 16).

Definition sink_section_wires_serialization_format_and_http_client_mode : TestResult := pure_test (
  let sink := {| raw_max_concurrent_commits := Some 16; raw_serialization_format := Some RowBinary;
                 raw_http_client_mode := Some (Pooled 32 30000) |} in
  cfg ← unwrap (from_str (yaml_with yaml_runtime yaml_ack (Some sink) None));
  assert_eq (sk_max_concurrent_commits (cfg_sink cfg)) 16 ;;
  assert_eq (sk_serialization_format (cfg_sink cfg)) RowBinary ;;
  assert_eq (sk_http_client_mode (cfg_sink cfg)) (Pooled 32 30000) ;;
  let writer := writer_config cfg in
  assert_eq (serialization_format writer) RowBinary ;;
  assert_eq (http_client_mode writer) (Pooled 32 30000)).

Definition metrics_server_section_defaults_when_absent : TestResult := pure_test (
  cfg ← unwrap (from_str (yaml_with yaml_runtime yaml_ack None None));
  assert_eq (bind_addr (cfg_metrics_server cfg)) "0.0.0.0:9090").

Definition metrics_server_section_overrides_bind_addr : TestResult := pure_test (
  cfg ← unwrap (from_str (yaml_with yaml_runtime yaml_ack None (Some {| raw_bind_addr := Some "127.0.0.1:8080" |})));
  assert_eq (bind_addr (cfg_metrics_server cfg)) "127.0.0.1:8080").

Definition ack_every_n_clamps_zero_to_one : TestResult := pure_test (
  cfg ← unwrap (from_str (yaml_with yaml_runtime {| raw_policy := Some KEveryN; raw_n := Some 0 |} None None));
  match cfg_ack_flush_policy cfg with EveryN n => assert_eq n 1 | _ => panic "unexpected" end).

(** ** bench.rs *)

Definition cfg : LogsAdapterConfig := LogsAdapterConfig_default.

Definition alpha_default_uses_hybrid_order_by : TestResult := pure_test (
  let ddl := alpha_default_ddl cfg in
  assert (contains ddl
    "ORDER BY (toDate(Timestamp), ServiceName, _odb_sequence, _odb_entry_index, _odb_record_index)")).

Definition raw_landing_uses_pure_source_order_by : TestResult := pure_test (
  let ddl := raw_landing_table_ddl cfg in
  assert (contains ddl "ORDER BY (_odb_sequence, _odb_entry_index, _odb_record_index)") ;;
  assert (negb (contains ddl "toDate(Timestamp), ServiceName"))).

Definition last_n_query_renders_with_service_and_limit : TestResult := pure_test (
  let sql := render_sql (LastNForService "controller" 100) "db" "t" in
  assert (contains sql "ServiceName = 'controller'") ;;
  assert (contains sql "LIMIT 100")).

Definition time_range_renders_with_unix_bounds : TestResult := pure_test (
  let sql := render_sql (TimeRangeWithSeverity 1 2) "db" "t" in
  assert (contains sql "fromUnixTimestamp(1)") ;;
  assert (contains sql "fromUnixTimestamp(2)") ;;
  assert (contains sql "SeverityNumber >= 9")).

Definition attribute_lookup_renders_with_key_value : TestResult := pure_test (
  let sql := render_sql (AttributeLookup "topic" "foo" 50) "db" "t" in
  assert (contains sql "LogAttributes['topic'] = 'foo'")).

Definition alpha_query_suite_covers_three_shapes : TestResult := pure_test (
  assert_eq (length alpha_query_suite) 3%nat).

Definition ingestor_suite : list (string * TestResult) := [
  ("defaults_render_via_serde", defaults_render_via_serde);
  ("runtime_max_descriptors_per_poll_override_parses", runtime_max_descriptors_per_poll_override_parses);
  ("sink_section_wires_serialization_format_and_http_client_mode", sink_section_wires_serialization_format_and_http_client_mode);
  ("metrics_server_section_defaults_when_absent", metrics_server_section_defaults_when_absent);
  ("metrics_server_section_overrides_bind_addr", metrics_server_section_overrides_bind_addr);
  ("ack_every_n_clamps_zero_to_one", ack_every_n_clamps_zero_to_one);
  ("alpha_default_uses_hybrid_order_by", alpha_default_uses_hybrid_order_by);
  ("raw_landing_uses_pure_source_order_by", raw_landing_uses_pure_source_order_by);
  ("last_n_query_renders_with_service_and_limit", last_n_query_renders_with_service_and_limit);
  ("time_range_renders_with_unix_bounds", time_range_renders_with_unix_bounds);
  ("attribute_lookup_renders_with_key_value", attribute_lookup_renders_with_key_value);
  ("alpha_query_suite_covers_three_shapes", alpha_query_suite_covers_three_shapes)].

Theorem ingestor_tests_pass : failures ingestor_suite = [].
Proof. vm_compute. reflexivity. Qed.
