(* ===== verification/RuntimeHarness.v ===== *)
(** * Test doubles and a harness for whole runs
    (runtime/opendata-ingest-runtime/tests/support/mod.rs)

    The fakes of the integration tests, and what stands for the executor: the
    tasks of a run are resumed in turn, each as far as its next await, until
    what the test waits for has happened.  A gate says which calls on the sink
    are parked.  The buffer is the in-memory log of [Source]; a consumer that is
    built on it reads on after the durable cursor.  Latencies of a sink have no
    counterpart. *)

From Stdlib Require Import NArith ZArith.
From S2P Require Import Prelude.
From S2P Require Import Types.
From S2P Require Import AckCoordinator.
From S2P Require Import ByteBudget.
From S2P Require Import Source.
From S2P Require Import Options.
From S2P Require Import WriteRetry.
From S2P Require Import Decode.
From S2P Require Import Pipeline.
From S2P Require Import PipelineProgress.
From S2P Require Import Process.
From S2P Require Import Testing.
Local Open Scope N_scope.

(** ** Records and decoders *)

Definition fake_envelope : Bytes := u8_of_N <$> [1; 2; 1; 0].

(** [FakeRecords], and [LargeRecords] of pipeline.rs. *)
Inductive FakeRecords := Fake (count : N) | Large (count bytes : N).

#[export] Instance FakeRecords_typed : TypedRecords FakeRecords := {
  record_count r := match r with Fake count | Large count _ => count end;
  estimated_bytes r := match r with Fake count => wrap64 (count * 16) | Large _ bytes => bytes end;
  schema r := {| ts_name := match r with Fake _ => "fake.test.v1" | Large _ _ => "test.large.v1" end;
                 ts_version := mkSchemaVersion 1 |};
}.

(** The one batch that both decoders shape. *)
Definition shaped_batch (records : N → FakeRecords) (estimate : N) (batch : SourceBatch) : DecodedBatch FakeRecords :=
  let n := length (sb_entries batch) in
  {| db_source := sb_source batch; db_low_sequence := sb_sequence batch; db_high_sequence := sb_sequence batch;
     db_source_entry_count := wrap32 (N.of_nat n); db_records := Typed (records (N.of_nat n));
     db_source_columns :=
       {| scc_manifest_path := sb_manifest_path batch; scc_data_path := sb_data_object_path batch;
          scc_sequences := replicate n (sb_sequence batch); scc_entry_indices := N.of_nat <$> seq 0 n;
          scc_record_indices := replicate n 0; scc_ingestion_time_ms := ingestion_time_ms <$> sb_entries batch |};
     db_stats := {| source_byte_count := 0; decoded_byte_estimate := estimate |};
     db_schema_version := mkSchemaVersion 1 |}.

Record FakeDecoder := { accepts_anything : bool }.
Definition permissive : FakeDecoder := {| accepts_anything := true |}.
Definition rejecting : FakeDecoder := {| accepts_anything := false |}.
#[export] Instance FakeDecoder_decoder : Decoder FakeDecoder FakeRecords := {
  accepts self _ := accepts_anything self;
  decode _ batch := Ok [shaped_batch Fake (N.of_nat (length (sb_entries batch)) * 16) batch];
}.

Record LargeDecoder := { bytes_per_batch : N }.
#[export] Instance LargeDecoder_decoder : Decoder LargeDecoder FakeRecords := {
  accepts _ _ := true;
  decode self batch := Ok [shaped_batch (λ n, Large n (bytes_per_batch self)) (bytes_per_batch self) batch];
}.

(** ** Sinks *)

Inductive ScriptedWrite :=
| SOk (rows_written : N)
| SMaybeCommitted (message : string)
| SNotCommitted (message : string)
| SFatal (message : string).

Record CapturedWrite := {
  cw_source : string; cw_sink : string; cw_low_sequence : N; cw_high_sequence : N;
  cw_identity : string; cw_record_count : N }.

(** What both sinks share with the test. *)
Record SinkWorld := {
  write_script : list ScriptedWrite;
  write_calls : list CapturedWrite;
  check_committed_response : CommitStatus;
  check_committed_calls : list string }.
Definition scripted (script : list ScriptedWrite) (response : CommitStatus) : SinkWorld := {|
  write_script := script; write_calls := []; check_committed_response := response; check_committed_calls := [] |}.

Definition captured (commit : SinkCommit FakeRecords) : CapturedWrite :=
  let id := sc_identity commit in
  {| cw_source := SourceId_display (ci_source id); cw_sink := SinkId_display (ci_sink id);
     cw_low_sequence := range_low (ci_range id); cw_high_sequence := range_high (ci_range id);
     cw_identity := CommitIdentity_display id;
     cw_record_count := match db_records (sc_batch commit) with Typed t => record_count t end |}.
Definition capture (commit : SinkCommit FakeRecords) (script : list ScriptedWrite) (w : SinkWorld) : SinkWorld := {|
  write_script := script; write_calls := write_calls w ++ [captured commit];
  check_committed_response := check_committed_response w; check_committed_calls := check_committed_calls w |}.

Definition scripted_answer (next : ScriptedWrite) : result SinkCommitResult SinkCommitFailure :=
  match next with
  | SOk rows => Ok {| scr_bytes_written := 0; scr_rows_written := rows |}
  | SMaybeCommitted message => Err (MaybeCommitted (mkBoxError message))
  | SNotCommitted message => Err (NotCommitted (mkBoxError message))
  | SFatal message => Err (Fatal (mkBoxError message))
  end.

Record ProgrammableSink := { ps_id : SinkId }.
#[export] Instance ProgrammableSink_sink : Sink ProgrammableSink SinkWorld FakeRecords := {
  sink_id := ps_id;
  write_budget _ := SinkBudget_default;
  sink_write _ commit w :=
    match write_script w with
    | next :: rest => (capture commit rest w, scripted_answer next)
    | [] => (capture commit [] w, scripted_answer (SFatal "ProgrammableSink: write script exhausted"))
    end;
  check_committed _ identity w :=
    ({| write_script := write_script w; write_calls := write_calls w;
        check_committed_response := check_committed_response w;
        check_committed_calls := check_committed_calls w ++ [CommitIdentity_display identity] |},
     Ok (check_committed_response w));
}.

Record FakeSink := { fs_id : SinkId }.
#[export] Instance FakeSink_sink : Sink FakeSink SinkWorld FakeRecords := {
  sink_id := fs_id;
  write_budget _ := SinkBudget_default;
  sink_write _ commit w :=
    (capture commit (write_script w) w,
     Ok {| scr_bytes_written := 0; scr_rows_written := cw_record_count (captured commit) |});
  check_committed _ _ w := (w, Ok CSUnknown);
}.

(** ** The buffer *)

(** [producer.produce(payloads, logs_envelope())] and [flush], for each list
    of payloads. *)
Definition produced (objects : list (list Bytes)) : LogWorld := {|
  lw_batches := (λ payloads, (payloads, [{| start_index := 0; bm_ingestion_time_ms := 0; bm_payload := fake_envelope |}]))
                  <$> objects;
  lw_durable := None; lw_failing_acks := 0 |}.
(** [payload-0], [payload-1], ... *)
Definition produced_n (n : nat) : LogWorld :=
  produced ((λ i, [as_bytes ("payload-" +:+ show (N.of_nat i))]) <$> seq 0 n).

(** [buffer_source_on_store(.., last_acked_sequence: None)]. *)
Definition buffer_source_on_store (store : LogWorld) : BufferSource LogConsumer unit :=
  BufferSource_new {| lc_next := match lw_durable store with Some n => n + 1 | None => 0 end |}
    (mkSourceId "buffer") "ingest/test/manifest" None.
(** The next consumer's epoch: the earlier consumer's manifest update fails. *)
Definition fenced (store : LogWorld) : LogWorld := {|
  lw_batches := lw_batches store; lw_durable := lw_durable store; lw_failing_acks := 1 |}.

(** ** Runs *)

Abbreviation TestSys := (Sys LogConsumer unit LogWorld SinkWorld FakeRecords).
Abbreviation TestRuntime D K := (RuntimeResult (Runtime LogConsumer unit D K)).
Abbreviation Run := (M TestSys Panic).
Abbreviation TestEvent := (SysEvent (W1 := LogWorld) (W2 := SinkWorld)).

(** Which calls are parked: [block_until_released(also_gate_write)] and the
    per-sequence block. *)
Definition Gate : Type := SinkCommit FakeRecords → RetryPc → bool.
Definition open_gate : Gate := λ _ _, false.
Definition gate_checks : Gate := λ _ pc, match pc with PCheck _ _ => true | _ => false end.
Definition gate_writes : Gate := λ c pc, match pc with PWrite _ => true | _ => gate_checks c pc end.
Definition block_sequence (seq : N) : Gate := λ c pc,
  match pc with PWrite _ => range_high (ci_range (sc_identity c)) =? seq | _ => false end.

Inductive Task := Supervisor | ActorTask | Fetcher (i : nat) | DecodeTask (i : nat) | WriterTask (i : nat).

Section runs.
Context {D K : Type} `{Decoder D FakeRecords} `{Sink K SinkWorld FakeRecords}.
Implicit Types s : TestSys.

Definition new_runtime (source : BufferSource LogConsumer unit) (decoder : D) (sink : K) (options : RuntimeOptions)
    : TestRuntime D K :=
  build (with_options options (set_sink sink (add_decoder decoder (add_source source builder)))).

(** [tokio::spawn(runtime.run(..))]. *)
Definition start (rt : TestRuntime D K) (store : LogWorld) (w : SinkWorld) : result (Config unit D K * TestSys) Panic :=
  match rt with
  | Ok rt => match run_start rt store w with Ok s => Ok (run_config rt, s) | Err e => Err (RuntimeError_display e) end
  | Err e => Err (RuntimeError_display e)
  end.
Definition run_test (rt : TestRuntime D K) (store : LogWorld) (w : SinkWorld) (body : Config unit D K → Run unit)
    : TestResult :=
  match start rt store w with Ok (cf, s) => test s (body cf) | Err e => Err e end.
(** A runtime on the store that the run before has left. *)
Definition restart (rt : TestRuntime D K) (w : SinkWorld) : Run (Config unit D K) := λ s,
  match start rt (s_w1 (sy_shared s)) w with Ok (cf, s') => (s', Ok cf) | Err e => (s, Err e) end.

Context (cf : Config unit D K) (gate : Gate).

(** What the next poll of the actor's [select!] sees. *)
Definition polled s : Polls := {|
  saw_abort := s_abort (sy_shared s);
  saw_shutdown := s_shutdown (sy_shared s);
  saw_completion := negb (bool_decide (length (s_completions (sy_shared s)) = 0%nat)) || completion_senders_gone s;
  saw_gate := match admission_attempt cf (sy_shared s) with Some _ => true | None => false end |}.

Definition arm s : WorkerArm := if s_abort (sy_shared s) then ArmAborted else ArmWork.
Definition parked (pc : WritePc FakeRecords) : bool :=
  match pc with WWriting e pc => gate (sce_commit e) pc | _ => false end.

Definition event_of (t : Task) s : option TestEvent :=
  match t with
  | Supervisor => Some EvSupervisorAbort
  | ActorTask => Some (EvActor (polled s))
  | Fetcher i => Some (EvFetch i (arm s))
  | DecodeTask i => Some (EvDecode i (arm s))
  | WriterTask i =>
      if s_abort (sy_shared s) then Some (EvWrite i ArmAborted (Abort false id))
      else if from_option parked false (sy_writers s !! i) then None
      else Some (EvWrite i ArmWork (Proceed false))
  end.
(** A task that cannot go on is left where it is. *)
Definition resume s (t : Task) : TestSys := default s (ev ← event_of t s; exec cf ev s).

Definition tasks s : list Task :=
  [Supervisor; ActorTask] ++ (Fetcher <$> seq 0 (length (sy_fetchers s))) ++
  (DecodeTask <$> seq 0 (length (sy_decoders s))) ++ (WriterTask <$> seq 0 (length (sy_writers s))).

Fixpoint turn (goal : TestSys → bool) (ts : list Task) s : TestSys :=
  match ts with
  | [] => s
  | t :: rest => if goal s then s else turn goal rest (resume s t)
  end.
Fixpoint turns (fuel : nat) (goal : TestSys → bool) s : option TestSys :=
  if goal s then Some s
  else match fuel with O => None | S fuel => turns fuel goal (turn goal (tasks s) s) end.

(** [timeout(.., what the test waits for)]; the time limit is a number of
    turns. *)
Definition wait_for (goal : TestSys → bool) : Run unit := λ s,
  match turns 2000 goal s with Some s' => (s', Ok tt) | None => (s, Err "timeout") end.

(** [progress_rx.changed()] until the progress is as wanted. *)
Definition progress_of s : RuntimeProgress := a_progress (sy_actor s).
Definition progress_until (wanted : RuntimeProgress → bool) : Run RuntimeProgress :=
  wait_for (λ s, wanted (progress_of s)) ;; s ← get; mret (progress_of s).

(** [handle.await]. *)
Definition join : Run (RuntimeResult unit) := wait_for ended ;; s ← get; mret (run_result s).

End runs.

(** [shutdown.cancel()]. *)
Definition cancel : Run unit := modify cancel_shutdown.

Definition acked (seq : N) (p : RuntimeProgress) : bool := bool_decide (progress_last_acked p = Some seq).
Definition committed (n : N) (p : RuntimeProgress) : bool := n <=? source_ranges_committed p.

(** A writer is parked in a call of the sink. *)
Definition entered (gate : Gate) (s : TestSys) : bool := existsb (parked gate) (sy_writers s).
Definition parked_identities (gate : Gate) (s : TestSys) : list string :=
  omap (λ pc, match pc with
              | WWriting e pc => if gate (sce_commit e) pc then Some (CommitIdentity_display (sc_identity (sce_commit e)))
                                 else None
              | _ => None
              end) (sy_writers s).

(** What the test reads from the sink's side. *)
Definition writes : Run (list CapturedWrite) := s ← get; mret (write_calls (s_w2 (sy_shared s))).
Definition checks : Run (list string) := s ← get; mret (check_committed_calls (s_w2 (sy_shared s))).
(** The recorders of the admissions and of the acknowledgements. *)
Definition admitted (s : TestSys) : list N :=
  omap (λ e, match e with TrAdmit q => Some q | _ => None end) (s_trace (sy_shared s)).
Definition ack_throughs (s : TestSys) : list N :=
  omap (λ e, match e with TrAck q => Some q | _ => None end) (s_trace (sy_shared s)).

Definition is_sink_error (e : RuntimeError) : bool := match e with ESink _ => true | _ => false end.
