(* ===== verification/AckCorrectnessTests.v ===== *)
(** * The acknowledgement tests of the runtime
    (runtime/opendata-ingest-runtime/tests/ack_correctness.rs and
    ack_correctness_concurrent.rs)

    Whole runs of the pipeline machine under the harness: retries, ambiguous
    writes, fences, and crashes followed by a second runtime on the same
    store.  [handle.abort()] leaves the run where it is. *)

From Stdlib Require Import NArith ZArith.
From S2P Require Import Prelude.
From S2P Require Import Types.
From S2P Require Import AckCoordinator.
From S2P Require Import ByteBudget.
From S2P Require Import Source.
From S2P Require Import Options.
From S2P Require Import WriteRetry.
From S2P Require Import Pipeline.
From S2P Require Import Testing.
From S2P Require Import RuntimeHarness.
Local Open Scope N_scope.

Definition programmable : ProgrammableSink := {| ps_id := mkSinkId "programmable" |}.
Definition one_payload : LogWorld := produced [[as_bytes "payload"]].

Definition retrying_options (policy : AckFlushPolicy) (attempts : N) (defaults : SourceBackpressureOptions)
    (poll : N) : RuntimeOptions := {|
  ack_flush_policy := policy; dry_run := false; poll_interval := from_millis poll; max_descriptors_per_poll := 1;
  max_retry_attempts := attempts; retry_backoff := from_millis 0; source_defaults := defaults;
  source_overrides := ∅; sink_options := SinkPoolOptions_default |}.
Definition live_options : RuntimeOptions := retrying_options EveryCommitGroup 3 serial 10.

(** The runtime of most tests, on a store. *)
Definition runtime_with (options : RuntimeOptions) (store : LogWorld) : TestRuntime FakeDecoder ProgrammableSink :=
  new_runtime (buffer_source_on_store store) permissive programmable options.
Definition live_test (options : RuntimeOptions) (script : list ScriptedWrite) (response : CommitStatus)
    (body : Config unit FakeDecoder ProgrammableSink → Run unit) : TestResult :=
  run_test (runtime_with options one_payload) one_payload (scripted script response) body.

Definition transient_then_ok : list ScriptedWrite :=
  [SNotCommitted "transient"; SNotCommitted "transient"; SOk 1].

(** [shutdown.cancel()] and the clean exit. *)
Definition shut_down {D K} `{Decoder D FakeRecords} `{Sink K SinkWorld FakeRecords} (cf : Config unit D K) : Run unit :=
  cancel ;; r ← join cf open_gate; unwrap r.

Definition all_same_key (ws : list CapturedWrite) : Run unit :=
  first ← index ws 0;
  assert (forallb (λ w, bool_decide (cw_identity w = cw_identity first)) ws).
Definition all_target (seq : N) (ws : list CapturedWrite) : Run unit :=
  assert (forallb (λ w, cw_high_sequence w =? seq) ws).

Definition runtime_does_not_ack_until_sink_returns_ok : TestResult :=
  live_test live_options transient_then_ok CSUnknown (λ cf,
    p ← progress_until cf open_gate (acked 0);
    assert_eq (progress_last_acked p) (Some 0) ;;
    assert_eq (records_written p) 1 ;;
    shut_down cf ;;
    ws ← writes; cs ← checks;
    assert_eq (length ws) 3%nat ;;
    all_target 0 ws ;;
    assert_eq cs [] ;;
    all_same_key ws).

(** The run ends with the sink's error and no range is acknowledged. *)
Definition halts_unacknowledged (cf : Config unit FakeDecoder ProgrammableSink) : Run unit :=
  r ← join cf open_gate;
  e ← unwrap_err r;
  assert (is_sink_error e) ;;
  s ← get;
  assert_eq (progress_last_acked (progress_of s)) None.

Definition runtime_does_not_ack_when_sink_returns_fatal : TestResult :=
  live_test live_options [SFatal "permissions denied"] CSUnknown (λ cf,
    halts_unacknowledged cf ;;
    ws ← writes;
    assert_eq (length ws) 1%nat).

Definition runtime_treats_maybe_committed_then_committed_as_success : TestResult :=
  live_test live_options [SMaybeCommitted "ambiguous insert; prior attempt may have committed"] CSCommitted (λ cf,
    p ← progress_until cf open_gate (acked 0);
    assert_eq (progress_last_acked p) (Some 0) ;;
    shut_down cf ;;
    ws ← writes; cs ← checks;
    assert_eq (length ws) 1%nat ;;
    assert_eq (length cs) 1%nat).

Definition runtime_retries_write_after_maybe_committed_when_check_returns_unknown : TestResult :=
  live_test live_options [SMaybeCommitted "ambiguous insert"; SOk 1] CSUnknown (λ cf,
    p ← progress_until cf open_gate (acked 0);
    assert_eq (progress_last_acked p) (Some 0) ;;
    assert_eq (records_written p) 1 ;;
    shut_down cf ;;
    ws ← writes; cs ← checks;
    assert_eq (length ws) 2%nat ;;
    assert_eq (length cs) 1%nat).

Definition runtime_retry_budget_exhaustion_does_not_ack_failing_range : TestResult :=
  live_test (retrying_options EveryCommitGroup 2 serial 10)
    [SNotCommitted "1"; SNotCommitted "2"; SNotCommitted "3"; SNotCommitted "4"] CSUnknown (λ cf,
    halts_unacknowledged cf ;;
    ws ← writes;
    assert_eq (length ws) 3%nat ;;
    all_target 0 ws ;;
    all_same_key ws).

(** *** Crashes and fences *)

(** Runtime B replays sequence 0 once, with the key of A. *)
Definition replays (key_a : string) (source_b : BufferSource LogConsumer unit) : Run unit :=
  cf_b ← restart (new_runtime source_b permissive programmable live_options) (scripted [SOk 1] CSUnknown);
  p ← progress_until cf_b open_gate (acked 0);
  assert_eq (progress_last_acked p) (Some 0) ;;
  shut_down cf_b ;;
  ws ← writes;
  assert_eq (length ws) 1%nat ;;
  w ← index ws 0;
  assert_eq (cw_high_sequence w) 0 ;;
  assert_eq (cw_identity w) key_a.
Definition replays_after_crash (key_a : string) : Run unit :=
  s ← get; replays key_a (buffer_source_on_store (s_w1 (sy_shared s))).

(** Runtime A is parked in the one call that the gate holds; its identity. *)
Definition parked_call (cf : Config unit FakeDecoder ProgrammableSink) (gate : Gate) : Run string :=
  wait_for cf gate (entered gate) ;;
  s ← get;
  let keys := parked_identities gate s in
  assert_eq (length keys) 1%nat ;;
  index keys 0.

Definition runtime_fence_aborts_durable_ack_with_source_error : TestResult :=
  live_test live_options [SOk 1] CSUnknown (λ cf_a,
    _ ← parked_call cf_a gate_writes;
    s ← get;
    let source_b := buffer_source_on_store (s_w1 (sy_shared s)) in
    assert_eq (last_acked_sequence source_b) None ;;
    modify (on_shared (λ sh, with_w1 (fenced (s_w1 sh)) sh)) ;;
    r ← join cf_a open_gate;
    e ← unwrap_err r;
    assert (match e with ESource _ => true | _ => false end) ;;
    ws ← writes;
    assert_eq (length ws) 1%nat ;;
    w ← index ws 0;
    assert_eq (cw_high_sequence w) 0 ;;
    replays (cw_identity w) source_b).

Definition replay_after_crash_before_sink_write_reissues_write_and_acks : TestResult :=
  live_test live_options [SOk 1] CSUnknown (λ cf_a,
    key_a ← parked_call cf_a gate_writes;
    replays_after_crash key_a).

Definition replay_after_crash_after_commit_before_flush_idempotently_completes : TestResult :=
  live_test (retrying_options (EveryN 1000) 3 serial 10) [SOk 1] CSUnknown (λ cf_a,
    progress_until cf_a open_gate (acked 0) ;;
    ws ← writes;
    assert_eq (length ws) 1%nat ;;
    w ← index ws 0;
    replays_after_crash (cw_identity w)).

Definition replay_after_maybe_committed_unresolved_resolves_via_check_committed_on_restart : TestResult :=
  live_test live_options [SMaybeCommitted "ambiguous"] CSUnknown (λ cf_a,
    key_a ← parked_call cf_a gate_checks;
    ws ← writes;
    assert_eq (cw_identity <$> ws) [key_a] ;;
    replays_after_crash key_a).

(** *** The registry *)

Definition on_registered {A} (source : SourceId) (m : M AckCoordinator Panic A) : M AckCoordinators Panic A := λ reg,
  match reg !! source with
  | Some c => let '(c, r) := m c in (<[source := c]> reg, r)
  | None => (reg, Err "called `Option::unwrap()` on a `None` value")
  end.
Definition frontier_is (source : SourceId) (f : option N) : M AckCoordinators Panic unit :=
  on_registered source (sees frontier f).

Definition multi_source_runtime_ack_isolation : TestResult := test AckCoordinators_new (
  let source_a := mkSourceId "source-a" in let source_b := mkSourceId "source-b" in
  ok (register_source source_a None) ;;
  ok (register_source source_b None) ;;
  on_registered source_a (for_each [0; 1; 2] (λ i,
    ok (register_pending i i) ;; ok (mark_committed i i) ;; modify advance_frontier)) ;;
  frontier_is source_a (Some 2) ;;
  frontier_is source_b None ;;
  on_registered source_b (sees pending_count 0%nat) ;;
  on_registered source_b (
    ok (register_pending 100 100) ;; ok (register_pending 101 101) ;; ok (mark_committed 101 101) ;;
    modify advance_frontier) ;;
  frontier_is source_b None ;;
  frontier_is source_a (Some 2) ;;
  on_registered source_b (ok (mark_committed 100 100) ;; modify advance_frontier) ;;
  frontier_is source_b (Some 101) ;;
  frontier_is source_a (Some 2) ;;
  sees pending_total 0%nat ;;
  sees (λ reg, size (frontiers reg)) 2%nat).

(** *** A decoder without output *)

Inductive EmptyDecoder := mkEmptyDecoder.
#[export] Instance EmptyDecoder_decoder : Decoder EmptyDecoder FakeRecords := {
  accepts _ _ := true; decode _ _ := Ok [] }.

Definition runtime_rejects_empty_decoder_output : TestResult :=
  run_test (new_runtime (buffer_source_on_store one_payload) mkEmptyDecoder {| fs_id := mkSinkId "fake" |} live_options)
    one_payload (scripted [] CSUnknown) (λ cf,
    r ← join cf open_gate;
    e ← unwrap_err r;
    assert (match e with EDecoder _ => true | _ => false end) ;;
    let msg := RuntimeError_display e in
    assert (contains msg "empty Vec<DecodedBatch>" || contains msg "INV-ADMISSION-CONTIGUOUS") ;;
    ws ← writes;
    assert_eq (length ws) 0%nat ;;
    s ← get;
    assert_eq (progress_last_acked (progress_of s)) None).

(** ** Under the pipelined profile *)

Definition pipelined_options : RuntimeOptions :=
  retrying_options EveryCommitGroup 3
    {| max_inflight_batches := 32; max_inflight_bytes := max_inflight_bytes SourceBackpressureOptions_default;
       estimated_max_batch_bytes := estimated_max_batch_bytes SourceBackpressureOptions_default;
       fetch_concurrency := 8; decode_concurrency := 4;
       oversize_fault_multiplier := oversize_fault_multiplier SourceBackpressureOptions_default |} 5.

Definition concurrent_runtime_does_not_ack_until_sink_returns_ok : TestResult :=
  live_test pipelined_options transient_then_ok CSUnknown (λ cf,
    progress_until cf open_gate (acked 0) ;;
    shut_down cf ;;
    ws ← writes;
    assert_eq (length ws) 3%nat).

Definition concurrent_runtime_does_not_ack_when_sink_returns_fatal : TestResult :=
  live_test pipelined_options [SFatal "permissions denied"] CSUnknown (λ cf,
    halts_unacknowledged cf ;;
    ws ← writes;
    assert_eq (length ws) 1%nat).

(** [seen.sort()] and the comparison with the sequences in order. *)
Definition covers_once (n : nat) (ws : list CapturedWrite) : Run unit :=
  assert_eq (length ws) n ;;
  assert (forallb (λ i, bool_decide (N.of_nat i ∈ cw_high_sequence <$> ws)) (seq 0 n)).

Definition concurrent_50_batches_advance_frontier_under_writer_pool : TestResult :=
  let store := produced_n 50 in
  run_test (runtime_with pipelined_options store) store (scripted (replicate 50 (SOk 1)) CSUnknown) (λ cf,
    progress_until cf open_gate (acked 49) ;;
    shut_down cf ;;
    ws ← writes;
    covers_once 50 ws).

Definition ack_correctness_suite : list (string * TestResult) := [
  ("runtime_does_not_ack_until_sink_returns_ok", runtime_does_not_ack_until_sink_returns_ok);
  ("runtime_does_not_ack_when_sink_returns_fatal", runtime_does_not_ack_when_sink_returns_fatal);
  ("runtime_treats_maybe_committed_then_committed_as_success", runtime_treats_maybe_committed_then_committed_as_success);
  ("runtime_retries_write_after_maybe_committed_when_check_returns_unknown", runtime_retries_write_after_maybe_committed_when_check_returns_unknown);
  ("runtime_retry_budget_exhaustion_does_not_ack_failing_range", runtime_retry_budget_exhaustion_does_not_ack_failing_range);
  ("runtime_fence_aborts_durable_ack_with_source_error", runtime_fence_aborts_durable_ack_with_source_error);
  ("replay_after_crash_before_sink_write_reissues_write_and_acks", replay_after_crash_before_sink_write_reissues_write_and_acks);
  ("replay_after_crash_after_commit_before_flush_idempotently_completes", replay_after_crash_after_commit_before_flush_idempotently_completes);
  ("replay_after_maybe_committed_unresolved_resolves_via_check_committed_on_restart", replay_after_maybe_committed_unresolved_resolves_via_check_committed_on_restart);
  ("multi_source_runtime_ack_isolation", multi_source_runtime_ack_isolation);
  ("runtime_rejects_empty_decoder_output", runtime_rejects_empty_decoder_output);
  ("concurrent_runtime_does_not_ack_until_sink_returns_ok", concurrent_runtime_does_not_ack_until_sink_returns_ok);
  ("concurrent_runtime_does_not_ack_when_sink_returns_fatal", concurrent_runtime_does_not_ack_when_sink_returns_fatal);
  ("concurrent_50_batches_advance_frontier_under_writer_pool", concurrent_50_batches_advance_frontier_under_writer_pool)].

Theorem ack_correctness_tests_pass : failures ack_correctness_suite = [].
Proof. vm_compute. reflexivity. Qed.
