(* ===== verification/PipelineTests.v ===== *)
(** * The end-to-end tests of the runtime
    (runtime/opendata-ingest-runtime/tests/runtime_compat.rs and pipeline.rs)

    Of pipeline.rs, the tests that need neither a test hook of the builder (a
    fetch delay, the kill switch) nor a clock nor a counting object store. *)

From Stdlib Require Import NArith ZArith.
From S2P Require Import Prelude.
From S2P Require Import Types.
From S2P Require Import AckCoordinator.
From S2P Require Import ByteBudget.
From S2P Require Import Source.
From S2P Require Import Options.
From S2P Require Import WriteRetry.
From S2P Require Import Pipeline.
From S2P Require Import Testing.
From S2P Require Import RuntimeHarness.
Local Open Scope N_scope.

(** ** runtime_compat.rs *)

Definition options (dry : bool) : RuntimeOptions := {|
  ack_flush_policy := EveryCommitGroup; dry_run := dry; poll_interval := from_millis 10;
  max_descriptors_per_poll := 1; max_retry_attempts := 0; retry_backoff := from_millis 0;
  source_defaults := serial; source_overrides := ∅; sink_options := SinkPoolOptions_default |}.

Abbreviation SourceRun := (M (BufferSource LogConsumer unit * LogWorld) Panic).

(** [source.fetch_handle().fetch(d)]. *)
Definition fetched (d : SourceBatchDescriptor) : SourceRun SourceBatch := λ s,
  match fetch (fetch_handle s.1) d s.2 with
  | (w, Ok batch) => ((s.1, w), Ok batch)
  | (w, Err e) => ((s.1, w), Err (RuntimeError_display e))
  end.
Definition next_is (expected : N) : SourceRun unit :=
  descs ← ok (next_descriptors 1 SourceBudget_default);
  assert_eq (length descs) 1%nat ;;
  d ← index descs 0;
  assert_eq (sbd_sequence d) expected ;;
  fetched d ;; mret tt.
Definition last_acked_is (seq : option N) : SourceRun unit := sees (λ s, last_acked_sequence s.1) seq.

Definition ack_through_anchors_at_first_seen_after_resume : TestResult :=
  let batches n := produced ((λ i, [as_bytes ("batch-" +:+ show (N.of_nat i))]) <$> seq 0 n) in
  test (buffer_source_on_store (batches 3%nat), batches 3%nat) (
    for_each [0; 1; 2] (λ expected, next_is expected ;; ok (ack_through expected)) ;;
    ok flush_acks ;;
    last_acked_is (Some 2) ;;
    modify (λ s, let store := {| lw_batches := lw_batches s.2 ++ lw_batches (produced [[as_bytes "after-resume"]]);
                                 lw_durable := lw_durable s.2; lw_failing_acks := 0 |} in
                 (buffer_source_on_store store, store)) ;;
    last_acked_is None ;;
    next_is 3 ;;
    ok (ack_through 3) ;;
    ok flush_acks ;;
    last_acked_is (Some 3)).

Definition runtime_fails_closed_when_decoder_rejects_envelope : TestResult :=
  let store := produced [[as_bytes "payload"]] in
  run_test (new_runtime (buffer_source_on_store store) rejecting {| fs_id := mkSinkId "fake" |} (options false))
    store (scripted [] CSUnknown) (λ cf,
    r ← join cf open_gate;
    err ← unwrap_err r;
    assert (contains (RuntimeError_display err) "configured decoder rejected") ;;
    captured ← writes;
    assert_eq (length captured) 0%nat).

Definition buffer_source_returns_descriptors_after_producer_flush : TestResult :=
  let store := produced [[as_bytes "a"]] in
  test (buffer_source_on_store store, store) (
    descriptors ← ok (next_descriptors 1 SourceBudget_default);
    assert_eq (length descriptors) 1%nat ;;
    d ← index descriptors 0;
    assert_eq (sbd_sequence d) 0 ;;
    batch ← fetched d;
    assert_eq (length (sb_entries batch)) 1%nat ;;
    entry ← index (sb_entries batch) 0;
    assert_eq (raw_bytes entry) (as_bytes "a")).

Definition dry_run_advances_progress_and_skips_sink : TestResult :=
  let store := produced [[as_bytes "a"]; [as_bytes "b"]] in
  run_test (new_runtime (buffer_source_on_store store) permissive {| fs_id := mkSinkId "fake" |} (options true))
    store (scripted [] CSUnknown) (λ cf,
    p ← progress_until cf open_gate (λ p, 2 <=? batches_read p);
    assert_eq (batches_read p) 2 ;;
    assert_eq (last_decoded_sequence p) (Some 1) ;;
    assert_eq (progress_last_acked p) None ;;
    cancel ;; r ← join cf open_gate; unwrap r ;;
    captured ← writes;
    assert_eq (length captured) 0%nat).

Definition live_mode_writes_to_sink_and_advances_ack_frontier : TestResult :=
  let store := produced_n 3 in
  run_test (new_runtime (buffer_source_on_store store) permissive {| fs_id := mkSinkId "fake-sink" |} (options false))
    store (scripted [] CSUnknown) (λ cf,
    p ← progress_until cf open_gate (committed 3);
    assert_eq (batches_read p) 3 ;;
    assert_eq (source_ranges_committed p) 3 ;;
    assert_eq (last_decoded_sequence p) (Some 2) ;;
    assert_eq (progress_last_acked p) (Some 2) ;;
    assert_eq (records_written p) 3 ;;
    cancel ;; r ← join cf open_gate; unwrap r ;;
    snapshot ← writes;
    assert_eq (length snapshot) 3%nat ;;
    for_each (imap pair snapshot) (λ '(n, c),
      let i := N.of_nat n in
      assert_eq (cw_source c) "buffer" ;;
      assert_eq (cw_sink c) "fake-sink" ;;
      assert_eq (cw_low_sequence c) i ;;
      assert_eq (cw_high_sequence c) i ;;
      assert_eq (cw_record_count c) 1 ;;
      assert_eq (cw_identity c) ("buffer:fake-sink:" +:+ show i +:+ "-" +:+ show i +:+ ":1"))).

(** ** pipeline.rs *)

Definition backpressure (batches bytes estimate fetchers decoders multiplier : N) : SourceBackpressureOptions := {|
  max_inflight_batches := batches; max_inflight_bytes := bytes; estimated_max_batch_bytes := estimate;
  fetch_concurrency := fetchers; decode_concurrency := decoders; oversize_fault_multiplier := multiplier |}.
(** [SourceBackpressureOptions { .., ..default() }]. *)
Definition workers (batches fetchers decoders : N) : SourceBackpressureOptions :=
  let d := SourceBackpressureOptions_default in
  backpressure batches (max_inflight_bytes d) (estimated_max_batch_bytes d) fetchers decoders (oversize_fault_multiplier d).

Definition options_with (attempts : N) (defaults : SourceBackpressureOptions) (sink : SinkPoolOptions) : RuntimeOptions := {|
  ack_flush_policy := EveryCommitGroup; dry_run := false; poll_interval := from_millis 2;
  max_descriptors_per_poll := 1; max_retry_attempts := attempts; retry_backoff := from_millis 0;
  source_defaults := defaults; source_overrides := ∅; sink_options := sink |}.
Definition options_with_fetch_concurrency (n : N) : RuntimeOptions :=
  options_with 0 (workers 16 n (decode_concurrency SourceBackpressureOptions_default)) SinkPoolOptions_default.
Definition pool (commits : N) : SinkPoolOptions := {|
  max_concurrent_commits := commits; retry_max_attempts := retry_max_attempts SinkPoolOptions_default;
  retry_initial_backoff_ms := retry_initial_backoff_ms SinkPoolOptions_default |}.
Definition pool_without_retries (commits : N) : SinkPoolOptions := {|
  max_concurrent_commits := commits; retry_max_attempts := 0; retry_initial_backoff_ms := 0 |}.

(** A run over [n] batches with the scripted sink. *)
Definition pipeline_test {D} `{Decoder D FakeRecords} (decoder : D) (o : RuntimeOptions) (n : nat)
    (script : list ScriptedWrite) (body : Config unit D ProgrammableSink → Run unit) : TestResult :=
  let store := produced_n n in
  run_test (new_runtime (buffer_source_on_store store) decoder {| ps_id := mkSinkId "programmable" |} o)
    store (scripted script CSUnknown) body.

Definition pipeline_ack_correctness_under_fetch_concurrency_8 : TestResult :=
  let o := options_with 3 (workers 16 8 (decode_concurrency SourceBackpressureOptions_default)) SinkPoolOptions_default in
  pipeline_test permissive o 1 [SNotCommitted "transient"; SNotCommitted "transient"; SOk 1] (λ cf,
    progress_until cf open_gate (acked 0) ;;
    cancel ;; r ← join cf open_gate; unwrap r ;;
    calls ← writes;
    assert_eq (length calls) 3%nat ;;
    assert_eq (length (remove_dups (cw_identity <$> calls))) 1%nat).

Definition pipeline_graceful_drain_completes_inflight_commits : TestResult :=
  pipeline_test permissive (options_with 0 (workers 20 4 2) (pool 4)) 20 (replicate 20 (SOk 1)) (λ cf,
    wait_for cf gate_writes (λ s, bool_decide (20 ≤ length (admitted s))%nat) ;;
    cancel ;;
    r ← join cf open_gate; unwrap r ;;
    s ← get;
    assert_eq (source_ranges_committed (progress_of s)) 20 ;;
    assert_eq (progress_last_acked (progress_of s)) (Some 19) ;;
    calls ← writes;
    assert_eq (length calls) 20%nat).

Definition pipeline_oversize_decoded_batch_halts_runtime : TestResult :=
  let pessimistic := 2 ^ 20 in
  let actual := 10 * 2 ^ 20 in
  let o := options_with 0 (backpressure 1 (64 * 1024 * 1024) pessimistic 1 1 4) SinkPoolOptions_default in
  pipeline_test {| bytes_per_batch := actual |} o 1 [SOk 1] (λ cf,
    r ← join cf open_gate;
    err ← unwrap_err r;
    assert (match err with EPipeline _ => true | _ => false end) ;;
    assert (contains (RuntimeError_display err) "oversize decoded batch") ;;
    calls ← writes;
    assert_eq (length calls) 0%nat).

Definition pipeline_oversize_fault_saturating_mul_disables_gate : TestResult :=
  let o := options_with 0 (backpressure 1 u64_max u64_max 1 1 u32_max) SinkPoolOptions_default in
  pipeline_test {| bytes_per_batch := 10 * 2 ^ 20 |} o 1 [SOk 1] (λ cf,
    progress_until cf open_gate (committed 1) ;;
    cancel ;; r ← join cf open_gate; unwrap r).

Definition pipeline_decode_byte_reconciliation_grows_reservation : TestResult :=
  let pessimistic_bytes := 4 * 1024 in
  let decoded_bytes := 1024 * 1024 in
  let o := options_with 0 (backpressure 1 (16 * 1024 * 1024) pessimistic_bytes 1 1 u32_max) SinkPoolOptions_default in
  pipeline_test {| bytes_per_batch := decoded_bytes |} o 1 [SOk 1] (λ cf,
    wait_for cf gate_writes (entered gate_writes) ;;
    s ← get;
    let held := in_flight (s_budget (sy_shared s)) in
    assert (pessimistic_bytes <? held) ;;
    assert (decoded_bytes <=? held) ;;
    cancel ;; r ← join cf open_gate; unwrap r ;;
    sees (λ s, in_flight (s_budget (sy_shared s))) 0).

(** The released peers' completions are all taken before the acknowledgements
    are looked at. *)
Definition pipeline_runtime_level_out_of_order_completion_no_frontier_hole : TestResult :=
  pipeline_test permissive (options_with 0 (workers 8 2 2) (pool_without_retries 4)) 8 (replicate 8 (SOk 1)) (λ cf,
    let held := block_sequence 0 in
    wait_for cf held (λ s, let seen := cw_high_sequence <$> write_calls (s_w2 (sy_shared s)) in
                           forallb (λ i, bool_decide (N.of_nat i ∈ seen)) (seq 1 7)) ;;
    wait_for cf held (λ s, committed 7 (progress_of s)) ;;
    sees ack_throughs [] ;;
    progress_until cf open_gate (acked 7) ;;
    cancel ;; r ← join cf open_gate; unwrap r ;;
    calls ← writes;
    assert_eq (length calls) 8%nat ;;
    assert (forallb (λ i, bool_decide (N.of_nat i ∈ cw_high_sequence <$> calls)) (seq 0 8)) ;;
    sees ack_throughs [7]).

Fixpoint strictly_increasing (l : list N) : bool :=
  match l with
  | prev :: ((next :: _) as rest) => (prev <? next) && strictly_increasing rest
  | _ => true
  end.

Definition pipeline_ack_through_called_only_on_frontier_advance : TestResult :=
  pipeline_test permissive (options_with 0 (workers 20 4 4) (pool_without_retries 4)) 20 (replicate 20 (SOk 1)) (λ cf,
    wait_for cf gate_writes (λ s, bool_decide (20 ≤ length (admitted s))%nat) ;;
    progress_until cf open_gate (acked 19) ;;
    cancel ;; r ← join cf open_gate; unwrap r ;;
    s ← get;
    let recorded := ack_throughs s in
    assert (negb (bool_decide (recorded = []))) ;;
    assert (strictly_increasing recorded) ;;
    assert_eq (last recorded) (Some 19) ;;
    assert (bool_decide (length recorded ≤ 20)%nat)).

(** [GatePeerSink]: the first call, on sequence 0, is parked for good; the
    peer's is fatal. *)
Definition pipeline_hard_abort_during_parked_sink_unwinds_pipeline : TestResult :=
  pipeline_test permissive (options_with 0 (workers 4 1 1) (pool_without_retries 2)) 2
    [SFatal "test peer fatal on call 1 (seq=1)"] (λ cf,
    let parked := block_sequence 0 in
    wait_for cf parked (entered parked) ;;
    r ← join cf parked;
    err ← unwrap_err r;
    assert (is_sink_error err)).

Definition pipeline_suite : list (string * TestResult) := [
  ("ack_through_anchors_at_first_seen_after_resume", ack_through_anchors_at_first_seen_after_resume);
  ("runtime_fails_closed_when_decoder_rejects_envelope", runtime_fails_closed_when_decoder_rejects_envelope);
  ("buffer_source_returns_descriptors_after_producer_flush", buffer_source_returns_descriptors_after_producer_flush);
  ("dry_run_advances_progress_and_skips_sink", dry_run_advances_progress_and_skips_sink);
  ("live_mode_writes_to_sink_and_advances_ack_frontier", live_mode_writes_to_sink_and_advances_ack_frontier);
  ("pipeline_ack_correctness_under_fetch_concurrency_8", pipeline_ack_correctness_under_fetch_concurrency_8);
  ("pipeline_graceful_drain_completes_inflight_commits", pipeline_graceful_drain_completes_inflight_commits);
  ("pipeline_oversize_decoded_batch_halts_runtime", pipeline_oversize_decoded_batch_halts_runtime);
  ("pipeline_oversize_fault_saturating_mul_disables_gate", pipeline_oversize_fault_saturating_mul_disables_gate);
  ("pipeline_decode_byte_reconciliation_grows_reservation", pipeline_decode_byte_reconciliation_grows_reservation);
  ("pipeline_runtime_level_out_of_order_completion_no_frontier_hole", pipeline_runtime_level_out_of_order_completion_no_frontier_hole);
  ("pipeline_ack_through_called_only_on_frontier_advance", pipeline_ack_through_called_only_on_frontier_advance);
  ("pipeline_hard_abort_during_parked_sink_unwinds_pipeline", pipeline_hard_abort_during_parked_sink_unwinds_pipeline)].

Theorem pipeline_tests_pass : failures pipeline_suite = [].
Proof. vm_compute. reflexivity. Qed.
